(* ===== verification/_CoqProject ===== *)
-Q . S2P
Prelude.v
Text.v
FileRead.v
Metadata.v
FileStat.v
MetadataCodec.v
BitPack.v
BitPackInterleaved.v
TurboPForEncode.v
TurboPForDecode.v
PostingList.v
TurboPForSSE2.v
HashTable.v
Corpus.v
Glob.v
DirPath.v
Serializer.v
History.v
DbHeader.v
Conf.v
RecordReader.v
Scan.v
ScanOrder.v
ScanExact.v
ScanRuns.v
ShowdiffDb.v
ShowdiffCompare.v
ShowdiffReport.v
Trigrams.v
Search.v
SearchFile.v
LinearScan.v
DatabaseFile.v
DatabaseSearch.v
SearchMain.v
FlocateMain.v
AccessCache.v
Streams.v
ExistingDB.v
ExistingStream.v
StoredDatabase.v
DictBuilder.v
Updatedb.v
MetadataHash.v
IOUring.v
AsyncSearch.v
Stdio.v
BindMount.v
BuildInput.v
Publish.v
