(* ===== verification/Prelude.v ===== *)
(** * flocate: a verification development

    flocate finds files by parts of their names: updatedb (or flocate-build) writes a
    database of the names on a machine, flocate searches it, flocate-showdiff reports
    what has changed.  This library models the programs under src/src and src/include
    as functions and step relations and proves what makes them right.  It is written to be
    read beside the code: definitions keep the source's names, a file of the library
    stands for one or a few files of the source, and each names them at its top.

    ** The programs and the files that model them

    A database is a header, a dictionary, the names in compressed blocks, an index of the
    blocks, a hash table of trigrams and their posting lists (lists of block numbers), and
    optional sections: directory times, metadata, history, the dictionary for the next run
    and a configuration block.

    - _Foundations_.  [Prelude]: bytes and machine words, little-endian layout, bounds-checked
      loads and stores, lemmas on lists.  [Text]: string order, numbers in decimal.  [Stdio]:
      lines of a stream.  [FileRead]: complete_pread.cpp.  [FileStat], [Metadata], [DbHeader]:
      the records of stat(2), metadata.h and db.h.
    - _Posting lists_.  [BitPack] and [BitPackInterleaved]: the bit readers and writers.
      [TurboPForEncode] (turbopfor-encode.h), [TurboPForDecode] and [TurboPForSSE2]
      (turbopfor.cpp, portable and SSE2), [PostingList] ([PostingListBuilder]).
    - _Building a database_ (database-builder.cpp).  [Corpus]: blocks and trigrams.  [HashTable]:
      the table of trigrams, its insertion and lookup.  [Streams]: directory times and metadata,
      compressed as they arrive.  [DictBuilder]: the sample for the dictionary.  [DatabaseFile]:
      the layout, and the readers of flocate.cpp that find everything again.  [Publish]: how the
      file is written through stdio and gets its name.  [BuildInput]: flocate-build.cpp.
    - _Searching_ (flocate.cpp).  [Glob]: what patterns match, written from POSIX and not from the
      code.  [Trigrams]: parse_trigrams.cpp and unescaping.  [Search]: from
      trigrams to candidate blocks.  [SearchFile]: needles, scanning blocks, one database.
      [DatabaseSearch]: building and searching put together.  [IOUring]: io_uring_engine.cpp.
      [AccessCache]: access_rx_cache.cpp.  [AsyncSearch]: scanning candidate blocks over these
      two.  [LinearScan]: scanning all blocks with threads.
      [Serializer]: serializer.cpp.  [SearchMain] and [FlocateMain]: several databases, options,
      output and status.
    - _updatedb_ (updatedb.cpp).  [Conf]: conf.cpp and parse_size.h.  [DirPath]: lib.cpp.
      [BindMount]: bind-mount.cpp.  [MetadataHash]: metadata_hash.cpp.  [MetadataCodec]:
      metadata_codec.cpp.  [RecordReader]: the interface between the old database and the scan.
      [Scan], with [ScanOrder], [ScanExact] and [ScanRuns] for its theorems.  [History]: runs and
      clocks.  [ExistingDB] and [ExistingStream]: the reader of the old database.
      [StoredDatabase]: a database of records written and opened again.  [Updatedb]: [main].
    - _flocate-showdiff_ (showdiff.cpp).  [ShowdiffDb]: reading a database.  [ShowdiffCompare]:
      comparing snapshots, and one with the live tree.  [ShowdiffReport]: reports and modes.

    ** How the code is modelled

    Bytes and words are [Z] with their wrap-around written out; a buffer is a list.  A load or
    store outside a buffer, a failed assertion, a shift that C++ does not define and a call of
    exit that is not part of a result are [None] (or a constructor of an outcome type where the
    status matters), so that their absence is a theorem.  State is passed explicitly, callbacks are
    data: a call of the engine carries what its lambda captures.  The order in which a kernel,
    threads or an unordered_map deliver things is an argument or a permutation that theorems
    quantify over; system calls are functions of the model's world or lists of replies.  The
    publishing of a database, where every point at which the program may die matters, and the
    threads of the linear scan, where every interleaving does, are inductive step relations.

    Code outside the repository is a parameter, its documented behaviour a hypothesis of
    the theorems that need it: zstd (decompressing gives back what was compressed; the
    streaming interface is a class with laws in [Streams], which a codec that stores its input
    satisfies), the matching functions and the locale of the C library, the trainer of
    dictionaries, random numbers.  Clients of a component are proved against an interface:
    [RecordReader] (the scan needs only a sequence of records with room to put one back;
    [ExistingStream] shows that the old database is one), [ClientLaws] (what a client owes the
    engine, and so gets every callback once), [StreamCodec].

    ** What the theorems show

    - Building and searching: searching the database that was built for a list of names, or for
      a text given to flocate-build, prints exactly the names that match, in order and up to the
      limit; this is proved down to the bytes of the file, for [main] over several such files
      with its status and output, and with reads and stats completing in any order.  The
      names are not empty, hold no NUL and do not have exactly three bytes.  The steps on the way are theorems of their own: the index of trigrams
      holds exactly the blocks with a trigram; posting lists survive encoding; the SSE2 decoder
      agrees with the portable one; the hash table finds what was put in; the trigrams asked for are in
      every name that the pattern matches by the reading of [Glob], for the patterns whose
      brackets the code reads as POSIX does; the serializer prints in sequence whatever the order of arrival.
    - updatedb: the incremental scan has the outcome of a full scan with lookups by path, as far
      as unchanged timestamps mean unchanged directories; what it
      stores is grouped as the next scan needs it; nothing pruned is stored; a run as a whole, from
      the old file to the new one, is what its specification says; the database can be opened again
      and delivers the same records, dictionary and history; a crash at any point leaves the old
      database or a complete new one (or none, where there is no temporary name), provided that no write fails.
    - Reading untrusted or foreign bytes: loading a snapshot stays within the file and the buffers;
      configuration files, mountinfo, mlocate databases and sizes are read as their formats say.
    - flocate-showdiff: both comparisons give the events of one specification.
    - Engines, caches and threads: every request is answered once and correctly; the threads of
      the linear scan neither block each other nor run for ever nor lose a result, however they
      are scheduled; hashing depends on the contents of a file only, and is SHA-256 of
      them, or XXH64 where fewer than eight bytes are left after the stripes of 32; for other
      lengths it is XXH64 without one of its rotations, a bug of the code.

    What is described elsewhere is specified from that description and not from the code: patterns
    ([Glob]), digests ([MetadataHash]), the formats of mountinfo ([BindMount]) and of mlocate
    ([BuildInput]).  Where the code does something else than these or than its
    comments and documentation say, an [Example] runs the definitions on an input that shows it,
    and the theorem says what it assumes so as not to meet that input.

    ** Fuel

    A loop that is not structural has fuel, and running out of it is [None].  Results are stated
    as [Some] with a bound that is enough (the length of the input for loops that consume bytes,
    the potential of a client's requests for the engine, the distance to the next prime for
    [next_prime]), or as "from some fuel on" for the loops of the compressor, whose length the
    library decides ([eventually] in [Streams]).  One loop is left out: [finish_corpus] enlarges the
    hash table until no trigram is displaced by more than 16 slots, and ends only if the hash
    spreads them well enough; theorems on a database that was built have its being built as a
    hypothesis, and their witnesses build one.

    ** Not modelled

    bench.cpp and dprintf.h (benchmark and debugging output), help and version texts, statistics
    that updatedb and flocate print when debugging, the raising of the limit on open files,
    getopt_long (the options arrive as a list), memory orderings weaker than a step at a time
    (what threads share is behind a mutex or atomic), and system calls that only give hints
    (posix_fadvise).  In [BuildInput] streams fail only by ending; in
    [Publish] no other program touches the directory meanwhile. *)
From stdpp Require Export base list gmap strings numbers sorting.
From Stdlib Require Export ZArith Lia ZifyNat Bool Ascii.

#[global] Open Scope Z_scope.

(** ** Bytes and machine words *)

(** A byte is a [Z] in [0, 256); a buffer or C++ string is a list of bytes. *)
Abbreviation bytes := (list Z).

Definition is_byte (b : Z) : Prop := 0 <= b < 256.

#[global] Instance is_byte_dec b : Decision (is_byte b).
Proof. unfold is_byte. apply _. Defined.

Definition bytes_of_string (s : string) : bytes :=
  map (fun c => Z.of_N (N_of_ascii c)) (String.list_ascii_of_string s).

Definition u8 (z : Z) : Z := z mod 2 ^ 8.
Definition u32 (z : Z) : Z := z mod 2 ^ 32.
Definition u64 (z : Z) : Z := z mod 2 ^ 64.
Definition i32 (z : Z) : Z := (z + 2 ^ 31) mod 2 ^ 32 - 2 ^ 31.
Definition i64 (z : Z) : Z := (z + 2 ^ 63) mod 2 ^ 64 - 2 ^ 63.

Definition is_u8 (z : Z) : Prop := 0 <= z < 2 ^ 8.
Definition is_u32 (z : Z) : Prop := 0 <= z < 2 ^ 32.
Definition is_u64 (z : Z) : Prop := 0 <= z < 2 ^ 64.
Definition is_i32 (z : Z) : Prop := - 2 ^ 31 <= z < 2 ^ 31.
Definition is_i64 (z : Z) : Prop := - 2 ^ 63 <= z < 2 ^ 63.

(** Little-endian layout of an [n]-byte integer, and its inverse. *)
Fixpoint le_bytes (n : nat) (v : Z) : bytes :=
  match n with
  | O => []
  | S n => v mod 256 :: le_bytes n (v / 256)
  end.

Fixpoint le_val (l : bytes) : Z :=
  match l with
  | [] => 0
  | b :: l => b + 256 * le_val l
  end.

(** Bounds-checked load of [n] little-endian bytes at offset [p]: [None] is an
    access outside the buffer. *)
Definition rd (n : nat) (m : bytes) (p : nat) : option Z :=
  if decide (p + n <= length m)%nat then Some (le_val (take n (drop p m))) else None.

(** Bounds-checked store at offset [p]: [None] is an access outside the buffer. *)
Definition wr (m : bytes) (p : nat) (bs : bytes) : option bytes :=
  if decide (p + length bs <= length m)%nat
  then Some (take p m ++ bs ++ drop (p + length bs) m) else None.

(** ** Automation *)

Create HintDb flocate.
Create Rewrite HintDb flocate.

(** Splits conjunctions and existentials of the context. *)
Ltac destruct_conjs :=
  repeat match goal with
  | H : _ /\ _ |- _ => destruct H
  | H : exists _, _ |- _ => destruct H
  end.

(** Closes range side conditions on machine words. *)
Ltac solve_word :=
  unfold is_byte, is_u8, is_u32, is_u64, is_i32, is_i64 in *;
  change (2 ^ 8) with 256 in *; change (2 ^ 16) with 65536 in *;
  change (2 ^ 31) with 2147483648 in *; change (2 ^ 32) with 4294967296 in *;
  change (2 ^ 63) with 9223372036854775808 in *;
  change (2 ^ 64) with 18446744073709551616 in *; lia.

(** ** Words: lemmas *)

Lemma u32_small z : is_u32 z -> u32 z = z.
Proof. apply Z.mod_small. Qed.
Lemma u64_small z : is_u64 z -> u64 z = z.
Proof. apply Z.mod_small. Qed.
Lemma u32_range z : is_u32 (u32 z).
Proof. apply Z.mod_pos_bound. lia. Qed.
Lemma u64_range z : is_u64 (u64 z).
Proof. apply Z.mod_pos_bound. lia. Qed.

Lemma i32_u32 z : is_i32 z -> i32 (u32 z) = z.
Proof.
  unfold is_i32, i32, u32; intros H.
  rewrite Zplus_mod_idemp_l, Z.mod_small by lia. lia.
Qed.

Lemma i64_u64 z : is_i64 z -> i64 (u64 z) = z.
Proof.
  unfold is_i64, i64, u64; intros H.
  rewrite Zplus_mod_idemp_l, Z.mod_small by lia. lia.
Qed.

#[export] Hint Resolve u32_range u64_range : flocate.

(** ** Little-endian layout: lemmas *)

Lemma length_le_bytes n v : length (le_bytes n v) = n.
Proof. revert v; induction n; intros; simpl; auto. Qed.

Lemma le_bytes_byte n v : Forall is_byte (le_bytes n v).
Proof.
  revert v; induction n; intros; simpl; constructor; auto.
  apply Z.mod_pos_bound. lia.
Qed.

Lemma pow256_S n : 256 ^ Z.of_nat (S n) = 256 * 256 ^ Z.of_nat n.
Proof. rewrite Nat2Z.inj_succ, Z.pow_succ_r; lia. Qed.

Lemma pow256_pos n : 0 < 256 ^ Z.of_nat n.
Proof. apply Z.pow_pos_nonneg; lia. Qed.

Lemma pow256_pow2 n : 256 ^ Z.of_nat n = 2 ^ (8 * Z.of_nat n).
Proof. rewrite Z.pow_mul_r by lia. reflexivity. Qed.

Lemma le_val_le_bytes n v : le_val (le_bytes n v) = v mod 256 ^ Z.of_nat n.
Proof.
  revert v; induction n; intros v.
  { simpl. by rewrite Z.mod_1_r. }
  simpl le_bytes; cbn [le_val]. rewrite IHn, pow256_S, Z.rem_mul_r;
    [lia | lia | apply pow256_pos].
Qed.

Lemma le_val_le_bytes_small n v :
  0 <= v < 256 ^ Z.of_nat n -> le_val (le_bytes n v) = v.
Proof. intros H. by rewrite le_val_le_bytes, Z.mod_small. Qed.

Lemma le_val_range l : Forall is_byte l -> 0 <= le_val l < 256 ^ Z.of_nat (length l).
Proof.
  induction 1 as [|b l Hb _ IH]; [simpl; lia|].
  cbn [le_val length]. rewrite pow256_S. unfold is_byte in Hb. lia.
Qed.

Lemma le_bytes_le_val l : Forall is_byte l -> le_bytes (length l) (le_val l) = l.
Proof.
  induction 1 as [|b l Hb Hl IH]; simpl; auto.
  unfold is_byte in Hb. f_equal.
  - replace (b + 256 * le_val l) with (b + le_val l * 256) by lia.
    rewrite Z_mod_plus_full. by apply Z.mod_small.
  - replace (b + 256 * le_val l) with (b + le_val l * 256) by lia.
    by rewrite Z_div_plus_full, Z.div_small by lia.
Qed.

Lemma le_bytes_app n m v :
  le_bytes (n + m) v = le_bytes n v ++ le_bytes m (v / 256 ^ Z.of_nat n).
Proof.
  revert v; induction n; intros v.
  { simpl. by rewrite Z.div_1_r. }
  rewrite pow256_S. cbn [le_bytes Nat.add app]. f_equal. rewrite IHn.
  by rewrite Z.div_div by (lia || apply pow256_pos).
Qed.

Lemma le_bytes_mod n v : le_bytes n (v mod 256 ^ Z.of_nat n) = le_bytes n v.
Proof.
  pose proof (le_bytes_le_val (le_bytes n v) (le_bytes_byte _ _)) as H.
  by rewrite length_le_bytes, le_val_le_bytes in H.
Qed.

Lemma le_bytes_mod_eq n v w :
  v mod 256 ^ Z.of_nat n = w mod 256 ^ Z.of_nat n -> le_bytes n v = le_bytes n w.
Proof. intros H. by rewrite <- (le_bytes_mod n v), H, le_bytes_mod. Qed.

Lemma le_bytes_u32 v : le_bytes 4 (u32 v) = le_bytes 4 v.
Proof. apply (le_bytes_mod 4). Qed.

Lemma le_bytes_u64 v : le_bytes 8 (u64 v) = le_bytes 8 v.
Proof. apply (le_bytes_mod 8). Qed.

Lemma le_val_app l k : le_val (l ++ k) = le_val l + 256 ^ Z.of_nat (length l) * le_val k.
Proof.
  induction l as [|b l IH]; [simpl; lia|].
  cbn [app le_val length]. rewrite IH, pow256_S. lia.
Qed.

Lemma take_le_bytes n k v : (n <= k)%nat -> take n (le_bytes k v) = le_bytes n v.
Proof.
  intros H. replace k with (n + (k - n))%nat by lia.
  rewrite le_bytes_app, take_app_le by (rewrite length_le_bytes; lia).
  rewrite take_ge; auto. rewrite length_le_bytes; lia.
Qed.

#[export] Hint Rewrite length_le_bytes : flocate.
#[export] Hint Resolve le_bytes_byte : flocate.

(** ** Buffers: lemmas *)

Lemma rd_app_l n m k p : (p + n <= length m)%nat -> rd n (m ++ k) p = rd n m p.
Proof.
  intros H. unfold rd. rewrite length_app.
  rewrite !decide_True by lia. do 2 f_equal.
  rewrite drop_app_le by lia. rewrite take_app_le; auto.
  rewrite length_drop. lia.
Qed.

Lemma rd_app_r n m k p : rd n (m ++ k) (length m + p) = rd n k p.
Proof.
  unfold rd. rewrite length_app, drop_app_add.
  destruct (decide (p + n <= length k)%nat);
    [rewrite decide_True by lia | rewrite decide_False by lia]; auto.
Qed.

Lemma rd_Some n m p v : rd n m p = Some v -> (p + n <= length m)%nat.
Proof. unfold rd. case_decide; congruence. Qed.

Lemma wr_length m p bs m' : wr m p bs = Some m' -> length m' = length m.
Proof.
  unfold wr. case_decide; [|discriminate]. intros [= <-].
  rewrite !length_app, length_take, length_drop. lia.
Qed.

Lemma wr_is_Some m p bs : (p + length bs <= length m)%nat -> is_Some (wr m p bs).
Proof. intros H. unfold wr. rewrite decide_True by lia. eauto. Qed.

(** The store leaves everything before [p] alone, puts [bs] at [p], and leaves
    everything from [p + length bs] on alone. *)
Lemma wr_take m p bs m' k : wr m p bs = Some m' -> (k <= p)%nat -> take k m' = take k m.
Proof.
  unfold wr. case_decide as Hd; [|discriminate]. intros [= <-] Hk.
  rewrite take_app_le by (rewrite length_take; lia).
  by rewrite take_take, Nat.min_l by lia.
Qed.

Lemma wr_mid m p bs m' :
  wr m p bs = Some m' -> take (p + length bs) m' = take p m ++ bs.
Proof.
  unfold wr. case_decide as Hd; [|discriminate]. intros [= <-].
  rewrite app_assoc, take_app_le;
    [|rewrite length_app, length_take; lia].
  apply take_ge. rewrite length_app, length_take; lia.
Qed.

Lemma wr_lookup_ne m p bs m' i :
  wr m p bs = Some m' -> (i < p \/ p + length bs <= i)%nat -> m' !! i = m !! i.
Proof.
  unfold wr. case_decide as Hd; [|discriminate]. intros [= <-] [Hi|Hi].
  - rewrite lookup_app_l by (rewrite length_take; lia). apply lookup_take_lt; lia.
  - rewrite lookup_app_r by (rewrite length_take; lia).
    rewrite lookup_app_r by (rewrite length_take; lia).
    rewrite lookup_drop, length_take. f_equal. lia.
Qed.

Lemma wr_lookup_eq m p bs m' i :
  wr m p bs = Some m' -> (i < length bs)%nat -> m' !! (p + i)%nat = bs !! i.
Proof.
  unfold wr. case_decide as Hd; [|discriminate]. intros [= <-] Hi.
  rewrite lookup_app_r by (rewrite length_take; lia).
  rewrite length_take, Nat.min_l by lia.
  replace (p + i - p)%nat with i by lia.
  by rewrite lookup_app_l.
Qed.

(** ** Bit operations: lemmas *)

Lemma land_255_shiftr v i : 0 <= i -> Z.land (Z.shiftr v (8 * i)) 255 = v / 256 ^ i mod 256.
Proof.
  intros Hi. change 255 with (Z.ones 8). rewrite Z.land_ones by lia.
  rewrite Z.shiftr_div_pow2 by lia. by rewrite Z.pow_mul_r by lia.
Qed.

Lemma land_shiftl_disjoint v b k : 0 <= k -> 0 <= v < 2 ^ k -> Z.land v (Z.shiftl b k) = 0.
Proof.
  intros Hk Hv. apply Z.bits_inj'. intros n Hn.
  rewrite Z.land_spec, Z.shiftl_spec, Z.bits_0 by lia. destruct (Z.ltb_spec n k).
  - rewrite (Z.testbit_neg_r b (n - k)) by lia. apply andb_false_r.
  - rewrite <- (Z.mod_small v (2 ^ k)) by lia. by rewrite Z.mod_pow2_bits_high by lia.
Qed.

(** An [or] of operands that share no bit is a sum. *)
Lemma lor_shiftl_add v b k : 0 <= k -> 0 <= v < 2 ^ k -> Z.lor v (Z.shiftl b k) = v + b * 2 ^ k.
Proof.
  intros Hk Hv. pose proof (land_shiftl_disjoint v b k Hk Hv) as Hd.
  rewrite <- Z.shiftl_mul_pow2, Z.add_nocarry_lxor, Z.lxor_lor; auto.
Qed.

Lemma le_bytes_seq n v :
  le_bytes n v = map (fun i => Z.land (Z.shiftr v (8 * Z.of_nat i)) 255) (seq 0 n).
Proof.
  assert (H : forall k w, w = v / 256 ^ Z.of_nat k ->
    le_bytes n w = map (fun i => Z.land (Z.shiftr v (8 * Z.of_nat i)) 255) (seq k n)).
  { induction n; intros k w ->; simpl; auto. f_equal.
    - by rewrite land_255_shiftr by lia.
    - apply IHn. rewrite pow256_S, (Z.mul_comm 256), Z.div_div; auto; [|lia].
      pose proof (pow256_pos k); lia. }
  apply (H 0%nat). by rewrite Z.div_1_r.
Qed.
