(* ===== verification/Text.v ===== *)
(** * Text: string order, sorting, character classes and numbers

    What several components take from the C and C++ standard libraries in the
    "C" locale ([<ctype.h>], [strtol], [to_string], [std::string::operator<]),
    and the repository's include/unique_sort.h. *)
From S2P Require Import Prelude.

(** ** Definitions *)

(** [operator<] of strings: by bytes, a prefix first. *)
Fixpoint bytes_lt (a b : bytes) : bool :=
  match a, b with
  | _, [] => false
  | [], _ => true
  | x :: a, y :: b => (x <? y) || ((x =? y) && bytes_lt a b)
  end.

(** [unique_sort]: sort, then drop every element equal to its predecessor. *)
Fixpoint unique {A} `{EqDecision A} (l : list A) : list A :=
  match l with
  | [] => []
  | x :: l =>
    match l with
    | [] => [x]
    | y :: _ => if decide (x = y) then unique l else x :: unique l
    end
  end.

Definition not_above {A} (lt : A -> A -> bool) (a b : A) : Prop := lt b a = false.

#[global] Instance not_above_dec {A} (lt : A -> A -> bool) a b : Decision (not_above lt a b).
Proof. unfold not_above. apply _. Defined.

Definition unique_sort {A} `{EqDecision A} (lt : A -> A -> bool) (l : list A) : list A :=
  unique (merge_sort (not_above lt) l).

(** The character classes of the "C" locale. *)
Definition between (a b c : Z) : bool := (a <=? c) && (c <=? b).
Definition isspace (c : Z) : bool := (c =? 32) || between 9 13 c.
Definition isdigit (c : Z) : bool := between 48 57 c.
Definition isalpha (c : Z) : bool := between 65 90 c || between 97 122 c.
Definition isalnum (c : Z) : bool := isalpha c || isdigit c.
Definition toupper (c : Z) : Z := if between 97 122 c then c - 32 else c.
Definition tolower (c : Z) : Z := if between 65 90 c then c + 32 else c.

(** The C string at the start of a [std::string]'s data. *)
Fixpoint c_str (s : bytes) : bytes :=
  match s with
  | [] => []
  | c :: s => if c =? 0 then [] else c :: c_str s
  end.

(** Decimal digits: what [strtol] and [strtoull] read in base 10, the value so
    far and the rest; [to_string] of a non-negative number. *)
Fixpoint digits_val (acc : Z) (s : bytes) : Z * bytes :=
  match s with
  | [] => (acc, [])
  | c :: s' => if isdigit c then digits_val (10 * acc + (c - 48)) s' else (acc, s)
  end.

Fixpoint skip_space (s : bytes) : bytes :=
  match s with
  | [] => []
  | c :: s' => if isspace c then skip_space s' else s
  end.

(** The sign, whether there were digits, the magnitude and the rest. *)
Definition scan_number (s : bytes) : option (bool * Z * bytes) :=
  let s := skip_space s in
  let '(neg, s) :=
    match s with
    | c :: s' => if c =? 45 then (true, s') else if c =? 43 then (false, s') else (false, s)
    | [] => (false, s)
    end in
  match s with
  | c :: _ => if isdigit c then let '(v, rest) := digits_val 0 s in Some (neg, v, rest) else None
  | [] => None
  end.

(** [strtol] and [strtoull] in base 10: the value, whether [errno] is set, and
    the rest of the string; without digits nothing is consumed. *)
Definition strtol (s : bytes) : Z * bool * bytes :=
  match scan_number s with
  | None => (0, false, s)
  | Some (neg, v, rest) =>
    let v := if neg then - v else v in
    if v <? - 2 ^ 63 then (- 2 ^ 63, true, rest)
    else if 2 ^ 63 - 1 <? v then (2 ^ 63 - 1, true, rest)
    else (v, false, rest)
  end.

Definition strtoull (s : bytes) : Z * bool * bytes :=
  match scan_number s with
  | None => (0, false, s)
  | Some (neg, v, rest) =>
    if 2 ^ 64 - 1 <? v then (2 ^ 64 - 1, true, rest)
    else (u64 (if neg then - v else v), false, rest)
  end.

Fixpoint to_digits (fuel : nat) (z : Z) (acc : bytes) : bytes :=
  match fuel with
  | O => acc
  | S fuel =>
    let acc := 48 + z mod 10 :: acc in
    if z <? 10 then acc else to_digits fuel (z / 10) acc
  end.

(** [to_string] of an integer of at most 64 bits. *)
Definition to_string (z : Z) : bytes :=
  if z <? 0 then 45 :: to_digits 20 (- z) [] else to_digits 20 z [].

(** ** Order and sorting: lemmas *)

Lemma bytes_lt_irrefl a : bytes_lt a a = false.
Proof. induction a as [|x a IH]; [done|]. cbn. by rewrite Z.ltb_irrefl, Z.eqb_refl, IH. Qed.

Lemma bytes_lt_spec x a y b :
  bytes_lt (x :: a) (y :: b) = true <-> x < y \/ x = y /\ bytes_lt a b = true.
Proof. cbn. rewrite orb_true_iff, andb_true_iff, Z.ltb_lt, Z.eqb_eq. tauto. Qed.

Lemma bytes_lt_trans a : forall b c, bytes_lt a b = true -> bytes_lt b c = true -> bytes_lt a c = true.
Proof.
  induction a as [|x a IH]; intros [|y b] [|z c]; try done.
  rewrite !bytes_lt_spec. intros [H|[-> H]] [H'|[<- H']]; try (left; lia). right. eauto.
Qed.

Lemma bytes_lt_trichotomy a : forall b, bytes_lt a b = false -> bytes_lt b a = false -> a = b.
Proof.
  induction a as [|x a IH]; intros [|y b]; try done. cbn. rewrite !orb_false_iff, !andb_false_iff.
  rewrite !Z.ltb_ge, !Z.eqb_neq. intros [H1 H2] [H3 H4]. assert (x = y) as -> by lia.
  f_equal. apply IH; [by destruct H2|by destruct H4].
Qed.

#[global] Instance bytes_le_total : Total (not_above bytes_lt).
Proof.
  intros a b. unfold not_above. destruct (bytes_lt b a) eqn:E1; [|by left]. right.
  destruct (bytes_lt a b) eqn:E2; [|done].
  pose proof (bytes_lt_trans _ _ _ E1 E2) as H. by rewrite bytes_lt_irrefl in H.
Qed.

#[global] Instance bytes_le_antisymm : AntiSymm (=) (not_above bytes_lt).
Proof. intros a b H1 H2. by apply bytes_lt_trichotomy. Qed.

#[global] Instance bytes_le_trans : Transitive (not_above bytes_lt).
Proof.
  intros a b c H1 H2. unfold not_above in *. destruct (bytes_lt c a) eqn:E; [|done].
  destruct (bytes_lt b c) eqn:E2.
  - by rewrite (bytes_lt_trans _ _ _ E2 E) in H1.
  - assert (b = c) as <- by by apply bytes_lt_trichotomy. congruence.
Qed.

Section unique_lemmas.
Context {A : Type} `{EqDecision A} (R : relation A).

Lemma elem_of_unique (l : list A) x : x ∈ unique l <-> x ∈ l.
Proof.
  induction l as [|y l IH]; [done|]. cbn [unique]. destruct l as [|z l]; [done|].
  destruct (decide (y = z)) as [->|_].
  - rewrite IH, !elem_of_cons. tauto.
  - rewrite (elem_of_cons (unique _)), IH. by rewrite !elem_of_cons.
Qed.

Lemma elem_of_unique_sort lt (l : list A) x : x ∈ unique_sort lt l <-> x ∈ l.
Proof. unfold unique_sort. by rewrite elem_of_unique, merge_sort_Permutation. Qed.

Lemma unique_sorted l : StronglySorted R l -> StronglySorted R (unique l).
Proof.
  induction 1 as [|x l S IH F]; [constructor|]. cbn [unique].
  destruct l as [|y l]; [by repeat constructor|]. destruct (decide (x = y)); [done|].
  constructor; [done|]. rewrite Forall_forall in F |- *. intros z Hz. rewrite elem_of_unique in Hz. by apply F.
Qed.

Lemma unique_nodup `{!AntiSymm (=) R} l : StronglySorted R l -> NoDup (unique l).
Proof.
  induction 1 as [|x l S IH F]; [constructor|]. cbn [unique].
  destruct l as [|y l]; [by apply NoDup_singleton|]. destruct (decide (x = y)) as [|Hn]; [done|].
  constructor; [|done]. rewrite elem_of_unique. intros Hin. apply Hn.
  pose proof (Forall_inv F) as Hxy. apply elem_of_cons in Hin as [|Hin]; [done|].
  inversion S as [|? ? _ F2]; subst. rewrite Forall_forall in F2. apply (anti_symm R); auto.
Qed.
End unique_lemmas.

(** [unique_sort] gives the sorted list of the elements without duplicates... *)
Lemma unique_sort_bytes_sorted (l : list bytes) :
  StronglySorted (not_above bytes_lt) (unique_sort bytes_lt l) /\ NoDup (unique_sort bytes_lt l).
Proof.
  pose proof (StronglySorted_merge_sort (not_above bytes_lt) l) as S. unfold unique_sort.
  split; [by apply unique_sorted|by apply (unique_nodup (not_above bytes_lt))].
Qed.

(** ...which is the same for all lists with the same elements. *)
Lemma unique_sort_bytes_canonical (l k : list bytes) : (forall x, x ∈ l <-> x ∈ k) ->
  unique_sort bytes_lt l = unique_sort bytes_lt k.
Proof.
  intros H. destruct (unique_sort_bytes_sorted l) as [Sl Nl], (unique_sort_bytes_sorted k) as [Sk Nk].
  apply (StronglySorted_unique (not_above bytes_lt)); [done|done|].
  apply NoDup_Permutation; [done|done|]. intros x. rewrite !elem_of_unique_sort. apply H.
Qed.

(** ** Characters: lemmas *)

Lemma between_spec a b c : between a b c = true <-> a <= c <= b.
Proof. unfold between. rewrite andb_true_iff, !Z.leb_le. tauto. Qed.

Lemma toupper_idemp c : toupper (toupper c) = toupper c.
Proof.
  unfold toupper, between. destruct (97 <=? c) eqn:E1; [|cbn [andb]; by rewrite E1].
  destruct (c <=? 122) eqn:E2; cbn [andb]; [|by rewrite E1, E2].
  replace (97 <=? c - 32) with false by (symmetry; apply Z.leb_gt; lia). done.
Qed.

Lemma toupper_zero c : toupper c = 0 -> c = 0.
Proof.
  unfold toupper. destruct (between 97 122 c) eqn:E; [|done]. apply between_spec in E. lia.
Qed.

Lemma c_str_id s : 0 ∉ s -> c_str s = s.
Proof.
  induction s as [|c s IH]; [done|]. rewrite not_elem_of_cons. intros [H1 H2]. cbn.
  replace (c =? 0) with false by (symmetry; apply Z.eqb_neq; lia). by rewrite IH.
Qed.

(** ** Numbers: lemmas *)

Lemma digits_val_app ds : forall acc s, Forall (fun c => isdigit c = true) ds ->
  (match s with [] => true | c :: _ => negb (isdigit c) end) = true ->
  digits_val acc (ds ++ s) = (fst (digits_val acc ds), s).
Proof.
  induction ds as [|d ds IH]; intros acc s F Hs; cbn [app digits_val fst].
  - destruct s as [|c s]; [done|]. cbn. apply negb_true_iff in Hs. by rewrite Hs.
  - apply Forall_cons in F as [Hd F]. rewrite Hd. by rewrite IH.
Qed.

Lemma isdigit_range d : 0 <= d < 10 -> isdigit (48 + d) = true.
Proof. intros. apply between_spec. lia. Qed.

Lemma digits_val_snoc ds : forall acc d, Forall (fun c => isdigit c = true) ds -> isdigit d = true ->
  fst (digits_val acc (ds ++ [d])) = 10 * fst (digits_val acc ds) + (d - 48).
Proof.
  induction ds as [|e ds IH]; intros acc d F Hd; cbn [app digits_val].
  - by rewrite Hd.
  - apply Forall_cons in F as [He F]. rewrite He. by apply IH.
Qed.

Lemma to_digits_spec fuel : forall z acc, 0 <= z < 10 ^ Z.of_nat fuel -> (0 < fuel)%nat ->
  exists ds, to_digits fuel z acc = ds ++ acc /\ Forall (fun c => isdigit c = true) ds /\ ds <> [] /\
    fst (digits_val 0 ds) = z.
Proof.
  induction fuel as [|fuel IH]; intros z acc Hz Hf; [lia|]. cbn [to_digits].
  pose proof (Z.mod_pos_bound z 10 ltac:(lia)) as Hm. destruct (Z.ltb_spec z 10) as [Hs|Hs].
  - exists [48 + z mod 10]. split; [done|]. split; [by repeat constructor; apply isdigit_range|].
    split; [done|]. cbn [digits_val]. rewrite isdigit_range by done. cbn [fst].
    rewrite Z.mod_small by lia. lia.
  - rewrite Nat2Z.inj_succ, Z.pow_succ_r in Hz by lia.
    destruct fuel as [|fuel]; [cbn in Hz; lia|].
    pose proof (Z.div_mod z 10 ltac:(lia)) as Hdm.
    destruct (IH (z / 10) (48 + z mod 10 :: acc)) as (ds & E & F & Hne & Hv); [|lia|].
    { split; [apply Z.div_pos; lia|]. apply Z.div_lt_upper_bound; lia. }
    exists (ds ++ [48 + z mod 10]). rewrite E, <- app_assoc. split; [done|]. split; [|split].
    + apply Forall_app. split; [done|]. by repeat constructor; apply isdigit_range.
    + by destruct ds.
    + rewrite digits_val_snoc by (done || by apply isdigit_range). rewrite Hv. lia.
Qed.

(** A printed number reads back. *)
Lemma scan_to_string z s : 0 <= z < 10 ^ 20 ->
  (match s with [] => true | c :: _ => negb (isdigit c) end) = true ->
  scan_number (to_string z ++ s) = Some (false, z, s).
Proof.
  intros Hz Hs. unfold to_string. replace (z <? 0) with false by (symmetry; apply Z.ltb_ge; lia).
  destruct (to_digits_spec 20 z [] Hz ltac:(lia)) as (ds & E & F & Hne & Hv).
  rewrite E, app_nil_r. clear E. destruct ds as [|d ds]; [done|]. pose proof (Forall_inv F) as Hd.
  assert (Hr : 48 <= d <= 57) by by apply between_spec.
  unfold scan_number. cbn [app skip_space].
  replace (isspace d) with false; [|unfold isspace, between; lia].
  replace (d =? 45) with false by lia. replace (d =? 43) with false by lia.
  rewrite Hd. change (d :: ds ++ s) with ((d :: ds) ++ s). rewrite digits_val_app by done.
  by rewrite Hv.
Qed.

Lemma strtol_to_string z s : 0 <= z < 2 ^ 63 ->
  (match s with [] => true | c :: _ => negb (isdigit c) end) = true ->
  strtol (to_string z ++ s) = (z, false, s).
Proof.
  change (2 ^ 63) with 9223372036854775808. intros Hz Hs. unfold strtol.
  rewrite scan_to_string by (done || lia). change (2 ^ 63) with 9223372036854775808.
  replace (z <? _) with false by lia. by replace (_ <? z) with false by lia.
Qed.

Lemma strtoull_to_string z s : 0 <= z < 10 ^ 20 ->
  (match s with [] => true | c :: _ => negb (isdigit c) end) = true ->
  strtoull (to_string z ++ s) = if z <? 2 ^ 64 then (z, false, s) else (2 ^ 64 - 1, true, s).
Proof.
  intros Hz Hs. unfold strtoull. rewrite scan_to_string by done.
  change (2 ^ 64) with 18446744073709551616. destruct (Z.ltb_spec z 18446744073709551616) as [H|H].
  - replace (_ <? z) with false by lia. rewrite u64_small; [done|]. clear Hs. solve_word.
  - by replace (_ <? z) with true by lia.
Qed.

Lemma to_string_digits z : 0 <= z < 10 ^ 20 -> Forall (fun c => isdigit c = true) (to_string z).
Proof.
  intros Hz. unfold to_string. replace (z <? 0) with false by (symmetry; apply Z.ltb_ge; lia).
  destruct (to_digits_spec 20 z [] Hz ltac:(lia)) as (ds & E & F & _). by rewrite E, app_nil_r.
Qed.

Lemma to_string_inj y z : 0 <= y < 10 ^ 20 -> 0 <= z < 10 ^ 20 -> to_string y = to_string z -> y = z.
Proof.
  intros Hy Hz E. pose proof (scan_to_string y [] Hy eq_refl) as H1.
  pose proof (scan_to_string z [] Hz eq_refl) as H2. rewrite E in H1. congruence.
Qed.
