(* ===== verification/FileRead.v ===== *)
(** * Reading a whole range of a file (src/complete_pread.cpp, src/showdiff.cpp)

    [pread] may be interrupted, fail, or return less than it was asked for.  A
    list of replies says what it does on each call; the data come from the file.
    Both loops of the program are shown to return exactly the range. *)
From S2P Require Import Prelude.

(** ** Definitions *)

(** What one [pread] does: fail with [EINTR] or another error, or return at most
    [n] bytes (at least one unless at the end of the file). *)
Inductive PreadReply :=
| PreadEintr
| PreadError
| PreadUpTo (n : nat).

Definition pread (file : bytes) (len offset : nat) (n : nat) : bytes :=
  take (Nat.min (Nat.max n 1) len) (drop offset file).

Inductive ReadResult :=
| ReadOk (data : bytes)
| ShortRead
| ReadFailed.

(** [try_complete_pread]: the buffer so far and what is left; [None] when the
    replies run out before the loop ends. *)
Fixpoint try_complete_pread (file : bytes) (replies : list PreadReply) (len offset : nat) (buf : bytes)
    : option ReadResult :=
  if (len =? 0)%nat then Some (ReadOk buf)
  else
    match replies with
    | [] => None
    | PreadEintr :: replies => try_complete_pread file replies len offset buf
    | PreadError :: _ => Some ReadFailed
    | PreadUpTo n :: replies =>
      let data := pread file len offset n in
      if (length data =? 0)%nat then Some ShortRead
      else try_complete_pread file replies (len - length data) (offset + length data) (buf ++ data)
    end.

(** [complete_pread]: [None] ends the program. *)
Definition complete_pread (file : bytes) (replies : list PreadReply) (len offset : nat)
    : option (option bytes) :=
  r ← try_complete_pread file replies len offset [];
  Some match r with ReadOk buf => Some buf | _ => None end.

(** [pread_fully] of flocate-showdiff. *)
Fixpoint pread_fully (file : bytes) (replies : list PreadReply) (len offset : nat) (buf : bytes)
    : option (option bytes) :=
  if (len =? 0)%nat then Some (Some buf)
  else
    match replies with
    | [] => None
    | PreadUpTo n :: replies =>
      let data := pread file len offset n in
      if (length data =? 0)%nat then Some None
      else pread_fully file replies (len - length data) (offset + length data) (buf ++ data)
    | PreadEintr :: replies => pread_fully file replies len offset buf
    | PreadError :: _ => Some None
    end.

(** ** Specification *)

(** The range of the file, if it has it. *)
Definition read_range (file : bytes) (len offset : nat) : option bytes :=
  if decide (len = 0%nat) then Some []
  else if decide (offset + len <= length file)%nat then Some (take len (drop offset file)) else None.

Definition is_chunk (r : PreadReply) : bool := match r with PreadUpTo _ => true | _ => false end.

(** ** Lemmas *)

Lemma length_pread file len offset n :
  length (pread file len offset n) = Nat.min (Nat.min (Nat.max n 1) len) (length file - offset).
Proof. unfold pread. rewrite length_take, length_drop. lia. Qed.

Lemma read_range_step file len offset n : (0 < len)%nat -> (0 < length (pread file len offset n))%nat ->
  let data := pread file len offset n in
  read_range file len offset =
  rest ← read_range file (len - length data) (offset + length data); Some (data ++ rest).
Proof.
  intros Hlen Hd. pose proof (length_pread file len offset n) as Hl. cbn zeta.
  unfold read_range. rewrite (decide_False (P := len = 0%nat)) by lia.
  set (k := length (pread file len offset n)) in *.
  assert (E : pread file len offset n = take k (drop offset file)).
  { unfold k. unfold pread. rewrite length_take.
    destruct (Nat.le_gt_cases (Nat.min (Nat.max n 1) len) (length (drop offset file))) as [H|H].
    - by rewrite (Nat.min_l _ (length _)) by lia.
    - rewrite (Nat.min_r _ (length _)) by lia. rewrite !take_ge; [done|lia|lia]. }
  destruct (decide (len - k = 0)%nat) as [Hz|Hz].
  - rewrite decide_True by lia. cbn [mbind option_bind]. rewrite app_nil_r, E. do 2 f_equal. lia.
  - destruct (decide (offset + len <= length file)%nat) as [H|H].
    + rewrite decide_True by lia. cbn [mbind option_bind]. rewrite E. f_equal.
      rewrite <- drop_drop. rewrite <- (take_drop k (take len (drop offset file))).
      rewrite take_take, Nat.min_l by lia. f_equal. by rewrite skipn_firstn_comm.
    + by rewrite decide_False by lia.
Qed.

(** Both loops return the range as soon as there are enough replies: each one
    that is not an interruption brings a byte or ends the loop. *)
Lemma try_complete_pread_spec file replies : forall len offset buf, PreadError ∉ replies ->
  (len < length (filter is_chunk replies))%nat ->
  try_complete_pread file replies len offset buf =
  Some match read_range file len offset with Some data => ReadOk (buf ++ data) | None => ShortRead end.
Proof.
  induction replies as [|r replies IH]; intros len offset buf Hno Hlen; [cbn in Hlen; lia|].
  cbn [try_complete_pread]. destruct (Nat.eqb_spec len 0) as [->|Hne].
  { unfold read_range. rewrite decide_True by done. by rewrite app_nil_r. }
  apply not_elem_of_cons in Hno as [Hr Hno]. destruct r as [| |n]; [by apply IH|done|].
  rewrite filter_cons_True in Hlen by done. cbn [length] in Hlen.
  destruct (Nat.eqb_spec (length (pread file len offset n)) 0) as [Hz|Hz].
  - rewrite length_pread in Hz. unfold read_range. rewrite decide_False, decide_False by lia. done.
  - rewrite (read_range_step file len offset n) by lia. rewrite IH by (done || lia).
    destruct (read_range _ _ _); cbn [mbind option_bind]; [|done]. by rewrite app_assoc.
Qed.

Lemma pread_fully_eq file replies : forall len offset buf,
  pread_fully file replies len offset buf =
  r ← try_complete_pread file replies len offset buf;
  Some match r with ReadOk data => Some data | _ => None end.
Proof.
  induction replies as [|r replies IH]; intros len offset buf; cbn [pread_fully try_complete_pread];
    (destruct (len =? 0)%nat; [done|]); [done|]. destruct r; [done|done|]. by destruct (_ =? _)%nat.
Qed.

(** ** Correctness *)

(** However [pread] splits the range up and however often it is interrupted,
    [complete_pread] and [pread_fully] end and return exactly the bytes of the
    range, or fail when the file ends before it does. *)
Theorem complete_pread_exact file replies len offset : PreadError ∉ replies ->
  (len < length (filter is_chunk replies))%nat ->
  complete_pread file replies len offset = Some (read_range file len offset) /\
  pread_fully file replies len offset [] = Some (read_range file len offset).
Proof.
  intros Hno Hlen. rewrite pread_fully_eq. unfold complete_pread.
  rewrite try_complete_pread_spec by done. cbn [mbind option_bind]. by destruct (read_range _ _ _).
Qed.

Lemma complete_pread_exact_witness :
  complete_pread [1; 2; 3; 4; 5]
    [PreadUpTo 1; PreadEintr; PreadUpTo 2; PreadUpTo 9; PreadUpTo 1; PreadUpTo 1] 4 1 = Some (Some [2; 3; 4; 5]).
Proof.
  apply (complete_pread_exact [1; 2; 3; 4; 5]
    [PreadUpTo 1; PreadEintr; PreadUpTo 2; PreadUpTo 9; PreadUpTo 1; PreadUpTo 1] 4 1).
  - intros H. apply list_elem_of_In in H. revert H. cbn. intuition congruence.
  - apply Nat.ltb_lt. vm_compute. reflexivity.
Defined.
