(* ===== verification/Metadata.v ===== *)
(** * Per-file metadata (include/metadata.h)

    [dir_time], [MetadataHash], [FileMetadata], [FileRecord] and [HistoryEvent]
    with the comparisons the rest of the program is built on.  The two scoped
    enums have a fixed underlying type, so a value read from disk and cast to
    the enum need not be one of the named enumerators; [HkOther] and [EkOther]
    keep those values. *)
From S2P Require Import Prelude.

(** ** Data *)

Record dir_time := DirTime { dt_sec : Z; dt_nsec : Z }.

Definition unknown_dir_time : dir_time := DirTime 0 0.
Definition not_a_dir : dir_time := DirTime (-1) 0.

Definition dir_time_lt (a b : dir_time) : bool :=
  if negb (dt_sec a =? dt_sec b) then dt_sec a <? dt_sec b else dt_nsec a <? dt_nsec b.

Definition dir_time_ge (a b : dir_time) : bool := negb (dir_time_lt a b).

Inductive MetadataHashKind :=
| HkNone
| HkSha256
| HkXxHash64
| HkOther (b : Z).

Definition hash_kind_to_byte (k : MetadataHashKind) : Z :=
  match k with HkNone => 0 | HkSha256 => 1 | HkXxHash64 => 2 | HkOther b => b end.

Definition hash_kind_of_byte (b : Z) : MetadataHashKind :=
  if b =? 0 then HkNone else if b =? 1 then HkSha256
  else if b =? 2 then HkXxHash64 else HkOther b.

#[global] Instance MetadataHashKind_eq_dec : EqDecision MetadataHashKind.
Proof. solve_decision. Defined.

(** [value] is the 32-byte array, [length] how many of its bytes count. *)
Record MetadataHash := Hash { h_kind : MetadataHashKind; h_value : bytes; h_length : nat }.

Definition empty_hash : MetadataHash := Hash HkNone (replicate 32 0) 0.

Record FileMetadata := Metadata {
  md_enabled : bool;
  md_mode : Z;
  md_uid : Z;
  md_gid : Z;
  md_size : Z;
  md_mtime : dir_time;
  md_ctime : dir_time;
  md_atime : dir_time;
  md_hash : MetadataHash
}.

Definition empty_metadata : FileMetadata :=
  Metadata false 0 0 0 0 unknown_dir_time unknown_dir_time unknown_dir_time empty_hash.

Record FileRecord := Record_ {
  fr_path : bytes;
  fr_dir_timestamp : dir_time;
  fr_metadata : FileMetadata
}.

Inductive HistoryEventKind :=
| EkAdded
| EkRemoved
| EkModified
| EkRunMarker
| EkOther (b : Z).

Definition event_kind_to_byte (k : HistoryEventKind) : Z :=
  match k with
  | EkAdded => 0 | EkRemoved => 1 | EkModified => 2 | EkRunMarker => 3 | EkOther b => b
  end.

Definition event_kind_of_byte (b : Z) : HistoryEventKind :=
  if b =? 0 then EkAdded else if b =? 1 then EkRemoved
  else if b =? 2 then EkModified else if b =? 3 then EkRunMarker else EkOther b.

#[global] Instance HistoryEventKind_eq_dec : EqDecision HistoryEventKind.
Proof. solve_decision. Defined.

Record HistoryEvent := Event {
  ev_kind : HistoryEventKind;
  ev_path : bytes;
  ev_time : dir_time;
  ev_old : FileMetadata;
  ev_new : FileMetadata
}.

(** ** Comparisons *)

Definition dir_time_equals (a b : dir_time) : bool :=
  (dt_sec a =? dt_sec b) && (dt_nsec a =? dt_nsec b).

(** [std::equal] over the first [a.length] bytes of the two arrays. *)
Definition hash_equals (a b : MetadataHash) : bool :=
  bool_decide (h_kind a = h_kind b) &&
  (h_length a =? h_length b)%nat &&
  bool_decide (take (h_length a) (h_value a) = take (h_length a) (h_value b)).

Definition metadata_equals (a b : FileMetadata) (compare_atime : bool) : bool :=
  if negb (Bool.eqb (md_enabled a) (md_enabled b)) then false
  else if negb (md_enabled a) then true
  else if compare_atime && negb (dir_time_equals (md_atime a) (md_atime b)) then false
  else (md_mode a =? md_mode b) &&
       (md_uid a =? md_uid b) &&
       (md_gid a =? md_gid b) &&
       (md_size a =? md_size b) &&
       dir_time_equals (md_mtime a) (md_mtime b) &&
       dir_time_equals (md_ctime a) (md_ctime b) &&
       hash_equals (md_hash a) (md_hash b).

(** The [add] lambda: a comma before every name but the first. *)
Definition add_field (name : string) (out : bytes) : bytes :=
  (if decide (out = []) then out else out ++ bytes_of_string ",") ++ bytes_of_string name.

Definition add_field_if (c : bool) (name : string) (out : bytes) : bytes :=
  if c then add_field name out else out.

Definition metadata_diff_fields (a b : FileMetadata) : bytes :=
  if negb (Bool.eqb (md_enabled a) (md_enabled b)) then
    add_field (if md_enabled a then "metadata-lost" else "metadata-gained") []
  else if negb (md_enabled a) then []
  else
    let out := add_field_if (negb (md_mode a =? md_mode b)) "mode" [] in
    let out := add_field_if (negb (md_uid a =? md_uid b)) "uid" out in
    let out := add_field_if (negb (md_gid a =? md_gid b)) "gid" out in
    let out := add_field_if (negb (md_size a =? md_size b)) "size" out in
    let out := add_field_if (negb (dir_time_equals (md_mtime a) (md_mtime b))) "mtime" out in
    let out := add_field_if (negb (dir_time_equals (md_ctime a) (md_ctime b))) "ctime" out in
    let out := add_field_if (negb (dir_time_equals (md_atime a) (md_atime b))) "atime" out in
    add_field_if (negb (hash_equals (md_hash a) (md_hash b))) "hash" out.

(** ** Well-formedness: the fields hold values of their C++ types *)

Definition dir_time_wf (t : dir_time) : Prop := is_i64 (dt_sec t) /\ is_i32 (dt_nsec t).

Definition hash_kind_wf (k : MetadataHashKind) : Prop :=
  match k with HkOther b => 3 <= b < 256 | _ => True end.

Definition event_kind_wf (k : HistoryEventKind) : Prop :=
  match k with EkOther b => 4 <= b < 256 | _ => True end.

Definition hash_wf (h : MetadataHash) : Prop :=
  hash_kind_wf (h_kind h) /\ length (h_value h) = 32%nat /\
  Forall is_byte (h_value h) /\ (h_length h <= 32)%nat.

Definition metadata_wf (m : FileMetadata) : Prop :=
  is_u32 (md_mode m) /\ is_u32 (md_uid m) /\ is_u32 (md_gid m) /\ is_u64 (md_size m) /\
  dir_time_wf (md_mtime m) /\ dir_time_wf (md_ctime m) /\ dir_time_wf (md_atime m) /\
  hash_wf (md_hash m).

Definition event_wf (e : HistoryEvent) : Prop :=
  event_kind_wf (ev_kind e) /\ dir_time_wf (ev_time e) /\
  Z.of_nat (length (ev_path e)) < 2 ^ 32 /\
  metadata_wf (ev_old e) /\ metadata_wf (ev_new e).

(** ** Lemmas *)

Lemma hash_kind_of_to k : hash_kind_wf k -> hash_kind_of_byte (hash_kind_to_byte k) = k.
Proof.
  destruct k as [| | |b]; simpl; auto. intros H. unfold hash_kind_of_byte.
  destruct (Z.eqb_spec b 0), (Z.eqb_spec b 1), (Z.eqb_spec b 2); auto; lia.
Qed.

Lemma event_kind_of_to k : event_kind_wf k -> event_kind_of_byte (event_kind_to_byte k) = k.
Proof.
  destruct k as [| | | |b]; simpl; auto. intros H. unfold event_kind_of_byte.
  destruct (Z.eqb_spec b 0), (Z.eqb_spec b 1), (Z.eqb_spec b 2), (Z.eqb_spec b 3);
    auto; lia.
Qed.

Lemma hash_kind_byte_range k : hash_kind_wf k -> is_byte (hash_kind_to_byte k).
Proof. unfold is_byte; destruct k; simpl; lia. Qed.

Lemma event_kind_byte_range k : event_kind_wf k -> is_byte (event_kind_to_byte k).
Proof. unfold is_byte; destruct k; simpl; lia. Qed.

#[export] Hint Resolve hash_kind_byte_range event_kind_byte_range : flocate.

Lemma dir_time_equals_true a b : dir_time_equals a b = true <-> a = b.
Proof.
  unfold dir_time_equals. rewrite andb_true_iff, !Z.eqb_eq.
  destruct a, b; simpl. split; [intros [-> ->]; auto | intros [= -> ->]; auto].
Qed.

Lemma dir_time_equals_refl a : dir_time_equals a a = true.
Proof. by apply dir_time_equals_true. Qed.

Lemma hash_equals_true a b :
  hash_equals a b = true <->
  h_kind a = h_kind b /\ h_length a = h_length b /\
  take (h_length a) (h_value a) = take (h_length a) (h_value b).
Proof.
  unfold hash_equals. rewrite !andb_true_iff, !bool_decide_eq_true, Nat.eqb_eq. tauto.
Qed.

Lemma hash_equals_refl a : hash_equals a a = true.
Proof. by apply hash_equals_true. Qed.

Lemma metadata_equals_refl a c : metadata_equals a a c = true.
Proof.
  unfold metadata_equals. rewrite eqb_reflx. simpl. destruct (md_enabled a); auto. simpl.
  rewrite !dir_time_equals_refl, hash_equals_refl, !Z.eqb_refl, andb_false_r. auto.
Qed.

Lemma add_field_nonempty name out :
  bytes_of_string name <> [] -> add_field name out <> [].
Proof.
  unfold add_field. intros Hn Happ. apply app_eq_nil in Happ as [_ H]. auto.
Qed.

Lemma add_field_if_nil c name out :
  bytes_of_string name <> [] -> (add_field_if c name out = [] <-> c = false /\ out = []).
Proof.
  intros Hn. destruct c; simpl; [|tauto].
  split; [|intros [? _]; discriminate].
  intros H. by apply add_field_nonempty in H.
Qed.

Lemma metadata_equals_sym a b c : metadata_equals a b c = metadata_equals b a c.
Proof.
  assert (Ht : forall x y, dir_time_equals x y = dir_time_equals y x).
  { intros x y. unfold dir_time_equals. by rewrite (Z.eqb_sym (dt_sec x)), (Z.eqb_sym (dt_nsec x)). }
  assert (Hh : hash_equals (md_hash a) (md_hash b) = hash_equals (md_hash b) (md_hash a)).
  { apply eq_true_iff_eq. rewrite !hash_equals_true.
    split; intros (-> & -> & ->); auto. }
  unfold metadata_equals.
  rewrite (Ht (md_atime a)), (Ht (md_mtime a)), (Ht (md_ctime a)), Hh,
    (Z.eqb_sym (md_mode a)), (Z.eqb_sym (md_uid a)), (Z.eqb_sym (md_gid a)),
    (Z.eqb_sym (md_size a)).
  destruct (md_enabled a), (md_enabled b); auto.
Qed.

(** The fields [metadata_equals] compares, as a proposition. *)
Lemma metadata_equals_enabled a b c :
  md_enabled a = true -> md_enabled b = true ->
  metadata_equals a b c = true <->
  (c = true -> md_atime a = md_atime b) /\
  md_mode a = md_mode b /\ md_uid a = md_uid b /\ md_gid a = md_gid b /\
  md_size a = md_size b /\ md_mtime a = md_mtime b /\ md_ctime a = md_ctime b /\
  hash_equals (md_hash a) (md_hash b) = true.
Proof.
  intros Ha Hb. unfold metadata_equals. rewrite Ha, Hb. simpl.
  destruct c; simpl.
  - destruct (dir_time_equals (md_atime a) (md_atime b)) eqn:E; simpl;
      rewrite ?andb_true_iff, ?Z.eqb_eq, ?dir_time_equals_true.
    + apply dir_time_equals_true in E. tauto.
    + split; [discriminate|]. intros [H _]. specialize (H eq_refl).
      apply dir_time_equals_true in H. congruence.
  - rewrite ?andb_true_iff, ?Z.eqb_eq, ?dir_time_equals_true.
    split; [intros; split; [discriminate|tauto] | tauto].
Qed.

Lemma metadata_equals_trans a b d c :
  metadata_equals a b c = true -> metadata_equals b d c = true ->
  metadata_equals a d c = true.
Proof.
  destruct (md_enabled a) eqn:Ha, (md_enabled b) eqn:Hb, (md_enabled d) eqn:Hd;
    try (unfold metadata_equals; rewrite ?Ha, ?Hb, ?Hd; simpl; congruence).
  rewrite !metadata_equals_enabled, !hash_equals_true by auto.
  intros (Ht1 & H1) (Ht2 & H2). destruct_conjs.
  split; [intros Hc; rewrite (Ht1 Hc); auto|].
  assert (El : h_length (md_hash a) = h_length (md_hash b)) by auto.
  rewrite El in *. repeat split; congruence.
Qed.

(** ** Properties *)

(** The comma-separated list printed after [changed:] is empty exactly when
    the two records are equal with atime compared, so a MODIFIED event never
    has an empty list of changed fields, and two equal records never have one. *)
Theorem diff_fields_empty_iff_equal a b :
  metadata_diff_fields a b = [] <-> metadata_equals a b true = true.
Proof.
  destruct (md_enabled a) eqn:Ha, (md_enabled b) eqn:Hb;
    try (unfold metadata_diff_fields, metadata_equals; rewrite Ha, Hb; simpl;
         split; congruence || discriminate).
  rewrite metadata_equals_enabled by auto.
  unfold metadata_diff_fields. rewrite Ha, Hb. simpl.
  rewrite !add_field_if_nil by discriminate.
  rewrite !negb_false_iff, !Z.eqb_eq, !dir_time_equals_true. tauto.
Qed.
