(* ===== verification/FileStat.v ===== *)
(** * What stat(2) returns

    The fields of [struct stat] that the program reads, and the two type tests of
    [sys/stat.h] that it uses. *)
From S2P Require Import Prelude Metadata.

Record Stat := STAT {
  st_mode : Z;
  st_uid : Z;
  st_gid : Z;
  st_size : Z;
  st_mtim : dir_time;
  st_ctim : dir_time;
  st_atim : dir_time;
  st_dev : Z
}.

Definition S_ISDIR (mode : Z) : bool := Z.land mode 61440 =? 16384.
Definition S_ISREG (mode : Z) : bool := Z.land mode 61440 =? 32768.
