(* ===== verification/MetadataCodec.v ===== *)
(** * Serialisation of metadata and history (src/metadata_codec.cpp)

    The writer appends to a string; the reader is handed a buffer and moves a
    pointer through it.  A reader step returns [None] when it would load a byte
    outside the buffer, so that the absence of such loads is a theorem and not
    an assumption ([decode_history_no_oob]). *)
From S2P Require Import Prelude Metadata.

(** ** Writers *)

Definition put_u8 (dst : bytes) (v : Z) : bytes := dst ++ [u8 v].

Definition put_u32 (dst : bytes) (v : Z) : bytes :=
  fold_left (fun dst i => dst ++ [Z.land (Z.shiftr v (8 * Z.of_nat i)) 255]) (seq 0 4) dst.

Definition put_u64 (dst : bytes) (v : Z) : bytes :=
  fold_left (fun dst i => dst ++ [Z.land (Z.shiftr v (8 * Z.of_nat i)) 255]) (seq 0 8) dst.

Definition put_time (dst : bytes) (t : dir_time) : bytes :=
  let dst := put_u64 dst (u64 (dt_sec t)) in
  put_u32 dst (u32 (dt_nsec t)).

(** ** Readers: [p] is the rest of the buffer, from the pointer to [end] *)

Definition get_u8 (p : bytes) : option (Z * bytes) :=
  match p with
  | [] => None
  | b :: p => Some (b, p)
  end.

Fixpoint get_le_loop (p : bytes) (i n : nat) (v : Z) : option Z :=
  match n with
  | O => Some v
  | S n => b ← p !! i; get_le_loop p (S i) n (Z.lor v (Z.shiftl b (8 * Z.of_nat i)))
  end.

Definition get_u32 (p : bytes) : option (Z * bytes) :=
  v ← get_le_loop p 0 4 0; Some (v, drop 4 p).

Definition get_u64 (p : bytes) : option (Z * bytes) :=
  v ← get_le_loop p 0 8 0; Some (v, drop 8 p).

Definition get_time (p : bytes) : option (dir_time * bytes) :=
  '(sec, p) ← get_u64 p;
  '(nsec, p) ← get_u32 p;
  Some (DirTime (i64 sec) (i32 nsec), p).

(** ** Metadata records *)

Definition METADATA_RECORD_FIXED_BYTES : nat := 4 + 4 + 4 + 8 + 3 * (8 + 4).

Definition up_to_hash_len : nat := 1 + METADATA_RECORD_FIXED_BYTES + 2.

Definition encode_metadata_record (dst : bytes) (m : FileMetadata) : bytes :=
  if negb (md_enabled m) then put_u8 dst 0
  else
    let dst := put_u8 dst 1 in
    let dst := put_u32 dst (md_mode m) in
    let dst := put_u32 dst (md_uid m) in
    let dst := put_u32 dst (md_gid m) in
    let dst := put_u64 dst (md_size m) in
    let dst := put_time dst (md_mtime m) in
    let dst := put_time dst (md_ctime m) in
    let dst := put_time dst (md_atime m) in
    let hash_len := Nat.min (h_length (md_hash m)) (length (h_value (md_hash m))) in
    let dst := put_u8 dst (hash_kind_to_byte (h_kind (md_hash m))) in
    let dst := put_u8 dst (Z.of_nat hash_len) in
    dst ++ take hash_len (h_value (md_hash m)).

(** 0 stands for "not enough bytes to know". *)
Definition metadata_record_size (p : bytes) : nat :=
  match p with
  | [] => 0
  | b :: _ =>
    if b =? 0 then 1
    else if decide (length p < up_to_hash_len)%nat then 0
    else
      let hash_len := Z.to_nat (default 0 (p !! (up_to_hash_len - 1)%nat)) in
      let total := (up_to_hash_len + hash_len)%nat in
      if decide (total <= length p)%nat then total else 0
  end.

(** [Some None]: the function returned false; [None]: a load outside [p]. *)
Definition decode_metadata_record (p : bytes) : option (option (FileMetadata * bytes)) :=
  let size := metadata_record_size p in
  if decide (size = 0%nat) then Some None
  else
    '(enabled, q) ← get_u8 p;
    if enabled =? 0 then Some (Some (empty_metadata, q))
    else
      '(mode, q) ← get_u32 q;
      '(uid, q) ← get_u32 q;
      '(gid, q) ← get_u32 q;
      '(size_, q) ← get_u64 q;
      '(mtime, q) ← get_time q;
      '(ctime, q) ← get_time q;
      '(atime, q) ← get_time q;
      '(kind, q) ← get_u8 q;
      '(hash_len, q) ← get_u8 q;
      let len := Nat.min (Z.to_nat hash_len) 32 in
      if decide (len <= length q)%nat then
        let value := take len q ++ drop len (replicate 32 0) in
        Some (Some (Metadata true mode uid gid size_ mtime ctime atime
                      (Hash (hash_kind_of_byte kind) value len), drop size p))
      else None.

(** ** History streams *)

Definition encode_event (buf : bytes) (e : HistoryEvent) : bytes :=
  let buf := put_u8 buf (event_kind_to_byte (ev_kind e)) in
  let buf := put_time buf (ev_time e) in
  let buf := put_u32 buf (u32 (Z.of_nat (length (ev_path e)))) in
  let buf := buf ++ ev_path e in
  let buf := encode_metadata_record buf (ev_old e) in
  encode_metadata_record buf (ev_new e).

Definition encode_history_stream (events : list HistoryEvent) : bytes :=
  fold_left encode_event events [].

Definition event_header_bytes : nat := 1 + 8 + 4 + 4.

(** One turn of the [while]; [Some None] leaves the loop through [break]. *)
Definition decode_event (p : bytes) : option (option (HistoryEvent * bytes)) :=
  '(kind, p) ← get_u8 p;
  '(time, p) ← get_time p;
  '(path_len, p) ← get_u32 p;
  let path_len := Z.to_nat path_len in
  if decide (length p < path_len)%nat then Some None
  else
    let path := take path_len p in
    r ← decode_metadata_record (drop path_len p);
    match r with
    | None => Some None
    | Some (old, p) =>
      r ← decode_metadata_record p;
      match r with
      | None => Some None
      | Some (new, p) => Some (Some (Event (event_kind_of_byte kind) path time old new, p))
      end
    end.

(** The loop; running out of fuel is reported like a bad load, and shown
    impossible for the fuel [decode_history_stream] supplies. *)
Fixpoint decode_events (fuel : nat) (p : bytes) (events : list HistoryEvent)
    : option (list HistoryEvent) :=
  if decide (length p < event_header_bytes)%nat then Some events
  else
    match fuel with
    | O => None
    | S fuel =>
      r ← decode_event p;
      match r with
      | None => Some events
      | Some (e, p) => decode_events fuel p (events ++ [e])
      end
    end.

Definition add_run_marker (events : list HistoryEvent) : list HistoryEvent :=
  match events with
  | [] => []
  | e :: _ =>
    if decide (ev_kind e = EkRunMarker) then events
    else Event EkRunMarker [] (ev_time e) empty_metadata empty_metadata :: events
  end.

Definition decode_history_stream (data : bytes) : option (list HistoryEvent) :=
  events ← decode_events (length data) data [];
  Some (add_run_marker events).

(** ** Specification: what survives a round trip *)

(** Bytes of the hash array beyond its length, and the attributes of a record
    without metadata, are not stored. *)
Definition norm_hash (h : MetadataHash) : MetadataHash :=
  Hash (h_kind h) (take (h_length h) (h_value h) ++ drop (h_length h) (replicate 32 0))
       (h_length h).

Definition norm_metadata (m : FileMetadata) : FileMetadata :=
  if md_enabled m then
    Metadata true (md_mode m) (md_uid m) (md_gid m) (md_size m)
      (md_mtime m) (md_ctime m) (md_atime m) (norm_hash (md_hash m))
  else empty_metadata.

Definition norm_event (e : HistoryEvent) : HistoryEvent :=
  Event (ev_kind e) (ev_path e) (ev_time e) (norm_metadata (ev_old e)) (norm_metadata (ev_new e)).

(** The bytes of one record and of one event. *)
Definition time_bytes (t : dir_time) : bytes :=
  le_bytes 8 (dt_sec t) ++ le_bytes 4 (dt_nsec t).

Definition metadata_bytes (m : FileMetadata) : bytes :=
  if md_enabled m then
    [1] ++ le_bytes 4 (md_mode m) ++ le_bytes 4 (md_uid m) ++ le_bytes 4 (md_gid m) ++
    le_bytes 8 (md_size m) ++ time_bytes (md_mtime m) ++ time_bytes (md_ctime m) ++
    time_bytes (md_atime m) ++ [hash_kind_to_byte (h_kind (md_hash m))] ++
    [Z.of_nat (h_length (md_hash m))] ++ take (h_length (md_hash m)) (h_value (md_hash m))
  else [0].

Definition event_bytes (e : HistoryEvent) : bytes :=
  [event_kind_to_byte (ev_kind e)] ++ time_bytes (ev_time e) ++
  le_bytes 4 (Z.of_nat (length (ev_path e))) ++ ev_path e ++
  metadata_bytes (ev_old e) ++ metadata_bytes (ev_new e).

(** ** Lemmas: writers *)

Lemma put_le_eq dst v n :
  fold_left (fun dst i => dst ++ [Z.land (Z.shiftr v (8 * Z.of_nat i)) 255]) (seq 0 n) dst
  = dst ++ le_bytes n v.
Proof.
  rewrite le_bytes_seq. generalize (seq 0 n). intros l. revert dst.
  induction l as [|i l IH]; intros dst; simpl; [by rewrite app_nil_r|].
  by rewrite IH, <- app_assoc.
Qed.

Lemma put_u32_eq dst v : put_u32 dst v = dst ++ le_bytes 4 v.
Proof. apply put_le_eq. Qed.

Lemma put_u64_eq dst v : put_u64 dst v = dst ++ le_bytes 8 v.
Proof. apply put_le_eq. Qed.

Lemma put_u8_eq dst v : is_byte v -> put_u8 dst v = dst ++ [v].
Proof. intros H. unfold put_u8, u8. by rewrite Z.mod_small. Qed.

Lemma put_time_eq dst t : put_time dst t = dst ++ time_bytes t.
Proof.
  unfold put_time, time_bytes. rewrite put_u32_eq, put_u64_eq.
  by rewrite le_bytes_u64, le_bytes_u32, app_assoc.
Qed.

Lemma encode_metadata_record_eq dst m :
  metadata_wf m -> encode_metadata_record dst m = dst ++ metadata_bytes m.
Proof.
  intros (_ & _ & _ & _ & _ & _ & _ & Hk & Hl & _ & Hlen).
  unfold encode_metadata_record, metadata_bytes.
  destruct (md_enabled m); cbn [negb]; [|by apply put_u8_eq].
  rewrite Nat.min_l by lia.
  rewrite (put_u8_eq _ (Z.of_nat _)) by (unfold is_byte; lia).
  rewrite (put_u8_eq _ (hash_kind_to_byte _)) by auto with flocate.
  rewrite !put_time_eq, put_u64_eq, !put_u32_eq, put_u8_eq by done.
  by rewrite <- !app_assoc.
Qed.

Lemma encode_event_eq buf e : event_wf e -> encode_event buf e = buf ++ event_bytes e.
Proof.
  intros (Hk & _ & Hp & Ho & Hn). unfold encode_event, event_bytes.
  rewrite !encode_metadata_record_eq, put_u32_eq, put_time_eq by auto.
  rewrite put_u8_eq by auto with flocate.
  rewrite u32_small by (unfold is_u32; lia). by rewrite <- !app_assoc.
Qed.

Lemma encode_history_stream_eq events :
  Forall event_wf events -> encode_history_stream events = mjoin (map event_bytes events).
Proof.
  unfold encode_history_stream. intros Hwf.
  change (mjoin (map event_bytes events)) with ([] ++ mjoin (map event_bytes events)).
  generalize (@nil Z). induction Hwf as [|e l He _ IH]; intros buf; simpl;
    [by rewrite app_nil_r|].
  by rewrite encode_event_eq, IH, <- app_assoc by auto.
Qed.

(** ** Lemmas: readers *)

(** The OR of the shifted bytes is the little-endian value. *)
Lemma get_le_loop_le n : forall v i acc h t,
  length h = i -> 0 <= acc < 256 ^ Z.of_nat i ->
  get_le_loop (h ++ le_bytes n v ++ t) i n acc
  = Some (acc + 256 ^ Z.of_nat i * (v mod 256 ^ Z.of_nat n)).
Proof.
  induction n; intros v i acc h t Hh Ha; cbn [le_bytes get_le_loop app].
  { rewrite Z.mod_1_r. f_equal. lia. }
  rewrite lookup_app_r, Hh, Nat.sub_diag by lia.
  cbn [lookup list_lookup mbind option_bind].
  rewrite lor_shiftl_add, <- pow256_pow2 by (rewrite <- ?pow256_pow2; lia).
  replace (h ++ v mod 256 :: le_bytes n (v / 256) ++ t)
    with ((h ++ [v mod 256]) ++ le_bytes n (v / 256) ++ t) by by rewrite <- app_assoc.
  pose proof (pow256_pos i). pose proof (Z.mod_pos_bound v 256 ltac:(lia)).
  rewrite IHn; [| rewrite length_app; simpl; lia | rewrite pow256_S; nia].
  f_equal. rewrite !pow256_S, (Z.rem_mul_r v 256) by (lia || apply pow256_pos). lia.
Qed.

Lemma get_u8_cons b k : get_u8 ([b] ++ k) = Some (b, k).
Proof. done. Qed.

Lemma get_u32_le v k : get_u32 (le_bytes 4 v ++ k) = Some (u32 v, k).
Proof.
  unfold get_u32. pose proof (get_le_loop_le 4 v 0 0 [] k eq_refl ltac:(simpl; lia)) as H.
  cbn [app] in H. rewrite H. cbn [mbind option_bind].
  by rewrite Z.mul_1_l, Z.add_0_l, drop_app_length' by by rewrite length_le_bytes.
Qed.

Lemma get_u64_le v k : get_u64 (le_bytes 8 v ++ k) = Some (u64 v, k).
Proof.
  unfold get_u64. pose proof (get_le_loop_le 8 v 0 0 [] k eq_refl ltac:(simpl; lia)) as H.
  cbn [app] in H. rewrite H. cbn [mbind option_bind].
  by rewrite Z.mul_1_l, Z.add_0_l, drop_app_length' by by rewrite length_le_bytes.
Qed.

Lemma get_time_bytes t k : dir_time_wf t -> get_time (time_bytes t ++ k) = Some (t, k).
Proof.
  intros [Hs Hn]. unfold get_time, time_bytes. rewrite <- app_assoc, get_u64_le.
  cbn [mbind option_bind]. rewrite get_u32_le. cbn [mbind option_bind].
  rewrite i64_u64, i32_u32 by auto. by destruct t.
Qed.

Lemma length_time_bytes t : length (time_bytes t) = 12%nat.
Proof. unfold time_bytes. by rewrite length_app, !length_le_bytes. Qed.

Create Rewrite HintDb codec.
#[local] Hint Rewrite length_app length_time_bytes length_le_bytes @length_take : codec.

Lemma length_metadata_bytes m :
  metadata_wf m ->
  length (metadata_bytes m)
  = if md_enabled m then (up_to_hash_len + h_length (md_hash m))%nat else 1%nat.
Proof.
  intros (_ & _ & _ & _ & _ & _ & _ & _ & Hl & _ & Hlen).
  unfold metadata_bytes. destruct (md_enabled m); [|done].
  autorewrite with codec. rewrite Hl. cbn [length]. unfold up_to_hash_len,
    METADATA_RECORD_FIXED_BYTES. lia.
Qed.

(** The hash-length byte sits at offset [up_to_hash_len - 1]. *)
Lemma metadata_bytes_hash_len m k :
  md_enabled m = true ->
  (metadata_bytes m ++ k) !! (up_to_hash_len - 1)%nat = Some (Z.of_nat (h_length (md_hash m))).
Proof.
  intros He. unfold metadata_bytes. rewrite He. rewrite <- !app_assoc.
  rewrite !app_assoc, <- (app_assoc _ [Z.of_nat _]), <- app_assoc.
  rewrite lookup_app_r;
    autorewrite with codec; cbn [length]; unfold up_to_hash_len, METADATA_RECORD_FIXED_BYTES;
    [|lia].
  done.
Qed.

Lemma metadata_record_size_bytes m k :
  metadata_wf m ->
  metadata_record_size (metadata_bytes m ++ k) = length (metadata_bytes m).
Proof.
  intros Hwf. pose proof (length_metadata_bytes m Hwf) as Hlen.
  destruct (md_enabled m) eqn:He; [|unfold metadata_bytes; by rewrite He].
  pose proof (metadata_bytes_hash_len m k He) as Hh.
  unfold metadata_record_size.
  destruct (metadata_bytes m ++ k) as [|b p] eqn:E.
  { apply (f_equal length) in E. rewrite length_app, Hlen in E. discriminate. }
  assert (b = 1) as ->.
  { unfold metadata_bytes in E. rewrite He in E. by injection E as <- _. }
  rewrite <- E in *. rewrite length_app, Hlen. cbn [Z.eqb].
  rewrite decide_False, Hh by lia. cbn [default from_option id].
  rewrite Nat2Z.id, decide_True by lia. done.
Qed.

(** Fewer bytes than the record has are recognised as incomplete. *)
Lemma metadata_record_size_short m n :
  metadata_wf m -> (n < length (metadata_bytes m))%nat ->
  metadata_record_size (take n (metadata_bytes m)) = 0%nat.
Proof.
  intros Hwf Hn. pose proof (length_metadata_bytes m Hwf) as Hlen.
  unfold metadata_record_size.
  destruct (take n (metadata_bytes m)) as [|b p] eqn:E; [done|].
  assert (Hlp : length (b :: p) = n) by (rewrite <- E, length_take; lia).
  destruct (md_enabled m) eqn:He; [|rewrite Hlen in Hn; simpl in Hlp; lia].
  assert (b = 1) as ->.
  { unfold metadata_bytes in E. rewrite He in E. destruct n; [discriminate|].
    by injection E as <- _. }
  cbn [Z.eqb]. case_decide as Hd; [done|].
  rewrite Hlp in Hd. rewrite <- E, lookup_take_lt by (unfold up_to_hash_len in *; lia).
  pose proof (metadata_bytes_hash_len m [] He) as Hh. rewrite app_nil_r in Hh. rewrite Hh.
  cbn [default from_option id]. rewrite Nat2Z.id, decide_False by (rewrite E, Hlp; lia). done.
Qed.

Lemma decode_metadata_bytes m k :
  metadata_wf m ->
  decode_metadata_record (metadata_bytes m ++ k) = Some (Some (norm_metadata m, k)).
Proof.
  intros Hwf. pose proof (length_metadata_bytes m Hwf) as Hlen.
  unfold decode_metadata_record. rewrite metadata_record_size_bytes by done.
  rewrite drop_app_length. unfold norm_metadata, metadata_bytes in *.
  destruct Hwf as (Hmo & Hu & Hg & Hs & Hmt & Hct & Hat & Hk & Hl & Hv & Hn).
  destruct (md_enabled m) eqn:He; [|done].
  rewrite decide_False by (rewrite Hlen; unfold up_to_hash_len; lia).
  rewrite <- !app_assoc, get_u8_cons. cbn [mbind option_bind Z.eqb].
  rewrite !get_u32_le; cbn [mbind option_bind]; rewrite !get_u32_le; cbn [mbind option_bind].
  rewrite get_u32_le; cbn [mbind option_bind].
  rewrite get_u64_le, !u32_small, u64_small by done; cbn [mbind option_bind].
  do 3 (rewrite get_time_bytes by done; cbn [mbind option_bind]).
  do 2 (rewrite get_u8_cons; cbn [mbind option_bind]).
  rewrite Nat2Z.id, Nat.min_l by lia.
  assert (Hlt : length (take (h_length (md_hash m)) (h_value (md_hash m))) = h_length (md_hash m))
    by (rewrite length_take; lia).
  rewrite decide_True by (rewrite length_app, Hlt; lia).
  rewrite take_app_length' by done.
  by rewrite hash_kind_of_to by done.
Qed.

Lemma decode_metadata_short m n :
  metadata_wf m -> (n < length (metadata_bytes m))%nat ->
  decode_metadata_record (take n (metadata_bytes m)) = Some None.
Proof.
  intros Hwf Hn. unfold decode_metadata_record.
  by rewrite metadata_record_size_short by done.
Qed.

Lemma length_event_bytes_ge e : (event_header_bytes <= length (event_bytes e))%nat.
Proof.
  unfold event_bytes. autorewrite with codec. cbn [length]. unfold event_header_bytes. lia.
Qed.

Lemma decode_event_bytes e k :
  event_wf e -> decode_event (event_bytes e ++ k) = Some (Some (norm_event e, k)).
Proof.
  intros (Hk & Ht & Hp & Ho & Hn). unfold decode_event, event_bytes.
  rewrite <- !app_assoc, get_u8_cons; cbn [mbind option_bind].
  rewrite get_time_bytes by done; cbn [mbind option_bind].
  rewrite get_u32_le, u32_small by (unfold is_u32; lia); cbn [mbind option_bind].
  rewrite Nat2Z.id, decide_False by (rewrite length_app; lia).
  rewrite take_app_length, drop_app_length.
  do 2 (rewrite decode_metadata_bytes by done; cbn [mbind option_bind]).
  by rewrite event_kind_of_to by done.
Qed.

(** A cut inside an event, at or after its header, leaves the loop. *)
Lemma decode_event_short e n :
  event_wf e -> (event_header_bytes <= n < length (event_bytes e))%nat ->
  decode_event (take n (event_bytes e)) = Some None.
Proof.
  intros (Hk & Ht & Hp & Ho & Hn) [Hn1 Hn2]. unfold decode_event, event_bytes in *.
  set (tail := ev_path e ++ metadata_bytes (ev_old e) ++ metadata_bytes (ev_new e)) in *.
  assert (Hcut : take n ([event_kind_to_byte (ev_kind e)] ++ time_bytes (ev_time e) ++
      le_bytes 4 (Z.of_nat (length (ev_path e))) ++ tail)
    = [event_kind_to_byte (ev_kind e)] ++ time_bytes (ev_time e) ++
      le_bytes 4 (Z.of_nat (length (ev_path e))) ++ take (n - event_header_bytes) tail).
  { rewrite !app_assoc, take_app_ge; autorewrite with codec; cbn [length];
      unfold event_header_bytes in *; [|lia]. done. }
  rewrite Hcut, get_u8_cons; cbn [mbind option_bind].
  rewrite get_time_bytes by done; cbn [mbind option_bind].
  rewrite get_u32_le, u32_small by (unfold is_u32; lia); cbn [mbind option_bind].
  rewrite Nat2Z.id. case_decide as Hd; [done|].
  assert (Htl : (n - event_header_bytes < length tail)%nat).
  { clear Hcut. autorewrite with codec in Hn2. cbn [length] in Hn2.
    unfold event_header_bytes in *. lia. }
  rewrite length_take in Hd. unfold tail in *. rewrite (take_app_ge (ev_path e)), drop_app_length by lia.
  destruct (decide (n - event_header_bytes - length (ev_path e)
    < length (metadata_bytes (ev_old e)))%nat) as [Hs|Hs].
  - rewrite (take_app_le (metadata_bytes _)) by lia. by rewrite decode_metadata_short by done.
  - rewrite (take_app_ge (metadata_bytes _)) by lia.
    rewrite decode_metadata_bytes by done; cbn [mbind option_bind].
    rewrite decode_metadata_short; [done|done|]. rewrite !length_app in Htl. lia.
Qed.

(** ** Lemmas: memory safety *)

Lemma get_le_loop_is_Some n : forall p i v,
  (i + n <= length p)%nat -> is_Some (get_le_loop p i n v).
Proof.
  induction n; intros p i v H; simpl; [eauto|].
  destruct (lookup_lt_is_Some_2 p i) as [b Hb]; [lia|]. rewrite Hb. simpl. apply IHn. lia.
Qed.

Lemma get_u8_is_Some p : (1 <= length p)%nat -> exists b, p !! 0%nat = Some b /\ get_u8 p = Some (b, drop 1 p).
Proof. destruct p; simpl; [lia|]. eauto. Qed.

Lemma get_u32_is_Some p : (4 <= length p)%nat -> exists v, get_u32 p = Some (v, drop 4 p).
Proof.
  intros H. unfold get_u32. destruct (get_le_loop_is_Some 4 p 0 0) as [v ->]; [lia|]. simpl. eauto.
Qed.

Lemma get_u64_is_Some p : (8 <= length p)%nat -> exists v, get_u64 p = Some (v, drop 8 p).
Proof.
  intros H. unfold get_u64. destruct (get_le_loop_is_Some 8 p 0 0) as [v ->]; [lia|]. simpl. eauto.
Qed.

Lemma get_time_is_Some p : (12 <= length p)%nat -> exists t, get_time p = Some (t, drop 12 p).
Proof.
  intros H. unfold get_time. destruct (get_u64_is_Some p) as [s ->]; [lia|]. simpl.
  destruct (get_u32_is_Some (drop 8 p)) as [n ->]; [rewrite length_drop; lia|]. simpl.
  rewrite drop_drop. eauto.
Qed.

(** One load of the reader: discharges its bound and exposes the result. *)
Ltac step_load :=
  match goal with
  | |- context [get_u8 ?p] =>
    let H := fresh in let b := fresh "b" in
    destruct (get_u8_is_Some p) as (b & ? & H); [rewrite ?length_drop; lia|]; rewrite H; clear H
  | |- context [get_u32 ?p] =>
    let H := fresh in let b := fresh "v" in
    destruct (get_u32_is_Some p) as (b & H); [rewrite ?length_drop; lia|]; rewrite H; clear H
  | |- context [get_u64 ?p] =>
    let H := fresh in let b := fresh "v" in
    destruct (get_u64_is_Some p) as (b & H); [rewrite ?length_drop; lia|]; rewrite H; clear H
  | |- context [get_time ?p] =>
    let H := fresh in let b := fresh "t" in
    destruct (get_time_is_Some p) as (b & H); [rewrite ?length_drop; lia|]; rewrite H; clear H
  end; cbn [mbind option_bind]; rewrite ?drop_drop; cbn [Nat.add].

(** What the record reader promises on any buffer: it loads inside it, and the
    pointer it leaves behind is a suffix of the buffer. *)
Lemma decode_metadata_record_total p :
  exists r, decode_metadata_record p = Some r /\
    forall m q, r = Some (m, q) -> (length q < length p)%nat.
Proof.
  unfold decode_metadata_record.
  destruct (decide (metadata_record_size p = 0%nat)) as [|Hz]; [eauto with congruence|].
  destruct p as [|b p']; [done|]. cbn [get_u8 mbind option_bind].
  destruct (Z.eqb_spec b 0) as [->|Hb].
  { eexists; split; [done|]. intros m q [= _ <-]. simpl; lia. }
  set (p := b :: p') in *.
  assert (Hsz : (up_to_hash_len + Z.to_nat (default 0%Z (p !! (up_to_hash_len - 1)%nat)) <= length p)%nat).
  { revert Hz. unfold metadata_record_size. subst p. cbv beta iota.
    rewrite (proj2 (Z.eqb_neq b 0) Hb). repeat case_decide; lia. }
  generalize dependent (metadata_record_size p). intros size Hz.
  assert (Hpos : (0 < length p)%nat) by apply Nat.lt_0_succ.
  change p' with (drop 1 p).
  unfold up_to_hash_len, METADATA_RECORD_FIXED_BYTES in Hsz. cbn [Nat.add Nat.sub Nat.mul] in Hsz.
  do 9 step_load.
  match goal with H : drop 58 p !! 0%nat = Some _ |- _ =>
    rewrite lookup_drop in H; cbn [Nat.add] in H; rewrite H in Hsz end.
  cbn [default from_option id] in Hsz.
  rewrite decide_True by (rewrite length_drop; lia).
  eexists; split; [done|]. intros m q [= _ <-]. rewrite length_drop.
  clear - Hpos Hz. lia.
Qed.

Lemma decode_event_total p :
  (event_header_bytes <= length p)%nat ->
  exists r, decode_event p = Some r /\
    forall e q, r = Some (e, q) -> (length q < length p)%nat.
Proof.
  unfold event_header_bytes. intros Hp. unfold decode_event. do 3 step_load.
  case_decide as Hd; [eauto with congruence|].
  match goal with |- context [decode_metadata_record ?q] => 
    assert (Hq : (length q < length p)%nat) by (rewrite length_drop; lia);
    destruct (decode_metadata_record_total q) as (r1 & H1 & Hr1) end.
  rewrite H1. cbn [mbind option_bind]. destruct r1 as [[m1 q1]|]; [|eauto with congruence].
  destruct (decode_metadata_record_total q1) as (r2 & H2 & Hr2).
  rewrite H2. cbn [mbind option_bind]. destruct r2 as [[m2 q2]|]; [|eauto with congruence].
  eexists; split; [done|]. intros e q [= _ <-].
  specialize (Hr1 _ _ eq_refl). specialize (Hr2 _ _ eq_refl). lia.
Qed.

Lemma decode_events_total fuel : forall p acc,
  (length p <= fuel)%nat -> is_Some (decode_events fuel p acc).
Proof.
  induction fuel as [|fuel IH]; intros p acc Hf; simpl; (case_decide as Hd; [by eauto|]);
    [unfold event_header_bytes in Hd; lia|].
  destruct (decode_event_total p) as (r & Hr & Hlt); [lia|].
  rewrite Hr. cbn [mbind option_bind]. destruct r as [[e q]|]; [|eauto].
  apply IH. specialize (Hlt _ _ eq_refl). lia.
Qed.

(** The loop on a cut stream: it reads the events that are complete. *)
Lemma decode_events_cut es : Forall event_wf es -> forall n fuel (acc : list HistoryEvent),
  (length (take n (mjoin (map event_bytes es))) <= fuel)%nat ->
  exists k,
    (length (mjoin (map event_bytes (take k es))) <= n)%nat /\
    ((k < length es)%nat -> (n < length (mjoin (map event_bytes (take (S k) es))))%nat) /\
    decode_events fuel (take n (mjoin (map event_bytes es))) acc
      = Some (acc ++ map norm_event (take k es)).
Proof.
  induction 1 as [|e es He _ IH]; intros n fuel acc Hf.
  { exists 0%nat. simpl. rewrite take_nil, app_nil_r. split; [lia|]. split; [lia|].
    by destruct fuel. }
  assert (Hmj : forall l, mjoin (map event_bytes (e :: l)) = event_bytes e ++ mjoin (map event_bytes l))
    by done.
  rewrite Hmj in *.
  pose proof (length_event_bytes_ge e) as Hge.
  destruct (decide (n < length (event_bytes e))%nat) as [Hn|Hn].
  - assert (Ht : take n (event_bytes e ++ mjoin (map event_bytes es)) = take n (event_bytes e))
      by (apply take_app_le; lia).
    rewrite Ht in Hf |- *. exists 0%nat. cbn [take]. rewrite Hmj, app_nil_r.
    change (mjoin (map event_bytes [])) with (@nil Z). cbn [length]. rewrite app_nil_r. split; [lia|]. split; [lia|]. unfold event_header_bytes in *.
    assert (Hl : length (take n (event_bytes e)) = n) by (rewrite length_take; lia).
    destruct fuel as [|fuel]; cbn [decode_events]; (case_decide as Hd; [done|]);
      unfold event_header_bytes in *; [lia|].
    rewrite decode_event_short; [done|done|unfold event_header_bytes; lia].
  - rewrite take_app_ge in * by lia. rewrite length_app in Hf.
    destruct fuel as [|fuel]; [unfold event_header_bytes in *; lia|].
    destruct (IH (n - length (event_bytes e))%nat fuel (acc ++ [norm_event e]))
      as (k & H1 & H2 & H3); [unfold event_header_bytes in *; lia|].
    exists (S k). cbn [take] in *. rewrite !Hmj, !length_app. cbn [length]. split; [lia|]. split; [intros; lia|].
    cbn [decode_events]. rewrite decide_False by (rewrite length_app; lia).
    rewrite decode_event_bytes by done; cbn [mbind option_bind].
    by rewrite H3, <- app_assoc.
Qed.

(** ** Properties *)

(** Whatever bytes the history section holds, decoding it terminates and
    never loads a byte outside the buffer: the bounds checks of
    [metadata_record_size] and of the loop cover every load of the decoder. *)
Theorem decode_history_no_oob data : is_Some (decode_history_stream data).
Proof.
  unfold decode_history_stream.
  destruct (decode_events_total (length data) data []) as [es ->]; [lia|]. simpl. eauto.
Qed.

(** A metadata record is read back from the bytes written for it, up to the
    hash-array bytes beyond its length and the attributes of a disabled record,
    with the pointer left at the byte after the record; and what is read back
    compares equal to what was written, atime included. *)
Theorem metadata_record_roundtrip m rest :
  metadata_wf m ->
  decode_metadata_record (encode_metadata_record [] m ++ rest)
    = Some (Some (norm_metadata m, rest)) /\
  metadata_equals m (norm_metadata m) true = true.
Proof.
  intros Hwf. split.
  { rewrite encode_metadata_record_eq by done. by apply decode_metadata_bytes. }
  destruct (md_enabled m) eqn:He.
  - destruct Hwf as (_ & _ & _ & _ & _ & _ & _ & _ & Hl & _ & Hn).
    apply metadata_equals_enabled; unfold norm_metadata; rewrite ?He; auto. simpl.
    repeat split; auto. apply hash_equals_true. simpl. repeat split; auto.
    rewrite take_app_length'; auto. rewrite length_take. lia.
  - unfold metadata_equals, norm_metadata. by rewrite He.
Qed.

Definition sample_metadata : FileMetadata :=
  Metadata true 33188 0 1000 5 (DirTime (-1) 7) (DirTime 1792627714 197516230)
    (DirTime 3 999999999) (Hash HkXxHash64 (map Z.of_nat (seq 200 32)) 8).

Definition sample_marker (sec : Z) : HistoryEvent :=
  Event EkRunMarker [] (DirTime sec 0) empty_metadata empty_metadata.

Definition sample_event : HistoryEvent :=
  Event EkModified (bytes_of_string "/etc/passwd") (DirTime 10 20) sample_metadata empty_metadata.

Lemma sample_metadata_wf : metadata_wf sample_metadata.
Proof.
  unfold metadata_wf, dir_time_wf, hash_wf, is_u32, is_u64, is_i32, is_i64. simpl.
  repeat split; try lia. repeat (constructor; [unfold is_byte; lia|]). constructor.
Defined.

Lemma empty_metadata_wf : metadata_wf empty_metadata.
Proof.
  unfold metadata_wf, dir_time_wf, hash_wf, is_u32, is_u64, is_i32, is_i64. simpl.
  repeat split; try lia. repeat (constructor; [unfold is_byte; lia|]). constructor.
Defined.

Lemma metadata_record_roundtrip_witness :
  metadata_wf sample_metadata /\
  decode_metadata_record (encode_metadata_record [] sample_metadata ++ [9; 9])
    = Some (Some (norm_metadata sample_metadata, [9; 9])).
Proof.
  split; [exact sample_metadata_wf|].
  exact (proj1 (metadata_record_roundtrip sample_metadata [9; 9] sample_metadata_wf)).
Defined.

(** C35. Decoding a history cut off after any number of bytes gives exactly the
    events whose encodings lie wholly within the part that is left, in order,
    preceded by a synthesised run marker when the stream does not start with
    one; with nothing cut off, the whole history is read back. *)
Theorem history_prefix_roundtrip es n :
  Forall event_wf es ->
  exists k,
    (length (encode_history_stream (take k es)) <= n)%nat /\
    ((k < length es)%nat -> (n < length (encode_history_stream (take (S k) es)))%nat) /\
    decode_history_stream (take n (encode_history_stream es))
      = Some (add_run_marker (map norm_event (take k es))).
Proof.
  intros Hwf. destruct (decode_events_cut es Hwf n _ [] (le_n _)) as (k & H1 & H2 & H3).
  exists k. rewrite !encode_history_stream_eq by (done || by apply Forall_take).
  split; [done|]. split; [done|].
  unfold decode_history_stream. by rewrite H3.
Qed.

Lemma history_prefix_roundtrip_witness :
  Forall event_wf [sample_marker 7; sample_event] /\
  exists k,
    (length (encode_history_stream (take k [sample_marker 7; sample_event])) <= 100)%nat /\
    decode_history_stream (take 100 (encode_history_stream [sample_marker 7; sample_event]))
      = Some (add_run_marker (map norm_event (take k [sample_marker 7; sample_event]))).
Proof.
  assert (H : Forall event_wf [sample_marker 7; sample_event]).
  { repeat constructor; try exact empty_metadata_wf; try exact sample_metadata_wf;
      simpl; lia. }
  split; [exact H|].
  destruct (history_prefix_roundtrip [sample_marker 7; sample_event] 100 H) as (k & H1 & _ & H3).
  exists k. split; [exact H1|exact H3].
Defined.
