(* ===== verification/BitPack.v ===== *)
(** * Bit packing (include/turbopfor-common.h, and the bit readers and writers
      of include/turbopfor-encode.h and src/turbopfor.cpp)

    The writers store whole 32-bit words that overlap the bytes they have
    already produced, so the output is a fixed buffer [m] with a position; a
    store outside it, and a shift of a 32-bit word by 32 or more (undefined in
    C++), give [None].  The readers walk a suffix of the input; a load past its
    end gives [None]. *)
From S2P Require Import Prelude.

(** ** Common definitions (turbopfor-common.h) *)

Inductive BlockType := FOR | PFOR_VB | PFOR_BITMAP | CONSTANT.

Definition block_type_to_Z (t : BlockType) : Z :=
  match t with FOR => 0 | PFOR_VB => 1 | PFOR_BITMAP => 2 | CONSTANT => 3 end.

Definition div_round_up (val div : nat) : nat := (val + div - 1) / div.

Definition bytes_for_packed_bits (num bit_width : nat) : nat := div_round_up (num * bit_width) 8.

Definition mask_for_bits (bit_width : nat) : Z :=
  if (bit_width =? 32)%nat then 4294967295 else Z.shiftl 1 (Z.of_nat bit_width) - 1.

(** ** Writers *)

Definition write_le32 (val : Z) (m : bytes) (out : nat) : option bytes :=
  wr m out (le_bytes 4 val).

Record BitWriter := BW { bw_out : nat; bw_bits : nat; bw_bits_used : nat; bw_cur : Z }.

Definition BitWriter_new (out bits : nat) : BitWriter := BW out bits 0 0.

Definition BitWriter_write (w : BitWriter) (val : Z) (m : bytes) : option (BitWriter * bytes) :=
  let cur := Z.lor (bw_cur w) (u32 (Z.shiftl val (Z.of_nat (bw_bits_used w)))) in
  m ← write_le32 cur m (bw_out w);
  let used := (bw_bits_used w + bw_bits w)%nat in
  let shift := (used / 8 * 8)%nat in
  if decide (shift < 32)%nat then
    Some (BW (bw_out w + used / 8) (bw_bits w) (used mod 8) (Z.shiftr cur (Z.of_nat shift)), m)
  else None.

Definition Stride : nat := 4 * 4.

Record InterleavedBitWriter :=
  IBW { ibw_out : nat; ibw_bits : Z; ibw_bits_used : Z; ibw_cur : Z }.

Definition InterleavedBitWriter_new (out bits : nat) : InterleavedBitWriter :=
  IBW out (Z.of_nat bits) 0 0.

(** [cur_val] is 64 bits wide; [bits_used] underflows and wraps back. *)
Definition InterleavedBitWriter_write (w : InterleavedBitWriter) (val : Z) (m : bytes)
    : option (InterleavedBitWriter * bytes) :=
  let cur := Z.lor (ibw_cur w) (u64 (Z.shiftl val (ibw_bits_used w))) in
  if ibw_bits_used w + ibw_bits w >=? 32 then
    m ← write_le32 (Z.land cur 4294967295) m (ibw_out w);
    let out := (ibw_out w + Stride)%nat in
    let cur := Z.shiftr cur 32 in
    let used := u32 (ibw_bits_used w - 32) in
    m ← write_le32 (u32 cur) m out;
    Some (IBW out (ibw_bits w) (u32 (used + ibw_bits w)) cur, m)
  else
    m ← write_le32 (u32 cur) m (ibw_out w);
    Some (IBW (ibw_out w) (ibw_bits w) (u32 (ibw_bits_used w + ibw_bits w)) cur, m).

(** ** Readers *)

Record BitReader := BR { br_in : bytes; br_bits : nat; br_bits_used : nat }.

Definition BitReader_new (in_ : bytes) (bits : nat) : BitReader := BR in_ bits 0.

Definition BitReader_read (r : BitReader) : option (Z * BitReader) :=
  w ← rd 4 (br_in r) 0;
  let val := Z.land (Z.shiftr w (Z.of_nat (br_bits_used r))) (mask_for_bits (br_bits r)) in
  let used := (br_bits_used r + br_bits r)%nat in
  Some (val, BR (drop (used / 8) (br_in r)) (br_bits r) (used mod 8)).

Record InterleavedBitReader := IBR { ibr_in : bytes; ibr_bits : nat; ibr_bits_used : nat }.

Definition InterleavedBitReader_new (in_ : bytes) (bits : nat) : InterleavedBitReader :=
  IBR in_ bits 0.

Definition InterleavedBitReader_read (r : InterleavedBitReader)
    : option (Z * InterleavedBitReader) :=
  lo ← rd 4 (ibr_in r) 0;
  val ← (if decide (32 < ibr_bits_used r + ibr_bits r)%nat then
           hi ← rd 4 (ibr_in r) Stride;
           Some (Z.lor (Z.shiftr lo (Z.of_nat (ibr_bits_used r)))
                   (u32 (Z.shiftl hi (Z.of_nat (32 - ibr_bits_used r)))))
         else Some (Z.shiftr lo (Z.of_nat (ibr_bits_used r))));
  let used := (ibr_bits_used r + ibr_bits r)%nat in
  Some (Z.land val (mask_for_bits (ibr_bits r)),
        IBR (drop (Stride * (used / 32)) (ibr_in r)) (ibr_bits r) (used mod 32)).

(** Runs a writer, or a reader, over a sequence of values. *)
Fixpoint write_all (w : BitWriter) (vals : list Z) (m : bytes) : option (BitWriter * bytes) :=
  match vals with
  | [] => Some (w, m)
  | v :: vals => '(w, m) ← BitWriter_write w v m; write_all w vals m
  end.

Fixpoint read_all (r : BitReader) (num : nat) : option (list Z) :=
  match num with
  | O => Some []
  | S num => '(v, r) ← BitReader_read r; vs ← read_all r num; Some (v :: vs)
  end.

(** Four streams, one value each in turn. *)
Fixpoint write_interleaved (w0 w1 w2 w3 : InterleavedBitWriter) (vals : list Z) (m : bytes)
    : option bytes :=
  match vals with
  | [] => Some m
  | a :: b :: c :: d :: vals =>
    '(w0, m) ← InterleavedBitWriter_write w0 a m;
    '(w1, m) ← InterleavedBitWriter_write w1 b m;
    '(w2, m) ← InterleavedBitWriter_write w2 c m;
    '(w3, m) ← InterleavedBitWriter_write w3 d m;
    write_interleaved w0 w1 w2 w3 vals m
  | _ => None
  end.

Fixpoint read_interleaved (r0 r1 r2 r3 : InterleavedBitReader) (groups : nat)
    : option (list Z) :=
  match groups with
  | O => Some []
  | S groups =>
    '(a, r0) ← InterleavedBitReader_read r0;
    '(b, r1) ← InterleavedBitReader_read r1;
    '(c, r2) ← InterleavedBitReader_read r2;
    '(d, r3) ← InterleavedBitReader_read r3;
    vs ← read_interleaved r0 r1 r2 r3 groups;
    Some (a :: b :: c :: d :: vs)
  end.

(** ** Specification *)

(** Bits [k .. k+b) of [x]. *)
Definition slice (x : Z) (k b : nat) : Z := (x / 2 ^ Z.of_nat k) mod 2 ^ Z.of_nat b.

(** The integer whose [i]-th group of [bits] bits is the [i]-th value. *)
Fixpoint pack (bits : nat) (vals : list Z) : Z :=
  match vals with
  | [] => 0
  | v :: vals => v + 2 ^ Z.of_nat bits * pack bits vals
  end.

(** Every [4]-th value, from the [k]-th: the values of stream [k]. *)
Fixpoint stream (k : nat) (vals : list Z) : list Z :=
  match vals with
  | a :: b :: c :: d :: vals => nth k [a; b; c; d] 0 :: stream k vals
  | _ => []
  end.

(** ** Lemmas: slices *)

Lemma pow2_nat_pos k : 0 < 2 ^ Z.of_nat k.
Proof. apply Z.pow_pos_nonneg; lia. Qed.

Lemma slice_testbit x k b j :
  0 <= j -> Z.testbit (slice x k b) j = (j <? Z.of_nat b) && Z.testbit x (j + Z.of_nat k).
Proof.
  intros Hj. unfold slice. destruct (Z.ltb_spec j (Z.of_nat b)).
  - rewrite Z.mod_pow2_bits_low by lia. by rewrite Z.div_pow2_bits by lia.
  - by rewrite Z.mod_pow2_bits_high by lia.
Qed.

Lemma slice_range x k b : 0 <= slice x k b < 2 ^ Z.of_nat b.
Proof. apply Z.mod_pos_bound, pow2_nat_pos. Qed.

Lemma slice_slice x k b k' b' :
  (k' + b' <= b)%nat -> slice (slice x k b) k' b' = slice x (k + k') b'.
Proof.
  intros H. apply Z.bits_inj'. intros j Hj. rewrite !slice_testbit by lia.
  destruct (Z.ltb_spec j (Z.of_nat b')); [|done]. cbn [andb].
  destruct (Z.ltb_spec (j + Z.of_nat k') (Z.of_nat b)); [|lia]. cbn [andb].
  f_equal. lia.
Qed.

Lemma slice_mod x n k b : (k + b <= n)%nat -> slice (x mod 2 ^ Z.of_nat n) k b = slice x k b.
Proof.
  intros H. replace (x mod 2 ^ Z.of_nat n) with (slice x 0 n).
  - by rewrite slice_slice.
  - unfold slice. by rewrite Z.div_1_r.
Qed.

Lemma slice_eq_mod x y n k b :
  x mod 2 ^ Z.of_nat n = y mod 2 ^ Z.of_nat n -> (k + b <= n)%nat -> slice x k b = slice y k b.
Proof. intros H Hn. by rewrite <- (slice_mod x n), H, slice_mod. Qed.

Lemma slice_small x b : 0 <= x < 2 ^ Z.of_nat b -> slice x 0 b = x.
Proof. intros H. unfold slice. by rewrite Z.div_1_r, Z.mod_small. Qed.

Lemma slice_0 x k : slice x k 0 = 0.
Proof. unfold slice. apply Z.mod_1_r. Qed.

(** Bytes [p .. p+n) of a buffer are a slice of its little-endian value. *)
Lemma le_val_take n l : Forall is_byte l -> le_val (take n l) = le_val l mod 256 ^ Z.of_nat n.
Proof.
  intros Hl. destruct (decide (n <= length l)%nat) as [Hn|Hn].
  - rewrite <- (take_drop n l) at 2. rewrite le_val_app, length_take, Nat.min_l by lia.
    rewrite Z.mul_comm, Z_mod_plus_full. symmetry. apply Z.mod_small.
    pose proof (le_val_range (take n l)) as H. rewrite length_take, Nat.min_l in H by lia.
    apply H. by apply Forall_take.
  - rewrite take_ge by lia. symmetry. apply Z.mod_small.
    pose proof (le_val_range l Hl) as H.
    assert (256 ^ Z.of_nat (length l) <= 256 ^ Z.of_nat n) by (apply Z.pow_le_mono_r; lia). lia.
Qed.

Lemma le_val_drop n l : Forall is_byte l -> le_val (drop n l) = le_val l / 256 ^ Z.of_nat n.
Proof.
  intros Hl. destruct (decide (n <= length l)%nat) as [Hn|Hn].
  - rewrite <- (take_drop n l) at 2. rewrite le_val_app, length_take, Nat.min_l by lia.
    rewrite Z.mul_comm, Z_div_plus_full by (pose proof (pow256_pos n); lia).
    rewrite Z.div_small; [lia|].
    pose proof (le_val_range (take n l)) as H. rewrite length_take, Nat.min_l in H by lia.
    apply H. by apply Forall_take.
  - rewrite drop_ge by lia. symmetry. apply Z.div_small.
    pose proof (le_val_range l Hl) as H.
    assert (256 ^ Z.of_nat (length l) <= 256 ^ Z.of_nat n) by (apply Z.pow_le_mono_r; lia). lia.
Qed.

Lemma rd_slice n m p :
  Forall is_byte m -> (p + n <= length m)%nat -> rd n m p = Some (slice (le_val m) (8 * p) (8 * n)).
Proof.
  intros Hm Hp. unfold rd. rewrite decide_True by lia. f_equal.
  rewrite le_val_take by (by apply Forall_drop). rewrite le_val_drop by done.
  unfold slice. by rewrite !pow256_pow2, !Nat2Z.inj_mul.
Qed.

(** ** Lemmas: packing *)

Lemma pack_app bits l k :
  pack bits (l ++ k) = pack bits l + 2 ^ Z.of_nat (length l * bits) * pack bits k.
Proof.
  induction l as [|v l IH]; cbn [app pack length Nat.mul]; [simpl Z.of_nat; lia|].
  rewrite IH, Nat2Z.inj_add, Z.pow_add_r by lia. lia.
Qed.

Lemma pack_range bits l :
  Forall (fun v => 0 <= v < 2 ^ Z.of_nat bits) l ->
  0 <= pack bits l < 2 ^ Z.of_nat (length l * bits).
Proof.
  induction 1 as [|v l Hv _ IH]; [simpl; lia|].
  cbn [pack length Nat.mul]. rewrite Nat2Z.inj_add, Z.pow_add_r by lia.
  pose proof (pow2_nat_pos bits). nia.
Qed.

Lemma slice_pack bits l i v :
  Forall (fun v => 0 <= v < 2 ^ Z.of_nat bits) l -> l !! i = Some v ->
  slice (pack bits l) (i * bits) bits = v.
Proof.
  intros Hl. revert i. induction Hl as [|w l Hw Hl IH]; intros i Hi; [done|].
  pose proof (pow2_nat_pos bits) as Hp. cbn [pack]. destruct i as [|i].
  - simpl in Hi. injection Hi as ->. unfold slice. cbn [Nat.mul].
    change (2 ^ Z.of_nat 0) with 1. rewrite Z.div_1_r, Z.mul_comm, Z_mod_plus_full.
    by apply Z.mod_small.
  - rewrite <- (IH i Hi). unfold slice. f_equal.
    pose proof (pow2_nat_pos (i * bits)).
    cbn [Nat.mul]. rewrite Nat2Z.inj_add, Z.pow_add_r, <- Z.div_div by lia.
    f_equal. rewrite Z.mul_comm, Z_div_plus_full, Z.div_small by lia. lia.
Qed.

Lemma mask_for_bits_ones b : (b <= 32)%nat -> mask_for_bits b = Z.ones (Z.of_nat b).
Proof.
  intros H. unfold mask_for_bits. destruct (Nat.eqb_spec b 32) as [->|Hb]; [done|].
  rewrite Z.ones_equiv, Z.shiftl_1_l. lia.
Qed.

Lemma land_mask x b : (b <= 32)%nat -> Z.land x (mask_for_bits b) = x mod 2 ^ Z.of_nat b.
Proof. intros H. rewrite mask_for_bits_ones by done. apply Z.land_ones. lia. Qed.

Lemma land_mask_small x b :
  (b <= 32)%nat -> 0 <= x < 2 ^ Z.of_nat b -> Z.land x (mask_for_bits b) = x.
Proof. intros H Hx. rewrite land_mask by done. by apply Z.mod_small. Qed.

Lemma shiftr_slice x k b : (b <= 32)%nat ->
  Z.land (Z.shiftr x (Z.of_nat k)) (mask_for_bits b) = slice x k b.
Proof. intros H. rewrite land_mask by done. by rewrite Z.shiftr_div_pow2 by lia. Qed.

(** ** Bit positions *)

#[local] Ltac Zify.zify_post_hook ::= Z.to_euclidean_division_equations.

Lemma bytes_for_packed_bits_bounds n b :
  (n * b <= 8 * bytes_for_packed_bits n b < n * b + 8)%nat.
Proof. unfold bytes_for_packed_bits, div_round_up. generalize (n * b)%nat. lia. Qed.

Lemma bit_pos_split T : T = (8 * (T / 8) + T mod 8)%nat /\ (T mod 8 <= 7)%nat.
Proof. lia. Qed.

Lemma bit_pos_add T b :
  ((T + b) / 8 = T / 8 + (T mod 8 + b) / 8)%nat /\ ((T + b) mod 8 = (T mod 8 + b) mod 8)%nat.
Proof. lia. Qed.

Lemma bit_shift_lt r b : (r <= 7)%nat -> (b <= 24)%nat -> ((r + b) / 8 * 8 < 32)%nat.
Proof. lia. Qed.

#[local] Ltac Zify.zify_post_hook ::= idtac.

(** ** The contiguous writer *)

Definition packed_bytes (bits : nat) (vals : list Z) : bytes :=
  le_bytes (bytes_for_packed_bits (length vals) bits) (pack bits vals).

(** What holds between two calls of [BitWriter_write], [done] being the values
    written so far by a writer created at [base] on buffer [m0]: the next bit is
    bit [r] of byte [q]. *)
Record bw_inv (base bits : nat) (done : list Z) (m0 : bytes) (q r : nat)
    (w : BitWriter) (m : bytes) : Prop := {
  bwi_pos : (length done * bits = 8 * q + r)%nat;
  bwi_r : (r <= 7)%nat;
  bwi_w : w = BW (base + q) bits r (pack bits done / 2 ^ Z.of_nat (8 * q));
  bwi_len : length m = length m0;
  bwi_mem : take (base + bytes_for_packed_bits (length done) bits) m
            = take base m0 ++ packed_bytes bits done
}.

Lemma bw_inv_init base bits m0 :
  bw_inv base bits [] m0 0 0 (BitWriter_new base bits) m0.
Proof.
  constructor; simpl; auto; [lia| |].
  - unfold BitWriter_new. by rewrite Nat.add_0_r.
  - unfold packed_bytes, bytes_for_packed_bits. simpl. by rewrite Nat.add_0_r, app_nil_r.
Qed.

(** Prefixes of a packed buffer do not change when more values are appended. *)
Lemma le_bytes_pack_snoc bits done v q :
  (8 * q <= length done * bits)%nat ->
  le_bytes q (pack bits (done ++ [v])) = le_bytes q (pack bits done).
Proof.
  intros Hq. apply le_bytes_mod_eq. rewrite pack_app, pow256_pow2.
  replace (length done * bits)%nat with ((length done * bits - 8 * q) + 8 * q)%nat by lia.
  rewrite Nat2Z.inj_add, Z.pow_add_r, <- Z.mul_assoc, (Z.mul_comm (2 ^ Z.of_nat (8 * q))),
    Z.mul_assoc by lia.
  replace (8 * Z.of_nat q) with (Z.of_nat (8 * q)) by lia.
  apply Z_mod_plus_full.
Qed.

(** The accumulator after OR-ing in one more value. *)
Lemma pack_snoc_shift bits done v q :
  (8 * q <= length done * bits)%nat ->
  pack bits (done ++ [v]) / 2 ^ Z.of_nat (8 * q)
  = pack bits done / 2 ^ Z.of_nat (8 * q) + v * 2 ^ Z.of_nat (length done * bits - 8 * q).
Proof.
  intros Hq. rewrite pack_app. cbn [pack].
  replace (length done * bits)%nat with ((length done * bits - 8 * q) + 8 * q)%nat at 1 by lia.
  rewrite Nat2Z.inj_add, Z.pow_add_r by lia.
  pose proof (pow2_nat_pos (8 * q)).
  replace (2 ^ Z.of_nat (length done * bits - 8 * q) * 2 ^ Z.of_nat (8 * q) *
    (v + 2 ^ Z.of_nat bits * 0))
    with (v * 2 ^ Z.of_nat (length done * bits - 8 * q) * 2 ^ Z.of_nat (8 * q)) by lia.
  rewrite Z_div_plus_full; lia.
Qed.

Lemma pack_shift_range bits done q r :
  Forall (fun v => 0 <= v < 2 ^ Z.of_nat bits) done ->
  (length done * bits = 8 * q + r)%nat ->
  0 <= pack bits done / 2 ^ Z.of_nat (8 * q) < 2 ^ Z.of_nat r.
Proof.
  intros Hd Hq. pose proof (pack_range bits done Hd) as H. rewrite Hq in H.
  rewrite Nat2Z.inj_add, Z.pow_add_r in H by lia.
  pose proof (pow2_nat_pos (8 * q)).
  split; [apply Z.div_pos; lia|]. apply Z.div_lt_upper_bound; lia.
Qed.

(** Extending a prefix that ends in a packed value by one 4-byte store. *)
Lemma wr_extends_prefix m m' m0 base q P n :
  take (base + q) m = take base m0 ++ le_bytes q P ->
  wr m (base + q) (le_bytes 4 (P / 2 ^ Z.of_nat (8 * q))) = Some m' ->
  (base <= length m0)%nat -> (n <= q + 4)%nat ->
  take (base + n) m' = take base m0 ++ le_bytes n P.
Proof.
  intros Hpre Hm' Hb Hn. apply wr_mid in Hm'. rewrite length_le_bytes, Hpre, <- app_assoc in Hm'.
  assert (Happ : le_bytes q P ++ le_bytes 4 (P / 2 ^ Z.of_nat (8 * q)) = le_bytes (q + 4) P).
  { rewrite le_bytes_app, pow256_pow2. do 3 f_equal. lia. }
  rewrite Happ in Hm'.
  replace (take (base + n) m') with (take (base + n) (take (base + q + 4) m'))
    by (rewrite take_take; f_equal; lia).
  rewrite Hm', take_app_ge by (rewrite length_take; lia).
  rewrite length_take, Nat.min_l by lia. rewrite take_le_bytes by lia. do 2 f_equal. lia.
Qed.

(** One more value fits into the accumulator. *)
Lemma shifted_value_fits v bits r :
  0 <= v < 2 ^ Z.of_nat bits -> (bits <= 24)%nat -> (r <= 7)%nat ->
  is_u32 (Z.shiftl v (Z.of_nat r)).
Proof.
  intros Hv Hb Hr. rewrite Z.shiftl_mul_pow2 by lia.
  assert (2 ^ Z.of_nat r <= 2 ^ 7) by (apply Z.pow_le_mono_r; lia).
  assert (2 ^ Z.of_nat bits <= 2 ^ 24) by (apply Z.pow_le_mono_r; lia).
  pose proof (pow2_nat_pos r). unfold is_u32. change (2 ^ 32) with (2 ^ 24 * 2 ^ 8).
  change (2 ^ 8) with (2 ^ 7 * 2). nia.
Qed.

Lemma BitWriter_write_step base bits done m0 q r w m v :
  bw_inv base bits done m0 q r w m -> (bits <= 24)%nat ->
  Forall (fun v => 0 <= v < 2 ^ Z.of_nat bits) done -> 0 <= v < 2 ^ Z.of_nat bits ->
  (base + q + 4 <= length m0)%nat ->
  exists q' r' w' m', BitWriter_write w v m = Some (w', m') /\
    bw_inv base bits (done ++ [v]) m0 q' r' w' m' /\ (q <= q')%nat.
Proof.
  intros [HT Hr Hw Hlen Hmem] Hb Hdone Hv Hroom.
  pose proof (bytes_for_packed_bits_bounds (length done) bits) as Hc.
  pose proof (bytes_for_packed_bits_bounds (length (done ++ [v])) bits) as Hc'.
  assert (HT' : (length (done ++ [v]) * bits = 8 * q + (r + bits))%nat)
    by (rewrite length_app; simpl; lia).
  pose proof (le_bytes_pack_snoc bits done v q ltac:(lia)) as Hsame.
  pose proof (pack_snoc_shift bits done v q ltac:(lia)) as Hsnoc.
  pose proof (pack_shift_range bits done q r Hdone HT) as Hcr.
  replace (length done * bits - 8 * q)%nat with r in Hsnoc by (clear -HT; lia).
  destruct (bit_pos_split (r + bits)) as [Hs Hs7].
  pose proof (bit_shift_lt r bits Hr Hb) as Hsh.
  unfold BitWriter_write. rewrite Hw. cbn [bw_out bw_bits bw_bits_used bw_cur].
  rewrite u32_small by eauto using shifted_value_fits.
  rewrite lor_shiftl_add, <- Hsnoc by lia.
  unfold write_le32.
  destruct (wr_is_Some m (base + q) (le_bytes 4 (pack bits (done ++ [v]) / 2 ^ Z.of_nat (8 * q))))
    as [m' Hm'].
  { rewrite length_le_bytes. lia. }
  rewrite Hm'. cbn [mbind option_bind]. rewrite decide_True by lia.
  generalize dependent ((r + bits) / 8)%nat. intros q1. generalize dependent ((r + bits) mod 8)%nat.
  intros r1 Hs7 Hs Hsh.
  eexists (q + q1)%nat, r1, _, m'. split; [done|]. split; [|lia].
  constructor; [clear - HT' Hs; lia|exact Hs7| | |].
  - f_equal; [clear; lia|]. pose proof (pow2_nat_pos (8 * q)).
    rewrite Z.shiftr_div_pow2, Z.div_div by (lia || apply pow2_nat_pos).
    rewrite <- Z.pow_add_r by lia. do 2 f_equal. lia.
  - by rewrite (wr_length _ _ _ _ Hm').
  - clear Hcr Hsnoc Hv Hdone Hw.
    eapply wr_extends_prefix; [|exact Hm'|clear -Hroom; lia|clear -Hc' HT' Hs Hs7 Hsh Hr Hb; lia].
    rewrite Hsame. clear Hsame Hm' Hsh.
    replace (take (base + q) m) with
      (take (base + q) (take (base + bytes_for_packed_bits (length done) bits) m))
      by (rewrite take_take; f_equal; lia).
    rewrite Hmem, take_app_ge by (rewrite length_take; lia).
    f_equal. rewrite length_take. unfold packed_bytes.
    rewrite Nat.min_l by lia. rewrite take_le_bytes by lia. f_equal. lia.
Qed.

Lemma write_all_inv base bits m0 vals : forall done q r w m,
  bw_inv base bits done m0 q r w m -> (bits <= 24)%nat ->
  Forall (fun v => 0 <= v < 2 ^ Z.of_nat bits) (done ++ vals) ->
  (base + bytes_for_packed_bits (length (done ++ vals)) bits + 4 <= length m0)%nat ->
  exists q' r' w' m', write_all w vals m = Some (w', m') /\
    bw_inv base bits (done ++ vals) m0 q' r' w' m'.
Proof.
  induction vals as [|v vals IH]; intros done q r w m Hinv Hb Hall Hroom; simpl.
  { rewrite app_nil_r. eauto 6. }
  pose proof Hall as Hall'. apply Forall_app in Hall as [Hd Hv]. apply Forall_cons in Hv as [Hv _].
  assert (Hq : (8 * q <= length (done ++ v :: vals) * bits)%nat).
  { rewrite length_app. pose proof (bwi_pos _ _ _ _ _ _ _ _ Hinv). nia. }
  pose proof (bytes_for_packed_bits_bounds (length (done ++ v :: vals)) bits) as Hc.
  destruct (BitWriter_write_step _ _ _ _ _ _ _ _ v Hinv Hb Hd Hv)
    as (q1 & r1 & w1 & m1 & Hw & Hinv1 & _); [lia|].
  rewrite Hw. cbn [mbind option_bind].
  replace (done ++ v :: vals) with ((done ++ [v]) ++ vals) in * by by rewrite <- app_assoc.
  by apply (IH _ _ _ _ _ Hinv1).
Qed.

(** The contiguous writer produces the packed bytes, and leaves what precedes
    them alone. *)
Lemma write_all_spec base bits vals m :
  (bits <= 24)%nat -> Forall (fun v => 0 <= v < 2 ^ Z.of_nat bits) vals ->
  (base + bytes_for_packed_bits (length vals) bits + 4 <= length m)%nat ->
  exists w m', write_all (BitWriter_new base bits) vals m = Some (w, m') /\
    length m' = length m /\
    take (base + bytes_for_packed_bits (length vals) bits) m'
      = take base m ++ packed_bytes bits vals.
Proof.
  intros Hb Hall Hroom.
  destruct (write_all_inv base bits m vals [] 0 0 _ m (bw_inv_init base bits m) Hb Hall Hroom)
    as (q & r & w & m' & Hw & [_ _ _ Hlen Hmem]).
  eauto 6.
Qed.

(** ** The contiguous reader *)

Lemma packed_bytes_byte bits vals : Forall is_byte (packed_bytes bits vals).
Proof. apply le_bytes_byte. Qed.

Lemma length_packed_bytes bits vals :
  length (packed_bytes bits vals) = bytes_for_packed_bits (length vals) bits.
Proof. apply length_le_bytes. Qed.

(** Inside the packed part, a slice of the buffer is a slice of the values. *)
Lemma slice_packed bits vals rest k b :
  (k + b <= length vals * bits)%nat ->
  slice (le_val (packed_bytes bits vals ++ rest)) k b = slice (pack bits vals) k b.
Proof.
  intros Hk. pose proof (bytes_for_packed_bits_bounds (length vals) bits) as Hc.
  apply (slice_eq_mod _ _ (8 * bytes_for_packed_bits (length vals) bits)); [|lia].
  unfold packed_bytes at 1. rewrite le_val_app, length_le_bytes, le_val_le_bytes.
  rewrite pow256_pow2, (Nat2Z.inj_mul 8). change (Z.of_nat 8) with 8.
  rewrite (Z.mul_comm (2 ^ _) (le_val rest)), Z_mod_plus_full. apply Z.mod_mod.
  apply Z.pow_nonzero; lia.
Qed.

(** A reader that has handed out [i] values. *)
Definition br_inv (bits i : nat) (in_ : bytes) (r : BitReader) : Prop :=
  exists q u, (i * bits = 8 * q + u)%nat /\ (u <= 7)%nat /\ r = BR (drop q in_) bits u.

Lemma br_inv_init bits in_ : br_inv bits 0 in_ (BitReader_new in_ bits).
Proof. exists 0%nat, 0%nat. split; [lia|]. split; [lia|]. by rewrite drop_0. Qed.

Lemma BitReader_read_step bits vals rest i r v :
  br_inv bits i (packed_bytes bits vals ++ rest) r -> (bits <= 24)%nat ->
  Forall (fun v => 0 <= v < 2 ^ Z.of_nat bits) vals ->
  Forall is_byte rest -> (4 <= length rest)%nat ->
  vals !! i = Some v ->
  exists r', BitReader_read r = Some (v, r') /\
    br_inv bits (S i) (packed_bytes bits vals ++ rest) r'.
Proof.
  intros (q & u & Hpos & Hu & ->) Hb Hall Hrest Hlen Hv.
  pose proof (lookup_lt_Some _ _ _ Hv) as Hi.
  pose proof (bytes_for_packed_bits_bounds (length vals) bits) as Hc.
  assert (Hib : (i * bits + bits <= length vals * bits)%nat).
  { clear -Hi. nia. }
  assert (Hq : (q + 4 <= length (packed_bytes bits vals ++ rest))%nat).
  { rewrite length_app, length_packed_bytes. clear -Hc Hib Hpos Hlen. lia. }
  assert (HB : Forall is_byte (packed_bytes bits vals ++ rest)).
  { apply Forall_app; split; [apply packed_bytes_byte|done]. }
  unfold BitReader_read. cbn [br_in br_bits br_bits_used].
  rewrite rd_slice; [|by apply Forall_drop|rewrite length_drop; lia].
  cbn [mbind option_bind]. rewrite shiftr_slice by lia.
  rewrite le_val_drop by done.
  assert (Hval : slice (slice (le_val (packed_bytes bits vals ++ rest) / 256 ^ Z.of_nat q)
      (8 * 0) (8 * 4)) u bits = v).
  { rewrite slice_slice by lia. cbn [Nat.mul Nat.add].
    replace (slice (le_val (packed_bytes bits vals ++ rest) / 256 ^ Z.of_nat q) u bits)
      with (slice (le_val (packed_bytes bits vals ++ rest)) (i * bits) bits).
    { rewrite slice_packed by lia. by apply slice_pack. }
    unfold slice. rewrite Hpos, pow256_pow2, Z.div_div, <- Z.pow_add_r
      by (try apply pow2_nat_pos; try (apply Z.pow_nonzero; lia); lia).
    do 3 f_equal. lia. }
  rewrite Hval. eexists. split; [done|].
  destruct (bit_pos_split (u + bits)) as [Hs Hs7].
  exists (q + (u + bits) / 8)%nat, ((u + bits) mod 8)%nat.
  split; [|split; [exact Hs7|]].
  - generalize dependent ((u + bits) / 8)%nat. generalize dependent ((u + bits) mod 8)%nat.
    intros. clear -Hpos Hs. simpl. lia.
  - by rewrite drop_drop.
Qed.

Lemma read_all_inv bits vals rest n : forall i r,
  br_inv bits i (packed_bytes bits vals ++ rest) r -> (bits <= 24)%nat ->
  Forall (fun v => 0 <= v < 2 ^ Z.of_nat bits) vals ->
  Forall is_byte rest -> (4 <= length rest)%nat -> (i + n = length vals)%nat ->
  read_all r n = Some (drop i vals).
Proof.
  induction n as [|n IH]; intros i r Hr Hb Hall Hrest Hlen Hn; simpl.
  { rewrite drop_ge by lia. done. }
  destruct (lookup_lt_is_Some_2 vals i) as [v Hv]; [lia|].
  destruct (BitReader_read_step _ _ _ _ _ _ Hr Hb Hall Hrest Hlen Hv) as (r' & Hread & Hr').
  rewrite Hread. cbn [mbind option_bind]. rewrite (IH (S i) r') by (done || lia).
  cbn [mbind option_bind]. by rewrite (drop_S vals v i Hv).
Qed.

Lemma read_all_spec bits vals rest :
  (bits <= 24)%nat -> Forall (fun v => 0 <= v < 2 ^ Z.of_nat bits) vals ->
  Forall is_byte rest -> (4 <= length rest)%nat ->
  read_all (BitReader_new (packed_bytes bits vals ++ rest) bits) (length vals) = Some vals.
Proof.
  intros. by rewrite (read_all_inv bits vals rest (length vals) 0) by
    (done || lia || apply br_inv_init).
Qed.
