(* ===== verification/BitPackInterleaved.v ===== *)
(** * Interleaved bit packing: four streams of 32-bit words

    Specification of [InterleavedBitWriter] and [InterleavedBitReader] (the
    definitions are in BitPack): word [j] of stream [k] of a block starting at
    [base] is at [base + 4k + 16j] and holds bits [32j .. 32j+32) of the packed
    values of that stream. *)
From S2P Require Import Prelude BitPack.

(** ** 4-byte stores and loads *)

Lemma rd_take n m p k : (p + n <= k)%nat -> rd n (take k m) p = rd n m p.
Proof.
  intros H. unfold rd. rewrite length_take.
  destruct (decide (p + n <= length m)%nat); [rewrite decide_True by lia|by rewrite decide_False by lia].
  rewrite skipn_firstn_comm, take_take. do 3 f_equal. lia.
Qed.

Lemma rd_drop n m p k : (k <= length m)%nat -> rd n (drop k m) p = rd n m (k + p).
Proof.
  intros H. unfold rd. rewrite length_drop, drop_drop.
  destruct (decide (k + p + n <= length m)%nat); [by rewrite decide_True by lia|by rewrite decide_False by lia].
Qed.

Lemma rd_ok n m p : (p + n <= length m)%nat -> exists v, rd n m p = Some v.
Proof. intros H. unfold rd. rewrite decide_True by done. eauto. Qed.

Lemma write_le32_eq v m p m' :
  write_le32 v m p = Some m' -> 0 <= v < 2 ^ 32 -> rd 4 m' p = Some v.
Proof.
  intros H Hv. unfold write_le32 in H. pose proof (wr_mid _ _ _ _ H) as Hm.
  pose proof (wr_length _ _ _ _ H) as Hl.
  rewrite length_le_bytes in Hm.
  unfold wr in H. rewrite length_le_bytes in H. case_decide as Hd; [|done]. clear H.
  rewrite <- (rd_take 4 m' p (p + 4)) by lia. rewrite Hm.
  replace p with (length (take p m) + 0)%nat at 2 by (rewrite length_take; lia).
  rewrite rd_app_r. unfold rd. rewrite decide_True by (rewrite length_le_bytes; lia).
  rewrite drop_0, take_ge by (rewrite length_le_bytes; lia). f_equal.
  apply le_val_le_bytes_small. by change (256 ^ Z.of_nat 4) with (2 ^ 32).
Qed.

Lemma write_le32_ne v m p m' n p' :
  write_le32 v m p = Some m' -> (p' + n <= p \/ p + 4 <= p')%nat -> rd n m' p' = rd n m p'.
Proof.
  intros H Hp. unfold write_le32 in H. pose proof (wr_length _ _ _ _ H) as Hl.
  unfold rd. rewrite Hl. case_decide; [|done]. do 2 f_equal. apply list_eq. intros i.
  destruct (decide (i < n)%nat) as [Hi|Hi].
  - rewrite !lookup_take_lt, !lookup_drop by lia. eapply wr_lookup_ne; [exact H|].
    rewrite length_le_bytes. lia.
  - by rewrite !lookup_take_ge by lia.
Qed.

Lemma write_le32_ok v m p : (p + 4 <= length m)%nat ->
  exists m', write_le32 v m p = Some m' /\ length m' = length m.
Proof.
  intros H. destruct (wr_is_Some m p (le_bytes 4 v)) as [m' Hm]; [by rewrite length_le_bytes|].
  exists m'. split; [done|]. by apply (wr_length _ _ _ _ Hm).
Qed.

Lemma write_le32_take v m p m' k : write_le32 v m p = Some m' -> (k <= p)%nat -> take k m' = take k m.
Proof. apply wr_take. Qed.

(** ** One stream *)

(** [mem_words base k bits vals m]: the words of stream [k] hold [vals]. *)
Definition mem_words (base k bits : nat) (vals : list Z) (m : bytes) : Prop :=
  forall j, (32 * j < length vals * bits)%nat ->
    rd 4 m (base + 4 * k + 16 * j) = Some (slice (pack bits vals) (32 * j) 32).

Record ibw_inv (base k bits : nat) (vals : list Z) (q r : nat)
    (w : InterleavedBitWriter) (m : bytes) : Prop := {
  ibi_pos : (length vals * bits = 32 * q + r)%nat;
  ibi_r : (r < 32)%nat;
  ibi_w : w = IBW (base + 4 * k + 16 * q) (Z.of_nat bits) (Z.of_nat r)
                (pack bits vals / 2 ^ Z.of_nat (32 * q));
  ibi_mem : mem_words base k bits vals m
}.

Lemma ibw_inv_init base k bits m :
  ibw_inv base k bits [] 0 0 (InterleavedBitWriter_new (base + 4 * k) bits) m.
Proof.
  constructor; simpl; auto; [lia| |].
  - unfold InterleavedBitWriter_new. f_equal; lia.
  - intros j Hj. simpl in Hj. lia.
Qed.

(** A slice that lies inside the values already packed does not change. *)
Lemma slice_pack_snoc bits l v k b :
  (k + b <= length l * bits)%nat -> slice (pack bits (l ++ [v])) k b = slice (pack bits l) k b.
Proof.
  intros H. apply (slice_eq_mod _ _ (length l * bits)); [|done].
  rewrite pack_app, (Z.mul_comm (2 ^ _)). apply Z_mod_plus_full.
Qed.

Lemma pack_snoc_shift32 bits l v q r :
  (length l * bits = 32 * q + r)%nat ->
  pack bits (l ++ [v]) / 2 ^ Z.of_nat (32 * q)
  = pack bits l / 2 ^ Z.of_nat (32 * q) + v * 2 ^ Z.of_nat r.
Proof.
  intros H. replace (32 * q)%nat with (8 * (4 * q))%nat by lia.
  rewrite pack_snoc_shift by lia. do 3 f_equal. lia.
Qed.

Lemma pack_shift32_range bits l q r :
  Forall (fun v => 0 <= v < 2 ^ Z.of_nat bits) l ->
  (length l * bits = 32 * q + r)%nat ->
  0 <= pack bits l / 2 ^ Z.of_nat (32 * q) < 2 ^ Z.of_nat r.
Proof.
  intros Hl H. replace (32 * q)%nat with (8 * (4 * q))%nat by lia.
  apply pack_shift_range; [done|lia].
Qed.

(** The whole words of a list are unchanged by one more value. *)
Lemma word_snoc bits l v q r j :
  (length l * bits = 32 * q + r)%nat -> (j < q)%nat ->
  slice (pack bits (l ++ [v])) (32 * j) 32 = slice (pack bits l) (32 * j) 32.
Proof. intros H Hj. apply slice_pack_snoc. lia. Qed.

Lemma slice_top x q b : 0 <= x / 2 ^ Z.of_nat q < 2 ^ Z.of_nat b ->
  slice x q b = x / 2 ^ Z.of_nat q.
Proof. intros H. unfold slice. by apply Z.mod_small. Qed.

(** What a step of stream [k] may touch. *)
Definition only_stream (base k : nat) (m m' : bytes) : Prop :=
  length m' = length m /\ take base m' = take base m /\
  forall k' j, (k' < 4)%nat -> k' <> k ->
    rd 4 m' (base + 4 * k' + 16 * j) = rd 4 m (base + 4 * k' + 16 * j).

Lemma only_stream_words base k k' bits vals m m' :
  only_stream base k m m' -> (k' < 4)%nat -> k' <> k ->
  mem_words base k' bits vals m -> mem_words base k' bits vals m'.
Proof. intros (_ & _ & H) Hk Hne Hm j Hj. rewrite H by done. by apply Hm. Qed.

Lemma only_stream_inv base k k' bits vals q r w m m' :
  only_stream base k m m' -> (k' < 4)%nat -> k' <> k ->
  ibw_inv base k' bits vals q r w m -> ibw_inv base k' bits vals q r w m'.
Proof.
  intros Ho Hk Hne [H1 H2 H3 H4]. constructor; auto. by eapply only_stream_words.
Qed.

Lemma write_le32_only_stream base k j v m m' : (k < 4)%nat ->
  write_le32 v m (base + 4 * k + 16 * j) = Some m' -> only_stream base k m m'.
Proof.
  intros Hk H. split; [by apply (wr_length _ _ _ _ H)|]. split.
  - apply (write_le32_take _ _ _ _ _ H). lia.
  - intros k' j' Hk' Hne. apply (write_le32_ne _ _ _ _ _ _ H). lia.
Qed.

Lemma only_stream_trans base k m m' m'' :
  only_stream base k m m' -> only_stream base k m' m'' -> only_stream base k m m''.
Proof.
  intros (H1 & H2 & H3) (H4 & H5 & H6). repeat split; try congruence.
  intros k' j Hk Hne. rewrite H6, H3; auto.
Qed.

(** The accumulator of a step, before any store. *)
Lemma ibw_accumulate cur r bits val :
  0 <= cur < 2 ^ Z.of_nat r -> (r < 32)%nat -> (bits <= 32)%nat -> 0 <= val < 2 ^ Z.of_nat bits ->
  Z.lor cur (u64 (Z.shiftl val (Z.of_nat r))) = cur + val * 2 ^ Z.of_nat r
  /\ 0 <= cur + val * 2 ^ Z.of_nat r < 2 ^ Z.of_nat (r + bits).
Proof.
  intros Hc Hr Hb Hv. pose proof (pow2_nat_pos r) as Hp.
  assert (Hlt : 0 <= cur + val * 2 ^ Z.of_nat r < 2 ^ Z.of_nat (r + bits)).
  { rewrite Nat2Z.inj_add, Z.pow_add_r by lia. nia. }
  split; [|done].
  rewrite u64_small, lor_shiftl_add; [done|lia|done|].
  rewrite Z.shiftl_mul_pow2 by lia.
  assert (2 ^ Z.of_nat (r + bits) <= 2 ^ 64) by (apply Z.pow_le_mono_r; lia).
  unfold is_u64. nia.
Qed.

Lemma pow2_add32 q : 2 ^ Z.of_nat (32 * S q) = 2 ^ Z.of_nat (32 * q) * 2 ^ 32.
Proof.
  replace (Z.of_nat (32 * S q)) with (Z.of_nat (32 * q) + 32) by lia.
  by rewrite Z.pow_add_r by lia.
Qed.

Lemma pow2_le32 n : (n <= 32)%nat -> 2 ^ Z.of_nat n <= 2 ^ 32.
Proof. intros H. apply Z.pow_le_mono_r; lia. Qed.

(** The words in memory after a word is full and the next one is begun. *)
Lemma words_written base k bits vals val q r m m1 m2 :
  (length vals * bits = 32 * q + r)%nat -> (r < 32)%nat -> (bits <= 32)%nat -> mem_words base k bits vals m ->
  write_le32 (slice (pack bits (vals ++ [val])) (32 * q) 32) m (base + 4 * k + 16 * q) = Some m1 ->
  write_le32 (pack bits (vals ++ [val]) / 2 ^ Z.of_nat (32 * S q)) m1 (base + 4 * k + 16 * S q) = Some m2 ->
  0 <= pack bits (vals ++ [val]) / 2 ^ Z.of_nat (32 * S q) < 2 ^ 32 -> mem_words base k bits (vals ++ [val]) m2.
Proof.
  intros Hpos Hr Hb Hmem Hm1 Hm2 Hx j Hj. rewrite length_app in Hj. cbn [length] in Hj.
  destruct (decide (j < q)%nat) as [Hjq|Hjq]; [|destruct (decide (j = q)) as [->|Hne]].
  - rewrite (write_le32_ne _ _ _ _ _ _ Hm2) by lia.
    rewrite (write_le32_ne _ _ _ _ _ _ Hm1) by lia.
    rewrite (word_snoc _ _ _ q r) by done. apply Hmem. lia.
  - rewrite (write_le32_ne _ _ _ _ _ _ Hm2) by lia.
    apply (write_le32_eq _ _ _ _ Hm1), slice_range.
  - assert (j = S q) as -> by lia.
    rewrite (write_le32_eq _ _ _ _ Hm2 Hx). f_equal. symmetry.
    apply slice_top. exact Hx.
Qed.

(** The step that completes a word. *)
Lemma ibw_step_full base k bits vals q r w m val :
  ibw_inv base k bits vals q r w m -> (k < 4)%nat -> (bits <= 32)%nat ->
  Forall (fun v => 0 <= v < 2 ^ Z.of_nat bits) vals -> 0 <= val < 2 ^ Z.of_nat bits ->
  (32 <= r + bits)%nat ->
  (base + 16 * (q + 2) <= length m)%nat ->
  exists w' m', InterleavedBitWriter_write w val m = Some (w', m') /\
    ibw_inv base k bits (vals ++ [val]) (S q) (r + bits - 32) w' m' /\ only_stream base k m m'.
Proof.
  intros [Hpos Hr Hw Hmem] Hk Hb Hall Hval Hfull Hroom.
  pose proof (pack_shift32_range bits vals q r Hall Hpos) as Hcr.
  pose proof (pack_snoc_shift32 bits vals val q r Hpos) as Hsnoc.
  destruct (ibw_accumulate _ _ _ _ Hcr Hr Hb Hval) as [Hacc Hrange].
  rewrite <- Hsnoc in Hacc, Hrange.
  unfold InterleavedBitWriter_write. rewrite Hw. cbn [ibw_out ibw_bits ibw_bits_used ibw_cur].
  rewrite Hacc. clear Hacc Hw.
  assert (Hlast : 0 <= pack bits (vals ++ [val]) / 2 ^ Z.of_nat (32 * S q)
                  < 2 ^ Z.of_nat (r + bits - 32)).
  { apply pack_shift32_range; [apply Forall_app; auto|].
    rewrite length_app. cbn [length]. lia. }
  assert (Hcarry : Z.shiftr (pack bits (vals ++ [val]) / 2 ^ Z.of_nat (32 * q)) 32
                   = pack bits (vals ++ [val]) / 2 ^ Z.of_nat (32 * S q)).
  { rewrite Z.shiftr_div_pow2, Z.div_div, pow2_add32 by (lia || apply pow2_nat_pos). done. }
  assert (Hlow : Z.land (pack bits (vals ++ [val]) / 2 ^ Z.of_nat (32 * q)) 4294967295
                 = slice (pack bits (vals ++ [val])) (32 * q) 32).
  { change 4294967295 with (Z.ones 32). by rewrite Z.land_ones by lia. }
  pose proof (pow2_le32 (r + bits - 32) ltac:(clear -Hr Hb; lia)) as Hle.
  rewrite Hcarry, Hlow. clear Hcarry Hlow Hsnoc Hrange Hcr.
  replace (Z.of_nat r + Z.of_nat bits >=? 32) with true by (clear -Hfull; lia).
  destruct (write_le32_ok (slice (pack bits (vals ++ [val])) (32 * q) 32) m
              (base + 4 * k + 16 * q)) as (m1 & Hm1 & Hl1); [clear -Hroom Hk; lia|].
  rewrite Hm1. cbn [mbind option_bind].
  assert (Hx : 0 <= pack bits (vals ++ [val]) / 2 ^ Z.of_nat (32 * S q) < 2 ^ 32).
  { split; [apply Hlast|eapply Z.lt_le_trans; [apply Hlast|exact Hle]]. }
  rewrite (u32_small _ Hx).
  unfold Stride. replace (base + 4 * k + 16 * q + 4 * 4)%nat with (base + 4 * k + 16 * S q)%nat by (clear; lia).
  destruct (write_le32_ok (pack bits (vals ++ [val]) / 2 ^ Z.of_nat (32 * S q)) m1
              (base + 4 * k + 16 * S q)) as (m2 & Hm2 & Hl2); [clear -Hroom Hk Hl1; lia|].
  rewrite Hm2. cbn [mbind option_bind]. eexists _, m2. split; [done|].
  pose proof (write_le32_only_stream _ _ _ _ _ _ Hk Hm1) as Ho1.
  pose proof (write_le32_only_stream _ _ _ _ _ _ Hk Hm2) as Ho2.
  split; [|by eapply only_stream_trans].
  constructor.
  - rewrite length_app. cbn [length]. clear -Hpos Hfull Hr Hb. lia.
  - clear -Hr Hb. lia.
  - f_equal. unfold u32. rewrite Zplus_mod_idemp_l. clear -Hfull Hr Hb.
    rewrite Z.mod_small by lia. lia.
  - by apply (words_written base k bits vals val q r m m1 m2).
Qed.

(** The step that stays inside a word. *)
Lemma ibw_step_part base k bits vals q r w m val :
  ibw_inv base k bits vals q r w m -> (k < 4)%nat -> (bits <= 32)%nat ->
  Forall (fun v => 0 <= v < 2 ^ Z.of_nat bits) vals -> 0 <= val < 2 ^ Z.of_nat bits ->
  (r + bits < 32)%nat ->
  (base + 16 * (q + 1) <= length m)%nat ->
  exists w' m', InterleavedBitWriter_write w val m = Some (w', m') /\
    ibw_inv base k bits (vals ++ [val]) q (r + bits) w' m' /\ only_stream base k m m'.
Proof.
  intros [Hpos Hr Hw Hmem] Hk Hb Hall Hval Hfull Hroom.
  pose proof (pack_shift32_range bits vals q r Hall Hpos) as Hcr.
  pose proof (pack_snoc_shift32 bits vals val q r Hpos) as Hsnoc.
  destruct (ibw_accumulate _ _ _ _ Hcr Hr Hb Hval) as [Hacc Hrange].
  rewrite <- Hsnoc in Hacc, Hrange.
  unfold InterleavedBitWriter_write. rewrite Hw. cbn [ibw_out ibw_bits ibw_bits_used ibw_cur].
  rewrite Hacc. clear Hacc Hw Hsnoc.
  replace (Z.of_nat r + Z.of_nat bits >=? 32) with false by (clear -Hfull; lia).
  pose proof (pow2_le32 (r + bits) ltac:(clear -Hfull; lia)) as Hle.
  assert (Hx : 0 <= pack bits (vals ++ [val]) / 2 ^ Z.of_nat (32 * q) < 2 ^ 32).
  { split; [apply Hrange|eapply Z.lt_le_trans; [apply Hrange|exact Hle]]. }
  rewrite (u32_small _ Hx).
  destruct (write_le32_ok (pack bits (vals ++ [val]) / 2 ^ Z.of_nat (32 * q)) m
              (base + 4 * k + 16 * q)) as (m1 & Hm1 & Hl1); [clear -Hroom Hk; lia|].
  rewrite Hm1. cbn [mbind option_bind]. eexists _, m1. split; [done|].
  pose proof (write_le32_only_stream _ _ _ _ _ _ Hk Hm1) as Ho1.
  split; [|done]. constructor.
  - rewrite length_app. cbn [length]. clear -Hpos. lia.
  - done.
  - f_equal. unfold u32. clear -Hfull. rewrite Z.mod_small by lia. lia.
  - intros j Hj. rewrite length_app in Hj. cbn [length] in Hj.
    destruct (decide (j < q)%nat) as [Hjq|Hjq].
    + rewrite (write_le32_ne _ _ _ _ _ _ Hm1) by lia.
      rewrite (word_snoc _ _ _ q r) by done. apply Hmem. lia.
    + assert (j = q) as -> by lia. rewrite (write_le32_eq _ _ _ _ Hm1 Hx).
      f_equal. symmetry. by apply slice_top.
Qed.

Lemma ibw_step base k bits vals q r w m val n :
  ibw_inv base k bits vals q r w m -> (k < 4)%nat -> (bits <= 32)%nat ->
  Forall (fun v => 0 <= v < 2 ^ Z.of_nat bits) vals -> 0 <= val < 2 ^ Z.of_nat bits ->
  (length vals * bits + bits <= n)%nat -> (8 * base + 4 * n + 128 <= 8 * length m)%nat ->
  exists q' r' w' m', InterleavedBitWriter_write w val m = Some (w', m') /\
    ibw_inv base k bits (vals ++ [val]) q' r' w' m' /\ only_stream base k m m'.
Proof.
  intros Hinv Hk Hb Hall Hval Hn Hroom. pose proof (ibi_pos _ _ _ _ _ _ _ _ Hinv) as Hpos.
  destruct (decide (32 <= r + bits)%nat).
  - destruct (ibw_step_full _ _ _ _ _ _ _ _ val Hinv) as (w' & m' & H); auto; [lia|eauto 6].
  - destruct (ibw_step_part _ _ _ _ _ _ _ _ val Hinv) as (w' & m' & H); auto; [lia|lia|eauto 6].
Qed.

(** ** Four streams *)

(** [d k] are the values of stream [k] written so far. *)
Definition quad_inv (base bits : nat) (d0 d1 d2 d3 : list Z)
    (w0 w1 w2 w3 : InterleavedBitWriter) (m : bytes) : Prop :=
  (exists q r, ibw_inv base 0 bits d0 q r w0 m) /\ (exists q r, ibw_inv base 1 bits d1 q r w1 m) /\
  (exists q r, ibw_inv base 2 bits d2 q r w2 m) /\ (exists q r, ibw_inv base 3 bits d3 q r w3 m).

Definition fits (bits : nat) : list Z -> Prop := Forall (fun v => 0 <= v < 2 ^ Z.of_nat bits).

Lemma length_only_stream base k m m' : only_stream base k m m' -> length m' = length m.
Proof. by intros []. Qed.

Lemma take_only_stream base k m m' : only_stream base k m m' -> take base m' = take base m.
Proof. by intros (_ & ? & _). Qed.

Lemma fits_snoc bits l v : fits bits l -> 0 <= v < 2 ^ Z.of_nat bits -> fits bits (l ++ [v]).
Proof. intros. apply Forall_app. auto. Qed.

Lemma write_group base bits L n d0 d1 d2 d3 w0 w1 w2 w3 m a b c d :
  quad_inv base bits d0 d1 d2 d3 w0 w1 w2 w3 m -> (bits <= 32)%nat ->
  fits bits d0 -> fits bits d1 -> fits bits d2 -> fits bits d3 -> fits bits [a; b; c; d] ->
  length d0 = L -> length d1 = L -> length d2 = L -> length d3 = L ->
  (L * bits + bits <= n)%nat -> (8 * base + 4 * n + 128 <= 8 * length m)%nat ->
  exists w0' w1' w2' w3' m', (forall vals, write_interleaved w0 w1 w2 w3 (a :: b :: c :: d :: vals) m
      = write_interleaved w0' w1' w2' w3' vals m') /\
    quad_inv base bits (d0 ++ [a]) (d1 ++ [b]) (d2 ++ [c]) (d3 ++ [d]) w0' w1' w2' w3' m' /\
    length m' = length m /\ take base m' = take base m.
Proof.
  intros ((q0 & r0 & I0) & (q1 & r1 & I1) & (q2 & r2 & I2) & (q3 & r3 & I3)) Hb F0 F1 F2 F3 F
    L0 L1 L2 L3 Hn Hroom.
  apply Forall_cons in F as [Fa F]. apply Forall_cons in F as [Fb F].
  apply Forall_cons in F as [Fc F]. apply Forall_cons in F as [Fd _].
  destruct (ibw_step _ _ _ _ _ _ _ _ a n I0) as (q0' & r0' & w0' & m0 & E0 & I0' & O0);
    [clear; lia|done|done|done|by rewrite L0|done|].
  pose proof (only_stream_inv _ 0 1 _ _ _ _ _ _ _ O0 ltac:(lia) ltac:(done) I1) as I1'.
  pose proof (only_stream_inv _ 0 2 _ _ _ _ _ _ _ O0 ltac:(lia) ltac:(done) I2) as I2'.
  pose proof (only_stream_inv _ 0 3 _ _ _ _ _ _ _ O0 ltac:(lia) ltac:(done) I3) as I3'.
  destruct (ibw_step _ _ _ _ _ _ _ _ b n I1') as (q1' & r1' & w1' & m1 & E1 & I1'' & O1);
    [clear; lia|done|done|done|by rewrite L1|by rewrite (length_only_stream _ _ _ _ O0)|].
  pose proof (only_stream_inv _ 1 0 _ _ _ _ _ _ _ O1 ltac:(lia) ltac:(done) I0') as I0''.
  pose proof (only_stream_inv _ 1 2 _ _ _ _ _ _ _ O1 ltac:(lia) ltac:(done) I2') as I2''.
  pose proof (only_stream_inv _ 1 3 _ _ _ _ _ _ _ O1 ltac:(lia) ltac:(done) I3') as I3''.
  destruct (ibw_step _ _ _ _ _ _ _ _ c n I2'') as (q2' & r2' & w2' & m2 & E2 & J2 & O2);
    [clear; lia|done|done|done|by rewrite L2|
     by rewrite (length_only_stream _ _ _ _ O1), (length_only_stream _ _ _ _ O0)|].
  pose proof (only_stream_inv _ 2 0 _ _ _ _ _ _ _ O2 ltac:(lia) ltac:(done) I0'') as J0.
  pose proof (only_stream_inv _ 2 1 _ _ _ _ _ _ _ O2 ltac:(lia) ltac:(done) I1'') as J1.
  pose proof (only_stream_inv _ 2 3 _ _ _ _ _ _ _ O2 ltac:(lia) ltac:(done) I3'') as J3.
  destruct (ibw_step _ _ _ _ _ _ _ _ d n J3) as (q3' & r3' & w3' & m3 & E3 & K3 & O3);
    [clear; lia|done|done|done|by rewrite L3|
     by rewrite (length_only_stream _ _ _ _ O2), (length_only_stream _ _ _ _ O1),
       (length_only_stream _ _ _ _ O0)|].
  pose proof (only_stream_inv _ 3 0 _ _ _ _ _ _ _ O3 ltac:(lia) ltac:(done) J0) as K0.
  pose proof (only_stream_inv _ 3 1 _ _ _ _ _ _ _ O3 ltac:(lia) ltac:(done) J1) as K1.
  pose proof (only_stream_inv _ 3 2 _ _ _ _ _ _ _ O3 ltac:(lia) ltac:(done) J2) as K2.
  exists w0', w1', w2', w3', m3. repeat split; eauto.
  - intros vals. cbn [write_interleaved]. rewrite E0. cbn [mbind option_bind].
    rewrite E1. cbn [mbind option_bind]. rewrite E2. cbn [mbind option_bind].
    by rewrite E3.
  - by rewrite (length_only_stream _ _ _ _ O3), (length_only_stream _ _ _ _ O2),
      (length_only_stream _ _ _ _ O1), (length_only_stream _ _ _ _ O0).
  - by rewrite (take_only_stream _ _ _ _ O3), (take_only_stream _ _ _ _ O2),
      (take_only_stream _ _ _ _ O1), (take_only_stream _ _ _ _ O0).
Qed.

Lemma snoc_app {A} (l : list A) x k : (l ++ [x]) ++ k = l ++ x :: k.
Proof. by rewrite <- app_assoc. Qed.

Lemma write_interleaved_inv base bits n g : forall L d0 d1 d2 d3 w0 w1 w2 w3 m vals,
  quad_inv base bits d0 d1 d2 d3 w0 w1 w2 w3 m -> (bits <= 32)%nat ->
  fits bits d0 -> fits bits d1 -> fits bits d2 -> fits bits d3 -> fits bits vals ->
  length d0 = L -> length d1 = L -> length d2 = L -> length d3 = L ->
  length vals = (4 * g)%nat ->
  ((L + g) * bits <= n)%nat -> (8 * base + 4 * n + 128 <= 8 * length m)%nat ->
  exists m', write_interleaved w0 w1 w2 w3 vals m = Some m' /\
    length m' = length m /\ take base m' = take base m /\
    mem_words base 0 bits (d0 ++ stream 0 vals) m' /\ mem_words base 1 bits (d1 ++ stream 1 vals) m' /\
    mem_words base 2 bits (d2 ++ stream 2 vals) m' /\ mem_words base 3 bits (d3 ++ stream 3 vals) m'.
Proof.
  induction g as [|g IH]; intros L d0 d1 d2 d3 w0 w1 w2 w3 m vals HI Hb F0 F1 F2 F3 F L0 L1 L2 L3 Hl Hn Hroom.
  { destruct vals; [|done]. destruct HI as ((?&?&[]) & (?&?&[]) & (?&?&[]) & (?&?&[])).
    exists m. simpl. rewrite !app_nil_r. auto 10. }
  destruct vals as [|a [|b [|c [|d vals]]]]; try (clear - Hl; simpl in Hl; lia).
  pose proof F as F'. repeat (apply Forall_cons in F' as [? F']).
  destruct (write_group base bits L n _ _ _ _ _ _ _ _ _ a b c d HI)
    as (w0' & w1' & w2' & w3' & m' & E & HI' & Hlen & Htake); auto.
  { repeat constructor; tauto. }
  { clear -Hn. lia. }
  rewrite E. clear E.
  destruct (IH (S L) _ _ _ _ _ _ _ _ m' vals HI') as (m'' & E & Hl'' & Ht'' & W0 & W1 & W2 & W3);
    auto using fits_snoc.
  all: try (rewrite length_app; cbn [length]; clear -L0 L1 L2 L3; lia).
  { clear -Hl. simpl in Hl. lia. }
  { clear -Hn. lia. }
  { by rewrite Hlen. }
  rewrite !snoc_app in *. exists m''. simpl stream.
  rewrite Hl'', Ht''. auto 10.
Qed.

(** Starting the four writers at a block's base. *)
Lemma write_interleaved_spec base bits vals m g :
  (bits <= 32)%nat -> fits bits vals -> length vals = (4 * g)%nat ->
  (8 * base + 4 * (g * bits) + 128 <= 8 * length m)%nat ->
  exists m', write_interleaved (InterleavedBitWriter_new base bits)
      (InterleavedBitWriter_new (base + 4) bits) (InterleavedBitWriter_new (base + 8) bits)
      (InterleavedBitWriter_new (base + 12) bits) vals m = Some m' /\
    length m' = length m /\ take base m' = take base m /\
    forall k, (k < 4)%nat -> mem_words base k bits (stream k vals) m'.
Proof.
  intros Hb F Hl Hroom.
  assert (HI : forall k, exists q r,
    ibw_inv base k bits [] q r (InterleavedBitWriter_new (base + 4 * k) bits) m).
  { intros k. exists 0%nat, 0%nat. apply ibw_inv_init. }
  pose proof (HI 0%nat) as I0. replace (base + 4 * 0)%nat with base in I0 by lia.
  destruct (write_interleaved_inv base bits (g * bits) g 0 [] [] [] []
    (InterleavedBitWriter_new base bits) _ _ _ m vals
    (conj I0 (conj (HI 1%nat) (conj (HI 2%nat) (HI 3%nat)))))
    as (m' & E & H1 & H2 & W0 & W1 & W2 & W3); try done; try apply Forall_nil_2.
  exists m'. split; [done|]. split; [done|]. split; [done|].
  intros k Hk. destruct k as [|[|[|[|]]]]; auto; lia.
Qed.

(** ** The interleaved reader *)

(** A value that straddles two words. *)
Lemma slice_two_words P k u bits :
  (u < 32)%nat -> (bits <= 32)%nat -> (32 < u + bits)%nat ->
  Z.land (Z.lor (Z.shiftr (slice P k 32) (Z.of_nat u))
            (u32 (Z.shiftl (slice P (k + 32) 32) (Z.of_nat (32 - u))))) (mask_for_bits bits)
  = slice P (k + u) bits.
Proof.
  intros Hu Hb Hc. rewrite land_mask by done. apply Z.bits_inj'. intros j Hj.
  rewrite slice_testbit by done. destruct (Z.ltb_spec j (Z.of_nat bits)).
  2: { by rewrite Z.mod_pow2_bits_high by lia. }
  rewrite Z.mod_pow2_bits_low, Z.lor_spec by lia. unfold u32.
  rewrite Z.mod_pow2_bits_low by lia. cbn [andb].
  rewrite Z.shiftr_spec, Z.shiftl_spec, slice_testbit by lia.
  destruct (Z.ltb_spec (j + Z.of_nat u) (Z.of_nat 32)).
  - rewrite (Z.testbit_neg_r _ (j - Z.of_nat (32 - u))) by lia. rewrite orb_false_r.
    cbn [andb]. f_equal. lia.
  - cbn [andb orb]. rewrite slice_testbit by lia.
    destruct (Z.ltb_spec (j - Z.of_nat (32 - u)) (Z.of_nat 32)); [|lia].
    cbn [andb]. f_equal. lia.
Qed.

Lemma word_pos_split T : T = (32 * (T / 32) + T mod 32)%nat /\ (T mod 32 < 32)%nat.
Proof. split; [apply Nat.div_mod_eq|apply Nat.mod_upper_bound; lia]. Qed.

Definition ibr_inv (k bits i : nat) (in_ : bytes) (r : InterleavedBitReader) : Prop :=
  exists q u, (i * bits = 32 * q + u)%nat /\ (u < 32)%nat /\
    r = IBR (drop (4 * k + 16 * q) in_) bits u.

Lemma ibr_inv_init k bits in_ :
  ibr_inv k bits 0 in_ (InterleavedBitReader_new (drop (4 * k) in_) bits).
Proof. exists 0%nat, 0%nat. split; [lia|]. split; [lia|]. by rewrite Nat.add_0_r. Qed.

Lemma mem_words_len base k bits vals m j :
  mem_words base k bits vals m -> (32 * j < length vals * bits)%nat ->
  (base + 4 * k + 16 * j + 4 <= length m)%nat.
Proof. intros H Hj. apply H in Hj. by apply rd_Some in Hj. Qed.

Lemma drop_words k q u bits (in_ : bytes) :
  drop (Stride * ((u + bits) / 32)) (drop (4 * k + 16 * q) in_)
  = drop (4 * k + 16 * (q + (u + bits) / 32)) in_.
Proof. rewrite drop_drop. f_equal. unfold Stride. lia. Qed.

Lemma ibr_inv_next k bits i q u in_ : (i * bits = 32 * q + u)%nat ->
  ibr_inv k bits (S i) in_ (IBR (drop (Stride * ((u + bits) / 32)) (drop (4 * k + 16 * q) in_))
    bits ((u + bits) mod 32)).
Proof.
  intros H. rewrite drop_words. destruct (word_pos_split (u + bits)) as [Hs Hlt].
  exists (q + (u + bits) / 32)%nat, ((u + bits) mod 32)%nat. split; [|done].
  clear Hlt. generalize dependent ((u + bits) / 32)%nat.
  generalize dependent ((u + bits) mod 32)%nat. intros. clear -H Hs. lia.
Qed.

Lemma InterleavedBitReader_read_step k bits vals in_ i r v :
  ibr_inv k bits i in_ r -> (k < 4)%nat -> (bits <= 32)%nat -> fits bits vals ->
  mem_words 0 k bits vals in_ -> (16 <= length in_)%nat -> vals !! i = Some v ->
  exists r', InterleavedBitReader_read r = Some (v, r') /\ ibr_inv k bits (S i) in_ r'.
Proof.
  intros (q & u & Hpos & Hu & ->) Hk Hb Hfit Hmem Hlen Hv.
  pose proof (lookup_lt_Some _ _ _ Hv) as Hi.
  pose proof (slice_pack bits vals i v Hfit Hv) as Hslice.
  unfold InterleavedBitReader_read. cbn [ibr_in ibr_bits ibr_bits_used].
  destruct (decide (bits = 0%nat)) as [->|Hpb].
  { assert (q = 0%nat) as -> by (clear -Hpos; lia). assert (u = 0%nat) as -> by (clear -Hpos; lia).
    destruct (rd_ok 4 (drop (4 * k + 16 * 0) in_) 0) as [w Hw].
    { rewrite length_drop. clear -Hk Hlen. lia. }
    rewrite Hw. cbn [mbind option_bind].
    rewrite decide_False by lia. cbn [mbind option_bind].
    rewrite shiftr_slice, slice_0 by lia. rewrite slice_0 in Hslice. subst v.
    eexists. split; [done|]. apply (ibr_inv_next k 0 i 0 0 in_). lia. }
  assert (Hib : (i * bits + bits <= length vals * bits)%nat) by (clear -Hi; nia).
  assert (Hq : (32 * q < length vals * bits)%nat) by (clear -Hib Hpos Hpb; lia).
  pose proof (Hmem q Hq) as Hlo. cbn [Nat.add] in Hlo.
  pose proof (mem_words_len _ _ _ _ _ _ Hmem Hq) as Hql. cbn [Nat.add] in Hql.
  rewrite !rd_drop by (clear -Hql; lia). rewrite Nat.add_0_r, Hlo. cbn [mbind option_bind].
  destruct (decide (32 < u + bits)%nat) as [Hs|Hs].
  - assert (Hq' : (32 * S q < length vals * bits)%nat) by (clear -Hib Hpos Hs; lia).
    pose proof (Hmem (S q) Hq') as Hhi. cbn [Nat.add] in Hhi.
    replace (4 * k + 16 * q + Stride)%nat with (4 * k + 16 * S q)%nat
      by (unfold Stride; clear; lia).
    rewrite Hhi. cbn [mbind option_bind].
    replace (32 * S q)%nat with (32 * q + 32)%nat by (clear; lia).
    rewrite slice_two_words by done. rewrite <- Hpos, Hslice.
    eexists. split; [done|]. by apply ibr_inv_next.
  - cbn [mbind option_bind]. rewrite shiftr_slice, slice_slice by (clear -Hs Hb; lia).
    rewrite <- Hpos, Hslice. eexists. split; [done|]. by apply ibr_inv_next.
Qed.

(** Lookups in the streams give back the values in order. *)
Lemma stream_length k vals g : length vals = (4 * g)%nat -> length (stream k vals) = g.
Proof.
  revert vals. induction g as [|g IH]; intros vals H; [by destruct vals|].
  destruct vals as [|a [|b [|c [|d vals]]]]; try (simpl in H; lia).
  simpl. f_equal. apply IH. simpl in H. lia.
Qed.

Lemma stream_fits k bits vals : fits bits vals -> fits bits (stream k vals).
Proof.
  assert (H : forall n vals, (length vals <= n)%nat -> fits bits vals -> fits bits (stream k vals)).
  { clear vals. induction n as [|n IH]; intros vals Hn F.
    { destruct vals; [constructor|simpl in Hn; lia]. }
    destruct vals as [|a [|b [|c [|d vals]]]]; try constructor.
    - pose proof (pow2_nat_pos bits) as Hp. do 4 (apply Forall_cons in F as [? F]).
      destruct k as [|[|[|[|k]]]]; simpl; try lia. destruct k; simpl; lia.
    - do 4 (apply Forall_cons in F as [? F]). apply IH; [simpl in Hn; lia|done]. }
  by apply (H (length vals)).
Qed.

Definition streams (vals : list Z) (i : nat) : list Z :=
  [nth i (stream 0 vals) 0; nth i (stream 1 vals) 0; nth i (stream 2 vals) 0;
   nth i (stream 3 vals) 0].

Lemma streams_all g : forall vals, length vals = (4 * g)%nat ->
  concat (map (streams vals) (seq 0 g)) = vals.
Proof.
  induction g as [|g IH]; intros vals H; [by destruct vals|].
  destruct vals as [|a [|b [|c [|d vals]]]]; try (simpl in H; lia).
  cbn [seq map concat]. f_equal.
  rewrite <- seq_shift, map_map. change (map _ (seq 0 g)) with (map (streams vals) (seq 0 g)).
  simpl in H. rewrite IH by lia. done.
Qed.

Lemma nth_stream k vals g i : length vals = (4 * g)%nat -> (i < g)%nat ->
  stream k vals !! i = Some (nth i (stream k vals) 0).
Proof.
  intros H Hi. destruct (lookup_lt_is_Some_2 (stream k vals) i) as [x Hx].
  { by rewrite (stream_length k vals g H). }
  rewrite Hx. f_equal. by rewrite (nth_lookup_Some _ _ _ _ Hx).
Qed.

Lemma read_interleaved_inv bits vals in_ g n : forall i r0 r1 r2 r3,
  ibr_inv 0 bits i in_ r0 -> ibr_inv 1 bits i in_ r1 -> ibr_inv 2 bits i in_ r2 ->
  ibr_inv 3 bits i in_ r3 -> (bits <= 32)%nat -> fits bits vals -> length vals = (4 * g)%nat ->
  (forall k, (k < 4)%nat -> mem_words 0 k bits (stream k vals) in_) -> (16 <= length in_)%nat ->
  (i + n = g)%nat ->
  read_interleaved r0 r1 r2 r3 n = Some (concat (map (streams vals) (seq i n))).
Proof.
  induction n as [|n IH]; intros i r0 r1 r2 r3 I0 I1 I2 I3 Hb F Hl Hm Hlen Hn; [done|].
  assert (Hi : (i < g)%nat) by lia.
  destruct (InterleavedBitReader_read_step 0 bits _ in_ i r0 _ I0 ltac:(lia) Hb
    (stream_fits 0 _ _ F) (Hm 0%nat ltac:(lia)) Hlen (nth_stream 0 vals g i Hl Hi)) as (r0' & E0 & I0').
  destruct (InterleavedBitReader_read_step 1 bits _ in_ i r1 _ I1 ltac:(lia) Hb
    (stream_fits 1 _ _ F) (Hm 1%nat ltac:(lia)) Hlen (nth_stream 1 vals g i Hl Hi)) as (r1' & E1 & I1').
  destruct (InterleavedBitReader_read_step 2 bits _ in_ i r2 _ I2 ltac:(lia) Hb
    (stream_fits 2 _ _ F) (Hm 2%nat ltac:(lia)) Hlen (nth_stream 2 vals g i Hl Hi)) as (r2' & E2 & I2').
  destruct (InterleavedBitReader_read_step 3 bits _ in_ i r3 _ I3 ltac:(lia) Hb
    (stream_fits 3 _ _ F) (Hm 3%nat ltac:(lia)) Hlen (nth_stream 3 vals g i Hl Hi)) as (r3' & E3 & I3').
  cbn [read_interleaved]. rewrite E0. cbn [mbind option_bind]. rewrite E1. cbn [mbind option_bind].
  rewrite E2. cbn [mbind option_bind]. rewrite E3. cbn [mbind option_bind].
  rewrite (IH (S i)) by (done || lia). reflexivity.
Qed.

(** The interleaved reader gives back the values. *)
Lemma read_interleaved_spec bits vals in_ g :
  (bits <= 32)%nat -> fits bits vals -> length vals = (4 * g)%nat ->
  (forall k, (k < 4)%nat -> mem_words 0 k bits (stream k vals) in_) -> (16 <= length in_)%nat ->
  read_interleaved (InterleavedBitReader_new in_ bits)
    (InterleavedBitReader_new (drop 4 in_) bits) (InterleavedBitReader_new (drop 8 in_) bits)
    (InterleavedBitReader_new (drop 12 in_) bits) g = Some vals.
Proof.
  intros Hb F Hl Hm Hlen.
  rewrite (read_interleaved_inv bits vals in_ g g 0); try done.
  - by rewrite (streams_all g).
  - pose proof (ibr_inv_init 0 bits in_) as H. by rewrite drop_0 in H.
  - apply (ibr_inv_init 1 bits in_).
  - apply (ibr_inv_init 2 bits in_).
  - apply (ibr_inv_init 3 bits in_).
Qed.

(** Moving words from the output buffer to an input that holds a copy of it. *)
Lemma mem_words_copy base k bits vals m n rest :
  mem_words base k bits vals m -> (n <= length m)%nat ->
  (forall j, (32 * j < length vals * bits)%nat -> (base + 4 * k + 16 * j + 4 <= n)%nat) ->
  mem_words 0 k bits vals (drop base (take n m) ++ rest).
Proof.
  intros H Hn Hj j Hjl. pose proof (Hj j Hjl) as Hb. rewrite <- (H j Hjl).
  rewrite rd_app_l by (rewrite length_drop, length_take; lia).
  rewrite rd_drop by (rewrite length_take; lia). rewrite rd_take by lia.
  f_equal. lia.
Qed.
