(* ===== verification/TurboPForEncode.v ===== *)
(** * The TurboPFor encoder (include/turbopfor-encode.h)

    [Docid] is [uint32_t], its only instantiation.  The output buffer is a list
    [m] of fixed length with a position [out]; a store outside it, a failed
    [assert] and an undefined shift give [None].  An input array is a list and
    [num] its length. *)
From S2P Require Import Prelude BitPack BitPackInterleaved.

(** ** Scalars *)

Definition write_le (n : nat) (val : Z) (m : bytes) (out : nat) : option bytes :=
  wr m out (le_bytes n val).

(** A store through [unsigned char *]. *)
Definition poke (val : Z) (m : bytes) (out : nat) : option bytes := wr m out [u8 val].

Definition write_baseval (in_ : Z) (m : bytes) (out : nat) : option (nat * bytes) :=
  if in_ <? 128 then
    m ← poke in_ m out; Some ((out + 1)%nat, m)
  else if in_ <? 16384 then
    m ← poke (Z.lor (Z.shiftr in_ 8) 128) m out;
    m ← poke (Z.land in_ 255) m (out + 1); Some ((out + 2)%nat, m)
  else if in_ <? 2097152 then
    m ← poke (Z.lor (Z.shiftr in_ 16) 192) m out;
    m ← poke (Z.land in_ 255) m (out + 1);
    m ← poke (Z.land (Z.shiftr in_ 8) 255) m (out + 2); Some ((out + 3)%nat, m)
  else if in_ <? 268435456 then
    m ← poke (Z.lor (Z.shiftr in_ 24) 224) m out;
    m ← poke (Z.land (Z.shiftr in_ 16) 255) m (out + 1);
    m ← poke (Z.land (Z.shiftr in_ 8) 255) m (out + 2);
    m ← poke (Z.land in_ 255) m (out + 3); Some ((out + 4)%nat, m)
  else None.

Definition write_vb (val : Z) (m : bytes) (out : nat) : option (nat * bytes) :=
  if val <=? 176 then
    m ← poke val m out; Some ((out + 1)%nat, m)
  else if val <=? 16560 then
    let val := val - 177 in
    m ← poke (Z.shiftr val 8 + 177) m out;
    m ← poke (Z.land val 255) m (out + 1); Some ((out + 2)%nat, m)
  else if val <=? 540848 then
    let val := val - 16561 in
    m ← poke (Z.shiftr val 16 + 241) m out;
    m ← write_le 2 (Z.land val 65535) m (out + 1); Some ((out + 3)%nat, m)
  else if val <=? 16777215 then
    m ← poke 249 m out;
    m ← write_le 4 val m (out + 1); Some ((out + 4)%nat, m)
  else
    m ← poke 250 m out;
    m ← write_le 4 val m (out + 1); Some ((out + 5)%nat, m).

(** The compiler's [__builtin_clz] on a non-zero 32-bit argument. *)
Definition builtin_clz (x : Z) : nat := (31 - Z.to_nat (Z.log2 x))%nat.

Definition num_bits (x : Z) : nat := if x =? 0 then 0%nat else (32 - builtin_clz x)%nat.

(** ** Blocks *)

Definition encode_bitmap (in_ : list Z) (bit_width : nat) (interleaved : bool)
    (m : bytes) (out : nat) : option (nat * bytes) :=
  let mask := mask_for_bits bit_width in
  let masked := map (fun v => Z.land v mask) in_ in
  m ← (if interleaved then
         if decide (length in_ mod 4 = 0)%nat then
           write_interleaved (InterleavedBitWriter_new out bit_width)
             (InterleavedBitWriter_new (out + 4) bit_width)
             (InterleavedBitWriter_new (out + 8) bit_width)
             (InterleavedBitWriter_new (out + 12) bit_width) masked m
         else None
       else snd <$> write_all (BitWriter_new out bit_width) masked m);
  Some ((out + bytes_for_packed_bits (length in_) bit_width)%nat, m).

Definition encode_for := encode_bitmap.

(** [in >> bit_width]; undefined from 32 up. *)
Definition high_bits (bit_width : nat) (v : Z) : Z := Z.shiftr v (Z.of_nat bit_width).

Definition is_exception (bit_width : nat) (v : Z) : bool := negb (high_bits bit_width v =? 0).

(** The non-zero high parts, in order. *)
Definition exceptions_of (bit_width : nat) (in_ : list Z) : list Z :=
  map (high_bits bit_width) (List.filter (is_exception bit_width) in_).

Definition encode_pfor_bitmap (in_ : list Z) (bit_width exception_bit_width : nat)
    (interleaved : bool) (m : bytes) (out : nat) : option (nat * bytes) :=
  m ← poke (Z.of_nat exception_bit_width) m out;
  let out := (out + 1)%nat in
  '(_, m) ← write_all (BitWriter_new out 1)
              (map (fun v => Z.b2z (is_exception bit_width v)) in_) m;
  let out := (out + bytes_for_packed_bits (length in_) 1)%nat in
  let exceptions := exceptions_of bit_width in_ in
  '(_, m) ← write_all (BitWriter_new out exception_bit_width) exceptions m;
  let out := (out + bytes_for_packed_bits (length exceptions) exception_bit_width)%nat in
  encode_bitmap in_ bit_width interleaved m out.

Fixpoint write_exceptions (in_ : list Z) (bit_width : nat) (m : bytes) (out : nat)
    : option (nat * bytes) :=
  match in_ with
  | [] => Some (out, m)
  | v :: in_ =>
    let val := high_bits bit_width v in
    if negb (val =? 0) then
      '(out, m) ← write_vb val m out; write_exceptions in_ bit_width m out
    else write_exceptions in_ bit_width m out
  end.

Fixpoint write_exception_indexes (in_ : list Z) (i : Z) (bit_width : nat) (m : bytes) (out : nat)
    : option (nat * bytes) :=
  match in_ with
  | [] => Some (out, m)
  | v :: in_ =>
    let val := high_bits bit_width v in
    if negb (val =? 0) then
      m ← poke i m out; write_exception_indexes in_ (i + 1) bit_width m (out + 1)
    else write_exception_indexes in_ (i + 1) bit_width m out
  end.

Definition encode_pfor_vb (in_ : list Z) (bit_width : nat) (interleaved : bool)
    (m : bytes) (out : nat) : option (nat * bytes) :=
  let num_exceptions := length (List.filter (is_exception bit_width) in_) in
  m ← poke (Z.of_nat num_exceptions) m out;
  '(out, m) ← encode_bitmap in_ bit_width interleaved m (out + 1);
  '(out, m) ← write_exceptions in_ bit_width m out;
  write_exception_indexes in_ 0 bit_width m out.

(** ** Choosing the block type *)

Definition add_to_histogram (h : list nat) (x : Z) : list nat := alter S (num_bits x) h.

Definition hist (h : list nat) (i : nat) : nat := nth i h 0%nat.

(** Exception widths from 1 to [max_bits]. *)
Fixpoint try_bitmap (histogram : list nat) (num max_bits : nat) (widths : list nat)
    (num_exceptions best_cost best_bit_width : nat) : nat * nat :=
  match widths with
  | [] => (best_cost, best_bit_width)
  | exception_bit_width :: widths =>
    let test_bit_width := (max_bits - exception_bit_width)%nat in
    let num_exceptions := (num_exceptions + hist histogram (test_bit_width + 1))%nat in
    let cost := (1 + bytes_for_packed_bits num 1 + bytes_for_packed_bits num test_bit_width
                 + bytes_for_packed_bits num_exceptions exception_bit_width)%nat in
    if (cost <? best_cost)%nat
    then try_bitmap histogram num max_bits widths num_exceptions cost test_bit_width
    else try_bitmap histogram num max_bits widths num_exceptions best_cost best_bit_width
  end.

(** [i] from [max_bits] down to 1. *)
Fixpoint make_cumulative (i : nat) (histogram : list nat) : list nat :=
  match i with
  | O => histogram
  | S j => make_cumulative j (<[j := (hist histogram j + hist histogram (S j))%nat]> histogram)
  end.

Definition varbyte_cost (histogram : list nat) (num max_bits test_bit_width : nat) : nat :=
  let cost := (1 + bytes_for_packed_bits num test_bit_width)%nat in
  if (test_bit_width + 1 <=? max_bits)%nat then
    let cost := (cost + 2 * hist histogram (test_bit_width + 1))%nat in
    if (test_bit_width + 7 <=? max_bits)%nat then
      let cost := (cost + hist histogram (test_bit_width + 7))%nat in
      if (test_bit_width + 14 <=? max_bits)%nat then
        let cost := (cost + hist histogram (test_bit_width + 14))%nat in
        if (test_bit_width + 19 <=? max_bits)%nat then
          let cost := (cost + hist histogram (test_bit_width + 19))%nat in
          if (test_bit_width + 24 <=? max_bits)%nat
          then (cost + hist histogram (test_bit_width + 24))%nat else cost
        else cost
      else cost
    else cost
  else cost.

(** Base widths from 0 below [max_bits]. *)
Fixpoint try_varbyte (histogram : list nat) (num max_bits : nat) (widths : list nat)
    (best_cost best_bit_width : nat) (best_is_varbyte : bool) : nat * nat * bool :=
  match widths with
  | [] => (best_cost, best_bit_width, best_is_varbyte)
  | test_bit_width :: widths =>
    if (best_cost <=? 1 + bytes_for_packed_bits num test_bit_width)%nat
    then (best_cost, best_bit_width, best_is_varbyte)
    else
      let cost := varbyte_cost histogram num max_bits test_bit_width in
      if (cost <? best_cost)%nat
      then try_varbyte histogram num max_bits widths cost test_bit_width true
      else try_varbyte histogram num max_bits widths best_cost best_bit_width best_is_varbyte
  end.

(** The block type, [*bit_width] and [*exception_bit_width] (0 where the code
    leaves it unset). *)
Definition decide_block_type (in_ : list Z) : BlockType * nat * nat :=
  let num := length in_ in
  if forallb (fun x => x =? hd 0 in_) (tl in_) then (CONSTANT, num_bits (hd 0 in_), 0%nat)
  else
    let histogram := fold_left add_to_histogram in_ (repeat 0%nat 33) in
    let max_bits := fold_left (fun acc x => Nat.max acc (num_bits x)) in_ 0%nat in
    let best_cost := bytes_for_packed_bits num max_bits in
    let '(best_cost, best_bit_width) :=
      try_bitmap histogram num max_bits (seq 1 max_bits) 0 best_cost max_bits in
    let histogram := make_cumulative max_bits histogram in
    let '(best_cost, best_bit_width, best_is_varbyte) :=
      try_varbyte histogram num max_bits (seq 0 max_bits) best_cost best_bit_width false in
    if best_is_varbyte then (PFOR_VB, best_bit_width, 0%nat)
    else if (best_bit_width =? max_bits)%nat then (FOR, max_bits, 0%nat)
    else (PFOR_BITMAP, best_bit_width, (max_bits - best_bit_width)%nat).

Definition encode_pfor_single_block (BlockSize : nat) (in_ : list Z) (interleaved : bool)
    (m : bytes) (out : nat) : option (nat * bytes) :=
  if decide (0 < length in_ /\ (interleaved = true -> length in_ = BlockSize))%nat then
    let '(block_type, bit_width, exception_bit_width) := decide_block_type in_ in
    m ← poke (Z.lor (Z.shiftl (block_type_to_Z block_type) 6) (Z.of_nat bit_width)) m out;
    let out := (out + 1)%nat in
    match block_type with
    | CONSTANT =>
      let bit_width := num_bits (hd 0 in_) in
      m ← write_le 4 (hd 0 in_) m out;
      Some ((out + div_round_up bit_width 8)%nat, m)
    | FOR => encode_for in_ bit_width interleaved m out
    | PFOR_BITMAP => encode_pfor_bitmap in_ bit_width exception_bit_width interleaved m out
    | PFOR_VB => encode_pfor_vb in_ bit_width interleaved m out
    end
  else None.

(** ** Specification: the bytes of a block *)

(** A store sequence that appends [enc] at [base] and ends at [out]; it may
    scribble past [out]. *)
Record emits (m : bytes) (base : nat) (m' : bytes) (out : nat) (enc : bytes) : Prop := {
  em_len : length m' = length m;
  em_out : out = (base + length enc)%nat;
  em_take : take out m' = take base m ++ enc;
  em_byte : Forall is_byte m -> Forall is_byte m'
}.

Definition baseval_bytes (v : Z) : bytes :=
  if v <? 128 then [v]
  else if v <? 16384 then [v / 256 + 128; v mod 256]
  else if v <? 2097152 then [v / 65536 + 192; v mod 256; v / 256 mod 256]
  else [v / 16777216 + 224; v / 65536 mod 256; v / 256 mod 256; v mod 256].

Definition vb_bytes (v : Z) : bytes :=
  if v <=? 176 then [v]
  else if v <=? 16560 then [(v - 177) / 256 + 177; (v - 177) mod 256]
  else if v <=? 540848 then ((v - 16561) / 65536 + 241) :: le_bytes 2 (v - 16561)
  else if v <=? 16777215 then 249 :: le_bytes 3 v
  else 250 :: le_bytes 4 v.

(** [body] holds the values, packed contiguously or in four streams. *)
Definition bitmap_repr (interleaved : bool) (bit_width : nat) (vals : list Z) (body : bytes) : Prop :=
  length body = bytes_for_packed_bits (length vals) bit_width /\ Forall is_byte body /\
  if interleaved then length vals = 128%nat /\
    forall k, (k < 4)%nat -> mem_words 0 k bit_width (stream k vals) body
  else body = packed_bytes bit_width vals.

Definition low_bits (bit_width : nat) (v : Z) : Z := v mod 2 ^ Z.of_nat bit_width.

Definition header (t : BlockType) (bit_width : nat) : Z :=
  block_type_to_Z t * 64 + Z.of_nat bit_width.

(** The positions of the exceptions. *)
Fixpoint exception_indexes (i : Z) (bit_width : nat) (in_ : list Z) : list Z :=
  match in_ with
  | [] => []
  | v :: in_ => if is_exception bit_width v then i :: exception_indexes (i + 1) bit_width in_
                else exception_indexes (i + 1) bit_width in_
  end.

(** The layouts of a block of [in_] (comments of src/turbopfor.cpp). *)
Inductive block_repr (interleaved : bool) (in_ : list Z) : bytes -> Prop :=
| repr_constant bit_width v :
    (bit_width <= 32)%nat -> fits bit_width [v] -> in_ = repeat v (length in_) ->
    block_repr interleaved in_
      (header CONSTANT bit_width :: le_bytes (div_round_up bit_width 8) v)
| repr_for bit_width body :
    (bit_width <= 24)%nat -> fits bit_width in_ -> bitmap_repr interleaved bit_width in_ body ->
    block_repr interleaved in_ (header FOR bit_width :: body)
| repr_pfor_bitmap bit_width exception_bit_width body :
    (bit_width + exception_bit_width <= 24)%nat ->
    fits (bit_width + exception_bit_width) in_ ->
    bitmap_repr interleaved bit_width (map (low_bits bit_width) in_) body ->
    block_repr interleaved in_
      (header PFOR_BITMAP bit_width :: Z.of_nat exception_bit_width ::
       packed_bytes 1 (map (fun v => Z.b2z (is_exception bit_width v)) in_) ++
       packed_bytes exception_bit_width (exceptions_of bit_width in_) ++ body)
| repr_pfor_vb bit_width body :
    (bit_width <= 24)%nat -> (length in_ <= 128)%nat -> exceptions_of bit_width in_ <> [] ->
    bitmap_repr interleaved bit_width (map (low_bits bit_width) in_) body ->
    block_repr interleaved in_
      (header PFOR_VB bit_width :: Z.of_nat (length (exceptions_of bit_width in_)) ::
       body ++ concat (map vb_bytes (exceptions_of bit_width in_)) ++
       exception_indexes 0 bit_width in_).

(** ** Lemmas: appending to the buffer *)

Lemma emits_nil m base : emits m base m base [].
Proof. constructor; auto. by rewrite app_nil_r. Qed.

Lemma emits_trans m base m1 o1 e1 m2 o2 e2 :
  emits m base m1 o1 e1 -> emits m1 o1 m2 o2 e2 -> emits m base m2 o2 (e1 ++ e2).
Proof.
  intros [A1 A2 A3 A4] [B1 B2 B3 B4]. constructor; auto.
  - congruence.
  - rewrite length_app. lia.
  - by rewrite B3, A3, app_assoc.
Qed.

Lemma emits_cons m base m1 o1 b m2 o2 e2 :
  emits m base m1 o1 [b] -> emits m1 o1 m2 o2 e2 -> emits m base m2 o2 (b :: e2).
Proof. intros A B. exact (emits_trans _ _ _ _ _ _ _ _ A B). Qed.

Lemma wr_byte m p bs m' : wr m p bs = Some m' -> Forall is_byte bs -> Forall is_byte m -> Forall is_byte m'.
Proof.
  unfold wr. case_decide; [|done]. intros [= <-] Hb Hm.
  repeat apply Forall_app_2; auto using Forall_take, Forall_drop.
Qed.

(** A store of [bs] of which the first [n] bytes are kept. *)
Lemma wr_emits m base bs m' n :
  wr m base bs = Some m' -> (n <= length bs)%nat -> Forall is_byte bs ->
  emits m base m' (base + n) (take n bs).
Proof.
  intros H Hn Hb. constructor.
  - by apply (wr_length _ _ _ _ H).
  - rewrite length_take. lia.
  - pose proof (wr_mid _ _ _ _ H) as Hm.
    assert (Hbase : (base <= length m)%nat).
    { unfold wr in H. case_decide; [lia|done]. }
    rewrite <- (Nat.min_l (base + n) (base + length bs)), <- take_take, Hm by lia.
    rewrite take_app_ge by (rewrite length_take; lia). f_equal. f_equal.
    rewrite length_take. lia.
  - intros Hm. by eapply wr_byte.
Qed.

Lemma u8_byte v : is_byte (u8 v).
Proof. unfold is_byte, u8. change (2 ^ 8) with 256. apply Z.mod_pos_bound. lia. Qed.

Lemma u8_small v : is_byte v -> u8 v = v.
Proof. apply Z.mod_small. Qed.

Lemma poke_emits v m base : (base + 1 <= length m)%nat -> is_byte v ->
  exists m', poke v m base = Some m' /\ emits m base m' (base + 1) [v].
Proof.
  intros H Hv. unfold poke. destruct (wr_is_Some m base [u8 v]) as [m' Hm]; [done|].
  exists m'. split; [done|]. rewrite <- (u8_small v Hv) at 1.
  apply (wr_emits _ _ [u8 v] _ 1); auto using u8_byte.
Qed.

Lemma write_le_emits n k v m base : (base + n <= length m)%nat -> (k <= n)%nat ->
  exists m', write_le n v m base = Some m' /\ emits m base m' (base + k) (le_bytes k v).
Proof.
  intros H Hk. unfold write_le. destruct (wr_is_Some m base (le_bytes n v)) as [m' Hm].
  { by rewrite length_le_bytes. }
  exists m'. split; [done|]. rewrite <- (take_le_bytes k n) by done.
  apply (wr_emits _ _ _ _ _ Hm); [by rewrite length_le_bytes|apply le_bytes_byte].
Qed.

(** Runs one append and moves on. *)
Ltac emit_step H :=
  let m' := fresh "m" in let E := fresh "E" in let A := fresh "A" in
  destruct H as (m' & E & A); [..|rewrite E; cbn [mbind option_bind]; clear E].

(** ** Scalars *)

#[local] Ltac Zify.zify_post_hook ::= Z.to_euclidean_division_equations.

Lemma lor_high v n k : 0 <= n -> 0 <= v < 2 ^ n -> Z.lor v (k * 2 ^ n) = v + k * 2 ^ n.
Proof.
  intros Hn Hv. rewrite <- (Z.shiftl_mul_pow2 k n) at 1 by done. by apply lor_shiftl_add.
Qed.

Lemma land_255 v : Z.land v 255 = v mod 256.
Proof. change 255 with (Z.ones 8). by apply Z.land_ones. Qed.

Lemma baseval_first v : 0 <= v < 268435456 ->
  (128 <= v < 16384 -> Z.lor (v / 256) 128 = v / 256 + 128) /\
  (16384 <= v < 2097152 -> Z.lor (v / 65536) 192 = v / 65536 + 192) /\
  (2097152 <= v -> Z.lor (v / 16777216) 224 = v / 16777216 + 224).
Proof.
  intros H. repeat split; intros.
  - apply (lor_high _ 6 2); lia.
  - apply (lor_high _ 5 6); lia.
  - apply (lor_high _ 4 14); lia.
Qed.

(** [write_baseval] appends the encoding of every value below 2^28. *)
Lemma write_baseval_spec v m out :
  0 <= v < 268435456 -> (out + 4 <= length m)%nat ->
  exists m', write_baseval v m out = Some ((out + length (baseval_bytes v))%nat, m') /\
    emits m out m' (out + length (baseval_bytes v)) (baseval_bytes v).
Proof.
  intros Hv Hroom. destruct (baseval_first v Hv) as (L1 & L2 & L3).
  unfold write_baseval, baseval_bytes.
  rewrite !Z.shiftr_div_pow2, !land_255 by lia.
  change (2 ^ 8) with 256. change (2 ^ 16) with 65536. change (2 ^ 24) with 16777216.
  destruct (Z.ltb_spec v 128); [|destruct (Z.ltb_spec v 16384); [|destruct (Z.ltb_spec v 2097152)]].
  - emit_step (poke_emits v m out); [lia|unfold is_byte; lia|]. eauto.
  - rewrite L1 by lia. emit_step (poke_emits (v / 256 + 128) m out); [lia|unfold is_byte; lia|].
    pose proof (em_len _ _ _ _ _ A).
    emit_step (poke_emits (v mod 256) m0 (out + 1)); [lia|unfold is_byte; lia|].
    cbn [length]. eexists. split; [done|]. eapply emits_cons; [exact A|].
    by rewrite <- Nat.add_assoc in A0.
  - rewrite L2 by lia. emit_step (poke_emits (v / 65536 + 192) m out); [lia|unfold is_byte; lia|].
    pose proof (em_len _ _ _ _ _ A).
    emit_step (poke_emits (v mod 256) m0 (out + 1)); [lia|unfold is_byte; lia|].
    pose proof (em_len _ _ _ _ _ A0). rewrite <- Nat.add_assoc in A0.
    emit_step (poke_emits (v / 256 mod 256) m1 (out + 2)); [lia|unfold is_byte; lia|].
    rewrite <- Nat.add_assoc in A1.
    cbn [length]. eexists. split; [done|]. eauto using emits_cons.
  - replace (v <? 268435456) with true by lia.
    rewrite L3 by lia. emit_step (poke_emits (v / 16777216 + 224) m out); [lia|unfold is_byte; lia|].
    pose proof (em_len _ _ _ _ _ A).
    emit_step (poke_emits (v / 65536 mod 256) m0 (out + 1)); [lia|unfold is_byte; lia|].
    pose proof (em_len _ _ _ _ _ A0). rewrite <- Nat.add_assoc in A0.
    emit_step (poke_emits (v / 256 mod 256) m1 (out + 2)); [lia|unfold is_byte; lia|].
    pose proof (em_len _ _ _ _ _ A1). rewrite <- Nat.add_assoc in A1.
    emit_step (poke_emits (v mod 256) m2 (out + 3)); [lia|unfold is_byte; lia|].
    rewrite <- Nat.add_assoc in A2.
    cbn [length]. eexists. split; [done|]. eauto 6 using emits_cons.
Qed.

Lemma length_vb_bytes v : (1 <= length (vb_bytes v) <= 5)%nat.
Proof. unfold vb_bytes. repeat case_match; cbn [length]; rewrite ?length_le_bytes; lia. Qed.

Lemma le_bytes_2_land v : le_bytes 2 (Z.land v 65535) = le_bytes 2 v.
Proof.
  change 65535 with (Z.ones 16). rewrite Z.land_ones by lia.
  change (2 ^ 16) with (256 ^ Z.of_nat 2). apply le_bytes_mod.
Qed.

(** [write_vb] appends the encoding of every 32-bit value. *)
Lemma write_vb_spec v m out :
  0 <= v < 2 ^ 32 -> (out + 5 <= length m)%nat ->
  exists m', write_vb v m out = Some ((out + length (vb_bytes v))%nat, m') /\
    emits m out m' (out + length (vb_bytes v)) (vb_bytes v).
Proof.
  intros Hv Hroom. unfold write_vb, vb_bytes.
  rewrite !Z.shiftr_div_pow2, !land_255 by lia.
  change (2 ^ 8) with 256. change (2 ^ 16) with 65536. change (2 ^ 32) with 4294967296 in Hv.
  destruct (Z.leb_spec v 176); [|destruct (Z.leb_spec v 16560);
    [|destruct (Z.leb_spec v 540848); [|destruct (Z.leb_spec v 16777215)]]].
  - emit_step (poke_emits v m out); [lia|unfold is_byte; lia|]. eauto.
  - emit_step (poke_emits ((v - 177) / 256 + 177) m out); [lia|unfold is_byte; lia|].
    pose proof (em_len _ _ _ _ _ A).
    emit_step (poke_emits ((v - 177) mod 256) m0 (out + 1)); [lia|unfold is_byte; lia|].
    rewrite <- Nat.add_assoc in A0.
    cbn [length]. eexists. split; [done|]. eauto using emits_cons.
  - emit_step (poke_emits ((v - 16561) / 65536 + 241) m out); [lia|unfold is_byte; lia|].
    pose proof (em_len _ _ _ _ _ A).
    emit_step (write_le_emits 2 2 (Z.land (v - 16561) 65535) m0 (out + 1)); [lia|lia|].
    rewrite <- Nat.add_assoc, le_bytes_2_land in A0.
    cbn [length]. rewrite length_le_bytes. eexists. split; [done|]. eauto using emits_cons.
  - emit_step (poke_emits 249 m out); [lia|unfold is_byte; lia|].
    pose proof (em_len _ _ _ _ _ A).
    emit_step (write_le_emits 4 3 v m0 (out + 1)); [lia|lia|].
    rewrite <- Nat.add_assoc in A0.
    cbn [length]. rewrite length_le_bytes. eexists. split; [done|]. eauto using emits_cons.
  - emit_step (poke_emits 250 m out); [lia|unfold is_byte; lia|].
    pose proof (em_len _ _ _ _ _ A).
    emit_step (write_le_emits 4 4 v m0 (out + 1)); [lia|lia|].
    rewrite <- Nat.add_assoc in A0.
    cbn [length]. rewrite length_le_bytes. eexists. split; [done|]. eauto using emits_cons.
Qed.

#[local] Ltac Zify.zify_post_hook ::= idtac.

(** ** Bitmaps *)

Lemma write_le32_byte v m out m' : write_le32 v m out = Some m' -> Forall is_byte m -> Forall is_byte m'.
Proof. intros H. eapply wr_byte; [exact H|apply le_bytes_byte]. Qed.

Lemma BitWriter_write_byte w v m w' m' :
  BitWriter_write w v m = Some (w', m') -> Forall is_byte m -> Forall is_byte m'.
Proof.
  unfold BitWriter_write. intros H Hm. apply bind_Some in H as (m1 & H1 & H).
  case_decide; [|done]. injection H as _ <-. by eapply write_le32_byte.
Qed.

Lemma write_all_byte vals : forall w m w' m',
  write_all w vals m = Some (w', m') -> Forall is_byte m -> Forall is_byte m'.
Proof.
  induction vals as [|v vals IH]; intros w m w' m' H Hm; simpl in H; [by injection H as _ <-|].
  apply bind_Some in H as ((w1 & m1) & H1 & H).
  eapply IH; [exact H|]. by eapply BitWriter_write_byte.
Qed.

Lemma InterleavedBitWriter_write_byte w v m w' m' :
  InterleavedBitWriter_write w v m = Some (w', m') -> Forall is_byte m -> Forall is_byte m'.
Proof.
  unfold InterleavedBitWriter_write. intros H Hm. case_match.
  - apply bind_Some in H as (m1 & H1 & H). apply bind_Some in H as (m2 & H2 & H).
    injection H as _ <-. eauto using write_le32_byte.
  - apply bind_Some in H as (m1 & H1 & H). injection H as _ <-. eauto using write_le32_byte.
Qed.

Lemma write_interleaved_byte n : forall vals w0 w1 w2 w3 m m', (length vals <= n)%nat ->
  write_interleaved w0 w1 w2 w3 vals m = Some m' -> Forall is_byte m -> Forall is_byte m'.
Proof.
  induction n as [|n IH]; intros vals w0 w1 w2 w3 m m' Hn H Hm.
  { destruct vals; [by injection H as <-|simpl in Hn; lia]. }
  destruct vals as [|a [|b [|c [|d vals]]]]; try done; [by injection H as <-|].
  cbn [write_interleaved] in H.
  apply bind_Some in H as ((w0' & m0) & H0 & H). apply bind_Some in H as ((w1' & m1) & H1 & H).
  apply bind_Some in H as ((w2' & m2) & H2 & H). apply bind_Some in H as ((w3' & m3) & H3 & H).
  eapply (IH vals); [simpl in Hn; lia|exact H|]. eauto 6 using InterleavedBitWriter_write_byte.
Qed.

Lemma write_all_emits base bits vals m :
  (bits <= 24)%nat -> fits bits vals ->
  (base + bytes_for_packed_bits (length vals) bits + 4 <= length m)%nat ->
  exists w m', write_all (BitWriter_new base bits) vals m = Some (w, m') /\
    emits m base m' (base + bytes_for_packed_bits (length vals) bits) (packed_bytes bits vals).
Proof.
  intros Hb F Hroom. destruct (write_all_spec base bits vals m Hb F Hroom) as (w & m' & E & Hl & Ht).
  exists w, m'. split; [done|]. constructor; auto.
  - by rewrite length_packed_bytes.
  - by apply (write_all_byte _ _ _ _ _ E).
Qed.

Lemma bytes_for_packed_bits_128 b : bytes_for_packed_bits 128 b = (16 * b)%nat.
Proof. pose proof (bytes_for_packed_bits_bounds 128 b). lia. Qed.

Lemma low_bits_fits b l : fits b (map (low_bits b) l).
Proof. apply Forall_map, Forall_forall. intros v _. apply Z.mod_pos_bound, pow2_nat_pos. Qed.

Lemma low_bits_small b l : fits b l -> map (low_bits b) l = l.
Proof.
  induction 1 as [|v l Hv _ IH]; simpl; [done|]. unfold low_bits at 1. by rewrite Z.mod_small, IH.
Qed.

Lemma map_mask b l : (b <= 32)%nat -> map (fun v => Z.land v (mask_for_bits b)) l = map (low_bits b) l.
Proof. intros H. apply map_ext. intros v. by apply land_mask. Qed.

(** [encode_bitmap] appends the low bits of the values. *)
Lemma encode_bitmap_spec interleaved b in_ m out :
  (b <= 24)%nat -> (interleaved = true -> length in_ = 128%nat) -> Forall is_byte m ->
  (out + bytes_for_packed_bits (length in_) b + 16 <= length m)%nat ->
  exists m' body, encode_bitmap in_ b interleaved m out
      = Some ((out + bytes_for_packed_bits (length in_) b)%nat, m') /\
    emits m out m' (out + bytes_for_packed_bits (length in_) b) body /\
    bitmap_repr interleaved b (map (low_bits b) in_) body.
Proof.
  intros Hb Hil Hm Hroom. unfold encode_bitmap. rewrite map_mask by lia.
  pose proof (low_bits_fits b in_) as F. destruct interleaved.
  - rewrite (Hil eq_refl) in *. rewrite decide_True by done.
    rewrite bytes_for_packed_bits_128 in *.
    destruct (write_interleaved_spec out b (map (low_bits b) in_) m 32) as (m' & E & Hl & Ht & Hw);
      [lia|done|rewrite length_map, Hil; auto|lia|].
    rewrite E. cbn [mbind option_bind]. eexists m', (drop out (take (out + 16 * b) m')). split; [done|].
    assert (Hlen : length (drop out (take (out + 16 * b) m')) = (16 * b)%nat)
      by (rewrite length_drop, length_take; lia).
    pose proof (write_interleaved_byte _ _ _ _ _ _ _ _ (Nat.le_refl _) E Hm) as Hm'.
    split; [constructor; [done|by rewrite Hlen| |done]|].
    + rewrite <- Ht. rewrite <- (take_drop out (take (out + 16 * b) m')) at 1.
      by rewrite take_take, Nat.min_l by lia.
    + split; [rewrite Hlen, length_map, Hil, bytes_for_packed_bits_128; auto|].
      split; [by apply Forall_drop, Forall_take|].
      split; [rewrite length_map; auto|]. intros k Hk.
      rewrite <- (app_nil_r (drop _ _)). apply mem_words_copy; [by apply Hw|lia|].
      rewrite (stream_length k _ 32) by (rewrite length_map, Hil; auto). lia.
  - destruct (write_all_emits out b (map (low_bits b) in_) m) as (w & m' & E & A);
      [done|done|rewrite length_map; lia|].
    rewrite E. cbn [mbind option_bind fmap option_fmap option_map snd].
    rewrite length_map in A. exists m', (packed_bytes b (map (low_bits b) in_)).
    split; [done|]. split; [exact A|]. split; [apply length_packed_bytes|].
    split; [apply packed_bytes_byte|done].
Qed.

(** ** Exceptions *)

Lemma write_exceptions_spec b in_ : forall m out,
  Forall is_u32 in_ ->
  (out + length (concat (map vb_bytes (exceptions_of b in_))) + 5 <= length m)%nat ->
  exists m', write_exceptions in_ b m out
      = Some ((out + length (concat (map vb_bytes (exceptions_of b in_))))%nat, m') /\
    emits m out m' (out + length (concat (map vb_bytes (exceptions_of b in_))))
      (concat (map vb_bytes (exceptions_of b in_))).
Proof.
  induction in_ as [|v in_ IH]; intros m out Hu Hroom; cbn [write_exceptions].
  { exists m. rewrite Nat.add_0_r. split; [done|apply emits_nil]. }
  apply Forall_cons in Hu as [Hv Hu]. unfold exceptions_of in *. simpl List.filter in *.
  change (negb (high_bits b v =? 0)) with (is_exception b v).
  destruct (is_exception b v) eqn:He; [|by apply IH].
  cbn [map concat] in *. rewrite length_app in *.
  destruct (write_vb_spec (high_bits b v) m out) as (m1 & E & A); [|lia|].
  { unfold high_bits. rewrite Z.shiftr_div_pow2 by lia. unfold is_u32 in Hv.
    pose proof (pow2_nat_pos b). split; [apply Z.div_pos; lia|].
    eapply Z.le_lt_trans; [apply Z.div_le_upper_bound with (q := v)|]; nia. }
  rewrite E. cbn [mbind option_bind].
  destruct (IH m1 (out + length (vb_bytes (high_bits b v)))%nat Hu) as (m2 & E2 & A2).
  { rewrite (em_len _ _ _ _ _ A). lia. }
  rewrite E2. rewrite <- Nat.add_assoc in *. exists m2. split; [done|].
  by eapply emits_trans.
Qed.

Lemma length_exception_indexes b in_ : forall i,
  length (exception_indexes i b in_) = length (exceptions_of b in_).
Proof.
  unfold exceptions_of. induction in_ as [|v in_ IH]; intros i; simpl; [done|].
  destruct (is_exception b v); simpl; auto.
Qed.

Lemma write_exception_indexes_spec b in_ : forall i m out,
  0 <= i -> i + Z.of_nat (length in_) <= 256 ->
  (out + length (exceptions_of b in_) <= length m)%nat ->
  exists m', write_exception_indexes in_ i b m out
      = Some ((out + length (exceptions_of b in_))%nat, m') /\
    emits m out m' (out + length (exceptions_of b in_)) (exception_indexes i b in_).
Proof.
  induction in_ as [|v in_ IH]; intros i m out Hi Hi2 Hroom; cbn [write_exception_indexes].
  { exists m. rewrite Nat.add_0_r. split; [done|apply emits_nil]. }
  simpl length in Hi2. unfold exceptions_of in *. simpl List.filter in *.
  change (negb (high_bits b v =? 0)) with (is_exception b v). cbn [exception_indexes].
  destruct (is_exception b v) eqn:He; [|by apply IH; lia].
  cbn [map length] in *.
  emit_step (poke_emits i m out); [lia|unfold is_byte; lia|].
  destruct (IH (i + 1) m0 (out + 1)%nat) as (m2 & E2 & A2); [lia|lia| |].
  { rewrite (em_len _ _ _ _ _ A). lia. }
  rewrite E2. rewrite <- Nat.add_assoc in *. cbn [Nat.add] in *.
  exists m2. split; [done|]. by eapply emits_cons.
Qed.

Lemma flags_fit b in_ : fits 1 (map (fun v => Z.b2z (is_exception b v)) in_).
Proof.
  apply Forall_map, Forall_forall. intros v _. change (2 ^ Z.of_nat 1) with 2.
  destruct (is_exception b v); simpl; lia.
Qed.

Lemma exceptions_fit b e in_ : fits (b + e) in_ -> fits e (exceptions_of b in_).
Proof.
  intros F. apply Forall_map, Forall_forall. intros v Hv.
  apply list_elem_of_In, filter_In in Hv as [Hv _]. apply list_elem_of_In in Hv.
  pose proof (proj1 (Forall_forall _ _) F v Hv) as Hr. cbn beta in Hr.
  rewrite Nat2Z.inj_add, Z.pow_add_r in Hr by lia. pose proof (pow2_nat_pos b).
  unfold high_bits. rewrite Z.shiftr_div_pow2 by lia.
  split; [apply Z.div_pos; lia|]. apply Z.div_lt_upper_bound; lia.
Qed.

(** ** The three PFor layouts *)

Definition pfor_bitmap_size (in_ : list Z) (b e : nat) : nat :=
  (1 + bytes_for_packed_bits (length in_) 1
   + bytes_for_packed_bits (length (exceptions_of b in_)) e
   + bytes_for_packed_bits (length in_) b)%nat.

Definition pfor_vb_size (in_ : list Z) (b : nat) : nat :=
  (1 + bytes_for_packed_bits (length in_) b
   + length (concat (map vb_bytes (exceptions_of b in_)))
   + length (exceptions_of b in_))%nat.

Lemma encode_pfor_bitmap_spec interleaved b e in_ m out :
  (b + e <= 24)%nat -> fits (b + e) in_ ->
  (interleaved = true -> length in_ = 128%nat) -> Forall is_byte m ->
  (out + pfor_bitmap_size in_ b e + 16 <= length m)%nat ->
  exists m' body, encode_pfor_bitmap in_ b e interleaved m out
      = Some ((out + pfor_bitmap_size in_ b e)%nat, m') /\
    bitmap_repr interleaved b (map (low_bits b) in_) body /\
    emits m out m' (out + pfor_bitmap_size in_ b e) (Z.of_nat e ::
      packed_bytes 1 (map (fun v => Z.b2z (is_exception b v)) in_) ++
      packed_bytes e (exceptions_of b in_) ++ body).
Proof.
  intros Hb F Hil Hm Hroom. unfold pfor_bitmap_size in *. unfold encode_pfor_bitmap.
  emit_step (poke_emits (Z.of_nat e) m out); [lia|unfold is_byte; lia|].
  pose proof (em_len _ _ _ _ _ A) as L0.
  destruct (write_all_emits (out + 1) 1 (map (fun v => Z.b2z (is_exception b v)) in_) m0)
    as (w1 & m1 & E1 & A1); [lia|apply flags_fit|rewrite length_map; lia|].
  rewrite length_map in A1.
  rewrite E1. cbn [mbind option_bind]. pose proof (em_len _ _ _ _ _ A1) as L1.
  destruct (write_all_emits (out + 1 + bytes_for_packed_bits (length in_) 1) e
    (exceptions_of b in_) m1) as (w2 & m2 & E2 & A2); [lia|by apply exceptions_fit|lia|].
  rewrite E2. cbn [mbind option_bind]. pose proof (em_len _ _ _ _ _ A2) as L2.
  destruct (encode_bitmap_spec interleaved b in_ m2
    (out + 1 + bytes_for_packed_bits (length in_) 1 +
     bytes_for_packed_bits (length (exceptions_of b in_)) e)) as (m3 & body & E3 & A3 & R3);
    [lia|done| |lia|].
  { by apply (em_byte _ _ _ _ _ A2), (em_byte _ _ _ _ _ A1), (em_byte _ _ _ _ _ A). }
  rewrite E3. exists m3, body. split; [do 2 f_equal; lia|]. split; [done|].
  replace (out + _)%nat with (out + 1 + bytes_for_packed_bits (length in_) 1 +
     bytes_for_packed_bits (length (exceptions_of b in_)) e +
     bytes_for_packed_bits (length in_) b)%nat by lia.
  eapply emits_cons; [exact A|]. eapply emits_trans; [exact A1|]. by eapply emits_trans.
Qed.

Lemma length_exceptions_of b in_ :
  length (exceptions_of b in_) = length (List.filter (is_exception b) in_).
Proof. apply length_map. Qed.

Lemma length_exceptions_le b in_ : (length (exceptions_of b in_) <= length in_)%nat.
Proof. rewrite length_exceptions_of. apply filter_length_le. Qed.

Lemma encode_pfor_vb_spec interleaved b in_ m out :
  (b <= 24)%nat -> Forall is_u32 in_ -> (length in_ <= 128)%nat ->
  (interleaved = true -> length in_ = 128%nat) -> Forall is_byte m ->
  (out + pfor_vb_size in_ b + 16 <= length m)%nat ->
  exists m' body, encode_pfor_vb in_ b interleaved m out
      = Some ((out + pfor_vb_size in_ b)%nat, m') /\
    bitmap_repr interleaved b (map (low_bits b) in_) body /\
    emits m out m' (out + pfor_vb_size in_ b) (Z.of_nat (length (exceptions_of b in_)) ::
      body ++ concat (map vb_bytes (exceptions_of b in_)) ++ exception_indexes 0 b in_).
Proof.
  intros Hb Hu Hn Hil Hm Hroom. unfold pfor_vb_size in *. unfold encode_pfor_vb.
  rewrite <- length_exceptions_of. pose proof (length_exceptions_le b in_) as Hle.
  emit_step (poke_emits (Z.of_nat (length (exceptions_of b in_))) m out); [lia|unfold is_byte; lia|].
  pose proof (em_len _ _ _ _ _ A) as L0.
  destruct (encode_bitmap_spec interleaved b in_ m0 (out + 1)) as (m1 & body & E1 & A1 & R1);
    [lia|done|by apply (em_byte _ _ _ _ _ A)|lia|].
  rewrite E1. cbn [mbind option_bind]. pose proof (em_len _ _ _ _ _ A1) as L1.
  destruct (write_exceptions_spec b in_ m1 (out + 1 + bytes_for_packed_bits (length in_) b))
    as (m2 & E2 & A2); [done|lia|].
  rewrite E2. cbn [mbind option_bind]. pose proof (em_len _ _ _ _ _ A2) as L2.
  destruct (write_exception_indexes_spec b in_ 0 m2 (out + 1 + bytes_for_packed_bits (length in_) b
    + length (concat (map vb_bytes (exceptions_of b in_))))) as (m3 & E3 & A3); [lia|lia|lia|].
  rewrite E3. exists m3, body. split; [do 2 f_equal; lia|]. split; [done|].
  replace (out + (1 + _ + _ + _))%nat with (out + 1 + bytes_for_packed_bits (length in_) b
    + length (concat (map vb_bytes (exceptions_of b in_))) + length (exceptions_of b in_))%nat by lia.
  eapply emits_cons; [exact A|]. eapply emits_trans; [exact A1|]. by eapply emits_trans.
Qed.

(** ** Choosing the block type: lemmas *)

Lemma num_bits_le x b : 0 <= x -> x < 2 ^ 32 -> (num_bits x <= b)%nat <-> x < 2 ^ Z.of_nat b.
Proof.
  intros H0 Hx. unfold num_bits, builtin_clz. destruct (Z.eqb_spec x 0) as [->|Hne].
  { split; [intros _; apply pow2_nat_pos|lia]. }
  assert (Hl : 0 <= Z.log2 x < 32).
  { split; [apply Z.log2_nonneg|]. apply Z.log2_lt_pow2; lia. }
  rewrite Z.log2_lt_pow2 by lia. lia.
Qed.

Lemma num_bits_32 x : is_u32 x -> (num_bits x <= 32)%nat.
Proof. intros [H0 H]. apply num_bits_le; [done|done|exact H]. Qed.

Lemma high_bits_zero b x : is_u32 x -> high_bits b x = 0 <-> (num_bits x <= b)%nat.
Proof.
  intros [H0 H]. rewrite (num_bits_le x b) by done. unfold high_bits.
  rewrite Z.shiftr_div_pow2 by lia. pose proof (pow2_nat_pos b).
  rewrite Z.div_small_iff by lia. lia.
Qed.

Lemma is_exception_spec b x : is_u32 x -> is_exception b x = (b <? num_bits x)%nat.
Proof.
  intros Hx. pose proof (high_bits_zero b x Hx) as H. unfold is_exception.
  destruct (Z.eqb_spec (high_bits b x) 0), (Nat.ltb_spec b (num_bits x)); simpl; try done; lia.
Qed.

Definition count (P : nat -> bool) (in_ : list Z) : nat :=
  length (List.filter (fun x => P (num_bits x)) in_).

Lemma count_cons P x in_ : count P (x :: in_) = ((if P (num_bits x) then 1 else 0) + count P in_)%nat.
Proof. unfold count. simpl. by destruct (P (num_bits x)). Qed.

Lemma count_ext (P Q : nat -> bool) in_ : (forall n, P n = Q n) -> count P in_ = count Q in_.
Proof. intros H. unfold count. f_equal. apply filter_ext. intros x. apply H. Qed.

Lemma count_zero P in_ : (forall x, x ∈ in_ -> P (num_bits x) = false) -> count P in_ = 0%nat.
Proof.
  intros H. induction in_ as [|x in_ IH]; [done|]. rewrite count_cons, H by (left).
  apply IH. intros y Hy. apply H. by right.
Qed.

Lemma count_split (P Q R : nat -> bool) in_ :
  (forall n, P n = Q n || R n) -> (forall n, Q n && R n = false) ->
  count P in_ = (count Q in_ + count R in_)%nat.
Proof.
  intros H D. induction in_ as [|x in_ IH]; [done|]. rewrite !count_cons, IH, H.
  specialize (D (num_bits x)). destruct (Q (num_bits x)), (R (num_bits x)); simpl in *; lia || done.
Qed.

Lemma length_add_to_histogram h x : length (add_to_histogram h x) = length h.
Proof. apply length_alter. Qed.

Lemma hist_lookup h b : (b < length h)%nat -> h !! b = Some (hist h b).
Proof.
  intros H. destruct (lookup_lt_is_Some_2 h b H) as [v Hv]. rewrite Hv. f_equal.
  unfold hist. by rewrite (nth_lookup_Some _ _ _ _ Hv).
Qed.

Lemma hist_of_lookup h b v : h !! b = Some v -> hist h b = v.
Proof. intros H. unfold hist. by apply nth_lookup_Some. Qed.

Lemma histogram_count in_ b : forall h, (b < length h)%nat ->
  hist (fold_left add_to_histogram in_ h) b = (hist h b + count (Nat.eqb b) in_)%nat.
Proof.
  induction in_ as [|x in_ IH]; intros h Hb; cbn [fold_left]; [unfold count; simpl; lia|].
  rewrite IH by (by rewrite length_add_to_histogram). rewrite count_cons.
  assert (hist (add_to_histogram h x) b = (hist h b + if Nat.eqb b (num_bits x) then 1 else 0)%nat).
  { apply hist_of_lookup. unfold add_to_histogram. destruct (Nat.eqb_spec b (num_bits x)) as [->|Hne].
    - rewrite list_lookup_alter_eq, hist_lookup by done. simpl. f_equal. lia.
    - rewrite list_lookup_alter_ne, hist_lookup by done. f_equal. lia. }
  lia.
Qed.

Lemma length_histogram in_ : forall h, length (fold_left add_to_histogram in_ h) = length h.
Proof.
  induction in_ as [|x in_ IH]; intros h; [done|]. cbn [fold_left].
  by rewrite IH, length_add_to_histogram.
Qed.

Lemma hist_repeat b : hist (repeat 0%nat 33) b = 0%nat.
Proof. unfold hist. apply nth_repeat. Qed.

Definition max_num_bits (in_ : list Z) : nat := fold_left (fun acc x => Nat.max acc (num_bits x)) in_ 0%nat.

Lemma fold_max_spec in_ : forall a,
  (a <= fold_left (fun acc x => Nat.max acc (num_bits x)) in_ a)%nat /\
  (forall x, x ∈ in_ -> num_bits x <= fold_left (fun acc x => Nat.max acc (num_bits x)) in_ a)%nat /\
  (forall n, a <= n -> (forall x, x ∈ in_ -> num_bits x <= n) ->
    fold_left (fun acc x => Nat.max acc (num_bits x)) in_ a <= n)%nat.
Proof.
  induction in_ as [|x in_ IH]; intros a; cbn [fold_left].
  { split; [lia|]. split; [intros x Hx; by apply not_elem_of_nil in Hx|auto]. }
  destruct (IH (Nat.max a (num_bits x))) as (H1 & H2 & H3). split; [lia|]. split.
  - intros y Hy. apply elem_of_cons in Hy as [->|Hy]; [lia|auto].
  - intros n Hn Hall. apply H3; [|intros y Hy; apply Hall; by right].
    pose proof (Hall x ltac:(left)). lia.
Qed.

Lemma max_num_bits_ge in_ x : x ∈ in_ -> (num_bits x <= max_num_bits in_)%nat.
Proof. apply (fold_max_spec in_ 0%nat). Qed.

Lemma max_num_bits_le in_ n : (forall x, x ∈ in_ -> (num_bits x <= n)%nat) -> (max_num_bits in_ <= n)%nat.
Proof. intros H. apply (fold_max_spec in_ 0%nat); [lia|done]. Qed.

Lemma varbyte_length v : 0 <= v -> v < 2 ^ 32 -> v <> 0 ->
  (length (vb_bytes v) + 1 <= 2 + (if 7 <=? num_bits v then 1 else 0) +
    (if 14 <=? num_bits v then 1 else 0) + (if 19 <=? num_bits v then 1 else 0) +
    (if 24 <=? num_bits v then 1 else 0))%nat.
Proof.
  intros H0 Hv Hne. pose proof (fun b => num_bits_le v b H0 Hv) as H.
  pose proof (H 6%nat) as H6. pose proof (H 13%nat) as H13.
  pose proof (H 18%nat) as H18. pose proof (H 23%nat) as H23. clear H.
  change (2 ^ Z.of_nat 6) with 64 in H6. change (2 ^ Z.of_nat 13) with 8192 in H13.
  change (2 ^ Z.of_nat 18) with 262144 in H18. change (2 ^ Z.of_nat 23) with 8388608 in H23.
  destruct (Nat.leb_spec 7 (num_bits v)), (Nat.leb_spec 14 (num_bits v)),
    (Nat.leb_spec 19 (num_bits v)), (Nat.leb_spec 24 (num_bits v)); try lia;
    unfold vb_bytes; repeat case_match; cbn [length]; rewrite ?length_le_bytes; lia.
Qed.

Lemma num_bits_high b x : is_u32 x -> (b < num_bits x)%nat ->
  (num_bits (high_bits b x) = num_bits x - b)%nat.
Proof.
  intros [H0 Hx] Hb. pose proof (high_bits_zero b x (conj H0 Hx)) as Hz.
  unfold high_bits in *. unfold num_bits in Hb |- *. unfold builtin_clz in *.
  destruct (Z.eqb_spec x 0) as [->|Hne]; [lia|].
  assert (Hl : 0 <= Z.log2 x < 32).
  { split; [apply Z.log2_nonneg|]. apply Z.log2_lt_pow2; lia. }
  destruct (Z.eqb_spec (Z.shiftr x (Z.of_nat b)) 0) as [He|He].
  - apply Hz in He. unfold num_bits, builtin_clz in He. destruct (Z.eqb_spec x 0); lia.
  - rewrite Z.log2_shiftr by lia. lia.
Qed.

Section Choice.
Context (in_ : list Z) (Hin : Forall is_u32 in_).
Let max_bits := max_num_bits in_.
Let num := length in_.

#[local] Lemma above_max P : (forall n, (n <= max_bits)%nat -> P n = false) -> count P in_ = 0%nat.
Proof. intros H. apply count_zero. intros x Hx. apply H. by apply max_num_bits_ge. Qed.

#[local] Lemma exceptions_count b : length (exceptions_of b in_) = count (fun n => b <? n)%nat in_.
Proof using Hin.
  rewrite length_exceptions_of. unfold count. f_equal. apply filter_ext_in. intros x Hx.
  apply is_exception_spec. apply list_elem_of_In in Hx.
  exact (proj1 (Forall_forall _ _) Hin x Hx).
Qed.

(** What [try_bitmap] keeps. *)
Definition bitmap_choice (cost width : nat) : Prop :=
  (width = max_bits /\ cost = bytes_for_packed_bits num max_bits) \/
  ((width < max_bits)%nat /\ cost = pfor_bitmap_size in_ width (max_bits - width) /\
   (cost < bytes_for_packed_bits num max_bits)%nat).

Lemma bitmap_choice_le cost width :
  bitmap_choice cost width -> (cost <= bytes_for_packed_bits num max_bits)%nat.
Proof. unfold bitmap_choice. intros [[_ ->]|(_ & _ & H)]; lia. Qed.

Lemma try_bitmap_spec h n : forall k nexc cost width,
  (forall b, (b <= max_bits)%nat -> hist h b = count (Nat.eqb b) in_) ->
  (k + n = max_bits)%nat -> nexc = count (fun b => max_bits - k <? b)%nat in_ ->
  bitmap_choice cost width ->
  exists cost' width', try_bitmap h num max_bits (seq (S k) n) nexc cost width = (cost', width') /\
    bitmap_choice cost' width'.
Proof using Hin.
  induction n as [|n IH]; intros k nexc cost width Hh Hk Hn Hc; cbn [seq try_bitmap]; [eauto|].
  rewrite Hh by lia.
  assert (Hcount : (nexc + count (Nat.eqb (max_bits - S k + 1)) in_)%nat
                   = count (fun b => max_bits - S k <? b)%nat in_).
  { rewrite Hn. symmetry. apply count_split; intros b.
    - destruct (Nat.ltb_spec (max_bits - S k) b), (Nat.ltb_spec (max_bits - k) b),
        (Nat.eqb_spec (max_bits - S k + 1) b); simpl; try done; lia.
    - destruct (Nat.ltb_spec (max_bits - k) b),
        (Nat.eqb_spec (max_bits - S k + 1) b); simpl; try done; lia. }
  rewrite Hcount.
  assert (Hsize : (1 + bytes_for_packed_bits num 1 + bytes_for_packed_bits num (max_bits - S k) +
    bytes_for_packed_bits (count (fun b => max_bits - S k <? b)%nat in_) (S k))%nat
    = pfor_bitmap_size in_ (max_bits - S k) (max_bits - (max_bits - S k))).
  { unfold pfor_bitmap_size. rewrite exceptions_count.
    replace (max_bits - (max_bits - S k))%nat with (S k) by lia. unfold num. lia. }
  rewrite Hsize. pose proof (bitmap_choice_le _ _ Hc) as Hle.
  destruct (Nat.ltb_spec (pfor_bitmap_size in_ (max_bits - S k) (max_bits - (max_bits - S k))) cost);
    apply IH; auto; try lia.
  right. repeat split; lia.
Qed.

Lemma make_cumulative_spec i : forall h, length h = 33%nat -> (i <= 32)%nat ->
  (forall j, (j < i)%nat -> hist h j = count (Nat.eqb j) in_) ->
  (forall j, (i <= j <= 32)%nat -> hist h j = count (fun n => j <=? n)%nat in_) ->
  forall j, (j <= 32)%nat -> hist (make_cumulative i h) j = count (fun n => j <=? n)%nat in_.
Proof.
  induction i as [|i IH]; intros h Hl Hi Hlt Hge j Hj; cbn [make_cumulative]; [apply Hge; lia|].
  assert (Hset : forall v j', hist (<[i := v]> h) j' = if decide (i = j') then v else hist h j').
  { intros v j'. destruct (decide (i = j')) as [<-|Hne].
    - apply hist_of_lookup. apply list_lookup_insert_eq. lia.
    - unfold hist. rewrite !nth_lookup. by rewrite list_lookup_insert_ne. }
  apply IH; auto; [by rewrite length_insert|lia| |].
  - intros j' Hj'. rewrite Hset, decide_False by lia. apply Hlt. lia.
  - intros j' Hj'. rewrite Hset. destruct (decide (i = j')) as [<-|Hne]; [|apply Hge; lia].
    rewrite Hlt, Hge by lia. symmetry. apply count_split; intros b.
    + destruct (Nat.leb_spec i b), (Nat.leb_spec (S i) b), (Nat.eqb_spec i b); simpl; try done; lia.
    + destruct (Nat.leb_spec (S i) b), (Nat.eqb_spec i b); simpl; try done; lia.
Qed.

(** The estimate of the variable-byte layout is an upper bound. *)
Lemma varbyte_estimate t :
  (length (concat (map vb_bytes (exceptions_of t in_))) + length (exceptions_of t in_)
   <= 2 * count (fun n => t + 1 <=? n) in_ + count (fun n => t + 7 <=? n) in_
      + count (fun n => t + 14 <=? n) in_ + count (fun n => t + 19 <=? n) in_
      + count (fun n => t + 24 <=? n) in_)%nat.
Proof using Hin.
  pose proof Hin as H. clear Hin max_bits num. unfold exceptions_of. induction H as [|x l Hx _ IH]; [simpl; lia|].
  rewrite !count_cons. cbn [List.filter]. rewrite is_exception_spec by done.
  destruct (Nat.ltb_spec t (num_bits x)) as [Ht|Ht]; [|lia].
  cbn [map concat length]. rewrite length_app.
  pose proof (num_bits_high t x Hx Ht) as Hn.
  pose proof (varbyte_length (high_bits t x)) as Hv. rewrite Hn in Hv.
  assert (H0 : 0 <= high_bits t x /\ high_bits t x < 2 ^ 32 /\ high_bits t x <> 0).
  { destruct Hx as [Hx0 Hx]. pose proof (high_bits_zero t x (conj Hx0 Hx)).
    pose proof (pow2_nat_pos t). unfold high_bits in *. rewrite Z.shiftr_div_pow2 in * by lia.
    split; [apply Z.div_pos; lia|]. split; [|lia].
    eapply Z.le_lt_trans; [apply Z.div_le_upper_bound with (q := x)|]; nia. }
  specialize (Hv (proj1 H0) (proj1 (proj2 H0)) (proj2 (proj2 H0))). clear H0 Hx Hn.
  destruct (Nat.leb_spec (t + 1) (num_bits x)), (Nat.leb_spec (t + 7) (num_bits x)),
    (Nat.leb_spec (t + 14) (num_bits x)), (Nat.leb_spec (t + 19) (num_bits x)),
    (Nat.leb_spec (t + 24) (num_bits x)), (Nat.leb_spec 7 (num_bits x - t)),
    (Nat.leb_spec 14 (num_bits x - t)), (Nat.leb_spec 19 (num_bits x - t)),
    (Nat.leb_spec 24 (num_bits x - t)); lia.
Qed.
End Choice.

Lemma count_above in_ i : (max_num_bits in_ < i)%nat -> count (fun n => i <=? n)%nat in_ = 0%nat.
Proof.
  intros H. apply above_max. intros n Hn. apply Nat.leb_gt. lia.
Qed.

Lemma varbyte_cost_ge in_ h t :
  Forall is_u32 in_ -> (t < max_num_bits in_)%nat ->
  (forall j, (j <= max_num_bits in_)%nat -> hist h j = count (fun n => j <=? n)%nat in_) ->
  (pfor_vb_size in_ t <= varbyte_cost h (length in_) (max_num_bits in_) t)%nat.
Proof.
  intros Hin Ht Hh. pose proof (varbyte_estimate in_ Hin t) as He. unfold pfor_vb_size, varbyte_cost.
  pose proof (count_above in_ (t + 7)). pose proof (count_above in_ (t + 14)).
  pose proof (count_above in_ (t + 19)). pose proof (count_above in_ (t + 24)).
  repeat match goal with |- context [if (?a <=? ?b)%nat then _ else _] =>
    destruct (Nat.leb_spec a b) end; try lia; rewrite ?Hh by lia; lia.
Qed.

Lemma try_varbyte_spec in_ h ws : forall cost width (flag : bool),
  Forall is_u32 in_ -> Forall (fun t => t < max_num_bits in_)%nat ws ->
  (forall j, (j <= max_num_bits in_)%nat -> hist h j = count (fun n => j <=? n)%nat in_) ->
  (cost <= bytes_for_packed_bits (length in_) (max_num_bits in_))%nat ->
  (if flag then (width < max_num_bits in_)%nat /\ (pfor_vb_size in_ width <= cost)%nat
   else bitmap_choice in_ cost width) ->
  exists cost' width' flag',
    try_varbyte h (length in_) (max_num_bits in_) ws cost width flag = (cost', width', flag') /\
    (cost' <= bytes_for_packed_bits (length in_) (max_num_bits in_))%nat /\
    (if flag' then (width' < max_num_bits in_)%nat /\ (pfor_vb_size in_ width' <= cost')%nat
     else bitmap_choice in_ cost' width').
Proof.
  induction ws as [|t ws IH]; intros cost width flag Hin Hws Hh Hc Hf; cbn [try_varbyte];
    [by exists cost, width, flag|].
  apply Forall_cons in Hws as [Ht Hws].
  destruct (_ <=? _)%nat; [by exists cost, width, flag|].
  pose proof (varbyte_cost_ge in_ h t Hin Ht Hh) as Hge.
  destruct (Nat.ltb_spec (varbyte_cost h (length in_) (max_num_bits in_) t) cost);
    apply IH; auto; lia.
Qed.

(** What [decide_block_type] promises: a layout that can hold the values, no
    larger than plain FOR. *)
Definition block_choice_ok (in_ : list Z) (c : BlockType * nat * nat) : Prop :=
  let limit := bytes_for_packed_bits (length in_) (max_num_bits in_) in
  match c with
  | (CONSTANT, b, _) => b = num_bits (hd 0 in_) /\ in_ = repeat (hd 0 in_) (length in_)
  | (FOR, b, _) => b = max_num_bits in_
  | (PFOR_BITMAP, b, e) => (b + e = max_num_bits in_)%nat /\ (pfor_bitmap_size in_ b e <= limit)%nat
  | (PFOR_VB, b, _) => (b < max_num_bits in_)%nat /\ (pfor_vb_size in_ b <= limit)%nat
  end.

Lemma forallb_repeat v l : forallb (fun x => x =? v) l = true -> l = repeat v (length l).
Proof.
  induction l as [|x l IH]; simpl; [done|]. intros H. apply andb_prop in H as [Hx Hl].
  apply Z.eqb_eq in Hx. by rewrite Hx, <- IH.
Qed.

Lemma decide_block_type_ok in_ : Forall is_u32 in_ -> in_ <> [] ->
  block_choice_ok in_ (decide_block_type in_).
Proof.
  intros Hin Hne. unfold decide_block_type. destruct (forallb _ _) eqn:Hconst.
  { split; [done|]. destruct in_ as [|x in_]; [done|]. simpl in *. f_equal. by apply forallb_repeat. }
  fold (max_num_bits in_).
  assert (Hmax : (max_num_bits in_ <= 32)%nat).
  { apply max_num_bits_le. intros x Hx. apply num_bits_32.
    exact (proj1 (Forall_forall _ _) Hin x Hx). }
  assert (Hh : forall b, (b <= 32)%nat ->
    hist (fold_left add_to_histogram in_ (repeat 0%nat 33)) b = count (Nat.eqb b) in_).
  { intros b Hb. rewrite histogram_count by (rewrite repeat_length; lia).
    by rewrite hist_repeat. }
  destruct (try_bitmap_spec in_ Hin (fold_left add_to_histogram in_ (repeat 0%nat 33))
    (max_num_bits in_) 0 0 (bytes_for_packed_bits (length in_) (max_num_bits in_)) (max_num_bits in_))
    as (cost & width & E & Hc).
  { intros b Hb. apply Hh. lia. }
  { lia. }
  { symmetry. apply above_max. intros n Hn. apply Nat.ltb_ge. lia. }
  { left. done. }
  rewrite E. pose proof (bitmap_choice_le _ _ _ Hc) as Hle.
  destruct (try_varbyte_spec in_ (make_cumulative (max_num_bits in_)
      (fold_left add_to_histogram in_ (repeat 0%nat 33))) (seq 0 (max_num_bits in_)) cost width false)
    as (cost' & width' & flag' & E' & Hc' & Hf'); auto.
  { apply Forall_forall. intros t Ht. apply elem_of_seq in Ht. lia. }
  { intros j Hj. apply make_cumulative_spec; try lia.
    - rewrite length_histogram. apply repeat_length.
    - intros j' Hj'. apply Hh. lia.
    - intros j' Hj'. rewrite Hh by lia. destruct (decide (j' = max_num_bits in_)) as [->|Hne'].
      + unfold count. f_equal. apply filter_ext_in. intros x Hx. apply list_elem_of_In in Hx.
        pose proof (max_num_bits_ge in_ x Hx).
        destruct (Nat.eqb_spec (max_num_bits in_) (num_bits x)),
          (Nat.leb_spec (max_num_bits in_) (num_bits x)); lia || done.
      + rewrite !(above_max in_); auto; intros n Hn; [apply Nat.leb_gt|apply Nat.eqb_neq]; lia. }
  rewrite E'. destruct flag'; [split; lia|].
  destruct Hf' as [[-> _]|(Hw & Hcost & Hlt)].
  - by rewrite Nat.eqb_refl.
  - destruct (Nat.eqb_spec width' (max_num_bits in_)); [lia|]. split; lia.
Qed.

Lemma max_num_bits_fits b in_ : Forall is_u32 in_ -> fits b in_ <-> (max_num_bits in_ <= b)%nat.
Proof.
  intros Hin. split.
  - intros F. apply max_num_bits_le. intros x Hx.
    pose proof (proj1 (Forall_forall _ _) Hin x Hx) as [H0 H1].
    apply num_bits_le; [done|done|]. apply (proj1 (Forall_forall _ _) F x Hx).
  - intros H. apply Forall_forall. intros x Hx.
    pose proof (proj1 (Forall_forall _ _) Hin x Hx) as [H0 H1].
    split; [done|]. apply num_bits_le; [done|done|].
    pose proof (max_num_bits_ge in_ x Hx). lia.
Qed.

(** ** A whole block *)

Lemma block_header t b : (b < 64)%nat ->
  Z.lor (Z.shiftl (block_type_to_Z t) 6) (Z.of_nat b) = header t b /\ is_byte (header t b).
Proof.
  intros Hb. unfold header, is_byte. split.
  - rewrite Z.lor_comm, lor_shiftl_add by lia. lia.
  - destruct t; simpl; lia.
Qed.

Lemma fits_u32 b l : (b <= 32)%nat -> fits b l -> Forall is_u32 l.
Proof.
  intros Hb F. apply (Forall_impl _ _ _ F). intros v [H0 H1]. split; [done|].
  eapply Z.lt_le_trans; [exact H1|]. by apply pow2_le32.
Qed.

Lemma no_exceptions_max b in_ : Forall is_u32 in_ -> exceptions_of b in_ = [] ->
  (max_num_bits in_ <= b)%nat.
Proof.
  intros Hu Hnil. apply max_num_bits_le. intros x Hx.
  pose proof (proj1 (Forall_forall _ _) Hu x Hx) as Hxu.
  destruct (is_exception b x) eqn:He.
  - apply map_eq_nil in Hnil. assert (Hin : List.In x (List.filter (is_exception b) in_)).
    { apply filter_In. split; [by apply list_elem_of_In|done]. }
    rewrite Hnil in Hin. done.
  - rewrite is_exception_spec in He by done. apply Nat.ltb_ge in He. done.
Qed.

(** A block is its header and its body. *)
Lemma header_then_body interleaved in_ h body bound m out m0 m1 o1 :
  emits m out m0 (out + 1)%nat [h] -> emits m0 (out + 1)%nat m1 o1 body -> block_repr interleaved in_ (h :: body) ->
  (length body <= bound)%nat ->
  exists m' enc, Some (o1, m1) = Some ((out + length enc)%nat, m') /\ emits m out m' (out + length enc) enc /\
    block_repr interleaved in_ enc /\ (length enc <= S bound)%nat.
Proof.
  intros A A1 R L. pose proof (em_out _ _ _ _ _ A1) as Ho. pose proof (emits_cons _ _ _ _ _ _ _ _ A A1) as AA.
  rewrite Ho, <- Nat.add_assoc in AA |- *. exists m1, (h :: body). cbn [length]. split; [done|]. split; [exact AA|]. split; [exact R|lia].
Qed.

(** The smallest number of bits of a block is that of 24-bit values at most. *)
Lemma packed_bits_le in_ : Forall is_u32 in_ -> fits 24 in_ ->
  (max_num_bits in_ <= 24)%nat /\ (bytes_for_packed_bits (length in_) (max_num_bits in_) <= bytes_for_packed_bits (length in_) 24)%nat.
Proof.
  intros Hu F. pose proof (proj1 (max_num_bits_fits 24 in_ Hu) F) as Hmax. split; [done|].
  pose proof (bytes_for_packed_bits_bounds (length in_) (max_num_bits in_)).
  pose proof (bytes_for_packed_bits_bounds (length in_) 24). nia.
Qed.

Lemma constant_block in_ : Forall is_u32 in_ -> (num_bits (hd 0%Z in_) <= 24)%nat -> in_ = repeat (hd 0 in_) (length in_) ->
  forall interleaved, block_repr interleaved in_ (header CONSTANT (num_bits (hd 0 in_)) :: le_bytes (div_round_up (num_bits (hd 0 in_)) 8) (hd 0 in_)).
Proof.
  intros Hu Hb Hrep interleaved. assert (Hhd : is_u32 (hd 0 in_)).
  { destruct in_ as [|x l]; [done|]. by apply Forall_cons in Hu as [? _]. }
  constructor; [lia| |done]. repeat constructor; [apply Hhd|]. apply num_bits_le; [apply Hhd|apply Hhd|lia].
Qed.

(** Values below 2^24: the encoder stays inside any buffer with 16 bytes to
    spare over plain FOR, and what it appends is a block of one of the layouts. *)
Lemma encode_block_spec interleaved in_ m out :
  fits 24 in_ -> in_ <> [] -> (length in_ <= 128)%nat ->
  (interleaved = true -> length in_ = 128%nat) -> Forall is_byte m ->
  (out + 1 + bytes_for_packed_bits (length in_) 24 + 16 <= length m)%nat ->
  exists m' enc, encode_pfor_single_block 128 in_ interleaved m out
      = Some ((out + length enc)%nat, m') /\
    emits m out m' (out + length enc) enc /\ block_repr interleaved in_ enc /\
    (length enc <= 5 + bytes_for_packed_bits (length in_) 24)%nat.
Proof.
  intros F Hne Hn Hil Hm Hroom. pose proof (fits_u32 24 in_ ltac:(lia) F) as Hu.
  pose proof (packed_bits_le in_ Hu F) as [Hmax Hlim].
  pose proof (proj2 (max_num_bits_fits (max_num_bits in_) in_ Hu) (Nat.le_refl _)) as Fmax.
  unfold encode_pfor_single_block. rewrite decide_True.
  2: { split; [destruct in_; simpl; [done|lia]|done]. }
  pose proof (decide_block_type_ok in_ Hu Hne) as Hok.
  destruct (decide_block_type in_) as [[t b] e].
  assert (Hb : (b <= 24)%nat).
  { destruct t; simpl in Hok; destruct_conjs; try lia. subst b. destruct in_ as [|x in_]; [done|].
    pose proof (max_num_bits_ge (x :: in_) x ltac:(left)). simpl. lia. }
  destruct (block_header t b) as [-> Hhb]; [lia|].
  emit_step (poke_emits (header t b) m out); [lia|done|].
  pose proof (em_len _ _ _ _ _ A) as L0. pose proof (em_byte _ _ _ _ _ A Hm) as Hm0.
  destruct t; simpl in Hok.
  - (* FOR *)
    subst b. unfold encode_for.
    destruct (encode_bitmap_spec interleaved (max_num_bits in_) in_ m0 (out + 1)) as (m1 & body & -> & A1 & R1); [lia|done|done|lia|].
    rewrite low_bits_small in R1 by done.
    eapply header_then_body; [exact A|exact A1|by constructor|]. pose proof (em_out _ _ _ _ _ A1). lia.
  - (* PFOR_VB *)
    destruct Hok as [Hw Hs].
    destruct (encode_pfor_vb_spec interleaved b in_ m0 (out + 1)) as (m1 & body & -> & R1 & A1); [lia|done|done|done|done|lia|].
    eapply header_then_body; [exact A|exact A1| |pose proof (em_out _ _ _ _ _ A1); lia].
    apply repr_pfor_vb; [exact Hb|done| |exact R1]. intros Hnil. pose proof (no_exceptions_max b in_ Hu Hnil). lia.
  - (* PFOR_BITMAP *)
    destruct Hok as [Hw Hs].
    destruct (encode_pfor_bitmap_spec interleaved b e in_ m0 (out + 1)) as (m1 & body & -> & R1 & A1); [lia|by rewrite Hw|done|done|lia|].
    eapply header_then_body; [exact A|exact A1| |pose proof (em_out _ _ _ _ _ A1); lia].
    apply (repr_pfor_bitmap _ _ b e); [lia|by rewrite Hw|exact R1].
  - (* CONSTANT *)
    destruct Hok as [-> Hrep]. assert (Hk : (div_round_up (num_bits (hd 0%Z in_)) 8 <= 4)%nat).
    { unfold div_round_up. apply Nat.Div0.div_le_upper_bound. lia. }
    emit_step (write_le_emits 4 (div_round_up (num_bits (hd 0 in_)) 8) (hd 0 in_) m0 (out + 1)); [lia|lia|].
    eapply header_then_body; [exact A|exact A0|by apply constant_block|]. rewrite length_le_bytes. lia.
Qed.
