(* ===== verification/TurboPForDecode.v ===== *)
(** * The TurboPFor decoder (src/turbopfor.cpp), portable versions

    [Docid] is [uint32_t].  The input pointer is the suffix of the buffer it
    points to; a load past the end, an undefined shift, a store outside the
    block's output and an unsupported encoding (an [assert] in the code) give
    [None].  [prev] is [out[-1]], and a decoder returns the values it stores at
    [out] and the advanced pointer. *)
From S2P Require Import Prelude BitPack BitPackInterleaved TurboPForEncode.

(** ** Scalars *)

Definition next_byte (in_ : bytes) : option (Z * bytes) :=
  match in_ with b :: in_ => Some (b, in_) | [] => None end.

Definition advance (n : nat) (in_ : bytes) : option bytes :=
  if decide (n <= length in_)%nat then Some (drop n in_) else None.

Definition read_baseval (in_ : bytes) : option (Z * bytes) :=
  b0 ← rd 1 in_ 0;
  if b0 <? 128 then Some (b0, drop 1 in_)
  else if b0 <? 192 then
    b1 ← rd 1 in_ 1;
    Some (Z.land (Z.lor (Z.shiftl b0 8) b1) 16383, drop 2 in_)
  else if b0 <? 224 then
    b2 ← rd 1 in_ 2; b1 ← rd 1 in_ 1;
    Some (Z.land (Z.lor (Z.lor (Z.shiftl b0 16) (Z.shiftl b2 8)) b1) 2097151, drop 3 in_)
  else if b0 <? 240 then
    b1 ← rd 1 in_ 1; b2 ← rd 1 in_ 2; b3 ← rd 1 in_ 3;
    Some (Z.land (Z.lor (Z.lor (Z.lor (Z.shiftl b0 24) (Z.shiftl b1 16)) (Z.shiftl b2 8)) b3)
            268435455, drop 4 in_)
  else None.

Definition read_vb (in_ : bytes) : option (Z * bytes) :=
  b0 ← rd 1 in_ 0;
  if b0 <=? 176 then Some (b0, drop 1 in_)
  else if b0 <=? 240 then
    b1 ← rd 1 in_ 1;
    Some (Z.lor (Z.shiftl (b0 - 177) 8) b1 + 177, drop 2 in_)
  else if b0 <=? 248 then
    w ← rd 2 in_ 1;
    Some (Z.lor (Z.shiftl (b0 - 241) 16) w + 16561, drop 3 in_)
  else if b0 =? 249 then
    b1 ← rd 1 in_ 1; b2 ← rd 1 in_ 2; b3 ← rd 1 in_ 3;
    Some (Z.lor (Z.lor b1 (Z.shiftl b2 8)) (Z.shiftl b3 16), drop 4 in_)
  else if b0 =? 250 then
    w ← rd 4 in_ 1; Some (w, drop 5 in_)
  else None.

(** [prev_val = v + prev_val + 1] over a block, in 32 bits. *)
Fixpoint delta_decode (prev : Z) (vals : list Z) : list Z :=
  match vals with
  | [] => []
  | v :: vals => let prev := u32 (v + prev + 1) in prev :: delta_decode prev vals
  end.

(** [*in++ & 0x3f], for the decoders that need a mask or shift of that width. *)
Definition read_bit_width (in_ : bytes) : option (nat * bytes) :=
  '(b, in_) ← next_byte in_;
  let bit_width := Z.to_nat (Z.land b 63) in
  if decide (bit_width <= 32)%nat then Some (bit_width, in_) else None.

(** [v << bit_width] on 32 bits. *)
Definition shl32 (v : Z) (bit_width : nat) : option Z :=
  if decide (bit_width < 32)%nat then Some (u32 (Z.shiftl v (Z.of_nat bit_width))) else None.

(** ** Constant and FOR blocks *)

Fixpoint constant_loop (num : nat) (val prev : Z) : list Z :=
  match num with
  | O => []
  | S num => let prev := u32 (val + prev + 1) in prev :: constant_loop num val prev
  end.

Definition decode_constant (in_ : bytes) (num : nat) (prev : Z) : option (list Z * bytes) :=
  '(b, in_) ← next_byte in_;
  let bit_width := Z.to_nat (Z.land b 63) in
  val ← rd 4 in_ 0;
  let val := if (bit_width <? 32)%nat then Z.land val (mask_for_bits bit_width) else val in
  in_ ← advance (div_round_up bit_width 8) in_;
  Some (constant_loop num val prev, in_).

Fixpoint for_loop (bs : BitReader) (num : nat) (prev : Z) : option (list Z) :=
  match num with
  | O => Some []
  | S num =>
    '(v, bs) ← BitReader_read bs;
    let prev := u32 (v + prev + 1) in
    out ← for_loop bs num prev; Some (prev :: out)
  end.

Definition decode_for (in_ : bytes) (num : nat) (prev : Z) : option (list Z * bytes) :=
  '(bit_width, in_) ← read_bit_width in_;
  out ← for_loop (BitReader_new in_ bit_width) num prev;
  in_ ← advance (bytes_for_packed_bits num bit_width) in_;
  Some (out, in_).

(** The four interleaved readers of a whole block. *)
Definition read_streams (BlockSize : nat) (in_ : bytes) (bit_width : nat) : option (list Z) :=
  read_interleaved (InterleavedBitReader_new in_ bit_width)
    (InterleavedBitReader_new (drop 4 in_) bit_width)
    (InterleavedBitReader_new (drop 8 in_) bit_width)
    (InterleavedBitReader_new (drop 12 in_) bit_width) (BlockSize / 4).

Definition decode_for_interleaved_generic (BlockSize : nat) (in_ : bytes) (prev : Z)
    : option (list Z * bytes) :=
  '(bit_width, in_) ← read_bit_width in_;
  out ← read_streams BlockSize in_ bit_width;
  in_ ← advance (bytes_for_packed_bits BlockSize bit_width) in_;
  Some (delta_decode prev out, in_).

(** ** PFor blocks with bitmap exceptions *)

Fixpoint ctz (p : positive) : nat :=
  match p with xO p => S (ctz p) | _ => 0%nat end.

(** POSIX [ffsll]: one plus the index of the lowest set bit, or 0. *)
Definition ffsll (x : Z) : nat := match x with Z.pos p => S (ctz p) | _ => 0%nat end.

(** The inner loop: one set bit of [exceptions] per step. *)
Fixpoint exceptions_loop (fuel : nat) (exceptions : Z) (i : nat) (bs : BitReader)
    (num_exceptions : nat) (out : list Z) : option (BitReader * nat * list Z) :=
  if exceptions =? 0 then Some (bs, num_exceptions, out)
  else match fuel with
  | O => None
  | S fuel =>
    let idx := (ffsll exceptions - 1 + i)%nat in
    '(v, bs) ← BitReader_read bs;
    if decide (idx < length out)%nat then
      exceptions_loop fuel (Z.land exceptions (exceptions - 1)) i bs (S num_exceptions)
        (<[idx := v]> out)
    else None
  end.

(** The outer loop: [words] 64-bit words of the bitmap from [ptr]. *)
Fixpoint bitmap_loop (words : nat) (ptr : bytes) (i num : nat) (bs : BitReader)
    (num_exceptions : nat) (out : list Z) : option (nat * list Z) :=
  match words with
  | O => Some (num_exceptions, out)
  | S words =>
    exceptions ← rd 8 ptr 0;
    let exceptions := if (num - i <? 64)%nat
      then Z.land exceptions (u64 (Z.shiftl 1 (Z.of_nat (num - i))) - 1) else exceptions in
    '(bs, num_exceptions, out) ← exceptions_loop 64 exceptions i bs num_exceptions out;
    bitmap_loop words (drop 8 ptr) (i + 64) num bs num_exceptions out
  end.

Definition decode_pfor_bitmap_exceptions (in_ : bytes) (num : nat) (out : list Z)
    : option (list Z * bytes) :=
  '(b, in_) ← next_byte in_;
  let exception_bit_width := Z.to_nat b in
  if decide (exception_bit_width <= 32)%nat then
    let exception_bitmap_ptr := in_ in
    in_ ← advance (div_round_up num 8) in_;
    '(num_exceptions, out) ← bitmap_loop (div_round_up num 64) exception_bitmap_ptr 0 num
       (BitReader_new in_ exception_bit_width) 0 out;
    in_ ← advance (bytes_for_packed_bits num_exceptions exception_bit_width) in_;
    Some (out, in_)
  else None.

Fixpoint pfor_loop (out : list Z) (bit_width : nat) (bs : BitReader) (prev : Z) : option (list Z) :=
  match out with
  | [] => Some []
  | o :: out =>
    '(v, bs) ← BitReader_read bs;
    hi ← shl32 o bit_width;
    let prev := u32 (Z.lor hi v + prev + 1) in
    out ← pfor_loop out bit_width bs prev; Some (prev :: out)
  end.

Definition decode_pfor_bitmap (in_ : bytes) (num : nat) (prev : Z) : option (list Z * bytes) :=
  let out := repeat 0 num in
  '(bit_width, in_) ← read_bit_width in_;
  '(out, in_) ← decode_pfor_bitmap_exceptions in_ num out;
  out ← pfor_loop out bit_width (BitReader_new in_ bit_width) prev;
  in_ ← advance (bytes_for_packed_bits num bit_width) in_;
  Some (out, in_).

(** [base | (high << bit_width)], value by value. *)
Fixpoint or_shifted (base high : list Z) (bit_width : nat) : option (list Z) :=
  match base, high with
  | b :: base, h :: high =>
    h ← shl32 h bit_width; out ← or_shifted base high bit_width; Some (Z.lor b h :: out)
  | [], [] => Some []
  | _, _ => None
  end.

Definition decode_pfor_bitmap_interleaved_generic (BlockSize : nat) (in_ : bytes) (prev : Z)
    : option (list Z * bytes) :=
  let out := repeat 0 BlockSize in
  '(bit_width, in_) ← read_bit_width in_;
  '(out, in_) ← decode_pfor_bitmap_exceptions in_ BlockSize out;
  base ← read_streams BlockSize in_ bit_width;
  out ← or_shifted base out bit_width;
  in_ ← advance (bytes_for_packed_bits BlockSize bit_width) in_;
  Some (delta_decode prev out, in_).

(** ** PFor blocks with variable-byte exceptions *)

Fixpoint read_vbs (num_exceptions : nat) (in_ : bytes) : option (list Z * bytes) :=
  match num_exceptions with
  | O => Some ([], in_)
  | S n => '(v, in_) ← read_vb in_; '(vs, in_) ← read_vbs n in_; Some (v :: vs, in_)
  end.

Fixpoint read_raws (num_exceptions : nat) (in_ : bytes) : option (list Z * bytes) :=
  match num_exceptions with
  | O => Some ([], in_)
  | S n => v ← rd 4 in_ 0; '(vs, in_) ← read_raws n (drop 4 in_); Some (v :: vs, in_)
  end.

(** The [exceptions] array holds [BlockSize] values. *)
Definition read_exceptions (BlockSize num_exceptions : nat) (in_ : bytes)
    : option (list Z * bytes) :=
  b ← rd 1 in_ 0;
  if decide (num_exceptions <= BlockSize)%nat then
    if b =? 255 then read_raws num_exceptions (drop 1 in_) else read_vbs num_exceptions in_
  else None.

Fixpoint apply_exceptions (exceptions : list Z) (bit_width : nat) (in_ : bytes) (out : list Z)
    : option (list Z * bytes) :=
  match exceptions with
  | [] => Some (out, in_)
  | e :: exceptions =>
    '(b, in_) ← next_byte in_;
    let idx := Z.to_nat b in
    o ← out !! idx;
    e ← shl32 e bit_width;
    apply_exceptions exceptions bit_width in_ (<[idx := Z.lor o e]> out)
  end.

Definition decode_pfor_vb (BlockSize : nat) (in_ : bytes) (num : nat) (prev : Z)
    : option (list Z * bytes) :=
  '(bit_width, in_) ← read_bit_width in_;
  '(b, in_) ← next_byte in_;
  let num_exceptions := Z.to_nat b in
  out ← read_all (BitReader_new in_ bit_width) num;
  in_ ← advance (bytes_for_packed_bits num bit_width) in_;
  '(exceptions, in_) ← read_exceptions BlockSize num_exceptions in_;
  '(out, in_) ← apply_exceptions exceptions bit_width in_ out;
  Some (delta_decode prev out, in_).

Definition decode_pfor_vb_interleaved_generic (BlockSize : nat) (in_ : bytes) (prev : Z)
    : option (list Z * bytes) :=
  '(bit_width, in_) ← read_bit_width in_;
  '(b, in_) ← next_byte in_;
  let num_exceptions := Z.to_nat b in
  out ← read_streams BlockSize in_ bit_width;
  in_ ← advance (bytes_for_packed_bits BlockSize bit_width) in_;
  '(exceptions, in_) ← read_exceptions BlockSize num_exceptions in_;
  '(out, in_) ← apply_exceptions exceptions bit_width in_ out;
  Some (delta_decode prev out, in_).

(** ** Posting lists *)

(** The dispatch of one block on the type in the two top bits of its header. *)
Definition decode_block (BlockSize : nat) (in_ : bytes) (num_this_block : nat)
    (interleaved : bool) (prev : Z) : option (list Z * bytes) :=
  b ← rd 1 in_ 0;
  let whole := interleaved && (num_this_block =? BlockSize)%nat in
  let t := Z.shiftr b 6 in
  if t =? block_type_to_Z FOR then
    if whole then decode_for_interleaved_generic BlockSize in_ prev
    else decode_for in_ num_this_block prev
  else if t =? block_type_to_Z PFOR_VB then
    if whole then decode_pfor_vb_interleaved_generic BlockSize in_ prev
    else decode_pfor_vb BlockSize in_ num_this_block prev
  else if t =? block_type_to_Z PFOR_BITMAP then
    if whole then decode_pfor_bitmap_interleaved_generic BlockSize in_ prev
    else decode_pfor_bitmap in_ num_this_block prev
  else if t =? block_type_to_Z CONSTANT then decode_constant in_ num_this_block prev
  else Some ([], in_).

(** The block loop; [left] is [num - i]. *)
Fixpoint decode_blocks (fuel BlockSize : nat) (in_ : bytes) (left : nat) (interleaved : bool)
    (prev : Z) : option (list Z * bytes) :=
  if (left =? 0)%nat then Some ([], in_)
  else match fuel with
  | O => None
  | S fuel =>
    let num_this_block := Nat.min left BlockSize in
    '(vals, in_) ← decode_block BlockSize in_ num_this_block interleaved prev;
    '(rest, in_) ← decode_blocks fuel BlockSize in_ (left - BlockSize) interleaved
       (List.last vals prev);
    Some (vals ++ rest, in_)
  end.

Definition decode_pfor_delta1 (BlockSize : nat) (in_ : bytes) (num : nat) (interleaved : bool)
    : option (list Z * bytes) :=
  if (num =? 0)%nat then Some ([], in_)
  else
    '(first, in_) ← read_baseval in_;
    '(vals, in_) ← decode_blocks num BlockSize in_ (num - 1) interleaved first;
    Some (first :: vals, in_).

Definition decode_pfor_delta1_128 (in_ : bytes) (num : nat) (interleaved : bool)
    : option (list Z * bytes) := decode_pfor_delta1 128 in_ num interleaved.

(** ** Lemmas: scalars *)

(** What may follow a block: at least the 16 bytes a decoder can read past it. *)
Definition slop (rest : bytes) : Prop := Forall is_byte rest /\ (16 <= length rest)%nat.

Lemma advance_app l rest n : length l = n -> advance n (l ++ rest) = Some rest.
Proof.
  intros <-. unfold advance. rewrite decide_True by (rewrite length_app; lia).
  by rewrite drop_app_length.
Qed.

Lemma slop_app l rest : Forall is_byte l -> slop rest -> slop (l ++ rest).
Proof. intros Hl [H1 H2]. split; [by apply Forall_app|rewrite length_app; lia]. Qed.

Lemma rd_here n l rest : length l = n -> rd n (l ++ rest) 0 = Some (le_val l).
Proof.
  intros <-. unfold rd. rewrite decide_True by (rewrite length_app; lia).
  by rewrite drop_0, take_app_length.
Qed.

Lemma rd_cons n b l p : rd n (b :: l) (S p) = rd n l p.
Proof.
  unfold rd. cbn [length drop]. destruct (decide (p + n <= length l)%nat);
    [rewrite decide_True by lia|rewrite decide_False by lia]; done.
Qed.

Lemma rd1_cons b l : rd 1 (b :: l) 0 = Some b.
Proof. unfold rd. rewrite decide_True by (simpl; lia). simpl. f_equal. lia. Qed.

#[local] Ltac Zify.zify_post_hook ::= Z.to_euclidean_division_equations.

Lemma lor_add a b k : 0 <= k -> 0 <= b < 2 ^ k -> Z.lor (Z.shiftl a k) b = b + a * 2 ^ k.
Proof. intros. rewrite Z.lor_comm. by apply lor_shiftl_add. Qed.

Lemma land_ones_mod x n : 0 <= n -> Z.land x (2 ^ n - 1) = x mod 2 ^ n.
Proof. intros. rewrite <- Z.land_ones, Z.ones_equiv by done. done. Qed.

(** [read_baseval] inverts [write_baseval]'s encoding. *)
Lemma read_baseval_spec v rest : 0 <= v < 268435456 ->
  read_baseval (baseval_bytes v ++ rest) = Some (v, rest).
Proof.
  intros Hv. unfold baseval_bytes.
  destruct (Z.ltb_spec v 128); [|destruct (Z.ltb_spec v 16384); [|destruct (Z.ltb_spec v 2097152)]];
    unfold read_baseval; cbn [app]; rewrite ?rd_cons, ?rd1_cons; cbn [mbind option_bind].
  - by replace (v <? 128) with true by lia.
  - replace (v / 256 + 128 <? 128) with false by lia.
    replace (v / 256 + 128 <? 192) with true by lia. rewrite ?rd_cons, ?rd1_cons. cbn [mbind option_bind].
    rewrite (lor_add _ _ 8) by (change (2 ^ 8) with 256; lia). change (2 ^ 8) with 256.
    change 16383 with (2 ^ 14 - 1). rewrite land_ones_mod by lia. change (2 ^ 14) with 16384.
    simpl drop. do 2 f_equal; lia.
  - replace (v / 65536 + 192 <? 128) with false by lia.
    replace (v / 65536 + 192 <? 192) with false by lia.
    replace (v / 65536 + 192 <? 224) with true by lia.
    rewrite ?rd_cons, ?rd1_cons. cbn [mbind option_bind].
    rewrite <- Z.lor_assoc, (lor_add _ _ 8) by (change (2 ^ 8) with 256; lia). change (2 ^ 8) with 256.
    rewrite (lor_add _ _ 16) by (change (2 ^ 16) with 65536; lia). change (2 ^ 16) with 65536.
    change 2097151 with (2 ^ 21 - 1). rewrite land_ones_mod by lia. change (2 ^ 21) with 2097152.
    simpl drop. do 2 f_equal; lia.
  - replace (v / 16777216 + 224 <? 128) with false by lia.
    replace (v / 16777216 + 224 <? 192) with false by lia.
    replace (v / 16777216 + 224 <? 224) with false by lia.
    replace (v / 16777216 + 224 <? 240) with true by lia.
    rewrite ?rd_cons, ?rd1_cons. cbn [mbind option_bind].
    rewrite <- !Z.lor_assoc, (lor_add _ _ 8) by (change (2 ^ 8) with 256; lia). change (2 ^ 8) with 256.
    rewrite (lor_add _ _ 16) by (change (2 ^ 16) with 65536; lia). change (2 ^ 16) with 65536.
    rewrite (lor_add _ _ 24) by (change (2 ^ 24) with 16777216; lia). change (2 ^ 24) with 16777216.
    change 268435455 with (2 ^ 28 - 1). rewrite land_ones_mod by lia. change (2 ^ 28) with 268435456.
    simpl drop. do 2 f_equal; lia.
Qed.

Lemma vb_bytes_first v : 0 <= v -> exists b l, vb_bytes v = b :: l /\ b <> 255.
Proof.
  intros Hv. unfold vb_bytes. repeat case_match; eexists _, _; (split; [reflexivity|]); lia.
Qed.

Lemma vb_bytes_byte v : 0 <= v -> Forall is_byte (vb_bytes v).
Proof.
  intros Hv. unfold vb_bytes. repeat case_match; repeat constructor; try apply le_bytes_byte;
    unfold is_byte; try lia.
Qed.

(** [read_vb] inverts [write_vb]'s encoding. *)
Lemma read_vb_spec v rest : 0 <= v < 2 ^ 32 -> read_vb (vb_bytes v ++ rest) = Some (v, rest).
Proof.
  change (2 ^ 32) with 4294967296. intros Hv. unfold vb_bytes.
  destruct (Z.leb_spec v 176); [|destruct (Z.leb_spec v 16560);
    [|destruct (Z.leb_spec v 540848); [|destruct (Z.leb_spec v 16777215)]]];
    unfold read_vb; cbn [app]; rewrite ?rd_cons, ?rd1_cons; cbn [mbind option_bind].
  - by replace (v <=? 176) with true by lia.
  - replace ((v - 177) / 256 + 177 <=? 176) with false by lia.
    replace ((v - 177) / 256 + 177 <=? 240) with true by lia.
    rewrite ?rd_cons, ?rd1_cons. cbn [mbind option_bind].
    rewrite (lor_add _ _ 8) by (change (2 ^ 8) with 256; lia). change (2 ^ 8) with 256.
    simpl drop. do 2 f_equal; lia.
  - replace ((v - 16561) / 65536 + 241 <=? 176) with false by lia.
    replace ((v - 16561) / 65536 + 241 <=? 240) with false by lia.
    replace ((v - 16561) / 65536 + 241 <=? 248) with true by lia.
    rewrite ?rd_cons, rd_here by apply length_le_bytes. cbn [mbind option_bind].
    rewrite le_val_le_bytes. change (256 ^ Z.of_nat 2) with 65536.
    rewrite (lor_add _ _ 16) by (change (2 ^ 16) with 65536; lia). change (2 ^ 16) with 65536.
    replace ((v - 16561) mod 65536 + ((v - 16561) / 65536 + 241 - 241) * 65536 + 16561) with v by lia.
    done.
  - cbn [Z.leb Z.compare Pos.compare Pos.compare_cont]. change (249 <=? 176) with false.
    change (249 <=? 240) with false. change (249 <=? 248) with false. change (249 =? 249) with true.
    cbv iota. cbn [le_bytes app]. rewrite ?rd_cons, ?rd1_cons. cbn [mbind option_bind].
    rewrite <- Z.lor_assoc, (Z.lor_comm (v mod 256)), <- Z.lor_assoc. simpl drop. do 2 f_equal.
    rewrite (Z.lor_comm _ (v mod 256)), Z.lor_assoc, (Z.lor_comm (Z.shiftl _ 8)).
    rewrite (lor_shiftl_add _ _ 8) by (change (2 ^ 8) with 256; lia). change (2 ^ 8) with 256.
    rewrite (lor_shiftl_add _ _ 16) by (change (2 ^ 16) with 65536; lia). change (2 ^ 16) with 65536.
    rewrite Z.div_div by lia. lia.
  - change (250 <=? 176) with false.
    change (250 <=? 240) with false. change (250 <=? 248) with false. change (250 =? 249) with false.
    change (250 =? 250) with true. cbv iota. rewrite ?rd_cons, rd_here by apply length_le_bytes.
    cbn [mbind option_bind]. rewrite le_val_le_bytes_small by (change (256 ^ Z.of_nat 4) with 4294967296; lia).
    change 5%nat with (S 4). cbn [drop]. by rewrite drop_app_length' by (by rewrite length_le_bytes).
Qed.

Lemma header_parse t b : (b < 64)%nat ->
  Z.to_nat (Z.land (header t b) 63) = b /\ Z.shiftr (header t b) 6 = block_type_to_Z t.
Proof.
  intros Hb. unfold header. change 63 with (2 ^ 6 - 1). rewrite land_ones_mod by lia.
  rewrite Z.shiftr_div_pow2 by lia. change (2 ^ 6) with 64.
  assert (0 <= block_type_to_Z t <= 3) by (destruct t; simpl; lia). split; lia.
Qed.

#[local] Ltac Zify.zify_post_hook ::= idtac.

Lemma read_bit_width_header t b l : (b <= 32)%nat -> read_bit_width (header t b :: l) = Some (b, l).
Proof.
  intros Hb. unfold read_bit_width. cbn [next_byte mbind option_bind].
  destruct (header_parse t b) as [-> _]; [lia|]. by rewrite decide_True.
Qed.

(** ** Constant and FOR blocks *)

Lemma length_delta_decode l : forall prev, length (delta_decode prev l) = length l.
Proof. induction l; intros; simpl; auto. Qed.

Lemma delta_decode_app l k : forall prev,
  delta_decode prev (l ++ k) = delta_decode prev l ++ delta_decode (List.last (delta_decode prev l) prev) k.
Proof.
  induction l as [|v l IH]; intros prev; [done|]. cbn [app delta_decode]. rewrite IH.
  cbn [app]. do 3 f_equal. destruct l; [done|]. cbn [delta_decode List.last]. 
  generalize (u32 (v + prev + 1)) as p. intros p.
  generalize (delta_decode (u32 (z + p + 1)) l) as dl. generalize (u32 (z + p + 1)) as y.
  clear. intros y dl. revert y. induction dl as [|a dl IH]; intros y; [done|]. cbn. apply IH.
Qed.

Lemma constant_loop_delta num v : forall prev,
  constant_loop num v prev = delta_decode prev (repeat v num).
Proof. induction num as [|num IH]; intros prev; simpl; [done|]. by rewrite IH. Qed.

Lemma for_loop_delta num : forall bs prev vals,
  read_all bs num = Some vals -> for_loop bs num prev = Some (delta_decode prev vals).
Proof.
  induction num as [|num IH]; intros bs prev vals H; simpl in H; [by injection H as <-|].
  apply bind_Some in H as ((v & bs') & H1 & H). apply bind_Some in H as (vs & H2 & H).
  injection H as <-. cbn [for_loop]. rewrite H1. cbn [mbind option_bind].
  by rewrite (IH _ _ _ H2).
Qed.

Lemma decode_constant_spec b v num prev rest :
  (b <= 32)%nat -> fits b [v] -> slop rest ->
  decode_constant (header CONSTANT b :: le_bytes (div_round_up b 8) v ++ rest) num prev
  = Some (delta_decode prev (repeat v num), rest).
Proof.
  intros Hb F [Hr Hl]. apply Forall_cons in F as [Hv _].
  unfold decode_constant. cbn [next_byte mbind option_bind].
  destruct (header_parse CONSTANT b) as [-> _]; [lia|].
  assert (Hk : (b <= 8 * div_round_up b 8)%nat /\ (div_round_up b 8 <= 4)%nat).
  { pose proof (bytes_for_packed_bits_bounds 1 b) as H. unfold bytes_for_packed_bits in H.
    rewrite Nat.mul_1_l in H. lia. }
  rewrite rd_slice by (first [apply Forall_app; split; [apply le_bytes_byte|done]|
    rewrite length_app; lia]).
  cbn [mbind option_bind].
  rewrite le_val_app, length_le_bytes, le_val_le_bytes_small.
  2: { split; [lia|]. eapply Z.lt_le_trans; [apply Hv|]. rewrite pow256_pow2.
       apply Z.pow_le_mono_r; lia. }
  assert (Hs : slice (v + 256 ^ Z.of_nat (div_round_up b 8) * le_val rest) 0 b = v).
  { rewrite <- (slice_small v b Hv) at 2. apply (slice_eq_mod _ _ (8 * div_round_up b 8)); [|lia].
    rewrite pow256_pow2, Nat2Z.inj_mul, (Z.mul_comm (2 ^ _)). apply Z_mod_plus_full. }
  assert (Hval : (if (b <? 32)%nat then
      Z.land (slice (v + 256 ^ Z.of_nat (div_round_up b 8) * le_val rest) (8 * 0) (8 * 4)) (mask_for_bits b)
      else slice (v + 256 ^ Z.of_nat (div_round_up b 8) * le_val rest) (8 * 0) (8 * 4)) = v).
  { cbn [Nat.mul Nat.add]. destruct (Nat.ltb_spec b 32).
    - rewrite land_mask by lia.
      replace (slice _ 0 32 mod _) with
        (slice (slice (v + 256 ^ Z.of_nat (div_round_up b 8) * le_val rest) 0 32) 0 b)
        by (unfold slice at 1; by rewrite Z.div_1_r).
      rewrite slice_slice by lia. exact Hs.
    - assert (b = 32%nat) as -> by lia. exact Hs. }
  rewrite Hval, advance_app by apply length_le_bytes. cbn [mbind option_bind].
  by rewrite constant_loop_delta.
Qed.

Lemma bitmap_repr_read b vals body rest :
  (b <= 24)%nat -> fits b vals -> bitmap_repr false b vals body -> slop rest ->
  read_all (BitReader_new (body ++ rest) b) (length vals) = Some vals.
Proof. intros Hb F (_ & _ & ->) [Hr Hl]. apply read_all_spec; auto; lia. Qed.

Lemma bitmap_repr_read_streams b vals body rest :
  (b <= 32)%nat -> fits b vals -> bitmap_repr true b vals body -> slop rest ->
  read_streams 128 (body ++ rest) b = Some vals.
Proof.
  intros Hb F (Hl & Hbytes & Hn & Hm) [Hr Hlen]. unfold read_streams.
  apply (read_interleaved_spec b vals _ 32); auto; [|rewrite length_app; lia].
  intros k Hk j Hj. rewrite <- (Hm k Hk j Hj).
  pose proof (mem_words_len _ _ _ _ _ _ (Hm k Hk) Hj). by apply rd_app_l.
Qed.

Lemma decode_for_spec b vals body rest prev :
  (b <= 24)%nat -> fits b vals -> bitmap_repr false b vals body -> slop rest ->
  decode_for (header FOR b :: body ++ rest) (length vals) prev
  = Some (delta_decode prev vals, rest).
Proof.
  intros Hb F Hrep Hs. unfold decode_for. rewrite read_bit_width_header by lia.
  cbn [mbind option_bind].
  rewrite (for_loop_delta _ _ _ _ (bitmap_repr_read b vals body rest Hb F Hrep Hs)).
  cbn [mbind option_bind]. by rewrite advance_app by apply Hrep.
Qed.

Lemma decode_for_interleaved_spec b vals body rest prev :
  (b <= 32)%nat -> fits b vals -> bitmap_repr true b vals body -> slop rest ->
  decode_for_interleaved_generic 128 (header FOR b :: body ++ rest) prev
  = Some (delta_decode prev vals, rest).
Proof.
  intros Hb F Hrep Hs. unfold decode_for_interleaved_generic. rewrite read_bit_width_header by lia.
  cbn [mbind option_bind]. rewrite (bitmap_repr_read_streams b vals) by done.
  cbn [mbind option_bind]. destruct Hrep as (Hl & _ & Hn & _). rewrite Hn in Hl.
  by rewrite advance_app by done.
Qed.

(** ** Walking a bitmap *)

Lemma pow2_nat_S i : 2 ^ Z.of_nat (S i) = 2 * 2 ^ Z.of_nat i.
Proof. rewrite Nat2Z.inj_succ, Z.pow_succ_r; lia. Qed.

Lemma ffsll_shift i m : 0 <= m -> ffsll (2 ^ Z.of_nat i * (2 * m + 1)) = S i.
Proof.
  intros Hm. destruct m as [|m|m]; [| |lia].
  - induction i as [|i IH]; [done|]. rewrite pow2_nat_S, <- Z.mul_assoc.
    destruct (2 ^ Z.of_nat i * (2 * 0 + 1)) as [|p|p] eqn:E; simpl in IH; try done.
    change (2 * Z.pos p) with (Z.pos (xO p)). simpl. congruence.
  - induction i as [|i IH]; [done|]. rewrite pow2_nat_S, <- Z.mul_assoc.
    destruct (2 ^ Z.of_nat i * (2 * Z.pos m + 1)) as [|p|p] eqn:E; simpl in IH; try done.
    change (2 * Z.pos p) with (Z.pos (xO p)). simpl. congruence.
Qed.

(** [x & (x - 1)] clears the lowest set bit. *)
Lemma clear_lowest i m : 0 <= m ->
  Z.land (2 ^ Z.of_nat i * (2 * m + 1)) (2 ^ Z.of_nat i * (2 * m + 1) - 1)
  = 2 ^ Z.of_nat (S i) * m.
Proof.
  intros Hm. pose proof (pow2_nat_pos i) as Hp.
  assert (Hx : 2 ^ Z.of_nat i * (2 * m + 1) = Z.lor (2 ^ Z.of_nat i) (Z.shiftl m (Z.of_nat (S i)))).
  { rewrite lor_shiftl_add by (rewrite ?pow2_nat_S; lia). rewrite pow2_nat_S. lia. }
  assert (Hy : 2 ^ Z.of_nat i * (2 * m + 1) - 1
               = Z.lor (Z.ones (Z.of_nat i)) (Z.shiftl m (Z.of_nat (S i)))).
  { rewrite lor_shiftl_add by (rewrite ?Z.ones_equiv, ?pow2_nat_S; lia).
    rewrite Z.ones_equiv, pow2_nat_S. lia. }
  rewrite Hy, Hx. clear Hx Hy Hp.
  replace (2 ^ Z.of_nat (S i) * m) with (Z.shiftl m (Z.of_nat (S i)))
    by (rewrite Z.shiftl_mul_pow2 by lia; lia).
  apply Z.bits_inj'. intros n Hn. rewrite Z.land_spec, !Z.lor_spec, Z.shiftl_spec by lia.
  rewrite Z.pow2_bits_eqb, Z.testbit_ones_nonneg by lia.
  destruct (Z.eqb_spec (Z.of_nat i) n), (Z.ltb_spec n (Z.of_nat i)); try lia;
    destruct (Z.testbit m (n - Z.of_nat (S i))); done.
Qed.

(** A sub-range of packed values. *)
Lemma pack_take_drop bits l i m :
  Forall (fun v => 0 <= v < 2 ^ Z.of_nat bits) l -> (i + m <= length l)%nat ->
  slice (pack bits l) (i * bits) (m * bits) = pack bits (take m (drop i l)).
Proof.
  intros F H. rewrite <- (take_drop i l) at 1. rewrite <- (take_drop m (drop i l)) at 1.
  rewrite !pack_app, length_take, Nat.min_l by lia. rewrite (length_take _ m), length_drop, Nat.min_l by lia.
  pose proof (pack_range bits (take i l) (Forall_take _ _ _ F)) as R1.
  pose proof (pack_range bits (take m (drop i l)) (Forall_take _ _ _ (Forall_drop _ _ _ F))) as R2.
  rewrite length_take, Nat.min_l in R1 by lia.
  rewrite length_take, length_drop, Nat.min_l in R2 by lia.
  unfold slice. pose proof (pow2_nat_pos (i * bits)). pose proof (pow2_nat_pos (m * bits)).
  rewrite (Z.mul_comm (2 ^ Z.of_nat (i * bits))), Z_div_plus_full, Z.div_small, Z.add_0_l by lia.
  rewrite (Z.mul_comm (2 ^ Z.of_nat (m * bits))), Z_mod_plus_full. by apply Z.mod_small.
Qed.

Lemma BitReader_read_exc e excs rest bs v l :
  br_inv e (length l) (packed_bytes e excs ++ rest) bs -> (e <= 24)%nat ->
  fits e excs -> Forall is_byte rest -> (4 <= length rest)%nat ->
  forall k, excs = l ++ v :: k ->
  exists bs', BitReader_read bs = Some (v, bs') /\
    br_inv e (length (l ++ [v])) (packed_bytes e excs ++ rest) bs'.
Proof.
  intros Hinv He F Hr Hl k Hk.
  destruct (BitReader_read_step e excs rest (length l) bs v) as (bs' & E & I); auto.
  { rewrite Hk. by apply list_lookup_middle. }
  exists bs'. split; [done|]. rewrite length_app. cbn [length]. by rewrite Nat.add_1_r.
Qed.

Lemma exceptions_of_app b l k : exceptions_of b (l ++ k) = exceptions_of b l ++ exceptions_of b k.
Proof. unfold exceptions_of. by rewrite List.filter_app, List.map_app. Qed.

Lemma exceptions_of_one b v :
  exceptions_of b [v] = if is_exception b v then [high_bits b v] else [].
Proof. unfold exceptions_of. simpl. by destruct (is_exception b v). Qed.

Definition flags (b : nat) (in_ : list Z) : list Z := map (fun v => Z.b2z (is_exception b v)) in_.

Lemma high_bits_not_exception b v : is_exception b v = false -> high_bits b v = 0.
Proof. unfold is_exception. intros H. apply negb_false_iff, Z.eqb_eq in H. done. Qed.

Lemma insert_high l (o : list Z) v : forall x, <[length l := x]> (l ++ v :: o) = l ++ x :: o.
Proof. intros x. rewrite insert_app_r_alt by lia. by rewrite Nat.sub_diag. Qed.

Section Exceptions.
Context (b e : nat) (in_ : list Z) (tail : bytes).
Context (He : (e <= 24)%nat) (F : fits (b + e) in_) (Hs : slop tail).
Let input := packed_bytes e (exceptions_of b in_) ++ tail.

(** [ws] are the values of the current word still to be examined, the first of
    them at bit [k]. *)
Lemma exceptions_loop_spec ws : forall fuel k i pre post bs,
  in_ = pre ++ ws ++ post -> length pre = (i + k)%nat -> (length ws <= fuel)%nat ->
  br_inv e (length (exceptions_of b pre)) input bs ->
  exists bs', exceptions_loop fuel (2 ^ Z.of_nat k * pack 1 (flags b ws)) i bs
      (length (exceptions_of b pre))
      (map (high_bits b) pre ++ repeat 0 (length ws + length post))
    = Some (bs', length (exceptions_of b (pre ++ ws)),
            map (high_bits b) (pre ++ ws) ++ repeat 0 (length post)) /\
    br_inv e (length (exceptions_of b (pre ++ ws))) input bs'.
Proof using He F Hs.
  induction ws as [|v ws IH]; intros fuel k i pre post bs Hin Hpre Hfuel Hinv.
  { cbn [flags map pack]. rewrite Z.mul_0_r, !app_nil_r. exists bs. split; [|done].
    by destruct fuel. }
  assert (Hin' : in_ = (pre ++ [v]) ++ ws ++ post) by (by rewrite Hin, <- app_assoc).
  assert (Hpre' : length (pre ++ [v]) = (i + S k)%nat)
    by (rewrite length_app; cbn [length]; lia).
  cbn [flags map pack]. change (2 ^ Z.of_nat 1) with 2.
  change (map (fun v => Z.b2z (is_exception b v)) ws) with (flags b ws).
  assert (Happ : pre ++ v :: ws = (pre ++ [v]) ++ ws) by (by rewrite <- app_assoc).
  rewrite Happ. cbn [length] in Hfuel |- *. destruct (is_exception b v) eqn:Hexc.
  - destruct fuel as [|fuel]; [lia|]. cbn [Z.b2z].
    assert (Hm : 0 <= pack 1 (flags b ws)) by apply (pack_range 1 _ (flags_fit b ws)).
    pose proof (pow2_nat_pos k) as Hp.
    replace (1 + 2 * pack 1 (flags b ws)) with (2 * pack 1 (flags b ws) + 1) by lia.
    cbn [exceptions_loop]. destruct (Z.eqb_spec (2 ^ Z.of_nat k * (2 * pack 1 (flags b ws) + 1)) 0).
    { nia. }
    rewrite ffsll_shift, clear_lowest by done.
    destruct (BitReader_read_exc e (exceptions_of b in_) tail bs (high_bits b v)
      (exceptions_of b pre)) with (k := exceptions_of b (ws ++ post)) as (bs1 & E1 & I1);
      [done|done|by apply exceptions_fit|apply Hs|destruct Hs; lia| |].
    { rewrite Hin, exceptions_of_app. f_equal. change (v :: ws) with ([v] ++ ws).
      rewrite <- app_assoc, exceptions_of_app, exceptions_of_one, Hexc. done. }
    rewrite E1. cbn [mbind option_bind]. replace (S k - 1 + i)%nat with (length pre) by lia.
    rewrite decide_True by (rewrite length_app, length_map, repeat_length; lia).
    replace (length pre) with (length (map (high_bits b) pre)) by apply length_map.
    cbn [Nat.add repeat]. rewrite insert_high.
    assert (Hlen : exceptions_of b (pre ++ [v]) = exceptions_of b pre ++ [high_bits b v])
      by (by rewrite exceptions_of_app, exceptions_of_one, Hexc).
    assert (Hn : S (length (exceptions_of b pre)) = length (exceptions_of b (pre ++ [v]))).
    { rewrite Hlen, length_app. cbn [length]. lia. }
    rewrite Hn. rewrite <- Hlen in I1.
    destruct (IH fuel (S k) i (pre ++ [v]) post bs1) as (bs2 & E2 & I2); auto; [lia|].
    exists bs2. split; [|done]. rewrite <- E2. f_equal.
    rewrite map_app. cbn [map]. by rewrite <- app_assoc.
  - cbn [Z.b2z]. rewrite Z.add_0_l.
    replace (2 ^ Z.of_nat k * (2 * pack 1 (flags b ws)))
      with (2 ^ Z.of_nat (S k) * pack 1 (flags b ws)) by (rewrite pow2_nat_S; lia).
    assert (Hlen : exceptions_of b (pre ++ [v]) = exceptions_of b pre)
      by (by rewrite exceptions_of_app, exceptions_of_one, Hexc, app_nil_r).
    destruct (IH fuel (S k) i (pre ++ [v]) post bs) as (bs2 & E2 & I2); auto;
      [lia|by rewrite Hlen|].
    exists bs2. split; [|done]. rewrite <- E2, Hlen. f_equal.
    rewrite map_app. cbn [map]. rewrite high_bits_not_exception by done.
    by rewrite <- app_assoc.
Qed.
End Exceptions.

Lemma flags_length b l : length (flags b l) = length l.
Proof. apply length_map. Qed.

Lemma flags_app b l k : flags b (l ++ k) = flags b l ++ flags b k.
Proof. apply List.map_app. Qed.

(** The bits of the bitmap for the [m] values after the first [i]. *)
Lemma bitmap_slice b pre ws post R :
  Forall is_byte R ->
  slice (le_val (packed_bytes 1 (flags b (pre ++ ws ++ post)) ++ R)) (length pre) (length ws)
  = pack 1 (flags b ws).
Proof.
  intros HR. rewrite slice_packed by (rewrite flags_length, !length_app; lia).
  pose proof (pack_take_drop 1 (flags b (pre ++ ws ++ post)) (length pre) (length ws)) as H.
  rewrite !Nat.mul_1_r in H. rewrite H; [|apply flags_fit|rewrite flags_length, !length_app; lia].
  rewrite !flags_app. rewrite drop_app_length' by by rewrite flags_length.
  by rewrite take_app_length' by by rewrite flags_length.
Qed.

(** The word the outer loop works on. *)
Lemma bitmap_word b pre ws post R w :
  Forall is_byte R -> (8 <= length R)%nat -> length pre = (64 * w)%nat ->
  length ws = Nat.min 64 (length (ws ++ post)) -> (0 < length ws)%nat ->
  exists x, rd 8 (drop (8 * w) (packed_bytes 1 (flags b (pre ++ ws ++ post)) ++ R)) 0 = Some x /\
    (if (length (pre ++ ws ++ post) - length pre <? 64)%nat
     then Z.land x (u64 (Z.shiftl 1 (Z.of_nat (length (pre ++ ws ++ post) - length pre))) - 1)
     else x) = pack 1 (flags b ws).
Proof.
  intros HR HRl Hpre Hws Hpos.
  assert (HB : Forall is_byte (packed_bytes 1 (flags b (pre ++ ws ++ post)) ++ R)).
  { apply Forall_app. split; [apply packed_bytes_byte|done]. }
  pose proof (bytes_for_packed_bits_bounds (length (flags b (pre ++ ws ++ post))) 1) as Hbb.
  rewrite flags_length, !length_app in Hbb. rewrite length_app in Hws.
  rewrite rd_slice; [|by apply Forall_drop|
    rewrite length_drop, length_app, length_packed_bytes, flags_length, !length_app; lia].
  eexists. split; [done|]. rewrite le_val_drop by done.
  pose proof (bitmap_slice b pre ws post R HR) as Hs. rewrite Hpre in Hs.
  assert (Hword : slice (le_val (packed_bytes 1 (flags b (pre ++ ws ++ post)) ++ R)
      / 256 ^ Z.of_nat (8 * w)) (8 * 0) (8 * 8)
    = slice (le_val (packed_bytes 1 (flags b (pre ++ ws ++ post)) ++ R)) (64 * w) 64).
  { unfold slice. rewrite pow256_pow2. cbn [Nat.mul Nat.add]. change (2 ^ Z.of_nat 0) with 1.
    rewrite Z.div_1_r. do 3 f_equal. lia. }
  rewrite Hword. clear Hword. rewrite !length_app.
  replace (length pre + (length ws + length post) - length pre)%nat
    with (length ws + length post)%nat by lia.
  destruct (Nat.ltb_spec (length ws + length post) 64).
  - assert (length post = 0)%nat as -> by lia. rewrite Nat.add_0_r.
    rewrite Z.shiftl_1_l, u64_small.
    2: { split; [lia|]. apply Z.pow_lt_mono_r; lia. }
    rewrite land_ones_mod by lia.
    replace (slice _ _ _ mod _) with (slice (slice (le_val (packed_bytes 1 (flags b (pre ++ ws ++ post))
      ++ R)) (64 * w) 64) 0 (length ws)) by (unfold slice at 1; by rewrite Z.div_1_r).
    rewrite slice_slice by lia. by rewrite Nat.add_0_r.
  - assert (length ws = 64)%nat as Hw64 by lia. rewrite Hw64 in Hs. exact Hs.
Qed.

Lemma div_round_up_words n : (0 < n)%nat ->
  div_round_up n 64 = S (div_round_up (n - 64) 64).
Proof.
  intros H. unfold div_round_up. destruct (decide (64 <= n)%nat).
  - replace (n + 64 - 1)%nat with (1 * 64 + (n - 64 + 64 - 1))%nat by lia.
    rewrite Nat.div_add_l by lia. lia.
  - replace (n - 64)%nat with 0%nat by lia. symmetry.
    apply (Nat.div_unique _ _ _ (n - 1)); simpl; lia.
Qed.

Lemma bitmap_loop_step words ptr i num bs n out x y bs' n' out' :
  rd 8 ptr 0 = Some x ->
  (if (num - i <? 64)%nat then Z.land x (u64 (Z.shiftl 1 (Z.of_nat (num - i))) - 1) else x) = y ->
  exceptions_loop 64 y i bs n out = Some (bs', n', out') ->
  bitmap_loop (S words) ptr i num bs n out = bitmap_loop words (drop 8 ptr) (i + 64) num bs' n' out'.
Proof. intros E1 <- E2. cbn [bitmap_loop]. rewrite E1. cbv beta iota delta [mbind option_bind]. rewrite E2. reflexivity. Qed.

Section BitmapLoop.
Context (b e : nat) (in_ : list Z) (tail : bytes).
Context (He : (e <= 24)%nat) (F : fits (b + e) in_) (Hs : slop tail).
Let input := packed_bytes e (exceptions_of b in_) ++ tail.
Let bitmap := packed_bytes 1 (flags b in_) ++ input.

#[local] Lemma input_bytes : Forall is_byte input.
Proof using Hs. apply Forall_app. split; [apply packed_bytes_byte|apply Hs]. Qed.

Lemma bitmap_loop_spec words : forall w pre ws bs,
  in_ = pre ++ ws -> (ws = [] \/ length pre = (64 * w)%nat) -> words = div_round_up (length ws) 64 ->
  br_inv e (length (exceptions_of b pre)) input bs ->
  bitmap_loop words (drop (8 * w) bitmap) (64 * w) (length in_) bs
    (length (exceptions_of b pre)) (map (high_bits b) pre ++ repeat 0 (length ws))
  = Some (length (exceptions_of b in_), map (high_bits b) in_).
Proof using He F Hs.
  induction words as [|words IH]; intros w pre ws bs Hin Hpre Hwords Hinv.
  - cbn [bitmap_loop]. assert (ws = []) as ->.
    { destruct ws; [done|]. rewrite div_round_up_words in Hwords by (cbn [length]; lia). lia. }
    by rewrite Hin, !app_nil_r.
  - destruct Hpre as [->|Hpre]; [done|].
    destruct (decide (length ws = 0)%nat) as [H0|H0].
    { rewrite H0 in Hwords. done. }
    rewrite div_round_up_words in Hwords by lia. apply Nat.succ_inj in Hwords.
    set (w1 := take 64 ws). set (w2 := drop 64 ws).
    assert (Hws : ws = w1 ++ w2) by (symmetry; apply take_drop).
    assert (Hl1 : length w1 = Nat.min 64 (length ws)) by apply length_take.
    assert (Hl2 : length w2 = (length ws - 64)%nat) by apply length_drop.
    destruct (bitmap_word b pre w1 w2 input w) as (x & Ex & Hx); auto.
    { apply input_bytes. }
    { unfold input. rewrite length_app. destruct Hs. lia. }
    { by rewrite <- Hws. }
    { lia. }
    rewrite <- Hws, <- Hin in Ex, Hx. fold bitmap in Ex.
    assert (Hin3 : in_ = pre ++ w1 ++ w2) by (by rewrite Hin, Hws).
    destruct (exceptions_loop_spec b e in_ tail He F Hs w1 64 0 (length pre) pre w2 bs)
      as (bs' & E & I); auto; try lia.
    rewrite Z.mul_1_l, <- length_app, <- Hws, Hpre in E. rewrite Hpre in Hx.
    rewrite (bitmap_loop_step _ _ _ _ _ _ _ _ _ _ _ _ Ex Hx E).
    clearbody w1 w2. rewrite drop_drop, <- !Nat.mul_succ_r.
    refine (IH (S w) (pre ++ w1) w2 bs' _ _ _ I).
    + by rewrite <- app_assoc.
    + destruct w2 as [|z w2]; [by left|right]. rewrite length_app.
      cbn [length] in Hl2. clear - Hl1 Hl2 Hpre. lia.
    + rewrite Hl2. exact Hwords.
Qed.

(** The bitmap, then the exceptions, scattered over a zeroed block. *)
Lemma decode_pfor_bitmap_exceptions_spec :
  decode_pfor_bitmap_exceptions (Z.of_nat e :: bitmap) (length in_) (repeat 0 (length in_))
  = Some (map (high_bits b) in_, tail).
Proof using He F Hs.
  unfold decode_pfor_bitmap_exceptions. cbn [next_byte mbind option_bind].
  rewrite Nat2Z.id, decide_True by lia. unfold bitmap at 2.
  rewrite advance_app.
  2: { rewrite length_packed_bytes, flags_length. unfold bytes_for_packed_bits.
       by rewrite Nat.mul_1_r. }
  cbn [mbind option_bind].
  pose proof (bitmap_loop_spec (div_round_up (length in_) 64) 0 [] in_ (BitReader_new input e)) as H.
  rewrite drop_0 in H. change (64 * 0)%nat with 0%nat in H. cbn [map app] in H.
  change (length (exceptions_of b [])) with 0%nat in H. rewrite H; auto.
  2: { apply br_inv_init. }
  cbn [mbind option_bind]. unfold input. rewrite advance_app by apply length_packed_bytes. done.
Qed.
End BitmapLoop.

(** ** PFor blocks *)

(** A value below 2^24 is its high part shifted, or its low part. *)
Lemma join_bits b v : (b <= 24)%nat -> 0 <= v < 2 ^ 24 ->
  shl32 (high_bits b v) b = Some (high_bits b v * 2 ^ Z.of_nat b) /\
  Z.lor (high_bits b v * 2 ^ Z.of_nat b) (low_bits b v) = v /\
  Z.lor (low_bits b v) (high_bits b v * 2 ^ Z.of_nat b) = v.
Proof.
  intros Hb Hv. unfold high_bits, low_bits, shl32. rewrite Z.shiftr_div_pow2 by lia.
  pose proof (pow2_nat_pos b) as Hp. pose proof (Z.div_mod v (2 ^ Z.of_nat b)) as Hdm.
  pose proof (Z.mod_pos_bound v (2 ^ Z.of_nat b) Hp) as Hm.
  assert (Hd : 0 <= v / 2 ^ Z.of_nat b) by (apply Z.div_pos; lia).
  revert Hdm Hm Hd. generalize (v / 2 ^ Z.of_nat b) (v mod 2 ^ Z.of_nat b). intros d r Hdm Hm Hd.
  rewrite decide_True by lia. rewrite Z.shiftl_mul_pow2 by lia.
  change (2 ^ 24) with 16777216 in Hv.
  rewrite u32_small by (unfold is_u32; change (2 ^ 32) with 4294967296; nia).
  split; [done|]. rewrite (Z.lor_comm _ r). rewrite lor_high by lia.
  assert (v = r + d * 2 ^ Z.of_nat b) by lia. done.
Qed.

Lemma pfor_loop_delta b : forall vals out bs prev, (b <= 24)%nat -> fits 24 vals ->
  out = map (high_bits b) vals -> read_all bs (length vals) = Some (map (low_bits b) vals) ->
  pfor_loop out b bs prev = Some (delta_decode prev vals).
Proof.
  induction vals as [|v vals IH]; intros out bs prev Hb F -> H; [done|].
  apply Forall_cons in F as [Hv F]. cbn [length read_all] in H.
  apply bind_Some in H as ((w & bs') & E & H). apply bind_Some in H as (vs & E' & H).
  cbn [map] in H. injection H as -> ->. cbn [map pfor_loop]. rewrite E. cbn [mbind option_bind].
  destruct (join_bits b v Hb Hv) as (-> & Hj & _). cbn [mbind option_bind]. rewrite Hj.
  by rewrite (IH _ _ _ Hb F eq_refl E').
Qed.

Lemma or_shifted_join b vals : (b <= 24)%nat -> fits 24 vals ->
  or_shifted (map (low_bits b) vals) (map (high_bits b) vals) b = Some vals.
Proof.
  intros Hb. induction 1 as [|v vals Hv F IH]; [done|]. cbn [map or_shifted].
  destruct (join_bits b v Hb Hv) as (-> & _ & Hj). cbn [mbind option_bind].
  rewrite IH. cbn [mbind option_bind]. by rewrite Hj.
Qed.

Lemma fits_mono b c l : (b <= c)%nat -> fits b l -> fits c l.
Proof.
  intros H F. apply (Forall_impl _ _ _ F). intros v [H0 H1]. split; [done|].
  eapply Z.lt_le_trans; [exact H1|]. apply Z.pow_le_mono_r; lia.
Qed.

Lemma decode_pfor_bitmap_spec b e in_ body rest prev :
  (b + e <= 24)%nat -> fits (b + e) in_ -> bitmap_repr false b (map (low_bits b) in_) body ->
  slop rest ->
  decode_pfor_bitmap (header PFOR_BITMAP b :: Z.of_nat e :: packed_bytes 1 (flags b in_) ++
    packed_bytes e (exceptions_of b in_) ++ body ++ rest) (length in_) prev
  = Some (delta_decode prev in_, rest).
Proof.
  intros Hb F Hrep Hs. unfold decode_pfor_bitmap. rewrite read_bit_width_header by lia.
  cbn [mbind option_bind]. destruct Hrep as (Hl & HB & Hbody).
  rewrite (decode_pfor_bitmap_exceptions_spec b e in_ (body ++ rest));
    [|lia|done|by apply slop_app].
  cbn [mbind option_bind].
  rewrite (pfor_loop_delta b in_); auto; [|lia|eapply fits_mono; [|done]; lia|].
  - cbn [mbind option_bind]. rewrite length_map in Hl. by rewrite advance_app.
  - pose proof (bitmap_repr_read b (map (low_bits b) in_) body rest) as Hr.
    rewrite length_map in Hr. apply Hr; [lia|apply low_bits_fits|done|done].
Qed.

Lemma decode_pfor_bitmap_interleaved_spec b e in_ body rest prev :
  (b + e <= 24)%nat -> fits (b + e) in_ -> bitmap_repr true b (map (low_bits b) in_) body ->
  slop rest ->
  decode_pfor_bitmap_interleaved_generic 128 (header PFOR_BITMAP b :: Z.of_nat e ::
    packed_bytes 1 (flags b in_) ++ packed_bytes e (exceptions_of b in_) ++ body ++ rest) prev
  = Some (delta_decode prev in_, rest).
Proof.
  intros Hb F Hrep Hs. unfold decode_pfor_bitmap_interleaved_generic.
  pose proof Hrep as (Hl & HB & Hn & _). rewrite length_map in Hn.
  rewrite read_bit_width_header by lia. cbn [mbind option_bind].
  pose proof (decode_pfor_bitmap_exceptions_spec b e in_ (body ++ rest)) as Hex.
  rewrite Hn in Hex. rewrite Hex; [|lia|done|by apply slop_app].
  cbn [mbind option_bind].
  rewrite (bitmap_repr_read_streams b (map (low_bits b) in_)) by
    (first [apply low_bits_fits | done | lia]).
  cbn [mbind option_bind]. rewrite or_shifted_join by (first [lia | eapply fits_mono; [|done]; lia]).
  cbn [mbind option_bind]. rewrite length_map, Hn in Hl. by rewrite advance_app.
Qed.

(** ** Variable-byte exceptions *)

Lemma read_vbs_spec vs rest : Forall is_u32 vs ->
  read_vbs (length vs) (concat (map vb_bytes vs) ++ rest) = Some (vs, rest).
Proof.
  induction 1 as [|v vs Hv F IH]; [done|]. cbn [length map concat read_vbs].
  rewrite <- app_assoc, read_vb_spec by done. cbn [mbind option_bind].
  by rewrite IH.
Qed.

Lemma vbs_first vs l : Forall is_u32 vs -> (exists b l', l = b :: l' /\ b <> 255) ->
  exists b l', concat (map vb_bytes vs) ++ l = b :: l' /\ b <> 255.
Proof.
  intros F Hl. destruct F as [|v vs Hv F]; [done|]. cbn [map concat].
  destruct (vb_bytes_first v) as (b & k & E & Hb); [apply Hv|].
  rewrite <- app_assoc, E. cbn [app]. eauto.
Qed.

(** Putting the exceptions back. *)
Lemma apply_exceptions_spec b ws : forall pre rest,
  (b <= 24)%nat -> fits 24 ws -> Z.of_nat (length (pre ++ ws)) <= 256 ->
  apply_exceptions (exceptions_of b ws) b (exception_indexes (Z.of_nat (length pre)) b ws ++ rest)
    (pre ++ map (low_bits b) ws) = Some (pre ++ ws, rest).
Proof.
  induction ws as [|v ws IH]; intros pre rest Hb F Hlen; [done|].
  apply Forall_cons in F as [Hv F]. destruct (join_bits b v Hb Hv) as (Hs & _ & Hj).
  assert (Happ : pre ++ v :: ws = (pre ++ [v]) ++ ws) by (by rewrite <- app_assoc).
  assert (Hn : Z.of_nat (length pre) + 1 = Z.of_nat (length (pre ++ [v]))).
  { rewrite length_app. cbn [length]. lia. }
  assert (Hexc : exceptions_of b (v :: ws) = exceptions_of b [v] ++ exceptions_of b ws)
    by apply (exceptions_of_app b [v] ws).
  rewrite Hexc, exceptions_of_one. cbn [exception_indexes].
  rewrite Happ in Hlen |- *. destruct (is_exception b v) eqn:He.
  - cbn [app apply_exceptions next_byte mbind option_bind]. rewrite Nat2Z.id. cbn [map].
    rewrite list_lookup_middle by done. cbn [mbind option_bind]. rewrite Hs. cbn [mbind option_bind].
    rewrite insert_high, Hj, Hn.
    replace (pre ++ v :: map (low_bits b) ws) with ((pre ++ [v]) ++ map (low_bits b) ws)
      by (by rewrite <- app_assoc).
    by apply IH.
  - cbn [app map]. rewrite high_bits_not_exception in Hj by done.
    rewrite Z.mul_0_l, Z.lor_0_r in Hj. rewrite Hj, Hn.
    replace (pre ++ v :: map (low_bits b) ws) with ((pre ++ [v]) ++ map (low_bits b) ws)
      by (by rewrite <- app_assoc).
    by apply IH.
Qed.

Lemma exception_indexes_byte b in_ : forall i, 0 <= i -> i + Z.of_nat (length in_) <= 128 ->
  Forall (fun x => 0 <= x < 128) (exception_indexes i b in_).
Proof.
  induction in_ as [|v in_ IH]; intros i Hi H; cbn [exception_indexes]; [constructor|].
  cbn [length] in H. case_match; [constructor; [lia|]|]; apply IH; lia.
Qed.

Lemma exceptions_u32 b in_ : fits 24 in_ -> Forall is_u32 (exceptions_of b in_).
Proof.
  intros F. assert (fits (b + 24) in_) as F' by (eapply fits_mono; [|done]; lia).
  apply (fits_u32 24); [lia|]. by apply (exceptions_fit b 24).
Qed.

(** The part after the base values, common to both variable-byte decoders. *)
Lemma vb_tail_spec b in_ rest :
  (b <= 24)%nat -> fits 24 in_ -> (length in_ <= 128)%nat -> exceptions_of b in_ <> [] ->
  exists in', read_exceptions 128 (length (exceptions_of b in_))
    (concat (map vb_bytes (exceptions_of b in_)) ++ exception_indexes 0 b in_ ++ rest)
    = Some (exceptions_of b in_, in') /\
  apply_exceptions (exceptions_of b in_) b in' (map (low_bits b) in_) = Some (in_, rest).
Proof.
  intros Hb F Hlen Hne. pose proof (exceptions_u32 b in_ F) as Hu.
  pose proof (length_exceptions_le b in_) as Hle.
  exists (exception_indexes 0 b in_ ++ rest).
  split; [|apply (apply_exceptions_spec b in_ [] rest); auto; simpl; lia].
  unfold read_exceptions.
  destruct (exceptions_of b in_) as [|v vs] eqn:Hexc; [done|].
  pose proof (proj1 (proj1 (Forall_cons _ _ _) Hu)) as Hv.
  destruct (vb_bytes_first v) as (b0 & k & E & Hb0); [apply Hv|].
  assert (Hrd : rd 1 (concat (map vb_bytes (v :: vs)) ++ exception_indexes 0 b in_ ++ rest) 0 = Some b0).
  { cbn [map concat]. rewrite E. apply rd1_cons. }
  rewrite Hrd. cbn [mbind option_bind]. rewrite decide_True by lia.
  replace (b0 =? 255) with false by lia. by rewrite read_vbs_spec.
Qed.

Lemma vb_tail_slop b in_ rest : fits 24 in_ -> (length in_ <= 128)%nat -> slop rest ->
  slop (concat (map vb_bytes (exceptions_of b in_)) ++ exception_indexes 0 b in_ ++ rest).
Proof.
  intros F Hlen Hs. rewrite app_assoc. apply slop_app; [|done]. apply Forall_app. split.
  - apply Forall_concat, Forall_map. apply (Forall_impl _ _ _ (exceptions_u32 b in_ F)).
    intros v Hv. apply vb_bytes_byte, Hv.
  - pose proof (exception_indexes_byte b in_ 0 ltac:(lia) ltac:(lia)) as H.
    apply (Forall_impl _ _ _ H). intros x Hx. unfold is_byte. lia.
Qed.

Lemma decode_pfor_vb_spec b in_ body rest prev :
  (b <= 24)%nat -> fits 24 in_ -> (length in_ <= 128)%nat -> exceptions_of b in_ <> [] ->
  bitmap_repr false b (map (low_bits b) in_) body -> slop rest ->
  decode_pfor_vb 128 (header PFOR_VB b :: Z.of_nat (length (exceptions_of b in_)) :: body ++
    concat (map vb_bytes (exceptions_of b in_)) ++ exception_indexes 0 b in_ ++ rest)
    (length in_) prev = Some (delta_decode prev in_, rest).
Proof.
  intros Hb F Hlen Hne Hrep Hs. unfold decode_pfor_vb. rewrite read_bit_width_header by lia.
  cbn [mbind option_bind next_byte]. rewrite Nat2Z.id.
  pose proof (bitmap_repr_read b (map (low_bits b) in_) body _ Hb (low_bits_fits _ _) Hrep
    (vb_tail_slop b in_ rest F Hlen Hs)) as Hr. rewrite length_map in Hr. rewrite Hr.
  cbn [mbind option_bind]. destruct Hrep as (Hl & _). rewrite length_map in Hl.
  rewrite advance_app by done. cbn [mbind option_bind].
  destruct (vb_tail_spec b in_ rest Hb F Hlen Hne) as (in' & E1 & E2).
  rewrite E1. cbn [mbind option_bind]. by rewrite E2.
Qed.

Lemma decode_pfor_vb_interleaved_spec b in_ body rest prev :
  (b <= 24)%nat -> fits 24 in_ -> exceptions_of b in_ <> [] ->
  bitmap_repr true b (map (low_bits b) in_) body -> slop rest ->
  decode_pfor_vb_interleaved_generic 128 (header PFOR_VB b ::
    Z.of_nat (length (exceptions_of b in_)) :: body ++
    concat (map vb_bytes (exceptions_of b in_)) ++ exception_indexes 0 b in_ ++ rest) prev
  = Some (delta_decode prev in_, rest).
Proof.
  intros Hb F Hne Hrep Hs. unfold decode_pfor_vb_interleaved_generic.
  rewrite read_bit_width_header by lia. cbn [mbind option_bind next_byte]. rewrite Nat2Z.id.
  pose proof Hrep as (Hl & _ & Hn & _). rewrite length_map in Hn.
  rewrite (bitmap_repr_read_streams b (map (low_bits b) in_)); auto;
    [|lia|apply low_bits_fits|apply vb_tail_slop; auto; lia].
  cbn [mbind option_bind]. rewrite length_map, Hn in Hl.
  rewrite advance_app by done. cbn [mbind option_bind].
  destruct (vb_tail_spec b in_ rest Hb F ltac:(lia) Hne) as (in' & E1 & E2).
  rewrite E1. cbn [mbind option_bind]. by rewrite E2.
Qed.

(** ** Blocks and lists *)

(** Whatever layout was chosen, the decoder reads the block back and stops
    right after it. *)
Lemma decode_block_spec interleaved in_ enc rest prev :
  block_repr interleaved in_ enc -> fits 24 in_ -> in_ <> [] ->
  (interleaved = true -> length in_ = 128%nat) ->
  (interleaved = false -> (length in_ < 128)%nat) -> slop rest ->
  decode_block 128 (enc ++ rest) (length in_) true prev = Some (delta_decode prev in_, rest).
Proof.
  intros Hrep F Hne Hil Hnil Hs.
  assert (Hw : true && (length in_ =? 128)%nat = interleaved).
  { destruct interleaved; [by rewrite Hil|]. apply Nat.eqb_neq. specialize (Hnil eq_refl). lia. }
  unfold decode_block. rewrite Hw. clear Hw.
  destruct Hrep as [b v Hb Fv Hin|b body Hb Fb Hr|b e body Hb Fb Hr|b body Hb Hlen Hex Hr];
    cbn [app]; rewrite rd1_cons; cbn [mbind option_bind];
    (destruct (header_parse CONSTANT b) as [_ H1]; [lia|]);
    (destruct (header_parse FOR b) as [_ H2]; [lia|]);
    (destruct (header_parse PFOR_BITMAP b) as [_ H3]; [lia|]);
    (destruct (header_parse PFOR_VB b) as [_ H4]; [lia|]);
    rewrite ?H1, ?H2, ?H3, ?H4; cbn [block_type_to_Z]; clear H1 H2 H3 H4;
    repeat match goal with |- context [?a =? ?b] =>
      let r := eval vm_compute in (a =? b) in change (a =? b) with r end; cbv iota.
  - rewrite Hin at 2. by rewrite (decode_constant_spec b).
  - destruct interleaved.
    + apply decode_for_interleaved_spec; auto; lia.
    + by apply decode_for_spec.
  - rewrite <- !app_assoc. destruct interleaved.
    + by apply decode_pfor_bitmap_interleaved_spec.
    + by apply decode_pfor_bitmap_spec.
  - rewrite <- !app_assoc. destruct interleaved.
    + by apply decode_pfor_vb_interleaved_spec.
    + by apply decode_pfor_vb_spec.
Qed.

(** ** Reconstructing document ids from deltas *)

(** The deltas [PostingListBuilder] stores: each id minus the previous minus 1. *)
Fixpoint deltas_of (prev : Z) (ids : list Z) : list Z :=
  match ids with
  | [] => []
  | x :: ids => x - prev - 1 :: deltas_of x ids
  end.

Lemma length_deltas_of ids : forall prev, length (deltas_of prev ids) = length ids.
Proof. induction ids; intros; simpl; auto. Qed.

(** Strictly increasing 32-bit ids above [prev]. *)
Fixpoint increasing_from (prev : Z) (ids : list Z) : Prop :=
  match ids with
  | [] => True
  | x :: ids => prev < x /\ increasing_from x ids
  end.

Lemma delta_decode_deltas ids : forall prev, Forall is_u32 ids ->
  delta_decode prev (deltas_of prev ids) = ids.
Proof.
  induction ids as [|x ids IH]; intros prev F; [done|]. apply Forall_cons in F as [Hx F].
  cbn [deltas_of delta_decode]. replace (x - prev - 1 + prev + 1) with x by lia.
  rewrite u32_small by done. by rewrite IH.
Qed.

Lemma deltas_fit ids : forall prev, 0 <= prev -> increasing_from prev ids -> fits 24 ids ->
  fits 24 (deltas_of prev ids).
Proof.
  induction ids as [|x ids IH]; intros prev Hp Hi F; [constructor|].
  destruct Hi as [Hx Hi]. apply Forall_cons in F as [Hr F]. constructor; [lia|]. apply IH; auto; lia.
Qed.
