(* ===== verification/PostingList.v ===== *)
(** * Posting lists: [PostingListBuilder] (src/database-builder.cpp) and
      [decode_pfor_delta1_128] put together

    The stack buffers the encoder writes to are uninitialised in the code: every
    operation that has one takes its initial contents [buf] as an argument. *)
From S2P Require Import Prelude BitPack BitPackInterleaved TurboPForEncode TurboPForDecode.

Definition P4NENC_BOUND (n : nat) : nat := ((n + 127) / 128 + (n + 32) * 4)%nat.

Record PostingListBuilder := PLB {
  encoded : bytes;
  pending_deltas : list Z;
  num_docids : Z;
  last_docid : Z
}.

Definition new_PostingListBuilder : PostingListBuilder := PLB [] [] 0 (u32 (-1)).

(** [assert(pending_deltas.empty())] *)
Definition get_num_docids (pl : PostingListBuilder) : option Z :=
  match pending_deltas pl with [] => Some (num_docids pl) | _ => None end.

Definition write_header (buf : bytes) (docid : Z) (pl : PostingListBuilder)
    : option PostingListBuilder :=
  '(end_, buf) ← write_baseval docid buf 0;
  Some (PLB (encoded pl ++ take end_ buf) (pending_deltas pl) (num_docids pl) (last_docid pl)).

Definition append_block (buf : bytes) (pl : PostingListBuilder) : option PostingListBuilder :=
  if decide (length (pending_deltas pl) = 128%nat) then
    '(end_, buf) ← encode_pfor_single_block 128 (pending_deltas pl) true buf 0;
    Some (PLB (encoded pl ++ take end_ buf) (pending_deltas pl) (num_docids pl) (last_docid pl))
  else None.

Definition add_docid (buf : bytes) (docid : Z) (pl : PostingListBuilder) : option PostingListBuilder :=
  if docid =? last_docid pl then Some pl
  else
    let pl := PLB (encoded pl) (pending_deltas pl ++ [u32 (docid - last_docid pl - 1)])
                  (num_docids pl) docid in
    if (length (pending_deltas pl) =? 128)%nat then
      pl ← append_block buf pl;
      Some (PLB (encoded pl) [] (u32 (num_docids pl + 128)) (last_docid pl))
    else Some pl.

Definition add_first_docid (buf : bytes) (docid : Z) (pl : PostingListBuilder)
    : option PostingListBuilder :=
  pl ← write_header buf docid pl;
  Some (PLB (encoded pl) (pending_deltas pl) (u32 (num_docids pl + 1)) docid).

Definition finish (buf : bytes) (pl : PostingListBuilder) : option PostingListBuilder :=
  match pending_deltas pl with
  | [] => Some pl
  | _ =>
    match encoded pl with
    | [] => None
    | _ =>
      '(end_, buf) ← encode_pfor_single_block 128 (pending_deltas pl) false buf 0;
      Some (PLB (encoded pl ++ take end_ buf) []
              (u32 (num_docids pl + Z.of_nat (length (pending_deltas pl)))) (last_docid pl))
    end
  end.

(** A whole list: the first id, the others in order, then [finish]. *)
Fixpoint add_docids (buf : bytes) (ids : list Z) (pl : PostingListBuilder)
    : option PostingListBuilder :=
  match ids with
  | [] => Some pl
  | x :: ids => pl ← add_docid buf x pl; add_docids buf ids pl
  end.

Definition build_posting_list (buf1 buf : bytes) (first : Z) (ids : list Z)
    : option PostingListBuilder :=
  pl ← add_first_docid buf1 first new_PostingListBuilder;
  pl ← add_docids buf ids pl;
  finish buf pl.

(** ** Specification *)

(** Adjacent duplicates removed: what the reader should get. *)
Fixpoint dedup_from (prev : Z) (ids : list Z) : list Z :=
  match ids with
  | [] => []
  | x :: ids => if x =? prev then dedup_from prev ids else x :: dedup_from x ids
  end.

(** Non-decreasing ids, the order in which the corpus adds them. *)
Fixpoint nondecreasing_from (prev : Z) (ids : list Z) : Prop :=
  match ids with
  | [] => True
  | x :: ids => prev <= x /\ nondecreasing_from x ids
  end.

(** [E] is the encoding of the whole blocks [done] after document [prev]. *)
Definition blocks_decode (prev : Z) (E : bytes) (done : list Z) (k : nat) : Prop :=
  length done = (128 * k)%nat /\ Forall is_byte E /\
  forall fuel left tail, slop tail ->
    decode_blocks (k + fuel) 128 (E ++ tail) (length done + left) true prev
    = ('(r, in_) ← decode_blocks fuel 128 tail left true (List.last done prev);
       Some (done ++ r, in_)).

(** What holds between two calls: [done] is encoded, [pend] is pending. *)
Record pl_inv (first : Z) (done pend : list Z) (pl : PostingListBuilder) : Prop := {
  pli_blocks : exists E k, encoded pl = baseval_bytes first ++ E /\ blocks_decode first E done k;
  pli_pending : pending_deltas pl = deltas_of (List.last done first) pend;
  pli_small : (length pend < 128)%nat;
  pli_num : num_docids pl = u32 (1 + Z.of_nat (length done));
  pli_last : last_docid pl = List.last pend (List.last done first);
  pli_sorted : increasing_from first (done ++ pend);
  pli_range : 0 <= first /\ fits 24 (done ++ pend)
}.

(** ** Lemmas *)

Lemma last_app {A} (l k : list A) d : List.last (l ++ k) d = List.last k (List.last l d).
Proof.
  revert d. induction l as [|x l IH]; intros d; [done|]. cbn [app].
  destruct l as [|y l]; [cbn; destruct k; cbn; [done|]|].
  - clear. revert x a d. induction k as [|b k IH]; intros x a d; [done|]. cbn in *. apply IH.
  - change (List.last (x :: (y :: l) ++ k) d = List.last k (List.last (x :: y :: l) d)).
    change (List.last ((y :: l) ++ k) d = List.last k (List.last (y :: l) d)). apply IH.
Qed.

Lemma increasing_app l k prev :
  increasing_from prev (l ++ k) <-> increasing_from prev l /\ increasing_from (List.last l prev) k.
Proof.
  revert prev. induction l as [|x l IH]; intros prev; [cbn; tauto|]. cbn [app increasing_from].
  rewrite IH. assert (List.last (x :: l) prev = List.last l x) as -> by apply (last_app [x] l prev).
  tauto.
Qed.

Lemma increasing_last l prev : increasing_from prev l -> prev <= List.last l prev.
Proof.
  revert prev. induction l as [|x l IH]; intros prev H; [cbn; lia|].
  destruct H as [H1 H2]. apply IH in H2.
  assert (List.last (x :: l) prev = List.last l x) as -> by apply (last_app [x] l prev). lia.
Qed.

Lemma last_fits l first : fits 24 l -> 0 <= first -> l <> [] -> 0 <= List.last l first < 2 ^ 24.
Proof.
  intros F H Hne. destruct l as [|x l] using rev_ind; [done|].
  rewrite last_app. apply Forall_app in F as [_ F]. by apply Forall_cons in F as [? _].
Qed.

Lemma delta_decode_last ids prev : Forall is_u32 ids ->
  List.last (delta_decode prev (deltas_of prev ids)) prev = List.last ids prev.
Proof. intros F. by rewrite delta_decode_deltas. Qed.

Lemma fits24_u32 l : fits 24 l -> Forall is_u32 l.
Proof. apply fits_u32. lia. Qed.

Lemma emits_0 m m' out enc : emits m 0 m' out enc -> take out m' = enc.
Proof. intros [_ _ H _]. exact H. Qed.

Lemma P4NENC_BOUND_128 : P4NENC_BOUND 128 = 641%nat.
Proof. reflexivity. Qed.

Lemma bytes_for_24 n : (n <= 128)%nat -> (bytes_for_packed_bits n 24 <= 384)%nat.
Proof. intros H. pose proof (bytes_for_packed_bits_bounds n 24). lia. Qed.

(** The encoder on a stack buffer of the size the code reserves. *)
Lemma encode_on_stack interleaved ds buf :
  length buf = P4NENC_BOUND 128 -> Forall is_byte buf ->
  fits 24 ds -> ds <> [] -> (length ds <= 128)%nat -> (interleaved = true -> length ds = 128%nat) ->
  exists end_ buf' enc, encode_pfor_single_block 128 ds interleaved buf 0 = Some (end_, buf') /\
    take end_ buf' = enc /\ block_repr interleaved ds enc /\ Forall is_byte enc.
Proof.
  intros Hl HB F Hne Hn Hil. pose proof (bytes_for_24 (length ds) Hn).
  rewrite P4NENC_BOUND_128 in Hl.
  destruct (encode_block_spec interleaved ds buf 0) as (m' & enc & E & A & R & _); auto; [lia|].
  exists (length enc), m', enc. split; [done|]. pose proof (emits_0 _ _ _ _ A) as Ht.
  split; [done|]. split; [done|].
  assert (Htake : take (0 + length enc) m' = enc) by exact Ht.
  rewrite <- Htake. apply Forall_take. by apply (em_byte _ _ _ _ _ A).
Qed.

Lemma blocks_decode_nil prev : blocks_decode prev [] [] 0.
Proof.
  split; [done|]. split; [constructor|]. intros fuel left tail Hs. cbn [length app List.last Nat.add].
  by destruct (decode_blocks fuel 128 tail left true prev) as [[]|].
Qed.

(** One more block. *)
Lemma decode_blocks_step fuel enc tail ids left prev interleaved :
  block_repr interleaved (deltas_of prev ids) enc -> 0 <= prev -> increasing_from prev ids -> fits 24 ids ->
  ids <> [] -> (length ids <= 128)%nat ->
  (interleaved = true -> length ids = 128%nat) ->
  (interleaved = false -> (length ids < 128)%nat /\ left = 0%nat) -> slop tail ->
  decode_blocks (S fuel) 128 (enc ++ tail) (length ids + left) true prev
  = ('(r, in_) ← decode_blocks fuel 128 tail left true (List.last ids prev);
     Some (ids ++ r, in_)).
Proof.
  intros Hrep Hp Hinc F Hne Hn Hil Hnil Hs. cbn [decode_blocks].
  destruct (Nat.eqb_spec (length ids + left) 0) as [H0|H0].
  { destruct ids; [done|cbn [length] in H0; lia]. }
  replace (Nat.min (length ids + left) 128) with (length ids).
  2: { destruct interleaved; [rewrite Hil by done; lia|]. destruct (Hnil eq_refl). lia. }
  replace (length ids + left - 128)%nat with left.
  2: { destruct interleaved; [rewrite Hil by done; lia|]. destruct (Hnil eq_refl). lia. }
  pose proof (decode_block_spec interleaved (deltas_of prev ids) enc tail prev Hrep) as Hd.
  rewrite length_deltas_of in Hd. rewrite Hd; auto.
  - cbn [mbind option_bind]. by rewrite delta_decode_deltas by (by apply fits24_u32).
  - by apply deltas_fit.
  - destruct ids; done.
  - intros ->. by apply Hnil.
Qed.

Lemma blocks_decode_snoc prev E done k ids enc :
  blocks_decode prev E done k -> 0 <= prev -> increasing_from prev (done ++ ids) -> fits 24 ids ->
  length ids = 128%nat -> block_repr true (deltas_of (List.last done prev) ids) enc ->
  Forall is_byte enc -> blocks_decode prev (E ++ enc) (done ++ ids) (S k).
Proof.
  intros (Hl & HE & Hdec) Hp Hinc F Hn Hrep Henc. apply increasing_app in Hinc as [Hinc1 Hinc2].
  pose proof (increasing_last _ _ Hinc1) as Hle.
  split; [rewrite length_app; lia|]. split; [by apply Forall_app|].
  intros fuel left tail Hs. rewrite <- app_assoc, length_app, <- Nat.add_assoc.
  replace (S k + fuel)%nat with (k + S fuel)%nat by lia.
  rewrite Hdec by by apply slop_app.
  rewrite (decode_blocks_step fuel enc tail ids left _ true); auto; try lia; try done.
  - rewrite last_app. destruct (decode_blocks fuel 128 tail left true _) as [[r in_]|];
      cbn [mbind option_bind]; [by rewrite app_assoc|done].
  - by destruct ids.
Qed.

(** ** Preservation *)

Lemma add_first_docid_inv buf first :
  length buf = P4NENC_BOUND 1 -> 0 <= first < 2 ^ 28 ->
  exists pl, add_first_docid buf first new_PostingListBuilder = Some pl /\ pl_inv first [] [] pl.
Proof.
  intros Hl Hf. change (P4NENC_BOUND 1) with 133%nat in Hl.
  destruct (write_baseval_spec first buf 0) as (m' & E & A); [exact Hf|lia|].
  unfold add_first_docid, write_header. rewrite E. cbn [mbind option_bind].
  eexists. split; [done|]. rewrite (emits_0 _ _ _ _ A). constructor; cbn; auto; try lia.
  - exists [], 0%nat. split; [by rewrite app_nil_r|apply blocks_decode_nil].
  - split; [lia|constructor].
Qed.

Lemma add_docid_inv buf first done pend pl x :
  length buf = P4NENC_BOUND 128 -> Forall is_byte buf ->
  pl_inv first done pend pl -> last_docid pl <= x -> 0 <= x < 2 ^ 24 ->
  exists pl' done' pend', add_docid buf x pl = Some pl' /\ pl_inv first done' pend' pl' /\
    done' ++ pend' = done ++ pend ++ (if x =? last_docid pl then [] else [x]) /\ last_docid pl' = x.
Proof.
  intros Hl HB Hinv Hx Hr. pose proof Hinv as [(E & k & HE & Hdec) Hp Hs Hn Hlast Hinc [Hf F]].
  unfold add_docid. destruct (Z.eqb_spec x (last_docid pl)) as [->|Hne].
  { exists pl, done, pend. rewrite app_nil_r. auto. }
  assert (Hinc' : increasing_from first (done ++ pend ++ [x])).
  { rewrite app_assoc. apply increasing_app. split; [done|]. rewrite last_app, <- Hlast.
    cbn. lia. }
  assert (F' : fits 24 (done ++ pend ++ [x])).
  { rewrite app_assoc. apply Forall_app. split; [done|]. apply Forall_cons. split; [exact Hr|by apply Forall_nil]. }
  pose proof (increasing_last _ _ Hinc) as Hle. rewrite last_app, <- Hlast in Hle.
  assert (Hd : pending_deltas pl ++ [u32 (x - last_docid pl - 1)]
               = deltas_of (List.last done first) (pend ++ [x])).
  { rewrite Hp, u32_small by (unfold is_u32; change (2 ^ 24) with 16777216 in Hr;
      change (2 ^ 32) with 4294967296; lia).
    rewrite Hlast. generalize (List.last done first). clear.
    induction pend as [|y pend IH]; intros p; [done|]. cbn [app deltas_of].
    rewrite <- IH. do 3 f_equal. by assert (List.last (y :: pend) p = List.last pend y) as ->
      by apply (last_app [y] pend p). }
  cbn [pending_deltas encoded num_docids last_docid]. rewrite Hd, length_deltas_of, length_app.
  cbn [length]. destruct (Nat.eqb_spec (length pend + 1) 128) as [H128|H128].
  - unfold append_block. cbn [pending_deltas encoded num_docids last_docid].
    rewrite length_deltas_of, length_app. cbn [length]. rewrite decide_True by done.
    pose proof Hinc' as Hinc2. apply increasing_app in Hinc2 as [Hinc1 Hinc2].
    pose proof (increasing_last _ _ Hinc1) as Hle1.
    pose proof F' as F2. apply Forall_app in F2 as [_ F2].
    destruct (encode_on_stack true (deltas_of (List.last done first) (pend ++ [x])) buf)
      as (end_ & buf' & enc & Eenc & Ht & Hrep & Henc); auto.
    { apply deltas_fit; auto. lia. }
    { by destruct pend. }
    { rewrite length_deltas_of, length_app. cbn [length]. lia. }
    { rewrite length_deltas_of, length_app. cbn [length]. lia. }
    rewrite Eenc. cbn [mbind option_bind]. eexists _, (done ++ pend ++ [x]), [].
    split; [done|]. rewrite app_nil_r. split; [|done]. constructor; cbn; auto; try lia.
    + exists (E ++ enc), (S k). split; [by rewrite HE, Ht, app_assoc|].
      apply blocks_decode_snoc; auto. rewrite length_app. cbn [length]. lia.
    + rewrite Hn. unfold u32. rewrite Zplus_mod_idemp_l. f_equal.
      rewrite !length_app. cbn [length]. lia.
    + by rewrite !last_app.
    + by rewrite app_nil_r.
    + by rewrite app_nil_r.
  - eexists _, done, (pend ++ [x]). split; [done|]. split; [|done].
    constructor; cbn; eauto.
    + rewrite length_app. cbn [length]. lia.
    + by rewrite last_app.
Qed.

Lemma add_docids_inv buf first ids : forall done pend pl,
  length buf = P4NENC_BOUND 128 -> Forall is_byte buf ->
  pl_inv first done pend pl -> nondecreasing_from (last_docid pl) ids -> fits 24 ids ->
  exists pl' done' pend', add_docids buf ids pl = Some pl' /\ pl_inv first done' pend' pl' /\
    done' ++ pend' = done ++ pend ++ dedup_from (last_docid pl) ids.
Proof.
  induction ids as [|x ids IH]; intros done pend pl Hl HB Hinv Hnd F; cbn [add_docids dedup_from].
  { exists pl, done, pend. by rewrite app_nil_r. }
  destruct Hnd as [Hx Hnd]. apply Forall_cons in F as [Hr F].
  destruct (add_docid_inv buf first done pend pl x) as (pl1 & d1 & p1 & E1 & I1 & H1 & L1); auto.
  rewrite E1. cbn [mbind option_bind]. rewrite <- L1 in Hnd.
  destruct (IH d1 p1 pl1) as (pl2 & d2 & p2 & E2 & I2 & H2); auto.
  exists pl2, d2, p2. split; [done|]. split; [done|].
  rewrite H2, app_assoc, H1, L1. destruct (Z.eqb_spec x (last_docid pl)) as [->|]; by rewrite <- !app_assoc.
Qed.

Lemma decode_blocks_0 fuel in_ prev : decode_blocks fuel 128 in_ 0 true prev = Some ([], in_).
Proof. by destruct fuel. Qed.

(** Finishing a list in any reachable state makes it decodable. *)
Lemma finish_spec buf first done pend pl tail :
  length buf = P4NENC_BOUND 128 -> Forall is_byte buf ->
  pl_inv first done pend pl -> first < 2 ^ 28 -> slop tail ->
  Z.of_nat (length (done ++ pend)) < 2 ^ 32 - 1 ->
  exists pl', finish buf pl = Some pl' /\
    get_num_docids pl' = Some (Z.of_nat (length (first :: done ++ pend))) /\
    decode_pfor_delta1_128 (encoded pl' ++ tail) (length (first :: done ++ pend)) true
    = Some (first :: done ++ pend, tail).
Proof.
  intros Hl HB [(E & k & HE & (Hdl & HEb & Hdec)) Hp Hs Hn Hlast Hinc [Hf F]] Hf28 Htail Hlen.
  pose proof Hinc as Hinc0. apply increasing_app in Hinc0 as [Hinc1 Hinc2].
  pose proof (increasing_last _ _ Hinc1) as Hle1.
  unfold decode_pfor_delta1_128, decode_pfor_delta1. cbn [length].
  replace (S (length (done ++ pend)) =? 0)%nat with false by done.
  replace (S (length (done ++ pend)) - 1)%nat with (length (done ++ pend)) by lia.
  assert (Hfuel : exists fuel, S (length (done ++ pend)) = (k + S fuel)%nat).
  { exists (length (done ++ pend) - k)%nat. rewrite length_app. lia. }
  destruct Hfuel as [fuel Hfuel]. rewrite Hfuel.
  unfold finish. destruct pend as [|y pend].
  - rewrite Hp. cbn [deltas_of]. exists pl. split; [done|]. rewrite app_nil_r in *.
    unfold get_num_docids. rewrite Hp. cbn [deltas_of]. split.
    { rewrite <- Hfuel, Hn, u32_small by (unfold is_u32; lia). f_equal. lia. }
    rewrite HE, <- app_assoc, read_baseval_spec by (change (2 ^ 28) with 268435456 in Hf28; lia).
    cbn [mbind option_bind]. rewrite <- (Nat.add_0_r (length done)).
    rewrite Hdec by done. rewrite decode_blocks_0. cbn [mbind option_bind]. by rewrite app_nil_r.
  - assert (Hpd : pending_deltas pl <> []) by (by rewrite Hp).
    assert (Hen : encoded pl <> []).
    { rewrite HE. unfold baseval_bytes. by repeat case_match. }
    destruct (pending_deltas pl) as [|d0 ds] eqn:Epd; [done|]. rewrite Hp in *.
    destruct (encoded pl) as [|b0 bs] eqn:Een; [done|]. rewrite HE in *.
    pose proof F as F2. apply Forall_app in F2 as [_ F2].
    destruct (encode_on_stack false (deltas_of (List.last done first) (y :: pend)) buf)
      as (end_ & buf' & enc & Eenc & Ht & Hrep & Henc); auto.
    { apply deltas_fit; auto. lia. }
    { rewrite length_deltas_of. lia. }
    { done. }
    rewrite Eenc. cbn [mbind option_bind]. eexists. split; [done|].
    cbn [get_num_docids pending_deltas num_docids encoded]. rewrite length_deltas_of. split.
    { rewrite <- Hfuel, Hn. f_equal. rewrite length_app in Hlen |- *. unfold u32.
      rewrite Zplus_mod_idemp_l, Z.mod_small by (change (2 ^ 32) with 4294967296 in *; lia). lia. }
    rewrite <- !app_assoc, Ht, read_baseval_spec by (change (2 ^ 28) with 268435456 in Hf28; lia).
    cbn [mbind option_bind]. rewrite length_app, Hdec by by apply slop_app.
    replace (length (y :: pend)) with (length (y :: pend) + 0)%nat by lia.
    rewrite (decode_blocks_step fuel enc tail (y :: pend) 0 _ false); auto; try done; try lia.
    rewrite decode_blocks_0. cbn [mbind option_bind]. by rewrite app_nil_r.
Qed.

Lemma dedup_range prev ids : fits 24 ids -> fits 24 (dedup_from prev ids).
Proof.
  revert prev. induction ids as [|x ids IH]; intros prev F; [constructor|].
  apply Forall_cons in F as [Hx F]. cbn [dedup_from].
  case_match; [by apply IH|]. constructor; [done|]. by apply IH.
Qed.

Lemma increasing_length l : forall prev, increasing_from prev l -> fits 24 l ->
  prev < 2 ^ 24 -> prev + Z.of_nat (length l) < 2 ^ 24.
Proof.
  induction l as [|x l IH]; intros prev H F Hp; cbn [length]; [lia|].
  destruct H as [Hx H]. apply Forall_cons in F as [Hr F].
  specialize (IH x H F ltac:(lia)). lia.
Qed.

Lemma forallb_Forall {A} (f : A -> bool) l : forallb f l = true -> Forall (fun x => f x = true) l.
Proof. intros H. apply Forall_forall. intros x Hx. by apply (proj1 (forallb_forall f l) H), list_elem_of_In. Qed.

(** ** Theorems *)

(** Block roundtrip: any block of 1 to 128 deltas below 2^24 (128 when
    interleaved) is encoded without a store outside the [P4NENC_BOUND(128)]
    stack buffer, whatever that buffer held, and [decode_pfor_delta1]'s block
    dispatch, given 16 readable bytes after it, reads back exactly the ids the
    deltas stand for and stops right behind the block. *)
Theorem block_roundtrip interleaved deltas buf prev tail
    (Hbuf : length buf = P4NENC_BOUND 128 /\ Forall is_byte buf)
    (Hdeltas : fits 24 deltas /\ (0 < length deltas <= 128)%nat)
    (Hil : length deltas = 128%nat <-> interleaved = true)
    (Htail : slop tail) :
  exists end_ buf', encode_pfor_single_block 128 deltas interleaved buf 0 = Some (end_, buf') /\
    (end_ <= P4NENC_BOUND 128)%nat /\
    decode_block 128 (take end_ buf' ++ tail) (length deltas) true prev
    = Some (delta_decode prev deltas, tail).
Proof.
  destruct Hbuf as [Hl HB], Hdeltas as [F Hn]. pose proof (bytes_for_24 (length deltas) ltac:(lia)).
  rewrite P4NENC_BOUND_128 in *.
  assert (Hne : deltas <> []) by (by destruct deltas; [cbn in Hn; lia|]).
  destruct (encode_block_spec interleaved deltas buf 0) as (m' & enc & E & A & R & Hs);
    auto; [lia|by intros ->; apply Hil|lia|].
  exists (length enc), m'. split; [done|]. split; [lia|].
  pose proof (emits_0 _ _ _ _ A) as Ht. cbn [Nat.add] in Ht. rewrite Ht. apply (decode_block_spec interleaved); auto.
  - intros ->. by apply Hil.
  - intros ->. destruct (decide (length deltas = 128%nat)) as [H128|]; [|lia].
    by apply Hil in H128.
Qed.

Definition sample_deltas : list Z := [1; 0; 7; 70000; 3; 2; 1; 9000000].

Lemma block_roundtrip_witness :
  exists end_ buf', encode_pfor_single_block 128 sample_deltas false (repeat 0 641) 0
      = Some (end_, buf') /\
    (end_ <= P4NENC_BOUND 128)%nat /\
    decode_block 128 (take end_ buf' ++ repeat 255 16) (length sample_deltas) true 5
    = Some (delta_decode 5 sample_deltas, repeat 255 16).
Proof.
  apply (block_roundtrip false sample_deltas (repeat 0 641) 5 (repeat 255 16)).
  - split; [reflexivity|]. apply Forall_forall. intros x Hx.
    apply list_elem_of_In, repeat_spec in Hx. subst. unfold is_byte. lia.
  - split; [|cbn; lia]. unfold fits, sample_deltas.
    repeat (apply Forall_cons; split; [change (2 ^ Z.of_nat 24) with 16777216; lia|]).
    apply Forall_nil_2.
  - split; cbn; [lia|discriminate].
  - split; [|cbn; lia]. apply Forall_forall. intros x Hx.
    apply list_elem_of_In, repeat_spec in Hx. subst. unfold is_byte. lia.
Defined.

(** C16. Posting-list roundtrip: for any non-decreasing ids below 2^24 (as the
    corpus adds them: [add_first_docid], [add_docid] for the rest, [finish]),
    the builder runs without failing an assertion or leaving its stack buffers,
    reports the number of distinct ids, and [decode_pfor_delta1_128] on its
    bytes followed by 16 readable bytes returns exactly the distinct ids in
    order and consumes exactly the list's bytes. *)
Theorem posting_list_roundtrip buf1 buf first ids tail
    (Hbufs : length buf1 = P4NENC_BOUND 1 /\ length buf = P4NENC_BOUND 128 /\ Forall is_byte buf)
    (Hfirst : 0 <= first < 2 ^ 24)
    (Hids : nondecreasing_from first ids /\ fits 24 ids)
    (Htail : slop tail) :
  exists pl, build_posting_list buf1 buf first ids = Some pl /\
    get_num_docids pl = Some (Z.of_nat (length (first :: dedup_from first ids))) /\
    decode_pfor_delta1_128 (encoded pl ++ tail) (length (first :: dedup_from first ids)) true
    = Some (first :: dedup_from first ids, tail).
Proof.
  destruct Hbufs as (H1 & Hl & HB), Hids as [Hnd F]. change (2 ^ 24) with 16777216 in *.
  destruct (add_first_docid_inv buf1 first H1) as (pl0 & E0 & I0); [change (2 ^ 28) with 268435456; lia|].
  pose proof (pli_last _ _ _ _ I0) as L0. cbn in L0.
  destruct (add_docids_inv buf first ids [] [] pl0 Hl HB I0) as (pl1 & d & p & E1 & I1 & H); auto.
  { by rewrite L0. }
  rewrite L0 in H. cbn [app] in H.
  pose proof (increasing_length (d ++ p) first (pli_sorted _ _ _ _ I1)
    (proj2 (pli_range _ _ _ _ I1)) ltac:(change (2 ^ 24) with 16777216; lia)) as Hlen.
  change (2 ^ 24) with 16777216 in Hlen.
  destruct (finish_spec buf first d p pl1 tail Hl HB I1) as (pl2 & E2 & N2 & D2); auto.
  { change (2 ^ 28) with 268435456. lia. }
  { change (2 ^ 32) with 4294967296. lia. }
  unfold build_posting_list. rewrite E0. cbn [mbind option_bind]. rewrite E1. cbn [mbind option_bind].
  exists pl2. rewrite <- H. auto.
Qed.

Definition sample_ids : list Z := map (fun i => Z.of_nat i * Z.of_nat i) (seq 3 200).

Lemma posting_list_roundtrip_witness :
  exists pl, build_posting_list (repeat 0 133) (repeat 7 641) 2 (sample_ids ++ [41000; 41000]) = Some pl /\
    get_num_docids pl = Some (Z.of_nat (length (2 :: dedup_from 2 (sample_ids ++ [41000; 41000])))) /\
    decode_pfor_delta1_128 (encoded pl ++ repeat 1 16)
      (length (2 :: dedup_from 2 (sample_ids ++ [41000; 41000]))) true
    = Some (2 :: dedup_from 2 (sample_ids ++ [41000; 41000]), repeat 1 16).
Proof.
  apply (posting_list_roundtrip (repeat 0 133) (repeat 7 641) 2 (sample_ids ++ [41000; 41000]) (repeat 1 16)).
  - split; [reflexivity|]. split; [reflexivity|]. apply Forall_forall. intros x Hx.
    apply list_elem_of_In, repeat_spec in Hx. subst. unfold is_byte. lia.
  - change (2 ^ 24) with 16777216. lia.
  - split.
    + vm_compute. repeat split; discriminate.
    + apply (Forall_impl (fun x => (0 <=? x) && (x <? 16777216) = true));
        [apply forallb_Forall; vm_compute; reflexivity|].
      intros x Hx. change (2 ^ Z.of_nat 24) with 16777216. lia.
  - split; [|cbn; lia]. apply Forall_forall. intros x Hx.
    apply list_elem_of_In, repeat_spec in Hx. subst. unfold is_byte. lia.
Defined.

(** A partial block whose values need 25 bits makes [BitWriter] shift its 32-bit
    accumulator by 32, which C++ leaves undefined. *)
Example contiguous_25_bits_undefined :
  encode_pfor_single_block 128 (map (fun i => 33554431 - Z.of_nat i) (seq 0 12)) false
    (repeat 0 641) 0 = None.
Proof. reflexivity. Qed.
