(* ===== verification/TurboPForSSE2.v ===== *)
(** * The TurboPFor decoder (src/turbopfor.cpp), SSE2 versions

    On x86, whole blocks of 128 are decoded four values at a time.  The
    intrinsics are those of the compiler, on four lanes of 32 bits, lane 0 first in
    memory.  [out] is what the output holds before; a decoder returns what it
    holds afterwards. *)
From S2P Require Import Prelude BitPack BitPackInterleaved TurboPForEncode TurboPForDecode PostingList.

(** ** Intrinsics *)

Record m128 := M128 { e0 : Z; e1 : Z; e2 : Z; e3 : Z }.

Definition lanes (v : m128) : list Z := [e0 v; e1 v; e2 v; e3 v].

Definition lanewise (f : Z -> Z) (v : m128) : m128 := M128 (f (e0 v)) (f (e1 v)) (f (e2 v)) (f (e3 v)).

Definition lanewise2 (f : Z -> Z -> Z) (v w : m128) : m128 :=
  M128 (f (e0 v) (e0 w)) (f (e1 v) (e1 w)) (f (e2 v) (e2 w)) (f (e3 v) (e3 w)).

Definition mm_set1_epi32 (x : Z) : m128 := M128 x x x x.

(** Arguments from the highest lane to the lowest. *)
Definition mm_set_epi32 (x3 x2 x1 x0 : Z) : m128 := M128 x0 x1 x2 x3.

Definition mm_loadu_si128 (in_ : bytes) (p : nat) : option m128 :=
  x0 ← rd 4 in_ p; x1 ← rd 4 in_ (p + 4); x2 ← rd 4 in_ (p + 8); x3 ← rd 4 in_ (p + 12);
  Some (M128 x0 x1 x2 x3).

(** Shifts by more than 31 bits give zero. *)
Definition mm_srli_epi32 (v : m128) (n : nat) : m128 :=
  lanewise (fun x => if (31 <? n)%nat then 0 else Z.shiftr x (Z.of_nat n)) v.

Definition mm_slli_epi32 (v : m128) (n : nat) : m128 :=
  lanewise (fun x => if (31 <? n)%nat then 0 else u32 (Z.shiftl x (Z.of_nat n))) v.

Definition mm_or_si128 : m128 -> m128 -> m128 := lanewise2 Z.lor.
Definition mm_and_si128 : m128 -> m128 -> m128 := lanewise2 Z.land.
Definition mm_add_epi32 : m128 -> m128 -> m128 := lanewise2 (fun x y => u32 (x + y)).

(** [_mm_slli_si128] by one and by two lanes. *)
Definition mm_slli_si128_4 (v : m128) : m128 := M128 0 (e0 v) (e1 v) (e2 v).
Definition mm_slli_si128_8 (v : m128) : m128 := M128 0 0 (e0 v) (e1 v).

(** [_mm_shuffle_epi32(v, _MM_SHUFFLE(3, 3, 3, 3))] *)
Definition mm_shuffle_3333 (v : m128) : m128 := mm_set1_epi32 (e3 v).

(** ** The reader and the prefix sums *)

Record InterleavedBitReaderSSE2 := IBRS { ibrs_in : bytes; ibrs_bits : nat; ibrs_bits_used : nat }.

Definition InterleavedBitReaderSSE2_new (in_ : bytes) (bits : nat) : InterleavedBitReaderSSE2 := IBRS in_ bits 0.

Definition InterleavedBitReaderSSE2_read (r : InterleavedBitReaderSSE2) : option (m128 * InterleavedBitReaderSSE2) :=
  word ← mm_loadu_si128 (ibrs_in r) 0;
  let val := mm_srli_epi32 word (ibrs_bits_used r) in
  val ← (if decide (32 < ibrs_bits_used r + ibrs_bits r)%nat then
           upper ← mm_loadu_si128 (ibrs_in r) 16;
           Some (mm_or_si128 val (mm_slli_epi32 upper (32 - ibrs_bits_used r)))
         else Some val);
  let val := mm_and_si128 val (mm_set1_epi32 (mask_for_bits (ibrs_bits r))) in
  let used := (ibrs_bits_used r + ibrs_bits r)%nat in
  Some (val, IBRS (drop (16 * (used / 32)) (ibrs_in r)) (ibrs_bits r) (used mod 32)).

Definition delta_4321 : m128 := mm_set_epi32 4 3 2 1.

(** [DeltaDecoderSSE2::decode]: the values and the new [prev_val]. *)
Definition DeltaDecoderSSE2_decode (prev_val val : m128) : m128 * m128 :=
  let val := mm_add_epi32 val (mm_slli_si128_4 val) in
  let val := mm_add_epi32 val (mm_slli_si128_8 val) in
  let val := mm_add_epi32 val (mm_add_epi32 prev_val delta_4321) in
  (val, mm_shuffle_3333 val).

(** The next four values of the output. *)
Definition load_out (out : list Z) : option (m128 * list Z) :=
  match out with
  | a :: b :: c :: d :: out => Some (M128 a b c d, out)
  | _ => None
  end.

Fixpoint delta_loop_sse2 (groups : nat) (prev_val : m128) (out : list Z) : option (list Z) :=
  match groups with
  | O => Some out
  | S groups =>
    '(val, out) ← load_out out;
    let '(val, prev_val) := DeltaDecoderSSE2_decode prev_val val in
    out ← delta_loop_sse2 groups prev_val out;
    Some (lanes val ++ out)
  end.

Definition delta_decode_sse2 (BlockSize : nat) (prev : Z) (out : list Z) : option (list Z) :=
  delta_loop_sse2 (BlockSize / 4) (mm_set1_epi32 prev) out.

(** The loop of [decode_bitmap_sse2_unrolled]. *)
Fixpoint bitmap_loop_sse2 (OrWithExisting DeltaDecode : bool) (bit_width groups : nat) (bs : InterleavedBitReaderSSE2)
    (prev_val : m128) (out : list Z) : option (list Z) :=
  match groups with
  | O => Some out
  | S groups =>
    '(val, bs) ← InterleavedBitReaderSSE2_read bs;
    '(existing, out) ← load_out out;
    let val := if OrWithExisting then mm_or_si128 val (mm_slli_epi32 existing bit_width) else val in
    let '(val, prev_val) := if DeltaDecode then DeltaDecoderSSE2_decode prev_val val else (val, prev_val) in
    out ← bitmap_loop_sse2 OrWithExisting DeltaDecode bit_width groups bs prev_val out;
    Some (lanes val ++ out)
  end.

Definition decode_bitmap_sse2_unrolled (BlockSize : nat) (OrWithExisting DeltaDecode : bool) (bit_width : nat)
    (in_ : bytes) (prev : Z) (out : list Z) : option (list Z * bytes) :=
  out ← bitmap_loop_sse2 OrWithExisting DeltaDecode bit_width (BlockSize / 4) (InterleavedBitReaderSSE2_new in_ bit_width)
    (mm_set1_epi32 prev) out;
  in_ ← advance (bytes_for_packed_bits BlockSize bit_width) in_;
  Some (out, in_).

(** The switch has the cases 0 to 32. *)
Definition decode_bitmap_sse2 (BlockSize : nat) (OrWithExisting DeltaDecode : bool) (in_ : bytes) (bit_width : nat)
    (prev : Z) (out : list Z) : option (list Z * bytes) :=
  if decide (bit_width <= 32)%nat
  then decode_bitmap_sse2_unrolled BlockSize OrWithExisting DeltaDecode bit_width in_ prev out
  else None.

(** ** Blocks *)

Definition decode_for_interleaved_sse2 (in_ : bytes) (prev : Z) (out : list Z) : option (list Z * bytes) :=
  '(b, in_) ← next_byte in_;
  let bit_width := Z.to_nat (Z.land b 63) in
  decode_bitmap_sse2 128 false true in_ bit_width prev out.

(** [out] is set to zero, whatever it was. *)
Definition decode_pfor_bitmap_interleaved_sse2 (in_ : bytes) (prev : Z) (out : list Z) : option (list Z * bytes) :=
  let out := repeat 0 128 in
  '(b, in_) ← next_byte in_;
  let bit_width := Z.to_nat (Z.land b 63) in
  '(out, in_) ← decode_pfor_bitmap_exceptions in_ 128 out;
  decode_bitmap_sse2 128 true true in_ bit_width prev out.

Definition decode_pfor_vb_interleaved_sse2 (in_ : bytes) (prev : Z) (out : list Z) : option (list Z * bytes) :=
  '(b, in_) ← next_byte in_;
  let bit_width := Z.to_nat (Z.land b 63) in
  '(n, in_) ← next_byte in_;
  let num_exceptions := Z.to_nat n in
  '(out, in_) ← decode_bitmap_sse2 128 false false in_ bit_width prev out;
  '(exceptions, in_) ← read_exceptions 128 num_exceptions in_;
  '(out, in_) ← apply_exceptions exceptions bit_width in_ out;
  out ← delta_decode_sse2 128 prev out;
  Some (out, in_).

(** ** Posting lists *)

(** [decode_pfor_delta1<128>] where the processor has SSE2. *)
Definition decode_block_sse2 (in_ : bytes) (num_this_block : nat) (interleaved : bool) (prev : Z) (out : list Z)
    : option (list Z * bytes) :=
  b ← rd 1 in_ 0;
  let whole := interleaved && (num_this_block =? 128)%nat in
  let t := Z.shiftr b 6 in
  if t =? block_type_to_Z FOR then
    if whole then decode_for_interleaved_sse2 in_ prev out
    else decode_for in_ num_this_block prev
  else if t =? block_type_to_Z PFOR_VB then
    if whole then decode_pfor_vb_interleaved_sse2 in_ prev out
    else decode_pfor_vb 128 in_ num_this_block prev
  else if t =? block_type_to_Z PFOR_BITMAP then
    if whole then decode_pfor_bitmap_interleaved_sse2 in_ prev out
    else decode_pfor_bitmap in_ num_this_block prev
  else if t =? block_type_to_Z CONSTANT then decode_constant in_ num_this_block prev
  else Some ([], in_).

Fixpoint decode_blocks_sse2 (fuel : nat) (in_ : bytes) (left : nat) (interleaved : bool) (prev : Z) (out : list Z)
    : option (list Z * bytes) :=
  if (left =? 0)%nat then Some ([], in_)
  else match fuel with
  | O => None
  | S fuel =>
    let num_this_block := Nat.min left 128 in
    '(vals, in_) ← decode_block_sse2 in_ num_this_block interleaved prev (take num_this_block out);
    '(rest, in_) ← decode_blocks_sse2 fuel in_ (left - 128) interleaved (List.last vals prev) (drop num_this_block out);
    Some (vals ++ rest, in_)
  end.

(** [out] has room for [num] values. *)
Definition decode_pfor_delta1_128_sse2 (in_ : bytes) (num : nat) (interleaved : bool) (out : list Z)
    : option (list Z * bytes) :=
  if (num =? 0)%nat then Some ([], in_)
  else
    '(first, in_) ← read_baseval in_;
    '(vals, in_) ← decode_blocks_sse2 num in_ (num - 1) interleaved first (drop 1 out);
    Some (first :: vals, in_).

(** ** The reader *)

Lemma rd_drop_any n m p k : (0 < n)%nat -> rd n (drop k m) p = rd n m (k + p).
Proof.
  intros Hn. destruct (decide (k <= length m)%nat); [by apply rd_drop|].
  unfold rd. rewrite length_drop, !decide_False by lia. done.
Qed.

(** Lane [k] of the reader is the [k]th of four portable readers. *)
Definition lane_reader (k : nat) (r : InterleavedBitReaderSSE2) : InterleavedBitReader :=
  IBR (drop (4 * k) (ibrs_in r)) (ibrs_bits r) (ibrs_bits_used r).

Definition next_reader (r : InterleavedBitReaderSSE2) : InterleavedBitReaderSSE2 :=
  let used := (ibrs_bits_used r + ibrs_bits r)%nat in
  IBRS (drop (16 * (used / 32)) (ibrs_in r)) (ibrs_bits r) (used mod 32).

Definition reader_ok (r : InterleavedBitReaderSSE2) : Prop := (ibrs_bits r <= 32)%nat /\ (ibrs_bits_used r < 32)%nat.

Lemma next_reader_ok r : reader_ok r -> reader_ok (next_reader r).
Proof. intros [Hb Hu]. split; [done|]. apply Nat.mod_upper_bound. lia. Qed.

Lemma lane_read k r : InterleavedBitReader_read (lane_reader k r) =
  lo ← rd 4 (ibrs_in r) (4 * k);
  val ← (if decide (32 < ibrs_bits_used r + ibrs_bits r)%nat then
           hi ← rd 4 (ibrs_in r) (4 * k + 16);
           Some (Z.lor (Z.shiftr lo (Z.of_nat (ibrs_bits_used r))) (u32 (Z.shiftl hi (Z.of_nat (32 - ibrs_bits_used r)))))
         else Some (Z.shiftr lo (Z.of_nat (ibrs_bits_used r))));
  Some (Z.land val (mask_for_bits (ibrs_bits r)), lane_reader k (next_reader r)).
Proof.
  unfold InterleavedBitReader_read, lane_reader, next_reader, Stride. cbn [ibr_in ibr_bits ibr_bits_used ibrs_in ibrs_bits ibrs_bits_used].
  rewrite !rd_drop_any, !drop_drop by lia. replace (4 * k + 0)%nat with (4 * k)%nat by lia.
  cbn [Nat.mul Nat.add]. rewrite (Nat.add_comm (4 * k)). done.
Qed.

Lemma lane_next k r x r' : InterleavedBitReader_read (lane_reader k r) = Some (x, r') -> r' = lane_reader k (next_reader r).
Proof.
  rewrite lane_read. destruct (rd 4 _ (4 * k)) as [lo|]; cbn [mbind option_bind]; [|done].
  destruct (if decide _ then _ else _); cbn [mbind option_bind]; [|done]. by intros [= _ <-].
Qed.

Lemma sse2_read r : reader_ok r -> InterleavedBitReaderSSE2_read r =
  '(a, r0) ← InterleavedBitReader_read (lane_reader 0 r); '(b, r1) ← InterleavedBitReader_read (lane_reader 1 r);
  '(c, r2) ← InterleavedBitReader_read (lane_reader 2 r); '(d, r3) ← InterleavedBitReader_read (lane_reader 3 r);
  Some (M128 a b c d, next_reader r).
Proof.
  intros [Hb Hu]. rewrite !lane_read. unfold InterleavedBitReaderSSE2_read, mm_loadu_si128, mm_srli_epi32, mm_slli_epi32.
  rewrite (proj2 (Nat.ltb_ge 31 (ibrs_bits_used r))) by lia. cbn [Nat.mul Nat.add].
  destruct (decide (32 < ibrs_bits_used r + ibrs_bits r)%nat).
  - rewrite (proj2 (Nat.ltb_ge 31 (32 - ibrs_bits_used r))) by lia.
    repeat (destruct (rd 4 (ibrs_in r) _) as [?|]; cbn [mbind option_bind]; try done).
  - repeat (destruct (rd 4 (ibrs_in r) _) as [?|]; cbn [mbind option_bind]; try done).
Qed.

(** ** Prefix sums *)

Lemma u32_mid x y z : u32 (x + u32 y + z) = u32 (x + y + z).
Proof. unfold u32. replace (x + y mod 2 ^ 32 + z) with (x + z + y mod 2 ^ 32) by lia. rewrite Zplus_mod_idemp_r. f_equal. lia. Qed.

Lemma u32_left x y : u32 (u32 x + y) = u32 (x + y).
Proof. apply Zplus_mod_idemp_l. Qed.

Lemma u32_right x y : u32 (x + u32 y) = u32 (x + y).
Proof. apply Zplus_mod_idemp_r. Qed.

Lemma u32_first x y z : u32 (u32 x + y + z) = u32 (x + y + z).
Proof. by rewrite <- !Z.add_assoc, u32_left. Qed.

Ltac u32_sums := repeat (rewrite u32_mid || rewrite u32_left || rewrite u32_right || rewrite u32_first); f_equal; lia.

(** Four steps of [delta_decode]. *)
Lemma decode_lanes prev v : let '(w, prev') := DeltaDecoderSSE2_decode (mm_set1_epi32 prev) v in
  exists p', prev' = mm_set1_epi32 p' /\ forall l, delta_decode prev (lanes v ++ l) = lanes w ++ delta_decode p' l.
Proof.
  destruct v as [a b c d]. eexists. split; [reflexivity|]. intros l.
  cbn [lanes app delta_decode e0 e1 e2 e3 DeltaDecoderSSE2_decode mm_add_epi32 lanewise2 mm_slli_si128_4 mm_slli_si128_8 mm_set1_epi32
    delta_4321 mm_set_epi32].
  assert (E1 : u32 (b + u32 (a + prev + 1) + 1) = u32 (a + b + prev + 2)) by u32_sums.
  assert (E2 : u32 (c + u32 (a + b + prev + 2) + 1) = u32 (a + b + c + prev + 3)) by u32_sums.
  assert (E3 : u32 (d + u32 (a + b + c + prev + 3) + 1) = u32 (a + b + c + d + prev + 4)) by u32_sums.
  assert (F0 : u32 (u32 (u32 (a + 0) + 0) + u32 (prev + 1)) = u32 (a + prev + 1)) by u32_sums.
  assert (F1 : u32 (u32 (u32 (b + a) + 0) + u32 (prev + 2)) = u32 (a + b + prev + 2)) by u32_sums.
  assert (F2 : u32 (u32 (u32 (c + b) + u32 (a + 0)) + u32 (prev + 3)) = u32 (a + b + c + prev + 3)) by u32_sums.
  assert (F3 : u32 (u32 (u32 (d + c) + u32 (b + a)) + u32 (prev + 4)) = u32 (a + b + c + d + prev + 4)) by u32_sums.
  rewrite E1, E2, E3, <- F0, <- F1, <- F2, <- F3. done.
Qed.

Lemma load_out_four (out : list Z) n : length out = (4 * S n)%nat ->
  exists v out', load_out out = Some (v, out') /\ out = lanes v ++ out' /\ length out' = (4 * n)%nat.
Proof.
  intros H. destruct out as [|a [|b [|c [|d out]]]]; cbn [length] in H; try lia.
  exists (M128 a b c d), out. split; [done|]. split; [done|]. lia.
Qed.

Lemma delta_loop_exact groups : forall prev out, length out = (4 * groups)%nat ->
  delta_loop_sse2 groups (mm_set1_epi32 prev) out = Some (delta_decode prev out).
Proof.
  induction groups as [|n IH]; intros prev out H; [by destruct out|].
  destruct (load_out_four out n H) as (v & out' & E & -> & Hl). cbn [delta_loop_sse2]. rewrite E. cbn [mbind option_bind].
  pose proof (decode_lanes prev v) as D. destruct (DeltaDecoderSSE2_decode _ v) as [w prev'].
  destruct D as (p' & -> & D). rewrite IH by done. cbn [mbind option_bind]. by rewrite D.
Qed.

(** ** The bitmap loop *)

(** [base | (high << bit_width)], where a shift by 32 gives zero. *)
Definition or_lanes (bit_width : nat) (base high : list Z) : list Z :=
  zip_with (fun b h => Z.lor b (if (31 <? bit_width)%nat then 0 else u32 (Z.shiftl h (Z.of_nat bit_width)))) base high.

Lemma bitmap_loop_exact or_ delta bit_width groups : forall r prev out, reader_ok r -> length out = (4 * groups)%nat ->
  bitmap_loop_sse2 or_ delta bit_width groups r (mm_set1_epi32 prev) out =
  base ← read_interleaved (lane_reader 0 r) (lane_reader 1 r) (lane_reader 2 r) (lane_reader 3 r) groups;
  let vals := if or_ : bool then or_lanes bit_width base out else base in
  Some (if delta : bool then delta_decode prev vals else vals).
Proof.
  induction groups as [|n IH]; intros r prev out Hr H.
  { destruct out; [|done]. cbn [bitmap_loop_sse2 read_interleaved mbind option_bind]. by destruct or_, delta. }
  destruct (load_out_four out n H) as (v & out' & E & -> & Hl). cbn [bitmap_loop_sse2 read_interleaved]. rewrite sse2_read by done.
  destruct (InterleavedBitReader_read (lane_reader 0 r)) as [[a r0]|] eqn:E0; cbn [mbind option_bind]; [|done].
  destruct (InterleavedBitReader_read (lane_reader 1 r)) as [[b r1]|] eqn:E1; cbn [mbind option_bind]; [|done].
  destruct (InterleavedBitReader_read (lane_reader 2 r)) as [[c r2]|] eqn:E2; cbn [mbind option_bind]; [|done].
  destruct (InterleavedBitReader_read (lane_reader 3 r)) as [[d r3]|] eqn:E3; cbn [mbind option_bind]; [|done].
  apply lane_next in E0 as ->. apply lane_next in E1 as ->. apply lane_next in E2 as ->. apply lane_next in E3 as ->.
  rewrite E. cbn [mbind option_bind].
  set (w := if or_ then mm_or_si128 (M128 a b c d) (mm_slli_epi32 v bit_width) else M128 a b c d).
  assert (Hw : forall base, (if or_ then or_lanes bit_width (a :: b :: c :: d :: base) (lanes v ++ out') else a :: b :: c :: d :: base)
    = lanes w ++ (if or_ then or_lanes bit_width base out' else base)) by (intros base; by destruct or_).
  clearbody w. pose proof (decode_lanes prev w) as D. destruct delta.
  - destruct (DeltaDecoderSSE2_decode _ w) as [x prev']. destruct D as (p' & -> & D). rewrite IH by (done || by apply next_reader_ok).
    destruct (read_interleaved _ _ _ _ n) as [base|]; cbn [mbind option_bind]; [|done]. by rewrite Hw, D.
  - rewrite IH by (done || by apply next_reader_ok).
    destruct (read_interleaved _ _ _ _ n) as [base|]; cbn [mbind option_bind]; [|done]. by rewrite Hw.
Qed.

(** ** Blocks *)

Lemma bitmap_sse2_exact or_ delta in_ bit_width prev out : (bit_width <= 32)%nat -> length out = 128%nat ->
  decode_bitmap_sse2 128 or_ delta in_ bit_width prev out =
  base ← read_streams 128 in_ bit_width;
  in_ ← advance (bytes_for_packed_bits 128 bit_width) in_;
  let vals := if or_ : bool then or_lanes bit_width base out else base in
  Some (if delta : bool then delta_decode prev vals else vals, in_).
Proof.
  intros Hb Hl. unfold decode_bitmap_sse2, decode_bitmap_sse2_unrolled, InterleavedBitReaderSSE2_new. rewrite decide_True by done.
  rewrite bitmap_loop_exact; [|split; [done|cbn [ibrs_bits_used]; lia]|done]. unfold read_streams, lane_reader.
  cbn [ibrs_in ibrs_bits ibrs_bits_used Nat.mul Nat.add]. rewrite drop_0. unfold InterleavedBitReader_new.
  by destruct (read_interleaved _ _ _ _ _).
Qed.

Lemma read_bit_width_le in_ b in' : read_bit_width in_ = Some (b, in') -> (b <= 32)%nat.
Proof. unfold read_bit_width. destruct in_; [done|]. cbn [next_byte mbind option_bind]. case_decide; [|done]. by intros [= <- _]. Qed.

Lemma for_sse2_exact in_ prev out : length out = 128%nat ->
  decode_for_interleaved_sse2 in_ prev out = decode_for_interleaved_generic 128 in_ prev.
Proof.
  intros Hl. unfold decode_for_interleaved_sse2, decode_for_interleaved_generic, read_bit_width.
  destruct in_ as [|b in_]; [done|]. cbn [next_byte mbind option_bind]. case_decide as Hb; cbn [mbind option_bind].
  - rewrite bitmap_sse2_exact by done. destruct (read_streams _ _ _); [|done]. cbn [mbind option_bind]. by destruct (advance _ _).
  - unfold decode_bitmap_sse2. by rewrite decide_False.
Qed.

Lemma read_interleaved_length groups : forall r0 r1 r2 r3 vs, read_interleaved r0 r1 r2 r3 groups = Some vs -> length vs = (4 * groups)%nat.
Proof.
  induction groups as [|n IH]; intros r0 r1 r2 r3 vs; cbn [read_interleaved]; [by intros [= <-]|].
  destruct (InterleavedBitReader_read r0) as [[a r0']|]; cbn [mbind option_bind]; [|done].
  destruct (InterleavedBitReader_read r1) as [[b r1']|]; cbn [mbind option_bind]; [|done].
  destruct (InterleavedBitReader_read r2) as [[c r2']|]; cbn [mbind option_bind]; [|done].
  destruct (InterleavedBitReader_read r3) as [[d r3']|]; cbn [mbind option_bind]; [|done].
  destruct (read_interleaved _ _ _ _ n) as [vs'|] eqn:E; cbn [mbind option_bind]; [|done].
  intros [= <-]. cbn [length]. rewrite (IH _ _ _ _ _ E). lia.
Qed.

Lemma read_streams_length in_ b base : read_streams 128 in_ b = Some base -> length base = 128%nat.
Proof. apply read_interleaved_length. Qed.

Lemma apply_exceptions_length exceptions b : forall in_ out out' in', apply_exceptions exceptions b in_ out = Some (out', in') ->
  length out' = length out.
Proof.
  induction exceptions as [|e exceptions IH]; intros in_ out out' in'; cbn [apply_exceptions]; [by intros [= <- _]|].
  destruct in_ as [|x in_]; [done|]. cbn [next_byte mbind option_bind]. destruct (out !! _) as [o|]; cbn [mbind option_bind]; [|done].
  destruct (shl32 e b) as [e'|]; cbn [mbind option_bind]; [|done]. intros H. rewrite (IH _ _ _ _ H). apply length_insert.
Qed.

Lemma vb_sse2_exact in_ prev out : length out = 128%nat ->
  decode_pfor_vb_interleaved_sse2 in_ prev out = decode_pfor_vb_interleaved_generic 128 in_ prev.
Proof.
  intros Hl. unfold decode_pfor_vb_interleaved_sse2, decode_pfor_vb_interleaved_generic, read_bit_width.
  destruct in_ as [|b in_]; [done|]. cbn [next_byte mbind option_bind].
  set (bit_width := Z.to_nat (Z.land b 63)). case_decide as Hb; cbn [mbind option_bind].
  2:{ destruct in_; [done|]. cbn [next_byte mbind option_bind]. unfold decode_bitmap_sse2. by rewrite decide_False. }
  destruct in_ as [|n in_]; [done|]. cbn [next_byte mbind option_bind]. rewrite bitmap_sse2_exact by done.
  destruct (read_streams 128 in_ bit_width) as [base|] eqn:Es; [|done]. cbn [mbind option_bind].
  destruct (advance _ in_) as [in1|]; [|done]. cbn [mbind option_bind].
  destruct (read_exceptions _ _ in1) as [[exceptions in2]|]; [|done]. cbn [mbind option_bind].
  destruct (apply_exceptions _ _ in2 base) as [[out' in3]|] eqn:Ea; [|done]. cbn [mbind option_bind].
  apply apply_exceptions_length in Ea. apply read_streams_length in Es.
  unfold delta_decode_sse2. by rewrite delta_loop_exact by (change (128 / 4)%nat with 32%nat; lia).
Qed.

Lemma or_shifted_lanes b base : forall high vals, or_shifted base high b = Some vals ->
  vals = or_lanes b base high /\ length high = length base.
Proof.
  induction base as [|x base IH]; intros high vals; destruct high as [|h high]; cbn [or_shifted]; try done; [by intros [= <-]|].
  unfold shl32. case_decide as Hb; cbn [mbind option_bind]; [|done].
  destruct (or_shifted base high b) as [out|] eqn:E; cbn [mbind option_bind]; [|done]. intros [= <-].
  destruct (IH _ _ E) as [-> Hl]. cbn [length]. split; [|lia]. unfold or_lanes. cbn [zip_with].
  by rewrite (proj2 (Nat.ltb_ge 31 b)) by lia.
Qed.

Lemma bitmap_sse2_refines in_ prev out r : decode_pfor_bitmap_interleaved_generic 128 in_ prev = Some r ->
  decode_pfor_bitmap_interleaved_sse2 in_ prev out = Some r.
Proof.
  unfold decode_pfor_bitmap_interleaved_sse2, decode_pfor_bitmap_interleaved_generic, read_bit_width.
  destruct in_ as [|b in_]; [done|]. cbn [next_byte mbind option_bind]. set (bit_width := Z.to_nat (Z.land b 63)).
  case_decide as Hb; cbn [mbind option_bind]; [|done].
  destruct (decode_pfor_bitmap_exceptions in_ 128 _) as [[high in1]|]; cbn [mbind option_bind]; [|done].
  destruct (read_streams 128 in1 bit_width) as [base|] eqn:Es; cbn [mbind option_bind]; [|done].
  destruct (or_shifted base high bit_width) as [vals|] eqn:Eo; cbn [mbind option_bind]; [|done].
  apply or_shifted_lanes in Eo as [-> Hl]. rewrite (read_streams_length _ _ _ Es) in Hl.
  rewrite bitmap_sse2_exact, Es by done. cbn [mbind option_bind]. by destruct (advance _ in1).
Qed.

(** ** Posting lists *)

Lemma block_sse2_refines in_ num interleaved prev out r : length out = num ->
  decode_block 128 in_ num interleaved prev = Some r -> decode_block_sse2 in_ num interleaved prev out = Some r.
Proof.
  intros Hl. unfold decode_block, decode_block_sse2. destruct (rd 1 in_ 0) as [b|]; cbn [mbind option_bind]; [|done].
  destruct (interleaved && (num =? 128)%nat) eqn:Ew; [|done]. apply andb_true_iff in Ew as [_ ->%Nat.eqb_eq].
  rewrite for_sse2_exact, vb_sse2_exact by done. repeat (case_match; try done). apply bitmap_sse2_refines.
Qed.

Lemma blocks_sse2_refines fuel : forall in_ left interleaved prev out r, length out = left ->
  decode_blocks fuel 128 in_ left interleaved prev = Some r -> decode_blocks_sse2 fuel in_ left interleaved prev out = Some r.
Proof.
  induction fuel as [|fuel IH]; intros in_ left interleaved prev out r Hl; cbn [decode_blocks decode_blocks_sse2]; [done|].
  destruct (left =? 0)%nat; [done|]. destruct (decode_block 128 in_ _ _ _) as [[vals in1]|] eqn:Eb; cbn [mbind option_bind]; [|done].
  rewrite (block_sse2_refines _ (Nat.min left 128) _ _ (take (Nat.min left 128) out) _ ltac:(rewrite length_take; lia) Eb). cbn [mbind option_bind].
  destruct (decode_blocks fuel 128 in1 _ _ _) as [[rest in2]|] eqn:Er; cbn [mbind option_bind]; [|done].
  rewrite (IH _ (left - 128)%nat _ _ (drop (Nat.min left 128) out) _ ltac:(rewrite length_drop; lia) Er). done.
Qed.

Lemma list_sse2_refines in_ num interleaved out r : length out = num ->
  decode_pfor_delta1_128 in_ num interleaved = Some r -> decode_pfor_delta1_128_sse2 in_ num interleaved out = Some r.
Proof.
  intros Hl. unfold decode_pfor_delta1_128, decode_pfor_delta1, decode_pfor_delta1_128_sse2. destruct (num =? 0)%nat; [done|].
  destruct (read_baseval in_) as [[first in1]|]; cbn [mbind option_bind]; [|done].
  destruct (decode_blocks _ _ in1 _ _ _) as [[vals in2]|] eqn:E; cbn [mbind option_bind]; [|done].
  by rewrite (blocks_sse2_refines _ _ (num - 1) _ _ (drop 1 out) _ ltac:(rewrite length_drop; lia) E).
Qed.

(** C17. On a processor with SSE2 a posting list is decoded to the same numbers, and as
    far, as by the portable decoder wherever that one reads the list: four streams
    at a time, by prefix sums modulo 2^32, and whatever the output held before. *)
Theorem sse2_decodes_same in_ num interleaved out vals rest : length out = num ->
  decode_pfor_delta1_128 in_ num interleaved = Some (vals, rest) ->
  decode_pfor_delta1_128_sse2 in_ num interleaved out = Some (vals, rest).
Proof. apply list_sse2_refines. Qed.

(** ** Witnesses and examples *)

(** The first number, two whole blocks, one of them with exceptions, and 44 more. *)
Definition list_ids : list Z := map (fun i => 3 * Z.of_nat i + if (i mod 50 =? 0)%nat then 1 else 0) (seq 1 300).

Definition list_encoded : bytes :=
  match build_posting_list (repeat 0 133) (repeat 7 641) 2 (list_ids ++ [40000; 9000000]) with Some pl => encoded pl | None => [] end.

Lemma sse2_decodes_same_witness :
  decode_pfor_delta1_128_sse2 (list_encoded ++ repeat 1 16) 303 true (repeat 9 303) =
    Some (2 :: list_ids ++ [40000; 9000000], repeat 1 16).
Proof.
  apply (sse2_decodes_same (list_encoded ++ repeat 1 16) 303 true (repeat 9 303) (2 :: list_ids ++ [40000; 9000000]) (repeat 1 16)).
  - reflexivity.
  - vm_compute. reflexivity.
Defined.

(** A block with a bitmap whose values are 32 bits wide: the portable decoder shifts by
    32, which C++ does not define; the intrinsics give zero. *)
Definition wide_block : bytes := 160 :: 0 :: repeat 0 16 ++ concat (repeat [255; 255; 255; 255] 128) ++ repeat 0 16.

Example bitmap_of_width_32 :
  decode_block 128 wide_block 128 true 5 = None /\
  decode_block_sse2 wide_block 128 true 5 (repeat 0 128) = Some (repeat 5 128, repeat 0 16).
Proof. split; vm_compute; reflexivity. Qed.
