(* ===== verification/HashTable.v ===== *)
(** * The on-disk hash table of trigrams

    [hash_trigram] (include/db.h); prime sizes, Robin Hood insertion and the
    offset pass of [finish_corpus] (src/database-builder.cpp);
    [Corpus::find_trigram] (src/flocate.cpp).  Indexes are [Z]; an access
    outside the table gives [None]. *)
From S2P Require Import Prelude.
From Stdlib Require Import Znumtheory.

(** ** Hashing and prime sizes *)

Record Trigram := TG { trgm : Z; tg_num_docids : Z; tg_offset : Z }.

Fixpoint crc_loop (n : nat) (crc : Z) : Z :=
  match n with
  | O => crc
  | S n =>
    let bit := negb (Z.land crc 2147483648 =? 0) in
    let crc := u32 (Z.shiftl crc 1) in
    crc_loop n (if bit then Z.lxor crc 517762113 else crc)
  end.

Definition hash_trigram (trgm ht_size : Z) : Z := crc_loop 32 trgm mod ht_size.

(** [factor] from [factor] to [limit]. *)
Fixpoint factor_loop (n : nat) (factor x : Z) : bool :=
  match n with
  | O => true
  | S n => if x mod factor =? 0 then false else factor_loop n (factor + 1) x
  end.

(** [ceil(sqrt(x))] on doubles is exact for 32-bit [x]. *)
Definition is_prime (x : Z) : bool :=
  if (x mod 2 =? 0) || (x mod 3 =? 0) then false
  else factor_loop (Z.to_nat (Z.sqrt_up x - 4)) 5 x.

Fixpoint next_prime_loop (fuel : nat) (x : Z) : option Z :=
  if is_prime x then Some x
  else match fuel with O => None | S fuel => next_prime_loop fuel (u32 (x + 2)) end.

Definition next_prime (fuel : nat) (x : Z) : option Z :=
  next_prime_loop fuel (if x mod 2 =? 0 then u32 (x + 1) else x).

(** ** Building *)

Definition num_overflow_slots : Z := 16.

Definition empty_slot : Trigram := TG (u32 (-1)) 0 0.

Definition get (ht : list Trigram) (i : Z) : option Trigram :=
  if decide (0 <= i) then ht !! Z.to_nat i else None.

(** The probe loop of one insertion: [None] is an access outside the array (or
    no fuel), [Some None] the early [return nullptr]. *)
Fixpoint insert_loop (fuel : nat) (ht_size num_overflow_slots : Z) (ht : list Trigram)
    (to_insert : Trigram) (bucket distance : Z) : option (option (list Trigram)) :=
  match fuel with
  | O => None
  | S fuel =>
    e ← get ht bucket;
    if tg_num_docids e =? 0 then Some (Some (<[Z.to_nat bucket := to_insert]> ht))
    else
      let other_distance := u32 (bucket - hash_trigram (trgm e) ht_size) in
      let '(ht, to_insert, distance) :=
        if distance >? other_distance
        then (<[Z.to_nat bucket := to_insert]> ht, e, other_distance)
        else (ht, to_insert, distance) in
      let bucket := bucket + 1 in
      let distance := distance + 1 in
      if distance >? num_overflow_slots then Some None
      else insert_loop fuel ht_size num_overflow_slots ht to_insert bucket distance
  end.

(** [docids t] is [corpus.get_pl_builder(t).get_num_docids()]. *)
Fixpoint insert_all (docids : Z -> Z) (all_trigrams : list Z) (ht_size num_overflow_slots : Z)
    (ht : list Trigram) : option (option (list Trigram)) :=
  match all_trigrams with
  | [] => Some (Some ht)
  | t :: all_trigrams =>
    r ← insert_loop (length ht) ht_size num_overflow_slots ht (TG t (docids t) 0)
          (hash_trigram t ht_size) 0;
    match r with
    | None => Some None
    | Some ht => insert_all docids all_trigrams ht_size num_overflow_slots ht
    end
  end.

Definition create_hashtable (docids : Z -> Z) (all_trigrams : list Z)
    (ht_size num_overflow_slots : Z) : option (option (list Trigram)) :=
  insert_all docids all_trigrams ht_size num_overflow_slots
    (repeat empty_slot (Z.to_nat (ht_size + num_overflow_slots + 1))).

(** The retry loop of [finish_corpus]; [x * 1.05] on doubles rounds to the exact
    [21 x / 20] whenever that is an integer, and truncates below otherwise. *)
Fixpoint build_hashtable (fuel prime_fuel : nat) (docids : Z -> Z) (all_trigrams : list Z)
    (ht_size : Z) : option (Z * list Trigram) :=
  match fuel with
  | O => None
  | S fuel =>
    r ← create_hashtable docids all_trigrams ht_size num_overflow_slots;
    match r with
    | Some ht => Some (ht_size, ht)
    | None =>
      ht_size ← next_prime prime_fuel (ht_size * 21 / 20);
      build_hashtable fuel prime_fuel docids all_trigrams ht_size
    end
  end.

(** The offset pass; [encoded t] is the posting list of [t]. *)
Fixpoint assign_offsets (encoded : Z -> bytes) (offset : Z) (ht : list Trigram) : list Trigram :=
  match ht with
  | [] => []
  | e :: ht =>
    TG (trgm e) (tg_num_docids e) offset ::
    assign_offsets encoded
      (if tg_num_docids e =? 0 then offset
       else u64 (offset + Z.of_nat (length (encoded (trgm e))))) ht
  end.

(** The posting lists as written after the table. *)
Fixpoint write_posting_lists (encoded : Z -> bytes) (ht : list Trigram) : bytes :=
  match ht with
  | [] => []
  | e :: ht => (if tg_num_docids e =? 0 then [] else encoded (trgm e)) ++
               write_posting_lists encoded ht
  end.

(** ** Looking up *)

(** [slots_left] slots remain to be compared. *)
Fixpoint find_loop (slots_left : nat) (slots : list Trigram) (t : Z) : option (option (Trigram * Z)) :=
  match slots_left with
  | O => Some None
  | S slots_left =>
    match slots with
    | e :: slots =>
      if trgm e =? t then
        match slots with
        | e' :: _ => Some (Some (e, u64 (tg_offset e' - tg_offset e)))
        | [] => None
        end
      else find_loop slots_left slots t
    | [] => None
    end
  end.

(** The read of [extra_ht_slots + 2] slots at the home bucket, then the scan. *)
Definition find_trigram (hashtable_size extra_ht_slots : Z) (ht : list Trigram) (t : Z)
    : option (option (Trigram * Z)) :=
  let bucket := hash_trigram t hashtable_size in
  if decide (bucket + extra_ht_slots + 2 <= Z.of_nat (length ht)) then
    find_loop (Z.to_nat (extra_ht_slots + 1)) (drop (Z.to_nat bucket) ht) t
  else None.

(** ** Primes *)

Lemma factor_loop_true n : forall f x, factor_loop n f x = true <->
  (forall d, f <= d < f + Z.of_nat n -> x mod d <> 0).
Proof.
  induction n as [|n IH]; intros f x; cbn [factor_loop]; [split; [intros _ d Hd; lia|done]|].
  destruct (Z.eqb_spec (x mod f) 0) as [E|E].
  - split; [done|]. intros H. exfalso. apply (H f); [lia|done].
  - rewrite IH. split; intros H d Hd.
    + destruct (decide (d = f)) as [->|]; [done|]. apply H. lia.
    + apply H. lia.
Qed.

Lemma mod_0_divide x d : 0 < d -> x mod d = 0 <-> (d | x).
Proof. intros H. apply Z.mod_divide. lia. Qed.

(** A composite number has a factor no larger than its square root. *)
Lemma small_factor x : 3 < x -> ~ prime x -> exists d, 1 < d /\ d * d <= x /\ (d | x).
Proof.
  intros Hx Hp. destruct (not_prime_divide x ltac:(lia) Hp) as (d & Hd & [e He]).
  destruct (Z.le_ge_cases d e).
  - exists d. split; [lia|]. split; [nia|]. by exists e.
  - exists e. assert (0 < e) by nia. assert (1 < e) by nia.
    split; [lia|]. split; [nia|]. exists d. lia.
Qed.

Lemma sqrt_up_bound x d : 0 < x -> 0 <= d -> d * d <= x -> d <= Z.sqrt_up x.
Proof.
  intros Hx Hd H. destruct (Z.le_gt_cases d (Z.sqrt_up x)); [done|].
  pose proof (Z.sqrt_sqrt_up_spec x ltac:(lia)) as [_ Hs].
  pose proof (Z.sqrt_up_nonneg x). nia.
Qed.

Lemma sqrt_up_lt x : 3 < x -> Z.sqrt_up x < x.
Proof.
  intros H. apply Z.sqrt_up_lt_lin. lia.
Qed.

Lemma is_prime_iff x : 3 < x -> is_prime x = true <-> prime x.
Proof.
  intros Hx. unfold is_prime. pose proof (sqrt_up_lt x Hx) as Hs. split.
  - intros H. destruct (prime_dec x) as [|Hp]; [done|].
    destruct (small_factor x Hx Hp) as (d & Hd & Hdd & Hdiv).
    pose proof (sqrt_up_bound x d ltac:(lia) ltac:(lia) Hdd) as Hle.
    destruct (Z.eqb_spec (x mod 2) 0) as [|H2]; [done|].
    destruct (Z.eqb_spec (x mod 3) 0) as [|H3]; [done|]. cbn [orb] in H.
    rewrite mod_0_divide in H2, H3 by lia.
    destruct (decide (d < 5)).
    + exfalso. assert (Hc : d = 2 \/ d = 3 \/ d = 4) by lia.
      destruct Hc as [->|[->| ->]]; [done|done|]. apply H2.
      destruct Hdiv as [k Hk]. exists (2 * k). lia.
    + exfalso. apply (proj1 (factor_loop_true _ _ _) H d); [lia|]. by apply mod_0_divide; [lia|].
  - intros Hp. assert (Hn : forall d, 1 < d < x -> x mod d <> 0).
    { intros d Hd Hm. apply mod_0_divide in Hm; [|lia].
      destruct (prime_divisors x Hp d Hm) as [?|[?|[?|?]]]; lia. }
    destruct (Z.eqb_spec (x mod 2) 0) as [E|_]; [by apply Hn in E; lia|].
    destruct (Z.eqb_spec (x mod 3) 0) as [E|_]; [by apply Hn in E; lia|]. cbn [orb].
    apply factor_loop_true. intros d Hd. apply Hn. lia.
Qed.

(** The largest prime below 2^32. *)
Lemma last_prime : is_prime 4294967291 = true.
Proof. vm_compute. reflexivity. Qed.

Lemma next_prime_loop_spec n : forall fuel x, (n <= fuel)%nat -> x mod 2 = 1 -> 0 < x ->
  x + 2 * Z.of_nat n = 4294967291 ->
  exists p, next_prime_loop fuel x = Some p /\ x <= p <= 4294967291 /\ is_prime p = true /\
    forall q, x <= q < p -> q mod 2 = 1 -> is_prime q = false.
Proof.
  induction n as [|n IH]; intros fuel x Hf Hodd Hx Hn.
  { assert (x = 4294967291) as -> by lia. exists 4294967291.
    split; [|split; [lia|split; [apply last_prime|intros; lia]]].
    destruct fuel; cbn [next_prime_loop]; by rewrite last_prime. }
  destruct (is_prime x) eqn:E.
  { exists x. split; [|split; [lia|split; [done|intros; lia]]].
    destruct fuel; cbn [next_prime_loop]; by rewrite E. }
  destruct fuel as [|fuel]; [lia|]. cbn [next_prime_loop]. rewrite E.
  rewrite u32_small by (unfold is_u32; change (2 ^ 32) with 4294967296; lia).
  destruct (IH fuel (x + 2)) as (p & H1 & H2 & H3 & H4); [lia| |lia|lia|].
  { by rewrite <- (Z_mod_plus_full x 1 2) in Hodd. }
  exists p. split; [done|]. split; [lia|]. split; [done|]. intros q Hq Ho.
  destruct (decide (q = x)) as [->|Hne]; [done|]. apply H4; [|done].
  destruct (decide (q = x + 1)) as [->|]; [|lia].
  rewrite Z.add_mod, Hodd in Ho by lia. done.
Qed.

(** ** Hash values *)

Lemma hash_trigram_range t n : 0 < n -> 0 <= hash_trigram t n < n.
Proof. intros H. by apply Z.mod_pos_bound. Qed.

(** ** Robin Hood insertion *)

Definition occupied (e : Trigram) : Prop := tg_num_docids e <> 0.

#[global] Instance occupied_dec e : Decision (occupied e).
Proof. unfold occupied. apply _. Defined.

(** The occupied slots, in table order. *)
Definition entries (ht : list Trigram) : list Trigram := filter occupied ht.

Record ht_inv (ht_size slots : Z) (ht : list Trigram) : Prop := {
  hi_len : Z.of_nat (length ht) = ht_size + slots + 1;
  hi_home : forall i e, ht !! i = Some e -> occupied e ->
    hash_trigram (trgm e) ht_size <= Z.of_nat i <= hash_trigram (trgm e) ht_size + slots;
  hi_empty : forall i e, ht !! i = Some e -> ~ occupied e -> trgm e = u32 (-1)
}.

Lemma ht_inv_empty ht_size slots : 0 < ht_size -> 0 <= slots ->
  ht_inv ht_size slots (repeat empty_slot (Z.to_nat (ht_size + slots + 1))).
Proof.
  intros H1 H2. constructor.
  - rewrite repeat_length. lia.
  - intros i e He Ho. apply list_elem_of_lookup_2, list_elem_of_In, repeat_spec in He. subst.
    by destruct Ho.
  - intros i e He Ho. apply list_elem_of_lookup_2, list_elem_of_In, repeat_spec in He. by subst.
Qed.

Lemma entries_empty n : entries (repeat empty_slot n) = [].
Proof.
  induction n as [|n IH]; [done|]. cbn [repeat]. unfold entries. rewrite filter_cons_False; [exact IH|].
  unfold occupied. cbn. lia.
Qed.

Lemma get_lookup ht i e : get ht i = Some e -> 0 <= i /\ ht !! Z.to_nat i = Some e.
Proof. unfold get. case_decide; [done|discriminate]. Qed.

Lemma get_is_Some ht i : 0 <= i < Z.of_nat (length ht) -> exists e, get ht i = Some e.
Proof.
  intros H. unfold get. rewrite decide_True by lia.
  destruct (lookup_lt_is_Some_2 ht (Z.to_nat i)) as [e He]; [lia|eauto].
Qed.

Lemma perm_exchange {A} (l k : list A) e x : e :: l ++ x :: k ≡ₚ x :: l ++ e :: k.
Proof.
  transitivity (e :: x :: l ++ k); [constructor; symmetry; apply Permutation_middle|].
  transitivity (x :: e :: l ++ k); [apply perm_swap|constructor; apply Permutation_middle].
Qed.

(** Replacing a slot exchanges its entry. *)
Lemma entries_insert ht i e x : ht !! i = Some e -> occupied x ->
  (if decide (occupied e) then [e] else []) ++ entries (<[i := x]> ht) ≡ₚ x :: entries ht.
Proof.
  intros He Hx. pose proof (lookup_lt_Some _ _ _ He) as Hi.
  rewrite <- (take_drop_middle ht i e He) at 2. rewrite insert_take_drop by done.
  unfold entries. rewrite !filter_app, (filter_cons_True _ x) by done.
  case_decide.
  - rewrite filter_cons_True by done. cbn [app].
    apply perm_exchange.
  - rewrite filter_cons_False by done. cbn [app]. symmetry. apply Permutation_middle.
Qed.

Lemma ht_inv_insert ht_size slots ht i x :
  ht_inv ht_size slots ht -> (i < length ht)%nat -> occupied x ->
  hash_trigram (trgm x) ht_size <= Z.of_nat i <= hash_trigram (trgm x) ht_size + slots ->
  ht_inv ht_size slots (<[i := x]> ht).
Proof.
  intros [H1 H2 H3] Hi Hx Hh. constructor.
  - by rewrite length_insert.
  - intros j e He Ho. apply list_lookup_insert_Some in He as [(<- & <- & _)|[_ He]]; eauto.
  - intros j e He Ho. apply list_lookup_insert_Some in He as [(<- & <- & _)|[_ He]]; eauto. done.
Qed.

(** One insertion: it never leaves the array, and when it succeeds the table has
    exactly one more entry. *)
Lemma insert_loop_spec ht_size slots fuel : forall ht x bucket distance,
  0 < ht_size -> 0 <= slots -> ht_size + slots < 2 ^ 32 ->
  ht_inv ht_size slots ht -> occupied x ->
  bucket = hash_trigram (trgm x) ht_size + distance -> 0 <= distance <= slots ->
  ht_size + slots < bucket + Z.of_nat fuel ->
  exists r, insert_loop fuel ht_size slots ht x bucket distance = Some r /\
    match r with
    | None => True
    | Some ht' => ht_inv ht_size slots ht' /\ entries ht' ≡ₚ x :: entries ht
    end.
Proof.
  induction fuel as [|fuel IH]; intros ht x bucket distance Hn Hs Hmax Hinv Hx Hb Hd Hf.
  { pose proof (hash_trigram_range (trgm x) ht_size Hn). lia. }
  pose proof (hash_trigram_range (trgm x) ht_size Hn) as Hr.
  cbn [insert_loop]. destruct (get_is_Some ht bucket) as [e He].
  { rewrite (hi_len _ _ _ Hinv). lia. }
  rewrite He. cbn [mbind option_bind]. apply get_lookup in He as [H0 He].
  pose proof (lookup_lt_Some _ _ _ He) as Hlt.
  assert (Hbi : Z.of_nat (Z.to_nat bucket) = bucket) by lia.
  pose proof (entries_insert ht _ e x He Hx) as Hperm.
  assert (Hinv1 : ht_inv ht_size slots (<[Z.to_nat bucket := x]> ht)).
  { apply ht_inv_insert; auto. rewrite Hbi. lia. }
  destruct (Z.eqb_spec (tg_num_docids e) 0) as [Hz|Hnz].
  { eexists. split; [done|]. split; [done|]. rewrite decide_False in Hperm by (unfold occupied; lia).
    exact Hperm. }
  rewrite decide_True in Hperm by exact Hnz.
  pose proof (hi_home _ _ _ Hinv _ _ He Hnz) as Hhome. rewrite Hbi in Hhome.
  rewrite u32_small by (unfold is_u32; change (2 ^ 32) with 4294967296 in *; lia).
  destruct (distance >? bucket - hash_trigram (trgm e) ht_size) eqn:Hgt.
  - destruct (_ >? slots) eqn:Hover; [exists None; split; [reflexivity|exact I]|].
    destruct (IH (<[Z.to_nat bucket := x]> ht) e (bucket + 1) (bucket - hash_trigram (trgm e) ht_size + 1))
      as (r & Er & Hr'); auto; try lia.
    exists r. split; [done|]. destruct r as [ht'|]; [|done]. destruct Hr' as [Hi' Hp'].
    split; [done|]. rewrite Hp'. exact Hperm.
  - destruct (_ >? slots) eqn:Hover; [exists None; split; [reflexivity|exact I]|].
    apply (IH ht x (bucket + 1) (distance + 1)); auto; lia.
Qed.

Definition new_entry (docids : Z -> Z) (t : Z) : Trigram := TG t (docids t) 0.

Lemma insert_all_spec docids ht_size slots ts : forall ht,
  0 < ht_size -> 0 <= slots -> ht_size + slots < 2 ^ 32 -> ht_inv ht_size slots ht ->
  Forall (fun t => docids t <> 0) ts ->
  exists r, insert_all docids ts ht_size slots ht = Some r /\
    match r with
    | None => True
    | Some ht' => ht_inv ht_size slots ht' /\
        entries ht' ≡ₚ map (new_entry docids) ts ++ entries ht
    end.
Proof.
  induction ts as [|t ts IH]; intros ht Hn Hs Hmax Hinv F; cbn [insert_all]; [exists (Some ht); split; [reflexivity|by split]|].
  apply Forall_cons in F as [Ht F].
  pose proof (hash_trigram_range t ht_size Hn) as Hr.
  destruct (insert_loop_spec ht_size slots (length ht) ht (TG t (docids t) 0) (hash_trigram t ht_size) 0)
    as (r & Er & Hr'); try assumption.
  { cbn [trgm]. lia. }
  { lia. }
  { rewrite (hi_len _ _ _ Hinv). lia. }
  rewrite Er. cbn [mbind option_bind]. destruct r as [ht'|]; [|exists None; split; [reflexivity|exact I]].
  destruct Hr' as [Hinv' Hp']. destruct (IH ht') as (r & Er2 & Hr2); auto.
  exists r. split; [done|]. destruct r as [ht2|]; [|done]. destruct Hr2 as [Hi2 Hp2].
  split; [done|]. rewrite Hp2, Hp'. cbn [map app]. symmetry. apply Permutation_middle.
Qed.

Lemma create_hashtable_spec docids ts ht_size slots :
  0 < ht_size -> 0 <= slots -> ht_size + slots < 2 ^ 32 -> Forall (fun t => docids t <> 0) ts ->
  exists r, create_hashtable docids ts ht_size slots = Some r /\
    match r with
    | None => True
    | Some ht => ht_inv ht_size slots ht /\ entries ht ≡ₚ map (new_entry docids) ts
    end.
Proof.
  intros Hn Hs Hmax F. unfold create_hashtable.
  destruct (insert_all_spec docids ht_size slots ts _ Hn Hs Hmax (ht_inv_empty _ _ Hn Hs) F)
    as (r & Er & Hr). exists r. split; [done|].
  destruct r as [ht|]; [|done]. by rewrite entries_empty, app_nil_r in Hr.
Qed.

(** ** Lookup *)

Lemma find_loop_spec n : forall slots t, (n < length slots)%nat ->
  (find_loop n slots t = Some None /\
   forall i e, (i < n)%nat -> slots !! i = Some e -> trgm e <> t) \/
  (exists i e e', (i < n)%nat /\ slots !! i = Some e /\ slots !! S i = Some e' /\ trgm e = t /\
   find_loop n slots t = Some (Some (e, u64 (tg_offset e' - tg_offset e)))).
Proof.
  induction n as [|n IH]; intros slots t Hn; [left; split; [done|lia]|].
  destruct slots as [|e slots]; [cbn [length] in Hn; lia|]. cbn [find_loop].
  destruct (Z.eqb_spec (trgm e) t) as [E|E].
  - destruct slots as [|e' slots]; [cbn [length] in Hn; lia|]. right.
    exists 0%nat, e, e'. auto with lia.
  - destruct (IH slots t) as [[H1 H2]|(i & e1 & e2 & H1 & H2 & H3 & H4 & H5)];
      [cbn [length] in Hn; lia| |].
    + left. split; [done|]. intros [|i] e1 Hi He1; [by injection He1 as <-|].
      apply (H2 i); [lia|done].
    + right. exists (S i), e1, e2. auto with lia.
Qed.

(** Where the posting list of slot [i] starts. *)
Definition position (encoded : Z -> bytes) (ht : list Trigram) (i : nat) : Z :=
  Z.of_nat (length (write_posting_lists encoded (take i ht))).

Lemma position_S encoded ht i e : ht !! i = Some e ->
  position encoded ht (S i) = position encoded ht i +
    (if tg_num_docids e =? 0 then 0 else Z.of_nat (length (encoded (trgm e)))).
Proof.
  unfold position. revert i. induction ht as [|a ht IH]; intros [|i] H; try done.
  - injection H as ->. cbn [take]. change (take 0 ht) with (@nil Trigram). cbn [write_posting_lists].
    rewrite app_nil_r. destruct (tg_num_docids e =? 0); cbn [length]; lia.
  - cbn in H. change (take (S (S i)) (a :: ht)) with (a :: take (S i) ht).
    change (take (S i) (a :: ht)) with (a :: take i ht). cbn [write_posting_lists].
    rewrite !length_app. specialize (IH i H). lia.
Qed.

Lemma position_total encoded ht i :
  position encoded ht i <= Z.of_nat (length (write_posting_lists encoded ht)).
Proof.
  unfold position. revert i. induction ht as [|a ht IH]; intros [|i]; cbn [take write_posting_lists];
    try (cbn; lia). rewrite !length_app. specialize (IH i). lia.
Qed.

Lemma assign_offsets_lookup encoded : forall ht i e off, ht !! i = Some e -> 0 <= off ->
  off + Z.of_nat (length (write_posting_lists encoded ht)) < 2 ^ 64 ->
  assign_offsets encoded off ht !! i
  = Some (TG (trgm e) (tg_num_docids e) (off + position encoded ht i)).
Proof.
  induction ht as [|a ht IH]; intros [|i] e off H Hoff Htot; try done; cbn [assign_offsets].
  - injection H as ->. cbn. by rewrite Z.add_0_r.
  - cbn in H. cbn [write_posting_lists] in Htot. rewrite length_app in Htot.
    change ((?x :: ?l) !! S i) with (l !! i).
    unfold position. cbn [take write_posting_lists]. rewrite length_app.
    destruct (tg_num_docids a =? 0).
    + cbn [length] in Htot |- *. rewrite (IH i e off H); auto; lia.
    + rewrite u64_small by (unfold is_u64; lia). rewrite (IH i e); auto; [|lia|lia].
      unfold position. do 2 f_equal. lia.
Qed.

Lemma length_assign_offsets encoded ht : forall off, length (assign_offsets encoded off ht) = length ht.
Proof. induction ht as [|e ht IH]; intros off; cbn; auto. Qed.

(** The bytes at a slot's position are its posting list. *)
Lemma posting_list_at encoded ht i e : ht !! i = Some e -> tg_num_docids e <> 0 ->
  take (length (encoded (trgm e)))
    (drop (Z.to_nat (position encoded ht i)) (write_posting_lists encoded ht)) = encoded (trgm e).
Proof.
  intros H He. pose proof (take_drop_middle ht i e H) as Hs. unfold position.
  rewrite Nat2Z.id.
  assert (Happ : forall l k, write_posting_lists encoded (l ++ k)
    = write_posting_lists encoded l ++ write_posting_lists encoded k).
  { induction l as [|a l IH]; intros k; [done|]. cbn [app write_posting_lists].
    by rewrite IH, app_assoc. }
  rewrite <- Hs at 2. rewrite Happ, drop_app_length. cbn [write_posting_lists].
  destruct (Z.eqb_spec (tg_num_docids e) 0); [done|]. apply take_app_length.
Qed.

Lemma drop_lookup {A} (l : list A) k i : drop k l !! i = l !! (k + i)%nat.
Proof. apply lookup_drop. Qed.

(** The window a lookup reads lies inside the table. *)
Lemma find_trigram_window ht_size slots ht t :
  ht_inv ht_size slots ht -> 0 < ht_size ->
  hash_trigram t ht_size + slots + 2 <= Z.of_nat (length ht).
Proof.
  intros Hinv Hn. rewrite (hi_len _ _ _ Hinv).
  pose proof (hash_trigram_range t ht_size Hn). lia.
Qed.

(** Slots that match a 24-bit trigram are occupied. *)
Lemma match_occupied ht_size slots ht i e t :
  ht_inv ht_size slots ht -> ht !! i = Some e -> trgm e = t -> 0 <= t < 2 ^ 24 -> occupied e.
Proof.
  intros Hinv He Ht Hr. destruct (decide (occupied e)) as [|Hno]; [done|].
  pose proof (hi_empty _ _ _ Hinv i e He Hno) as Hm. rewrite Ht in Hm.
  change (u32 (-1)) with 4294967295 in Hm. change (2 ^ 24) with 16777216 in Hr. lia.
Qed.

Lemma entries_elem ht e : e ∈ entries ht <-> occupied e /\ e ∈ ht.
Proof. unfold entries. apply list_elem_of_filter. Qed.

Lemma elem_new_entry docids ts e : e ∈ map (new_entry docids) ts ->
  trgm e ∈ ts /\ e = new_entry docids (trgm e).
Proof.
  intros H. apply list_elem_of_In, in_map_iff in H as (t & <- & Ht).
  split; [by apply list_elem_of_In|done].
Qed.

Section Lookup.
Context (docids : Z -> Z) (encoded : Z -> bytes) (ts : list Z) (ht_size off : Z) (ht : list Trigram).
Context (Hsize : 0 < ht_size) (Hinv : ht_inv ht_size num_overflow_slots ht).
Context (Hperm : entries ht ≡ₚ map (new_entry docids) ts).
Context (Hts : Forall (fun t => docids t <> 0) ts) (Hoff : 0 <= off).
Context (Htot : off + Z.of_nat (length (write_posting_lists encoded ht)) < 2 ^ 64).

Lemma find_present t : 0 <= t < 2 ^ 24 -> t ∈ ts ->
  exists o, find_trigram ht_size num_overflow_slots (assign_offsets encoded off ht) t
    = Some (Some (TG t (docids t) o, Z.of_nat (length (encoded t)))) /\
    off <= o /\
    take (length (encoded t)) (drop (Z.to_nat (o - off)) (write_posting_lists encoded ht)) = encoded t /\
    o + Z.of_nat (length (encoded t)) <= off + Z.of_nat (length (write_posting_lists encoded ht)).
Proof using Hsize Hinv Hperm Hts Hoff Htot.
  intros Hr Ht. pose proof (hash_trigram_range t ht_size Hsize) as Hh.
  pose proof (find_trigram_window ht_size num_overflow_slots ht t Hinv Hsize) as Hw.
  unfold find_trigram. rewrite length_assign_offsets, decide_True by done.
  assert (Hent : new_entry docids t ∈ entries ht).
  { rewrite Hperm. apply list_elem_of_In, in_map, list_elem_of_In. done. }
  apply entries_elem in Hent as [Hocc Hent]. apply list_elem_of_lookup in Hent as [i Hi].
  pose proof (hi_home _ _ _ Hinv i _ Hi Hocc) as Hhome. cbn [trgm new_entry] in Hhome.
  destruct (find_loop_spec (Z.to_nat (num_overflow_slots + 1))
    (drop (Z.to_nat (hash_trigram t ht_size)) (assign_offsets encoded off ht)) t)
    as [[_ Hno]|(j & e & e' & Hj & He & He' & Htr & ->)].
  { rewrite length_drop, length_assign_offsets. unfold num_overflow_slots in *. lia. }
  { exfalso. apply (Hno (i - Z.to_nat (hash_trigram t ht_size))%nat
      (TG t (docids t) (off + position encoded ht i))); [unfold num_overflow_slots in *; lia| |done].
    rewrite drop_lookup. replace (_ + _)%nat with i by lia.
    by rewrite (assign_offsets_lookup encoded ht i _ off Hi Hoff Htot). }
  rewrite drop_lookup in He, He'. remember (Z.to_nat (hash_trigram t ht_size) + j)%nat as k eqn:Hk.
  replace (Z.to_nat (hash_trigram t ht_size) + S j)%nat with (S k) in He' by lia.
  assert (Hkl : (S k < length ht)%nat).
  { apply lookup_lt_Some in He'. by rewrite length_assign_offsets in He'. }
  destruct (lookup_lt_is_Some_2 ht k) as [a Ha]; [lia|].
  destruct (lookup_lt_is_Some_2 ht (S k)) as [b Hb]; [lia|].
  rewrite (assign_offsets_lookup encoded ht k _ off Ha Hoff Htot) in He. injection He as <-.
  rewrite (assign_offsets_lookup encoded ht (S k) _ off Hb Hoff Htot) in He'. injection He' as <-.
  cbn [trgm tg_offset] in *.
  pose proof (match_occupied _ _ _ k a t Hinv Ha Htr Hr) as Hao.
  assert (Hae : a ∈ map (new_entry docids) ts).
  { rewrite <- Hperm. apply entries_elem. split; [exact Hao|]. apply list_elem_of_lookup_2 with k. exact Ha. }
  apply elem_new_entry in Hae as [_ Hae]. rewrite Htr in Hae. subst a. cbn [trgm tg_num_docids new_entry].
  rewrite (position_S encoded ht k _ Ha). cbn [new_entry tg_num_docids trgm].
  destruct (Z.eqb_spec (docids t) 0) as [Hz|Hnz]; [by destruct Hao|].
  exists (off + position encoded ht k).
  pose proof (position_total encoded ht (S k)) as Hpt. rewrite (position_S encoded ht k _ Ha) in Hpt.
  cbn [new_entry tg_num_docids trgm] in Hpt.
  destruct (Z.eqb_spec (docids t) 0) as [Hz2|_]; [exfalso; exact (Hnz Hz2)|].
  assert (Hp0 : 0 <= position encoded ht k) by (unfold position; lia).
  split; [|split; [lia|]].
  - do 2 f_equal. f_equal. rewrite u64_small; [lia|]. unfold is_u64. lia.
  - replace (off + position encoded ht k - off) with (position encoded ht k) by lia.
    split; [exact (posting_list_at encoded ht k _ Ha Hao)|lia].
Qed.

Lemma find_absent t : 0 <= t < 2 ^ 24 -> t ∉ ts ->
  find_trigram ht_size num_overflow_slots (assign_offsets encoded off ht) t = Some None.
Proof using Hsize Hinv Hperm Hoff Htot.
  intros Hr Ht. pose proof (hash_trigram_range t ht_size Hsize) as Hh.
  pose proof (find_trigram_window ht_size num_overflow_slots ht t Hinv Hsize) as Hw.
  unfold find_trigram. rewrite length_assign_offsets, decide_True by done.
  destruct (find_loop_spec (Z.to_nat (num_overflow_slots + 1))
    (drop (Z.to_nat (hash_trigram t ht_size)) (assign_offsets encoded off ht)) t)
    as [[-> _]|(j & e & e' & Hj & He & _ & Htr & _)]; [|done|].
  { rewrite length_drop, length_assign_offsets. unfold num_overflow_slots in *. lia. }
  exfalso. rewrite drop_lookup in He.
  assert (Hl := lookup_lt_Some _ _ _ He). rewrite length_assign_offsets in Hl.
  clear Hj. revert He Hl. generalize (Z.to_nat (hash_trigram t ht_size) + j)%nat. intros k He Hl.
  destruct (lookup_lt_is_Some_2 ht _ Hl) as [a Ha].
  rewrite (assign_offsets_lookup encoded ht _ _ off Ha Hoff Htot) in He. injection He as <-.
  cbn [trgm] in Htr. pose proof (match_occupied ht_size num_overflow_slots ht _ a t Hinv Ha Htr Hr) as Hao.
  assert (Hae : a ∈ map (new_entry docids) ts).
  { rewrite <- Hperm. apply entries_elem. split; [exact Hao|].
    exact (list_elem_of_lookup_2 _ _ _ Ha). }
  apply elem_new_entry in Hae as [Hin _]. rewrite Htr in Hin. exact (Ht Hin).
Qed.
End Lookup.

(** ** Theorems *)

(** Size selection: for every start above 3 and up to the largest 32-bit
    prime, [next_prime] terminates (within the given number of steps) with the
    least prime that is at least [x], with no 32-bit overflow on the way. *)
Theorem next_prime_least fuel x
    (Hx : 3 < x <= 4294967291) (Hfuel : 2147483646 <= Z.of_nat fuel) :
  exists p, next_prime fuel x = Some p /\ x <= p /\ prime p /\
    forall q, x <= q < p -> ~ prime q.
Proof.
  assert (Hodd : exists y, next_prime fuel x = next_prime_loop fuel y /\ y mod 2 = 1 /\
    x <= y <= 4294967291 /\ (y = x \/ x mod 2 = 0 /\ y = x + 1)).
  { unfold next_prime. destruct (Z.eqb_spec (x mod 2) 0) as [E|E].
    - exists (x + 1). assert (x <> 4294967291) by (intros ->; discriminate E).
      rewrite u32_small by (unfold is_u32; change (2 ^ 32) with 4294967296; lia).
      split; [done|]. split; [|split; [lia|right; lia]].
      rewrite Z.add_mod, E by lia. done.
    - exists x. pose proof (Z.mod_pos_bound x 2). split; [done|]. split; [lia|]. split; [lia|by left]. }
  destruct Hodd as (y & -> & Hy & Hr & Hxy).
  pose proof (Z.div_mod (4294967291 - y) 2 ltac:(lia)) as Hdm.
  assert (Hm : (4294967291 - y) mod 2 = 0) by (rewrite Zminus_mod, Hy; done).
  assert (0 <= (4294967291 - y) / 2) by (apply Z.div_pos; lia).
  destruct (next_prime_loop_spec (Z.to_nat ((4294967291 - y) / 2)) fuel y)
    as (p & E & Hp & Hpr & Hleast); [lia|done|lia|lia|].
  exists p. split; [done|]. split; [lia|]. split; [apply is_prime_iff; [lia|done]|].
  intros q Hq Hprime. pose proof (proj2 (is_prime_iff q ltac:(lia)) Hprime) as Hqt.
  destruct (Z.eqb_spec (q mod 2) 0) as [Hq2|Hq2].
  - unfold is_prime in Hqt. rewrite Hq2 in Hqt. done.
  - assert (q mod 2 = 1) by (pose proof (Z.mod_pos_bound q 2); lia).
    assert (y <= q) by (destruct Hxy as [->|[He ->]]; [lia|]; destruct (decide (q = x)) as [->|]; lia).
    rewrite Hleast in Hqt by (done || lia). done.
Qed.

Lemma next_prime_least_witness :
  exists p, next_prime (Z.to_nat 2147483646) 1000 = Some p /\ 1000 <= p /\ prime p /\
    forall q, 1000 <= q < p -> ~ prime q.
Proof. apply (next_prime_least (Z.to_nat 2147483646) 1000); [lia|]. rewrite Z2Nat.id by lia. lia. Defined.

(** Robin Hood insertion is memory-safe: building the table for any list of
    trigrams with non-empty posting lists never probes outside its
    [ht_size + num_overflow_slots + 1] slots; it either reports overflow or
    yields a table holding exactly those trigrams, each within
    [num_overflow_slots] slots of its hash value, and leaves the last slot empty. *)
Theorem create_hashtable_safe docids ts ht_size
    (Hsize : 0 < ht_size /\ ht_size + num_overflow_slots < 2 ^ 32)
    (Hts : Forall (fun t => docids t <> 0) ts) :
  create_hashtable docids ts ht_size num_overflow_slots = Some None \/
  exists ht, create_hashtable docids ts ht_size num_overflow_slots = Some (Some ht) /\
    Z.of_nat (length ht) = ht_size + num_overflow_slots + 1 /\
    entries ht ≡ₚ map (new_entry docids) ts /\
    (forall i e, ht !! i = Some e -> occupied e ->
      hash_trigram (trgm e) ht_size <= Z.of_nat i
      <= hash_trigram (trgm e) ht_size + num_overflow_slots) /\
    (forall e, List.last (map Some ht) None = Some e -> ~ occupied e).
Proof.
  destruct Hsize as [H0 Hmax].
  destruct (create_hashtable_spec docids ts ht_size num_overflow_slots) as (r & E & Hr); auto;
    [unfold num_overflow_slots; lia|].
  destruct r as [ht|]; [right|by left]. destruct Hr as [Hinv Hp].
  exists ht. split; [done|]. split; [apply Hinv|]. split; [done|]. split; [apply Hinv|].
  intros e He Ho. destruct ht as [|a l _] using rev_ind; [done|].
  rewrite List.map_app in He. cbn [map] in He. rewrite List.last_last in He. injection He as ->.
  pose proof (hi_len _ _ _ Hinv) as Hl. rewrite length_app in Hl. cbn [length] in Hl.
  pose proof (hi_home _ _ _ Hinv (length l) e) as Hh.
  rewrite list_lookup_middle in Hh by done. specialize (Hh eq_refl Ho).
  pose proof (hash_trigram_range (trgm e) ht_size H0). lia.
Qed.

Lemma create_hashtable_safe_witness :
  create_hashtable (fun _ => 5) [6382179; 6447972; 97] 7 num_overflow_slots = Some None \/
  exists ht, create_hashtable (fun _ => 5) [6382179; 6447972; 97] 7 num_overflow_slots = Some (Some ht) /\
    Z.of_nat (length ht) = 7 + num_overflow_slots + 1 /\
    entries ht ≡ₚ map (new_entry (fun _ => 5)) [6382179; 6447972; 97] /\
    (forall i e, ht !! i = Some e -> occupied e ->
      hash_trigram (trgm e) 7 <= Z.of_nat i <= hash_trigram (trgm e) 7 + num_overflow_slots) /\
    (forall e, List.last (map Some ht) None = Some e -> ~ occupied e).
Proof.
  apply (create_hashtable_safe (fun _ => 5) [6382179; 6447972; 97] 7).
  - unfold num_overflow_slots. lia.
  - repeat constructor; discriminate.
Defined.

(** C18. Lookup: in a database whose table was built for the trigrams [ts],
    [find_trigram] returns for every trigram of [ts] its document count and the
    exact extent of its posting list among the lists written after the table,
    and reports every other 24-bit trigram absent; the slots it reads are always
    inside the table. *)
Theorem find_trigram_correct docids encoded ts ht_size off ht t
    (Hsize : 0 < ht_size /\ ht_size + num_overflow_slots < 2 ^ 32)
    (Hts : Forall (fun t => docids t <> 0) ts)
    (Hht : create_hashtable docids ts ht_size num_overflow_slots = Some (Some ht))
    (Hoff : 0 <= off /\ off + Z.of_nat (length (write_posting_lists encoded ht)) < 2 ^ 64)
    (Ht : 0 <= t < 2 ^ 24) :
  if decide (t ∈ ts) then
    exists o, find_trigram ht_size num_overflow_slots (assign_offsets encoded off ht) t
      = Some (Some (TG t (docids t) o, Z.of_nat (length (encoded t)))) /\
      off <= o /\
      take (length (encoded t)) (drop (Z.to_nat (o - off)) (write_posting_lists encoded ht))
      = encoded t
  else find_trigram ht_size num_overflow_slots (assign_offsets encoded off ht) t = Some None.
Proof.
  destruct Hsize as [H0 Hmax], Hoff as [Hoff Htot].
  destruct (create_hashtable_spec docids ts ht_size num_overflow_slots) as (r & E & Hr); auto;
    [unfold num_overflow_slots; lia|].
  rewrite E in Hht. injection Hht as ->. destruct Hr as [Hinv Hp].
  case_decide as Hin; [|by eapply find_absent].
  destruct (find_present docids encoded ts ht_size off ht H0 Hinv Hp Hts Hoff Htot t Ht Hin) as (o & H1 & H2 & H3 & _). eauto.
Qed.

Definition sample_lists (t : Z) : bytes := [t mod 256; 7; 9].

Definition sample_docids (t : Z) : Z := t mod 7 + 1.

Definition sample_table : list Trigram :=
  match create_hashtable sample_docids [6382179; 6447972; 97] 3 num_overflow_slots with
  | Some (Some ht) => ht
  | _ => []
  end.

Lemma find_trigram_correct_witness :
  if decide (97 ∈ [6382179; 6447972; 97]) then
    exists o, find_trigram 3 num_overflow_slots (assign_offsets sample_lists 1000 sample_table) 97
      = Some (Some (TG 97 (sample_docids 97) o, Z.of_nat (length (sample_lists 97)))) /\
      1000 <= o /\
      take (length (sample_lists 97))
        (drop (Z.to_nat (o - 1000)) (write_posting_lists sample_lists sample_table))
      = sample_lists 97
  else find_trigram 3 num_overflow_slots (assign_offsets sample_lists 1000 sample_table) 97 = Some None.
Proof.
  apply (find_trigram_correct sample_docids sample_lists [6382179; 6447972; 97] 3 1000 sample_table 97).
  - unfold num_overflow_slots. lia.
  - repeat (apply Forall_cons; split; [vm_compute; discriminate|]). by apply Forall_nil.
  - vm_compute. reflexivity.
  - vm_compute. split; [discriminate|reflexivity].
  - lia.
Defined.
