(* ===== verification/Corpus.v ===== *)
(** * Building the index: [EncodingCorpus] (src/database-builder.cpp)

    Files are collected into blocks of NUL-separated names; a flushed block is
    cut into trigrams, each added to its posting list under the block's number,
    and written out compressed.  [zstd_compress] is a parameter.  The stack
    buffers of the posting-list builders are arguments [buf1] and [buf]. *)
From S2P Require Import Prelude BitPackInterleaved TurboPForDecode PostingList.

(** ** Cutting a block into trigrams *)

(** The inner loop over one filename, from [s] on: the trigrams, and what
    follows the filename's terminator. *)
Fixpoint filename_loop (fuel : nat) (s : bytes) : option (list Z * bytes) :=
  match fuel with
  | O => None
  | S fuel =>
    trgm ← rd 4 s 0;
    let s := drop 1 s in
    let t := Z.land trgm 16777215 in
    if trgm <=? 16777215 then Some ([t], drop 3 s)
    else '(ts, s) ← filename_loop fuel s; Some (t :: ts, s)
  end.

(** The outer loop; [s] is what is left of the block and its terminating NUL, so
    [ptr < end - 3] is [4 < length s]. *)
Fixpoint trigram_loop (fuel : nat) (s : bytes) : option (list Z) :=
  if (4 <? length s)%nat then
    match fuel with
    | O => None
    | S fuel =>
      c0 ← s !! 0%nat; c1 ← s !! 1%nat; c2 ← s !! 2%nat;
      if c0 =? 0 then trigram_loop fuel (drop 1 s)
      else if c1 =? 0 then trigram_loop fuel (drop 2 s)
      else if c2 =? 0 then trigram_loop fuel (drop 3 s)
      else
        '(ts, s) ← filename_loop (length s) s;
        ts' ← trigram_loop fuel s; Some (ts ++ ts')
    end
  else Some [].

Definition block_trigrams (current_block : bytes) : option (list Z) :=
  trigram_loop (length current_block) (current_block ++ [0]).

(** ** The corpus *)

Record EncodingCorpus := EC {
  invindex : gmap Z PostingListBuilder;
  filename_blocks : list Z;
  num_files : Z;
  num_files_in_block : Z;
  num_blocks : Z;
  outfp : bytes;
  outfp_pos : Z;
  current_block : bytes
}.

Definition seen_trigram (c : EncodingCorpus) (trgm : Z) : bool := bool_decide (is_Some (invindex c !! trgm)).

Definition ec_add_docid (buf1 buf : bytes) (trgm docid : Z) (index : gmap Z PostingListBuilder)
    : option (gmap Z PostingListBuilder) :=
  match index !! trgm with
  | None => pl ← add_first_docid buf1 docid new_PostingListBuilder; Some (<[trgm := pl]> index)
  | Some pl => pl ← add_docid buf docid pl; Some (<[trgm := pl]> index)
  end.

Fixpoint add_all (buf1 buf : bytes) (ts : list Z) (docid : Z) (index : gmap Z PostingListBuilder)
    : option (gmap Z PostingListBuilder) :=
  match ts with
  | [] => Some index
  | t :: ts => index ← ec_add_docid buf1 buf t docid index; add_all buf1 buf ts docid index
  end.

(** [fwrite] of an empty buffer reports failure, which ends the program. *)
Definition flush_block (zstd_compress : bytes -> bytes) (buf1 buf : bytes) (c : EncodingCorpus)
    : option EncodingCorpus :=
  match current_block c with
  | [] => Some c
  | _ =>
    let docid := u32 (num_blocks c) in
    ts ← block_trigrams (current_block c);
    index ← add_all buf1 buf ts docid (invindex c);
    let compressed := zstd_compress (current_block c) in
    match compressed with
    | [] => None
    | _ => Some (EC index (filename_blocks c ++ [outfp_pos c]) (num_files c) 0 (num_blocks c + 1)
                   (outfp c ++ compressed) (outfp_pos c + Z.of_nat (length compressed)) [])
    end
  end.

(** [add_file], as far as names are concerned. *)
Definition add_file (zstd_compress : bytes -> bytes) (buf1 buf : bytes) (block_size : Z)
    (path : bytes) (c : EncodingCorpus) : option EncodingCorpus :=
  let block := (match current_block c with [] => [] | b => b ++ [0] end) ++ path in
  let n := num_files_in_block c + 1 in
  let c := EC (invindex c) (filename_blocks c) (num_files c + 1) n (num_blocks c)
              (outfp c) (outfp_pos c) block in
  if n =? block_size then flush_block zstd_compress buf1 buf c else Some c.

Fixpoint add_files (zstd_compress : bytes -> bytes) (buf1 buf : bytes) (block_size : Z)
    (paths : list bytes) (c : EncodingCorpus) : option EncodingCorpus :=
  match paths with
  | [] => Some c
  | p :: paths => c ← add_file zstd_compress buf1 buf block_size p c;
                  add_files zstd_compress buf1 buf block_size paths c
  end.

Definition new_EncodingCorpus (out : bytes) : EncodingCorpus :=
  EC ∅ [] 0 0 0 out (Z.of_nat (length out)) [].

(** [add_file] for every file, then [finish]. *)
Definition build_corpus (zstd_compress : bytes -> bytes) (buf1 buf : bytes) (block_size : Z)
    (paths : list bytes) (out : bytes) : option EncodingCorpus :=
  c ← add_files zstd_compress buf1 buf block_size paths (new_EncodingCorpus out);
  flush_block zstd_compress buf1 buf c.

(** ** Specification *)

Definition trigram_at (a b c : Z) : Z := a + 256 * b + 65536 * c.

(** All trigrams of a name, in order. *)
Fixpoint trigrams_of (f : bytes) : list Z :=
  match f with
  | a :: ((b :: c :: _) as f) => trigram_at a b c :: trigrams_of f
  | _ => []
  end.

(** A name: no NUL inside. *)
Definition name (f : bytes) : Prop := Forall (fun b => 0 < b < 256) f.

(** The names of a block, NUL between them. *)
Fixpoint join (files : list bytes) : bytes :=
  match files with
  | [] => []
  | [f] => f
  | f :: files => f ++ 0 :: join files
  end.

(** The names that get indexed: all, save a last one of exactly three bytes. *)
Fixpoint indexed (files : list bytes) : list bytes :=
  match files with
  | [] => []
  | [f] => if (length f =? 3)%nat then [] else [f]
  | f :: files => f :: indexed files
  end.

(** ** Trigrams: lemmas *)

#[local] Ltac Zify.zify_post_hook ::= Z.to_euclidean_division_equations.

Lemma trgm_low a b c d : is_byte a -> is_byte b -> is_byte c -> is_byte d ->
  let t := a + 256 * (b + 256 * (c + 256 * (d + 256 * 0))) in
  Z.land t 16777215 = trigram_at a b c /\ ((t <=? 16777215) = (d =? 0)).
Proof.
  intros Ha Hb Hc Hd t. unfold is_byte in *. unfold trigram_at. split.
  - change 16777215 with (Z.ones 24). rewrite Z.land_ones by lia. change (2 ^ 24) with 16777216.
    unfold t. symmetry. apply (Z.mod_unique _ _ d); lia.
  - unfold t. destruct (Z.eqb_spec d 0); lia.
Qed.

#[local] Ltac Zify.zify_post_hook ::= idtac.

Lemma rd4_cons a b c d s : rd 4 (a :: b :: c :: d :: s) 0 = Some (a + 256 * (b + 256 * (c + 256 * (d + 256 * 0)))).
Proof. unfold rd. rewrite decide_True by (cbn [length]; lia). reflexivity. Qed.

Lemma filename_loop_spec f : forall fuel a b c rest,
  is_byte a -> is_byte b -> is_byte c -> name f -> (length f < fuel)%nat ->
  filename_loop fuel (a :: b :: c :: f ++ 0 :: rest) = Some (trigrams_of (a :: b :: c :: f), rest).
Proof.
  induction f as [|d f IH]; intros fuel a b c rest Ha Hb Hc Hf Hfuel;
    (destruct fuel as [|fuel]; [cbn in Hfuel; lia|]); cbn [filename_loop app].
  - rewrite rd4_cons. cbn [mbind option_bind].
    assert (H0 : is_byte 0) by (unfold is_byte; lia).
    destruct (trgm_low a b c 0 Ha Hb Hc H0) as [-> ->]. reflexivity.
  - apply Forall_cons in Hf as [Hd Hf].
    rewrite rd4_cons. cbn [mbind option_bind].
    assert (Hdb : is_byte d) by (unfold is_byte; lia).
    destruct (trgm_low a b c d Ha Hb Hc Hdb) as [-> ->].
    replace (d =? 0) with false by lia. cbn [drop].
    rewrite (IH fuel b c d rest) by (try done; cbn in Hfuel; lia). reflexivity.
Qed.

Lemma trigrams_of_short f : (length f < 3)%nat -> trigrams_of f = [].
Proof. destruct f as [|a [|b [|c f]]]; cbn; try done. lia. Qed.

(** One filename of the outer loop. *)
Lemma trigram_loop_name f fuel rest : name f -> (4 < length (f ++ 0%Z :: rest))%nat ->
  trigram_loop (S fuel) (f ++ 0 :: rest)
  = (ts ← trigram_loop fuel rest; Some (trigrams_of f ++ ts)).
Proof.
  intros Hf Hl. cbn [trigram_loop]. replace (4 <? length (f ++ 0%Z :: rest))%nat with true
    by (symmetry; by apply Nat.ltb_lt).
  assert (Hid : forall o : option (list Z), o = (ts ← o; Some ([] ++ ts))) by by intros [].
  destruct f as [|a [|b [|c f]]].
  - rewrite length_app in Hl. destruct rest as [|x [|y rest]]; try (cbn in Hl; lia).
    cbn [app lookup list_lookup mbind option_bind]. cbn [Z.eqb drop trigrams_of]. apply Hid.
  - apply Forall_cons in Hf as [Ha _]. destruct rest as [|x rest]; [cbn in Hl; lia|].
    cbn [app lookup list_lookup mbind option_bind]. replace (a =? 0) with false by lia.
    cbn [Z.eqb drop trigrams_of]. apply Hid.
  - apply Forall_cons in Hf as [Ha Hf]. apply Forall_cons in Hf as [Hb _].
    cbn [app lookup list_lookup mbind option_bind].
    replace (a =? 0) with false by lia. replace (b =? 0) with false by lia.
    cbn [Z.eqb drop trigrams_of]. apply Hid.
  - pose proof Hf as Hf'. apply Forall_cons in Hf' as [Ha Hf']. apply Forall_cons in Hf' as [Hb Hf'].
    apply Forall_cons in Hf' as [Hc Hf'].
    cbn [app lookup list_lookup mbind option_bind].
    replace (a =? 0) with false by lia. replace (b =? 0) with false by lia.
    replace (c =? 0) with false by lia.
    rewrite filename_loop_spec; try (unfold is_byte; lia); [|done|].
    2: { cbn [app length]. rewrite length_app. lia. }
    reflexivity.
Qed.

Lemma trigram_loop_end fuel s : (length s <= 4)%nat -> trigram_loop fuel s = Some [].
Proof. intros H. destruct fuel; cbn [trigram_loop]; by replace (4 <? length s)%nat with false by (symmetry; apply Nat.ltb_ge; lia). Qed.

Lemma concat_indexed_short files : (length (join files) < 3)%nat -> Forall name files ->
  concat (map trigrams_of (indexed files)) = [].
Proof.
  induction files as [|f files IH]; intros H F; [done|]. apply Forall_cons in F as [Hf F].
  destruct files as [|g files].
  - cbn in *. case_match; [done|]. cbn. by rewrite trigrams_of_short.
  - change (join (f :: g :: files)) with (f ++ 0 :: join (g :: files)) in H.
    rewrite length_app in H. cbn [length] in H.
    change (indexed (f :: g :: files)) with (f :: indexed (g :: files)). cbn [map concat].
    rewrite trigrams_of_short by lia. apply IH; [lia|done].
Qed.

Lemma concat_indexed_3 files : (length (join files) = 3)%nat -> Forall name files ->
  concat (map trigrams_of (indexed files)) = [].
Proof.
  intros H F. destruct files as [|f [|g files]]; [done| |].
  - cbn in *. by rewrite H.
  - change (join (f :: g :: files)) with (f ++ 0 :: join (g :: files)) in H.
    rewrite length_app in H. cbn [length] in H. apply Forall_cons in F as [Hf F].
    change (indexed (f :: g :: files)) with (f :: indexed (g :: files)). cbn [map concat].
    rewrite trigrams_of_short by lia. apply concat_indexed_short; [lia|done].
Qed.

Lemma trigram_loop_spec files : forall fuel, Forall name files -> (length (join files) <= fuel)%nat ->
  trigram_loop fuel (join files ++ [0]) = Some (concat (map trigrams_of (indexed files))).
Proof.
  induction files as [|f files IH]; intros fuel F Hfuel.
  { rewrite trigram_loop_end by (cbn; lia). reflexivity. }
  destruct (decide (4 < length (join (f :: files) ++ [0%Z]))%nat) as [Hl|Hl].
  2: { rewrite trigram_loop_end by lia. rewrite length_app in Hl. cbn [length] in Hl.
       destruct (decide (length (join (f :: files)) = 3)%nat) as [H3|H3].
       - by rewrite concat_indexed_3.
       - by rewrite concat_indexed_short by (done || lia). }
  apply Forall_cons in F as [Hf F]. destruct fuel as [|fuel].
  { rewrite length_app in Hl. cbn [length] in Hl. lia. }
  destruct files as [|g files].
  - cbn [join] in *. rewrite trigram_loop_name by done. rewrite trigram_loop_end by (cbn; lia).
    cbn [mbind option_bind indexed]. rewrite length_app in Hl. cbn [length] in Hl.
    destruct (Nat.eqb_spec (length f) 3); [lia|]. reflexivity.
  - change (join (f :: g :: files)) with (f ++ 0 :: join (g :: files)) in *.
    rewrite <- app_assoc in *. cbn [app] in *. rewrite trigram_loop_name by done.
    rewrite length_app in Hfuel. cbn [length] in Hfuel.
    rewrite (IH fuel F) by lia. reflexivity.
Qed.

Lemma block_trigrams_spec files : Forall name files ->
  block_trigrams (join files) = Some (concat (map trigrams_of (indexed files))).
Proof. intros F. by apply trigram_loop_spec. Qed.

(** ** Posting lists of an index *)

(** [lists t] are the blocks recorded for trigram [t]. *)
Definition index_ok (lists : Z -> list Z) (index : gmap Z PostingListBuilder) : Prop :=
  forall t, match lists t with
  | [] => index !! t = None
  | first :: ids => exists pl done pend, index !! t = Some pl /\ pl_inv first done pend pl /\
      done ++ pend = ids /\ last_docid pl = List.last ids first /\ first < 2 ^ 24
  end.

Definition add_last (d : Z) (l : list Z) : list Z :=
  match l with
  | [] => [d]
  | first :: ids => if d =? List.last ids first then l else l ++ [d]
  end.

(** Every block recorded so far is at most [d]. *)
Definition bounded (d : Z) (lists : Z -> list Z) : Prop :=
  forall t first ids, lists t = first :: ids -> List.last ids first <= d.

Lemma index_ok_ext lists lists' index :
  (forall t, lists t = lists' t) -> index_ok lists index -> index_ok lists' index.
Proof. intros H Hi t. rewrite <- H. apply Hi. Qed.

Lemma add_last_last d l : exists first ids, add_last d l = first :: ids /\ List.last ids first = d.
Proof.
  destruct l as [|f l]; cbn [add_last]; [by exists d, []|].
  destruct (Z.eqb_spec d (List.last l f)) as [->|H]; [by exists f, l|].
  exists f, (l ++ [d]). split; [done|]. apply List.last_last.
Qed.

Lemma add_last_idem d l : add_last d (add_last d l) = add_last d l.
Proof.
  destruct (add_last_last d l) as (f & ids & E & Hl). rewrite E. cbn [add_last].
  by rewrite Hl, Z.eqb_refl.
Qed.

Section Index.
Context (buf1 buf : bytes).
Context (Hb1 : length buf1 = P4NENC_BOUND 1) (Hb : length buf = P4NENC_BOUND 128).
Context (HB : Forall is_byte buf).

Lemma ec_add_docid_ok lists index t d :
  index_ok lists index -> bounded d lists -> 0 <= d < 2 ^ 24 ->
  exists index', ec_add_docid buf1 buf t d index = Some index' /\
    index_ok (fun t' => if decide (t' = t) then add_last d (lists t) else lists t') index'.
Proof using Hb1 Hb HB.
  intros Hok Hbd Hd. pose proof (Hok t) as Ht. unfold ec_add_docid.
  assert (Hrest : forall pl, (match add_last d (lists t) with
    | [] => False
    | first :: ids => exists done pend, pl_inv first done pend pl /\
      done ++ pend = ids /\ last_docid pl = List.last ids first /\ first < 2 ^ 24 end) ->
    index_ok (fun t' => if decide (t' = t) then add_last d (lists t) else lists t') (<[t := pl]> index)).
  { intros pl Hpl t'. destruct (decide (t' = t)) as [->|Hne].
    - destruct (add_last d (lists t)) as [|f ids]; [done|]. destruct Hpl as (dn & pd & H).
      exists pl, dn, pd. split; [by rewrite lookup_insert_eq|exact H].
    - rewrite lookup_insert_ne by done. apply Hok. }
  destruct (lists t) as [|f ids] eqn:El.
  - rewrite Ht. destruct (add_first_docid_inv buf1 d Hb1) as (pl & E & I).
    { change (2 ^ 24) with 16777216 in Hd. change (2 ^ 28) with 268435456. lia. }
    rewrite E. cbn [mbind option_bind]. eexists. split; [done|]. apply Hrest. cbn [add_last].
    exists [], []. split; [exact I|]. split; [done|]. split; [|lia].
    exact (pli_last _ _ _ _ I).
  - destruct Ht as (pl & dn & pd & -> & I & Heq & Hlast & Hf).
    destruct (add_docid_inv buf f dn pd pl d Hb HB I) as (pl' & dn' & pd' & E & I' & Heq' & Hl').
    { rewrite Hlast. by apply (Hbd t). }
    { done. }
    rewrite E. cbn [mbind option_bind]. eexists. split; [done|]. apply Hrest. cbn [add_last].
    rewrite <- Hlast. rewrite app_assoc, Heq in Heq'.
    destruct (Z.eqb_spec d (last_docid pl)) as [Hd2|Hd2].
    + exists dn', pd'. split; [done|]. rewrite app_nil_r in Heq'. split; [done|].
      split; [|done]. rewrite Hl', Hd2. done.
    + exists dn', pd'. split; [done|]. split; [done|]. split; [|done].
      by rewrite Hl', List.last_last.
Qed.

Lemma add_all_ok ts : forall lists index d,
  index_ok lists index -> bounded d lists -> 0 <= d < 2 ^ 24 ->
  exists index', add_all buf1 buf ts d index = Some index' /\
    index_ok (fun t => if decide (t ∈ ts) then add_last d (lists t) else lists t) index'.
Proof using Hb1 Hb HB.
  induction ts as [|x ts IH]; intros lists index d Hok Hbd Hd; cbn [add_all].
  { exists index. split; [done|]. eapply index_ok_ext; [|exact Hok]. intros t.
    rewrite decide_False; [done|apply not_elem_of_nil]. }
  destruct (ec_add_docid_ok lists index x d Hok Hbd Hd) as (i1 & E1 & H1).
  rewrite E1. cbn [mbind option_bind].
  destruct (IH _ i1 d H1) as (i2 & E2 & H2); [|done|].
  { intros t f ids. case_decide as Hx; [|apply Hbd]. intros E.
    destruct (add_last_last d (lists x)) as (f' & ids' & E' & Hl). rewrite E in E'.
    injection E' as -> ->. lia. }
  exists i2. split; [done|]. eapply index_ok_ext; [|exact H2]. intros t. cbn beta.
  destruct (decide (t = x)) as [->|Hne].
  - rewrite (decide_True _ _ (list_elem_of_here x ts)). case_decide; [apply add_last_idem|done].
  - destruct (decide (t ∈ ts)) as [Hin|Hin].
    + rewrite decide_True; [done|by right].
    + rewrite decide_False; [done|]. rewrite elem_of_cons. tauto.
Qed.
End Index.

(** ** Blocks *)

(** The trigrams recorded for a block of names. *)
Definition emitted (files : list bytes) : list Z := concat (map trigrams_of (indexed files)).

(** The blocks that record [t]. *)
Definition blocks_with (groups : list (list bytes)) (t : Z) : list Z :=
  map Z.of_nat (List.filter (fun i => bool_decide (t ∈ emitted (nth i groups [])))
                  (seq 0 (length groups))).

Lemma blocks_with_snoc groups g t :
  blocks_with (groups ++ [g]) t
  = blocks_with groups t ++ (if decide (t ∈ emitted g) then [Z.of_nat (length groups)] else []).
Proof.
  unfold blocks_with. rewrite length_app. cbn [length]. rewrite Nat.add_1_r, seq_S, List.filter_app, List.map_app.
  f_equal.
  - f_equal. apply filter_ext_in. intros i Hi. apply in_seq in Hi.
    by rewrite app_nth1 by lia.
  - cbn [List.filter]. rewrite app_nth2, Nat.sub_diag by lia. cbn [nth].
    destruct (bool_decide_reflect (t ∈ emitted g));
      [by rewrite decide_True|by rewrite decide_False].
Qed.

Lemma blocks_with_lt groups t : Forall (fun d => 0 <= d < Z.of_nat (length groups)) (blocks_with groups t).
Proof.
  apply Forall_forall. intros d Hd. unfold blocks_with in Hd.
  apply list_elem_of_In, in_map_iff in Hd as (i & <- & Hi).
  apply filter_In in Hi as [Hi _]. apply in_seq in Hi. lia.
Qed.

Lemma last_app_ex {A} (f : A) ids : exists l, f :: ids = l ++ [List.last ids f].
Proof.
  destruct ids as [|x ids] using rev_ind; [by exists []|].
  exists (f :: ids). by rewrite List.last_last.
Qed.

Lemma blocks_with_bounded groups : bounded (Z.of_nat (length groups)) (blocks_with groups).
Proof.
  intros t f ids E. pose proof (blocks_with_lt groups t) as H. rewrite E in H.
  destruct (last_app_ex f ids) as [l Hl]. rewrite Hl in H.
  apply Forall_app in H as [_ H]. apply Forall_cons in H as [H _]. lia.
Qed.

Lemma add_last_fresh groups t :
  add_last (Z.of_nat (length groups)) (blocks_with groups t)
  = blocks_with groups t ++ [Z.of_nat (length groups)].
Proof.
  pose proof (blocks_with_lt groups t) as H. destruct (blocks_with groups t) as [|f ids]; [done|].
  cbn [add_last]. destruct (last_app_ex f ids) as [l Hl]. rewrite Hl in H.
  apply Forall_app in H as [_ H]. apply Forall_cons in H as [H _].
  by destruct (Z.eqb_spec (Z.of_nat (length groups)) (List.last ids f)); [lia|].
Qed.

(** Where consecutive chunks start, from [pos] on. *)
Fixpoint chunk_offsets (pos : Z) (chunks : list bytes) : list Z :=
  match chunks with
  | [] => []
  | c :: chunks => pos :: chunk_offsets (pos + Z.of_nat (length c)) chunks
  end.

Lemma chunk_offsets_snoc chunks c : forall pos,
  chunk_offsets pos (chunks ++ [c])
  = chunk_offsets pos chunks ++ [pos + Z.of_nat (length (concat chunks))].
Proof.
  induction chunks as [|d chunks IH]; intros pos; cbn [app chunk_offsets concat length].
  - by rewrite Z.add_0_r.
  - rewrite IH, length_app. cbn [app]. do 3 f_equal. lia.
Qed.

Definition path_ok (p : bytes) : Prop := name p /\ p <> [].

Lemma join_snoc files f : files <> [] -> join (files ++ [f]) = (join files ++ [0]) ++ f.
Proof.
  induction files as [|g files IH]; intros H; [done|]. destruct files as [|h files].
  - cbn [app join]. by rewrite <- app_assoc.
  - change (join ((g :: h :: files) ++ [f])) with (g ++ 0 :: join ((h :: files) ++ [f])).
    rewrite IH by done. change (join (g :: h :: files)) with (g ++ 0 :: join (h :: files)).
    by rewrite <- !app_assoc.
Qed.

Lemma join_nonempty files : files <> [] -> Forall path_ok files -> join files <> [].
Proof.
  intros H F. destruct F as [|f files [_ Hf] F]; [done|]. destruct files as [|g files]; [exact Hf|].
  change (join (f :: g :: files)) with (f ++ 0 :: join (g :: files)). by destruct f.
Qed.

(** A group is never empty, so there are at most as many as files. *)
Lemma groups_le block_size (groups : list (list bytes)) :
  Forall (fun g => g <> [] /\ Z.of_nat (length g) <= block_size) groups ->
  (length groups <= length (concat groups))%nat.
Proof.
  induction 1 as [|g groups [Hg _] _ IH]; [done|]. cbn [concat length]. rewrite length_app.
  destruct g; [done|]. cbn [length]. lia.
Qed.

Section Build.
Context (zstd_compress : bytes -> bytes) (buf1 buf : bytes) (block_size : Z) (out0 : bytes).
Context (Hzstd : forall b, zstd_compress b <> []).
Context (Hb1 : length buf1 = P4NENC_BOUND 1) (Hb : length buf = P4NENC_BOUND 128).
Context (HB : Forall is_byte buf) (Hbs : 0 < block_size).

Record corpus_inv (groups : list (list bytes)) (cur : list bytes) (c : EncodingCorpus) : Prop := {
  ci_index : index_ok (blocks_with groups) (invindex c);
  ci_blocks : num_blocks c = Z.of_nat (length groups);
  ci_in_block : num_files_in_block c = Z.of_nat (length cur);
  ci_files : num_files c = Z.of_nat (length (concat groups ++ cur));
  ci_block : current_block c = join cur;
  ci_out : outfp c = out0 ++ concat (map (fun g => zstd_compress (join g)) groups);
  ci_pos : outfp_pos c = Z.of_nat (length (outfp c));
  ci_offsets : filename_blocks c
    = chunk_offsets (Z.of_nat (length out0)) (map (fun g => zstd_compress (join g)) groups);
  ci_names : Forall path_ok cur /\ Z.of_nat (length cur) < block_size;
  ci_sizes : Forall (fun g => g <> [] /\ Z.of_nat (length g) <= block_size) groups
}.

Lemma corpus_inv_new : corpus_inv [] [] (new_EncodingCorpus out0).
Proof using Hbs.
  constructor; try done; cbn.
  - by rewrite app_nil_r.
Qed.

Lemma flush_block_ok groups cur c k :
  current_block c = join cur -> cur <> [] -> Forall path_ok cur ->
  index_ok (blocks_with groups) (invindex c) -> num_blocks c = Z.of_nat (length groups) ->
  num_files c = Z.of_nat k ->
  outfp c = out0 ++ concat (map (fun g => zstd_compress (join g)) groups) ->
  outfp_pos c = Z.of_nat (length (outfp c)) ->
  filename_blocks c
    = chunk_offsets (Z.of_nat (length out0)) (map (fun g => zstd_compress (join g)) groups) ->
  Forall (fun g => g <> [] /\ Z.of_nat (length g) <= block_size) groups ->
  k = length (concat groups ++ cur) -> Z.of_nat (length cur) <= block_size ->
  Z.of_nat (length groups) < 2 ^ 24 ->
  exists c', flush_block zstd_compress buf1 buf c = Some c' /\ corpus_inv (groups ++ [cur]) [] c'.
Proof using Hzstd Hb1 Hb HB Hbs.
  intros Hblock Hne F Hidx Hnb Hnf Hout Hpos Hoffs Hsizes -> Hlen Hlim.
  unfold flush_block. pose proof (join_nonempty cur Hne F) as Hj. rewrite <- Hblock in Hj.
  destruct (current_block c) as [|x l] eqn:Ecur; [done|]. rewrite Hblock.
  assert (Fn : Forall name cur) by (apply (Forall_impl _ _ _ F); by intros p []).
  rewrite block_trigrams_spec by done. cbn [mbind option_bind].
  rewrite Hnb, u32_small by (unfold is_u32; change (2 ^ 24) with 16777216 in Hlim;
    change (2 ^ 32) with 4294967296; lia).
  destruct (add_all_ok buf1 buf Hb1 Hb HB (emitted cur) (blocks_with groups) (invindex c)
    (Z.of_nat (length groups)) Hidx (blocks_with_bounded groups)) as (index' & E & Hidx'); [lia|].
  unfold emitted in E. rewrite E. cbn [mbind option_bind].
  pose proof (Hzstd (join cur)) as Hz. destruct (zstd_compress (join cur)) as [|z zs] eqn:Ez; [done|].
  eexists. split; [done|]. rewrite <- Ez. constructor; cbn.
  - eapply index_ok_ext; [|exact Hidx']. intros t. cbn beta. rewrite blocks_with_snoc.
    case_decide; [apply add_last_fresh|by rewrite app_nil_r].
  - rewrite length_app. cbn [length]. lia.
  - done.
  - rewrite Hnf. f_equal. rewrite app_nil_r, concat_app. cbn [concat]. by rewrite app_nil_r.
  - done.
  - rewrite Hout, List.map_app, concat_app. cbn [map concat]. by rewrite app_nil_r, app_assoc.
  - rewrite Hpos, length_app. lia.
  - rewrite Hoffs, Hpos, Hout, List.map_app. cbn [map]. rewrite chunk_offsets_snoc, length_app.
    f_equal. f_equal. lia.
  - split; [constructor|cbn; lia].
  - apply Forall_app. split; [done|]. by apply Forall_cons.
Qed.

Lemma add_file_ok groups cur c p :
  corpus_inv groups cur c -> path_ok p -> Z.of_nat (length groups) < 2 ^ 24 ->
  exists c' groups' cur', add_file zstd_compress buf1 buf block_size p c = Some c' /\
    corpus_inv groups' cur' c' /\ concat groups' ++ cur' = concat groups ++ cur ++ [p] /\
    (length groups' <= S (length groups))%nat /\
    (length (concat groups') <= length (concat groups ++ cur ++ [p]))%nat.
Proof using Hzstd Hb1 Hb HB Hbs.
  intros [I1 I2 I3 I4 I5 I6 I7 I8 [I9 I9'] I10] Hp Hlim. unfold add_file.
  assert (Hblock : (match current_block c with [] => [] | b => b ++ [0] end) ++ p = join (cur ++ [p])).
  { rewrite I5. destruct (decide (cur = [])) as [->|Hne]; [done|].
    rewrite join_snoc by done. pose proof (join_nonempty cur Hne I9). by destruct (join cur). }
  rewrite Hblock. assert (Hcur : Forall path_ok (cur ++ [p])).
  { apply Forall_app. split; [done|by apply Forall_cons]. }
  assert (Hl : length (cur ++ [p]) = S (length cur)) by (rewrite length_app; cbn; lia).
  destruct (Z.eqb_spec (num_files_in_block c + 1) block_size) as [Hb'|Hb'].
  - edestruct (flush_block_ok groups (cur ++ [p])) as (c' & E & Hi).
    14: { exists c', (groups ++ [cur ++ [p]]), []. split; [exact E|]. split; [exact Hi|].
          rewrite concat_app. cbn [concat]. rewrite !app_nil_r. split; [done|].
          rewrite !length_app. cbn [length]. split; lia. }
    all: cbn; try done; try (rewrite Hl; lia).
    + by destruct cur.
    + rewrite I4, app_assoc, (length_app (concat groups ++ cur)). cbn [length]. lia.
  - eexists _, groups, (cur ++ [p]). split; [done|]. split.
    + constructor; cbn; auto.
      * rewrite Hl, I3. lia.
      * rewrite I4, app_assoc, (length_app (concat groups ++ cur)). cbn [length]. lia.
      * split; [done|]. rewrite Hl. lia.
    + split; [done|]. split; [lia|]. rewrite length_app. lia.
Qed.

Lemma add_files_ok paths : forall groups cur c,
  corpus_inv groups cur c -> Forall path_ok paths ->
  Z.of_nat (length (concat groups ++ cur ++ paths)) < 2 ^ 24 ->
  exists c' groups' cur', add_files zstd_compress buf1 buf block_size paths c = Some c' /\
    corpus_inv groups' cur' c' /\ concat groups' ++ cur' = concat groups ++ cur ++ paths.
Proof using Hzstd Hb1 Hb HB Hbs.
  induction paths as [|p paths IH]; intros groups cur c Hi F Hlim; cbn [add_files].
  { exists c, groups, cur. by rewrite app_nil_r. }
  apply Forall_cons in F as [Hp F].
  pose proof (groups_le _ groups (ci_sizes _ _ _ Hi)) as Hg.
  destruct (add_file_ok groups cur c p Hi Hp) as (c1 & g1 & k1 & E1 & I1 & H1 & _).
  { rewrite !length_app in Hlim. lia. }
  rewrite E1. cbn [mbind option_bind].
  assert (Heq : concat g1 ++ k1 ++ paths = concat groups ++ cur ++ p :: paths).
  { rewrite app_assoc, H1. by rewrite <- !app_assoc. }
  destruct (IH g1 k1 c1 I1 F) as (c2 & g2 & k2 & E2 & I2 & H2); [by rewrite Heq|].
  exists c2, g2, k2. split; [done|]. split; [done|]. by rewrite H2.
Qed.

Lemma build_corpus_ok paths : Forall path_ok paths -> Z.of_nat (length paths) < 2 ^ 24 ->
  exists c groups, build_corpus zstd_compress buf1 buf block_size paths out0 = Some c /\
    corpus_inv groups [] c /\ concat groups = paths.
Proof using Hzstd Hb1 Hb HB Hbs.
  intros F Hlim. unfold build_corpus.
  destruct (add_files_ok paths [] [] _ corpus_inv_new F) as (c & g & k & E & I & H); [done|].
  rewrite E. cbn [mbind option_bind]. cbn [concat app] in H.
  destruct k as [|x k].
  - rewrite app_nil_r in H. exists c, g. split; [|by split].
    unfold flush_block. by rewrite (ci_block _ _ _ I).
  - pose proof I as [I1 I2 I3 I4 I5 I6 I7 I8 [I9 I9'] I10].
    pose proof (groups_le _ g I10) as Hg.
    edestruct (flush_block_ok g (x :: k) c) as (c' & E' & Hi); eauto; try done; try lia.
    { rewrite <- H, length_app in Hlim. lia. }
    exists c', (g ++ [x :: k]). split; [done|]. split; [done|].
    rewrite concat_app. cbn [concat]. by rewrite app_nil_r.
Qed.
End Build.

(** ** The finished index *)

(** [finish_corpus] finishes the posting list of every trigram seen. *)
Definition finished_list (buf : bytes) (c : EncodingCorpus) (t : Z) : option PostingListBuilder :=
  pl ← invindex c !! t; finish buf pl.

Lemma last_app_fst {A} (l : list A) d : List.last (d :: l) d = List.last l d.
Proof. by destruct l. Qed.

Lemma blocks_with_length groups t : (length (blocks_with groups t) <= length groups)%nat.
Proof.
  unfold blocks_with. rewrite length_map. etransitivity; [apply filter_length_le|].
  by rewrite length_seq.
Qed.

Lemma build_corpus_index zstd_compress buf1 buf block_size out0 paths
    (Hzstd : forall b, zstd_compress b <> [])
    (Hbufs : length buf1 = P4NENC_BOUND 1 /\ length buf = P4NENC_BOUND 128 /\ Forall is_byte buf)
    (Hbs : 0 < block_size)
    (Hpaths : Forall path_ok paths /\ Z.of_nat (length paths) < 2 ^ 24) :
  exists c groups, build_corpus zstd_compress buf1 buf block_size paths out0 = Some c /\
    concat groups = paths /\
    Forall (fun g => g <> [] /\ Z.of_nat (length g) <= block_size) groups /\
    num_blocks c = Z.of_nat (length groups) /\
    outfp c = out0 ++ concat (map (fun g => zstd_compress (join g)) groups) /\
    filename_blocks c
      = chunk_offsets (Z.of_nat (length out0)) (map (fun g => zstd_compress (join g)) groups) /\
    forall t,
      if decide (blocks_with groups t = []) then seen_trigram c t = false
      else exists pl, finished_list buf c t = Some pl /\
        get_num_docids pl = Some (Z.of_nat (length (blocks_with groups t))) /\
        forall tail, slop tail ->
          decode_pfor_delta1_128 (encoded pl ++ tail) (length (blocks_with groups t)) true
          = Some (blocks_with groups t, tail).
Proof.
  destruct Hbufs as (H1 & H2 & H3), Hpaths as [F Hlim].
  destruct (build_corpus_ok zstd_compress buf1 buf block_size out0 Hzstd H1 H2 H3 Hbs paths F Hlim)
    as (c & groups & E & I & Hg).
  exists c, groups. split; [done|]. split; [done|]. split; [apply I|]. split; [apply I|].
  split; [apply I|]. split; [apply I|]. intros t.
  pose proof (groups_le _ groups (ci_sizes _ _ _ _ _ _ I)) as Hle. rewrite Hg in Hle.
  pose proof (blocks_with_length groups t) as Hlen.
  pose proof (ci_index _ _ _ _ _ _ I t) as Ht. unfold seen_trigram, finished_list.
  destruct (blocks_with groups t) as [|f ids] eqn:El.
  { rewrite decide_True by done. rewrite Ht. apply bool_decide_eq_false_2. by intros []. }
  rewrite decide_False by done. destruct Ht as (pl & dn & pd & -> & Hi & Heq & Hlast & Hf).
  cbn [mbind option_bind].
  assert (Hlen' : Z.of_nat (length (dn ++ pd)) < 2 ^ 32 - 1).
  { rewrite Heq. cbn [length] in Hlen. change (2 ^ 24) with 16777216 in Hlim.
    change (2 ^ 32) with 4294967296. lia. }
  assert (Hf28 : f < 2 ^ 28).
  { change (2 ^ 24) with 16777216 in Hf. change (2 ^ 28) with 268435456. lia. }
  assert (Hslop : slop (repeat 0 16)).
  { split; [|cbn; lia]. apply Forall_forall. intros x Hx.
    apply list_elem_of_In, repeat_spec in Hx. subst. unfold is_byte. lia. }
  destruct (finish_spec buf f dn pd pl _ H2 H3 Hi Hf28 Hslop Hlen') as (pl' & E' & N & _).
  exists pl'. split; [done|]. split; [by rewrite <- Heq|]. intros tail Htail.
  destruct (finish_spec buf f dn pd pl tail H2 H3 Hi Hf28 Htail Hlen') as (pl2 & E2 & _ & D).
  rewrite E' in E2. injection E2 as <-. by rewrite <- Heq.
Qed.

(** C9. The index is complete and exact: for any list of non-empty NUL-free file
    names (below 2^24 of them), building the corpus and finishing every posting
    list never fails; the files are cut, in order, into blocks of at most
    [block_size] names, each written compressed at its recorded offset; and for
    every trigram, decoding its posting list yields exactly the numbers of the
    blocks in which some indexed name (all names, except a three-byte name at the
    very end of a block) contains it, in increasing order. *)
Theorem index_exact zstd_compress buf1 buf block_size out0 paths
    (Hzstd : forall b, zstd_compress b <> [])
    (Hbufs : length buf1 = P4NENC_BOUND 1 /\ length buf = P4NENC_BOUND 128 /\ Forall is_byte buf)
    (Hbs : 0 < block_size)
    (Hpaths : Forall path_ok paths /\ Z.of_nat (length paths) < 2 ^ 24) :
  exists c groups, build_corpus zstd_compress buf1 buf block_size paths out0 = Some c /\
    concat groups = paths /\
    Forall (fun g => g <> [] /\ Z.of_nat (length g) <= block_size) groups /\
    num_blocks c = Z.of_nat (length groups) /\
    outfp c = out0 ++ concat (map (fun g => zstd_compress (join g)) groups) /\
    filename_blocks c
      = chunk_offsets (Z.of_nat (length out0)) (map (fun g => zstd_compress (join g)) groups) /\
    forall t,
      if decide (blocks_with groups t = []) then seen_trigram c t = false
      else exists pl, finished_list buf c t = Some pl /\
        get_num_docids pl = Some (Z.of_nat (length (blocks_with groups t))) /\
        forall tail, slop tail ->
          decode_pfor_delta1_128 (encoded pl ++ tail) (length (blocks_with groups t)) true
          = Some (blocks_with groups t, tail).
Proof. by apply build_corpus_index. Qed.

Definition sample_paths : list bytes :=
  map bytes_of_string ["/etc/hosts"%string; "/etc"%string; "/usr/lib"%string; "/var"%string; "/usr"%string].

Lemma index_exact_witness :
  exists c groups, build_corpus (fun b => 40 :: b) (repeat 1 133) (repeat 2 641) 2 sample_paths [9; 9] = Some c /\
    concat groups = sample_paths /\
    Forall (fun g => g <> [] /\ Z.of_nat (length g) <= 2) groups /\
    num_blocks c = Z.of_nat (length groups) /\
    outfp c = [9; 9] ++ concat (map (fun g => 40 :: join g) groups) /\
    filename_blocks c
      = chunk_offsets (Z.of_nat (length [9; 9])) (map (fun g => 40 :: join g) groups) /\
    forall t,
      if decide (blocks_with groups t = []) then seen_trigram c t = false
      else exists pl, finished_list (repeat 2 641) c t = Some pl /\
        get_num_docids pl = Some (Z.of_nat (length (blocks_with groups t))) /\
        forall tail, slop tail ->
          decode_pfor_delta1_128 (encoded pl ++ tail) (length (blocks_with groups t)) true
          = Some (blocks_with groups t, tail).
Proof.
  apply (index_exact (fun b => 40 :: b) (repeat 1 133) (repeat 2 641) 2 [9; 9] sample_paths).
  - discriminate.
  - split; [reflexivity|]. split; [reflexivity|]. apply Forall_forall. intros x Hx.
    apply list_elem_of_In, repeat_spec in Hx. subst. unfold is_byte. lia.
  - lia.
  - split; [|vm_compute; reflexivity].
    apply (Forall_impl (fun p => forallb (fun b => (0 <? b) && (b <? 256)) p && negb (bool_decide (p = [])) = true)).
    + apply forallb_Forall. vm_compute. reflexivity.
    + intros p Hp. apply andb_prop in Hp as [Hp Hne]. split.
      * apply (Forall_impl _ _ _ (forallb_Forall _ _ Hp)). intros b Hb. lia.
      * intros ->. rewrite bool_decide_eq_true_2 in Hne by done. done.
Defined.

(** A three-byte name at the end of a block leaves no trace in the index. *)
Example three_byte_name_not_indexed :
  block_trigrams (join [bytes_of_string "/etc"%string; bytes_of_string "/ab"%string])
  = Some [trigram_at 47 101 116; trigram_at 101 116 99].
Proof. reflexivity. Qed.
