(* ===== verification/Glob.v ===== *)
(** * Shell patterns

    What a pattern matches, after POSIX and the manual page of the C library: the
    specification against which the parser of needles is checked.  Nothing here is
    taken from the code.  A pattern and a name are lists of characters, which may be
    bytes or wide characters. *)
From S2P Require Import Prelude.

(** ** The parts of a pattern *)

(** [OpenBracket rest]: a bracket that nothing closes stands for itself. *)
Inductive Token :=
| Literal (c : Z)
| AnyCharacter
| AnyString
| Bracket (expression : list Z)
| OpenBracket (rest : list Z).

(** What follows the end [:\]] of a class name that [\[:] began; also with [.] and [=]. *)
Fixpoint name_end (k : Z) (s : list Z) : option (list Z) :=
  match s with
  | a :: s' => if (a =? k) && (match s' with b :: _ => b =? 93 | [] => false end) then Some (tail s') else name_end k s'
  | [] => None
  end.

(** What follows the bracket that closes an expression: a [\]] that is neither escaped nor
    inside the name of a class, an equivalence class or a collating symbol. *)
Fixpoint members_end (fuel : nat) (s : list Z) : option (list Z) :=
  match fuel, s with
  | S fuel, c :: s =>
    if c =? 93 then Some s
    else if c =? 92 then members_end fuel (tail s)
    else
      match s with
      | k :: names =>
        if (c =? 91) && ((k =? 58) || (k =? 46) || (k =? 61))
        then members_end fuel (default s (name_end k names))
        else members_end fuel s
      | [] => None
      end
  | _, _ => None
  end.

Definition drop_negation (s : list Z) : list Z :=
  match s with c :: s' => if (c =? 33) || (c =? 94) then s' else s | [] => [] end.

(** The first member may be a [\]]; an expression is never empty. *)
Definition drop_first (s : list Z) : list Z := match s with c :: s' => if c =? 93 then s' else s | [] => [] end.

(** The expression that begins after a bracket, and what follows it. *)
Definition bracket (s : list Z) : option (list Z * list Z) :=
  rest ← members_end (length s) (drop_first (drop_negation s));
  Some (take (length s - S (length rest)) s, rest).

Fixpoint tokens_of (fuel : nat) (p : list Z) : list Token :=
  match fuel, p with
  | S fuel, c :: p =>
    if c =? 92 then match p with d :: p => Literal d :: tokens_of fuel p | [] => [Literal 92] end
    else if c =? 63 then AnyCharacter :: tokens_of fuel p
    else if c =? 42 then AnyString :: tokens_of fuel p
    else if c =? 91 then
      match bracket p with
      | Some (expression, rest) => Bracket expression :: tokens_of fuel rest
      | None => OpenBracket p :: tokens_of fuel p
      end
    else Literal c :: tokens_of fuel p
  | _, _ => []
  end.

Definition glob_tokens (p : list Z) : list Token := tokens_of (length p) p.

(** ** What they match *)

Section Match.
(** When a character of the name is that of the pattern (itself, or a letter of the other
    case), what counts as one character (several bytes may), and which are
    members of a bracket expression. *)
Context (same : Z -> Z -> Prop) (character : list Z -> Prop) (member : list Z -> list Z -> Prop).

Inductive glob_match : list Token -> list Z -> Prop :=
| match_end : glob_match [] []
| match_literal c d ts s : same c d -> glob_match ts s -> glob_match (Literal c :: ts) (d :: s)
| match_any_character w ts s : character w -> glob_match ts s -> glob_match (AnyCharacter :: ts) (w ++ s)
| match_any_string w ts s : glob_match ts s -> glob_match (AnyString :: ts) (w ++ s)
| match_bracket expression w ts s : character w -> member expression w -> glob_match ts s ->
    glob_match (Bracket expression :: ts) (w ++ s)
| match_open_bracket rest d ts s : same 91 d -> glob_match ts s -> glob_match (OpenBracket rest :: ts) (d :: s).

End Match.

(** ** Simple brackets *)

(** No [\]] but as the first member, possibly after [!]: no class names, no escaped
    brackets, no [\[^\]]. *)
Definition simple_members (s : list Z) : bool :=
  negb (bool_decide (93 ∈ tail (match s with c :: s' => if c =? 33 then s' else s | [] => [] end))).

Definition simple_token (t : Token) : bool :=
  match t with Bracket s | OpenBracket s => simple_members s | _ => true end.

Definition simple_brackets (p : list Z) : bool := forallb simple_token (glob_tokens p).

(** ** Lemmas *)

Lemma name_end_suffix k s : forall r, name_end k s = Some r -> exists e, s = e ++ r.
Proof.
  induction s as [|a s IH]; intros r H; [done|]. cbn [name_end] in H. destruct (_ && _).
  - injection H as <-. destruct s as [|b s]; [by exists [a]|by exists [a; b]].
  - destruct (IH r H) as [e ->]. by exists (a :: e).
Qed.

Lemma members_end_suffix fuel : forall s r, members_end fuel s = Some r -> exists e, s = e ++ 93 :: r.
Proof.
  induction fuel as [|fuel IH]; intros [|c s] r H; try done. cbn [members_end] in H.
  destruct (Z.eqb_spec c 93) as [->|]; [injection H as <-; by exists []|].
  destruct (c =? 92).
  { destruct s as [|d s]; cbn [tail] in H; [by destruct fuel|]. destruct (IH s r H) as [e ->]. by exists (c :: d :: e). }
  destruct s as [|k names]; [done|]. destruct (_ && _); [|destruct (IH _ r H) as [e ->]; by exists (c :: e)].
  destruct (name_end k names) as [r'|] eqn:E; cbn [default from_option id] in H; destruct (IH _ r H) as [e Ee].
  - destruct (name_end_suffix _ _ _ E) as [e' ->]. rewrite Ee. exists (c :: k :: e' ++ e). cbn [app]. by rewrite <- app_assoc.
  - rewrite Ee. by exists (c :: e).
Qed.

(** An expression has at least one member, after [!] or not. *)
Lemma bracket_spec s e r : bracket s = Some (e, r) -> s = e ++ 93 :: r /\
  exists x xs, (e = x :: xs /\ x <> 33) \/ e = 33 :: x :: xs.
Proof.
  unfold bracket. destruct (members_end _ _) as [rest|] eqn:E; [|done]. cbn [mbind option_bind]. intros [= <- <-].
  destruct (members_end_suffix _ _ _ E) as [e Ee].
  assert (Hs : exists e', s = e' ++ 93 :: rest /\ exists x xs, (e' = x :: xs /\ x <> 33) \/ e' = 33 :: x :: xs).
  { unfold drop_first, drop_negation in Ee. destruct s as [|c s]; [by destruct e|].
    destruct (Z.eqb_spec c 33) as [->|Hc]; cbn [orb] in Ee; [|destruct (c =? 94)].
    - destruct s as [|d s]; [by destruct e|]. destruct (Z.eqb_spec d 93) as [->|Hd].
      + exists (33 :: 93 :: e). rewrite Ee. split; [done|]. exists 93, e. by right.
      + destruct e as [|x e]; [cbn in Ee; congruence|]. exists (33 :: x :: e). rewrite Ee. split; [done|]. exists x, e. by right.
    - assert (Hs : exists e1, s = e1 ++ 93 :: rest).
      { destruct s as [|d s]; [by destruct e|]. destruct (d =? 93); [exists (d :: e); by rewrite Ee|by exists e]. }
      destruct Hs as [e1 ->]. exists (c :: e1). split; [done|]. exists c, e1. by left.
    - destruct (Z.eqb_spec c 93) as [->|Hd].
      + exists (93 :: e). rewrite Ee. split; [done|]. exists 93, e. by left.
      + destruct e as [|x e]; [cbn in Ee; congruence|]. injection Ee as -> ->. exists (x :: e). split; [done|]. exists x, e. by left. }
  destruct Hs as (e' & -> & Hx). rewrite length_app. cbn [length].
  replace (length e' + S (length rest) - S (length rest))%nat with (length e') by lia. by rewrite take_app_length.
Qed.

Lemma tokens_fuel f1 : forall f2 p, (length p <= f1)%nat -> (length p <= f2)%nat -> tokens_of f1 p = tokens_of f2 p.
Proof.
  induction f1 as [|f1 IH]; intros [|f2] [|c p] H1 H2; cbn [length] in *; try done; try lia. cbn [tokens_of].
  destruct (c =? 92); [destruct p as [|d p]; [done|]; cbn [length] in *; f_equal; apply IH; lia|].
  destruct (c =? 63); [f_equal; apply IH; lia|]. destruct (c =? 42); [f_equal; apply IH; lia|].
  destruct (c =? 91); [|f_equal; apply IH; lia]. destruct (bracket p) as [[e r]|] eqn:E; [|f_equal; apply IH; lia].
  apply bracket_spec in E as [-> _]. rewrite length_app in *. cbn [length] in *. f_equal. apply IH; lia.
Qed.

(** The tokens of a pattern, by its first character. *)
Lemma tokens_cons c p : glob_tokens (c :: p) =
  if c =? 92 then match p with d :: p => Literal d :: glob_tokens p | [] => [Literal 92] end
  else if c =? 63 then AnyCharacter :: glob_tokens p
  else if c =? 42 then AnyString :: glob_tokens p
  else if c =? 91 then
    match bracket p with
    | Some (expression, rest) => Bracket expression :: glob_tokens rest
    | None => OpenBracket p :: glob_tokens p
    end
  else Literal c :: glob_tokens p.
Proof.
  unfold glob_tokens. cbn [length tokens_of]. destruct (c =? 92).
  { destruct p as [|d p]; [done|]. f_equal. apply tokens_fuel; cbn [length]; lia. }
  destruct (c =? 63); [done|]. destruct (c =? 42); [done|]. destruct (c =? 91); [|done].
  destruct (bracket p) as [[e r]|] eqn:E; [|done]. apply bracket_spec in E as [-> _]. f_equal.
  apply tokens_fuel; rewrite ?length_app; cbn [length]; lia.
Qed.

(** ** Examples *)

(** A class in a bracket expression ends with the second bracket, an escaped one does not
    end it. *)
Example bracket_with_class : glob_tokens (bytes_of_string "x[[:alpha:]_]y") =
  [Literal 120; Bracket (bytes_of_string "[:alpha:]_"); Literal 121].
Proof. vm_compute. reflexivity. Qed.

Example bracket_with_escape : glob_tokens (bytes_of_string "[a\]b]c*") = [Bracket (bytes_of_string "a\]b"); Literal 99; AnyString].
Proof. vm_compute. reflexivity. Qed.

Example bracket_first_member : glob_tokens (bytes_of_string "[!]a]?\*") = [Bracket (bytes_of_string "!]a"); AnyCharacter; Literal 42].
Proof. vm_compute. reflexivity. Qed.

Example bracket_left_open : glob_tokens (bytes_of_string "a[b") = [Literal 97; OpenBracket [98]; Literal 98].
Proof. vm_compute. reflexivity. Qed.
