(* ===== verification/DirPath.v ===== *)
(** * Directory order on path names (src/lib.cpp)

    [dir_path_cmp] compares like [strcmp] except that a slash sorts before every
    other character, so that a directory is followed at once by what it
    contains.  [string_list_contains_dir_path] merges a sorted list with
    increasing queries. *)
From S2P Require Import Prelude.

(** ** Definitions *)

Definition slash : Z := 47.

(** [std::mismatch]: the two suffixes from the first difference on. *)
Fixpoint mismatch (a b : bytes) : bytes * bytes :=
  match a, b with
  | x :: a', y :: b' => if x =? y then mismatch a' b' else (a, b)
  | _, _ => (a, b)
  end.

Definition dir_path_cmp (a b : bytes) : Z :=
  match mismatch a b with
  | ([], []) => 0
  | ([], _) => -1
  | (_, []) => 1
  | (x :: _, y :: _) =>
    if x =? y then 0
    else if x =? slash then -1
    else if y =? slash then 1
    else x - y
  end.

(** [std::sort] with the order as comparison. *)
Definition dir_path_le (a b : bytes) : Prop := dir_path_cmp a b <= 0.

#[global] Instance dir_path_le_dec a b : Decision (dir_path_le a b).
Proof. unfold dir_path_le. apply _. Defined.

Definition string_list_dir_path_sort (l : list bytes) : list bytes := merge_sort dir_path_le l.

(** The [while] loop: skips the names that sort before [path]. *)
Fixpoint skip_smaller (fuel : nat) (list_ : list bytes) (idx : nat) (path : bytes) (cmp : Z)
    : nat * Z :=
  match fuel with
  | O => (idx, cmp)
  | S fuel =>
    match list_ !! idx with
    | None => (idx, cmp)
    | Some e =>
      let cmp := dir_path_cmp e path in
      if cmp <? 0 then skip_smaller fuel list_ (S idx) path cmp else (idx, cmp)
    end
  end.

Definition string_list_contains_dir_path (list_ : list bytes) (idx : nat) (path : bytes)
    : bool * nat :=
  let '(idx, cmp) := skip_smaller (S (length list_)) list_ idx path 0 in
  if (idx <? length list_)%nat && (cmp =? 0) then (true, S idx) else (false, idx).

(** A sequence of queries that share the index. *)
Fixpoint query_all (list_ : list bytes) (idx : nat) (paths : list bytes) : list bool :=
  match paths with
  | [] => []
  | p :: paths =>
    let '(found, idx) := string_list_contains_dir_path list_ idx p in
    found :: query_all list_ idx paths
  end.

(** ** The order *)

(** Characters in directory order: the slash first. *)
Definition rank (c : Z) : Z := if c =? slash then -1 else c.

(** Lexicographic comparison by rank. *)
Fixpoint lex (a b : bytes) : comparison :=
  match a, b with
  | [], [] => Eq
  | [], _ => Lt
  | _, [] => Gt
  | x :: a, y :: b =>
    match rank x ?= rank y with Eq => lex a b | c => c end
  end.

Definition path (p : bytes) : Prop := Forall is_byte p.

Lemma rank_inj x y : is_byte x -> is_byte y -> rank x = rank y -> x = y.
Proof.
  unfold is_byte, rank, slash. intros Hx Hy.
  destruct (Z.eqb_spec x 47), (Z.eqb_spec y 47); lia.
Qed.

Lemma cmp_lex a b : path a -> path b ->
  match lex a b with
  | Eq => dir_path_cmp a b = 0 | Lt => dir_path_cmp a b < 0 | Gt => dir_path_cmp a b > 0
  end.
Proof.
  unfold dir_path_cmp. intros Ha. revert b. induction Ha as [|x a Hx Ha IH]; intros b Hb.
  { destruct b; cbn; lia. }
  destruct Hb as [|y b Hy Hb]; [cbn; lia|]. cbn [lex mismatch].
  destruct (Z.eqb_spec x y) as [->|Hne].
  { rewrite Z.compare_refl. by apply IH. }
  destruct (Z.compare_spec (rank x) (rank y)) as [E|E|E].
  - by apply rank_inj in E.
  - destruct (Z.eqb_spec x y); [done|]. unfold rank, is_byte in *.
    destruct (Z.eqb_spec x slash), (Z.eqb_spec y slash); lia.
  - destruct (Z.eqb_spec x y); [done|]. unfold rank, is_byte in *.
    destruct (Z.eqb_spec x slash), (Z.eqb_spec y slash); lia.
Qed.

Lemma lex_eq a b : path a -> path b -> lex a b = Eq -> a = b.
Proof.
  intros Ha. revert b. induction Ha as [|x a Hx Ha IH]; intros b Hb H; [by destruct b|].
  destruct Hb as [|y b Hy Hb]; [done|]. cbn in H.
  destruct (Z.compare_spec (rank x) (rank y)) as [E|E|E]; try done.
  apply rank_inj in E; [|done|done]. subst. f_equal. by apply IH.
Qed.

Lemma lex_refl a : lex a a = Eq.
Proof. induction a as [|x a IH]; [done|]. cbn. by rewrite Z.compare_refl. Qed.

Lemma lex_antisym a : forall b, lex b a = CompOpp (lex a b).
Proof.
  induction a as [|x a IH]; intros [|y b]; try done. cbn. rewrite Z.compare_antisym.
  destruct (rank x ?= rank y); cbn; auto.
Qed.

Lemma lex_trans a : forall b c, lex a b = Lt -> lex b c = Lt -> lex a c = Lt.
Proof.
  induction a as [|x a IH]; intros [|y b] [|z c]; try done. cbn.
  destruct (Z.compare_spec (rank x) (rank y)), (Z.compare_spec (rank y) (rank z)); try done;
    intros H1 H2.
  - replace (rank x ?= rank z) with Eq by (symmetry; apply Z.compare_eq_iff; lia). by eapply IH.
  - by replace (rank x ?= rank z) with Lt by (symmetry; apply Z.compare_lt_iff; lia).
  - by replace (rank x ?= rank z) with Lt by (symmetry; apply Z.compare_lt_iff; lia).
  - by replace (rank x ?= rank z) with Lt by (symmetry; apply Z.compare_lt_iff; lia).
Qed.

Lemma cmp_lt_lex a b : path a -> path b -> dir_path_cmp a b < 0 <-> lex a b = Lt.
Proof. intros Ha Hb. pose proof (cmp_lex a b Ha Hb). destruct (lex a b); split; intros; try done; lia. Qed.

Lemma cmp_eq_iff a b : path a -> path b -> dir_path_cmp a b = 0 <-> a = b.
Proof.
  intros Ha Hb. pose proof (cmp_lex a b Ha Hb) as H. split.
  - intros E. apply lex_eq; auto. destruct (lex a b); [done|lia|lia].
  - intros ->. by rewrite lex_refl in H.
Qed.

Lemma cmp_trans a b c : path a -> path b -> path c ->
  dir_path_cmp a b < 0 -> dir_path_cmp b c < 0 -> dir_path_cmp a c < 0.
Proof. intros Ha Hb Hc. rewrite !cmp_lt_lex by done. apply lex_trans. Qed.

Lemma cmp_total a b : path a -> path b ->
  dir_path_cmp a b < 0 \/ a = b \/ dir_path_cmp b a < 0.
Proof.
  intros Ha Hb. rewrite !cmp_lt_lex by done. pose proof (lex_antisym a b) as H.
  destruct (lex a b) eqn:E; [|by left|].
  - right; left. by apply lex_eq.
  - right; right. exact H.
Qed.

Lemma cmp_asym a b : path a -> path b -> dir_path_cmp a b < 0 -> ~ dir_path_cmp b a < 0.
Proof.
  intros Ha Hb. rewrite !cmp_lt_lex by done. rewrite (lex_antisym a b).
  intros ->. discriminate.
Qed.

(** ** Merging a sorted list with increasing queries *)

Lemma skip_smaller_spec list_ p fuel : forall idx cmp,
  (length list_ < idx + fuel)%nat ->
  exists k c, skip_smaller fuel list_ idx p cmp = (k, c) /\ (idx <= k)%nat /\
    (forall i e, (idx <= i < k)%nat -> list_ !! i = Some e -> dir_path_cmp e p < 0) /\
    (forall e, list_ !! k = Some e -> c = dir_path_cmp e p /\ 0 <= c).
Proof.
  induction fuel as [|fuel IH]; intros idx cmp Hf; cbn [skip_smaller].
  { exists idx, cmp. split; [done|]. split; [lia|]. split; [intros; lia|].
    intros e He. apply lookup_lt_Some in He. lia. }
  destruct (list_ !! idx) as [e|] eqn:E.
  - destruct (Z.ltb_spec (dir_path_cmp e p) 0) as [Hlt|Hge].
    + destruct (IH (S idx) (dir_path_cmp e p)) as (k & c & H1 & H2 & H3 & H4); [lia|].
      exists k, c. split; [done|]. split; [lia|]. split; [|done].
      intros i e' Hi He'. destruct (decide (i = idx)) as [->|].
      * rewrite E in He'. by injection He' as <-.
      * apply (H3 i); [lia|done].
    + exists idx, (dir_path_cmp e p). split; [done|]. split; [lia|]. split; [intros; lia|].
      intros e' He'. rewrite E in He'. injection He' as <-. split; [done|lia].
  - exists idx, cmp. split; [done|]. split; [lia|]. split; [intros; lia|]. intros e He. congruence.
Qed.

(** Everything before [idx] sorts at or before [last]. *)
Definition behind (list_ : list bytes) (idx : nat) (prev : option bytes) : Prop :=
  forall i e, (i < idx)%nat -> list_ !! i = Some e ->
    exists q, prev = Some q /\ (dir_path_cmp e q < 0 \/ e = q).

Lemma contains_spec list_ idx prev p :
  Forall path list_ -> path p -> (forall q, prev = Some q -> path q /\ dir_path_cmp q p < 0) ->
  StronglySorted dir_path_le list_ -> behind list_ idx prev ->
  exists idx', string_list_contains_dir_path list_ idx p = (bool_decide (p ∈ list_), idx') /\
    behind list_ idx' (Some p).
Proof.
  intros F Hp Hprev Hs Hb. unfold string_list_contains_dir_path.
  destruct (skip_smaller_spec list_ p (S (length list_)) idx 0) as (k & c & -> & Hk & Hlt & Hge); [lia|].
  assert (Hpath : forall i e, list_ !! i = Some e -> path e).
  { intros i e He. apply (proj1 (Forall_forall _ _) F). by apply list_elem_of_lookup_2 with i. }
  assert (Hbefore : forall i e, (i < k)%nat -> list_ !! i = Some e -> dir_path_cmp e p < 0).
  { intros i e Hi He. destruct (decide (i < idx)%nat) as [Hi2|]; [|apply (Hlt i); [lia|done]].
    destruct (Hb i e Hi2 He) as (q & Eq & [Hq| ->]); destruct (Hprev q Eq) as [Hqp Hqlt]; [|done].
    apply (cmp_trans e q p); eauto. }
  assert (Hbk : behind list_ k (Some p)).
  { intros i e Hi He. exists p. split; [done|]. left. by apply (Hbefore i). }
  destruct (list_ !! k) as [e|] eqn:E.
  - destruct (Hge e eq_refl) as [-> Hc]. pose proof (lookup_lt_Some _ _ _ E) as Hkl.
    replace (k <? length list_)%nat with true by (symmetry; by apply Nat.ltb_lt). cbn [andb].
    destruct (Z.eqb_spec (dir_path_cmp e p) 0) as [Hz|Hz].
    + apply cmp_eq_iff in Hz; [|by eauto|done]. subst e.
      rewrite bool_decide_eq_true_2 by by apply list_elem_of_lookup_2 with k.
      exists (S k). split; [done|]. intros i e Hi He. destruct (decide (i = k)) as [->|].
      * exists p. rewrite E in He. injection He as <-. auto.
      * apply (Hbk i); [lia|done].
    + rewrite bool_decide_eq_false_2; [by exists k|].
      intros Hin. apply list_elem_of_lookup in Hin as [i Hi].
      destruct (decide (i < k)%nat) as [Hik|Hik].
      { pose proof (Hbefore i p Hik Hi) as H. rewrite (proj2 (cmp_eq_iff p p Hp Hp) eq_refl) in H. lia. }
      destruct (decide (i = k)) as [->|Hne].
      { rewrite E in Hi. injection Hi as ->. by rewrite (proj2 (cmp_eq_iff p p Hp Hp) eq_refl) in Hz. }
      assert (Hle : dir_path_le e p).
      { apply (StronglySorted_app_1_elem_of _ (take (S k) list_) (drop (S k) list_)).
        - by rewrite take_drop.
        - apply list_elem_of_lookup_2 with k. rewrite lookup_take_lt by lia. done.
        - apply list_elem_of_lookup_2 with (i - S k)%nat. rewrite lookup_drop.
          replace (S k + (i - S k))%nat with i by lia. done. }
      unfold dir_path_le in Hle. lia.
  - assert (Hkl : (length list_ <= k)%nat) by (by apply lookup_ge_None_1).
    replace (k <? length list_)%nat with false by (symmetry; apply Nat.ltb_ge; lia). cbn [andb].
    rewrite bool_decide_eq_false_2; [by exists k|]. intros Hin. apply list_elem_of_lookup in Hin as [i Hi].
    pose proof (lookup_lt_Some _ _ _ Hi). pose proof (Hbefore i p ltac:(lia) Hi) as H2.
    rewrite (proj2 (cmp_eq_iff p p Hp Hp) eq_refl) in H2. lia.
Qed.

(** Queries, each strictly after the one before. *)
Fixpoint increasing_paths (prev : option bytes) (paths : list bytes) : Prop :=
  match paths with
  | [] => True
  | p :: paths => path p /\ (forall q, prev = Some q -> dir_path_cmp q p < 0) /\
                  increasing_paths (Some p) paths
  end.

Lemma query_all_spec list_ paths : forall idx prev,
  Forall path list_ -> StronglySorted dir_path_le list_ -> behind list_ idx prev ->
  (forall q, prev = Some q -> path q) -> increasing_paths prev paths ->
  query_all list_ idx paths = map (fun p => bool_decide (p ∈ list_)) paths.
Proof.
  induction paths as [|p paths IH]; intros idx prev F Hs Hb Hprev Hi; [done|].
  destruct Hi as (Hp & Hlt & Hi). cbn [query_all map].
  destruct (contains_spec list_ idx prev p F Hp) as (idx' & -> & Hb'); auto.
  f_equal. apply (IH idx' (Some p)); auto. intros q [= <-]. done.
Qed.

Lemma dir_path_le_total a b : path a -> path b -> dir_path_le a b \/ dir_path_le b a.
Proof.
  intros Ha Hb. unfold dir_path_le. destruct (cmp_total a b Ha Hb) as [?|[->|?]]; [lia| |lia].
  rewrite (proj2 (cmp_eq_iff b b Hb Hb)); auto with lia.
Qed.

(** ** Sorting *)

Lemma dir_path_le_trans a b c : path a -> path b -> path c ->
  dir_path_le a b -> dir_path_le b c -> dir_path_le a c.
Proof.
  intros Ha Hb Hc. unfold dir_path_le. intros H1 H2.
  destruct (Z.lt_trichotomy (dir_path_cmp a b) 0) as [L1|[E1|G1]]; [| |lia].
  - destruct (Z.lt_trichotomy (dir_path_cmp b c) 0) as [L2|[E2|G2]]; [| |lia].
    + pose proof (cmp_trans a b c Ha Hb Hc L1 L2). lia.
    + apply cmp_eq_iff in E2; [|done|done]. subst. lia.
  - apply cmp_eq_iff in E1; [|done|done]. by subst.
Qed.

Lemma list_merge_path l : forall k, Forall path l -> Forall path k ->
  Forall path (list_merge dir_path_le l k).
Proof.
  intros k Hl Hk. rewrite merge_Permutation. by apply Forall_app.
Qed.

Lemma list_merge_sorted l : forall k, Forall path l -> Forall path k ->
  StronglySorted dir_path_le l -> StronglySorted dir_path_le k ->
  StronglySorted dir_path_le (list_merge dir_path_le l k).
Proof.
  induction l as [|x l IHl]; intros k Fl Fk Hl Hk; [by destruct k|].
  induction k as [|y k IHk]; [done|].
  apply Forall_cons in Fl as [Px Fl]. apply Forall_cons in Fk as [Py Fk].
  apply StronglySorted_inv in Hl as [Hl Hxl]. apply StronglySorted_inv in Hk as [Hk Hyk].
  cbn. destruct (decide (dir_path_le x y)) as [Hle|Hnle].
  - constructor.
    + apply IHl; auto; by constructor.
    + rewrite merge_Permutation. apply Forall_app. split; [done|]. constructor; [done|].
      apply Forall_forall. intros z Hz.
      apply (dir_path_le_trans x y z); auto.
      * by apply (proj1 (Forall_forall _ _) Fk).
      * by apply (proj1 (Forall_forall _ _) Hyk).
  - assert (Hyx : dir_path_le y x) by (destruct (dir_path_le_total x y Px Py); done).
    constructor; [by apply IHk|].
    change (Forall (dir_path_le y) (list_merge dir_path_le (x :: l) k)).
    rewrite merge_Permutation. apply Forall_app. split; [|done]. constructor; [done|].
    apply Forall_forall. intros z Hz. apply (dir_path_le_trans y x z); auto.
    + by apply (proj1 (Forall_forall _ _) Fl).
    + by apply (proj1 (Forall_forall _ _) Hxl).
Qed.

(** The runs on the stack of the merge sort. *)
Definition run_ok (r : option (list bytes)) : Prop :=
  forall l, r = Some l -> Forall path l /\ StronglySorted dir_path_le l.

Lemma run_ok_Some l : Forall path l -> StronglySorted dir_path_le l -> run_ok (Some l).
Proof. by intros H1 H2 k [= <-]. Qed.

Lemma merge_list_to_stack_ok st : forall l, Forall run_ok st -> Forall path l ->
  StronglySorted dir_path_le l -> Forall run_ok (merge_list_to_stack dir_path_le st l).
Proof.
  induction st as [|[r|] st IH]; intros l F Hl Hs; cbn.
  - constructor; [by apply run_ok_Some|done].
  - apply Forall_cons in F as [Hr F]. destruct (Hr r eq_refl) as [Hp Hr'].
    constructor; [done|]. apply IH; [done|by apply list_merge_path|by apply list_merge_sorted].
  - apply Forall_cons in F as [_ F]. constructor; [by apply run_ok_Some|done].
Qed.

Lemma merge_stack_ok st : Forall run_ok st ->
  Forall path (merge_stack dir_path_le st) /\ StronglySorted dir_path_le (merge_stack dir_path_le st).
Proof.
  induction 1 as [|[r|] st Hr F [IH1 IH2]]; cbn; [split; constructor| |done].
  destruct (Hr r eq_refl) as [Hp Hs]. split; [by apply list_merge_path|by apply list_merge_sorted].
Qed.

Lemma merge_sort_aux_sorted l : forall st, Forall run_ok st -> Forall path l ->
  StronglySorted dir_path_le (merge_sort_aux dir_path_le st l).
Proof.
  induction l as [|x l IH]; intros st F Hl; cbn; [by apply merge_stack_ok|].
  apply Forall_cons in Hl as [Hx Hl]. apply IH; [|done].
  apply merge_list_to_stack_ok; [done|by repeat constructor|by repeat constructor].
Qed.

Lemma merge_sort_sorted l : Forall path l -> StronglySorted dir_path_le (string_list_dir_path_sort l).
Proof. intros H. by apply merge_sort_aux_sorted. Qed.

(** ** Theorems *)

(** [dir_path_cmp] is a total order on byte strings in which a directory is
    immediately followed by its contents: it is 0 exactly on equal paths, its
    sign flips with the arguments, it is transitive, a directory precedes all
    paths below it, and any path between a directory and a path below it is
    itself below the directory. *)
Theorem dir_path_cmp_order a b c
    (Ha : path a) (Hb : path b) (Hc : path c) :
  (dir_path_cmp a b = 0 <-> a = b) /\
  (dir_path_cmp a b < 0 <-> 0 < dir_path_cmp b a) /\
  (dir_path_cmp a b < 0 -> dir_path_cmp b c < 0 -> dir_path_cmp a c < 0) /\
  dir_path_cmp a (a ++ slash :: b) < 0 /\
  (dir_path_cmp a c < 0 -> dir_path_cmp c (a ++ slash :: b) < 0 ->
   exists k, c = a ++ slash :: k).
Proof.
  assert (Hs : path (slash :: b)) by (constructor; [unfold is_byte, slash; lia|done]).
  split; [by apply cmp_eq_iff|]. split; [|split; [|split]].
  - pose proof (cmp_lex a b Ha Hb) as H1. pose proof (cmp_lex b a Hb Ha) as H2.
    rewrite (lex_antisym a b) in H2. destruct (lex a b); cbn in H2; lia.
  - by apply cmp_trans.
  - apply cmp_lt_lex; [done|by apply Forall_app|]. clear. induction a as [|x a IH]; [done|].
    cbn. by rewrite Z.compare_refl.
  - rewrite !cmp_lt_lex by (done || by apply Forall_app). clear Hb Hs. revert c Hc.
    induction Ha as [|x a Hx Ha IH]; intros c Hc; destruct Hc as [|z c Hz Hc]; try done.
    + intros _ H. cbn in H. change (rank slash) with (-1) in H. unfold rank, is_byte in *.
      destruct (Z.eqb_spec z slash) as [->|]; [by exists c|].
      destruct (Z.compare_spec z (-1)); try done; lia.
    + cbn. intros H1 H2. destruct (Z.compare_spec (rank x) (rank z)) as [E|E|E]; try done.
      * apply rank_inj in E; [|done|done]. subst z. rewrite Z.compare_refl in H2.
        destruct (IH c Hc H1 H2) as [k ->]. by exists k.
      * rewrite (proj2 (Z.compare_gt_iff _ _)) in H2 by lia. done.
Qed.

Lemma path_of_string s : path (bytes_of_string s).
Proof.
  unfold path, bytes_of_string. apply Forall_map, Forall_forall. intros a _. unfold is_byte.
  pose proof (N_ascii_bounded a). lia.
Qed.

Lemma dir_path_cmp_order_witness :
  let a := bytes_of_string "/usr"%string in let b := bytes_of_string "lib"%string in
  let c := bytes_of_string "/usr/a"%string in
  path a /\ path b /\ path c /\
  ((dir_path_cmp a b = 0 <-> a = b) /\
  (dir_path_cmp a b < 0 <-> 0 < dir_path_cmp b a) /\
  (dir_path_cmp a b < 0 -> dir_path_cmp b c < 0 -> dir_path_cmp a c < 0) /\
  dir_path_cmp a (a ++ slash :: b) < 0 /\
  (dir_path_cmp a c < 0 -> dir_path_cmp c (a ++ slash :: b) < 0 ->
   exists k, c = a ++ slash :: k)).
Proof.
  intros a b c. split; [apply path_of_string|]. split; [apply path_of_string|].
  split; [apply path_of_string|].
  apply (dir_path_cmp_order a b c); apply path_of_string.
Defined.

(** C34. Merging queries into a sorted list: after [string_list_dir_path_sort],
    strictly increasing queries that share one index (as the scan makes them)
    each answer exactly whether the path is in the list. *)
Theorem dir_path_queries_exact l paths
    (Hl : Forall path l) (Hpaths : increasing_paths None paths) :
  query_all (string_list_dir_path_sort l) 0 paths = map (fun p => bool_decide (p ∈ l)) paths.
Proof.
  assert (Hperm : string_list_dir_path_sort l ≡ₚ l) by apply merge_sort_Permutation.
  rewrite (query_all_spec _ paths 0 None).
  - apply map_ext. intros p. apply bool_decide_ext. by rewrite Hperm.
  - by rewrite Hperm.
  - by apply merge_sort_sorted.
  - intros i e Hi. lia.
  - done.
  - done.
Qed.

Lemma dir_path_queries_exact_witness :
  query_all (string_list_dir_path_sort
      (map bytes_of_string ["/sys"%string; "/a.b"%string; "/a/c"%string])) 0
    (map bytes_of_string ["/a"%string; "/a/c"%string; "/a.b"%string; "/b"%string])
  = map (fun p => bool_decide (p ∈ map bytes_of_string ["/sys"%string; "/a.b"%string; "/a/c"%string]))
      (map bytes_of_string ["/a"%string; "/a/c"%string; "/a.b"%string; "/b"%string]).
Proof.
  apply (dir_path_queries_exact (map bytes_of_string ["/sys"%string; "/a.b"%string; "/a/c"%string])).
  - cbn [map]. repeat (apply Forall_cons; split; [apply path_of_string|]). by apply Forall_nil.
  - cbn [map increasing_paths].
    repeat (split; [apply path_of_string|split; [intros q Hq; injection Hq as <- || discriminate Hq|]]);
      try exact I; vm_compute; reflexivity.
Defined.
