(* ===== verification/Serializer.v ===== *)
(** * Output: [Serializer] and [print_possibly_escaped] (src/serializer.cpp)

    Results arrive tagged with a sequence number, in any order, and are printed
    in sequence; the limit on the number of matches ends the program.  Printing
    to a terminal quotes what is not plainly safe; [mbtowc] is a parameter. *)
From S2P Require Import Prelude.

(** ** The serializer *)

Record Element := EL { seq_ : Z; skip : Z; msg : bytes }.

(** [next_seq], the queue of early arrivals with the smallest sequence number on
    top, the messages printed so far and [limit_left]. *)
Record Serializer := SZ {
  next_seq : Z;
  pending : list Element;
  printed : list bytes;
  limit_left : Z
}.

(** The program may end inside a call ([exit(0)] in [apply_limit]). *)
Inductive outcome := Running (s : Serializer) | Exited (out : list bytes).

Definition apply_limit (s : Serializer) : outcome :=
  let limit_left := limit_left s - 1 in
  if limit_left >? 0 then Running (SZ (next_seq s) (pending s) (printed s) limit_left)
  else Exited (printed s).

Fixpoint pq_push (e : Element) (q : list Element) : list Element :=
  match q with
  | [] => [e]
  | x :: q => if seq_ e <? seq_ x then e :: x :: q else x :: pq_push e q
  end.

(** [if (!msg.empty()) { print_possibly_escaped(msg); apply_limit(); }] *)
Definition print_one (m : bytes) (s : Serializer) : outcome :=
  match m with
  | [] => Running s
  | _ => apply_limit (SZ (next_seq s) (pending s) (printed s ++ [m]) (limit_left s))
  end.

(** The loop over delayed prints. *)
Fixpoint drain (fuel : nat) (s : Serializer) : outcome :=
  match pending s with
  | e :: q =>
    if seq_ e =? next_seq s then
      match fuel with
      | O => Running s
      | S fuel =>
        match print_one (msg e) s with
        | Exited out => Exited out
        | Running s => drain fuel (SZ (u64 (next_seq s + skip e)) q (printed s) (limit_left s))
        end
      end
    else Running s
  | [] => Running s
  end.

Definition print (only_count : bool) (e : Element) (s : Serializer) : outcome :=
  if only_count then
    match msg e with [] => Running s | _ => apply_limit s end
  else if negb (next_seq s =? seq_ e) then
    Running (SZ (next_seq s) (pq_push e (pending s)) (printed s) (limit_left s))
  else
    match print_one (msg e) s with
    | Exited out => Exited out
    | Running s =>
      drain (length (pending s)) (SZ (u64 (next_seq s + skip e)) (pending s) (printed s) (limit_left s))
    end.

Fixpoint print_all (only_count : bool) (es : list Element) (s : Serializer) : outcome :=
  match es with
  | [] => Running s
  | e :: es =>
    match print only_count e s with
    | Exited out => Exited out
    | Running s => print_all only_count es s
    end
  end.

Definition new_Serializer (limit : Z) : Serializer := SZ 0 [] [] limit.

(** ** Escaping *)

Inductive MbResult := MbInvalid | MbNul | MbChar (ret : nat) (wc : Z).

(** The scan that looks for anything unsafe; [s] is what is left of the string
    and [mbtowc] sees no further than its end. *)
Fixpoint all_safe (mbtowc : bytes -> MbResult) (fuel : nat) (s : bytes) : option bool :=
  match fuel with
  | O => None
  | S fuel =>
    match mbtowc s with
    | MbInvalid => Some false
    | MbNul => Some true
    | MbChar ret pwc =>
      if (pwc <? 32) || (pwc =? 39) || (pwc =? 34) || (pwc =? 92) then Some false
      else if pwc =? 96 then Some false
      else
        let s := drop ret s in
        match s with [] => Some true | _ => all_safe mbtowc fuel s end
    end
  end.

Definition octal_digit (n : Z) : Z := 48 + n.

(** [\%03o] of a value below 512. *)
Definition octal3 (n : Z) : bytes :=
  [octal_digit (n / 64 mod 8); octal_digit (n / 8 mod 8); octal_digit (n mod 8)].

(** The escape bash knows for a character. *)
Definition escape_char (c : Z) : bytes :=
  92 :: (if c =? 7 then [97] else if c =? 8 then [98] else if c =? 12 then [102]
         else if c =? 10 then [110] else if c =? 13 then [114] else if c =? 9 then [116]
         else if c =? 11 then [118] else if c =? 92 then [92] else if c =? 39 then [39]
         else if c =? 34 then [34] else octal3 c).

Fixpoint escape_loop (mbtowc : bytes -> MbResult) (fuel : nat) (s : bytes) (in_escaped_mode : bool)
    : option bytes :=
  match s with
  | [] => Some []
  | c :: s' =>
    match fuel with
    | O => None
    | S fuel =>
      match mbtowc s with
      | MbInvalid => r ← escape_loop mbtowc fuel s' in_escaped_mode; Some (63 :: r)
      | MbNul => Some []
      | MbChar ret _ =>
        if (c <? 32) || (c =? 39) || (c =? 34) || (c =? 92) then
          r ← escape_loop mbtowc fuel (drop ret s) true;
          Some ((if in_escaped_mode then [] else [39; 36; 39]) ++ escape_char c ++ r)
        else
          r ← escape_loop mbtowc fuel (drop ret s) false;
          Some ((if in_escaped_mode then [39; 39] else []) ++ take ret s ++ r)
      end
    end
  end.

(** What is written for one result; the string holds no NUL. *)
Definition print_possibly_escaped (mbtowc : bytes -> MbResult)
    (print_nul literal_printing stdout_is_tty : bool) (str : bytes) : option bytes :=
  if print_nul then Some (str ++ [0])
  else if literal_printing || negb stdout_is_tty then Some (str ++ [10])
  else
    safe ← all_safe mbtowc (S (length str)) str;
    if safe : bool then Some (str ++ [10])
    else r ← escape_loop mbtowc (length str) str false; Some (39 :: r ++ [39; 10]).

(** ** Specification of the serializer *)

(** The results of a search in sequence, each starting where the one before ends. *)
Fixpoint chain (n : Z) (es : list Element) : Prop :=
  match es with
  | [] => n < 2 ^ 64
  | e :: es => seq_ e = n /\ 0 < skip e /\ chain (n + skip e) es
  end.

Definition messages (es : list Element) : list bytes :=
  filter (fun m => m <> []) (map msg es).

Definition by_seq (a b : Element) : Prop := seq_ a <= seq_ b.

(** [done] printed; [rest] still to come, some of it early in [pending]. *)
Record ser_inv (L : Z) (done rest : list Element) (s : Serializer) : Prop := {
  si_chain : chain (next_seq s) rest /\ 0 <= next_seq s;
  si_printed : printed s = messages done;
  si_limit : limit_left s = L - Z.of_nat (length (messages done)) /\ 0 < limit_left s;
  si_sorted : StronglySorted by_seq (pending s);
  si_pending : forall e, e ∈ pending s -> e ∈ rest;
  si_nodup : NoDup (pending s)
}.

(** ** Lemmas *)

Lemma chain_ge n es e : chain n es -> e ∈ es -> n <= seq_ e.
Proof.
  revert n. induction es as [|x es IH]; intros n H He; [by apply not_elem_of_nil in He|].
  destruct H as (<- & Hs & H). apply elem_of_cons in He as [->|He]; [lia|].
  specialize (IH _ H He). lia.
Qed.

Lemma chain_lt n es : chain n es -> n < 2 ^ 64.
Proof.
  revert n. induction es as [|x es IH]; intros n H; [done|].
  destruct H as (<- & Hs & H). specialize (IH _ H). lia.
Qed.

(** In a chain only the first element has the starting number. *)
Lemma chain_head n x es e : chain n (x :: es) -> e ∈ x :: es -> seq_ e = n -> e = x.
Proof.
  intros (Hx & Hs & H) He Hn. apply elem_of_cons in He as [->|He]; [done|].
  pose proof (chain_ge _ _ _ H He). lia.
Qed.

Lemma messages_snoc es e :
  messages (es ++ [e]) = messages es ++ (if decide (msg e = []) then [] else [msg e]).
Proof.
  unfold messages. rewrite List.map_app, filter_app. f_equal. cbn [map].
  case_decide as H.
  - rewrite filter_cons_False, filter_nil; [done|]. auto.
  - by rewrite filter_cons_True, filter_nil.
Qed.

Lemma pq_push_perm e q : pq_push e q ≡ₚ e :: q.
Proof.
  induction q as [|x q IH]; [done|]. cbn [pq_push]. case_match; [done|].
  rewrite IH. apply perm_swap.
Qed.

Lemma pq_push_sorted e q : StronglySorted by_seq q -> StronglySorted by_seq (pq_push e q).
Proof.
  induction 1 as [|x q Hs IH Hx]; cbn [pq_push]; [by repeat constructor|].
  destruct (Z.ltb_spec (seq_ e) (seq_ x)) as [Hlt|Hge].
  - constructor; [by constructor|]. constructor; [unfold by_seq; lia|].
    apply (Forall_impl _ _ _ Hx). unfold by_seq. intros y Hy. lia.
  - constructor; [done|]. rewrite pq_push_perm. constructor; [done|done].
Qed.

(** Printing the next element of the sequence. *)
Lemma print_one_spec L done x rest s :
  ser_inv L done (x :: rest) s ->
  match print_one (msg x) s with
  | Running s' => s' = SZ (next_seq s) (pending s) (messages (done ++ [x])) (limit_left s') /\
      limit_left s' = L - Z.of_nat (length (messages (done ++ [x]))) /\ 0 < limit_left s'
  | Exited out => out = messages (done ++ [x]) /\ Z.of_nat (length out) = L
  end.
Proof.
  intros [Hc Hp [Hl Hl0] _ _ _]. unfold print_one. rewrite messages_snoc.
  destruct (msg x) as [|b m] eqn:Em.
  - rewrite decide_True by done. rewrite app_nil_r. destruct s; cbn in *. by subst.
  - rewrite decide_False by done. unfold apply_limit. cbn [limit_left next_seq pending printed].
    rewrite Hp, length_app. cbn [length].
    destruct (limit_left s - 1 >? 0) eqn:E; cbn [limit_left]; [split; [done|lia]|].
    rewrite length_app. cbn [length]. split; [done|lia].
Qed.

Definition settled (rest : list Element) (s : Serializer) : Prop :=
  match rest with [] => True | x :: _ => x ∉ pending s end.

Definition outcome_ok (L : Z) (all : list Element) (o : outcome) (seen : list Element) : Prop :=
  match o with
  | Running s => exists done rest, all = done ++ rest /\ ser_inv L done rest s /\ settled rest s /\
      done ++ pending s ≡ₚ seen
  | Exited out => exists done rest, all = done ++ rest /\ out = messages done /\
      Z.of_nat (length out) = L
  end.

Lemma drain_spec L all seen fuel : forall done rest s,
  all = done ++ rest -> ser_inv L done rest s -> done ++ pending s ≡ₚ seen ->
  (length (pending s) <= fuel)%nat -> outcome_ok L all (drain fuel s) seen.
Proof.
  induction fuel as [|fuel IH]; intros done rest s Hall Hinv Hseen Hfuel.
  { destruct (pending s) as [|e q] eqn:Eq; [|cbn in Hfuel; lia]. cbn [drain]. rewrite Eq.
    exists done, rest. split; [done|]. split; [done|]. split; [|by rewrite Eq].
    unfold settled. rewrite Eq. destruct rest; [done|]. apply not_elem_of_nil. }
  cbn [drain]. destruct (pending s) as [|e q] eqn:Eq.
  { exists done, rest. split; [done|]. split; [done|]. split; [|by rewrite Eq].
    unfold settled. rewrite Eq. destruct rest; [done|]. apply not_elem_of_nil. }
  pose proof Hinv as [[Hc H0] Hp Hl Hs Hin Hnd]. rewrite Eq in Hs, Hin, Hnd.
  assert (He : e ∈ rest) by (apply Hin; left).
  destruct rest as [|x rest]; [by apply not_elem_of_nil in He|].
  destruct (Z.eqb_spec (seq_ e) (next_seq s)) as [Es|Es].
  - pose proof (chain_head _ _ _ _ Hc He Es) as ->.
    pose proof (print_one_spec L done x rest s Hinv) as Hpr.
    destruct (print_one (msg x) s) as [s'|out].
    + destruct Hpr as (Hs' & Hlim & Hlim0). rewrite Hs'. cbn [next_seq printed limit_left].
      destruct Hc as (Hx & Hsk & Hc). pose proof (chain_lt _ _ Hc).
      apply StronglySorted_inv in Hs as [Hs _]. apply NoDup_cons in Hnd as [Hxq Hnd].
      rewrite u64_small by (unfold is_u64; lia).
      apply (IH (done ++ [x]) rest).
      * by rewrite <- app_assoc.
      * constructor; cbn; auto; [split; [done|lia]|].
        intros e Heq. pose proof (Hin e ltac:(by right)) as Her.
        apply elem_of_cons in Her as [->|]; [done|done].
      * cbn. by rewrite <- app_assoc.
      * cbn in *. lia.
    + destruct Hpr as [-> Hlen]. exists (done ++ [x]), rest. by rewrite <- app_assoc.
  - exists done, (x :: rest). split; [done|]. split; [done|]. split; [|by rewrite Eq].
    unfold settled. rewrite Eq. intros Hx. apply elem_of_cons in Hx as [<-|Hx].
    + destruct Hc as [Hx _]. done.
    + apply StronglySorted_inv in Hs as [_ Hs].
      pose proof (proj1 (Forall_forall _ _) Hs x Hx) as Hle. unfold by_seq in Hle.
      pose proof (chain_ge _ _ _ Hc He). destruct Hc as [Hxs _]. lia.
Qed.

Lemma print_spec L all seen e s done rest :
  all = done ++ rest -> ser_inv L done rest s -> settled rest s -> done ++ pending s ≡ₚ seen ->
  e ∈ rest -> e ∉ pending s -> outcome_ok L all (print false e s) (seen ++ [e]).
Proof.
  intros Hall Hinv Hset Hseen He Hnp. unfold print.
  pose proof Hinv as [[Hc H0] Hp Hl Hs Hin Hnd].
  destruct rest as [|x rest]; [by apply not_elem_of_nil in He|].
  destruct (Z.eqb_spec (next_seq s) (seq_ e)) as [Es|Es]; cbn [negb].
  - pose proof (chain_head _ _ _ _ Hc He (eq_sym Es)) as ->.
    pose proof (print_one_spec L done x rest s Hinv) as Hpr.
    destruct (print_one (msg x) s) as [s'|out].
    + destruct Hpr as (Hs' & Hlim & Hlim0). rewrite Hs'. cbn [next_seq printed limit_left pending].
      destruct Hc as (Hx & Hsk & Hc). pose proof (chain_lt _ _ Hc).
      rewrite u64_small by (unfold is_u64; lia).
      apply (drain_spec L all _ _ (done ++ [x]) rest).
      * by rewrite <- app_assoc.
      * constructor; cbn; auto; [split; [done|lia]|].
        intros e Heq. pose proof (Hin e Heq) as Her.
        apply elem_of_cons in Her as [->|]; [done|done].
      * cbn. rewrite <- Hseen, <- !app_assoc. cbn [app].
        apply Permutation_app_head. apply Permutation_cons_append.
      * done.
    + destruct Hpr as [-> Hlen]. exists (done ++ [x]), rest. by rewrite <- app_assoc.
  - exists done, (x :: rest). split; [done|]. split; [|split].
    + constructor; cbn; auto.
      * by apply pq_push_sorted.
      * intros e'. rewrite pq_push_perm. intros [->|]%elem_of_cons; auto.
      * rewrite pq_push_perm. by apply NoDup_cons.
    + cbn. rewrite pq_push_perm. intros [->|Hx]%elem_of_cons; [|done].
      destruct Hc as [Hxs _]. done.
    + cbn. rewrite pq_push_perm, <- Hseen, <- app_assoc. apply Permutation_app_head.
      apply Permutation_cons_append.
Qed.

Lemma chain_nodup n es : chain n es -> NoDup es.
Proof.
  revert n. induction es as [|x es IH]; intros n H; [constructor|].
  destruct H as (Hx & Hs & H). apply NoDup_cons. split; [|by eapply IH].
  intros Hin. pose proof (chain_ge _ _ _ H Hin). lia.
Qed.

Lemma print_all_spec L all es : forall seen s,
  NoDup all -> seen ++ es ≡ₚ all -> outcome_ok L all (Running s) seen ->
  match print_all false es s with
  | Running s => printed s = messages all /\ pending s = [] /\ Z.of_nat (length (messages all)) < L
  | Exited out => out = take (Z.to_nat L) (messages all) /\ L <= Z.of_nat (length (messages all))
  end.
Proof.
  induction es as [|e es IH]; intros seen s Hnd Hperm Hok; cbn [print_all].
  - destruct Hok as (done & rest & -> & Hinv & Hset & Hseen).
    rewrite app_nil_r in Hperm. rewrite <- Hseen in Hperm. apply Permutation_app_inv_l in Hperm.
    assert (rest = []) as ->.
    { destruct rest as [|x rest]; [done|]. exfalso. apply Hset. rewrite Hperm. left. }
    apply Permutation_nil_r in Hperm. rewrite app_nil_r. destruct Hinv as [_ Hp [Hl Hl0] _ _ _].
    split; [done|]. split; [done|]. lia.
  - assert (Hout : outcome_ok L all (print false e s) (seen ++ [e])).
    { destruct Hok as (done & rest & Hall & Hinv & Hset & Hseen).
      assert (Hnd' : NoDup (done ++ pending s ++ e :: es)).
      { rewrite app_assoc, Hseen, Hperm. done. }
      apply NoDup_app in Hnd' as (_ & Hd1 & Hnd'). apply NoDup_app in Hnd' as (_ & Hd2 & _).
      assert (He : e ∈ all) by (rewrite <- Hperm; apply elem_of_app; right; left).
      eapply print_spec; eauto.
      - rewrite Hall in He. apply elem_of_app in He as [He|He]; [|done].
        exfalso. apply (Hd1 e He). apply elem_of_app. right. left.
      - intros Hp. apply (Hd2 e Hp). left. }
    destruct (print false e s) as [s'|out].
    + apply (IH (seen ++ [e])); auto. by rewrite <- app_assoc.
    + destruct Hout as (done & rest & -> & -> & Hlen). unfold messages in *.
      rewrite List.map_app, filter_app. rewrite take_app_le by lia.
      rewrite take_ge by lia. rewrite length_app. split; [done|lia].
Qed.

Lemma print_arrivals results arrivals limit
    (Hchain : chain 0 results) (Harr : arrivals ≡ₚ results) (Hlimit : 0 < limit) :
  match print_all false arrivals (new_Serializer limit) with
  | Running s => printed s = messages results /\ pending s = [] /\
      Z.of_nat (length (messages results)) < limit
  | Exited out => out = take (Z.to_nat limit) (messages results) /\
      limit <= Z.of_nat (length (messages results))
  end.
Proof.
  apply (print_all_spec limit results arrivals []).
  - by eapply chain_nodup.
  - exact Harr.
  - exists [], results. split; [done|]. split; [|split; [|done]].
    + constructor; cbn.
      * split; [exact Hchain|lia].
      * reflexivity.
      * split; lia.
      * constructor.
      * intros e He. by apply not_elem_of_nil in He.
      * constructor.
    + destruct results; [done|apply not_elem_of_nil].
Qed.

(** C19. Output order and limit: whatever order the results of a search arrive in
    (each with its place in the sequence), the serializer prints the non-empty
    ones in sequence order; with fewer matches than the limit it prints them all
    and holds nothing back, otherwise it ends the program right after printing
    the first [limit] of them. *)
Theorem print_any_order results arrivals limit
    (Hchain : chain 0 results) (Harr : arrivals ≡ₚ results) (Hlimit : 0 < limit) :
  match print_all false arrivals (new_Serializer limit) with
  | Running s => printed s = messages results /\ pending s = [] /\
      Z.of_nat (length (messages results)) < limit
  | Exited out => out = take (Z.to_nat limit) (messages results) /\
      limit <= Z.of_nat (length (messages results))
  end.
Proof. by apply print_arrivals. Qed.

Definition sample_results : list Element :=
  [EL 0 1 [97]; EL 1 3 []; EL 4 1 [98; 98]; EL 5 2 [99]].

Lemma print_any_order_witness :
  match print_all false (reverse sample_results) (new_Serializer 2) with
  | Running s => printed s = messages sample_results /\ pending s = [] /\
      Z.of_nat (length (messages sample_results)) < 2
  | Exited out => out = take (Z.to_nat 2) (messages sample_results) /\
      2 <= Z.of_nat (length (messages sample_results))
  end.
Proof.
  apply (print_any_order sample_results (reverse sample_results) 2).
  - cbn. repeat split; reflexivity || lia.
  - apply reverse_Permutation.
  - lia.
Defined.

(** ** Quoting: specification *)

(** How bash reads a word: outside quotes, inside ['...'], inside [$'...'] (the
    escapes of bash(1), octal ones with three digits). *)
Inductive quote_mode := Outside | Single | Ansi.

Definition ansi_letter (c : Z) : option Z :=
  if c =? 97 then Some 7 else if c =? 98 then Some 8 else if c =? 102 then Some 12
  else if c =? 110 then Some 10 else if c =? 114 then Some 13 else if c =? 116 then Some 9
  else if c =? 118 then Some 11 else if c =? 92 then Some 92 else if c =? 39 then Some 39
  else if c =? 34 then Some 34 else None.

Definition is_octal (c : Z) : bool := (48 <=? c) && (c <=? 55).

Fixpoint shell_read (m : quote_mode) (s : bytes) : option bytes :=
  match m, s with
  | Outside, [] => Some []
  | Outside, c :: s =>
    if c =? 39 then shell_read Single s
    else if c =? 36 then
      match s with
      | q :: s => if q =? 39 then shell_read Ansi s else None
      | [] => None
      end
    else None
  | Single, c :: s =>
    if c =? 39 then shell_read Outside s else r ← shell_read Single s; Some (c :: r)
  | Ansi, c :: s =>
    if c =? 39 then shell_read Outside s
    else if c =? 92 then
      match s with
      | d :: s =>
        match ansi_letter d with
        | Some v => r ← shell_read Ansi s; Some (v :: r)
        | None =>
          match s with
          | e :: f :: s =>
            if is_octal d && is_octal e && is_octal f
            then r ← shell_read Ansi s;
                 Some ((64 * (d - 48) + 8 * (e - 48) + (f - 48)) mod 256 :: r)
            else None
          | _ => None
          end
        end
      | [] => None
      end
    else r ← shell_read Ansi s; Some (c :: r)
  | _, [] => None
  end.

(** [mbtowc] splits [s] into characters: single bytes, and longer ones without
    ASCII bytes. *)
Inductive well_formed (mbtowc : bytes -> MbResult) : bytes -> Prop :=
| wf_nil : well_formed mbtowc []
| wf_ascii c s wc : 0 < c < 256 -> mbtowc (c :: s) = MbChar 1 wc -> well_formed mbtowc s ->
    well_formed mbtowc (c :: s)
| wf_multi l s wc : (2 <= length l)%nat -> Forall (fun b => 128 <= b < 256) l ->
    mbtowc (l ++ s) = MbChar (length l) wc -> well_formed mbtowc s -> well_formed mbtowc (l ++ s).

(** ** Quoting: lemmas *)

Lemma special_or_plain c :
  (c <? 32) || (c =? 39) || (c =? 34) || (c =? 92) = true \/
  (32 <= c /\ c <> 39 /\ c <> 34 /\ c <> 92 /\
   (c <? 32) || (c =? 39) || (c =? 34) || (c =? 92) = false).
Proof.
  destruct (Z.ltb_spec c 32), (Z.eqb_spec c 39), (Z.eqb_spec c 34), (Z.eqb_spec c 92); cbn; auto.
  right. auto.
Qed.

#[local] Ltac Zify.zify_post_hook ::= Z.to_euclidean_division_equations.

Lemma octal3_digits c : 0 <= c < 256 ->
  exists d e f, octal3 c = [d; e; f] /\ is_octal d = true /\ is_octal e = true /\ is_octal f = true /\
    (64 * (d - 48) + 8 * (e - 48) + (f - 48)) mod 256 = c /\ ansi_letter d = None /\ 32 <= d /\ 32 <= e /\ 32 <= f.
Proof.
  intros Hc. unfold octal3, octal_digit.
  exists (48 + c / 64 mod 8), (48 + c / 8 mod 8), (48 + c mod 8). split; [done|].
  unfold is_octal. split; [lia|]. split; [lia|]. split; [lia|]. split.
  - replace (64 * (48 + c / 64 mod 8 - 48) + 8 * (48 + c / 8 mod 8 - 48) + (48 + c mod 8 - 48)) with c by lia.
    lia.
  - split; [|lia]. unfold ansi_letter.
    assert (48 <= 48 + c / 64 mod 8 <= 51) as H by lia. revert H.
    generalize (48 + c / 64 mod 8). intros d Hd.
    repeat match goal with |- context [d =? ?k] => destruct (Z.eqb_spec d k); [lia|] end. done.
Qed.

#[local] Ltac Zify.zify_post_hook ::= idtac.

(** Bash reads every escape back. *)
Lemma escape_char_read c r : 0 <= c < 256 ->
  shell_read Ansi (escape_char c ++ r) = (r ← shell_read Ansi r; Some (c :: r)).
Proof.
  intros Hc. unfold escape_char. destruct (octal3_digits c Hc) as (d & e & f & E & H1 & H2 & H3 & H4 & H5 & _).
  repeat match goal with |- context [c =? ?k] => destruct (Z.eqb_spec c k) as [->|]; [reflexivity|] end.
  rewrite E. cbn [app shell_read]. change (92 =? 39) with false. change (92 =? 92) with true. cbv iota.
  rewrite H5, H1, H2, H3. cbn [andb]. by rewrite H4.
Qed.

Lemma shell_read_single l r : Forall (fun c => c <> 39) l ->
  shell_read Single (l ++ r) = (r ← shell_read Single r; Some (l ++ r)).
Proof.
  induction 1 as [|c l Hc _ IH]; [cbn [app]; by destruct (shell_read Single r)|].
  cbn [app shell_read]. destruct (Z.eqb_spec c 39); [done|]. rewrite IH.
  by destruct (shell_read Single r).
Qed.

Lemma escape_loop_spec mbtowc s : well_formed mbtowc s -> forall fuel esc,
  (length s <= fuel)%nat ->
  exists r, escape_loop mbtowc fuel s esc = Some r /\
    shell_read (if esc : bool then Ansi else Single) (r ++ [39]) = Some s.
Proof.
  induction 1 as [|c s wc Hc Hmb Hwf IH|l s wc Hl F Hmb Hwf IH]; intros fuel esc Hfuel.
  - exists []. split; [by destruct fuel|]. by destruct esc.
  - destruct fuel as [|fuel]; [cbn in Hfuel; lia|]. cbn [escape_loop]. rewrite Hmb.
    change (drop 1 (c :: s)) with s. change (take 1 (c :: s)) with [c].
    destruct (special_or_plain c) as [->|(H32 & H39 & H34 & H92 & ->)].
    + destruct (IH fuel true) as (r & -> & Hr); [cbn in Hfuel; lia|]. cbn [mbind option_bind].
      eexists. split; [done|].
      assert (He : shell_read Ansi (escape_char c ++ r ++ [39]) = Some (c :: s)).
      { rewrite escape_char_read by lia. by rewrite Hr. }
      destruct esc; rewrite <- !app_assoc; [exact He|]. exact He.
    + destruct (IH fuel false) as (r & -> & Hr); [cbn in Hfuel; lia|]. cbn [mbind option_bind].
      eexists. split; [done|].
      assert (Hp : shell_read Single ([c] ++ r ++ [39]) = Some (c :: s)).
      { rewrite shell_read_single by by constructor. by rewrite Hr. }
      destruct esc; rewrite <- !app_assoc; [exact Hp|exact Hp].
  - destruct l as [|c l]; [cbn in Hl; lia|]. pose proof F as F'. apply Forall_cons in F' as [Hc F'].
    destruct fuel as [|fuel]; [cbn in Hfuel; lia|].
    change ((c :: l) ++ s) with (c :: (l ++ s)). cbn [escape_loop].
    change (c :: (l ++ s)) with ((c :: l) ++ s). rewrite Hmb.
    destruct (special_or_plain c) as [Hsp|(_ & _ & _ & _ & ->)].
    { exfalso. destruct (Z.ltb_spec c 32), (Z.eqb_spec c 39), (Z.eqb_spec c 34), (Z.eqb_spec c 92);
        cbn in Hsp; try done; lia. }
    rewrite drop_app_length, take_app_length.
    destruct (IH fuel false) as (r & -> & Hr).
    { rewrite length_app in Hfuel. cbn in Hfuel. lia. }
    cbn [mbind option_bind]. eexists. split; [done|].
    assert (Hp : shell_read Single ((c :: l) ++ r ++ [39]) = Some ((c :: l) ++ s)).
    { rewrite shell_read_single; [by rewrite Hr|]. apply (Forall_impl _ _ _ F). intros b Hb. lia. }
    destruct esc; rewrite <- !app_assoc; [exact Hp|exact Hp].
Qed.

(** What is printed to a terminal in quoted form can be pasted into a shell:
    for every well-formed name that holds something unsafe, the output is one
    line which bash reads back as exactly that name. *)
Theorem quoted_output_reads_back mbtowc str
    (Hwf : well_formed mbtowc str)
    (Hunsafe : all_safe mbtowc (S (length str)) str = Some false) :
  exists r, print_possibly_escaped mbtowc false false true str = Some (r ++ [10]) /\
    shell_read Outside r = Some str.
Proof.
  unfold print_possibly_escaped. cbn [orb negb]. rewrite Hunsafe. cbn [mbind option_bind].
  destruct (escape_loop_spec mbtowc str Hwf (length str) false) as (r & -> & Hr); [done|].
  cbn [mbind option_bind]. exists (39 :: r ++ [39]). split.
  - by rewrite <- app_comm_cons, <- app_assoc.
  - exact Hr.
Qed.

(** The C locale: every byte is a character. *)
Definition c_mbtowc (s : bytes) : MbResult :=
  match s with
  | [] => MbInvalid
  | c :: _ => if c =? 0 then MbNul else MbChar 1 c
  end.

Lemma c_well_formed s : Forall (fun b => 0 < b < 256) s -> well_formed c_mbtowc s.
Proof.
  induction 1 as [|c s Hc _ IH]; [constructor|]. apply (wf_ascii _ c s c); auto.
  cbn. by destruct (Z.eqb_spec c 0); [lia|].
Qed.

Definition sample_name : bytes := [47; 39; 10; 36; 40; 1; 55; 65; 34].

Lemma quoted_output_reads_back_witness :
  exists r, print_possibly_escaped c_mbtowc false false true sample_name = Some (r ++ [10]) /\
    shell_read Outside r = Some sample_name.
Proof.
  apply (quoted_output_reads_back c_mbtowc sample_name).
  - apply c_well_formed. repeat (apply Forall_cons; split; [lia|]). by apply Forall_nil.
  - reflexivity.
Defined.

(** What the terminal protection needs of [mbtowc]: an accepted character is one
    byte, which an ASCII byte decodes to, or several non-ASCII bytes. *)
Definition ascii_compatible (mbtowc : bytes -> MbResult) : Prop :=
  (forall c s ret wc, mbtowc (c :: s) = MbChar ret wc ->
    (1 <= ret <= length (c :: s))%nat /\
    (c < 128 -> ret = 1%nat /\ wc = c) /\
    (128 <= c -> Forall (fun b => 128 <= b) (take ret (c :: s)))) /\
  (forall c s, mbtowc (c :: s) = MbNul -> c = 0).

Definition printable (b : Z) : Prop := 32 <= b.

Lemma printable_app l k : Forall printable l -> Forall printable k -> Forall printable (l ++ k).
Proof. intros. by apply Forall_app. Qed.

Lemma escape_char_printable c : 0 <= c < 256 -> Forall printable (escape_char c).
Proof.
  intros Hc. unfold escape_char. destruct (octal3_digits c Hc) as (d & e & f & E & _ & _ & _ & _ & _ & H).
  constructor; [unfold printable; lia|].
  repeat match goal with |- context [c =? ?k] => destruct (Z.eqb_spec c k) as [->|] end;
    try (repeat constructor; unfold printable; lia).
  rewrite E. repeat constructor; unfold printable; lia.
Qed.

Lemma non_ascii_printable l : Forall (fun b => 128 <= b) l -> Forall printable l.
Proof. intros F. apply (Forall_impl _ _ _ F). intros b Hb. unfold printable. lia. Qed.

Lemma all_safe_printable mbtowc fuel : forall s, ascii_compatible mbtowc ->
  Forall (fun b => 0 < b < 256) s -> all_safe mbtowc fuel s = Some true -> Forall printable s.
Proof.
  induction fuel as [|fuel IH]; intros s Hac F H; [done|].
  destruct s as [|c s]; [constructor|]. pose proof F as F'. apply Forall_cons in F' as [Hc F'].
  cbn [all_safe] in H. destruct (mbtowc (c :: s)) as [| |ret wc] eqn:Hmb; [done| |].
  { apply (proj2 Hac) in Hmb. lia. }
  destruct (proj1 Hac c s ret wc Hmb) as (Hret & Hlow & Hhigh).
  destruct (special_or_plain wc) as [Hsp|(H32 & _ & _ & _ & Hsp)]; rewrite Hsp in H; [done|].
  destruct (wc =? 96); [done|].
  assert (Hrest : Forall printable (drop ret (c :: s))).
  { destruct (drop ret (c :: s)) as [|d s'] eqn:Ed; [constructor|]. apply IH; auto.
    rewrite <- Ed. by apply Forall_drop. }
  rewrite <- (take_drop ret (c :: s)). apply printable_app; [|exact Hrest].
  destruct (decide (c < 128)) as [Hl|Hl].
  - destruct (Hlow Hl) as [-> ->]. repeat constructor. exact H32.
  - apply non_ascii_printable, Hhigh. lia.
Qed.

Lemma escape_loop_printable mbtowc fuel : forall s esc r, ascii_compatible mbtowc ->
  Forall (fun b => 0 < b < 256) s -> escape_loop mbtowc fuel s esc = Some r -> Forall printable r.
Proof.
  induction fuel as [|fuel IH]; intros s esc r Hac F H; destruct s as [|c s]; cbn [escape_loop] in H;
    try (injection H as <-; constructor); try done.
  pose proof F as F'. apply Forall_cons in F' as [Hc F'].
  assert (Hq : forall q : bool, Forall printable (if q then [39; 39] else []) /\
                                Forall printable (if q then [] else [39; 36; 39])).
  { intros []; split; repeat constructor; unfold printable; lia. }
  destruct (mbtowc (c :: s)) as [| |ret wc] eqn:Hmb.
  - apply bind_Some in H as (r' & Hr' & [= <-]). constructor; [unfold printable; lia|]. eauto.
  - injection H as <-. constructor.
  - destruct (proj1 Hac c s ret wc Hmb) as (Hret & Hlow & Hhigh).
    assert (Fd : Forall (fun b => 0 < b < 256) (drop ret (c :: s))) by by apply Forall_drop.
    destruct (special_or_plain c) as [Hsp|(H32 & _ & _ & _ & Hsp)]; rewrite Hsp in H;
      apply bind_Some in H as (r' & Hr' & H); apply (inj Some) in H; subst r.
    + apply printable_app; [apply Hq|]. apply printable_app; [apply escape_char_printable; lia|]. eauto.
    + apply printable_app; [apply Hq|]. apply printable_app; [|by eauto].
      destruct (decide (c < 128)) as [Hl|Hl].
      * destruct (Hlow Hl) as [-> _]. repeat constructor. exact H32.
      * apply non_ascii_printable, Hhigh. lia.
Qed.

(** Terminal protection: whatever the name, a line printed to a terminal
    without [--literal] or [-0] holds no control character below 32 other than
    its final newline. *)
Theorem no_control_characters mbtowc str out
    (Hac : ascii_compatible mbtowc) (Hstr : Forall (fun b => 0 < b < 256) str)
    (Hout : print_possibly_escaped mbtowc false false true str = Some out) :
  exists line, out = line ++ [10] /\ Forall printable line.
Proof.
  unfold print_possibly_escaped in Hout. cbn [orb negb] in Hout.
  apply bind_Some in Hout as (safe & Hs & Hout). destruct safe.
  - injection Hout as <-. exists str. split; [done|]. by eapply all_safe_printable.
  - apply bind_Some in Hout as (r & Hr & [= <-]). exists (39 :: r ++ [39]).
    split; [by rewrite <- app_comm_cons, <- app_assoc|].
    constructor; [unfold printable; lia|]. apply printable_app; [by eapply escape_loop_printable|].
    repeat constructor. unfold printable. lia.
Qed.

Lemma c_ascii_compatible : ascii_compatible (fun s =>
  match s with [] => MbInvalid | c :: _ => if c =? 0 then MbNul else if c <? 128 then MbChar 1 c else MbInvalid end).
Proof.
  split.
  - intros c s ret wc. destruct (Z.eqb_spec c 0); [done|]. destruct (Z.ltb_spec c 128); [|done].
    intros [= <- <-]. cbn [length]. split; [lia|]. split; [done|lia].
  - intros c s. destruct (Z.eqb_spec c 0); [done|]. by destruct (c <? 128).
Qed.

Lemma no_control_characters_witness :
  exists line, [39; 47; 63; 39; 36; 39; 92; 110; 92; 48; 51; 51; 39; 39; 65; 39; 10] = line ++ [10] /\
    Forall printable line.
Proof.
  apply (no_control_characters (fun s =>
    match s with [] => MbInvalid | c :: _ => if c =? 0 then MbNul else if c <? 128 then MbChar 1 c else MbInvalid end)
    [47; 200; 10; 27; 65]).
  - apply c_ascii_compatible.
  - repeat (apply Forall_cons; split; [lia|]). by apply Forall_nil.
  - reflexivity.
Defined.
