(* ===== verification/History.v ===== *)
(** * updatedb: clocks and the history of runs (src/updatedb.cpp)

    [time_is_current] with its cache of the clock, and what [main] makes of the
    events of a run: a run marker in front, the previous runs before it, and
    only the last runs kept. *)
From S2P Require Import Prelude Metadata MetadataCodec.

(** ** The clock *)

(** The static [cache], and one reading of [gettimeofday] as seconds and
    microseconds. *)
Definition time_is_current (now : Z * Z) (t cache : dir_time) : bool * dir_time :=
  if dir_time_lt t cache then (false, cache)
  else
    let cache := DirTime (fst now - 3) (i32 (snd now * 1000)) in
    (dir_time_ge t cache, cache).

(** Successive calls, each with the time at which it is made. *)
Fixpoint current_all (calls : list ((Z * Z) * dir_time)) (cache : dir_time) : list bool :=
  match calls with
  | [] => []
  | (now, t) :: calls =>
    let '(r, cache) := time_is_current now t cache in r :: current_all calls cache
  end.

(** ** Runs *)

Definition is_marker (e : HistoryEvent) : bool := bool_decide (ev_kind e = EkRunMarker).

(** The indices of the run markers, from [i] on. *)
Fixpoint marker_indices (events : list HistoryEvent) (i : nat) : list nat :=
  match events with
  | [] => []
  | e :: events => (if is_marker e then [i] else []) ++ marker_indices events (S i)
  end.

Definition run_starts (events : list HistoryEvent) : list nat :=
  match events with
  | [] => []
  | e :: _ => (if is_marker e then [] else [0%nat]) ++ marker_indices events 0
  end.

Definition trim_history_runs (events : list HistoryEvent) (max_runs : Z) : list HistoryEvent :=
  if max_runs <=? 0 then []
  else
    match events with
    | [] => events
    | _ =>
      let starts := run_starts events in
      match starts with
      | [] => events
      | _ =>
        if i32 (Z.of_nat (length starts)) <=? max_runs then events
        else
          match starts !! Z.to_nat (Z.of_nat (length starts) - max_runs) with
          | Some keep_index => drop keep_index events
          | None => []
          end
      end
    end.

(** The history that [main] stores: [scanned] are the events of this run,
    [previous] those of the old database. *)
Definition run_history (conf_history_depth : Z) (baseline_run : bool) (now : dir_time)
    (previous scanned : list HistoryEvent) : list HistoryEvent :=
  if 0 <? conf_history_depth then
    let marker := Event EkRunMarker (if baseline_run then bytes_of_string "baseline" else []) now
                    empty_metadata empty_metadata in
    let history_events := marker :: scanned in
    if 1 <? conf_history_depth then trim_history_runs (previous ++ history_events) conf_history_depth
    else trim_history_runs history_events conf_history_depth
  else [].

(** ** Specification *)

(** A run: a marker followed by events that are not markers. *)
Definition run := (HistoryEvent * list HistoryEvent)%type.
Definition run_ok (r : run) : Prop := is_marker (fst r) = true /\ Forall (fun e => is_marker e = false) (snd r).
Definition run_events (r : run) : list HistoryEvent := fst r :: snd r.
Definition history_of (runs : list run) : list HistoryEvent := concat (map run_events runs).

Definition last_runs (n : nat) (runs : list run) : list run := drop (length runs - n) runs.

(** ** Lemmas *)

Lemma dir_time_not_lt a b : dir_time_lt a b = false <->
  dt_sec b < dt_sec a \/ dt_sec a = dt_sec b /\ dt_nsec b <= dt_nsec a.
Proof.
  unfold dir_time_lt. destruct (Z.eqb_spec (dt_sec a) (dt_sec b)); cbn [negb]; rewrite Z.ltb_ge; lia.
Qed.

Lemma dir_time_is_lt a b : dir_time_lt a b = true <->
  dt_sec a < dt_sec b \/ dt_sec a = dt_sec b /\ dt_nsec a < dt_nsec b.
Proof.
  unfold dir_time_lt. destruct (Z.eqb_spec (dt_sec a) (dt_sec b)); cbn [negb]; rewrite Z.ltb_lt; lia.
Qed.

Lemma marker_indices_app a b i :
  marker_indices (a ++ b) i = marker_indices a i ++ marker_indices b (i + length a).
Proof.
  revert i. induction a as [|e a IH]; intros i; cbn [app marker_indices length].
  - by rewrite Nat.add_0_r.
  - rewrite IH, app_assoc. do 2 f_equal. lia.
Qed.

Lemma marker_indices_none l i : Forall (fun e => is_marker e = false) l -> marker_indices l i = [].
Proof. intros F. revert i. induction F as [|e l He F IH]; intros i; [done|]. cbn. by rewrite He, IH. Qed.

Lemma marker_indices_runs runs i : Forall run_ok runs ->
  length (marker_indices (history_of runs) i) = length runs /\
  forall k, (k < length runs)%nat ->
    marker_indices (history_of runs) i !! k = Some (i + length (history_of (take k runs)))%nat.
Proof.
  intros F. revert i. induction F as [|[m es] runs [Hm He] F IH]; intros i; [cbn; split; [done|intros; lia]|].
  unfold history_of in *. cbn [map concat fst snd] in *.
  change (run_events (m, es)) with (m :: es). cbn [app marker_indices].
  rewrite Hm, marker_indices_app, (marker_indices_none es) by done. cbn [app length].
  destruct (IH (S i + length es)%nat) as [IH1 IH2]. split; [by rewrite IH1|].
  intros [|k] Hk; cbn [lookup list_lookup take map concat].
  - cbn [length Nat.add]. f_equal. lia.
  - change (run_events (m, es)) with (m :: es). rewrite IH2 by lia. cbn [app length]. rewrite length_app. f_equal. lia.
Qed.

Lemma drop_history k runs : (k <= length runs)%nat ->
  drop (length (history_of (take k runs))) (history_of runs) = history_of (drop k runs).
Proof.
  intros Hk. rewrite <- (take_drop k runs) at 2. unfold history_of. rewrite List.map_app, concat_app.
  by rewrite drop_app_length.
Qed.

Lemma trim_runs runs n : Forall run_ok runs -> (Z.of_nat (length runs) < 2 ^ 31) -> 0 < n ->
  trim_history_runs (history_of runs) n = history_of (last_runs (Z.to_nat n) runs).
Proof.
  intros F Hlen Hn. unfold trim_history_runs, last_runs. rewrite (proj2 (Z.leb_gt n 0)) by lia.
  destruct runs as [|r runs]; [done|].
  destruct (marker_indices_runs (r :: runs) 0 F) as [H1 H2]. pose proof (Forall_inv F) as [Hm He].
  assert (Hs : run_starts (history_of (r :: runs)) = marker_indices (history_of (r :: runs)) 0).
  { change (history_of (r :: runs)) with (fst r :: (snd r ++ history_of runs)). cbn [run_starts]. by rewrite Hm. }
  destruct (history_of (r :: runs)) as [|e0 l0] eqn:Eh; [done|]. rewrite Hs.
  set (starts := marker_indices _ 0) in *.
  destruct starts as [|s0 starts'] eqn:Es; [done|]. rewrite <- Es in H1, H2 |- *. clear Es.
  rewrite H1. set (k := length (r :: runs)) in *.
  assert (Hi : i32 (Z.of_nat k) = Z.of_nat k).
  { unfold i32. change (2 ^ 32) with 4294967296. change (2 ^ 31) with 2147483648 in *. rewrite Z.mod_small; lia. }
  rewrite Hi. destruct (Z.leb_spec (Z.of_nat k) n) as [H|H].
  - by replace (k - Z.to_nat n)%nat with 0%nat by lia.
  - replace (Z.to_nat (Z.of_nat k - n)) with (k - Z.to_nat n)%nat by lia.
    rewrite H2 by lia. cbn [Nat.add]. rewrite <- Eh. apply drop_history. unfold k. lia.
Qed.

(** ** Correctness *)

(** The clock does not go backwards from call to call, and is read in
    microseconds. *)
Fixpoint clock_ok (last : dir_time) (calls : list ((Z * Z) * dir_time)) : Prop :=
  match calls with
  | [] => True
  | (now, _) :: calls =>
    0 <= snd now < 1000000 /\ dir_time_lt (DirTime (fst now) (snd now * 1000)) last = false /\
    clock_ok (DirTime (fst now) (snd now * 1000)) calls
  end.

Lemma cached_clock calls : forall last cache, clock_ok last calls ->
  dir_time_lt (DirTime (dt_sec last - 3) (dt_nsec last)) cache = false ->
  current_all calls cache =
  map (fun '(now, t) => dir_time_ge t (DirTime (fst now - 3) (snd now * 1000))) calls.
Proof.
  induction calls as [|[[s us] t] calls IH]; intros last cache Hc Hle; [done|].
  cbn [clock_ok fst snd current_all map] in *. destruct Hc as (Hus & Hmono & Hc).
  assert (Ei : i32 (us * 1000) = us * 1000).
  { unfold i32. change (2 ^ 32) with 4294967296. change (2 ^ 31) with 2147483648. rewrite Z.mod_small; lia. }
  assert (Hle' : dir_time_lt (DirTime (s - 3) (us * 1000)) cache = false).
  { rewrite dir_time_not_lt in *. cbn [dt_sec dt_nsec] in *. lia. }
  unfold time_is_current. cbn [fst snd]. rewrite Ei. destruct (dir_time_lt t cache) eqn:E.
  - f_equal.
    + unfold dir_time_ge. rewrite (proj2 (dir_time_is_lt _ _)); [done|].
      rewrite dir_time_is_lt, dir_time_not_lt in *. lia.
    + by apply (IH (DirTime s (us * 1000))).
  - f_equal. apply (IH (DirTime s (us * 1000))); [done|]. rewrite dir_time_not_lt. cbn [dt_sec dt_nsec]. lia.
Qed.

(** The cache of the clock never changes an answer: with a clock that does
    not go backwards, a timestamp is current exactly when it is not older than
    three seconds before the moment of the call. *)
Theorem time_is_current_uncached calls : clock_ok (DirTime 3 0) calls ->
  current_all calls (DirTime 0 0) =
  map (fun '(now, t) => dir_time_ge t (DirTime (fst now - 3) (snd now * 1000))) calls.
Proof. intros H. by apply (cached_clock calls (DirTime 3 0)). Qed.

Definition sample_calls : list ((Z * Z) * dir_time) :=
  [((1000, 5), DirTime 998 0); ((1001, 0), DirTime 996 9); ((1002, 0), DirTime 998 1); ((1002, 1), DirTime 999 1000)].

Lemma time_is_current_uncached_witness :
  current_all sample_calls (DirTime 0 0) = [true; false; false; true].
Proof.
  apply (time_is_current_uncached sample_calls). cbn. unfold dir_time_lt. cbn. lia.
Defined.

(** C30. With a history of [depth] runs, [main] stores the last [depth] of the
    previous runs and this one, whole and in order; with depth 1 just this run,
    with depth 0 nothing.  A run without a usable previous database is marked as
    the baseline. *)
Theorem run_history_exact (depth : Z) (baseline : bool) (now : dir_time) (runs : list run) (scanned : list HistoryEvent) :
  0 <= depth < 2 ^ 31 -> Forall run_ok runs -> Z.of_nat (length runs) + 1 < 2 ^ 31 ->
  Forall (fun e => is_marker e = false) scanned ->
  let this : run :=
    (Event EkRunMarker (if baseline then bytes_of_string "baseline" else []) now empty_metadata empty_metadata, scanned) in
  run_history depth baseline now (history_of runs) scanned =
  history_of (last_runs (Z.to_nat depth) (if 1 <? depth then runs ++ [this] else if 0 <? depth then [this] else [])).
Proof.
  intros Hd F Hlen Fs this. assert (Hthis : run_ok this) by done. unfold run_history.
  destruct (Z.ltb_spec 0 depth) as [H0|H0].
  - destruct (Z.ltb_spec 1 depth) as [H1|H1].
    + rewrite <- trim_runs; [|apply Forall_app; split; [done|by apply Forall_singleton]|rewrite length_app; cbn; lia|lia].
      unfold history_of. rewrite List.map_app, concat_app. cbn [map concat run_events fst snd this]. by rewrite app_nil_r.
    + rewrite <- trim_runs; [|by apply Forall_singleton|cbn; lia|lia].
      unfold history_of. cbn [map concat run_events fst snd this]. by rewrite app_nil_r.
  - rewrite (proj2 (Z.ltb_ge 1 depth)) by lia. done.
Qed.

Definition sample_run (sec : Z) : run :=
  (Event EkRunMarker [] (DirTime sec 0) empty_metadata empty_metadata,
   [Event EkAdded [47; 97] (DirTime sec 1) empty_metadata empty_metadata]).

Lemma run_history_exact_witness :
  run_history 2 false (DirTime 9 0) (history_of [sample_run 1; sample_run 5]) [] =
  history_of [sample_run 5; (Event EkRunMarker [] (DirTime 9 0) empty_metadata empty_metadata, [])].
Proof.
  apply (run_history_exact 2 false (DirTime 9 0) [sample_run 1; sample_run 5] []).
  - lia.
  - repeat constructor.
  - cbn. lia.
  - constructor.
Defined.
