(* ===== verification/DbHeader.v ===== *)
(** * The database header (include/db.h)

    [Header] as it is laid out in the file on a little-endian machine: the
    fields in order with their natural alignment, 144 bytes in all. *)
From S2P Require Import Prelude Metadata MetadataCodec.

(** ** Data *)

Record Header := HEADER {
  magic : bytes;
  version : Z;
  hashtable_size : Z;
  extra_ht_slots : Z;
  num_docids : Z;
  hash_table_offset_bytes : Z;
  filename_index_offset_bytes : Z;
  max_version : Z;
  zstd_dictionary_length_bytes : Z;
  zstd_dictionary_offset_bytes : Z;
  directory_data_length_bytes : Z;
  directory_data_offset_bytes : Z;
  next_zstd_dictionary_length_bytes : Z;
  next_zstd_dictionary_offset_bytes : Z;
  conf_block_length_bytes : Z;
  conf_block_offset_bytes : Z;
  metadata_length_bytes : Z;
  metadata_offset_bytes : Z;
  history_length_bytes : Z;
  history_offset_bytes : Z;
  metadata_flags : Z;
  check_visibility : bool
}.

Definition sizeof_Header : nat := 144.

Definition METADATA_FLAG_NONE : Z := 0.
Definition METADATA_FLAG_POSIX_V1 : Z := Z.shiftl 1 0.
Definition METADATA_FLAG_POSIX_V2 : Z := Z.shiftl 1 1.

Definition flocate_magic : bytes := 0 :: bytes_of_string "flocate".

(** The bytes of a header, and the header in the first bytes of a file. *)
Definition header_bytes (h : Header) : bytes :=
  magic h
  ++ le_bytes 4 (version h) ++ le_bytes 4 (hashtable_size h)
  ++ le_bytes 4 (extra_ht_slots h) ++ le_bytes 4 (num_docids h)
  ++ le_bytes 8 (hash_table_offset_bytes h) ++ le_bytes 8 (filename_index_offset_bytes h)
  ++ le_bytes 4 (max_version h) ++ le_bytes 4 (zstd_dictionary_length_bytes h)
  ++ le_bytes 8 (zstd_dictionary_offset_bytes h)
  ++ le_bytes 8 (directory_data_length_bytes h) ++ le_bytes 8 (directory_data_offset_bytes h)
  ++ le_bytes 8 (next_zstd_dictionary_length_bytes h)
  ++ le_bytes 8 (next_zstd_dictionary_offset_bytes h)
  ++ le_bytes 8 (conf_block_length_bytes h) ++ le_bytes 8 (conf_block_offset_bytes h)
  ++ le_bytes 8 (metadata_length_bytes h) ++ le_bytes 8 (metadata_offset_bytes h)
  ++ le_bytes 8 (history_length_bytes h) ++ le_bytes 8 (history_offset_bytes h)
  ++ le_bytes 4 (metadata_flags h) ++ [if check_visibility h then 1 else 0; 0; 0; 0].

Definition parse_header (m : bytes) : option Header :=
  if decide (length m < sizeof_Header)%nat then None
  else
    let p := drop 8 m in
    '(version, p) ← get_u32 p;
    '(hashtable_size, p) ← get_u32 p;
    '(extra_ht_slots, p) ← get_u32 p;
    '(num_docids, p) ← get_u32 p;
    '(hash_table_offset_bytes, p) ← get_u64 p;
    '(filename_index_offset_bytes, p) ← get_u64 p;
    '(max_version, p) ← get_u32 p;
    '(zstd_dictionary_length_bytes, p) ← get_u32 p;
    '(zstd_dictionary_offset_bytes, p) ← get_u64 p;
    '(directory_data_length_bytes, p) ← get_u64 p;
    '(directory_data_offset_bytes, p) ← get_u64 p;
    '(next_zstd_dictionary_length_bytes, p) ← get_u64 p;
    '(next_zstd_dictionary_offset_bytes, p) ← get_u64 p;
    '(conf_block_length_bytes, p) ← get_u64 p;
    '(conf_block_offset_bytes, p) ← get_u64 p;
    '(metadata_length_bytes, p) ← get_u64 p;
    '(metadata_offset_bytes, p) ← get_u64 p;
    '(history_length_bytes, p) ← get_u64 p;
    '(history_offset_bytes, p) ← get_u64 p;
    '(metadata_flags, p) ← get_u32 p;
    '(check_visibility, _) ← get_u8 p;
    Some (HEADER (take 8 m) version hashtable_size extra_ht_slots num_docids
      hash_table_offset_bytes filename_index_offset_bytes max_version
      zstd_dictionary_length_bytes zstd_dictionary_offset_bytes
      directory_data_length_bytes directory_data_offset_bytes
      next_zstd_dictionary_length_bytes next_zstd_dictionary_offset_bytes
      conf_block_length_bytes conf_block_offset_bytes
      metadata_length_bytes metadata_offset_bytes
      history_length_bytes history_offset_bytes metadata_flags
      (negb (check_visibility =? 0))).

(** ** Lemmas *)

Record header_wf (h : Header) : Prop := {
  wf_magic : length (magic h) = 8%nat;
  wf_u32 : Forall is_u32 [version h; hashtable_size h; extra_ht_slots h; num_docids h; max_version h;
    zstd_dictionary_length_bytes h; metadata_flags h];
  wf_u64 : Forall is_u64 [hash_table_offset_bytes h; filename_index_offset_bytes h;
    zstd_dictionary_offset_bytes h; directory_data_length_bytes h; directory_data_offset_bytes h;
    next_zstd_dictionary_length_bytes h; next_zstd_dictionary_offset_bytes h;
    conf_block_length_bytes h; conf_block_offset_bytes h; metadata_length_bytes h;
    metadata_offset_bytes h; history_length_bytes h; history_offset_bytes h]
}.

Lemma length_header_bytes h : length (magic h) = 8%nat -> length (header_bytes h) = sizeof_Header.
Proof. intros H. unfold header_bytes. rewrite !length_app, !length_le_bytes, H. reflexivity. Qed.

(** Reads the next field of the header. *)
Ltac next_field :=
  first [rewrite get_u32_le | rewrite get_u64_le]; cbn [mbind option_bind].

Lemma parse_header_bytes h rest : header_wf h -> parse_header (header_bytes h ++ rest) = Some h.
Proof.
  intros [Hm H32 H64]. unfold parse_header. rewrite length_app, length_header_bytes by done.
  rewrite decide_False by lia. unfold header_bytes. rewrite <- !app_assoc.
  rewrite (drop_app_length' (magic h)), (take_app_length' (magic h)) by done. do 20 next_field.
  cbn [app get_u8 mbind option_bind]. rewrite !u32_small, !u64_small.
  { destruct h as [m]. cbn. by destruct check_visibility0. }
  all: clear Hm; repeat match goal with H : Forall _ (_ :: _) |- _ => apply Forall_cons in H as [? H] end; assumption.
Qed.

#[export] Hint Rewrite length_header_bytes : flocate.

(** ** Correctness *)

(** A header takes 144 bytes and is read back from them, whatever follows. *)
Theorem header_roundtrip h rest : header_wf h ->
  length (header_bytes h) = sizeof_Header /\ parse_header (header_bytes h ++ rest) = Some h.
Proof.
  intros H. split; [apply length_header_bytes; apply H|by apply parse_header_bytes].
Qed.

Definition sample_header : Header :=
  HEADER flocate_magic 2 16 16 3 1000 2000 3 100 144 1 2 3 4 5 6 7 8 9 10 METADATA_FLAG_POSIX_V2 true.

Lemma header_roundtrip_witness :
  length (header_bytes sample_header) = sizeof_Header /\
  parse_header (header_bytes sample_header ++ [255]) = Some sample_header.
Proof.
  apply (header_roundtrip sample_header [255]). split; [reflexivity| |];
    cbn; repeat apply Forall_cons_2; try apply Forall_nil_2; split; vm_compute; congruence.
Defined.
