(* ===== verification/Conf.v ===== *)
(** * Configuration (src/conf.cpp, include/parse_size.h)

    /etc/updatedb.conf and the command line are read into one record; the part
    that decides what is in the database is written to the configuration block,
    which flocate-showdiff (src/showdiff.cpp) reads back.  [getopt_long],
    [realpath] and [getcwd] are parameters: the options arrive as a list. *)
From S2P Require Import Prelude Text Metadata DirPath.

(** ** Values *)

Definition parse_bool (str : bytes) : option bool :=
  if decide (str = bytes_of_string "0") then Some false
  else if decide (str = bytes_of_string "no") then Some false
  else if decide (str = bytes_of_string "1") then Some true
  else if decide (str = bytes_of_string "yes") then Some true
  else None.

Definition INT_MAX : Z := 2 ^ 31 - 1.

Definition parse_int (str : bytes) : option Z :=
  match str with
  | [] => None
  | _ =>
    let '(value, errno, end_) := strtol str in
    if errno then None
    else match end_ with
         | _ :: _ => None
         | [] => if (value <? 0) || (INT_MAX <? value) then None else Some value
         end
  end.

(** The shift that a size's suffix stands for, and what follows it. *)
Definition size_suffix (end_ : bytes) : option (Z * bytes) :=
  match end_ with
  | [] => Some (0, [])
  | c :: end_ =>
    let u := toupper c in
    if u =? 75 then Some (10, end_)
    else if u =? 77 then Some (20, end_)
    else if u =? 71 then Some (30, end_)
    else if u =? 84 then Some (40, end_)
    else None
  end.

Definition parse_size (str : bytes) : option Z :=
  match str with
  | [] => None
  | c :: _ =>
    if c =? 45 then None
    else
      let '(value, errno, end_) := strtoull str in
      if errno then None
      else if decide (end_ = str) then None
      else
        match size_suffix end_ with
        | Some (shift, []) =>
          if negb (shift =? 0) && (Z.shiftr (2 ^ 64 - 1) shift <? value) then None
          else Some (u64 (Z.shiftl value shift))
        | _ => None
        end
  end.

Definition parse_metadata_hash_kind (value : bytes) : option MetadataHashKind :=
  let lower := map tolower value in
  if decide (lower = bytes_of_string "none") then Some HkNone
  else if decide (lower = bytes_of_string "xxh64") then Some HkXxHash64
  else if decide (lower = bytes_of_string "xxhash64") then Some HkXxHash64
  else if decide (lower = bytes_of_string "fast") then Some HkXxHash64
  else if decide (lower = bytes_of_string "sha256") then Some HkSha256
  else None.

Definition metadata_hash_kind_to_string (kind : MetadataHashKind) : bytes :=
  match kind with
  | HkNone => bytes_of_string "none"
  | HkXxHash64 => bytes_of_string "xxh64"
  | HkSha256 => bytes_of_string "sha256"
  | HkOther _ => bytes_of_string "unknown"
  end.

(** The word at the start of a text, and what follows. *)
Fixpoint span_word (val : bytes) : bytes * bytes :=
  match val with
  | [] => ([], [])
  | c :: val' =>
    if isspace c then ([], val) else let '(w, rest) := span_word val' in (c :: w, rest)
  end.

(** [var_add_values]: the values that are added to the list. *)
Fixpoint words (fuel : nat) (val : bytes) : list bytes :=
  match fuel with
  | O => []
  | S fuel =>
    match skip_space val with
    | [] => []
    | val => let '(w, rest) := span_word val in w :: words fuel rest
    end
  end.

Definition var_add_values (list : list bytes) (val : bytes) : Datatypes.list bytes :=
  list ++ words (S (length val)) val.

Definition var_finish (list : list bytes) : Datatypes.list bytes := unique_sort bytes_lt list.

(** ** State *)

Record Config := CONFIG {
  conf_check_visibility : bool;
  conf_prunefs : list bytes;
  conf_prunenames : list bytes;
  conf_prunepaths : list bytes;
  conf_prune_bind_mounts : bool;
  conf_debug_pruning : bool;
  conf_scan_root : option bytes;
  conf_output : bytes;
  conf_verbose : bool;
  conf_block_size : Z;
  use_debug : bool;
  conf_metadata_hash_kind : MetadataHashKind;
  conf_history_depth : Z;
  conf_compare_atime : bool;
  conf_hash_max_size : Z;
  conf_rehash_all : bool
}.

Definition initial_config : Config :=
  CONFIG true [] [] [] false false None [] false 32 false HkNone 1 false 0 false.

(** Assignments to one variable. *)
Definition set_check_visibility (v : bool) (c : Config) : Config :=
  CONFIG v (conf_prunefs c) (conf_prunenames c) (conf_prunepaths c)
    (conf_prune_bind_mounts c) (conf_debug_pruning c) (conf_scan_root c) (conf_output c)
    (conf_verbose c) (conf_block_size c) (use_debug c) (conf_metadata_hash_kind c)
    (conf_history_depth c) (conf_compare_atime c) (conf_hash_max_size c) (conf_rehash_all c).
Definition set_prunefs (v : list bytes) (c : Config) : Config :=
  CONFIG (conf_check_visibility c) v (conf_prunenames c) (conf_prunepaths c)
    (conf_prune_bind_mounts c) (conf_debug_pruning c) (conf_scan_root c) (conf_output c)
    (conf_verbose c) (conf_block_size c) (use_debug c) (conf_metadata_hash_kind c)
    (conf_history_depth c) (conf_compare_atime c) (conf_hash_max_size c) (conf_rehash_all c).
Definition set_prunenames (v : list bytes) (c : Config) : Config :=
  CONFIG (conf_check_visibility c) (conf_prunefs c) v (conf_prunepaths c)
    (conf_prune_bind_mounts c) (conf_debug_pruning c) (conf_scan_root c) (conf_output c)
    (conf_verbose c) (conf_block_size c) (use_debug c) (conf_metadata_hash_kind c)
    (conf_history_depth c) (conf_compare_atime c) (conf_hash_max_size c) (conf_rehash_all c).
Definition set_prunepaths (v : list bytes) (c : Config) : Config :=
  CONFIG (conf_check_visibility c) (conf_prunefs c) (conf_prunenames c) v
    (conf_prune_bind_mounts c) (conf_debug_pruning c) (conf_scan_root c) (conf_output c)
    (conf_verbose c) (conf_block_size c) (use_debug c) (conf_metadata_hash_kind c)
    (conf_history_depth c) (conf_compare_atime c) (conf_hash_max_size c) (conf_rehash_all c).
Definition set_prune_bind_mounts (v : bool) (c : Config) : Config :=
  CONFIG (conf_check_visibility c) (conf_prunefs c) (conf_prunenames c) (conf_prunepaths c)
    v (conf_debug_pruning c) (conf_scan_root c) (conf_output c)
    (conf_verbose c) (conf_block_size c) (use_debug c) (conf_metadata_hash_kind c)
    (conf_history_depth c) (conf_compare_atime c) (conf_hash_max_size c) (conf_rehash_all c).
Definition set_debug_pruning (v : bool) (c : Config) : Config :=
  CONFIG (conf_check_visibility c) (conf_prunefs c) (conf_prunenames c) (conf_prunepaths c)
    (conf_prune_bind_mounts c) v (conf_scan_root c) (conf_output c)
    (conf_verbose c) (conf_block_size c) (use_debug c) (conf_metadata_hash_kind c)
    (conf_history_depth c) (conf_compare_atime c) (conf_hash_max_size c) (conf_rehash_all c).
Definition set_scan_root (v : option bytes) (c : Config) : Config :=
  CONFIG (conf_check_visibility c) (conf_prunefs c) (conf_prunenames c) (conf_prunepaths c)
    (conf_prune_bind_mounts c) (conf_debug_pruning c) v (conf_output c)
    (conf_verbose c) (conf_block_size c) (use_debug c) (conf_metadata_hash_kind c)
    (conf_history_depth c) (conf_compare_atime c) (conf_hash_max_size c) (conf_rehash_all c).
Definition set_output (v : bytes) (c : Config) : Config :=
  CONFIG (conf_check_visibility c) (conf_prunefs c) (conf_prunenames c) (conf_prunepaths c)
    (conf_prune_bind_mounts c) (conf_debug_pruning c) (conf_scan_root c) v
    (conf_verbose c) (conf_block_size c) (use_debug c) (conf_metadata_hash_kind c)
    (conf_history_depth c) (conf_compare_atime c) (conf_hash_max_size c) (conf_rehash_all c).
Definition set_verbose (v : bool) (c : Config) : Config :=
  CONFIG (conf_check_visibility c) (conf_prunefs c) (conf_prunenames c) (conf_prunepaths c)
    (conf_prune_bind_mounts c) (conf_debug_pruning c) (conf_scan_root c) (conf_output c)
    v (conf_block_size c) (use_debug c) (conf_metadata_hash_kind c)
    (conf_history_depth c) (conf_compare_atime c) (conf_hash_max_size c) (conf_rehash_all c).
Definition set_block_size (v : Z) (c : Config) : Config :=
  CONFIG (conf_check_visibility c) (conf_prunefs c) (conf_prunenames c) (conf_prunepaths c)
    (conf_prune_bind_mounts c) (conf_debug_pruning c) (conf_scan_root c) (conf_output c)
    (conf_verbose c) v (use_debug c) (conf_metadata_hash_kind c)
    (conf_history_depth c) (conf_compare_atime c) (conf_hash_max_size c) (conf_rehash_all c).
Definition set_use_debug (v : bool) (c : Config) : Config :=
  CONFIG (conf_check_visibility c) (conf_prunefs c) (conf_prunenames c) (conf_prunepaths c)
    (conf_prune_bind_mounts c) (conf_debug_pruning c) (conf_scan_root c) (conf_output c)
    (conf_verbose c) (conf_block_size c) v (conf_metadata_hash_kind c)
    (conf_history_depth c) (conf_compare_atime c) (conf_hash_max_size c) (conf_rehash_all c).
Definition set_metadata_hash_kind (v : MetadataHashKind) (c : Config) : Config :=
  CONFIG (conf_check_visibility c) (conf_prunefs c) (conf_prunenames c) (conf_prunepaths c)
    (conf_prune_bind_mounts c) (conf_debug_pruning c) (conf_scan_root c) (conf_output c)
    (conf_verbose c) (conf_block_size c) (use_debug c) v
    (conf_history_depth c) (conf_compare_atime c) (conf_hash_max_size c) (conf_rehash_all c).
Definition set_history_depth (v : Z) (c : Config) : Config :=
  CONFIG (conf_check_visibility c) (conf_prunefs c) (conf_prunenames c) (conf_prunepaths c)
    (conf_prune_bind_mounts c) (conf_debug_pruning c) (conf_scan_root c) (conf_output c)
    (conf_verbose c) (conf_block_size c) (use_debug c) (conf_metadata_hash_kind c)
    v (conf_compare_atime c) (conf_hash_max_size c) (conf_rehash_all c).
Definition set_compare_atime (v : bool) (c : Config) : Config :=
  CONFIG (conf_check_visibility c) (conf_prunefs c) (conf_prunenames c) (conf_prunepaths c)
    (conf_prune_bind_mounts c) (conf_debug_pruning c) (conf_scan_root c) (conf_output c)
    (conf_verbose c) (conf_block_size c) (use_debug c) (conf_metadata_hash_kind c)
    (conf_history_depth c) v (conf_hash_max_size c) (conf_rehash_all c).
Definition set_hash_max_size (v : Z) (c : Config) : Config :=
  CONFIG (conf_check_visibility c) (conf_prunefs c) (conf_prunenames c) (conf_prunepaths c)
    (conf_prune_bind_mounts c) (conf_debug_pruning c) (conf_scan_root c) (conf_output c)
    (conf_verbose c) (conf_block_size c) (use_debug c) (conf_metadata_hash_kind c)
    (conf_history_depth c) (conf_compare_atime c) v (conf_rehash_all c).
Definition set_rehash_all (v : bool) (c : Config) : Config :=
  CONFIG (conf_check_visibility c) (conf_prunefs c) (conf_prunenames c) (conf_prunepaths c)
    (conf_prune_bind_mounts c) (conf_debug_pruning c) (conf_scan_root c) (conf_output c)
    (conf_verbose c) (conf_block_size c) (use_debug c) (conf_metadata_hash_kind c)
    (conf_history_depth c) (conf_compare_atime c) (conf_hash_max_size c) v.

(** ** The configuration file *)

Inductive Token :=
| UCT_EOF | UCT_EOL | UCT_IDENTIFIER | UCT_EQUAL | UCT_QUOTED | UCT_OTHER
| UCT_PRUNE_BIND_MOUNTS | UCT_PRUNEFS | UCT_PRUNENAMES | UCT_PRUNEPATHS
| UCT_METADATA_HASH | UCT_HISTORY_DEPTH | UCT_COMPARE_ATIME | UCT_HASH_MAX_SIZE.

#[global] Instance Token_eq_dec : EqDecision Token.
Proof. solve_decision. Defined.

(** The file position: what is left to read, and [uc_current_line]. *)
Record Lexer := LEX { uc_file : bytes; uc_current_line : Z }.

(** An error that ends the program, with the line it is reported at. *)
Inductive ConfError :=
| MissingClosingQuote (line : Z)
| UnknownVariable (line : Z) (name : bytes)
| VariableNameExpected (line : Z)
| AlreadyDefined (line : Z) (name : bytes)
| EqualExpected (line : Z)
| ValueExpected (line : Z)
| InvalidValue (line : Z) (var : Token) (value : bytes)
| UnexpectedData (line : Z).

(** Space other than the end of the line. *)
Fixpoint skip_blanks (s : bytes) : bytes :=
  match s with
  | [] => []
  | c :: s' => if negb (c =? 10) && isspace c then skip_blanks s' else s
  end.

(** After a ['#']: the rest from after the end of the line, [None] at the end
    of the file. *)
Fixpoint skip_comment (s : bytes) : option bytes :=
  match s with
  | [] => None
  | c :: s => if c =? 10 then Some s else skip_comment s
  end.

(** After an opening quote: [uc_lex_buf] and the rest, [None] if there is no
    closing quote on the line. *)
Fixpoint lex_quoted (s : bytes) : option (bytes * bytes) :=
  match s with
  | [] => None
  | c :: s =>
    if c =? 34 then Some ([], s)
    else if c =? 10 then None
    else '(buf, rest) ← lex_quoted s; Some (c :: buf, rest)
  end.

Fixpoint lex_word (s : bytes) : bytes * bytes :=
  match s with
  | [] => ([], [])
  | c :: s' =>
    if isalnum c || (c =? 95) then let '(buf, rest) := lex_word s' in (c :: buf, rest) else ([], s)
  end.

Definition keyword (buf : bytes) : Token :=
  if decide (buf = bytes_of_string "PRUNE_BIND_MOUNTS") then UCT_PRUNE_BIND_MOUNTS
  else if decide (buf = bytes_of_string "PRUNEFS") then UCT_PRUNEFS
  else if decide (buf = bytes_of_string "PRUNENAMES") then UCT_PRUNENAMES
  else if decide (buf = bytes_of_string "PRUNEPATHS") then UCT_PRUNEPATHS
  else if decide (buf = bytes_of_string "METADATA_HASH") then UCT_METADATA_HASH
  else if decide (buf = bytes_of_string "HISTORY_DEPTH") then UCT_HISTORY_DEPTH
  else if decide (buf = bytes_of_string "COMPARE_ATIME") then UCT_COMPARE_ATIME
  else if decide (buf = bytes_of_string "HASH_MAX_SIZE") then UCT_HASH_MAX_SIZE
  else UCT_IDENTIFIER.

(** The next token, [uc_lex_buf] and the lexer after it; [uc_line] is the line of
    the lexer before it. *)
Definition uc_lex (l : Lexer) : (Token * bytes * Lexer) + ConfError :=
  let line := uc_current_line l in
  match skip_blanks (uc_file l) with
  | [] => inl (UCT_EOF, [], LEX [] line)
  | c :: s =>
    if c =? 35 then
      match skip_comment s with
      | None => inl (UCT_EOF, [], LEX [] line)
      | Some s => inl (UCT_EOL, [], LEX s (line + 1))
      end
    else if c =? 10 then inl (UCT_EOL, [], LEX s (line + 1))
    else if c =? 61 then inl (UCT_EQUAL, [], LEX s line)
    else if c =? 34 then
      match lex_quoted s with
      | None => inr (MissingClosingQuote line)
      | Some (buf, s) => inl (UCT_QUOTED, buf, LEX s line)
      end
    else if negb (isalpha c) && negb (c =? 95) then inl (UCT_OTHER, [], LEX s line)
    else let '(buf, rest) := lex_word s in inl (keyword (c :: buf), c :: buf, LEX rest line)
  end.

Definition is_variable (token : Token) : bool :=
  match token with
  | UCT_PRUNE_BIND_MOUNTS | UCT_PRUNEFS | UCT_PRUNENAMES | UCT_PRUNEPATHS
  | UCT_METADATA_HASH | UCT_HISTORY_DEPTH | UCT_COMPARE_ATIME | UCT_HASH_MAX_SIZE => true
  | _ => false
  end.

(** The value of one variable; [None] if it is invalid. *)
Definition assign (var_token : Token) (uc_lex_buf : bytes) (c : Config) : option Config :=
  match var_token with
  | UCT_PRUNE_BIND_MOUNTS => v ← parse_bool (c_str uc_lex_buf); Some (set_prune_bind_mounts v c)
  | UCT_PRUNEFS => Some (set_prunefs (var_add_values (conf_prunefs c) (c_str uc_lex_buf)) c)
  | UCT_PRUNENAMES => Some (set_prunenames (var_add_values (conf_prunenames c) (c_str uc_lex_buf)) c)
  | UCT_PRUNEPATHS => Some (set_prunepaths (var_add_values (conf_prunepaths c) (c_str uc_lex_buf)) c)
  | UCT_METADATA_HASH => v ← parse_metadata_hash_kind uc_lex_buf; Some (set_metadata_hash_kind v c)
  | UCT_HISTORY_DEPTH => v ← parse_int (c_str uc_lex_buf); Some (set_history_depth v c)
  | UCT_COMPARE_ATIME => v ← parse_bool (c_str uc_lex_buf); Some (set_compare_atime v c)
  | UCT_HASH_MAX_SIZE => v ← parse_size (c_str uc_lex_buf); Some (set_hash_max_size v c)
  | _ => None
  end.

Notation "'let!' x := e 'in' f" :=
  (match e with inl x => f | inr err => inr err end)
  (at level 10, x pattern, e at level 100, f at level 200).

(** One assignment after its variable's name: the token that ends the line. *)
Definition parse_assignment (var_token : Token) (l : Lexer) (c : Config)
    : (Token * Lexer * Config) + ConfError :=
  let line := uc_current_line l in
  let! (token, _, l) := uc_lex l in
  if decide (token <> UCT_EQUAL) then inr (EqualExpected line)
  else
    let line := uc_current_line l in
    let! (token, buf, l) := uc_lex l in
    if decide (token <> UCT_QUOTED) then inr (ValueExpected line)
    else
      match assign var_token buf c with
      | None => inr (InvalidValue line var_token buf)
      | Some c =>
        let line := uc_current_line l in
        let! (token, _, l) := uc_lex l in
        if decide (token <> UCT_EOL /\ token <> UCT_EOF) then inr (UnexpectedData line)
        else inl (token, l, c)
      end.

(** The loop over the lines; [had] holds the variables that are defined. *)
Fixpoint parse_lines (fuel : nat) (had : list Token) (l : Lexer) (c : Config)
    : option (Config + ConfError) :=
  match fuel with
  | O => None
  | S fuel =>
    let line := uc_current_line l in
    match uc_lex l with
    | inr err => Some (inr err)
    | inl (UCT_EOF, _, _) => Some (inl c)
    | inl (UCT_EOL, _, l) => parse_lines fuel had l c
    | inl (UCT_IDENTIFIER, buf, _) => Some (inr (UnknownVariable line buf))
    | inl (token, buf, l) =>
      if negb (is_variable token) then Some (inr (VariableNameExpected line))
      else if decide (token ∈ had) then Some (inr (AlreadyDefined line buf))
      else
        match parse_assignment token l c with
        | inr err => Some (inr err)
        | inl (UCT_EOF, _, c) => Some (inl c)
        | inl (_, l, c) => parse_lines fuel (token :: had) l c
        end
    end
  end.

(** The file's contents, if there is one.  Every token but the last takes at
    least one byte. *)
Definition parse_updatedb_conf (file : option bytes) (c : Config) : option (Config + ConfError) :=
  match file with
  | None => Some (inl c)
  | Some s => parse_lines (S (length s)) [] (LEX s 1) c
  end.

(** ** The command line *)

(** The options that [getopt_long] returns, with their arguments. *)
Inductive Opt :=
| OptInvalid
| OPT_B (optarg : bytes) | OPT_F (optarg : bytes) | OPT_N (optarg : bytes) | OPT_P (optarg : bytes)
| OPT_U (optarg : bytes) | OPT_V | OPT_e (optarg : bytes)
| OPT_ADD_SINGLE_PRUNEPATH (optarg : bytes) | OPT_METADATA_HASH (optarg : bytes)
| OPT_HISTORY_DEPTH (optarg : bytes) | OPT_COMPARE_ATIME (optarg : bytes)
| OPT_HASH_MAX_SIZE (optarg : bytes) | OPT_REHASH_ALL
| OPT_f (optarg : bytes) | OPT_h | OPT_l (optarg : bytes) | OPT_n (optarg : bytes)
| OPT_o (optarg : bytes) | OPT_v | OPT_b (optarg : bytes) | OPT_D | OPT_DEBUG_PRUNING.

(** What ends the program while the arguments are parsed. *)
Inductive ArgExit :=
| ExitFailure
| ExitSuccess.

Record ArgState := ARGS {
  got_prune_bind_mounts : bool;
  prunefs_changed : bool;
  prunenames_changed : bool;
  prunepaths_changed : bool;
  got_visibility : bool
}.

Definition no_args : ArgState := ARGS false false false false false.

(** An option that takes a value: [None] is an invalid one. *)
Definition with_value {A} (v : option A) (k : A -> (ArgState * Config) + ArgExit)
    : (ArgState * Config) + ArgExit :=
  match v with
  | None => inr ExitFailure
  | Some v => k v
  end.

(** [DBFILE] is chosen when the program is built. *)
Section Arguments.
Context (realpath : bytes -> option bytes) (getcwd : option bytes) (DBFILE : bytes).

(** One option. *)
Definition parse_argument (opt : Opt) (a : ArgState) (c : Config) : (ArgState * Config) + ArgExit :=
  let '(ARGS got_b fs_changed names_changed paths_changed got_l) := a in
  match opt with
  | OptInvalid => inr ExitFailure
  | OPT_B optarg =>
    if got_b then inr ExitFailure
    else with_value (parse_bool optarg) (fun v =>
      inl (ARGS true fs_changed names_changed paths_changed got_l, set_prune_bind_mounts v c))
  | OPT_F optarg =>
    if fs_changed then inr ExitFailure
    else inl (ARGS got_b true names_changed paths_changed got_l,
              set_prunefs (var_add_values [] optarg) c)
  | OPT_N optarg =>
    if names_changed then inr ExitFailure
    else inl (ARGS got_b fs_changed true paths_changed got_l,
              set_prunenames (var_add_values [] optarg) c)
  | OPT_P optarg =>
    if paths_changed then inr ExitFailure
    else inl (ARGS got_b fs_changed names_changed true got_l,
              set_prunepaths (var_add_values [] optarg) c)
  | OPT_U optarg =>
    match conf_scan_root c with
    | Some _ => inr ExitFailure
    | None =>
      match realpath optarg with
      | None => inr ExitFailure
      | Some p => inl (a, set_scan_root (Some p) c)
      end
    end
  | OPT_V => inr ExitSuccess
  | OPT_e optarg =>
    inl (ARGS got_b fs_changed names_changed true got_l,
         set_prunepaths (var_add_values (conf_prunepaths c) optarg) c)
  | OPT_ADD_SINGLE_PRUNEPATH optarg =>
    inl (ARGS got_b fs_changed names_changed true got_l,
         set_prunepaths (conf_prunepaths c ++ [optarg]) c)
  | OPT_METADATA_HASH optarg =>
    with_value (parse_metadata_hash_kind optarg) (fun v => inl (a, set_metadata_hash_kind v c))
  | OPT_HISTORY_DEPTH optarg => with_value (parse_int optarg) (fun v => inl (a, set_history_depth v c))
  | OPT_COMPARE_ATIME optarg => with_value (parse_bool optarg) (fun v => inl (a, set_compare_atime v c))
  | OPT_HASH_MAX_SIZE optarg => with_value (parse_size optarg) (fun v => inl (a, set_hash_max_size v c))
  | OPT_REHASH_ALL => inl (a, set_rehash_all true c)
  | OPT_f optarg =>
    inl (ARGS got_b true names_changed paths_changed got_l,
         set_prunefs (var_add_values (conf_prunefs c) optarg) c)
  | OPT_h => inr ExitSuccess
  | OPT_l optarg =>
    if got_l then inr ExitFailure
    else with_value (parse_bool optarg) (fun v =>
      inl (ARGS got_b fs_changed names_changed paths_changed true, set_check_visibility v c))
  | OPT_n optarg =>
    inl (ARGS got_b fs_changed true paths_changed got_l,
         set_prunenames (var_add_values (conf_prunenames c) optarg) c)
  | OPT_o optarg =>
    match conf_output c with
    | _ :: _ => inr ExitFailure
    | [] => inl (a, set_output optarg c)
    end
  | OPT_v => inl (a, set_verbose true c)
  | OPT_b optarg =>
    with_value (parse_int optarg) (fun v =>
      if v =? 0 then inr ExitFailure else inl (a, set_block_size v c))
  | OPT_D => inl (a, set_use_debug true c)
  | OPT_DEBUG_PRUNING => inl (a, set_debug_pruning true c)
  end.

Fixpoint parse_options (opts : list Opt) (a : ArgState) (c : Config) : Config + ArgExit :=
  match opts with
  | [] => inl c
  | opt :: opts =>
    match parse_argument opt a c with
    | inr e => inr e
    | inl (a, c) => parse_options opts a c
    end
  end.

Definition absolute (path : bytes) : bool :=
  match path with
  | [] => false
  | c :: _ => c =? 47
  end.

Definition prepend_cwd (path : bytes) : option bytes :=
  buf ← getcwd; Some (buf ++ [47] ++ path).

(** After the last option; [operands] says whether arguments are left. *)
Definition options_done (operands : bool) (c : Config) : Config + ArgExit :=
  if operands then inr ExitFailure
  else
    let c := match conf_scan_root c with
             | None => set_scan_root (Some [47]) c
             | Some _ => c
             end in
    let c := match conf_output c with [] => set_output DBFILE c | _ => c end in
    if absolute (conf_output c) then inl c
    else
      match prepend_cwd (conf_output c) with
      | None => inr ExitFailure
      | Some path => inl (set_output path c)
      end.

Definition parse_arguments (opts : list Opt) (operands : bool) (c : Config) : Config + ArgExit :=
  match parse_options opts no_args c with
  | inr e => inr e
  | inl c => options_done operands c
  end.
End Arguments.

(** ** The configuration block *)

(** A literal with its terminating NUL. *)
Definition CONST (s : string) : bytes := bytes_of_string s ++ [0].

Definition gen_conf_block_string_list (strings : list bytes) : bytes :=
  concat (map (fun str => str ++ [0]) strings) ++ [0].

Definition gen_conf_block (c : Config) : bytes :=
  CONST "prune_bind_mounts" ++ [if conf_prune_bind_mounts c then 49 else 48; 0; 0]
  ++ CONST "prunefs" ++ gen_conf_block_string_list (conf_prunefs c)
  ++ CONST "prunenames" ++ gen_conf_block_string_list (conf_prunenames c)
  ++ CONST "prunepaths" ++ gen_conf_block_string_list (conf_prunepaths c)
  ++ CONST "metadata_hash" ++ metadata_hash_kind_to_string (conf_metadata_hash_kind c) ++ [0; 0]
  ++ CONST "history_depth" ++ to_string (conf_history_depth c) ++ [0; 0].

(** What [conf_prepare] does to the parsed configuration: the configuration and
    its block. *)
Definition conf_finish (c : Config) : Config * bytes :=
  let c := set_prunefs (var_finish (map (map toupper) (conf_prunefs c))) c in
  let c := set_prunenames (var_finish (conf_prunenames c)) c in
  let c := set_prunepaths (var_finish (conf_prunepaths c)) c in
  let conf_block := gen_conf_block c in
  (set_prunepaths (string_list_dir_path_sort (conf_prunepaths c)) c, conf_block).

Inductive ConfResult :=
| Prepared (c : Config) (conf_block : bytes)
| ConfFileError (err : ConfError)
| ArgumentExit (e : ArgExit).

Definition conf_prepare (realpath : bytes -> option bytes) (getcwd : option bytes)
    (DBFILE : bytes) (file : option bytes) (opts : list Opt) (operands : bool) : option ConfResult :=
  r ← parse_updatedb_conf file initial_config;
  Some match r with
       | inr err => ConfFileError err
       | inl c =>
         match parse_arguments realpath getcwd DBFILE opts operands c with
         | inr e => ArgumentExit e
         | inl c => let '(c, conf_block) := conf_finish c in Prepared c conf_block
         end
       end.

(** ** Lexing: lemmas *)

Lemma skip_blanks_length s : (length (skip_blanks s) <= length s)%nat.
Proof. induction s as [|c s IH]; [done|]. cbn. destruct (_ && _); cbn; lia. Qed.

Lemma skip_comment_length s s' : skip_comment s = Some s' -> (length s' < length s)%nat.
Proof.
  induction s as [|c s IH]; [done|]. cbn. destruct (c =? 10); [intros [= <-]; lia|].
  intros H. specialize (IH H). lia.
Qed.

Lemma lex_quoted_length s buf rest : lex_quoted s = Some (buf, rest) -> (length rest < length s)%nat.
Proof.
  revert buf rest. induction s as [|c s IH]; intros buf rest; [done|]. cbn.
  destruct (c =? 34); [intros [= <- <-]; lia|]. destruct (c =? 10); [done|].
  destruct (lex_quoted s) as [[b r]|]; [|done]. cbn. intros [= <- <-]. specialize (IH _ _ eq_refl). lia.
Qed.

Lemma lex_word_length s : (length (snd (lex_word s)) <= length s)%nat.
Proof.
  induction s as [|c s IH]; [done|]. cbn. destruct (_ || _); [|done].
  destruct (lex_word s). cbn in *. lia.
Qed.

(** Every token but the end of the file takes input. *)
Lemma uc_lex_progress l token buf l' : uc_lex l = inl (token, buf, l') ->
  (length (uc_file l') <= length (uc_file l))%nat /\
  (token <> UCT_EOF -> (length (uc_file l') < length (uc_file l))%nat).
Proof.
  unfold uc_lex. destruct l as [s line]. cbn [uc_file uc_current_line].
  pose proof (skip_blanks_length s) as Hs. destruct (skip_blanks s) as [|c s'].
  { intros H. injection H as <- _ <-. cbn. split; [lia|by intros []]. }
  cbn [length] in Hs. destruct (c =? 35).
  { destruct (skip_comment s') as [s2|] eqn:E; intros H; injection H as <- _ <-; cbn.
    - apply skip_comment_length in E. lia.
    - split; [lia|by intros []]. }
  destruct (c =? 10); [intros H; injection H as <- _ <-; cbn; lia|].
  destruct (c =? 61); [intros H; injection H as <- _ <-; cbn; lia|]. destruct (c =? 34).
  { destruct (lex_quoted s') as [[b r]|] eqn:E; [|done]. apply lex_quoted_length in E.
    intros H; injection H as <- _ <-; cbn. lia. }
  destruct (_ && _); [intros H; injection H as <- _ <-; cbn; lia|].
  pose proof (lex_word_length s') as Hw. destruct (lex_word s') as [b r]. cbn in Hw.
  intros H; injection H as <- _ <-; cbn. lia.
Qed.

Lemma parse_assignment_progress token l c token' l' c' :
  parse_assignment token l c = inl (token', l', c') ->
  (length (uc_file l') <= length (uc_file l))%nat /\ (token' = UCT_EOL \/ token' = UCT_EOF).
Proof.
  unfold parse_assignment. destruct (uc_lex l) as [[[t1 b1] l1]|] eqn:E1; [|done].
  apply uc_lex_progress in E1 as [E1 _]. destruct (decide _); [done|].
  destruct (uc_lex l1) as [[[t2 b2] l2]|] eqn:E2; [|done].
  apply uc_lex_progress in E2 as [E2 _]. destruct (decide _); [done|].
  destruct (assign _ _ _); [|done]. destruct (uc_lex l2) as [[[t3 b3] l3]|] eqn:E3; [|done].
  apply uc_lex_progress in E3 as [E3 _]. destruct (decide _) as [|Hd]; [done|].
  intros H; injection H as <- <- _. split; [lia|].
  destruct (decide (t3 = UCT_EOL)); [by left|]. right. destruct (decide (t3 = UCT_EOF)); [done|].
  by destruct Hd.
Qed.

Lemma parse_lines_total fuel : forall had l c, (length (uc_file l) < fuel)%nat ->
  is_Some (parse_lines fuel had l c).
Proof.
  induction fuel as [|fuel IH]; intros had l c Hf; [lia|]. cbn [parse_lines].
  destruct (uc_lex l) as [[[t b] l1]|err] eqn:E; [|by eexists].
  destruct (uc_lex_progress _ _ _ _ E) as [_ Hp].
  assert (Hvar : t <> UCT_EOF -> is_Some
    (if negb (is_variable t) then Some (inr (VariableNameExpected (uc_current_line l)))
     else if decide (t ∈ had) then Some (inr (AlreadyDefined (uc_current_line l) b))
     else match parse_assignment t l1 c with
          | inr err => Some (inr err)
          | inl (UCT_EOF, _, c) => Some (inl c)
          | inl (_, l, c) => parse_lines fuel (t :: had) l c
          end)).
  { intros Ht. specialize (Hp Ht). destruct (is_variable t); [|by eexists]. cbn [negb].
    destruct (decide _); [by eexists|]. destruct (parse_assignment t l1 c) as [[[t2 l2] c2]|] eqn:E2; [|by eexists].
    destruct (parse_assignment_progress _ _ _ _ _ _ E2) as [Hl Ht2].
    assert (is_Some (parse_lines fuel (t :: had) l2 c2)) by (apply IH; lia).
    destruct Ht2 as [-> | ->]; [done|by eexists]. }
  destruct t; try (by eexists); try (by apply Hvar).
  apply IH. by specialize (Hp ltac:(done)); lia.
Qed.

(** ** What a configuration file means *)

Definition variable_name (token : Token) : bytes :=
  match token with
  | UCT_PRUNE_BIND_MOUNTS => bytes_of_string "PRUNE_BIND_MOUNTS"
  | UCT_PRUNEFS => bytes_of_string "PRUNEFS"
  | UCT_PRUNENAMES => bytes_of_string "PRUNENAMES"
  | UCT_PRUNEPATHS => bytes_of_string "PRUNEPATHS"
  | UCT_METADATA_HASH => bytes_of_string "METADATA_HASH"
  | UCT_HISTORY_DEPTH => bytes_of_string "HISTORY_DEPTH"
  | UCT_COMPARE_ATIME => bytes_of_string "COMPARE_ATIME"
  | UCT_HASH_MAX_SIZE => bytes_of_string "HASH_MAX_SIZE"
  | _ => []
  end.

Inductive Line :=
| BlankLine
| CommentLine (text : bytes)
| Assignment (var : Token) (value : bytes).

Definition line_text (l : Line) : bytes :=
  match l with
  | BlankLine => [10]
  | CommentLine text => 35 :: text ++ [10]
  | Assignment var value => variable_name var ++ [61; 34] ++ value ++ [34; 10]
  end.

Definition line_ok (l : Line) : Prop :=
  match l with
  | BlankLine => True
  | CommentLine text => 10 ∉ text
  | Assignment var value => is_variable var = true /\ (10 ∉ value) /\ (34 ∉ value)
  end.

(** The assignments in order, the second one to a variable being an error. *)
Fixpoint meaning (line : Z) (had : list Token) (ls : list Line) (c : Config) : Config + ConfError :=
  match ls with
  | [] => inl c
  | Assignment var value :: ls =>
    if decide (var ∈ had) then inr (AlreadyDefined line (variable_name var))
    else
      match assign var value c with
      | None => inr (InvalidValue line var value)
      | Some c => meaning (line + 1) (var :: had) ls c
      end
  | _ :: ls => meaning (line + 1) had ls c
  end.

Lemma skip_comment_text text s : 10 ∉ text -> skip_comment (text ++ 10 :: s) = Some s.
Proof.
  induction text as [|c text IH]; [done|]. rewrite not_elem_of_cons. intros [H1 H2]. cbn.
  replace (c =? 10) with false by (symmetry; apply Z.eqb_neq; lia). by apply IH.
Qed.

Lemma lex_quoted_text value s : 10 ∉ value -> 34 ∉ value -> lex_quoted (value ++ 34 :: s) = Some (value, s).
Proof.
  induction value as [|c value IH]; [done|]. rewrite !not_elem_of_cons. intros [H1 H2] [H3 H4]. cbn.
  replace (c =? 34) with false by (symmetry; apply Z.eqb_neq; lia).
  replace (c =? 10) with false by (symmetry; apply Z.eqb_neq; lia). by rewrite IH.
Qed.

Lemma uc_lex_variable var s line : is_variable var = true ->
  uc_lex (LEX (variable_name var ++ 61 :: s) line) = inl (var, variable_name var, LEX (61 :: s) line).
Proof. destruct var; intros H; try discriminate H; reflexivity. Qed.

Lemma parse_assignment_text var value s line c : 10 ∉ value -> 34 ∉ value ->
  parse_assignment var (LEX (61 :: 34 :: value ++ 34 :: 10 :: s) line) c =
  match assign var value c with
  | None => inr (InvalidValue line var value)
  | Some c => inl (UCT_EOL, LEX s (line + 1), c)
  end.
Proof.
  intros H1 H2. unfold parse_assignment.
  change (uc_lex (LEX (61 :: ?x) line)) with (@inl (Token * bytes * Lexer) ConfError (UCT_EQUAL, [], LEX x line)).
  cbn [uc_current_line]. rewrite decide_False by (intros Hn; by apply Hn).
  change (uc_lex (LEX (34 :: ?x) line)) with
    (match lex_quoted x with
     | None => inr (MissingClosingQuote line)
     | Some (buf, s) => @inl (Token * bytes * Lexer) ConfError (UCT_QUOTED, buf, LEX s line)
     end).
  rewrite lex_quoted_text by done. rewrite decide_False by (intros Hn; by apply Hn).
  destruct (assign var value c); [|done].
  change (uc_lex (LEX (10 :: s) line)) with (@inl (Token * bytes * Lexer) ConfError (UCT_EOL, [], LEX s (line + 1))).
  cbn beta iota. by rewrite decide_False by (intros [Hn _]; by apply Hn).
Qed.

Lemma parse_lines_text ls : forall fuel had line c, (length (concat (map line_text ls)) < fuel)%nat ->
  Forall line_ok ls ->
  parse_lines fuel had (LEX (concat (map line_text ls)) line) c = Some (meaning line had ls c).
Proof.
  induction ls as [|l ls IH]; intros fuel had line c Hf F; (destruct fuel as [|fuel]; [lia|]); [done|].
  apply Forall_cons in F as [Hl F]. cbn [map concat] in *. rewrite length_app in Hf.
  set (s := concat (map line_text ls)) in *. destruct l as [|text|var value]; cbn [line_text] in *.
  - cbn [app parse_lines].
    change (uc_lex (LEX (10 :: s) line)) with (@inl (Token * bytes * Lexer) ConfError (UCT_EOL, [], LEX s (line + 1))).
    cbn beta iota. rewrite IH by (done || (cbn in Hf; lia)). done.
  - cbn [app parse_lines]. rewrite <- app_assoc. cbn [app].
    change (uc_lex (LEX (35 :: ?x) line)) with
      (match skip_comment x with
       | None => inl (UCT_EOF, [], LEX [] line)
       | Some s => @inl (Token * bytes * Lexer) ConfError (UCT_EOL, [], LEX s (line + 1))
       end).
    rewrite skip_comment_text by done. cbn beta iota. rewrite IH by (done || (cbn in Hf; lia)). done.
  - destruct Hl as (Hv & H1 & H2). rewrite <- app_assoc. cbn [app]. rewrite <- app_assoc. cbn [app parse_lines].
    rewrite uc_lex_variable by done.
    assert (E : forall (r : option (Config + ConfError)),
      (match (inl (var, variable_name var, LEX (61 :: 34 :: value ++ 34 :: 10 :: s) line)
              : (Token * bytes * Lexer) + ConfError) with
       | inr err => Some (inr err)
       | inl (UCT_EOF, _, _) => Some (inl c)
       | inl (UCT_EOL, _, l) => r
       | inl (UCT_IDENTIFIER, buf, _) => Some (inr (UnknownVariable line buf))
       | inl (token, buf, l) =>
         if negb (is_variable token) then Some (inr (VariableNameExpected line))
         else if decide (token ∈ had) then Some (inr (AlreadyDefined line buf))
         else match parse_assignment token l c with
              | inr err => Some (inr err)
              | inl (UCT_EOF, _, c) => Some (inl c)
              | inl (_, l, c) => parse_lines fuel (token :: had) l c
              end
       end) =
      if decide (var ∈ had) then Some (inr (AlreadyDefined line (variable_name var)))
      else match parse_assignment var (LEX (61 :: 34 :: value ++ 34 :: 10 :: s) line) c with
           | inr err => Some (inr err)
           | inl (UCT_EOF, _, c) => Some (inl c)
           | inl (_, l, c) => parse_lines fuel (var :: had) l c
           end).
    { intros r. destruct var; try discriminate Hv; reflexivity. }
    rewrite E. clear E. cbn [meaning]. destruct (decide (var ∈ had)); [done|].
    rewrite parse_assignment_text by done. destruct (assign var value c) as [c'|]; [|done].
    apply IH; [|done]. cbn [app length] in Hf. rewrite !length_app in Hf. cbn in Hf. lia.
Qed.

(** ** Value lists: lemmas *)

(** What a value of a list looks like. *)
Definition is_word (w : bytes) : Prop := w <> [] /\ Forall (fun c => isspace c = false) w.

Lemma span_word_spec val w rest : span_word val = (w, rest) ->
  val = w ++ rest /\ Forall (fun c => isspace c = false) w /\
  (match rest with [] => True | c :: _ => isspace c = true end).
Proof.
  revert w rest. induction val as [|c val IH]; intros w rest; cbn [span_word].
  { intros [= <- <-]. repeat split. constructor. }
  destruct (isspace c) eqn:E; [intros [= <- <-]; repeat split; [constructor|done]|].
  destruct (span_word val) as [w' rest']. intros [= <- <-].
  destruct (IH _ _ eq_refl) as (-> & F & Hr). repeat split; [by constructor|done].
Qed.

Lemma span_word_app w c rest : Forall (fun c => isspace c = false) w -> isspace c = true ->
  span_word (w ++ c :: rest) = (w, c :: rest).
Proof.
  intros F Hc. induction F as [|d w Hd F IH]; cbn [app span_word]; [by rewrite Hc|].
  by rewrite Hd, IH.
Qed.

Lemma skip_space_spec s : exists pre, s = pre ++ skip_space s /\
  (match skip_space s with [] => True | c :: _ => isspace c = false end).
Proof.
  induction s as [|c s [pre [IH H]]]; [by exists []|]. cbn [skip_space]. destruct (isspace c) eqn:E.
  - exists (c :: pre). cbn [app]. by rewrite <- IH.
  - by exists [].
Qed.

Lemma words_ok fuel : forall val, Forall (fun w => is_word w /\ forall c, c ∈ w -> c ∈ val) (words fuel val).
Proof.
  induction fuel as [|fuel IH]; intros val; [constructor|]. cbn [words].
  destruct (skip_space_spec val) as (pre & E & Hs). destruct (skip_space val) as [|c s]; [constructor|].
  destruct (span_word (c :: s)) as [w rest] eqn:Ew. destruct (span_word_spec _ _ _ Ew) as (Ecs & F & _).
  rewrite E. constructor.
  - split; [split; [|done]|].
    + intros ->. cbn [span_word] in Ew. rewrite Hs in Ew. destruct (span_word s). discriminate Ew.
    + intros d Hd. apply elem_of_app. right. rewrite Ecs. apply elem_of_app. by left.
  - eapply Forall_impl; [apply IH|]. intros w' [Hw' Hin]. split; [done|]. intros d Hd.
    apply elem_of_app. right. rewrite Ecs. apply elem_of_app. right. by apply Hin.
Qed.

Lemma words_text ws : forall fuel, (length ws < fuel)%nat -> Forall is_word ws ->
  words fuel (concat (map (fun w => w ++ [32]) ws)) = ws.
Proof.
  induction ws as [|w ws IH]; intros fuel Hf F; (destruct fuel as [|fuel]; [cbn in Hf; lia|]); [done|].
  apply Forall_cons in F as [[Hne Fw] F]. cbn [map concat words length] in *. rewrite <- app_assoc.
  cbn [app]. set (s := concat (map _ ws)) in *.
  assert (E : skip_space (w ++ 32 :: s) = w ++ 32 :: s).
  { destruct w as [|c w]; [done|]. apply Forall_inv in Fw as Hc. cbn [app skip_space]. by rewrite Hc. }
  rewrite E. clear E. destruct w as [|c w]; [done|]. cbn [app].
  change (c :: w ++ 32 :: s) with ((c :: w) ++ 32 :: s). rewrite span_word_app by done. f_equal.
  destruct fuel as [|fuel]; [lia|].
  change (words (S fuel) (32 :: s)) with (words (S fuel) s). apply IH; [lia|done].
Qed.

Lemma var_finish_elem l w : w ∈ var_finish l <-> w ∈ l.
Proof. apply elem_of_unique_sort. Qed.

(** ** The block: lemmas *)

(** NUL-terminated strings are read back unambiguously. *)
Lemma nul_terminated_inj (a b r s : bytes) : 0 ∉ a -> 0 ∉ b -> a ++ 0 :: r = b ++ 0 :: s -> a = b /\ r = s.
Proof.
  revert b. induction a as [|x a IH]; intros [|y b] Ha Hb; cbn [app].
  - by intros [= ->].
  - intros [= <- _]. exfalso. apply Hb. left.
  - intros [= -> _]. exfalso. apply Ha. left.
  - rewrite not_elem_of_cons in Ha, Hb. intros [= <- E].
    destruct (IH b) as [-> ->]; [tauto|tauto|done|done].
Qed.

Definition list_value_ok (s : bytes) : Prop := s <> [] /\ 0 ∉ s.

Lemma string_list_inj xs : forall ys r s, Forall list_value_ok xs -> Forall list_value_ok ys ->
  gen_conf_block_string_list xs ++ r = gen_conf_block_string_list ys ++ s -> xs = ys /\ r = s.
Proof.
  unfold gen_conf_block_string_list.
  induction xs as [|x xs IH]; intros [|y ys] r s Fx Fy; cbn [map concat app]; rewrite <- ?app_assoc; cbn [app].
  - by intros [= ->].
  - apply Forall_cons in Fy as [[Hy Hy0] Fy]. destruct y as [|c y]; [done|]. intros [= <- _].
    exfalso. apply Hy0. left.
  - apply Forall_cons in Fx as [[Hx Hx0] Fx]. destruct x as [|c x]; [done|]. intros [= -> _].
    exfalso. apply Hx0. left.
  - apply Forall_cons in Fx as [[Hx Hx0] Fx]. apply Forall_cons in Fy as [[Hy Hy0] Fy].
    intros E. apply nul_terminated_inj in E as [-> E]; [|done|done].
    destruct (IH ys r s Fx Fy) as [-> ->]; [|done]. by rewrite <- !app_assoc.
Qed.

Lemma hash_kind_string_ok k : 0 ∉ metadata_hash_kind_to_string k.
Proof. intros H%list_elem_of_In. destruct k; vm_compute in H; intuition congruence. Qed.

Lemma to_string_ok z : 0 <= z < 10 ^ 20 -> 0 ∉ to_string z.
Proof.
  intros Hz H. pose proof (to_string_digits z Hz) as F. rewrite Forall_forall in F. by apply F in H.
Qed.

(** What [conf_prepare] guarantees of the lists; of the pruned paths, only what the
    options that name single paths promise. *)
Record conf_valid (path_ok : bytes -> Prop) (c : Config) : Prop := {
  ok_prunefs : Forall list_value_ok (conf_prunefs c);
  ok_prunenames : Forall list_value_ok (conf_prunenames c);
  ok_prunepaths : Forall path_ok (conf_prunepaths c);
  ok_hash : forall b, conf_metadata_hash_kind c <> HkOther b;
  ok_history : 0 <= conf_history_depth c <= INT_MAX;
  ok_block_size : 1 <= conf_block_size c <= INT_MAX;
  ok_hash_max_size : is_u64 (conf_hash_max_size c)
}.

(** Values that the block can hold. *)
Abbreviation conf_ok := (conf_valid list_value_ok).

(** ** Sizes and numbers: lemmas *)

Lemma parse_int_range str v : parse_int str = Some v -> 0 <= v <= INT_MAX.
Proof.
  unfold parse_int. destruct str as [|c s]; [done|]. destruct (strtol (c :: s)) as [[v' errno] end_].
  destruct errno; [done|]. destruct end_; [|done]. destruct (Z.ltb_spec v' 0); [done|].
  destruct (Z.ltb_spec INT_MAX v'); [done|]. cbn. intros H1. apply (inj Some) in H1 as ->. lia.
Qed.

Lemma parse_size_range str v : parse_size str = Some v -> is_u64 v.
Proof.
  unfold parse_size. destruct str as [|c s]; [done|]. destruct (c =? 45); [done|].
  destruct (strtoull (c :: s)) as [[v' errno] end_]. destruct errno; [done|]. destruct (decide _); [done|].
  destruct (size_suffix end_) as [[shift [|]]|]; [|done|done]. destruct (_ && _); [done|].
  intros H1. apply (inj Some) in H1 as <-. apply u64_range.
Qed.

Lemma parse_hash_kind_known str k : parse_metadata_hash_kind str = Some k -> forall b, k <> HkOther b.
Proof. unfold parse_metadata_hash_kind. repeat case_decide; congruence. Qed.

(** ** The parsed configuration: lemmas *)

#[local] Arguments var_add_values : simpl never.

Lemma var_add_values_ok (P : bytes -> Prop) l val : (forall s, list_value_ok s -> P s) -> Forall P l -> 0 ∉ val ->
  Forall P (var_add_values l val).
Proof.
  intros HP F H. apply Forall_app. split; [done|]. eapply Forall_impl; [apply words_ok|].
  intros w [[Hne _] Hin]. apply HP. split; [done|]. intros H0. by apply H, Hin.
Qed.

Lemma c_str_no_nul s : 0 ∉ c_str s.
Proof.
  induction s as [|c s IH]; cbn; [apply not_elem_of_nil|]. destruct (Z.eqb_spec c 0); [apply not_elem_of_nil|].
  rewrite not_elem_of_cons. split; [congruence|done].
Qed.

(** Takes a [mbind] on a parsed value apart. *)
Ltac bind_value H :=
  match type of H with
  | mbind _ ?o = Some _ => let E := fresh "Ev" in destruct o eqn:E; [|discriminate H];
      cbn [mbind option_bind] in H; apply (inj Some) in H; subst
  end.

Hint Resolve parse_int_range parse_size_range parse_hash_kind_known var_add_values_ok c_str_no_nul : flocate.

Section prepared_lemmas.
Context (path_ok : bytes -> Prop) (Hpath_ok : forall s, list_value_ok s -> path_ok s).

Lemma assign_ok var value c c' : conf_valid path_ok c -> assign var value c = Some c' -> conf_valid path_ok c'.
Proof.
  intros [] H. destruct var; try discriminate H; cbn [assign] in H;
    first [bind_value H | apply (inj Some) in H; subst]; split; cbn; eauto with flocate.
Qed.

Lemma parse_assignment_ok var l c token l' c' : conf_valid path_ok c ->
  parse_assignment var l c = inl (token, l', c') -> conf_valid path_ok c'.
Proof.
  intros Hc. unfold parse_assignment. destruct (uc_lex l) as [[[? ?] ?]|]; [|done].
  destruct (decide _); [done|]. destruct (uc_lex _) as [[[? ?] ?]|]; [|done]. destruct (decide _); [done|].
  destruct (assign _ _ _) eqn:E; [|done]. destruct (uc_lex _) as [[[? ?] ?]|]; [|done].
  destruct (decide _); [done|]. intros H; injection H as _ _ <-. by eapply assign_ok.
Qed.

Lemma parse_lines_ok fuel : forall had l c c', conf_valid path_ok c -> parse_lines fuel had l c = Some (inl c') -> conf_valid path_ok c'.
Proof.
  induction fuel as [|fuel IH]; intros had l c c' Hc H; [done|]. cbn [parse_lines] in H.
  destruct (uc_lex l) as [[[t b] l1]|err]; [|discriminate H].
  assert (Hvar : (if negb (is_variable t) then Some (inr (VariableNameExpected (uc_current_line l)))
     else if decide (t ∈ had) then Some (inr (AlreadyDefined (uc_current_line l) b))
     else match parse_assignment t l1 c with
          | inr err => Some (inr err)
          | inl (UCT_EOF, _, c) => Some (inl c)
          | inl (_, l, c) => parse_lines fuel (t :: had) l c
          end) = Some (inl c') -> conf_valid path_ok c').
  { destruct (is_variable t); [|done]. cbn [negb]. destruct (decide _); [done|].
    destruct (parse_assignment t l1 c) as [[[t2 l2] c2]|] eqn:E2; [|done].
    pose proof (parse_assignment_ok _ _ _ _ _ _ Hc E2) as Hc2.
    destruct t2; eauto. intros H2. apply (inj Some) in H2. by injection H2 as <-. }
  destruct t; try discriminate H; try (by apply Hvar); [|by eapply IH].
  apply (inj Some) in H. by injection H as <-.
Qed.

End prepared_lemmas.

Definition no_nul (s : bytes) : Prop := 0 ∉ s.

(** Command-line arguments are C strings; a single path is taken as it is, and an
    empty one is the one value that the block cannot hold. *)
Definition opt_valid (path_ok : bytes -> Prop) (opt : Opt) : Prop :=
  match opt with
  | OPT_F s | OPT_N s | OPT_P s | OPT_e s | OPT_f s | OPT_n s => no_nul s
  | OPT_ADD_SINGLE_PRUNEPATH s => path_ok s
  | _ => True
  end.

Section arguments_lemmas.
Context (realpath : bytes -> option bytes) (getcwd : option bytes) (DBFILE : bytes).
Context (path_ok : bytes -> Prop) (Hpath_ok : forall s, list_value_ok s -> path_ok s).

Lemma parse_argument_ok opt a c a' c' : opt_valid path_ok opt -> conf_valid path_ok c ->
  parse_argument realpath opt a c = inl (a', c') -> conf_valid path_ok c'.
Proof.
  intros Ho [] H. destruct a. unfold parse_argument, with_value in H.
  destruct opt; try discriminate H; cbn in Ho;
    repeat match type of H with
    | (match ?x with _ => _ end) = _ => let E := fresh "E" in destruct x eqn:E; try discriminate H
    end; injection H as _ <-; split; cbn; eauto with flocate.
  - apply Forall_app. split; [done|]. by apply Forall_singleton.
  - match goal with H : parse_int _ = Some _ |- _ => apply parse_int_range in H end. lia.
Qed.

Lemma parse_options_ok opts : forall a c c', Forall (opt_valid path_ok) opts -> conf_valid path_ok c ->
  parse_options realpath opts a c = inl c' -> conf_valid path_ok c'.
Proof.
  induction opts as [|opt opts IH]; intros a c c' F Hc H; cbn [parse_options] in H.
  { by injection H as <-. }
  apply Forall_cons in F as [Ho F]. destruct (parse_argument realpath opt a c) as [[a1 c1]|] eqn:E; [|done].
  eapply IH; [done| |done]. by eapply parse_argument_ok.
Qed.

Lemma parse_arguments_ok opts operands c c' : Forall (opt_valid path_ok) opts -> conf_valid path_ok c ->
  (forall d, getcwd = Some d -> absolute d = true) ->
  parse_arguments realpath getcwd DBFILE opts operands c = inl c' ->
  conf_valid path_ok c' /\ is_Some (conf_scan_root c') /\ absolute (conf_output c') = true.
Proof.
  intros F Hc Hcwd H. unfold parse_arguments, options_done in H.
  destruct (parse_options realpath opts no_args c) as [c1|] eqn:E; [|done].
  pose proof (parse_options_ok _ _ _ _ F Hc E) as Hc1. destruct operands; [done|].
  set (c2 := match conf_scan_root c1 with None => _ | Some _ => _ end) in H.
  assert (H2 : conf_valid path_ok c2 /\ is_Some (conf_scan_root c2)).
  { unfold c2. destruct (conf_scan_root c1) eqn:E1; [split; [done|by rewrite E1]|].
    split; [|by eexists]. by destruct Hc1. }
  clearbody c2. destruct H2 as [Hc2 Hr2].
  set (c3 := match conf_output c2 with [] => _ | _ => _ end) in H.
  assert (H3 : conf_valid path_ok c3 /\ is_Some (conf_scan_root c3)).
  { unfold c3. destruct (conf_output c2); [|done]. split; [by destruct Hc2|done]. }
  clearbody c3. destruct H3 as [Hc3 Hr3].
  destruct (absolute (conf_output c3)) eqn:Ea; [by injection H as <-|].
  unfold prepend_cwd in H. destruct getcwd as [d|] eqn:Ed; [|done]. injection H as <-.
  split; [by destruct Hc3|]. split; [done|]. specialize (Hcwd _ eq_refl). by destruct d.
Qed.
End arguments_lemmas.

(** Upper-casing keeps list values. *)
Lemma toupper_value_ok l : Forall list_value_ok l -> Forall list_value_ok (map (map toupper) l).
Proof.
  intros F. apply Forall_map. eapply Forall_impl; [exact F|]. intros s [Hne H0]. split; [by destruct s|].
  intros H. apply list_elem_of_fmap in H as (c & E & Hc). symmetry in E. apply toupper_zero in E as ->. done.
Qed.

Lemma var_finish_ok (P : bytes -> Prop) l : Forall P l -> Forall P (var_finish l).
Proof. rewrite !Forall_forall. intros F x Hx. rewrite var_finish_elem in Hx. by apply F. Qed.

Lemma dir_sort_ok (P : bytes -> Prop) l : Forall P l -> Forall P (string_list_dir_path_sort l).
Proof. unfold string_list_dir_path_sort. by rewrite merge_sort_Permutation. Qed.

Lemma conf_finish_ok path_ok c : conf_valid path_ok c -> conf_valid path_ok (fst (conf_finish c)).
Proof.
  intros []. split; cbn; try done;
    [by apply var_finish_ok, toupper_value_ok|by apply var_finish_ok|by apply dir_sort_ok, var_finish_ok].
Qed.

(** ** Correctness *)

(** Reading the configuration file always ends: every token but the end of
    the file takes a byte, so the fuel of the contents' length is enough. *)
Theorem parse_updatedb_conf_total file c : is_Some (parse_updatedb_conf file c).
Proof. destruct file as [s|]; [|by eexists]. apply parse_lines_total. cbn. lia. Qed.

(** C32. A configuration file written as lines of assignments, comments and blank
    lines means the assignments in order: each variable's value is parsed and
    stored, and the first invalid value or repeated variable is the error,
    reported at its line. *)
Theorem conf_file_meaning ls c : Forall line_ok ls ->
  parse_updatedb_conf (Some (concat (map line_text ls))) c = Some (meaning 1 [] ls c).
Proof. intros F. apply parse_lines_text; [lia|done]. Qed.

Definition sample_conf : list Line :=
  [CommentLine (bytes_of_string " sample"); BlankLine;
   Assignment UCT_PRUNE_BIND_MOUNTS (bytes_of_string "yes");
   Assignment UCT_PRUNENAMES (bytes_of_string ".git .svn");
   Assignment UCT_HASH_MAX_SIZE (bytes_of_string "10M")].

Lemma conf_file_meaning_witness :
  parse_updatedb_conf (Some (concat (map line_text sample_conf))) initial_config =
    Some (meaning 1 [] sample_conf initial_config) /\
  meaning 1 [] sample_conf initial_config =
    inl (set_hash_max_size 10485760 (set_prunenames [bytes_of_string ".git"; bytes_of_string ".svn"]
           (set_prune_bind_mounts true initial_config))).
Proof.
  split; [|vm_compute; reflexivity]. apply (conf_file_meaning sample_conf).
  unfold sample_conf. repeat apply Forall_cons_2; [| | | | |apply Forall_nil_2]; cbn [line_ok];
    repeat split; apply (bool_decide_unpack _); vm_compute; exact I.
Defined.

(** Space-separated values are added to a list one by one, in order. *)
Theorem var_add_values_words list ws : Forall is_word ws ->
  var_add_values list (concat (map (fun w => w ++ [32]) ws)) = list ++ ws.
Proof.
  intros F. unfold var_add_values. f_equal. apply words_text; [|done].
  clear F. induction ws as [|w ws IH]; [cbn; lia|]. cbn [map concat length].
  rewrite !length_app. cbn [length]. lia.
Qed.

Lemma var_add_values_words_witness :
  var_add_values [] (bytes_of_string "nfs tmpfs ") = [bytes_of_string "nfs"; bytes_of_string "tmpfs"].
Proof.
  apply (var_add_values_words [] [bytes_of_string "nfs"; bytes_of_string "tmpfs"]).
  repeat apply Forall_cons_2; [| |apply Forall_nil_2]; (split; [discriminate|]);
    apply (bool_decide_unpack _); vm_compute; exact I.
Defined.

Lemma conf_prepare_valid path_ok realpath getcwd DBFILE file opts operands c block : (forall s, list_value_ok s -> path_ok s) ->
  Forall (opt_valid path_ok) opts -> (forall d, getcwd = Some d -> absolute d = true) ->
  conf_prepare realpath getcwd DBFILE file opts operands = Some (Prepared c block) -> conf_valid path_ok c.
Proof.
  intros HP Fo Hcwd. unfold conf_prepare.
  destruct (parse_updatedb_conf file initial_config) as [[c1|]|] eqn:E1; [|done|done].
  assert (Hi : conf_valid path_ok initial_config) by (split; cbn; try done; constructor).
  assert (Hc1 : conf_valid path_ok c1).
  { destruct file as [s|]; [by eapply parse_lines_ok; [done|exact Hi|exact E1]|]. apply (inj Some) in E1. by injection E1 as <-. }
  cbn [mbind option_bind]. destruct (parse_arguments _ _ _ _ _ _) as [c2|] eqn:E2; [|done].
  destruct (parse_arguments_ok _ _ _ _ HP _ _ _ _ Fo Hc1 Hcwd E2) as (Hc2 & _).
  pose proof (conf_finish_ok _ c2 Hc2) as Hc3. intros H. apply (inj Some) in H.
  destruct (conf_finish c2) as [c3 b] eqn:E3. by injection H as <- <-.
Qed.

(** C27. Whatever the file and the command line say (its arguments are strings without
    NULs), a prepared configuration is well-formed: numbers in range, no empty file
    system and no empty name, an absolute database path and a scan root; the lists are
    sorted without duplicates, the pruned paths (being strings of bytes) in directory
    order, filesystem names in upper case.  No pruned path is empty either, unless an empty one is given with
    [--add-single-prunepath], which is accepted and breaks the configuration block (see
    [empty_path_in_block]).  [getcwd] gives absolute paths. *)
Theorem conf_prepare_ok realpath getcwd DBFILE file opts operands c block : Forall (opt_valid no_nul) opts ->
  (forall d, getcwd = Some d -> absolute d = true) ->
  conf_prepare realpath getcwd DBFILE file opts operands = Some (Prepared c block) ->
  conf_valid no_nul c /\ ((OPT_ADD_SINGLE_PRUNEPATH [] ∉ opts) -> conf_ok c) /\
  is_Some (conf_scan_root c) /\ absolute (conf_output c) = true /\
  StronglySorted (not_above bytes_lt) (conf_prunefs c) /\ NoDup (conf_prunefs c) /\
  StronglySorted (not_above bytes_lt) (conf_prunenames c) /\ NoDup (conf_prunenames c) /\
  (Forall path (conf_prunepaths c) -> StronglySorted dir_path_le (conf_prunepaths c)) /\ NoDup (conf_prunepaths c) /\
  Forall (fun fs => map toupper fs = fs) (conf_prunefs c).
Proof.
  intros Fo Hcwd Hp. assert (HP : forall s, list_value_ok s -> no_nul s) by by intros s [].
  split; [by eapply conf_prepare_valid|]. split.
  { intros Hno. eapply (conf_prepare_valid list_value_ok); [done| |done|exact Hp]. apply Forall_forall. intros opt Hin.
    rewrite Forall_forall in Fo. specialize (Fo opt Hin). destruct opt; try done. cbn in *. split; [|done]. by intros ->. }
  revert Hp. unfold conf_prepare. destruct (parse_updatedb_conf file initial_config) as [[c1|]|] eqn:E1; [|done|done].
  assert (Hc1 : conf_valid no_nul c1).
  { assert (Hi : conf_valid no_nul initial_config) by (split; cbn; try done; constructor).
    destruct file as [s|]; [by eapply parse_lines_ok; [exact HP|exact Hi|exact E1]|]. apply (inj Some) in E1. by injection E1 as <-. }
  cbn [mbind option_bind]. destruct (parse_arguments _ _ _ _ _ _) as [c2|] eqn:E2; [|done].
  destruct (parse_arguments_ok _ _ _ _ HP _ _ _ _ Fo Hc1 Hcwd E2) as (_ & Hr & Ho). intros H. apply (inj Some) in H.
  destruct (conf_finish c2) as [c3 b] eqn:E3. injection H as <- <-. injection E3 as <- <-. cbn. split; [done|]. split; [done|].
  unfold var_finish. pose proof (unique_sort_bytes_sorted (map (map toupper) (conf_prunefs c2))) as [S1 N1].
  pose proof (unique_sort_bytes_sorted (conf_prunenames c2)) as [S2 N2].
  pose proof (unique_sort_bytes_sorted (conf_prunepaths c2)) as [S3 N3].
  do 4 (split; [done|]). split; [intros F; apply merge_sort_sorted; unfold string_list_dir_path_sort in F; by rewrite merge_sort_Permutation in F|].
  split; [by unfold string_list_dir_path_sort; rewrite merge_sort_Permutation|].
  apply Forall_forall. intros fs Hfs. rewrite elem_of_unique_sort in Hfs.
  apply list_elem_of_fmap in Hfs as (fs' & -> & _). rewrite map_map. apply map_ext. apply toupper_idemp.
Qed.

Lemma conf_prepare_ok_witness :
  exists c block,
  conf_prepare Some (Some [47]) [100; 98] (Some (concat (map line_text sample_conf)))
    [OPT_f (bytes_of_string "tmpfs nfs"); OPT_ADD_SINGLE_PRUNEPATH (bytes_of_string "/a b")] false = Some (Prepared c block) /\
  conf_ok c /\ conf_output c = bytes_of_string "//db" /\
  conf_prunefs c = [bytes_of_string "NFS"; bytes_of_string "TMPFS"].
Proof.
  eexists _, _. split; [vm_compute; reflexivity|]. split; [|split; vm_compute; reflexivity].
  eapply (conf_prepare_ok Some (Some [47]) [100; 98] (Some (concat (map line_text sample_conf)))
    [OPT_f (bytes_of_string "tmpfs nfs"); OPT_ADD_SINGLE_PRUNEPATH (bytes_of_string "/a b")] false); [| |vm_compute; reflexivity|].
  - repeat apply Forall_cons_2; [| |apply Forall_nil_2]; apply (bool_decide_unpack _); vm_compute; exact I.
  - intros d H. injection H as <-. reflexivity.
  - intros H. apply elem_of_cons in H as [H|H]; [discriminate H|]. apply elem_of_cons in H as [H|H]; [discriminate H|].
    by apply not_elem_of_nil in H.
Defined.

(** The settings that are in the block. *)
Definition same_tree_settings (c1 c2 : Config) : Prop :=
  conf_prune_bind_mounts c1 = conf_prune_bind_mounts c2 /\ conf_prunefs c1 = conf_prunefs c2 /\
  conf_prunenames c1 = conf_prunenames c2 /\ conf_prunepaths c1 = conf_prunepaths c2 /\
  conf_metadata_hash_kind c1 = conf_metadata_hash_kind c2 /\
  conf_history_depth c1 = conf_history_depth c2.

(** C25. Two well-formed configurations have the same configuration block, which
    is what makes updatedb reuse an existing database, exactly when they have the
    same pruning settings, kind of hash and history depth. *)
Theorem conf_block_injective c1 c2 : conf_ok c1 -> conf_ok c2 ->
  gen_conf_block c1 = gen_conf_block c2 <-> same_tree_settings c1 c2.
Proof.
  intros [F1 N1 P1 K1 D1 _ _] [F2 N2 P2 K2 D2 _ _]. unfold gen_conf_block, same_tree_settings. split.
  2: { intros (-> & -> & -> & -> & -> & ->). done. }
  intros E. apply app_inv_head in E. cbn [app] in E.
  assert (Hb : conf_prune_bind_mounts c1 = conf_prune_bind_mounts c2).
  { destruct (conf_prune_bind_mounts c1), (conf_prune_bind_mounts c2); try done; discriminate E. }
  rewrite Hb in E. do 3 (apply (f_equal tail) in E; cbn [tail] in E). split; [done|].
  apply app_inv_head in E. apply string_list_inj in E as [-> E]; [|done|done].
  apply app_inv_head in E. apply string_list_inj in E as [-> E]; [|done|done].
  apply app_inv_head in E. apply string_list_inj in E as [-> E]; [|done|done].
  apply app_inv_head in E. do 3 (split; [done|]).
  change ([0; 0]) with (0 :: [0]) in E. cbn [app] in E.
  apply nul_terminated_inj in E as [Ek E]; [|apply hash_kind_string_ok..].
  apply (f_equal tail) in E. cbn [tail] in E. apply app_inv_head in E. unfold INT_MAX in *.
  apply nul_terminated_inj in E as [Ed _]; [|apply to_string_ok; lia..]. split.
  - destruct (conf_metadata_hash_kind c1), (conf_metadata_hash_kind c2);
      try done; try discriminate Ek; exfalso; first [by eapply K1 | by eapply K2].
  - apply to_string_inj; [lia|lia|done].
Qed.

Definition conf_a : Config := set_prunenames [bytes_of_string "ab"; bytes_of_string "c"] initial_config.
Definition conf_b : Config := set_prunenames [bytes_of_string "a"; bytes_of_string "bc"] initial_config.

Lemma conf_block_injective_witness :
  gen_conf_block conf_a = gen_conf_block conf_b <-> same_tree_settings conf_a conf_b.
Proof.
  apply (conf_block_injective conf_a conf_b); split; cbn; try done; try apply Forall_nil_2;
    repeat apply Forall_cons_2; try apply Forall_nil_2;
    (split; [discriminate|apply (bool_decide_unpack _); vm_compute; exact I]).
Defined.

(** The prepared settings depend only on which values the lists name: their
    order, repetition and the case of filesystem names change neither the
    settings nor the block, so they do not make updatedb rebuild the database. *)
Theorem conf_finish_canonical c1 c2 :
  (forall x, x ∈ map (map toupper) (conf_prunefs c1) <-> x ∈ map (map toupper) (conf_prunefs c2)) ->
  (forall x, x ∈ conf_prunenames c1 <-> x ∈ conf_prunenames c2) ->
  (forall x, x ∈ conf_prunepaths c1 <-> x ∈ conf_prunepaths c2) ->
  conf_prune_bind_mounts c1 = conf_prune_bind_mounts c2 ->
  conf_metadata_hash_kind c1 = conf_metadata_hash_kind c2 ->
  conf_history_depth c1 = conf_history_depth c2 ->
  snd (conf_finish c1) = snd (conf_finish c2) /\
  same_tree_settings (fst (conf_finish c1)) (fst (conf_finish c2)).
Proof.
  intros Hf Hn Hp Hb Hk Hd. unfold conf_finish, same_tree_settings, gen_conf_block.
  cbn -[var_finish gen_conf_block_string_list string_list_dir_path_sort to_string CONST]. unfold var_finish.
  rewrite (unique_sort_bytes_canonical _ _ Hf), (unique_sort_bytes_canonical _ _ Hn),
    (unique_sort_bytes_canonical _ _ Hp). by rewrite Hb, Hk, Hd.
Qed.

Lemma conf_finish_canonical_witness :
  snd (conf_finish (set_prunefs [bytes_of_string "nfs"; bytes_of_string "proc"] initial_config)) =
  snd (conf_finish (set_prunefs [bytes_of_string "PROC"; bytes_of_string "NFS"; bytes_of_string "nfs"] initial_config)).
Proof.
  apply (conf_finish_canonical
    (set_prunefs [bytes_of_string "nfs"; bytes_of_string "proc"] initial_config)
    (set_prunefs [bytes_of_string "PROC"; bytes_of_string "NFS"; bytes_of_string "nfs"] initial_config));
    try done.
  intros x. change (map (map toupper) (conf_prunefs (set_prunefs ?l initial_config))) with
    (map (map toupper) l). cbn [map]. rewrite !elem_of_cons. change (map toupper (bytes_of_string "PROC"))
    with (map toupper (bytes_of_string "proc")). change (map toupper (bytes_of_string "NFS"))
    with (map toupper (bytes_of_string "nfs")). tauto.
Defined.

(** The suffixes of a size, with the power of two they stand for. *)
Definition suffixes : list (bytes * Z) :=
  [([], 0); ([75], 10); ([107], 10); ([77], 20); ([109], 20); ([71], 30); ([103], 30); ([84], 40); ([116], 40)].

(** C40. A decimal size with a suffix means that many bytes, and is refused when it
    does not fit in 64 bits. *)
Theorem parse_size_exact v suffix shift : 0 <= v < 10 ^ 20 -> (suffix, shift) ∈ suffixes ->
  parse_size (to_string v ++ suffix) = if v * 2 ^ shift <? 2 ^ 64 then Some (v * 2 ^ shift) else None.
Proof.
  intros Hv Hs. assert (Hsuf : (match suffix with [] => true | c :: _ => negb (isdigit c) end) = true /\
    size_suffix suffix = Some (shift, []) /\ (shift = 0 \/ 10 <= shift <= 40)).
  { unfold suffixes in Hs. repeat (apply elem_of_cons in Hs as [Hs|Hs];
      [injection Hs as -> ->; split; [reflexivity|split; [reflexivity|lia]]|]). by apply not_elem_of_nil in Hs. }
  destruct Hsuf as (Hnd & Hsuf & Hsh). pose proof (strtoull_to_string v suffix Hv Hnd) as Hst.
  pose proof (to_string_digits v Hv) as Fd.
  assert (Hne : exists d ds, to_string v = d :: ds /\ isdigit d = true).
  { destruct (to_string v) as [|d ds] eqn:E.
    - pose proof (scan_to_string v [] Hv eq_refl) as H0. by rewrite E in H0.
    - exists d, ds. split; [done|]. by apply Forall_inv in Fd. }
  destruct Hne as (d & ds & E & Hd). assert (Hr : 48 <= d <= 57) by by apply between_spec.
  unfold parse_size. rewrite Hst. rewrite E. cbn [app].
  replace (d =? 45) with false by (symmetry; apply Z.eqb_neq; lia).
  assert (Hlen : suffix <> d :: ds ++ suffix).
  { intros H. apply (f_equal length) in H. cbn in H. rewrite length_app in H. lia. }
  clear E Hst Fd Hd Hr Hnd Hs. pose proof (Z.pow_pos_nonneg 2 shift ltac:(lia) ltac:(lia)) as Hpow.
  destruct (Z.ltb_spec v (2 ^ 64)) as [Hlt|Hge].
  - rewrite decide_False by done. rewrite Hsuf. rewrite Z.shiftr_div_pow2, Z.shiftl_mul_pow2 by lia.
    destruct Hsh as [->|Hsh].
    + cbn [Z.eqb negb andb]. rewrite Z.pow_0_r, Z.mul_1_r in *.
      replace (v <? 2 ^ 64) with true by (symmetry; by apply Z.ltb_lt). f_equal. apply u64_small. split; [lia|done].
    + replace (negb (shift =? 0)) with true by (symmetry; apply negb_true_iff, Z.eqb_neq; lia). cbn [andb].
      replace ((2 ^ 64 - 1) / 2 ^ shift) with (2 ^ (64 - shift) - 1).
      2: { apply Z.div_unique with (2 ^ shift - 1); [lia|].
           replace (2 ^ 64) with (2 ^ shift * 2 ^ (64 - shift)); [ring|].
           rewrite <- Z.pow_add_r by lia. f_equal. lia. }
      assert (E : 2 ^ 64 = 2 ^ shift * 2 ^ (64 - shift)).
      { rewrite <- Z.pow_add_r by lia. f_equal. lia. }
      destruct (Z.ltb_spec (2 ^ (64 - shift) - 1) v) as [H1|H1].
      * replace (v * 2 ^ shift <? 2 ^ 64) with false; [done|]. symmetry. apply Z.ltb_ge. rewrite E. nia.
      * assert (v * 2 ^ shift < 2 ^ 64) by (rewrite E; nia).
        replace (v * 2 ^ shift <? 2 ^ 64) with true by (symmetry; by apply Z.ltb_lt). f_equal.
        apply u64_small. split; [nia|done].
  - replace (v * 2 ^ shift <? 2 ^ 64) with false; [done|]. symmetry. apply Z.ltb_ge. nia.
Qed.

Lemma parse_size_exact_witness :
  parse_size (bytes_of_string "10m") = Some 10485760 /\ parse_size (bytes_of_string "16777216T") = None.
Proof.
  split; [apply (parse_size_exact 10 [109] 20)|apply (parse_size_exact 16777216 [84] 40)];
    (split; done) || (apply (bool_decide_unpack _); vm_compute; exact I).
Defined.

(** An empty path given with [--add-single-prunepath] ends the list of the
    block early: flocate-showdiff reads the path after it as a key. *)
Example empty_path_in_block :
  gen_conf_block_string_list [[]; bytes_of_string "/a"] =
  gen_conf_block_string_list [] ++ bytes_of_string "/a" ++ [0; 0].
Proof. reflexivity. Qed.

(** Only the first character is checked for a sign, so white space before it
    lets a negative size through, wrapped around. *)
Example negative_size_accepted : parse_size (bytes_of_string " -1") = Some (2 ^ 64 - 1).
Proof. reflexivity. Qed.
