(* ===== verification/RecordReader.v ===== *)
(** * What the scan of updatedb needs of the old database

    The interface between [ExistingDB] and [scan] in src/updatedb.cpp: the
    operations, and the law that they deliver one sequence of records, with room
    for a single record to be put back. *)
From S2P Require Import Prelude Metadata.

Class RecordReader (R : Type) := {
  read_next : R -> (bytes * dir_time) * R;
  unread : bytes * dir_time -> R -> R;
  last_metadata : R -> FileMetadata;
  get_error : R -> bool
}.

(** [stream r l err]: the reader has the records [l] left, and then the end of
    the database or, with [err], an error. *)
Class RecordStream (R : Type) `{!RecordReader R} (stream : R -> list FileRecord -> bool -> Prop) := {
  read_record : forall r x l err, stream r (x :: l) err ->
    exists r', read_next r = ((fr_path x, fr_dir_timestamp x), r') /\ stream r' l err /\
      last_metadata r' = fr_metadata x /\
      stream (unread (fr_path x, fr_dir_timestamp x) r') (x :: l) err;
  read_end : forall r err, stream r [] err ->
    exists r', read_next r = (([], not_a_dir), r') /\ stream r' [] err /\ get_error r' = err;
  read_path : forall r x l err, stream r (x :: l) err -> fr_path x <> [];
  no_error_yet : forall r x l err, stream r (x :: l) err -> get_error r = false
}.

(** The records in a list, as a reader that meets no error. *)
#[global] Instance list_reader : RecordReader (list FileRecord * FileMetadata) := {|
  read_next '(l, m) :=
    match l with
    | [] => (([], not_a_dir), (l, m))
    | x :: l => ((fr_path x, fr_dir_timestamp x), (l, fr_metadata x))
    end;
  unread '(path, dt) '(l, m) := (Record_ path dt m :: l, m);
  last_metadata := snd;
  get_error _ := false
|}.

Definition list_stream (r : list FileRecord * FileMetadata) (l : list FileRecord) (err : bool) : Prop :=
  fst r = l /\ Forall (fun x => fr_path x <> []) l /\ err = false.

#[global] Instance list_reader_stream : RecordStream (list FileRecord * FileMetadata) list_stream.
Proof.
  split.
  - intros [l' m] x l err (E & F & ->). cbn in E. subst l'. inversion F; subst. eexists. split; [done|].
    repeat split; try done. by destruct x.
  - intros [l' m] err (E & F & ->). cbn in E. subst l'. by eexists.
  - intros r x l err (E & F & ->). by inversion F.
  - done.
Qed.

(** What reading and putting back preserve can be added to what a stream says. *)
Lemma stream_with {R} `{!RecordReader R} stream `{!RecordStream R stream} (P : R -> Prop) :
  (forall r, P r -> P (snd (read_next r))) -> (forall r x, P r -> P (unread x r)) ->
  RecordStream R (fun r l err => stream r l err /\ P r).
Proof.
  intros Hread Hunread. split.
  - intros r x l err [Hs HP]. destruct (read_record r x l err Hs) as (r' & E & Hs' & Hl & Hu).
    exists r'. pose proof (Hread r HP) as HP'. rewrite E in HP'. split; [done|]. split; [done|]. split; [done|]. split; [done|].
    by apply Hunread.
  - intros r err [Hs HP]. destruct (read_end r err Hs) as (r' & E & Hs' & He). exists r'.
    pose proof (Hread r HP) as HP'. by rewrite E in HP'.
  - intros r x l err [Hs _]. by eapply read_path.
  - intros r x l err [Hs _]. by eapply no_error_yet.
Qed.
