(* ===== verification/Scan.v ===== *)
(** * updatedb: scanning directories against the old database (src/updatedb.cpp)

    [scan] walks the file system, takes the contents of a directory whose
    timestamp has not changed from the old database instead of reading the
    directory, and records what it finds and what has changed.  The file system,
    the clocks, and the components it asks (bind mounts, hashing) are
    parameters; the old database is any [RecordReader]. *)
From S2P Require Import Prelude Text Metadata FileStat DirPath Conf RecordReader History.

(** ** The world around the scan *)

(** The system calls, on path names: the file system is the same during the
    whole run.  [os_openat] gives [errno], or [None] for a file descriptor; the
    clocks are read by the number of the reading. *)
Record OS := MK_OS {
  os_openat : bytes -> bool -> option Z;
  os_readdir : bytes -> option (list (bytes * Z));
  os_fstatat : bytes -> bytes -> option Stat;
  os_fstat : bytes -> option Stat;
  os_mounts : option (list (bytes * bytes));
  os_gettimeofday : nat -> Z * Z;
  os_clock_gettime : nat -> dir_time
}.

Definition EPERM : Z := 1.
Definition ENFILE : Z := 23.
Definition EMFILE : Z := 24.
Definition DT_UNKNOWN : Z := 0.
Definition DT_DIR : Z := 4.

(** What a scan changes besides the old database: the clock readings so far, the
    statics of [time_is_current] and [opendir_noatime], the records handed to
    [add_file] of the corpus and of the dictionary builder, and the history ([None]
    for the null pointer). *)
Record World := WORLD {
  ticks : nat;
  time_cache : dir_time;
  noatime_failed : bool;
  added : list FileRecord;
  history_events : option (list HistoryEvent)
}.

Inductive Outcome (A : Type) :=
| Done (a : A)
| Exit1
| OutOfFuel.
Arguments Done {A} a.
Arguments Exit1 {A}.
Arguments OutOfFuel {A}.

Definition bind_outcome {A B} (o : Outcome A) (f : A -> Outcome B) : Outcome B :=
  match o with Done a => f a | Exit1 => Exit1 | OutOfFuel => OutOfFuel end.

Record entry := ENTRY {
  e_name : bytes;
  e_is_directory : bool;
  e_fd : bool;
  e_dt : dir_time;
  e_db_modified : dir_time;
  e_dev : Z;
  e_metadata : FileMetadata;
  e_previous_metadata : FileMetadata;
  e_existed_before : bool;
  e_matched_in_new_scan : bool;
  e_hash_allowed : bool
}.

Definition new_entry (name : bytes) (is_directory : bool) : entry :=
  ENTRY name is_directory false unknown_dir_time unknown_dir_time 0 empty_metadata empty_metadata false false true.

Section Updatedb.
Context (os : OS) (conf : Config).
(** src/bind-mount.cpp and src/metadata_hash.cpp. *)
Context (is_bind_mount : bytes -> bool) (fs_allows_hashing : bytes -> bool)
  (compute_file_hash_at : bytes -> bytes -> MetadataHashKind -> option MetadataHash).

(** ** Clocks, directories and metadata *)

Definition opendir_noatime (path : bytes) (w : World) : option Z * World :=
  if negb (noatime_failed w) then
    match os_openat os path true with
    | None => (None, w)
    | Some errno =>
      if errno =? EPERM then
        (os_openat os path false, WORLD (ticks w) (time_cache w) true (added w) (history_events w))
      else (Some errno, w)
    end
  else (os_openat os path false, w).

Definition filesystem_is_excluded (path : bytes) : bool :=
  match os_mounts os with
  | None => false
  | Some mounts =>
    match find (fun me => bool_decide (path = fst me)) mounts with
    | None => false
    | Some me => bool_decide (map toupper (snd me) ∈ conf_prunefs conf)
    end
  end.

(** The static cache of [time_is_current] is part of the world; a reading of the
    clock that is not made is not counted. *)
Definition check_time (t : dir_time) (w : World) : bool * World :=
  let '(r, cache) := time_is_current (os_gettimeofday os (ticks w)) t (time_cache w) in
  (r, WORLD (if dir_time_lt t (time_cache w) then ticks w else S (ticks w)) cache (noatime_failed w) (added w)
        (history_events w)).

Definition stat_time (t : dir_time) : dir_time := DirTime (dt_sec t) (i32 (dt_nsec t)).

Definition max_time (a b : dir_time) : dir_time := if dir_time_lt a b then b else a.

Definition get_dirtime_from_stat (buf : Stat) (w : World) : dir_time * World :=
  let ctime := stat_time (st_ctim buf) in
  let mtime := stat_time (st_mtim buf) in
  let dt := max_time ctime mtime in
  let '(current, w) := check_time dt w in
  (if current then unknown_dir_time else dt, w).

Definition metadata_from_stat (buf : Stat) : FileMetadata :=
  Metadata true (u32 (st_mode buf)) (u32 (st_uid buf)) (u32 (st_gid buf)) (u64 (st_size buf))
    (stat_time (st_mtim buf)) (stat_time (st_ctim buf)) (stat_time (st_atim buf)) empty_hash.

Definition record_history_event (kind : HistoryEventKind) (path : bytes) (old_meta new_meta : FileMetadata)
    (w : World) : World :=
  match history_events w with
  | None => w
  | Some events =>
    WORLD (S (ticks w)) (time_cache w) (noatime_failed w) (added w)
      (Some (events ++ [Event kind path (stat_time (os_clock_gettime os (ticks w))) old_meta new_meta]))
  end.

(** ** Reading the old database *)

Definition path_plus_slash (path : bytes) : bytes :=
  if decide (last path = Some slash) then path else path ++ [slash].

(** The part of a path after a prefix, [None] if it does not start with it. *)
Fixpoint strip_prefix (prefix s : bytes) : option bytes :=
  match prefix, s with
  | [], _ => Some s
  | x :: prefix, y :: s => if x =? y then strip_prefix prefix s else None
  | _ :: _, [] => None
  end.

Section Reader.
Context {R : Type} `{!RecordReader R}.

Fixpoint skip_before (fuel : nat) (path : bytes) (existing_db : R) : option R :=
  match fuel with
  | O => None
  | S fuel =>
    let '((name, dt), existing_db) := read_next existing_db in
    match name with
    | [] => Some existing_db
    | _ => if dir_path_cmp path name <=? 0 then Some (unread (name, dt) existing_db)
           else skip_before fuel path existing_db
    end
  end.

Fixpoint read_group (fuel : nat) (plus_slash : bytes) (existing_db : R) : option (list entry * R) :=
  match fuel with
  | O => None
  | S fuel =>
    let '((name, dt), existing_db) := read_next existing_db in
    match name with
    | [] => Some ([], existing_db)
    | _ =>
      match strip_prefix plus_slash name with
      | None => Some ([], unread (name, dt) existing_db)
      | Some rest =>
        if decide (slash ∈ rest) then Some ([], unread (name, dt) existing_db)
        else
          let e := ENTRY rest (0 <=? dt_sec dt) false unknown_dir_time dt 0 empty_metadata
                     (last_metadata existing_db) true false true in
          '(db_entries, existing_db) ← read_group fuel plus_slash existing_db;
          Some (e :: db_entries, existing_db)
      end
    end
  end.

End Reader.

(** ** Reading the directory *)

Definition dirent_entry (path : bytes) (de : bytes * Z) : list entry :=
  let '(d_name, d_type) := de in
  if decide (d_name = bytes_of_string "." \/ d_name = bytes_of_string ".." \/ d_name = []) then []
  else
    let is_directory :=
      if d_type =? DT_UNKNOWN then
        match os_fstatat os path d_name with Some buf => S_ISDIR (st_mode buf) | None => false end
      else d_type =? DT_DIR in
    [new_entry d_name is_directory].

Definition name_le (a b : entry) : Prop := not_above bytes_lt (e_name a) (e_name b).

#[global] Instance name_le_dec a b : Decision (name_le a b).
Proof. unfold name_le. apply _. Defined.

(** [fdopendir], the [readdir] loop and the sort; [None] if [fdopendir] fails. *)
Definition list_directory (path : bytes) : option (list entry) :=
  dirents ← os_readdir os path;
  Some (merge_sort name_le (concat (map (dirent_entry path) dirents))).

(** What an entry takes over from its record in the old database. *)
Definition take_previous (e db : entry) : entry :=
  ENTRY (e_name e) (e_is_directory e) (e_fd e) (e_dt e) (e_db_modified db) (e_dev e) (e_metadata e)
    (e_previous_metadata db) true (e_matched_in_new_scan e) (e_hash_allowed e).

Definition mark_matched (e : entry) : entry :=
  ENTRY (e_name e) (e_is_directory e) (e_fd e) (e_dt e) (e_db_modified e) (e_dev e) (e_metadata e)
    (e_previous_metadata e) (e_existed_before e) true (e_hash_allowed e).

(** The inner loop: the entry, the records passed, and those from [db_it] on. *)
Fixpoint find_previous (e : entry) (db : list entry) : entry * list entry * list entry :=
  match db with
  | [] => (e, [], [])
  | d :: db' =>
    if bytes_lt (e_name e) (e_name d) then (e, [], db)
    else if decide (e_name e = e_name d) then (take_previous e d, [], mark_matched d :: db')
    else let '(e, passed, db') := find_previous e db' in (e, d :: passed, db')
  end.

(** The loop over the entries; gives the old records with their marks, too. *)
Fixpoint load_previous (entries db : list entry) : list entry * list entry :=
  match entries with
  | [] => ([], db)
  | e :: entries =>
    let '(e, passed, db) := find_previous e db in
    let '(entries, db) := load_previous entries db in
    (e :: entries, passed ++ db)
  end.

(** ** Metadata of the entries *)

Definition file_hash (path : bytes) (hash_allowed : bool) (sb : Stat) (e : entry) (meta : FileMetadata)
    : FileMetadata :=
  if negb (bool_decide (conf_metadata_hash_kind conf = HkNone)) && S_ISREG (st_mode sb) then
    let prev := e_previous_metadata e in
    let reuse_previous_hash :=
      negb (conf_rehash_all conf) && md_enabled prev &&
      bool_decide (h_kind (md_hash prev) = conf_metadata_hash_kind conf) && negb (h_length (md_hash prev) =? 0)%nat &&
      (md_size prev =? md_size meta) &&
      dir_time_equals (md_mtime prev) (md_mtime meta) && dir_time_equals (md_ctime prev) (md_ctime meta) in
    let too_large :=
      negb (conf_hash_max_size conf =? 0) && (conf_hash_max_size conf <? u64 (st_size sb)) in
    let with_hash h := Metadata (md_enabled meta) (md_mode meta) (md_uid meta) (md_gid meta) (md_size meta)
                         (md_mtime meta) (md_ctime meta) (md_atime meta) h in
    if reuse_previous_hash then with_hash (md_hash prev)
    else if hash_allowed && negb too_large then
      match compute_file_hash_at path (e_name e) (conf_metadata_hash_kind conf) with
      | Some h => with_hash h
      | None => with_hash empty_hash
      end
    else meta
  else meta.

Definition stat_entry (path : bytes) (hash_allowed : bool) (e : entry) (w : World) : entry * World :=
  match os_fstatat os path (e_name e) with
  | None => (e, w)
  | Some sb =>
    let '(dt, w) := if S_ISDIR (st_mode sb) then get_dirtime_from_stat sb w else (not_a_dir, w) in
    let metadata := file_hash path hash_allowed sb e (metadata_from_stat sb) in
    let full_path := path_plus_slash path ++ e_name e in
    let w :=
      if negb (e_existed_before e) then record_history_event EkAdded full_path empty_metadata metadata w
      else if negb (metadata_equals metadata (e_previous_metadata e) (conf_compare_atime conf)) then
        record_history_event EkModified full_path (e_previous_metadata e) metadata w
      else w in
    (ENTRY (e_name e) (e_is_directory e) (e_fd e) dt (e_db_modified e) (e_dev e) metadata
       (e_previous_metadata e) (e_existed_before e) (e_matched_in_new_scan e) (e_hash_allowed e), w)
  end.

Fixpoint stat_entries (path : bytes) (hash_allowed : bool) (entries : list entry) (w : World)
    : list entry * World :=
  match entries with
  | [] => ([], w)
  | e :: entries =>
    let '(e, w) := stat_entry path hash_allowed e w in
    let '(entries, w) := stat_entries path hash_allowed entries w in
    (e :: entries, w)
  end.

(** ** Opening the subdirectories *)

Definition open_entry (path : bytes) (parent_dev : Z) (hash_allowed : bool) (e : entry) (w : World)
    : Outcome (entry * World) :=
  let set fd dt dev allowed :=
    ENTRY (e_name e) (e_is_directory e) fd dt (e_db_modified e) dev (e_metadata e)
      (e_previous_metadata e) (e_existed_before e) (e_matched_in_new_scan e) allowed in
  let full_path := path_plus_slash path ++ e_name e in
  if negb (e_is_directory e) then Done (set (e_fd e) not_a_dir (e_dev e) (e_hash_allowed e), w)
  else if decide (e_name e ∈ conf_prunenames conf) then Done (e, w)
  else
    let '(errno, w) := opendir_noatime full_path w in
    match errno with
    | Some errno => if (errno =? EMFILE) || (errno =? ENFILE) then Exit1 else Done (e, w)
    | None =>
      match os_fstat os full_path with
      | None => if filesystem_is_excluded full_path then Done (e, w) else Exit1
      | Some buf =>
        let other_fs := negb (st_dev buf =? parent_dev) in
        if other_fs && filesystem_is_excluded full_path then
          Done (set false (e_dt e) (st_dev buf) hash_allowed, w)
        else
          let allowed :=
            if other_fs && hash_allowed && negb (bool_decide (conf_metadata_hash_kind conf = HkNone))
            then fs_allows_hashing full_path else hash_allowed in
          let '(dt, w) := get_dirtime_from_stat buf w in
          Done (set true dt (st_dev buf) allowed, w)
      end
    end.

Fixpoint open_entries (path : bytes) (parent_dev : Z) (hash_allowed : bool) (entries : list entry) (w : World)
    : Outcome (list entry * World) :=
  match entries with
  | [] => Done ([], w)
  | e :: entries =>
    bind_outcome (open_entry path parent_dev hash_allowed e w) (fun '(e, w) =>
    bind_outcome (open_entries path parent_dev hash_allowed entries w) (fun '(entries, w) =>
    Done (e :: entries, w)))
  end.

(** ** What a directory contributes *)

Definition record_removed (path : bytes) (w : World) (old_entry : entry) : World :=
  if e_matched_in_new_scan old_entry then w
  else record_history_event EkRemoved (path_plus_slash path ++ e_name old_entry) (e_previous_metadata old_entry)
         empty_metadata w.

Definition entry_record (path : bytes) (e : entry) : FileRecord :=
  Record_ (path_plus_slash path ++ e_name e) (e_dt e) (e_metadata e).

Definition add_file (path : bytes) (w : World) (e : entry) : World :=
  WORLD (ticks w) (time_cache w) (noatime_failed w) (added w ++ [entry_record path e]) (history_events w).

(** From the metadata of the entries to the calls of [add_file]. *)
Definition process_entries (path : bytes) (parent_dev : Z) (hash_allowed : bool) (entries db_entries : list entry)
    (w : World) : Outcome (list entry * World) :=
  let '(entries, w) := stat_entries path hash_allowed entries w in
  bind_outcome (open_entries path parent_dev hash_allowed entries w) (fun '(entries, w) =>
  let w := fold_left (record_removed path) db_entries w in
  let w := fold_left (add_file path) entries w in
  Done (entries, w)).

(** ** The scan *)

(** The last loop, given what to do with one opened subdirectory. *)
Fixpoint subdirectories {S : Type} (scan_one : entry -> S -> Outcome S) (entries : list entry) (st : S) : Outcome S :=
  match entries with
  | [] => Done st
  | e :: entries =>
    if e_is_directory e && e_fd e then bind_outcome (scan_one e st) (subdirectories scan_one entries)
    else subdirectories scan_one entries st
  end.

Section Scan.
Context {R : Type} `{!RecordReader R}.

Record State := STATE {
  existing_db : R;
  conf_prunepaths_index : nat;
  world : World
}.

(** The contents of a directory: the entries, and the old records for which
    a removal may have to be recorded ([db_entries] is empty after the move).
    [None] if [fdopendir] fails. *)
Definition directory_entries (path : bytes) (modified db_modified : dir_time) (db_entries : list entry) (db : R)
    : option (list entry * list entry) :=
  if negb (get_error db) && (0 <? dt_sec db_modified) && (dt_sec modified =? dt_sec db_modified) &&
     (dt_nsec modified =? dt_nsec db_modified) then
    Some (db_entries, [])
  else
    entries ← list_directory path;
    Some (load_previous entries db_entries).

(** [reads] bounds the records read for one directory, [fuel] the depth. *)
Fixpoint scan (reads fuel : nat) (path : bytes) (parent_dev : Z) (modified db_modified : dir_time)
    (hash_allowed : bool) (st : State) : Outcome State :=
  match fuel with
  | O => OutOfFuel
  | S fuel =>
    let '(pruned, idx) := string_list_contains_dir_path (conf_prunepaths conf) (conf_prunepaths_index st) path in
    let st := STATE (existing_db st) idx (world st) in
    if pruned then Done st
    else if conf_prune_bind_mounts conf && is_bind_mount path then Done st
    else
      match
        db ← skip_before reads path (existing_db st);
        read_group reads (path_plus_slash path) db
      with
      | None => OutOfFuel
      | Some (db_entries, db) =>
        let st := STATE db idx (world st) in
        match directory_entries path modified db_modified db_entries db with
        | None => Done st
        | Some (entries, db_entries) =>
          bind_outcome (process_entries path parent_dev hash_allowed entries db_entries (world st))
            (fun '(entries, w) =>
          subdirectories (fun e st =>
              scan reads fuel (path_plus_slash path ++ e_name e) (e_dev e) (e_dt e) (e_db_modified e)
                (e_hash_allowed e) st) entries (STATE db idx w))
        end
      end
  end.

End Scan.

End Updatedb.
