(* ===== verification/ScanOrder.v ===== *)
(** * The order in which updatedb meets directories (src/updatedb.cpp)

    Facts about [dir_path_cmp] and the path of an entry of a directory that make
    one forward pass over the old database enough: a directory comes before what
    is below it, all that is below it stays together, and siblings come in the
    order of their names. *)
From S2P Require Import Prelude Text Metadata DirPath Conf Scan.

(** ** Directories and names *)

Record dir_ok (d : bytes) : Prop := {
  dir_bytes : path d;
  dir_nonempty : d <> [];
  dir_slash : last d = Some slash -> d = [slash]
}.

Record name_ok (n : bytes) : Prop := {
  name_bytes : path n;
  name_nonempty : n <> [];
  name_slash : slash ∉ n
}.

Definition child (d n : bytes) : bytes := path_plus_slash d ++ n.

(** [d] lies below the directory [g], at any depth. *)
Definition below (g d : bytes) : Prop := exists s, s <> [] /\ d = path_plus_slash g ++ s.

Definition before (a b : bytes) : Prop := dir_path_cmp a b < 0.

#[global] Instance before_dec a b : Decision (before a b).
Proof. unfold before. apply _. Defined.

(** [g] comes after [d] and all that is below it. *)
Definition past (d g : bytes) : Prop := before d g /\ ~ below d g.

(** ** Comparing by rank *)

Lemma lex_app_l p a b : lex (p ++ a) (p ++ b) = lex a b.
Proof. induction p as [|x p IH]; [done|]. cbn. by rewrite Z.compare_refl. Qed.

Lemma lex_prefix p a : a <> [] -> lex p (p ++ a) = Lt.
Proof. intros Ha. rewrite <- (app_nil_r p) at 1. rewrite lex_app_l. by destruct a. Qed.

Lemma lex_lt_cases a b : path a -> path b -> lex a b = Lt ->
  (exists y, y <> [] /\ b = a ++ y) \/
  exists c x a' y b', a = c ++ x :: a' /\ b = c ++ y :: b' /\ (rank x ?= rank y) = Lt.
Proof.
  intros Ha. revert b. induction Ha as [|x a Hx Ha IH]; intros b Hb H.
  - left. exists b. by destruct b.
  - destruct Hb as [|y b Hy Hb]; [done|]. cbn in H. destruct (rank x ?= rank y) eqn:E; [|by right; exists [], x, a, y, b|done].
    apply Z.compare_eq in E. apply rank_inj in E; [|done|done]. subst y.
    destruct (IH b Hb H) as [(y & Hy' & ->)|(c & x' & a' & y' & b' & -> & -> & Hr)].
    + left. by exists y.
    + right. by exists (x :: c), x', a', y', b'.
Qed.

Lemma before_lex a b : path a -> path b -> before a b <-> lex a b = Lt.
Proof. apply cmp_lt_lex. Qed.

Lemma path_app a b : path (a ++ b) <-> path a /\ path b.
Proof. apply Forall_app. Qed.

Lemma path_slash : path [slash].
Proof. by apply Forall_singleton. Qed.

Lemma path_plus_slash_path d : path d -> path (path_plus_slash d).
Proof. intros H. unfold path_plus_slash. case_decide; [done|]. apply path_app. split; [done|apply path_slash]. Qed.

Lemma path_plus_slash_prefix d : exists t, path_plus_slash d = d ++ t.
Proof. unfold path_plus_slash. case_decide; [exists []; by rewrite app_nil_r|by exists [slash]]. Qed.

Lemma path_plus_slash_last d : last (path_plus_slash d) = Some slash.
Proof. unfold path_plus_slash. case_decide; [done|]. apply last_snoc. Qed.

Lemma path_plus_slash_end d : exists a, path_plus_slash d = a ++ [slash].
Proof. apply last_Some. apply path_plus_slash_last. Qed.

Lemma path_plus_slash_inj d g : dir_ok d -> dir_ok g -> path_plus_slash d = path_plus_slash g -> d = g.
Proof.
  intros Hd Hg. unfold path_plus_slash. repeat case_decide; intros E.
  - by rewrite (dir_slash _ Hd), (dir_slash _ Hg).
  - rewrite (dir_slash _ Hd) in E by done. destruct g as [|x g]; [by destruct (dir_nonempty _ Hg)|].
    destruct g; discriminate.
  - rewrite (dir_slash _ Hg) in E by done. destruct d as [|x d]; [by destruct (dir_nonempty _ Hd)|].
    destruct d; discriminate.
  - by apply app_inj_tail in E as [-> _].
Qed.

(** ** Children *)

Lemma last_app_ne {A} (l k : list A) : k <> [] -> last (l ++ k) = last k.
Proof. intros Hk. destruct k as [|x k] using rev_ind; [done|]. by rewrite app_assoc, !last_snoc. Qed.

Lemma child_last d n : name_ok n -> last (child d n) <> Some slash.
Proof.
  intros [_ Hn Hs]. unfold child. rewrite last_app_ne by done. intros E.
  apply Hs. apply last_Some in E as [l ->]. rewrite elem_of_app, list_elem_of_singleton. by right.
Qed.

Lemma child_ok d n : dir_ok d -> name_ok n -> dir_ok (child d n).
Proof.
  intros Hd Hn. split.
  - apply path_app. split; [apply path_plus_slash_path, Hd|apply Hn].
  - intros E. apply app_eq_nil in E as [_ E]. by apply Hn.
  - intros E. by destruct (child_last d n Hn).
Qed.

Lemma child_plus_slash d n : name_ok n -> path_plus_slash (child d n) = child d n ++ [slash].
Proof. intros Hn. unfold path_plus_slash at 1. case_decide; [|done]. by destruct (child_last d n Hn). Qed.

(** The last slash of a path determines its directory. *)
Lemma split_unique a b n m : slash ∉ n -> slash ∉ m -> last a = Some slash -> last b = Some slash ->
  a ++ n = b ++ m -> a = b /\ n = m.
Proof.
  intros Hn Hm Ha Hb E. apply app_eq_inv in E as [(k & -> & ->)|(k & -> & ->)].
  - destruct k as [|x k] using rev_ind; [by rewrite app_nil_r|]. rewrite app_assoc, last_snoc in Ha. injection Ha as ->.
    destruct Hm. rewrite !elem_of_app, list_elem_of_singleton. tauto.
  - destruct k as [|x k] using rev_ind; [by rewrite app_nil_r|]. rewrite app_assoc, last_snoc in Hb. injection Hb as ->.
    destruct Hn. rewrite !elem_of_app, list_elem_of_singleton. tauto.
Qed.

Lemma child_inj d g n m : dir_ok d -> dir_ok g -> slash ∉ n -> slash ∉ m -> child d n = child g m -> d = g /\ n = m.
Proof.
  intros Hd Hg Hn Hm E. apply split_unique in E as [E ->]; auto using path_plus_slash_last.
  split; [|done]. by apply path_plus_slash_inj.
Qed.

(** ** The order *)

Lemma below_ok_before g d : path d -> path g -> below g d -> before g d.
Proof.
  intros Hd Hg (s & Hs & ->). apply before_lex; [done|done|].
  destruct (path_plus_slash_prefix g) as [t ->]. rewrite <- app_assoc. apply lex_prefix.
  intros E. by apply app_eq_nil in E as [_ ->].
Qed.

Lemma below_child d n : name_ok n -> below d (child d n).
Proof. intros Hn. exists n. split; [apply Hn|done]. Qed.

Lemma child_after d n : dir_ok d -> name_ok n -> before d (child d n).
Proof.
  intros Hd Hn. apply below_ok_before; [apply child_ok; auto|apply Hd|by apply below_child].
Qed.

Lemma dir_before_trans a b c : path a -> path b -> path c -> before a b -> before b c -> before a c.
Proof. apply cmp_trans. Qed.

(** What comes after a directory but is not below it comes after all below it. *)
Lemma past_below d g s : dir_ok d -> dir_ok g -> path s -> past d g -> before (path_plus_slash d ++ s) g.
Proof.
  intros Hd Hg Hs [Hlt Hb]. assert (Hp : path (path_plus_slash d ++ s)).
  { apply path_app. split; [apply path_plus_slash_path, Hd|done]. }
  apply before_lex in Hlt; [|apply Hd|apply Hg]. apply before_lex; [done|apply Hg|].
  destruct (lex_lt_cases d g (dir_bytes _ Hd) (dir_bytes _ Hg) Hlt)
    as [(y & Hy & ->)|(c & x & a' & y & b' & -> & -> & Hr)].
  - unfold path_plus_slash in *. case_decide as E.
    { destruct Hb. exists y. split; [done|]. unfold path_plus_slash. by rewrite decide_True. }
    rewrite <- app_assoc, lex_app_l. destruct y as [|y0 y]; [done|]. destruct (decide (y0 = slash)) as [->|Hne].
    + destruct y as [|y1 y].
      * pose proof (dir_slash _ Hg (last_snoc _ _)) as Eg. destruct d as [|z d]; [by destruct (dir_nonempty _ Hd)|].
        destruct d; discriminate.
      * destruct Hb. exists (y1 :: y). split; [done|]. unfold path_plus_slash. rewrite decide_False by done.
        by rewrite <- app_assoc.
    + pose proof (dir_bytes _ Hg) as Hgb. apply path_app in Hgb as [_ Hgb]. inversion Hgb as [|? ? Hy0 _]; subst.
      cbn [app lex]. unfold is_byte in Hy0.
      replace (rank slash ?= rank y0) with Lt; [done|]. symmetry. apply Z.compare_lt_iff. unfold rank.
      rewrite Z.eqb_refl, (proj2 (Z.eqb_neq y0 slash)) by done. lia.
  - destruct (path_plus_slash_prefix (c ++ x :: a')) as [t ->]. rewrite <- !app_assoc, lex_app_l. cbn. by rewrite Hr.
Qed.

Lemma past_below_before d g x : dir_ok d -> dir_ok g -> path x -> past d g -> below d x -> before x g.
Proof.
  intros Hd Hg Hx Hpast (s & Hs & ->). apply past_below; auto. by apply path_app in Hx as [_ ?].
Qed.

Lemma bytes_lt_lex n : forall m, path n -> path m -> slash ∉ n -> slash ∉ m ->
  bytes_lt n m = true -> lex n m = Lt.
Proof.
  induction n as [|x n IH]; intros [|y m] Hn Hm Sn Sm H; try done.
  inversion Hn; inversion Hm; subst. rewrite not_elem_of_cons in Sn, Sm. destruct Sn as [Sx Sn], Sm as [Sy Sm].
  cbn [lex]. unfold rank. rewrite (proj2 (Z.eqb_neq x slash)), (proj2 (Z.eqb_neq y slash)) by congruence.
  apply bytes_lt_spec in H as [H|[-> H]]; [by rewrite (proj2 (Z.compare_lt_iff x y))|].
  rewrite Z.compare_refl. by apply IH.
Qed.

(** A sibling with a later name comes after all that is below an earlier one. *)
Lemma sibling_past d n m : dir_ok d -> name_ok n -> name_ok m -> bytes_lt n m = true ->
  past (child d n) (child d m).
Proof.
  intros Hd Hn Hm Hlt. split.
  - apply before_lex; [apply child_ok; auto..|]. unfold child. rewrite lex_app_l.
    apply bytes_lt_lex; try apply Hn; try apply Hm. done.
  - intros (s & Hs & E). rewrite child_plus_slash in E by done. unfold child in E. rewrite <- !app_assoc in E.
    apply app_inv_head in E. apply (name_slash _ Hm). rewrite E, !elem_of_app, list_elem_of_singleton. tauto.
Qed.

(** The directories above an entry are its directory and those above that. *)
Lemma below_of_child g d n : dir_ok d -> dir_ok g -> name_ok n -> below g (child d n) -> g = d \/ below g d.
Proof.
  intros Hd Hg Hn (s & Hs & E). unfold child in E. apply app_eq_inv in E as [(k & Ek & ->)|(k & Ek & Ek2)].
  - destruct k as [|x k] using rev_ind.
    { left. rewrite app_nil_r in Ek. symmetry. by apply path_plus_slash_inj. }
    right. clear IHk. unfold path_plus_slash in Ek at 1. case_decide as Ed.
    + rewrite (dir_slash _ Hd) in Ek by done. destruct (path_plus_slash_end g) as [a Ea]. rewrite Ea in Ek.
      destruct a as [|? a]; [|by destruct a]. destruct k; discriminate.
    + rewrite app_assoc in Ek. apply app_inj_tail in Ek as [Ek _]. destruct k as [|y k].
      * rewrite app_nil_r in Ek. rewrite Ek in Ed. by rewrite path_plus_slash_last in Ed.
      * by exists (y :: k).
  - destruct k as [|x k] using rev_ind.
    { left. rewrite app_nil_r in Ek. by apply path_plus_slash_inj. }
    pose proof (path_plus_slash_last g) as El. rewrite Ek, app_assoc, last_snoc in El. injection El as ->.
    destruct (name_slash _ Hn). rewrite Ek2, !elem_of_app, list_elem_of_singleton. tauto.
Qed.

Lemma below_child_trans d n g : name_ok n -> below (child d n) g -> below d g.
Proof.
  intros Hn (s & Hs & ->). rewrite child_plus_slash by done. unfold child. exists (n ++ [slash] ++ s).
  split; [intros E; apply app_eq_nil in E as [E _]; by apply Hn|]. by rewrite <- !app_assoc.
Qed.

(** What is past a directory is past each of its entries. *)
Lemma past_child d n g : dir_ok d -> dir_ok g -> name_ok n -> past d g -> past (child d n) g.
Proof.
  intros Hd Hg Hn [Hlt Hb]. split.
  - apply past_below; [done|done|apply Hn|done].
  - intros H. by apply Hb, (below_child_trans d n).
Qed.
