(* ===== verification/ScanExact.v ===== *)
(** * The incremental scan does what a full scan would (src/updatedb.cpp)

    [full_scan] is the specification: every directory is read, and what the old
    database says of an entry is looked up by its path.  [scan] reads the old
    database once, forwards, and trusts it for directories whose timestamp is
    unchanged; it is proved to have the same outcome. *)
From S2P Require Import Prelude Text Metadata FileStat DirPath Conf RecordReader Scan ScanOrder.

(** ** Specification *)

Section Spec.
Context (os : OS) (conf : Config) (is_bind_mount fs_allows_hashing : bytes -> bool)
  (compute_file_hash_at : bytes -> bytes -> MetadataHashKind -> option MetadataHash).
Context (old : list FileRecord).

(** The entry that a record stands for, if its path is in the directory. *)
Definition old_entry (plus_slash : bytes) (r : FileRecord) : option entry :=
  rest ← strip_prefix plus_slash (fr_path r);
  if decide (slash ∈ rest) then None
  else Some (ENTRY rest (0 <=? dt_sec (fr_dir_timestamp r)) false unknown_dir_time (fr_dir_timestamp r) 0
               empty_metadata (fr_metadata r) true false true).

Definition old_entries (d : bytes) : list entry := omap (old_entry (path_plus_slash d)) old.

Definition with_previous (olds : list entry) (e : entry) : entry :=
  match find (fun o => bool_decide (e_name o = e_name e)) olds with
  | Some o => take_previous e o
  | None => e
  end.

Definition mark (names : list bytes) (o : entry) : entry :=
  if decide (e_name o ∈ names) then mark_matched o else o.

Fixpoint full_scan (fuel : nat) (d : bytes) (parent_dev : Z) (hash_allowed : bool) (w : World) : Outcome World :=
  match fuel with
  | O => OutOfFuel
  | S fuel =>
    if decide (d ∈ conf_prunepaths conf) then Done w
    else if conf_prune_bind_mounts conf && is_bind_mount d then Done w
    else
      match list_directory os d with
      | None => Done w
      | Some listed =>
        let olds := old_entries d in
        bind_outcome
          (process_entries os conf fs_allows_hashing compute_file_hash_at d parent_dev hash_allowed
             (map (with_previous olds) listed) (map (mark (map e_name listed)) olds) w)
          (fun '(entries, w) =>
             subdirectories (fun e w => full_scan fuel (child d (e_name e)) (e_dev e) (e_hash_allowed e) w) entries w)
      end
  end.

(** The directory tree below [d] has at most [fuel] levels. *)
Fixpoint fits (fuel : nat) (d : bytes) : Prop :=
  match fuel with
  | O => False
  | S fuel => forall listed e, list_directory os d = Some listed -> e ∈ listed -> e_is_directory e = true ->
                fits fuel (child d (e_name e))
  end.

(** What the code relies on of [readdir]. *)
Definition readdir_ok : Prop := forall d dirents, os_readdir os d = Some dirents ->
  NoDup (map fst dirents) /\ Forall (fun de => path (fst de) /\ slash ∉ fst de) dirents.

(** *** The old database *)

Definition group := (bytes * list FileRecord)%type.

(** The records of one directory, in the order of the names. *)
Record group_ok (g : group) : Prop := {
  group_dir : dir_ok (fst g);
  group_names : Forall (fun r => exists n, name_ok n /\ fr_path r = child (fst g) n) (snd g);
  group_sorted : StronglySorted (fun r s => bytes_lt (fr_path r) (fr_path s) = true) (snd g);
  group_nonempty : snd g <> []
}.

Definition records (gs : list group) : list FileRecord := concat (map snd gs).

Record groups_ok (gs : list group) : Prop := {
  groups_all : Forall group_ok gs;
  groups_sorted : StronglySorted (fun g h => before (fst g) (fst h)) gs
}.

(** Directory after directory, each with all its entries. *)
Definition grouped : Prop := exists gs, old = records gs /\ groups_ok gs.

(** The old database has been read to the end of directory [d]. *)
Definition complete (err : bool) (d : bytes) : Prop :=
  err = false \/ exists r e n, r ∈ old /\ dir_ok e /\ name_ok n /\ fr_path r = child e n /\ before d e.

Definition stat_dirtime (buf : Stat) : dir_time := max_time (stat_time (st_ctim buf)) (stat_time (st_mtim buf)).

Definition key (e : entry) : bytes * bool := (e_name e, e_is_directory e).

(** What makes it sound to trust the old database: a directory that still has the
    timestamp of its record has the names and types of its records. *)
Definition timestamps_ok (err : bool) : Prop := forall r buf,
  r ∈ old -> os_fstat os (fr_path r) = Some buf -> 0 < dt_sec (fr_dir_timestamp r) ->
  fr_dir_timestamp r = stat_dirtime buf -> complete err (fr_path r) ->
  exists listed, list_directory os (fr_path r) = Some listed /\ map key listed = map key (old_entries (fr_path r)).

End Spec.

(** ** The old entries, by name *)

Definition sorted_names (es : list entry) : Prop := StronglySorted (fun a b => bytes_lt a b = true) (map e_name es).

Lemma sorted_names_cons e es : sorted_names (e :: es) ->
  sorted_names es /\ forall x, x ∈ es -> bytes_lt (e_name e) (e_name x) = true.
Proof.
  unfold sorted_names. cbn. intros H. inversion H as [|? ? Hs F]; subst. split; [done|].
  intros x Hx. rewrite Forall_forall in F. apply F. by apply list_elem_of_fmap_2.
Qed.

Lemma find_previous_spec e db : sorted_names db ->
  exists passed rest, db = passed ++ rest /\ Forall (fun o => bytes_lt (e_name o) (e_name e) = true) passed /\
  ((find_previous e db = (e, passed, rest) /\ Forall (fun o => bytes_lt (e_name e) (e_name o) = true) rest) \/
   exists o rest', rest = o :: rest' /\ e_name o = e_name e /\
     find_previous e db = (take_previous e o, passed, mark_matched o :: rest')).
Proof.
  induction db as [|o db IH]; intros Hs.
  { exists [], []. split; [done|]. split; [done|]. by left. }
  apply sorted_names_cons in Hs as [Hs Hlt]. cbn [find_previous]. destruct (bytes_lt (e_name e) (e_name o)) eqn:E.
  { exists [], (o :: db). split; [done|]. split; [done|]. left. split; [done|]. constructor; [done|].
    apply Forall_forall. intros x Hx. apply (bytes_lt_trans _ (e_name o)); [done|]. by apply Hlt. }
  case_decide as En.
  { exists [], (o :: db). split; [done|]. split; [done|]. right. by exists o, db. }
  destruct (IH Hs) as (passed & rest & -> & Fp & H).
  exists (o :: passed), rest. split; [done|]. split.
  { constructor; [|done]. destruct (bytes_lt (e_name o) (e_name e)) eqn:E2; [done|].
    by destruct En; apply bytes_lt_trichotomy. }
  destruct H as [[-> F]|(o' & rest' & -> & En' & ->)]; [by left|]. right. by exists o', rest'.
Qed.

Lemma bytes_lt_ne a b : bytes_lt a b = true -> a <> b.
Proof. intros H ->. by rewrite bytes_lt_irrefl in H. Qed.

Lemma with_previous_skip passed rest e : Forall (fun o => e_name o <> e_name e) passed ->
  with_previous (passed ++ rest) e = with_previous rest e.
Proof.
  unfold with_previous. induction 1 as [|o passed Ho F IH]; [done|]. cbn. by rewrite bool_decide_eq_false_2.
Qed.

Lemma with_previous_none olds e : Forall (fun o => e_name o <> e_name e) olds -> with_previous olds e = e.
Proof. intros F. rewrite <- (app_nil_r olds). by rewrite with_previous_skip. Qed.

Lemma mark_out names olds : Forall (fun o => e_name o ∉ names) olds -> map (mark names) olds = olds.
Proof. induction 1 as [|o olds Ho F IH]; [done|]. cbn. rewrite IH. unfold mark. by rewrite decide_False. Qed.

Lemma map_mark_ext names names' olds : Forall (fun o => e_name o ∈ names <-> e_name o ∈ names') olds ->
  map (mark names) olds = map (mark names') olds.
Proof.
  induction 1 as [|o olds Ho F IH]; [done|]. cbn. rewrite IH. f_equal. unfold mark.
  destruct (decide (e_name o ∈ names)), (decide (e_name o ∈ names')); tauto.
Qed.

(** The merge of two sorted lists looks every entry up. *)
Lemma load_previous_spec es : forall olds, sorted_names es -> sorted_names olds ->
  load_previous es olds = (map (with_previous olds) es, map (mark (map e_name es)) olds).
Proof.
  induction es as [|e es IH]; intros olds Hes Hol.
  { cbn. f_equal. symmetry. apply mark_out. apply Forall_forall. intros o _ H. by apply not_elem_of_nil in H. }
  apply sorted_names_cons in Hes as [Hes Hlt].
  destruct (find_previous_spec e olds Hol) as (passed & rest & -> & Fp & H).
  assert (Hrest : sorted_names rest).
  { unfold sorted_names in *. rewrite map_app in Hol. by apply StronglySorted_app_1_r in Hol. }
  assert (Hpass : forall x, x ∈ es -> Forall (fun o => e_name o <> e_name x) passed).
  { intros x Hx. eapply Forall_impl; [exact Fp|]. intros o Ho. apply bytes_lt_ne.
    apply (bytes_lt_trans _ (e_name e)); [done|]. by apply Hlt. }
  assert (Hpe : Forall (fun o => e_name o <> e_name e) passed).
  { eapply Forall_impl; [exact Fp|]. intros o Ho. by apply bytes_lt_ne. }
  assert (Hmark : map (mark (e_name e :: map e_name es)) passed = passed).
  { apply mark_out, Forall_forall. intros o Ho H2. apply elem_of_cons in H2 as [E|E].
    - rewrite Forall_forall in Hpe. by apply (Hpe o).
    - apply list_elem_of_fmap in E as (x & E & Hx). pose proof (Hpass x Hx) as F. rewrite Forall_forall in F. by apply (F o). }
  cbn [load_previous map]. rewrite map_app, Hmark. rewrite with_previous_skip by done.
  replace (map (with_previous (passed ++ rest)) es) with (map (with_previous rest) es).
  2:{ apply map_ext_in. intros x Hx. symmetry. apply with_previous_skip, Hpass. by apply list_elem_of_In. }
  destruct H as [[-> F]|(o & rest' & -> & En & ->)].
  - rewrite (IH rest) by done. f_equal; [f_equal|f_equal].
    + symmetry. apply with_previous_none. eapply Forall_impl; [exact F|]. intros o Ho E. by apply (bytes_lt_ne _ _ Ho).
    + apply map_mark_ext. eapply Forall_impl; [exact F|]. intros o Ho. cbn. rewrite elem_of_cons.
      split; [by right|]. intros [E|]; [|done]. by destruct (bytes_lt_ne _ _ Ho).
  - rewrite (IH (mark_matched o :: rest')) by done. apply sorted_names_cons in Hrest as [_ Hrest].
    assert (Hne : forall x, x ∈ es -> e_name o <> e_name x).
    { intros x Hx. rewrite En. apply bytes_lt_ne. by apply Hlt. }
    f_equal; [f_equal|f_equal].
    + unfold with_previous. cbn [find]. by rewrite bool_decide_eq_true_2.
    + apply map_ext_in. intros x Hx. apply list_elem_of_In in Hx. unfold with_previous. cbn [find e_name mark_matched].
      by rewrite bool_decide_eq_false_2 by by apply Hne.
    + cbn [map]. f_equal.
      * unfold mark at 2. rewrite decide_True by (cbn; rewrite En; by left). unfold mark. cbn [e_name mark_matched].
        case_decide; done.
      * apply map_mark_ext. apply Forall_forall. intros x Hx. cbn. rewrite elem_of_cons. split; [by right|].
        intros [E|]; [|done]. pose proof (Hrest x Hx) as H. rewrite En, E, bytes_lt_irrefl in H. done.
Qed.

(** Trusted entries are those that the directory would have given. *)
Lemma with_previous_same olds es : sorted_names olds -> map key es = map key olds ->
  (forall o, o ∈ olds -> o = take_previous (new_entry (e_name o) (e_is_directory o)) o) ->
  Forall (fun e => e = new_entry (e_name e) (e_is_directory e)) es -> map (with_previous olds) es = olds.
Proof.
  intros Hs Hkey Ho Hes.
  enough (H : forall pre suf, olds = pre ++ suf -> forall es, map key es = map key suf ->
    Forall (fun e => e = new_entry (e_name e) (e_is_directory e)) es -> map (with_previous olds) es = suf).
  { by apply (H [] olds). }
  clear es Hkey Hes. intros pre suf. revert pre. induction suf as [|o suf IH]; intros pre E es Hkey Hes.
  { by destruct es. }
  destruct es as [|e es]; [done|]. cbn in Hkey. injection Hkey as En Ed Hkey. inversion Hes as [|? ? He Hes']; subst x l.
  cbn [map]. f_equal.
  - rewrite E, with_previous_skip.
    2:{ apply Forall_forall. intros p Hp. rewrite En. apply bytes_lt_ne. unfold sorted_names in Hs.
        rewrite E, map_app in Hs. cbn in Hs. apply (StronglySorted_app_1_elem_of (fun a b => bytes_lt a b = true) _ _ _ _ Hs).
        - by apply list_elem_of_fmap_2.
        - by left. }
    unfold with_previous. cbn [find]. rewrite bool_decide_eq_true_2 by done. rewrite He, En, Ed. symmetry. apply Ho.
    rewrite E. rewrite elem_of_app. right. by left.
  - apply (IH (pre ++ [o])); [|done|done]. rewrite E. by rewrite <- app_assoc.
Qed.

(** ** Reading a directory *)

#[global] Instance name_le_total : Total name_le.
Proof. intros a b. apply (bytes_le_total (e_name a) (e_name b)). Qed.

#[global] Instance name_le_trans : Transitive name_le.
Proof. intros a b c. apply (bytes_le_trans (e_name a) (e_name b) (e_name c)). Qed.

Lemma dirent_entry_spec os d de e : e ∈ dirent_entry os d de ->
  e_name e = fst de /\ fst de <> [] /\ e = new_entry (e_name e) (e_is_directory e).
Proof.
  destruct de as [n t]. unfold dirent_entry. case_decide as E; intros H; [by apply not_elem_of_nil in H|].
  apply list_elem_of_singleton in H as ->. cbn. tauto.
Qed.

Lemma dirent_entries_names os d dirents : NoDup (map fst dirents) ->
  NoDup (map e_name (concat (map (dirent_entry os d) dirents))).
Proof.
  induction dirents as [|de dirents IH]; intros N; [constructor|]. cbn [map concat] in *.
  apply NoDup_cons in N as [N1 N2]. rewrite map_app. apply NoDup_app. split; [|split; [|by apply IH]].
  - destruct de as [n t]. unfold dirent_entry. case_decide; cbn; [constructor|apply NoDup_singleton].
  - intros x Hx Hx2. apply list_elem_of_fmap in Hx as (e & -> & He). apply dirent_entry_spec in He as [Ee _].
    apply list_elem_of_fmap in Hx2 as (e2 & E & He2). apply list_elem_of_In, in_concat in He2 as (l & Hl & He2).
    apply in_map_iff in Hl as (de2 & <- & Hde2). apply list_elem_of_In, dirent_entry_spec in He2 as [Ee2 _].
    apply N1. apply list_elem_of_fmap. exists de2. split; [congruence|]. by apply list_elem_of_In.
Qed.

Lemma sorted_strict (l : list bytes) : StronglySorted (not_above bytes_lt) l -> NoDup l ->
  StronglySorted (fun a b => bytes_lt a b = true) l.
Proof.
  induction 1 as [|a l S IH F]; intros N; [constructor|]. apply NoDup_cons in N as [N1 N2].
  constructor; [by apply IH|]. rewrite Forall_forall in F |- *. intros b Hb. specialize (F b Hb).
  unfold not_above in F. destruct (bytes_lt a b) eqn:E; [done|].
  destruct N1. by rewrite (bytes_lt_trichotomy a b E F).
Qed.

Lemma list_directory_spec os d es : readdir_ok os -> list_directory os d = Some es ->
  sorted_names es /\ Forall (fun e => name_ok (e_name e) /\ e = new_entry (e_name e) (e_is_directory e)) es.
Proof.
  intros Hos. unfold list_directory. destruct (os_readdir os d) as [dirents|] eqn:E; [|done]. intros [= <-].
  destruct (Hos d dirents E) as [N F]. set (l := concat _).
  assert (P : (merge_sort name_le l) ≡ₚ l) by apply merge_sort_Permutation. split.
  - apply sorted_strict.
    + pose proof (StronglySorted_merge_sort name_le l) as S. clearbody l. clear P.
      induction S as [|a k S IH F']; cbn; constructor; [done|]. apply Forall_fmap. done.
    + rewrite P. by apply dirent_entries_names.
  - rewrite P. apply Forall_forall. intros e He. unfold l in He. apply list_elem_of_In, in_concat in He as (k & Hk & He).
    apply in_map_iff in Hk as (de & <- & Hde). apply list_elem_of_In in He, Hde.
    apply dirent_entry_spec in He as (En & Hne & Ee). rewrite Forall_forall in F. destruct (F de Hde) as [Fp Fs].
    split; [|done]. rewrite En. by split.
Qed.

(** ** Old entries of well-grouped records *)

Lemma strip_prefix_spec p s r : strip_prefix p s = Some r <-> s = p ++ r.
Proof.
  revert s. induction p as [|x p IH]; intros s; cbn; [split; [by intros [= ->]|by intros ->]|].
  destruct s as [|y s]; [done|]. destruct (Z.eqb_spec x y) as [->|Hne].
  - rewrite IH. split; [by intros ->|by intros [= ->]].
  - split; [done|]. intros [= ->]. done.
Qed.

(** The entry that a record stands for. *)
Definition db_entry (n : bytes) (r : FileRecord) : entry :=
  ENTRY n (0 <=? dt_sec (fr_dir_timestamp r)) false unknown_dir_time (fr_dir_timestamp r) 0 empty_metadata
    (fr_metadata r) true false true.

Lemma old_entry_spec d r e : old_entry (path_plus_slash d) r = Some e <->
  exists n, (slash ∉ n) /\ fr_path r = child d n /\ e = db_entry n r.
Proof.
  unfold old_entry. destruct (strip_prefix (path_plus_slash d) (fr_path r)) as [n|] eqn:E; cbn.
  - apply strip_prefix_spec in E. case_decide as Hs.
    + split; [done|]. intros (n' & Hn' & E' & _). unfold child in E'. rewrite E in E'. apply app_inv_head in E'. by subst.
    + split; [intros [= <-]; by exists n|]. intros (n' & Hn' & E' & ->). unfold child in E'. rewrite E in E'.
      apply app_inv_head in E'. by subst.
  - split; [done|]. intros (n & _ & E' & _). apply strip_prefix_spec in E'. congruence.
Qed.

Lemma omap_none {A B} (f : A -> option B) (l : list A) : (forall x, x ∈ l -> f x = None) -> omap f l = [].
Proof.
  induction l as [|x l IH]; intros H; [done|]. cbn. rewrite (H x) by by left. apply IH. intros y Hy. apply H. by right.
Qed.

Section Groups.
Context (gs0 : list group) (Hgs : groups_ok gs0).

Lemma group_in g : g ∈ gs0 -> group_ok g.
Proof. destruct Hgs as [F _]. rewrite Forall_forall in F. apply F. Qed.

Lemma elem_of_records r gs : r ∈ records gs <-> exists g, g ∈ gs /\ r ∈ snd g.
Proof.
  unfold records. rewrite list_elem_of_In, in_concat. split.
  - intros (l & Hl & Hr). apply in_map_iff in Hl as (g & <- & Hg). exists g. by rewrite !list_elem_of_In.
  - intros (g & Hg & Hr). exists (snd g). rewrite <- list_elem_of_In. split; [|by apply list_elem_of_In].
    by apply list_elem_of_fmap_2.
Qed.

Lemma other_group d g r : dir_ok d -> group_ok g -> r ∈ snd g -> fst g <> d -> old_entry (path_plus_slash d) r = None.
Proof.
  intros Hd Hg Hr Hne. destruct (old_entry (path_plus_slash d) r) as [e|] eqn:E; [|done].
  apply old_entry_spec in E as (n & Hn & E & _). pose proof (group_names _ Hg) as F. rewrite Forall_forall in F.
  destruct (F r Hr) as (m & Hm & E2). rewrite E2 in E.
  apply child_inj in E as [E _]; [|apply Hg|done|apply Hm|done]. done.
Qed.

Lemma other_groups d gs : dir_ok d -> Forall group_ok gs -> (forall g, g ∈ gs -> fst g <> d) -> old_entries (records gs) d = [].
Proof.
  intros Hd F Hne. unfold old_entries. apply omap_none. intros r Hr. apply elem_of_records in Hr as (g & Hg & Hr).
  rewrite Forall_forall in F. apply (other_group d g); auto.
Qed.

Lemma old_entries_app a b d : old_entries (a ++ b) d = old_entries a d ++ old_entries b d.
Proof. apply omap_app. Qed.

Lemma records_app a b : records (a ++ b) = records a ++ records b.
Proof. unfold records. by rewrite map_app, concat_app. Qed.

Lemma own_group g : group_ok g -> Forall (fun r => is_Some (old_entry (path_plus_slash (fst g)) r)) (snd g).
Proof.
  intros Hg. eapply Forall_impl; [apply Hg|]. intros r (n & Hn & E). exists (db_entry n r).
  apply old_entry_spec. exists n. split; [apply Hn|done].
Qed.

Lemma own_group_sorted g : group_ok g -> sorted_names (old_entries (snd g) (fst g)).
Proof.
  intros [Hd F S _]. unfold old_entries. induction S as [|r l S IH Fr]; [constructor|].
  inversion F as [|? ? (n & Hn & E) F']; subst. cbn.
  rewrite (proj2 (old_entry_spec (fst g) r (db_entry n r))) by (exists n; split; [apply Hn|done]).
  unfold sorted_names. cbn. constructor; [by apply IH|]. apply Forall_forall. intros m Hm.
  apply list_elem_of_fmap in Hm as (e & -> & He). apply list_elem_of_omap in He as (r2 & Hr2 & E2).
  apply old_entry_spec in E2 as (n2 & _ & E2 & ->). rewrite Forall_forall in Fr. specialize (Fr r2 Hr2).
  rewrite E, E2 in Fr. cbn. clear -Fr. unfold child in Fr. induction (path_plus_slash (fst g)) as [|x p IH]; [done|].
  cbn [app] in Fr. apply bytes_lt_spec in Fr as [H|[_ H]]; [lia|auto].
Qed.

End Groups.

(** ** One pass over the old database *)

Section Reading.
Context {R : Type} `{!RecordReader R} (stream : R -> list FileRecord -> bool -> Prop) `{!RecordStream R stream}.

Lemma skip_records d l1 : forall fuel l2 err db, stream db (l1 ++ l2) err -> (length l1 < fuel)%nat ->
  Forall (fun r => 0 < dir_path_cmp d (fr_path r)) l1 ->
  match l2 with [] => True | r :: _ => dir_path_cmp d (fr_path r) <= 0 end ->
  exists db', skip_before fuel d db = Some db' /\ stream db' l2 err.
Proof.
  induction l1 as [|r l1 IH]; intros [|fuel] l2 err db Hs Hf F H2; cbn [length] in Hf; try lia; cbn [skip_before app] in *.
  - destruct l2 as [|r l2].
    + destruct (read_end db err Hs) as (db' & -> & Hs' & _). by exists db'.
    + pose proof (read_path db r l2 err Hs) as Hne. destruct (read_record db r l2 err Hs) as (db' & -> & Hs' & _ & Hu).
      destruct (fr_path r) as [|c n]; [done|]. rewrite (proj2 (Z.leb_le _ _)) by done. by eexists.
  - inversion F as [|? ? Hr F']; subst. pose proof (read_path db r (l1 ++ l2) err Hs) as Hne.
    destruct (read_record db r (l1 ++ l2) err Hs) as (db' & -> & Hs' & _ & _).
    destruct (fr_path r) as [|c n]; [done|]. rewrite (proj2 (Z.leb_gt _ _)) by lia. apply (IH fuel l2 err db'); auto. lia.
Qed.

Lemma read_records p l1 : forall fuel l2 err db, stream db (l1 ++ l2) err -> (length l1 < fuel)%nat ->
  Forall (fun r => is_Some (old_entry p r)) l1 ->
  match l2 with [] => True | r :: _ => old_entry p r = None end ->
  exists db', read_group fuel p db = Some (omap (old_entry p) l1, db') /\ stream db' l2 err /\
    (get_error db' = false -> err = false \/ l2 <> []).
Proof.
  induction l1 as [|r l1 IH]; intros [|fuel] l2 err db Hs Hf F H2; cbn [length] in Hf; try lia; cbn [read_group app] in *.
  - destruct l2 as [|r l2].
    + destruct (read_end db err Hs) as (db' & -> & Hs' & He). exists db'. split; [done|]. split; [done|].
      intros E. left. congruence.
    + pose proof (read_path db r l2 err Hs) as Hne. destruct (read_record db r l2 err Hs) as (db' & -> & Hs' & _ & Hu).
      unfold old_entry in H2. destruct (fr_path r) as [|c n]; [done|].
      exists (unread (c :: n, fr_dir_timestamp r) db'). split; [|by auto].
      destruct (strip_prefix p (c :: n)) as [rest|]; [|done]. cbn in H2. by case_decide.
  - inversion F as [|? ? [e Hr] F']; subst. pose proof (read_path db r (l1 ++ l2) err Hs) as Hne.
    destruct (read_record db r (l1 ++ l2) err Hs) as (db' & -> & Hs' & Hm & _).
    cbn [omap list_omap]. rewrite Hr. unfold old_entry in Hr. destruct (fr_path r) as [|c n]; [done|].
    destruct (strip_prefix p (c :: n)) as [rest|]; [|done]. cbn in Hr. case_decide; [done|]. injection Hr as <-.
    destruct (IH fuel l2 err db' Hs' ltac:(lia) F' H2) as (db'' & -> & Hs'' & He). exists db''. cbn. rewrite Hm. auto.
Qed.

Context (gs0 : list group) (Hgs : groups_ok gs0) (err : bool).

(** The groups left when the scan comes to [d]. *)
Record ready (d : bytes) (rem : list group) : Prop := {
  ready_suffix : exists pre, gs0 = pre ++ rem;
  ready_above : forall g, g ∈ rem -> ~ below (fst g) d;
  ready_inside : forall g, g ∈ gs0 -> fst g = d \/ below d (fst g) -> g ∈ rem
}.

Lemma groups_ok_r pre rem : gs0 = pre ++ rem -> groups_ok rem.
Proof.
  intros E. destruct Hgs as [F S]. rewrite E in F, S. split; [by apply Forall_app in F as [_ F]|].
  by apply StronglySorted_app_1_r in S.
Qed.

Lemma split_groups d rem : dir_ok d -> groups_ok rem -> exists a b, rem = a ++ b /\
  (forall g, g ∈ a -> before (fst g) d) /\ (forall g, g ∈ b -> fst g = d \/ before d (fst g)).
Proof.
  intros Hd [F S]. induction S as [|g rem S IH Fg].
  { exists [], []. repeat split; intros g H; by apply not_elem_of_nil in H. }
  inversion F as [|? ? Hg F']; subst. destruct (decide (before (fst g) d)) as [Hb|Hb].
  - destruct (IH F') as (a & b & -> & Ha & Hb'). exists (g :: a), b. split; [done|]. split; [|done].
    intros h Hh. apply elem_of_cons in Hh as [->|]; auto.
  - exists [], (g :: rem). split; [done|]. split; [intros h H; by apply not_elem_of_nil in H|].
    assert (Hge : fst g = d \/ before d (fst g)).
    { destruct (cmp_total (fst g) d) as [H|[H|H]]; [apply group_dir, Hg|apply Hd|done|by left|by right]. }
    intros h Hh. apply elem_of_cons in Hh as [->|Hh]; [done|]. right.
    rewrite Forall_forall in Fg, F'. specialize (Fg h Hh). destruct Hge as [<-|Hge]; [done|].
    apply (dir_before_trans d (fst g) (fst h)); [apply Hd|apply group_dir, Hg|apply group_dir, F', Hh|done|done].
Qed.

Lemma before_irrefl d : dir_ok d -> ~ before d d.
Proof. intros Hd H. apply before_lex in H; [|apply Hd..]. by rewrite lex_refl in H. Qed.

Lemma cmp_flip a b : path a -> path b -> before a b -> 0 < dir_path_cmp b a.
Proof.
  intros Ha Hb H. pose proof (cmp_asym a b Ha Hb H). pose proof (cmp_eq_iff b a Hb Ha) as E.
  destruct (decide (dir_path_cmp b a = 0)) as [E0|]; [|lia]. apply E in E0. subst.
  unfold before in H. rewrite (proj2 (cmp_eq_iff a a Ha Ha) eq_refl) in H. lia.
Qed.

Lemma before_not_above g d : path g -> path d -> before d g -> ~ below g d.
Proof. intros Hg Hd H Hb. apply (cmp_asym d g Hd Hg H). by apply below_ok_before. Qed.

Lemma group_record g r : group_ok g -> r ∈ snd g -> exists n, name_ok n /\ fr_path r = child (fst g) n.
Proof. intros Hg Hr. pose proof (group_names _ Hg) as F. rewrite Forall_forall in F. by apply F. Qed.

Lemma length_records_app a b : length (records (a ++ b)) = (length (records a) + length (records b))%nat.
Proof. by rewrite records_app, length_app. Qed.

(** The group of [d], if there is one, comes first among those not before [d]. *)
Lemma own_split d pre a b : dir_ok d -> gs0 = pre ++ a ++ b ->
  (forall g, g ∈ a -> before (fst g) d) -> (forall g, g ∈ b -> fst g = d \/ before d (fst g)) ->
  (forall g, g ∈ gs0 -> fst g = d -> g ∈ b) ->
  exists own c, b = own ++ c /\
    old_entries (records gs0) d = omap (old_entry (path_plus_slash d)) (records own) /\
    Forall (fun r => is_Some (old_entry (path_plus_slash d) r)) (records own) /\
    sorted_names (old_entries (records gs0) d) /\ (forall g, g ∈ own -> fst g = d) /\
    (forall g, g ∈ c -> before d (fst g)).
Proof.
  intros Hd E0 Ha Hb Hrest. pose proof Hgs as [F0 S0]. rewrite Forall_forall in F0.
  assert (Hno : old_entries (records gs0) d = [] -> (forall g, g ∈ b -> before d (fst g)) ->
    exists own c, b = own ++ c /\
      old_entries (records gs0) d = omap (old_entry (path_plus_slash d)) (records own) /\
      Forall (fun r => is_Some (old_entry (path_plus_slash d) r)) (records own) /\
      sorted_names (old_entries (records gs0) d) /\ (forall g, g ∈ own -> fst g = d) /\
      (forall g, g ∈ c -> before d (fst g))).
  { intros -> Hc. exists [], b. split; [done|]. split; [done|]. split; [constructor|]. split; [constructor|].
    split; [|done]. intros g Hg. by apply not_elem_of_nil in Hg. }
  destruct b as [|g c].
  { apply Hno; [|intros g Hg; by apply not_elem_of_nil in Hg]. apply other_groups; [done|apply Hgs|].
    intros g Hg Eg. apply Hrest in Hg; [|done]. by apply not_elem_of_nil in Hg. }
  assert (Hin : forall h, h ∈ pre \/ h ∈ a \/ h ∈ g :: c -> group_ok h).
  { intros h Hh. apply F0. rewrite E0, !elem_of_app. tauto. }
  assert (Hlt : forall h k, h ∈ pre ++ a -> k ∈ g :: c -> before (fst h) (fst k)).
  { intros h k Hh Hk. rewrite E0, app_assoc in S0.
    apply (StronglySorted_app_1_elem_of (fun g h : group => before (fst g) (fst h)) (pre ++ a) (g :: c)); done. }
  assert (Hgc : forall h, h ∈ c -> before (fst g) (fst h)).
  { intros h Hh. rewrite E0, app_assoc in S0. apply StronglySorted_app_1_r in S0. inversion S0 as [|? ? _ Fc]; subst.
    rewrite Forall_forall in Fc. by apply Fc. }
  assert (Hg : group_ok g) by (apply Hin; right; right; by left).
  destruct (Hb g ltac:(by left)) as [Eg|Hgt].
  - exists [g], c. split; [done|].
    assert (Eo : old_entries (records gs0) d = old_entries (snd g) d).
    { rewrite E0, app_assoc, records_app, old_entries_app.
      change (records (g :: c)) with (snd g ++ records c). rewrite old_entries_app.
      rewrite (other_groups d (pre ++ a)), (other_groups d c); [by rewrite app_nil_r|done| | |done| |].
      - apply Forall_forall. intros h Hh. apply Hin. right. right. by right.
      - intros h Hh E. specialize (Hgc h Hh). rewrite E, Eg in Hgc. by apply before_irrefl in Hgc.
      - apply Forall_forall. intros h Hh. apply Hin. rewrite elem_of_app in Hh. tauto.
      - intros h Hh E. specialize (Hlt h g Hh ltac:(by left)). rewrite E, Eg in Hlt. by apply before_irrefl in Hlt. }
    rewrite Eo. unfold records. cbn [map concat]. rewrite app_nil_r. subst d. split; [done|].
    split; [by apply own_group|]. split; [by apply own_group_sorted|]. split; [|done].
    intros h Hh. by apply list_elem_of_singleton in Hh as ->.
  - assert (Hall : forall h, h ∈ g :: c -> before d (fst h)).
    { intros h Hh. apply elem_of_cons in Hh as [->|Hh]; [done|].
      apply (dir_before_trans d (fst g) (fst h)); [apply Hd|apply group_dir, Hg| |done|by apply Hgc].
      apply group_dir, Hin. right. right. by right. }
    apply Hno; [|done]. apply other_groups; [done|apply Hgs|]. intros h Hh E. apply Hrest in Hh; [|done].
    apply Hall in Hh. rewrite E in Hh. by apply before_irrefl in Hh.
Qed.

(** From [ready]: the reader gives the old entries of the directory, whose group
    is then gone, and keeps what comes after it. *)
Lemma read_stage d rem db reads : dir_ok d -> ready d rem -> stream db (records rem) err ->
  (length (records gs0) < reads)%nat ->
  exists db1 db2 rem2, skip_before reads d db = Some db1 /\
    read_group reads (path_plus_slash d) db1 = Some (old_entries (records gs0) d, db2) /\
    stream db2 (records rem2) err /\ (get_error db2 = false -> complete (records gs0) err d) /\
    sorted_names (old_entries (records gs0) d) /\
    (exists pre, rem = pre ++ rem2) /\ (forall g, g ∈ rem2 -> before d (fst g)) /\
    (forall g, g ∈ rem -> before d (fst g) -> g ∈ rem2).
Proof.
  intros Hd [[pre E0] Habove Hin] Hs Hreads. pose proof (groups_ok_r pre rem E0) as Hrem.
  destruct (split_groups d rem Hd Hrem) as (a & b & -> & Ha & Hb).
  assert (Hlen : (length (records a) + length (records b) <= length (records gs0))%nat).
  { rewrite E0, !length_records_app. lia. }
  destruct Hrem as [Frem Srem]. pose proof Frem as Fab. apply Forall_app in Fab as [Fa Fb].
  rewrite records_app in Hs.
  assert (Hge : forall r, r ∈ records b -> dir_path_cmp d (fr_path r) <= 0).
  { intros r Hr. apply elem_of_records in Hr as (g & Hg & Hr). rewrite Forall_forall in Fb.
    destruct (group_record g r (Fb g Hg) Hr) as (n & Hn & ->).
    pose proof (child_after (fst g) n (group_dir _ (Fb g Hg)) Hn) as Hc.
    enough (before d (child (fst g) n)) by (unfold before in *; lia).
    destruct (Hb g Hg) as [<-|H]; [done|]. apply (dir_before_trans d (fst g) _); auto; [apply Hd|apply group_dir, Fb, Hg|].
    apply child_ok; [apply group_dir, Fb, Hg|done]. }
  destruct (skip_records d (records a) reads (records b) err db Hs ltac:(lia)) as (db1 & H1 & Hs1).
  { apply Forall_forall. intros r Hr. apply elem_of_records in Hr as (g & Hg & Hr). rewrite Forall_forall in Fa.
    destruct (group_record g r (Fa g Hg) Hr) as (n & Hn & ->). pose proof (group_dir _ (Fa g Hg)) as Hdg.
    apply cmp_flip; [apply child_ok; auto|apply Hd|]. apply past_below; [done|done|apply Hn|].
    split; [by apply Ha|]. apply Habove. rewrite elem_of_app. by left. }
  { destruct (records b) as [|r l]; [done|]. apply Hge. by left. }
  destruct (own_split d pre a b Hd E0 Ha Hb) as (own & c & -> & Eold & Fown & Hsorted & Hown & Hc).
  { intros g Hg Eg. destruct (proj1 (elem_of_app a b g) (Hin g Hg (or_introl Eg))) as [H|H]; [|done].
    apply Ha in H. rewrite Eg in H. by apply before_irrefl in H. }
  rewrite records_app in Hs1.
  apply Forall_app in Fb as [Fo Fc]. rewrite Forall_forall in Fc.
  destruct (read_records (path_plus_slash d) (records own) reads (records c) err db1 Hs1) as (db2 & H2 & Hs2 & He).
  { rewrite length_records_app in Hlen. lia. }
  { done. }
  { destruct (records c) as [|r l] eqn:Er; [done|]. assert (Hr : r ∈ records c) by (rewrite Er; by left).
    apply elem_of_records in Hr as (g & Hg & Hr). apply (other_group d g r); auto. intros Eg. apply Hc in Hg. rewrite Eg in Hg.
    by apply before_irrefl in Hg. }
  exists db1, db2, c. split; [done|]. rewrite Eold in *. split; [done|]. split; [done|]. split.
  { intros E. destruct (He E) as [->|Hne]; [by left|]. right. destruct (records c) as [|r l] eqn:Er; [done|].
    assert (Hr : r ∈ records c) by (rewrite Er; by left). pose proof Hr as Hr'.
    apply elem_of_records in Hr as (g & Hg & Hr). destruct (group_record g r (Fc g Hg) Hr) as (n & Hn & En).
    exists r, (fst g), n. split; [|split; [apply group_dir, Fc, Hg|by auto]].
    rewrite E0, !records_app, !elem_of_app. tauto. }
  split; [done|]. split; [exists (a ++ own); by rewrite app_assoc|]. split; [done|].
  intros g Hg Hlt. rewrite !elem_of_app in Hg. destruct Hg as [Hg|[Hg|Hg]]; [| |done].
  - apply Ha in Hg as Hlt2. rewrite Forall_forall in Fa. destruct (cmp_asym _ _ (dir_bytes _ Hd) (dir_bytes _ (group_dir _ (Fa g Hg))) Hlt Hlt2).
  - apply Hown in Hg. rewrite Hg in Hlt. by apply before_irrefl in Hlt.
Qed.

End Reading.

(** ** What becomes of the entries *)

Section Exact.
Context (os : OS) (conf : Config) (is_bind_mount fs_allows_hashing : bytes -> bool)
  (compute_file_hash_at : bytes -> bytes -> MetadataHashKind -> option MetadataHash).

Definition entry_after (d : bytes) (e e' : entry) : Prop :=
  e_name e' = e_name e /\ e_is_directory e' = e_is_directory e /\ e_db_modified e' = e_db_modified e /\
  (e_fd e' = true -> e_fd e = true \/
     exists buf, os_fstat os (child d (e_name e)) = Some buf /\
       (e_dt e' = unknown_dir_time \/ e_dt e' = stat_dirtime buf)).

Lemma stat_entry_after d ha e w e' w' :
  stat_entry os conf compute_file_hash_at d ha e w = (e', w') ->
  e_name e' = e_name e /\ e_is_directory e' = e_is_directory e /\ e_db_modified e' = e_db_modified e /\ e_fd e' = e_fd e.
Proof.
  unfold stat_entry. destruct (os_fstatat os d (e_name e)) as [sb|]; [|by intros [= <- <-]].
  destruct (if S_ISDIR (st_mode sb) then get_dirtime_from_stat os sb w else (not_a_dir, w)) as [dt w2].
  by intros [= <- <-].
Qed.

Lemma dirtime_cases buf w dt w' : get_dirtime_from_stat os buf w = (dt, w') ->
  dt = unknown_dir_time \/ dt = stat_dirtime buf.
Proof.
  unfold get_dirtime_from_stat. destruct (check_time os _ w) as [[] w2]; intros [= <- <-]; [by left|by right].
Qed.

Lemma open_entry_after d dev ha e w e' w' :
  open_entry os conf fs_allows_hashing d dev ha e w = Done (e', w') -> entry_after d e e'.
Proof.
  unfold open_entry, entry_after. destruct (negb (e_is_directory e)); [intros [= <- <-]; cbn; tauto|].
  case_decide; [intros [= <- <-]; tauto|].
  destruct (opendir_noatime os _ w) as [[errno|] w2]; [destruct (_ || _); [done|]; intros [= <- <-]; tauto|].
  change (path_plus_slash d ++ e_name e) with (child d (e_name e)).
  destruct (os_fstat os (child d (e_name e))) as [buf|].
  2:{ destruct (filesystem_is_excluded os conf _); [|done]. intros [= <- <-]. tauto. }
  destruct (negb (st_dev buf =? dev) && filesystem_is_excluded os conf (child d (e_name e))).
  { intros [= <- <-]. cbn. split; [done|]. split; [done|]. split; [done|]. done. }
  destruct (get_dirtime_from_stat os buf w2) as [dt w3] eqn:E. intros [= <- <-]. cbn.
  split; [done|]. split; [done|]. split; [done|]. intros _. right. exists buf. split; [done|]. by eapply dirtime_cases.
Qed.

Lemma stat_entries_after d ha es : forall w es' w',
  stat_entries os conf compute_file_hash_at d ha es w = (es', w') ->
  Forall2 (fun e e' => e_name e' = e_name e /\ e_is_directory e' = e_is_directory e /\
             e_db_modified e' = e_db_modified e /\ e_fd e' = e_fd e) es es'.
Proof.
  induction es as [|e es IH]; intros w es' w'; cbn; [by intros [= <- <-]|].
  destruct (stat_entry os conf compute_file_hash_at d ha e w) as [e2 w2] eqn:E.
  destruct (stat_entries os conf compute_file_hash_at d ha es w2) as [es2 w3] eqn:E2. intros [= <- <-].
  constructor; [by apply (stat_entry_after d ha e w e2 w2)|by apply (IH w2 es2 w3)].
Qed.

Lemma open_entries_after d dev ha es : forall w es' w',
  open_entries os conf fs_allows_hashing d dev ha es w = Done (es', w') -> Forall2 (entry_after d) es es'.
Proof.
  induction es as [|e es IH]; intros w es' w'; cbn; [by intros [= <- <-]|].
  destruct (open_entry os conf fs_allows_hashing d dev ha e w) as [[e2 w2]| |] eqn:E; try done. cbn.
  destruct (open_entries os conf fs_allows_hashing d dev ha es w2) as [[es2 w3]| |] eqn:E2; try done.
  intros [= <- <-]. constructor; [by apply (open_entry_after d dev ha e w e2 w2)|by apply (IH w2 es2 w3)].
Qed.

Lemma process_entries_after d dev ha es olds w es' w' :
  process_entries os conf fs_allows_hashing compute_file_hash_at d dev ha es olds w = Done (es', w') ->
  Forall2 (entry_after d) es es'.
Proof.
  unfold process_entries. destruct (stat_entries os conf compute_file_hash_at d ha es w) as [es1 w1] eqn:E1.
  destruct (open_entries os conf fs_allows_hashing d dev ha es1 w1) as [[es2 w2]| |] eqn:E2; try done.
  intros [= <- <-]. apply stat_entries_after in E1. apply open_entries_after in E2.
  revert es2 E2. induction E1 as [|e e1 es es1 H1 F1 IH]; intros es2 F2; inversion F2 as [|? e2 ? ? H2 F2']; subst; [constructor|].
  constructor; [|by apply IH]. unfold entry_after in *. destruct H1 as (A1 & A2 & A3 & A4), H2 as (B1 & B2 & B3 & B4).
  rewrite A1, A4 in B4. repeat split; [congruence..|exact B4].
Qed.

Lemma process_entries_not_fuel d dev ha es olds w :
  process_entries os conf fs_allows_hashing compute_file_hash_at d dev ha es olds w <> OutOfFuel.
Proof.
  unfold process_entries. destruct (stat_entries os conf compute_file_hash_at d ha es w) as [es1 w1].
  enough (open_entries os conf fs_allows_hashing d dev ha es1 w1 <> OutOfFuel).
  { by destruct (open_entries os conf fs_allows_hashing d dev ha es1 w1) as [[]| |]. }
  revert w1. induction es1 as [|e es1 IH]; intros w1; [done|]. cbn.
  assert (H : open_entry os conf fs_allows_hashing d dev ha e w1 <> OutOfFuel).
  { unfold open_entry. destruct (negb _); [done|]. case_decide; [done|].
    destruct (opendir_noatime os _ w1) as [[errno|] w2]; [by destruct (_ || _)|].
    destruct (os_fstat os _); [|by destruct (filesystem_is_excluded os conf _)].
    destruct (_ && _); [done|]. by destruct (get_dirtime_from_stat os _ w2). }
  destruct (open_entry os conf fs_allows_hashing d dev ha e w1) as [[e2 w2]| |]; [|done..]. cbn. specialize (IH w2).
  by destruct (open_entries os conf fs_allows_hashing d dev ha es1 w2) as [[]| |].
Qed.

(** Processing changes neither names nor types. *)
Lemma entries_keys d olds listed es' : Forall2 (entry_after d) (map (with_previous olds) listed) es' ->
  map key es' = map key listed.
Proof.
  remember (map (with_previous olds) listed) as es eqn:E. intros F. revert listed E.
  induction F as [|e e' es es' He F IH]; intros [|l listed] E; try done. cbn in *. injection E as -> ->.
  f_equal; [|by apply IH]. destruct He as (En & Ed & _). unfold key. rewrite En, Ed.
  unfold with_previous. by destruct (find _ _).
Qed.

Lemma keys_names (es es' : list entry) : map key es = map key es' -> map e_name es = map e_name es'.
Proof. intros H. change e_name with (fun e => fst (key e)). rewrite <- !(map_map key fst). by rewrite H. Qed.

(** Marks only matter for removals. *)
Lemma process_entries_marked d dev ha es olds w : Forall (fun o => e_matched_in_new_scan o = true) olds ->
  process_entries os conf fs_allows_hashing compute_file_hash_at d dev ha es olds w =
  process_entries os conf fs_allows_hashing compute_file_hash_at d dev ha es [] w.
Proof.
  intros F. unfold process_entries. destruct (stat_entries os conf compute_file_hash_at d ha es w) as [es1 w1].
  destruct (open_entries os conf fs_allows_hashing d dev ha es1 w1) as [[es2 w2]| |]; try done. cbn.
  enough (fold_left (record_removed os d) olds w2 = w2) as -> by done.
  induction F as [|o olds Ho F IH]; [done|]. cbn. unfold record_removed at 2. by rewrite Ho.
Qed.

(** ** The scan *)

Context (old : list FileRecord) (err : bool).
Context (Hos : readdir_ok os) (Htime : timestamps_ok os old err).

(** The test that decides to trust the old database is sound for [d]. *)
Definition fresh (d : bytes) (modified db_modified : dir_time) : Prop :=
  0 < dt_sec db_modified -> modified = db_modified -> complete old err d ->
  exists listed, list_directory os d = Some listed /\ map key listed = map key (old_entries old d).

Lemma child_fresh d e es es' listed : Forall2 (entry_after d) es es' -> es = map (with_previous (old_entries old d)) listed ->
  Forall (fun e => e = new_entry (e_name e) (e_is_directory e)) listed ->
  e ∈ es' -> e_fd e = true -> fresh (child d (e_name e)) (e_dt e) (e_db_modified e).
Proof.
  intros F Ees Fl He Hfd Hsec Emod Hc. apply list_elem_of_lookup in He as [i Hi].
  destruct (Forall2_lookup_r _ _ _ _ _ F Hi) as (e0 & Hi0 & En & _ & Edb & Hopen). subst es.
  apply list_elem_of_lookup_2 in Hi0. apply list_elem_of_fmap in Hi0 as (l & -> & Hl).
  rewrite Forall_forall in Fl. specialize (Fl l Hl).
  assert (Efd : e_fd (with_previous (old_entries old d) l) = false).
  { unfold with_previous. destruct (find _ _) as [o|]; rewrite Fl; done. }
  destruct (Hopen Hfd) as [Hf|(buf & Hbuf & Hdt)]; [congruence|]. rewrite Edb in Hsec, Emod.
  rewrite <- En in Hbuf. unfold with_previous in Hsec, Emod, En.
  destruct (find (fun o => bool_decide (e_name o = e_name l)) (old_entries old d)) as [o|] eqn:Eo.
  2:{ rewrite Fl in Hsec. done. }
  apply find_some in Eo as [Ho Eo]. apply bool_decide_eq_true in Eo. apply list_elem_of_In in Ho.
  unfold old_entries in Ho. apply list_elem_of_omap in Ho as (r & Hr & Ho).
  apply old_entry_spec in Ho as (n & Hn & Er & ->). cbn in Hsec, Emod, Eo, En. rewrite <- Eo in En. rewrite En in *.
  rewrite <- Er in *. destruct Hdt as [Hdt|Hdt]; [rewrite <- Emod, Hdt in Hsec; done|].
  apply (Htime r buf); [done|done|done|congruence|done].
Qed.

Context {R : Type} `{!RecordReader R} (stream : R -> list FileRecord -> bool -> Prop) `{!RecordStream R stream}.
Context (gs0 : list group) (Hgs : groups_ok gs0) (Eold : old = records gs0).
Context (Hprune : Forall path (conf_prunepaths conf)) (Hsort : StronglySorted dir_path_le (conf_prunepaths conf)).
Context (reads : nat) (Hreads : (length old < reads)%nat).

Abbreviation scan := (scan os conf is_bind_mount fs_allows_hashing compute_file_hash_at).
Abbreviation full_scan := (full_scan os conf is_bind_mount fs_allows_hashing compute_file_hash_at old).

(** The state in which the scan of [d] leaves things, given the groups it found. *)
Definition leaves (d : bytes) (rem : list group) (w : World) (o : Outcome State) : Prop :=
  exists db idx rem' q, o = Done (STATE db idx w) /\ stream db (records rem') err /\
    (exists pre, rem = pre ++ rem') /\ (forall g, g ∈ rem -> past d (fst g) -> g ∈ rem') /\
    behind (conf_prunepaths conf) idx (Some q) /\ path q /\ (q = d \/ below d q).

Definition agrees (d : bytes) (rem : list group) (spec : Outcome World) (o : Outcome State) : Prop :=
  match spec with Done w => leaves d rem w o | Exit1 => o = Exit1 | OutOfFuel => False end.

(** What a call of [scan] on [d] needs. *)
Definition callable (d : bytes) (rem : list group) (st : State) : Prop :=
  dir_ok d /\ ready gs0 d rem /\ stream (existing_db st) (records rem) err /\
  exists q, behind (conf_prunepaths conf) (conf_prunepaths_index st) q /\
    forall q', q = Some q' -> path q' /\ before q' d.

Lemma past_trans d n m g : dir_ok d -> name_ok n -> name_ok m -> dir_ok g -> bytes_lt n m = true ->
  g = child d m \/ below (child d m) g -> past (child d n) g.
Proof.
  intros Hd Hn Hm Hg Hlt [->|Hb]; [by apply sibling_past|].
  pose proof (sibling_past d n m Hd Hn Hm Hlt) as Hp. pose proof (child_ok d n Hd Hn) as Hcn.
  pose proof (child_ok d m Hd Hm) as Hcm. split.
  - apply (dir_before_trans _ (child d m)); [apply Hcn|apply Hcm|apply Hg|apply Hp|]. apply below_ok_before; [apply Hg|apply Hcm|done].
  - intros Hb2. pose proof (past_below_before _ _ g Hcn Hcm (dir_bytes _ Hg) Hp Hb2) as H.
    apply (cmp_asym _ _ (dir_bytes _ Hg) (dir_bytes _ Hcm) H). apply below_ok_before; [apply Hg|apply Hcm|done].
Qed.

Section Children.
Context (fuel : nat) (d : bytes) (Hd : dir_ok d) (rem2 : list group).
Context (Hsuffix : exists pre, gs0 = pre ++ rem2) (Hafter : forall g, g ∈ rem2 -> before d (fst g)).
Context (IH : forall d parent_dev modified db_modified ha rem st, callable d rem st -> fits os fuel d ->
  fresh d modified db_modified ->
  agrees d rem (full_scan fuel d parent_dev ha (world st)) (scan reads fuel d parent_dev modified db_modified ha st)).

Lemma children_exact es : forall rem q st, sorted_names es -> Forall (fun e => name_ok (e_name e)) es ->
  Forall (fun e => e_is_directory e = true -> fits os fuel (child d (e_name e))) es ->
  Forall (fun e => e_fd e = true -> fresh (child d (e_name e)) (e_dt e) (e_db_modified e)) es ->
  (exists pre, rem2 = pre ++ rem) ->
  (forall e g, e ∈ es -> g ∈ gs0 -> fst g = child d (e_name e) \/ below (child d (e_name e)) (fst g) -> g ∈ rem) ->
  stream (existing_db st) (records rem) err ->
  behind (conf_prunepaths conf) (conf_prunepaths_index st) (Some q) -> path q ->
  (forall e, e ∈ es -> before q (child d (e_name e))) -> (q = d \/ below d q) ->
  agrees d rem
    (subdirectories (fun e w => full_scan fuel (child d (e_name e)) (e_dev e) (e_hash_allowed e) w) es (world st))
    (subdirectories (fun e st => scan reads fuel (path_plus_slash d ++ e_name e) (e_dev e) (e_dt e) (e_db_modified e)
                                   (e_hash_allowed e) st) es st).
Proof.
  induction es as [|e es IHes]; intros rem q st Hs Hn Hfits Hfresh Hrem Hin Hst Hq Hqp Hqb Hqd.
  { cbn. destruct st as [db idx w]. exists db, idx, rem, q. cbn in *. repeat split; auto. by exists []. }
  apply sorted_names_cons in Hs as [Hs Hlt]. inversion Hn as [|? ? Hne Hn']; inversion Hfits as [|? ? Hfe Hfits'];
    inversion Hfresh as [|? ? Hre Hfresh']; subst. cbn [subdirectories].
  assert (Hrest : forall e' g, e' ∈ es -> g ∈ gs0 -> fst g = child d (e_name e') \/ below (child d (e_name e')) (fst g) -> g ∈ rem).
  { intros e' g He'. apply Hin. by right. }
  assert (Hqb' : forall e', e' ∈ es -> before q (child d (e_name e'))) by (intros e' He'; apply Hqb; by right).
  destruct (e_is_directory e) eqn:Edir; cbn [andb]; [|by apply IHes with q].
  destruct (e_fd e) eqn:Efd; [|by apply IHes with q].
  assert (Hcall : callable (child d (e_name e)) rem st).
  { split; [by apply child_ok|]. split; [|split; [done|]].
    - split.
      + destruct Hsuffix as [p1 ->], Hrem as [p2 ->]. exists (p1 ++ p2). by rewrite app_assoc.
      + intros g Hg Hb. destruct Hrem as [p2 E2]. assert (Hg2 : g ∈ rem2) by (rewrite E2, elem_of_app; by right).
        assert (Hgok : group_ok g).
        { destruct Hsuffix as [p1 E1]. apply (group_in gs0 Hgs). rewrite E1, elem_of_app. by right. }
        pose proof (Hafter g Hg2) as Hlt2. destruct (below_of_child (fst g) d (e_name e)) as [E|E]; auto; [apply Hgok| |].
        * rewrite E in Hlt2. by apply before_irrefl in Hlt2.
        * revert E. apply before_not_above; [apply group_dir, Hgok|apply Hd|done].
      + intros g Hg. apply (Hin e); [by left|done].
    - exists (Some q). split; [done|]. intros q' [= <-]. split; [done|]. apply Hqb. by left. }
  specialize (IH (child d (e_name e)) (e_dev e) (e_dt e) (e_db_modified e) (e_hash_allowed e) rem st Hcall (Hfe eq_refl) (Hre eq_refl)).
  change (path_plus_slash d ++ e_name e) with (child d (e_name e)). unfold agrees in IH.
  destruct (full_scan fuel (child d (e_name e)) (e_dev e) (e_hash_allowed e) (world st)) as [w'| |]; [|by rewrite IH|done].
  destruct IH as (db' & idx' & rem' & q' & -> & Hst' & Hrem' & Hkeep & Hq' & Hqp' & Hqd'). cbn [bind_outcome].
  pose proof (child_ok d (e_name e) Hd Hne) as Hce. rewrite Forall_forall in Hn'.
  assert (Hnext : agrees d rem'
    (subdirectories (fun e w => full_scan fuel (child d (e_name e)) (e_dev e) (e_hash_allowed e) w) es (world (STATE db' idx' w')))
    (subdirectories (fun e st => scan reads fuel (path_plus_slash d ++ e_name e) (e_dev e) (e_dt e) (e_db_modified e)
                                   (e_hash_allowed e) st) es (STATE db' idx' w'))).
  { apply IHes with q'; auto.
    - by apply Forall_forall.
    - destruct Hrem as [p1 ->], Hrem' as [p2 ->]. exists (p1 ++ p2). by rewrite app_assoc.
    - intros e' g He' Hg Hg2. apply Hkeep; [by apply (Hrest e')|].
      apply (past_trans d (e_name e) (e_name e')); auto. apply (group_in gs0 Hgs g Hg).
    - intros e' He'. pose proof (sibling_past d _ _ Hd Hne (Hn' e' He') (Hlt e' He')) as Hp.
      destruct Hqd' as [->|Hqd']; [apply Hp|]. apply (past_below_before (child d (e_name e))); auto. by apply child_ok, Hn'.
    - right. destruct Hqd' as [->|Hqd']; [by apply below_child|]. by apply (below_child_trans d (e_name e)). }
  cbn [world] in Hnext. unfold agrees, leaves in *. destruct (subdirectories _ es w') as [w''| |]; [|done..].
  destruct Hnext as (db'' & idx'' & rem'' & q'' & -> & Hst'' & Hrem'' & Hkeep'' & H''). exists db'', idx'', rem'', q''.
  split; [done|]. split; [done|]. split; [|split; [|done]].
  - destruct Hrem' as [p1 ->], Hrem'' as [p2 ->]. exists (p1 ++ p2). by rewrite app_assoc.
  - intros g Hg Hp. assert (Hgok : group_ok g).
    { apply (group_in gs0 Hgs). destruct Hsuffix as [p1 ->], Hrem as [p2 ->]. rewrite !elem_of_app. tauto. }
    apply Hkeep''; [|done]. apply Hkeep; [done|]. apply past_child; auto. apply Hgok.
Qed.

End Children.

(** The entries of [d] are those of the full scan, whether it was read or trusted. *)
Lemma directory_entries_exact d modified db_modified ha dev (db : R) w listed :
  (get_error db = false -> complete old err d) -> fresh d modified db_modified ->
  sorted_names (old_entries old d) -> list_directory os d = Some listed ->
  exists es olds, directory_entries os d modified db_modified (old_entries old d) db = Some (es, olds) /\
    es = map (with_previous (old_entries old d)) listed /\
    process_entries os conf fs_allows_hashing compute_file_hash_at d dev ha es olds w =
    process_entries os conf fs_allows_hashing compute_file_hash_at d dev ha es
      (map (mark (map e_name listed)) (old_entries old d)) w.
Proof.
  intros Herr Hfresh Hold El. destruct (list_directory_spec os d listed Hos El) as [Hl Hnew].
  unfold directory_entries. destruct (_ && (dt_nsec modified =? dt_nsec db_modified)) eqn:E.
  - rewrite !andb_true_iff, negb_true_iff, Z.ltb_lt, !Z.eqb_eq in E. destruct E as [[[E1 E2] E3] E4].
    assert (Emod : modified = db_modified) by (destruct modified, db_modified; cbn in *; congruence).
    destruct (Hfresh E2 Emod (Herr E1)) as (listed' & El' & Hkey). rewrite El in El'. injection El' as <-.
    assert (Hsame : map (with_previous (old_entries old d)) listed = old_entries old d).
    { apply with_previous_same; [done|done| |].
      - intros o Ho. unfold old_entries in Ho. apply list_elem_of_omap in Ho as (r & _ & Ho).
        apply old_entry_spec in Ho as (n & _ & _ & ->). done.
      - eapply Forall_impl; [exact Hnew|]. by intros e [_ He]. }
    exists (old_entries old d), []. split; [done|]. split; [done|]. symmetry. apply process_entries_marked.
    apply Forall_fmap, Forall_forall. intros o Ho. cbn. unfold mark. rewrite decide_True; [done|].
    assert (Hk : key o ∈ map key listed) by (rewrite Hkey; by apply list_elem_of_fmap_2).
    apply list_elem_of_fmap in Hk as (e & Ek & He). injection Ek as -> _. by apply list_elem_of_fmap_2.
  - rewrite El. cbn. rewrite load_previous_spec by done. by eexists _, _.
Qed.

Lemma directory_entries_none d modified db_modified (db : R) :
  (get_error db = false -> complete old err d) -> fresh d modified db_modified -> list_directory os d = None ->
  directory_entries os d modified db_modified (old_entries old d) db = None.
Proof.
  intros Herr Hfresh El. unfold directory_entries. destruct (_ && (dt_nsec modified =? dt_nsec db_modified)) eqn:E.
  - rewrite !andb_true_iff, negb_true_iff, Z.ltb_lt, !Z.eqb_eq in E. destruct E as [[[F1 F2] F3] F4].
    assert (Emod : modified = db_modified) by (destruct modified, db_modified; cbn in *; congruence).
    destruct (Hfresh F2 Emod (Herr F1)) as (listed & El' & _). congruence.
  - by rewrite El.
Qed.

(** The entries after processing are those of the directory, in order. *)
Lemma entries_ready fuel d dev ha listed olds w es' w' : fits os (S fuel) d -> list_directory os d = Some listed ->
  process_entries os conf fs_allows_hashing compute_file_hash_at d dev ha
    (map (with_previous (old_entries old d)) listed) olds w = Done (es', w') ->
  sorted_names es' /\ Forall (fun e => name_ok (e_name e)) es' /\
  Forall (fun e => e_is_directory e = true -> fits os fuel (child d (e_name e))) es' /\
  Forall (fun e => e_fd e = true -> fresh (child d (e_name e)) (e_dt e) (e_db_modified e)) es'.
Proof.
  intros Hfits El Ep. apply process_entries_after in Ep. destruct (list_directory_spec os d listed Hos El) as [Hl Hnew].
  pose proof (entries_keys _ _ _ _ Ep) as Hkey.
  pose proof (keys_names _ _ Hkey) as Hnames.
  assert (Hfrom : forall e', e' ∈ es' -> exists l, l ∈ listed /\ e_name e' = e_name l /\ e_is_directory e' = e_is_directory l).
  { intros e' He'. apply (list_elem_of_fmap_2 key) in He'. change (key <$> es') with (map key es') in He'. rewrite Hkey in He'.
    apply list_elem_of_fmap in He' as (l & E & Hlin). injection E as En Ed. by exists l. }
  split; [unfold sorted_names; by rewrite Hnames|]. rewrite Forall_forall in Hnew.
  split; [|split]; apply Forall_forall; intros e' He'.
  - destruct (Hfrom e' He') as (l & Hlin & -> & _). by apply Hnew.
  - destruct (Hfrom e' He') as (l & Hlin & -> & ->). by apply (Hfits listed).
  - intros Hfd. eapply child_fresh; [exact Ep|reflexivity| |done|done].
    apply Forall_forall. intros l Hlin. by apply Hnew.
Qed.

Lemma scan_agrees fuel : forall d parent_dev modified db_modified ha rem st, callable d rem st -> fits os fuel d ->
  fresh d modified db_modified ->
  agrees d rem (full_scan fuel d parent_dev ha (world st)) (scan reads fuel d parent_dev modified db_modified ha st).
Proof.
  induction fuel as [|fuel IH]; intros d parent_dev modified db_modified ha rem st (Hd & Hready & Hst & q & Hq & Hqd) Hfits Hfresh;
    [done|]. destruct st as [db idx w]. cbn [existing_db conf_prunepaths_index world] in *.
  cbn [ScanExact.full_scan Scan.scan]. cbn [existing_db conf_prunepaths_index world].
  destruct (contains_spec (conf_prunepaths conf) idx q d Hprune (dir_bytes _ Hd) Hqd Hsort Hq) as (idx' & -> & Hq').
  assert (Hskip : leaves d rem w (Done (STATE db idx' w))).
  { exists db, idx', rem, d. repeat split; auto; [by exists []|apply Hd]. }
  destruct (decide (d ∈ conf_prunepaths conf)) as [Hp|Hp]; [by rewrite bool_decide_eq_true_2|].
  rewrite bool_decide_eq_false_2 by done. destruct (conf_prune_bind_mounts conf && is_bind_mount d); [done|].
  pose proof Hreads as Hreads'. rewrite Eold in Hreads'.
  destruct (read_stage stream gs0 Hgs err d rem db reads Hd Hready Hst Hreads')
    as (db1 & db2 & rem2 & E1 & E2 & Hst2 & Herr & Hold & [pre Hsuf] & Hafter & Hkeep).
  rewrite <- Eold in *. cbn [mbind option_bind]. rewrite E1. cbn [mbind option_bind]. rewrite E2.
  assert (Hkeep' : forall g, g ∈ rem -> past d (fst g) -> g ∈ rem2) by (intros g Hg Hpast; by apply Hkeep, Hpast).
  destruct (list_directory os d) as [listed|] eqn:El.
  2:{ rewrite directory_entries_none by done. exists db2, idx', rem2, d. repeat split; auto; [by exists pre|apply Hd]. }
  destruct (directory_entries_exact d modified db_modified ha parent_dev db2 w listed Herr Hfresh Hold El)
    as (es & olds & -> & -> & Eproc). cbn [world]. rewrite Eproc. clear Eproc olds.
  pose proof (process_entries_not_fuel d parent_dev ha
                (map (with_previous (old_entries old d)) listed) (map (mark (map e_name listed)) (old_entries old d)) w) as Hnf.
  destruct (process_entries _ _ _ _ _ _ _ _ _ _) as [[es' w']| |] eqn:Ep; [|exact eq_refl|done]. cbn [bind_outcome].
  destruct (entries_ready fuel d parent_dev ha listed _ w es' w' Hfits El Ep) as (Hs & Hn & Hf & Hfr).
  destruct Hready as [[pre0 E0] Habove Hin]. rewrite Forall_forall in Hn.
  assert (Hsuf2 : exists pre, gs0 = pre ++ rem2) by (rewrite E0, Hsuf; eexists; by rewrite app_assoc).
  assert (Hc : agrees d rem2
    (subdirectories (fun e w => full_scan fuel (child d (e_name e)) (e_dev e) (e_hash_allowed e) w) es' w')
    (subdirectories (fun e st => scan reads fuel (path_plus_slash d ++ e_name e) (e_dev e) (e_dt e) (e_db_modified e)
                                   (e_hash_allowed e) st) es' (STATE db2 idx' w'))).
  { apply (children_exact fuel d Hd rem2 Hsuf2 Hafter IH es' rem2 d (STATE db2 idx' w') Hs); auto.
    - by apply Forall_forall.
    - by exists [].
    - intros e g He Hg Hin2. assert (Hgok : group_ok g) by apply (group_in gs0 Hgs g Hg). specialize (Hn e He).
      assert (Hb : below d (fst g)) by (destruct Hin2 as [->|]; [by apply below_child|by apply (below_child_trans d (e_name e))]).
      apply Hkeep; [apply Hin; auto|]. apply below_ok_before; [apply group_dir, Hgok|apply Hd|done].
    - apply Hd.
    - intros e He. by apply child_after, Hn. }
  unfold agrees, leaves in *. destruct (subdirectories _ es' w') as [w''| |]; [|done..].
  destruct Hc as (db3 & idx3 & rem3 & q3 & -> & Hst3 & [p3 E3] & Hkeep3 & H3). exists db3, idx3, rem3, q3.
  split; [done|]. split; [done|]. split; [|split; [|done]].
  - rewrite Hsuf, E3. eexists. by rewrite app_assoc.
  - intros g Hg Hpast. apply Hkeep3; [by apply Hkeep'|done].
Qed.

End Exact.
