(* ===== verification/ScanRuns.v ===== *)
(** * Runs of updatedb: what they store and what the next run can rely on

    The scan is the full scan; what it stores is in the order that the next scan
    needs of its old database; nothing below a pruned directory is stored. *)
From S2P Require Import Prelude Text Metadata FileStat DirPath Conf RecordReader Scan ScanOrder ScanExact.

(** ** What a full scan adds *)

Section Output.
Context (os : OS) (conf : Config) (is_bind_mount fs_allows_hashing : bytes -> bool)
  (compute_file_hash_at : bytes -> bytes -> MetadataHashKind -> option MetadataHash) (old : list FileRecord).
Context (Hos : readdir_ok os).

Lemma check_time_added t w : added (snd (check_time os t w)) = added w.
Proof. unfold check_time. by destruct (History.time_is_current _ _ _). Qed.

Lemma dirtime_added buf w : added (snd (get_dirtime_from_stat os buf w)) = added w.
Proof.
  unfold get_dirtime_from_stat. pose proof (check_time_added (stat_dirtime buf) w) as H. unfold stat_dirtime in H.
  by destruct (check_time os _ w).
Qed.

Lemma event_added kind p m n w : added (record_history_event os kind p m n w) = added w.
Proof. unfold record_history_event. by destruct (history_events w). Qed.

Lemma stat_entry_added d ha e w : added (snd (stat_entry os conf compute_file_hash_at d ha e w)) = added w.
Proof.
  unfold stat_entry. destruct (os_fstatat os d (e_name e)) as [sb|]; [|done].
  pose proof (dirtime_added sb w) as H. destruct (S_ISDIR (st_mode sb)).
  - destruct (get_dirtime_from_stat os sb w) as [dt w2]. cbn [snd] in *.
    destruct (negb _); [by rewrite event_added|]. destruct (negb _); [by rewrite event_added|done].
  - cbn [snd]. destruct (negb _); [by rewrite event_added|]. destruct (negb _); [by rewrite event_added|done].
Qed.

Lemma stat_entries_added d ha es : forall w,
  added (snd (stat_entries os conf compute_file_hash_at d ha es w)) = added w.
Proof.
  induction es as [|e es IH]; intros w; [done|]. cbn. pose proof (stat_entry_added d ha e w) as H.
  destruct (stat_entry os conf compute_file_hash_at d ha e w) as [e2 w2]. specialize (IH w2).
  destruct (stat_entries os conf compute_file_hash_at d ha es w2) as [es2 w3]. cbn in *. congruence.
Qed.

Lemma open_entry_added d dev ha e w e' w' :
  open_entry os conf fs_allows_hashing d dev ha e w = Done (e', w') -> added w' = added w /\
  (e_fd e' = true -> e_fd e = true \/ e_name e ∉ conf_prunenames conf).
Proof.
  unfold open_entry. destruct (negb (e_is_directory e)); [intros [= <- <-]; cbn; tauto|].
  case_decide as Hp; [intros [= <- <-]; tauto|]. unfold opendir_noatime.
  set (o := if negb (noatime_failed w) then _ else _).
  assert (Ho : added (snd o) = added w).
  { unfold o. destruct (noatime_failed w); [done|]. cbn. destruct (os_openat os _ true); [|done]. by destruct (_ =? _). }
  destruct o as [[errno|] w2]; cbn in Ho.
  { destruct (_ || _); [done|]. intros [= <- <-]. tauto. }
  destruct (os_fstat os _) as [buf|].
  2:{ destruct (filesystem_is_excluded os conf _); [|done]. intros [= <- <-]. tauto. }
  destruct (_ && _); [intros [= <- <-]; cbn; tauto|]. pose proof (dirtime_added buf w2) as H.
  destruct (get_dirtime_from_stat os buf w2) as [dt w3]. intros [= <- <-]. cbn in *. split; [congruence|tauto].
Qed.

Lemma open_entries_added d dev ha es : forall w es' w',
  open_entries os conf fs_allows_hashing d dev ha es w = Done (es', w') -> added w' = added w /\
  Forall2 (fun e e' => e_fd e' = true -> e_fd e = true \/ e_name e ∉ conf_prunenames conf) es es'.
Proof.
  induction es as [|e es IH]; intros w es' w'; cbn; [by intros [= <- <-]|].
  destruct (open_entry os conf fs_allows_hashing d dev ha e w) as [[e2 w2]| |] eqn:E; try done. cbn.
  destruct (open_entries os conf fs_allows_hashing d dev ha es w2) as [[es2 w3]| |] eqn:E2; try done.
  intros [= <- <-]. apply open_entry_added in E as [E ?]. apply IH in E2 as [E2 ?]. split; [congruence|by constructor].
Qed.

Lemma process_entries_added d dev ha es olds w es' w' :
  process_entries os conf fs_allows_hashing compute_file_hash_at d dev ha es olds w = Done (es', w') ->
  added w' = added w ++ map (entry_record d) es' /\
  Forall2 (fun e e' => e_fd e' = true -> e_fd e = true \/ e_name e ∉ conf_prunenames conf) es es'.
Proof.
  unfold process_entries. pose proof (stat_entries_added d ha es w) as H1.
  destruct (stat_entries os conf compute_file_hash_at d ha es w) as [es1 w1] eqn:E1. cbn in H1.
  destruct (open_entries os conf fs_allows_hashing d dev ha es1 w1) as [[es2 w2]| |] eqn:E2; try done. cbn.
  intros [= <- <-]. apply open_entries_added in E2 as [H2 F2]. split.
  - assert (H3 : added (fold_left (record_removed os d) olds w2) = added w2).
    { clear. revert w2. induction olds as [|o olds IH]; intros w2; [done|]. cbn. rewrite IH. unfold record_removed.
      destruct (e_matched_in_new_scan o); [done|]. by rewrite event_added. }
    rewrite <- H1, <- H2, <- H3. generalize (fold_left (record_removed os d) olds w2) as w4. clear.
    induction es2 as [|e es IH]; intros w4; cbn; [by rewrite app_nil_r|]. rewrite IH. cbn. by rewrite <- app_assoc.
  - clear -E1 F2. revert w es1 w1 E1 es2 F2. induction es as [|e es IH]; intros w es1 w1 E1 es2 F2; cbn in E1.
    { injection E1 as <- <-. inversion F2. constructor. }
    destruct (stat_entry os conf compute_file_hash_at d ha e w) as [e2 w2] eqn:E.
    destruct (stat_entries os conf compute_file_hash_at d ha es w2) as [es3 w3] eqn:E3. injection E1 as <- <-.
    inversion F2 as [|? e4 ? es4 H4 F4]; subst. constructor; [|by apply (IH w2 es3 w3)].
    apply stat_entry_after in E as (En & _ & _ & Efd). rewrite En, Efd in H4. done.
Qed.

(** The groups of a subtree. *)
Definition inside (d : bytes) (gs : list group) : Prop := forall g, g ∈ gs -> fst g = d \/ below d (fst g).

(** Neither a pruned path in the subtree of [d] nor a pruned name is entered. *)
Definition unpruned (d g : bytes) : Prop :=
  (forall p, p ∈ conf_prunepaths conf -> dir_ok p -> p = d \/ below d p -> g <> p /\ ~ below p g) /\
  (forall e n, dir_ok e -> name_ok n -> n ∈ conf_prunenames conf -> e = d \/ below d e ->
     g <> child e n /\ ~ below (child e n) g).

(** Two directories above the same path are one above the other. *)
Lemma below_comparable p c g : dir_ok p -> dir_ok c -> below p g -> below c g -> p = c \/ below p c \/ below c p.
Proof.
  intros Hp Hc (s & _ & Es) (t & _ & Et). rewrite Es in Et.
  assert (H : forall a b s t, dir_ok a -> dir_ok b -> path_plus_slash a ++ s = path_plus_slash b ++ t ->
    (exists k, path_plus_slash b = path_plus_slash a ++ k) -> a = b \/ below a b).
  { clear. intros a b s t Ha Hb _ [k Ek]. destruct k as [|x k _] using rev_ind.
    { left. rewrite app_nil_r in Ek. by apply path_plus_slash_inj. }
    unfold path_plus_slash in Ek at 1. case_decide as El.
    - rewrite (dir_slash _ Hb) in Ek by done. destruct (path_plus_slash_end a) as [a' Ea]. rewrite Ea in Ek.
      destruct a' as [|? a']; [|by destruct a']. destruct k; discriminate.
    - rewrite app_assoc in Ek. apply app_inj_tail in Ek as [Ek _]. destruct k as [|y k].
      + rewrite app_nil_r in Ek. rewrite Ek in El. by rewrite path_plus_slash_last in El.
      + right. by exists (y :: k). }
  apply app_eq_inv in Et as Et'. destruct Et' as [(k & E1 & E2)|(k & E1 & E2)].
  - destruct (H c p t s Hc Hp (eq_sym Et)) as [->|Hb]; [by exists k|by left|tauto].
  - destruct (H p c s t Hp Hc Et) as [->|Hb]; [by exists k|by left|tauto].
Qed.

Lemma below_asym a b : dir_ok a -> dir_ok b -> below a b -> a <> b /\ ~ below b a.
Proof.
  intros Ha Hb H. apply below_ok_before in H; [|apply Hb|apply Ha]. split.
  - intros ->. by apply before_irrefl in H.
  - by apply before_not_above; [apply Hb|apply Ha|].
Qed.

Lemma below_trans a b c : dir_ok a -> dir_ok b -> below a b -> below b c -> below a c.
Proof.
  intros Ha Hb (s & Hs & ->) (t & Ht & ->). destruct (path_plus_slash_prefix (path_plus_slash a ++ s)) as [k ->].
  exists (s ++ k ++ t). split; [by destruct s|]. by rewrite !app_assoc.
Qed.

#[local] Instance below_dec g d : Decision (below g d).
Proof.
  destruct (strip_prefix (path_plus_slash g) d) as [s|] eqn:E.
  - apply strip_prefix_spec in E. destruct (decide (s = [])) as [->|Hs]; [right|left; by exists s].
    intros (t & Ht & E2). rewrite E in E2. apply app_inv_head in E2. by subst.
  - right. intros (s & _ & E2). apply strip_prefix_spec in E2. congruence.
Defined.

(** Nothing in the subtree of one entry lies in a subtree outside of it. *)
Lemma outside d n x g : dir_ok d -> name_ok n -> dir_ok x -> dir_ok g -> below d x ->
  ~ (x = child d n \/ below (child d n) x) -> g = child d n \/ below (child d n) g -> g <> x /\ ~ below x g.
Proof.
  intros Hd Hn Hx Hg Hdx Hout Hin. pose proof (child_ok d n Hd Hn) as Hc. split; [by intros ->|]. intros Hxg.
  assert (Hxc : ~ below x (child d n)).
  { intros H. destruct (below_asym d x Hd Hx Hdx) as [Hne Hnb].
    destruct (below_of_child x d n Hd Hx Hn H) as [->|H2]; [done|]. done. }
  destruct Hin as [->|Hin]; [done|].
  destruct (below_comparable x (child d n) g Hx Hc Hxg Hin) as [->|[H|H]]; [apply Hout; by left|done|].
  apply Hout. by right.
Qed.

Lemma unpruned_self d : dir_ok d -> d ∉ conf_prunepaths conf -> unpruned d d.
Proof.
  intros Hd Hnp. split.
  - intros p Hp Hpo [->|Hb]; [done|]. by apply below_asym.
  - intros e n He Hn _ Hde. assert (Hb : below d (child e n)).
    { destruct Hde as [->|Hde]; [by apply below_child|]. apply (below_trans d e); auto. by apply below_child. }
    apply below_asym; auto. by apply child_ok.
Qed.

Lemma unpruned_child d n g : dir_ok d -> name_ok n -> dir_ok g -> d ∉ conf_prunepaths conf -> n ∉ conf_prunenames conf ->
  g = child d n \/ below (child d n) g -> unpruned (child d n) g -> unpruned d g.
Proof.
  intros Hd Hn Hg Hnp Hnn Hin [H1 H2]. pose proof (child_ok d n Hd Hn) as Hc. split.
  - intros p Hp Hpo [->|Hb]; [done|]. destruct (decide (p = child d n \/ below (child d n) p)) as [Hc2|Hc2]; [by apply H1|].
    by apply (outside d n).
  - intros e m He Hm Hmn Hde. assert (Hb : below d (child e m)).
    { destruct Hde as [->|Hde]; [by apply below_child|]. apply (below_trans d e); auto. by apply below_child. }
    destruct (decide (e = child d n \/ below (child d n) e)) as [Hc2|Hc2]; [by apply H2|].
    apply (outside d n); auto; [by apply child_ok|]. intros [E|E].
    + apply child_inj in E as [_ ->]; [done|done|done|apply Hm|apply Hn].
    + apply Hc2. destruct (below_of_child (child d n) e m He Hc Hm E) as [->|]; [by left|by right].
Qed.

(** ** The groups that a full scan adds *)

Definition adds (d : bytes) (w w' : World) : Prop := exists gs, added w' = added w ++ records gs /\ groups_ok gs /\
  forall g, g ∈ gs -> (fst g = d \/ below d (fst g)) /\ unpruned d (fst g).

Lemma children_add d scan_one es : dir_ok d -> d ∉ conf_prunepaths conf -> sorted_names es ->
  Forall (fun e => name_ok (e_name e)) es -> Forall (fun e => e_fd e = true -> e_name e ∉ conf_prunenames conf) es ->
  (forall e w w', e ∈ es -> scan_one e w = Done w' -> adds (child d (e_name e)) w w') ->
  forall w w', subdirectories scan_one es w = Done w' ->
  exists gs, added w' = added w ++ records gs /\ groups_ok gs /\
    forall g, g ∈ gs -> unpruned d (fst g) /\ exists e, e ∈ es /\ (fst g = child d (e_name e) \/ below (child d (e_name e)) (fst g)).
Proof.
  intros Hd Hnp. induction es as [|e es IH]; intros Hs Hn Hpn Hone w w' Hw.
  { injection Hw as <-. exists []. split; [by rewrite app_nil_r|]. split; [by repeat constructor|].
    intros g Hg. by apply not_elem_of_nil in Hg. }
  apply sorted_names_cons in Hs as [Hs Hlt]. inversion Hn as [|? ? Hne Hn']; inversion Hpn as [|? ? Hpe Hpn']; subst.
  assert (Hskip : forall w, subdirectories scan_one es w = Done w' ->
    exists gs, added w' = added w ++ records gs /\ groups_ok gs /\
    forall g, g ∈ gs -> unpruned d (fst g) /\ exists e', e' ∈ es /\
      (fst g = child d (e_name e') \/ below (child d (e_name e')) (fst g))).
  { intros w1 Hw1. apply IH; auto. intros e' w2 w2' He'. apply Hone. by right. }
  cbn in Hw. destruct (e_is_directory e && e_fd e) eqn:Ee.
  2:{ destruct (Hskip w Hw) as (gs & Ea & Hok & Hgs). exists gs. split; [done|]. split; [done|]. intros g Hg.
      destruct (Hgs g Hg) as [Hu (e' & He' & Hin)]. split; [done|]. exists e'. split; [by right|done]. }
  apply andb_true_iff in Ee as [_ Efd]. destruct (scan_one e w) as [w1| |] eqn:E1; try done. cbn in Hw.
  destruct (Hone e w w1 ltac:(by left) E1) as (gs1 & Ea1 & [F1 S1] & H1).
  destruct (Hskip w1 Hw) as (gs2 & Ea2 & [F2 S2] & H2). exists (gs1 ++ gs2).
  pose proof F1 as F1'. pose proof F2 as F2'. rewrite Forall_forall in F1', F2'. rewrite Forall_forall in Hn'.
  pose proof (child_ok d (e_name e) Hd Hne) as Hc. split; [by rewrite Ea2, Ea1, records_app, app_assoc|]. split.
  - split; [by apply Forall_app|]. apply StronglySorted_app_2; [|done|done]. intros g1 g2 Hg1 Hg2.
    destruct (H1 g1 Hg1) as [Hin1 _], (H2 g2 Hg2) as [_ (e' & He' & Hin2)].
    pose proof (past_trans d (e_name e) (e_name e') (fst g2) Hd Hne (Hn' e' He') (group_dir _ (F2' g2 Hg2)) (Hlt e' He') Hin2) as Hp.
    destruct Hin1 as [->|Hin1]; [apply Hp|].
    apply (past_below_before (child d (e_name e))); auto; [apply F2', Hg2|apply group_dir, F1', Hg1].
  - intros g Hg. apply elem_of_app in Hg as [Hg|Hg].
    + destruct (H1 g Hg) as [Hin Hu]. split; [|exists e; split; [by left|done]].
      apply (unpruned_child d (e_name e)); auto. apply F1', Hg.
    + destruct (H2 g Hg) as [Hu (e' & He' & Hin)]. split; [done|]. exists e'. split; [by right|done].
Qed.

Lemma own_group_ok d es : dir_ok d -> sorted_names es -> Forall (fun e => name_ok (e_name e)) es -> es <> [] ->
  group_ok (d, map (entry_record d) es).
Proof.
  intros Hd Hs Hn Hne. split; cbn; [done| | |by destruct es].
  - apply Forall_fmap. eapply Forall_impl; [exact Hn|]. intros e He. by exists (e_name e).
  - clear Hne Hn. induction es as [|e es IH]; cbn; [constructor|]. apply sorted_names_cons in Hs as [Hs Hlt].
    constructor; [by apply IH|]. apply Forall_fmap, Forall_forall. intros x Hx. cbn. specialize (Hlt x Hx).
    induction (path_plus_slash d) as [|c p IHp]; [done|]. cbn [app]. apply bytes_lt_spec. by right.
Qed.

Lemma full_scan_adds fuel : forall d dev ha w w', dir_ok d ->
  full_scan os conf is_bind_mount fs_allows_hashing compute_file_hash_at old fuel d dev ha w = Done w' -> adds d w w'.
Proof.
  induction fuel as [|fuel IH]; intros d dev ha w w' Hd Hw; [done|]. cbn in Hw.
  assert (Hnone : adds d w w).
  { exists []. split; [by rewrite app_nil_r|]. split; [by repeat constructor|]. intros g Hg. by apply not_elem_of_nil in Hg. }
  case_decide as Hnp; [by injection Hw as <-|]. destruct (_ && _); [by injection Hw as <-|].
  destruct (list_directory os d) as [listed|] eqn:El; [|by injection Hw as <-].
  destruct (process_entries _ _ _ _ _ _ _ _ _ _) as [[es' w1]| |] eqn:Ep; try done. cbn in Hw.
  destruct (list_directory_spec os d listed Hos El) as [Hl Hnew].
  apply (process_entries_after os conf is_bind_mount) in Ep as Fa. apply process_entries_added in Ep as [Ea Fp].
  pose proof (keys_names _ _ (entries_keys _ _ _ _ _ Fa)) as Hnames.
  assert (Hs : sorted_names es') by (unfold sorted_names; by rewrite Hnames).
  assert (Hn : Forall (fun e => name_ok (e_name e)) es').
  { apply (Forall_fmap e_name name_ok). change (e_name <$> es') with (map e_name es'). rewrite Hnames. apply Forall_fmap.
    eapply Forall_impl; [exact Hnew|]. by intros e [He _]. }
  assert (Hpn : Forall (fun e => e_fd e = true -> e_name e ∉ conf_prunenames conf) es').
  { apply Forall_forall. intros e' He' Hfd. apply list_elem_of_lookup in He' as [i Hi].
    destruct (Forall2_lookup_r _ _ _ _ _ Fp Hi) as (e & He & Hp). destruct (Forall2_lookup_r _ _ _ _ _ Fa Hi) as (e2 & He2 & En & _).
    rewrite He in He2. injection He2 as <-. rewrite En. destruct (Hp Hfd) as [Hf|]; [|done].
    apply list_elem_of_lookup_2, list_elem_of_fmap in He as (l & -> & Hlin). rewrite Forall_forall in Hnew.
    destruct (Hnew l Hlin) as [_ El2]. unfold with_previous in Hf. destruct (find _ _); rewrite El2 in Hf; done. }
  eapply children_add in Hw as (gs & Eg & [Fg Sg] & Hg); [|exact Hd|done..|].
  2:{ intros e w2 w2' He. apply IH. apply child_ok; [done|]. rewrite Forall_forall in Hn. by apply Hn. }
  assert (Hbelow : forall g, g ∈ gs -> dir_ok (fst g) /\ below d (fst g)).
  { intros g Hg'. rewrite Forall_forall in Fg. rewrite Forall_forall in Hn. split; [apply Fg, Hg'|]. destruct (Hg g Hg') as [_ (e & He & [->|Hb])].
    - by apply below_child, Hn.
    - by apply (below_child_trans d (e_name e)); [apply Hn|]. }
  destruct (decide (es' = [])) as [->|Hne].
  { exists gs. rewrite Eg, Ea. cbn. rewrite app_nil_r. split; [done|]. split; [by split|]. intros g Hg'.
    split; [right; by apply Hbelow|by apply Hg]. }
  exists ((d, map (entry_record d) es') :: gs). split.
  { rewrite Eg, Ea. unfold records. cbn [map concat fst snd]. by rewrite app_assoc. }
  split.
  - split; [constructor; [by apply own_group_ok|done]|]. constructor; [done|]. apply Forall_forall. intros g Hg'. cbn.
    destruct (Hbelow g Hg') as [Hgo Hb]. apply below_ok_before; [apply Hgo|apply Hd|done].
  - intros g Hg'. apply elem_of_cons in Hg' as [->|Hg']; cbn.
    + split; [by left|by apply unpruned_self].
    + split; [right; by apply Hbelow|by apply Hg].
Qed.

End Output.

(** ** The scan against the full scan *)

(** An old database of the tree below [root], in the order in which updatedb
    writes it. *)
Definition grouped_below (root : bytes) (old : list FileRecord) : Prop :=
  exists gs, old = records gs /\ groups_ok gs /\ forall g, g ∈ gs -> fst g = root \/ below root (fst g).

(** What a run starts from: the file system, the sorted pruned paths, and an old
    database of which the reader delivers the records [old], up to an error or
    the end. *)
Record run_setting {R} `{!RecordReader R} (stream : R -> list FileRecord -> bool -> Prop) (os : OS) (conf : Config)
    (old : list FileRecord) (err : bool) (db : R) (reads fuel : nat) (root : bytes) : Prop := {
  run_readdir : readdir_ok os;
  run_timestamps : timestamps_ok os old err;
  run_grouped : grouped_below root old;
  run_prunepaths : Forall path (conf_prunepaths conf);
  run_sorted : StronglySorted dir_path_le (conf_prunepaths conf);
  run_stream : stream db old err;
  run_reads : (length old < reads)%nat;
  run_root : dir_ok root;
  run_fits : fits os fuel root
}.

Section Runs.
Context (os : OS) (conf : Config) (is_bind_mount fs_allows_hashing : bytes -> bool)
  (compute_file_hash_at : bytes -> bytes -> MetadataHashKind -> option MetadataHash).
Context {R : Type} `{!RecordReader R} (stream : R -> list FileRecord -> bool -> Prop) `{!RecordStream R stream}.

Abbreviation scan := (scan os conf is_bind_mount fs_allows_hashing compute_file_hash_at).
Abbreviation full_scan := (full_scan os conf is_bind_mount fs_allows_hashing compute_file_hash_at).

Lemma scan_is_full_scan old err db reads fuel root dev modified ha w :
  run_setting stream os conf old err db reads fuel root ->
  match full_scan old fuel root dev ha w with
  | Done w' => exists db' idx',
      scan reads fuel root dev modified unknown_dir_time ha (STATE db 0 w) = Done (STATE db' idx' w') /\
      exists unread_records, stream db' unread_records err
  | Exit1 => scan reads fuel root dev modified unknown_dir_time ha (STATE db 0 w) = Exit1
  | OutOfFuel => False
  end.
Proof.
  intros [Hos Htime (gs & -> & Hgs & Hin) Hp Hsort Hst Hreads Hroot Hfits].
  pose proof (scan_agrees os conf is_bind_mount fs_allows_hashing compute_file_hash_at (records gs) err Hos Htime stream gs
    Hgs eq_refl Hp Hsort reads Hreads fuel root dev modified unknown_dir_time ha gs (STATE db 0 w)) as H.
  unfold agrees, leaves in H. cbn [world] in H.
  assert (Hc : callable conf err stream gs root gs (STATE db 0 w)).
  { split; [done|]. split; [split|split].
    - by exists [].
    - intros g Hg Hb. pose proof (group_dir _ (group_in gs Hgs g Hg)) as Hgo.
      destruct (Hin g Hg) as [E|E].
      + rewrite E in Hb. apply (below_asym root root Hroot Hroot Hb). done.
      + by apply (below_asym root (fst g) Hroot Hgo E).
    - done.
    - done.
    - exists None. split; [|done]. intros i e Hi. cbn in Hi. lia. }
  specialize (H Hc Hfits). destruct (full_scan (records gs) fuel root dev ha w) as [w'| |].
  - destruct H as (db' & idx' & rem' & _ & E & Hs & _); [by intros ? |]. exists db', idx'. split; [done|]. by exists (records rem').
  - by apply H.
  - by apply H.
Qed.

(** C10. The incremental scan has the outcome of the full scan: one forward pass
    over the old database, trusted for the directories whose timestamp has not
    changed, gives the records and the history that reading every directory and
    looking every entry up by its path would give; the order in which the pruned
    paths are asked for does not matter.  It terminates, also when the old
    database breaks off with an error.  It is assumed that the timestamps can be trusted
    ([timestamps_ok]): a directory that still has the timestamp of its record has the
    names and types that are recorded, which fails for a directory that could not be opened
    by the last run (see [unopened_directory_stays_empty]); and that the old records are of the same tree, in
    the order in which updatedb writes them ([grouped_below]; for another root see
    [other_root_all_added]).  The rest of [run_setting]: [readdir] names no entry twice,
    the pruned paths are sorted, and the fuel covers the records and the depth of the
    tree. *)
Theorem incremental_scan_exact old err db reads fuel root dev modified ha w :
  run_setting stream os conf old err db reads fuel root ->
  full_scan old fuel root dev ha w <> OutOfFuel /\
  exists db' idx', scan reads fuel root dev modified unknown_dir_time ha (STATE db 0 w) =
    match full_scan old fuel root dev ha w with
    | Done w' => Done (STATE db' idx' w') | Exit1 => Exit1 | OutOfFuel => OutOfFuel
    end.
Proof.
  intros H. apply (scan_is_full_scan old err db reads fuel root dev modified ha w) in H.
  destruct (full_scan old fuel root dev ha w) as [w'| |]; [|by split; [|exists db, 0%nat]|done].
  destruct H as (db' & idx' & -> & _). split; [done|]. by exists db', idx'.
Qed.

(** C11. What a run stores is in the order that the next run needs of its old
    database: directory after directory, each with its entries by name. *)
Theorem scan_output_grouped old err db reads fuel root dev modified ha w st :
  run_setting stream os conf old err db reads fuel root -> added w = [] ->
  scan reads fuel root dev modified unknown_dir_time ha (STATE db 0 w) = Done st ->
  grouped_below root (added (world st)).
Proof.
  intros H Hw Hst. pose proof (scan_is_full_scan old err db reads fuel root dev modified ha w H) as Hs.
  destruct (full_scan old fuel root dev ha w) as [w'| |] eqn:E; [|congruence|done].
  destruct Hs as (db' & idx' & Es & _). rewrite Es in Hst. injection Hst as <-.
  apply full_scan_adds in E as (gs & Ea & Hgs & Hin); [|apply H|apply H]. rewrite Hw in Ea.
  exists gs. split; [done|]. split; [done|]. intros g Hg. by apply Hin.
Qed.

(** C12. Pruning holds for whole subtrees: every record that a run stores names an
    entry of a directory in the scanned tree that is neither a pruned path nor
    below one, and neither has a pruned name nor lies below a directory with
    one. *)
Theorem pruned_never_recorded old err db reads fuel root dev modified ha w st r :
  run_setting stream os conf old err db reads fuel root ->
  scan reads fuel root dev modified unknown_dir_time ha (STATE db 0 w) = Done st ->
  r ∈ added (world st) -> r ∈ added w \/
  exists d n, name_ok n /\ fr_path r = child d n /\ (d = root \/ below root d) /\
    (forall p, p ∈ conf_prunepaths conf -> dir_ok p -> p = root \/ below root p -> d <> p /\ ~ below p d) /\
    (forall e m, dir_ok e -> name_ok m -> m ∈ conf_prunenames conf -> e = root \/ below root e ->
       d <> child e m /\ ~ below (child e m) d).
Proof.
  intros H Hst Hr. pose proof (scan_is_full_scan old err db reads fuel root dev modified ha w H) as Hs.
  destruct (full_scan old fuel root dev ha w) as [w'| |] eqn:E; [|congruence|done].
  destruct Hs as (db' & idx' & Es & _). rewrite Es in Hst. injection Hst as <-. cbn [world] in Hr.
  apply full_scan_adds in E as (gs & Ea & Hgs & Hin); [|apply H|apply H]. rewrite Ea in Hr.
  apply elem_of_app in Hr as [Hr|Hr]; [by left|]. right. apply elem_of_records in Hr as (g & Hg & Hr).
  destruct (group_record g r (group_in gs Hgs g Hg) Hr) as (n & Hn & En), (Hin g Hg) as [Hi [Hu1 Hu2]].
  exists (fst g), n. auto.
Qed.

End Runs.

(** ** A run *)

Definition str : string -> bytes := bytes_of_string.

Definition dir_stat : Stat := STAT 16877 0 0 4096 (DirTime 100 5) (DirTime 90 0) (DirTime 120 0) 1.
Definition file_stat : Stat := STAT 33188 0 0 7 (DirTime 50 0) (DirTime 60 0) (DirTime 70 0) 1.

(** [/d] with the file [x], and the file [/f]. *)
Definition sample_os : OS := {|
  os_openat _ _ := None;
  os_readdir p :=
    if decide (p = str "/") then Some [(str "f", 8); (str ".", 4); (str "d", 4)]
    else if decide (p = str "/d") then Some [(str "x", 8)] else None;
  os_fstatat _ n := Some (if decide (n = str "d") then dir_stat else file_stat);
  os_fstat p := if decide (p = str "/d") then Some dir_stat else None;
  os_mounts := None;
  os_gettimeofday _ := (5000, 0);
  os_clock_gettime _ := DirTime 5000 1
|}.

Definition sample_world : World := WORLD 0 unknown_dir_time false [] (Some []).

Definition sample_groups : list group :=
  [(str "/", [Record_ (str "/d") (DirTime 100 5) (metadata_from_stat dir_stat);
              Record_ (str "/f") not_a_dir empty_metadata;
              Record_ (str "/g") not_a_dir (metadata_from_stat file_stat)]);
   (str "/d", [Record_ (str "/d/x") not_a_dir (metadata_from_stat file_stat)])].

Definition sample_old : list FileRecord := records sample_groups.

Lemma ascii_name s : forallb (fun c => (0 <? c) && (c <? 128) && negb (c =? slash)) s = true -> s <> [] -> name_ok s.
Proof.
  intros H Hne. rewrite forallb_forall in H. split; [|done|].
  - apply Forall_forall. intros c Hc. apply list_elem_of_In, H in Hc. unfold is_byte. lia.
  - intros Hc. apply list_elem_of_In, H in Hc. done.
Qed.

Lemma sample_grouped : grouped_below (str "/") sample_old.
Proof.
  assert (Hroot : dir_ok (str "/")) by (split; [apply (bool_decide_unpack _); vm_compute; exact I|done|done]).
  assert (Hn : forall c, 97 <= c < 123 -> name_ok [c]) by (intros c Hc; apply ascii_name; [cbn; unfold slash; lia|done]).
  assert (Hd : dir_ok (str "/d")) by apply (child_ok (str "/") [100] Hroot (Hn 100 ltac:(lia))).
  exists sample_groups. split; [done|]. split; [split|].
  - repeat apply Forall_cons_2; [split; cbn [fst snd]; [done| | |done]..|apply Forall_nil_2].
    + repeat apply Forall_cons_2; [exists [100]|exists [102]|exists [103]|apply Forall_nil_2]; (split; [apply Hn; lia|done]).
    + repeat constructor.
    + apply Forall_singleton. exists [120]. split; [apply Hn; lia|done].
    + repeat constructor.
  - repeat constructor.
  - intros g Hg. apply elem_of_cons in Hg as [->|Hg]; [by left|]. apply list_elem_of_singleton in Hg as ->.
    right. by exists [100].
Qed.

Lemma sample_setting :
  run_setting list_stream sample_os initial_config sample_old false (sample_old, empty_metadata) 9 3 (str "/").
Proof.
  split.
  - intros d dirents. cbn. unfold path. repeat case_decide; intros E; inversion E; subst;
      (split; apply (bool_decide_unpack _); vm_compute; exact I).
  - intros r buf Hr. cbn [os_fstat sample_os]. case_decide as E; [|done]. rewrite E. intros _ _ _ _.
    exists [new_entry (str "x") false]. split; [vm_compute; reflexivity|vm_compute; reflexivity].
  - apply sample_grouped.
  - apply Forall_nil_2.
  - constructor.
  - split; [done|]. split; [|done]. repeat constructor; done.
  - apply Nat.ltb_lt. vm_compute. reflexivity.
  - destruct sample_grouped as (gs & _ & _ & _). split; [apply (bool_decide_unpack _); vm_compute; exact I|done|done].
  - intros l1 e1 E1 H1 D1 l2 e2 E2 H2 D2. exfalso. revert l2 e2 E2 H2 D2. cbn in E1. injection E1 as <-.
    revert D1. repeat (apply elem_of_cons in H1 as [->|H1]; [try discriminate|]); [|by apply not_elem_of_nil in H1].
    intros _ l2 e2 E2 H2. vm_compute in E2. injection E2 as <-.
    repeat (apply elem_of_cons in H2 as [->|H2]; [discriminate|]). by apply not_elem_of_nil in H2.
Qed.

(** The event of a removed file, of a changed one, and nothing for the others. *)
Definition sample_result : World :=
  WORLD 3 (DirTime 4997 0) false
    [Record_ (str "/d") (DirTime 100 5) (metadata_from_stat dir_stat);
     Record_ (str "/f") not_a_dir (metadata_from_stat file_stat);
     Record_ (str "/d/x") not_a_dir (metadata_from_stat file_stat)]
    (Some [Event EkModified (str "/f") (DirTime 5000 1) empty_metadata (metadata_from_stat file_stat);
           Event EkRemoved (str "/g") (DirTime 5000 1) (metadata_from_stat file_stat) empty_metadata]).

Definition no_hash (_ _ : bytes) (_ : MetadataHashKind) : option MetadataHash := None.

Definition sample_scan : Outcome (State (R := list FileRecord * FileMetadata)) :=
  scan sample_os initial_config (fun _ => false) (fun _ => true) no_hash 9 3 (str "/") 1 unknown_dir_time
    unknown_dir_time true (STATE (sample_old, empty_metadata) 0 sample_world).

Example sample_scan_result : exists db, sample_scan = Done (STATE db 0 sample_result).
Proof. eexists. vm_compute. reflexivity. Qed.

Lemma incremental_scan_exact_witness : exists db' idx', sample_scan = Done (STATE db' idx' sample_result).
Proof.
  destruct (incremental_scan_exact sample_os initial_config (fun _ => false) (fun _ => true) no_hash list_stream
    sample_old false (sample_old, empty_metadata) 9 3 (str "/") 1 unknown_dir_time true sample_world sample_setting)
    as [_ (db' & idx' & H)].
  exists db', idx'. exact H.
Defined.

Lemma scan_output_grouped_witness : grouped_below (str "/") (added sample_result).
Proof.
  refine (scan_output_grouped sample_os initial_config (fun _ => false) (fun _ => true) no_hash list_stream
    sample_old false (sample_old, empty_metadata) 9 3 (str "/") 1 unknown_dir_time true sample_world
    (STATE ([], metadata_from_stat file_stat) 0 sample_result) sample_setting eq_refl _).
  vm_compute. reflexivity.
Defined.

Lemma pruned_never_recorded_witness :
  Record_ (str "/d/x") not_a_dir (metadata_from_stat file_stat) ∈ added sample_world \/
  exists d n, name_ok n /\ str "/d/x" = child d n /\ (d = str "/" \/ below (str "/") d) /\
    (forall p, p ∈ conf_prunepaths initial_config -> dir_ok p -> p = str "/" \/ below (str "/") p -> d <> p /\ ~ below p d) /\
    (forall e m, dir_ok e -> name_ok m -> m ∈ conf_prunenames initial_config -> e = str "/" \/ below (str "/") e ->
       d <> child e m /\ ~ below (child e m) d).
Proof.
  refine (pruned_never_recorded sample_os initial_config (fun _ => false) (fun _ => true) no_hash list_stream
    sample_old false (sample_old, empty_metadata) 9 3 (str "/") 1 unknown_dir_time true sample_world
    (STATE ([], metadata_from_stat file_stat) 0 sample_result)
    (Record_ (str "/d/x") not_a_dir (metadata_from_stat file_stat)) sample_setting _ _).
  - vm_compute. reflexivity.
  - cbn. do 2 right. by left.
Defined.

(** ** Two behaviours of the code worth knowing *)

(** [/d] cannot be opened... *)
Definition closed_os : OS := {|
  os_openat p _ := if decide (p = str "/d") then Some 13 else None;
  os_readdir := os_readdir sample_os;
  os_fstatat := os_fstatat sample_os;
  os_fstat := os_fstat sample_os;
  os_mounts := None;
  os_gettimeofday := os_gettimeofday sample_os;
  os_clock_gettime := os_clock_gettime sample_os
|}.

Definition run_on (o : OS) (root : bytes) (old : list FileRecord) : option (list bytes * option (list (HistoryEventKind * bytes))) :=
  match scan o initial_config (fun _ => false) (fun _ => true) no_hash 9 3 root 1 unknown_dir_time unknown_dir_time true
          (STATE (old, empty_metadata) 0 sample_world) with
  | Done st => Some (map fr_path (added (world st)),
                     option_map (map (fun e => (ev_kind e, ev_path e))) (history_events (world st)))
  | _ => None
  end.

Definition after_run (o : OS) (root : bytes) (old : list FileRecord) : list FileRecord :=
  match scan o initial_config (fun _ => false) (fun _ => true) no_hash 9 3 root 1 unknown_dir_time unknown_dir_time true
          (STATE (old, empty_metadata) 0 sample_world) with
  | Done st => added (world st)
  | _ => []
  end.

(** ...but is stored with its timestamp, so that the next run, which can open it,
    takes its empty listing from the database and never sees [/d/x]. *)
Example unopened_directory_stays_empty :
  run_on sample_os (str "/") (after_run closed_os (str "/") []) = Some ([str "/d"; str "/f"], Some []).
Proof. vm_compute. reflexivity. Qed.

(** The old database of another scan root is accepted, but its first record stops
    the reader: everything is reported as added although it was there. *)
Example other_root_all_added :
  run_on sample_os (str "/d") sample_old = Some ([str "/d/x"], Some [(EkAdded, str "/d/x")]).
Proof. vm_compute. reflexivity. Qed.
