(* ===== verification/ShowdiffDb.v ===== *)
(** * flocate-showdiff: reading a database (src/showdiff.cpp)

    A snapshot of a database: the header is checked against the size of the
    file, the sections are read and decompressed, and paths and metadata are
    sorted together.  [zstd] is a parameter; reading a range of the file is
    [read_range], which [pread_fully] implements (FileRead). *)
From S2P Require Import Prelude Text FileRead Metadata MetadataCodec DbHeader Corpus Conf.

(** ** Data *)

Record PruneConfig := PRUNE {
  prune_bind_mounts : bool;
  prunefs : list bytes;
  prunenames : list bytes;
  prunepaths : list bytes
}.

Definition no_prune : PruneConfig := PRUNE false [] [] [].

Record Snapshot := SNAPSHOT {
  paths : list bytes;
  metadata : list FileMetadata;
  hash_kind : MetadataHashKind;
  prune : PruneConfig;
  scan_root : bytes
}.

(** Why a database is refused. *)
Inductive DbError :=
| CannotOpen
| NotADatabase
| UnsupportedVersion (v : Z)
| NoMetadataSupport
| CorruptSection
| UnsupportedMetadata
| NoMetadata
| NoHistory
| ReadError
| CorruptIndex
| DecompressError.

Notation "'try!' x := e 'in' f" :=
  (match e with inl x => f | inr err => inr err end)
  (at level 10, x pattern, e at level 100, f at level 200).

(** ** Database reading *)

Definition section_fits (offset length file_size : Z) : bool :=
  (length =? 0) || ((offset <=? file_size) && (length <=? u64 (file_size - offset))).

(** The sections that are checked. *)
Definition sections_fit (hdr : Header) (file_size : Z) : bool :=
  let index_bytes := u64 ((num_docids hdr + 1) * 8) in
  section_fits (filename_index_offset_bytes hdr) index_bytes file_size &&
  section_fits (zstd_dictionary_offset_bytes hdr) (zstd_dictionary_length_bytes hdr) file_size &&
  section_fits (conf_block_offset_bytes hdr) (conf_block_length_bytes hdr) file_size &&
  section_fits (metadata_offset_bytes hdr) (metadata_length_bytes hdr) file_size &&
  section_fits (history_offset_bytes hdr) (history_length_bytes hdr) file_size.

Definition read_header (file : bytes) : Header + DbError :=
  match parse_header file with
  | None => inr NotADatabase
  | Some hdr =>
    if decide (magic hdr <> flocate_magic) then inr NotADatabase
    else if negb (version hdr =? 1) && negb (version hdr =? 2) then inr (UnsupportedVersion (version hdr))
    else if max_version hdr <? 3 then inr NoMetadataSupport
    else if negb (sections_fit hdr (Z.of_nat (length file))) then inr CorruptSection
    else if (negb (metadata_length_bytes hdr =? 0) || negb (history_length_bytes hdr =? 0)) &&
            (Z.land (metadata_flags hdr) METADATA_FLAG_POSIX_V2 =? 0) then inr UnsupportedMetadata
    else inl hdr
  end.

Definition read_blob (file : bytes) (offset length : Z) : bytes + DbError :=
  match read_range file (Z.to_nat length) (Z.to_nat offset) with
  | None => inr ReadError
  | Some blob => inl blob
  end.

(** The text up to the next NUL or the end, and what follows the NUL. *)
Fixpoint span_nul (s : bytes) : bytes * option bytes :=
  match s with
  | [] => ([], None)
  | c :: s => if c =? 0 then ([], Some s) else let '(w, rest) := span_nul s in (c :: w, rest)
  end.

Fixpoint extract_loop (fuel : nat) (block : bytes) : list bytes :=
  match fuel, block with
  | O, _ | _, [] => []
  | S fuel, _ =>
    let '(w, rest) := span_nul block in
    (match w with [] => [] | _ => [w] end)
    ++ match rest with None => [] | Some rest => extract_loop fuel rest end
  end.

(** [extract_paths_from_block]: the paths that are appended. *)
Definition extract_paths_from_block (block : bytes) : list bytes := extract_loop (length block) block.

(** The [next] lambda: a string is only taken with its NUL. *)
Definition next (p : bytes) : option (bytes * bytes) :=
  match span_nul p with
  | (_, None) => None
  | (out, Some p) => Some (out, p)
  end.

Fixpoint read_values (fuel : nat) (p : bytes) : list bytes * bytes :=
  match fuel with
  | O => ([], p)
  | S fuel =>
    match next p with
    | None => ([], p)
    | Some ([], p) => ([], p)
    | Some (value, p) => let '(values, p) := read_values fuel p in (value :: values, p)
    end
  end.

Definition store_key (key : bytes) (values : list bytes) (prune : PruneConfig) : PruneConfig :=
  let '(PRUNE bind fs names paths) := prune in
  if decide (key = bytes_of_string "prune_bind_mounts") then
    PRUNE (match values with v :: _ => bool_decide (v = bytes_of_string "1") | [] => false end) fs names paths
  else if decide (key = bytes_of_string "prunefs") then PRUNE bind (map (map toupper) values) names paths
  else if decide (key = bytes_of_string "prunenames") then PRUNE bind fs values paths
  else if decide (key = bytes_of_string "prunepaths") then PRUNE bind fs names values
  else prune.

Fixpoint parse_conf_loop (fuel : nat) (p : bytes) (prune : PruneConfig) : PruneConfig :=
  match fuel with
  | O => prune
  | S fuel =>
    match next p with
    | None => prune
    | Some (key, p) =>
      let '(values, p) := read_values (length p) p in
      parse_conf_loop fuel p (store_key key values prune)
    end
  end.

Definition parse_conf_block (blob : bytes) (prune : PruneConfig) : PruneConfig :=
  parse_conf_loop (length blob) blob prune.

(** The length of the common prefix. *)
Fixpoint common_prefix (a b : bytes) : nat :=
  match a, b with
  | x :: a, y :: b => if x =? y then S (common_prefix a b) else 0%nat
  | _, _ => 0%nat
  end.

(** [rfind('/', n)]: the last slash at or before [n]. *)
Fixpoint rfind_slash (a : bytes) (n : nat) : option nat :=
  if bool_decide (a !! n = Some 47) then Some n
  else match n with O => None | S n => rfind_slash a n end.

Definition scan_root_from_paths (sorted_paths : list bytes) : bytes :=
  match sorted_paths, last sorted_paths with
  | a :: _, Some b =>
    let n := common_prefix a b in
    match rfind_slash a (n - 1) with
    | None | Some O => [47]
    | Some slash => take slash a
    end
  | _, _ => [47]
  end.

(** Decodes the whole metadata stream; it stops at a truncated record.  [None]
    would be a read outside the buffer. *)
Fixpoint decode_all (fuel : nat) (p : bytes) : option (list FileMetadata) :=
  match p with
  | [] => Some []
  | _ =>
    match fuel with
    | O => Some []
    | S fuel =>
      r ← decode_metadata_record p;
      match r with
      | None => Some []
      | Some (meta, p) => rest ← decode_all fuel p; Some (meta :: rest)
      end
    end
  end.

(** The kind of the first digest. *)
Fixpoint first_hash_kind (ms : list FileMetadata) : MetadataHashKind :=
  match ms with
  | [] => HkNone
  | m :: ms =>
    if decide (h_kind (md_hash m) = HkNone) then first_hash_kind ms else h_kind (md_hash m)
  end.

(** [resize]: cuts, or pads with empty metadata. *)
Definition resize_metadata (ms : list FileMetadata) (n : nat) : list FileMetadata :=
  take n ms ++ replicate (n - length ms) empty_metadata.

Definition path_le (a b : bytes * FileMetadata) : Prop := not_above bytes_lt (fst a) (fst b).

#[global] Instance path_le_dec a b : Decision (path_le a b).
Proof. unfold path_le. apply _. Defined.

(** The sort through an index permutation moves paths and metadata together. *)
Definition sort_together (ps : list bytes) (ms : list FileMetadata) : list (bytes * FileMetadata) :=
  merge_sort path_le (combine ps ms).

Section Load.
Context (zstd_stream : bytes -> option bytes)
  (zstd_content_size : bytes -> option Z)
  (zstd_decompress : option bytes -> bytes -> Z -> option bytes).

Definition decompress_block (compressed : bytes) (ddict : option bytes) : bytes + DbError :=
  match zstd_content_size compressed with
  | None => inr DecompressError
  | Some content_size =>
    if Z.shiftl 1 30 <? content_size then inr DecompressError
    else
      match zstd_decompress ddict compressed content_size with
      | None => inr DecompressError
      | Some output => inl output
      end
  end.

(** The loop over the blocks; [offsets] are what is left of the index. *)
Fixpoint load_blocks (file : bytes) (ddict : option bytes) (offsets : list Z) : list bytes + DbError :=
  match offsets with
  | start :: ((end_ :: _) as offsets) =>
    if (end_ <? start) || negb (section_fits start (u64 (end_ - start)) (Z.of_nat (length file)))
    then inr CorruptIndex
    else
      try! blob := read_blob file start (end_ - start) in
      try! block := decompress_block blob ddict in
      try! rest := load_blocks file ddict offsets in
      inl (extract_paths_from_block block ++ rest)
  | _ => inl []
  end.

(** The array of [n] 64-bit offsets. *)
Fixpoint read_offsets (n : nat) (data : bytes) : list Z :=
  match n with
  | O => []
  | S n => le_val (take 8 data) :: read_offsets n (drop 8 data)
  end.

(** The metadata, the kind of its digests and the pruning settings. *)
Definition load_metadata (file : bytes) (hdr : Header)
    : option ((list FileMetadata * MetadataHashKind * PruneConfig) + DbError) :=
  match read_blob file (metadata_offset_bytes hdr) (metadata_length_bytes hdr) with
  | inr err => Some (inr err)
  | inl blob =>
    match zstd_stream blob with
    | None => Some (inr DecompressError)
    | Some metadata_stream =>
      ms ← decode_all (length metadata_stream) metadata_stream;
      Some (if conf_block_length_bytes hdr =? 0 then inl (ms, first_hash_kind ms, no_prune)
            else
              try! blob := read_blob file (conf_block_offset_bytes hdr) (conf_block_length_bytes hdr) in
              inl (ms, first_hash_kind ms, parse_conf_block blob no_prune))
    end
  end.

(** The paths of all blocks in order. *)
Definition load_paths (file : bytes) (hdr : Header) : list bytes + DbError :=
  let n := Z.to_nat (num_docids hdr + 1) in
  try! index := read_blob file (filename_index_offset_bytes hdr) (8 * (num_docids hdr + 1)) in
  if zstd_dictionary_length_bytes hdr <=? 0 then load_blocks file None (read_offsets n index)
  else
    try! dictionary := read_blob file (zstd_dictionary_offset_bytes hdr) (zstd_dictionary_length_bytes hdr) in
    load_blocks file (Some dictionary) (read_offsets n index).

Definition finish_snapshot (ps : list bytes) (ms : list FileMetadata) (kind : MetadataHashKind)
    (prune : PruneConfig) : Snapshot :=
  let ms := if (length ps =? length ms)%nat then ms else resize_metadata ms (length ps) in
  let sorted := sort_together ps ms in
  SNAPSHOT (map fst sorted) (map snd sorted) kind prune (scan_root_from_paths (map fst sorted)).

(** [file] is the file's contents, [None] if it cannot be opened. *)
Definition load_snapshot (file : option bytes) : option (Snapshot + DbError) :=
  match file with
  | None => Some (inr CannotOpen)
  | Some file =>
    match read_header file with
    | inr err => Some (inr err)
    | inl hdr =>
      if metadata_length_bytes hdr =? 0 then Some (inr NoMetadata)
      else
        r ← load_metadata file hdr;
        Some (try! (ms, kind, prune) := r in
              try! ps := load_paths file hdr in
              inl (finish_snapshot ps ms kind prune))
    end
  end.

Definition load_history_events (file : option bytes) : option (list HistoryEvent + DbError) :=
  match file with
  | None => Some (inr CannotOpen)
  | Some file =>
    match read_header file with
    | inr err => Some (inr err)
    | inl hdr =>
      if history_length_bytes hdr =? 0 then Some (inr NoHistory)
      else
        match read_blob file (history_offset_bytes hdr) (history_length_bytes hdr) with
        | inr err => Some (inr err)
        | inl blob =>
          match zstd_stream blob with
          | None => Some (inr DecompressError)
          | Some decompressed => events ← decode_history_stream decompressed; Some (inl events)
          end
        end
    end
  end.
End Load.

(** ** Strings between NULs: lemmas *)

Lemma span_nul_app w s : 0 ∉ w -> span_nul (w ++ 0 :: s) = (w, Some s).
Proof.
  induction w as [|c w IH]; [done|]. rewrite not_elem_of_cons. intros [H1 H2]. cbn [app span_nul].
  replace (c =? 0) with false by (symmetry; apply Z.eqb_neq; lia). by rewrite IH.
Qed.

Lemma span_nul_end w : 0 ∉ w -> span_nul w = (w, None).
Proof.
  induction w as [|c w IH]; [done|]. rewrite not_elem_of_cons. intros [H1 H2]. cbn [span_nul].
  replace (c =? 0) with false by (symmetry; apply Z.eqb_neq; lia). by rewrite IH.
Qed.

Lemma span_nul_length s w rest : span_nul s = (w, Some rest) -> (length rest < length s)%nat.
Proof.
  revert w. induction s as [|c s IH]; intros w; [done|]. cbn [span_nul length].
  destruct (c =? 0); [intros H; injection H as _ <-; lia|].
  destruct (span_nul s) as [w' [r|]]; [|done]. intros H; injection H as _ ->.
  specialize (IH _ eq_refl). lia.
Qed.

Lemma next_length p out q : next p = Some (out, q) -> (length q < length p)%nat.
Proof.
  unfold next. destruct (span_nul p) as [w [r|]] eqn:E; [|done]. intros H; injection H as _ <-.
  by eapply span_nul_length.
Qed.

Lemma extract_loop_fuel f1 : forall f2 s, (length s <= f1)%nat -> (length s <= f2)%nat ->
  extract_loop f1 s = extract_loop f2 s.
Proof.
  induction f1 as [|f1 IH]; intros f2 s H1 H2; (destruct s as [|c s]; [by destruct f2|]);
    [cbn in H1; lia|]. destruct f2 as [|f2]; [cbn in H2; lia|]. cbn [extract_loop].
  destruct (span_nul (c :: s)) as [w [r|]] eqn:E; [|done]. apply span_nul_length in E.
  cbn [length] in *. f_equal. apply IH; lia.
Qed.

(** One more path at the front of a block. *)
Lemma extract_cons w s : 0 ∉ w -> w <> [] ->
  extract_paths_from_block (w ++ 0 :: s) = w :: extract_paths_from_block s.
Proof.
  intros H Hne. destruct w as [|c w]; [done|]. unfold extract_paths_from_block.
  cbn [app length extract_loop].
  change (c :: w ++ 0 :: s) with ((c :: w) ++ 0 :: s). rewrite span_nul_app by done. cbn [app]. f_equal.
  apply extract_loop_fuel; [rewrite length_app; cbn; lia|done].
Qed.

Lemma read_values_list vs : forall fuel rest, Forall list_value_ok vs -> (length vs < fuel)%nat ->
  read_values fuel (gen_conf_block_string_list vs ++ rest) = (vs, rest).
Proof.
  unfold gen_conf_block_string_list. induction vs as [|v vs IH]; intros fuel rest F Hf;
    (destruct fuel as [|fuel]; [cbn in Hf; lia|]); cbn [map concat app read_values]; [done|].
  apply Forall_cons in F as [[Hne H0] F]. rewrite <- !app_assoc. cbn [app]. unfold next.
  rewrite span_nul_app by done. destruct v as [|c v]; [done|].
  specialize (IH fuel rest F ltac:(cbn in Hf; lia)). rewrite <- app_assoc in IH. cbn [app] in IH.
  by rewrite IH.
Qed.

(** One key with its values. *)
Lemma parse_conf_key fuel key vs rest prune : 0 ∉ key -> Forall list_value_ok vs ->
  parse_conf_loop (S fuel) ((key ++ [0]) ++ gen_conf_block_string_list vs ++ rest) prune =
  parse_conf_loop fuel rest (store_key key vs prune).
Proof.
  intros Hk F. cbn [parse_conf_loop]. rewrite <- app_assoc. cbn [app]. unfold next.
  rewrite span_nul_app by done. rewrite read_values_list; [done|done|].
  clear F. rewrite length_app. unfold gen_conf_block_string_list. rewrite length_app. cbn [length].
  induction vs as [|v vs IH]; [cbn; lia|]. cbn [map concat length]. rewrite !length_app. cbn [length].
  cbn in IH. lia.
Qed.

Lemma parse_conf_nil fuel prune : parse_conf_loop fuel [] prune = prune.
Proof. by destruct fuel. Qed.

(** ** The scan root: lemmas *)

Lemma rfind_slash_spec a i n : a !! i = Some 47 -> (i <= n)%nat ->
  (forall j, (i < j <= n)%nat -> a !! j <> Some 47) -> rfind_slash a n = Some i.
Proof.
  intros Hi. induction n as [|n IH]; intros Hle Hj; cbn [rfind_slash].
  - assert (i = 0%nat) as -> by lia. by rewrite bool_decide_true.
  - destruct (Nat.eq_dec i (S n)) as [->|]; [by rewrite bool_decide_true|].
    rewrite bool_decide_false by (apply Hj; lia). apply IH; [lia|]. intros j ?. apply Hj. lia.
Qed.

Lemma common_prefix_app r a b : common_prefix (r ++ a) (r ++ b) = (length r + common_prefix a b)%nat.
Proof. induction r as [|x r IH]; [done|]. cbn. by rewrite Z.eqb_refl, IH. Qed.

Lemma common_prefix_length a : forall b, (common_prefix a b <= length a)%nat.
Proof. induction a as [|x a IH]; intros [|y b]; cbn; try lia. destruct (x =? y); [|lia]. specialize (IH b). lia. Qed.

Lemma bytes_lt_prefix a x b : bytes_lt a (a ++ x :: b) = true.
Proof. induction a as [|y a IH]; [done|]. cbn. by rewrite Z.eqb_refl, IH, orb_true_r. Qed.

(** The first slash of a text that has one. *)
Lemma first_slash s : 47 ∈ s -> exists a b, s = a ++ 47 :: b.
Proof. intros H. apply list_elem_of_split in H as (a & b & ->). by exists a, b. Qed.

(** Paths below a root, with every directory between. *)
Record tree_below (R : bytes) (ps : list bytes) : Prop := {
  below_root : forall p, p ∈ ps -> exists s, p = R ++ 47 :: s;
  with_parents : forall a b, R ++ 47 :: a ++ 47 :: b ∈ ps -> R ++ 47 :: a ∈ ps
}.

Lemma first_path_is_child R p ps : tree_below R (p :: ps) ->
  StronglySorted (not_above bytes_lt) (p :: ps) -> exists s, p = R ++ 47 :: s /\ 47 ∉ s.
Proof.
  intros [Hb Hp] S. destruct (Hb p ltac:(left)) as [s ->]. exists s. split; [done|].
  intros Hin. apply first_slash in Hin as (a & b & ->). specialize (Hp a b ltac:(left)).
  assert (Hlt : bytes_lt (R ++ 47 :: a) (R ++ 47 :: a ++ 47 :: b) = true).
  { change (47 :: a ++ 47 :: b) with ((47 :: a) ++ 47 :: b). rewrite app_assoc. apply bytes_lt_prefix. }
  apply elem_of_cons in Hp as [E|Hp].
  - rewrite <- E in Hlt. by rewrite bytes_lt_irrefl in Hlt.
  - inversion S as [|? ? _ F]; subst. rewrite Forall_forall in F. specialize (F _ Hp).
    unfold not_above in F. congruence.
Qed.

(** ** Sorting: lemmas *)

#[global] Instance path_le_total : Total path_le.
Proof. intros a b. apply (total (not_above bytes_lt)). Qed.

#[global] Instance path_le_trans : Transitive path_le.
Proof. intros a b c. apply (transitivity (R := not_above bytes_lt)). Qed.

Lemma length_resize ms n : length (resize_metadata ms n) = n.
Proof. unfold resize_metadata. rewrite length_app, length_take, length_replicate. lia. Qed.

Lemma combine_fst_snd {A B} (l : list (A * B)) : combine (map fst l) (map snd l) = l.
Proof. induction l as [|[a b] l IH]; [done|]. cbn. by rewrite IH. Qed.

(** ** Checked reads: lemmas *)

Lemma section_fits_read file off len : 0 <= off -> 0 <= len < 2 ^ 64 ->
  section_fits off len (Z.of_nat (length file)) = true ->
  exists blob, read_blob file off len = inl blob /\ length blob = Z.to_nat len.
Proof.
  unfold section_fits, read_blob, read_range. intros Ho Hl H.
  destruct (decide (Z.to_nat len = 0%nat)) as [->|Hne]; [by exists []|].
  apply orb_true_iff in H as [H|H]; [apply Z.eqb_eq in H; lia|].
  apply andb_true_iff in H as [H1%Z.leb_le H2%Z.leb_le].
  assert (len <= Z.of_nat (length file) - off).
  { destruct (Z.le_gt_cases (2 ^ 64) (Z.of_nat (length file) - off)) as [|Hlt]; [lia|].
    rewrite u64_small in H2 by (unfold is_u64; lia). done. }
  rewrite decide_True by lia. eexists. split; [done|]. rewrite length_take, length_drop. lia.
Qed.

Lemma get_u32_range p v q : Forall is_byte p -> get_u32 p = Some (v, q) -> is_u32 v /\ Forall is_byte q.
Proof.
  intros F H. destruct (Nat.le_gt_cases 4 (length p)) as [Hl|Hl].
  - rewrite <- (take_drop 4 p) in H. rewrite <- (le_bytes_le_val (take 4 p)) in H by by apply Forall_take.
    rewrite length_take, Nat.min_l in H by lia. rewrite get_u32_le in H. injection H as <- <-.
    split; [apply u32_range|by apply Forall_drop].
  - exfalso. unfold get_u32 in H. destruct p as [|? [|? [|? [|? p]]]]; cbn in Hl; try lia; discriminate H.
Qed.

Lemma get_u64_range p v q : Forall is_byte p -> get_u64 p = Some (v, q) -> is_u64 v /\ Forall is_byte q.
Proof.
  intros F H. destruct (Nat.le_gt_cases 8 (length p)) as [Hl|Hl].
  - rewrite <- (take_drop 8 p) in H. rewrite <- (le_bytes_le_val (take 8 p)) in H by by apply Forall_take.
    rewrite length_take, Nat.min_l in H by lia. rewrite get_u64_le in H. injection H as <- <-.
    split; [apply u64_range|by apply Forall_drop].
  - exfalso. unfold get_u64 in H.
    destruct p as [|? [|? [|? [|? [|? [|? [|? [|? p]]]]]]]]; cbn in Hl; try lia; discriminate H.
Qed.

Lemma get_u32_inv {B} p (k : Z * bytes -> option B) h : Forall is_byte p -> (get_u32 p ≫= k) = Some h ->
  exists v q, is_u32 v /\ Forall is_byte q /\ k (v, q) = Some h.
Proof.
  intros F H. destruct (get_u32 p) as [[v q]|] eqn:E; [|done]. apply get_u32_range in E as [Hv Fq]; eauto.
Qed.

Lemma get_u64_inv {B} p (k : Z * bytes -> option B) h : Forall is_byte p -> (get_u64 p ≫= k) = Some h ->
  exists v q, is_u64 v /\ Forall is_byte q /\ k (v, q) = Some h.
Proof.
  intros F H. destruct (get_u64 p) as [[v q]|] eqn:E; [|done]. apply get_u64_range in E as [Hv Fq]; eauto.
Qed.

Lemma parse_header_wf m h : Forall is_byte m -> parse_header m = Some h -> header_wf h.
Proof.
  intros F H. unfold parse_header in H. destruct (decide _) as [|Hlen]; [done|].
  assert (Fp : Forall is_byte (drop 8 m)) by by apply Forall_drop. clear F. cbv zeta in H.
  do 20 (first [apply (get_u32_inv _ _ _ Fp) in H as (? & ? & ? & Fq & H)
               |apply (get_u64_inv _ _ _ Fp) in H as (? & ? & ? & Fq & H)];
         clear Fp; rename Fq into Fp; cbv beta iota in H).
  destruct (get_u8 _) as [[b q]|]; [|done]. cbn [mbind option_bind] in H. apply (inj Some) in H as <-.
  split; cbn [magic version hashtable_size extra_ht_slots num_docids max_version zstd_dictionary_length_bytes
    metadata_flags hash_table_offset_bytes filename_index_offset_bytes zstd_dictionary_offset_bytes
    directory_data_length_bytes directory_data_offset_bytes next_zstd_dictionary_length_bytes
    next_zstd_dictionary_offset_bytes conf_block_length_bytes conf_block_offset_bytes metadata_length_bytes
    metadata_offset_bytes history_length_bytes history_offset_bytes].
  - rewrite length_take. unfold sizeof_Header in Hlen. lia.
  - repeat apply Forall_cons_2; try assumption; apply Forall_nil_2.
  - repeat apply Forall_cons_2; try assumption; apply Forall_nil_2.
Qed.

(** What [read_header] has checked. *)
Lemma read_header_sections file hdr : Forall is_byte file -> read_header file = inl hdr ->
  header_wf hdr /\ sections_fit hdr (Z.of_nat (length file)) = true.
Proof.
  intros F. unfold read_header. destruct (parse_header file) as [h|] eqn:E; [|done].
  apply parse_header_wf in E; [|done]. destruct (decide _); [done|]. destruct (_ && _); [done|].
  destruct (_ <? _); [done|]. destruct (sections_fit _ _) eqn:Es; [|done]. cbn [negb].
  destruct (_ && _); [done|]. intros [= <-]. done.
Qed.

Lemma wf_u64_ranges h : header_wf h ->
  is_u32 (num_docids h) /\ is_u32 (zstd_dictionary_length_bytes h) /\
  is_u64 (filename_index_offset_bytes h) /\ is_u64 (zstd_dictionary_offset_bytes h) /\
  is_u64 (conf_block_length_bytes h) /\ is_u64 (conf_block_offset_bytes h) /\
  is_u64 (metadata_length_bytes h) /\ is_u64 (metadata_offset_bytes h) /\
  is_u64 (history_length_bytes h) /\ is_u64 (history_offset_bytes h).
Proof.
  intros [_ H32 H64]. repeat (apply Forall_cons in H32 as [? H32]). repeat (apply Forall_cons in H64 as [? H64]).
  repeat split; match goal with H : ?P ?x |- _ => apply H end.
Qed.

Lemma wf_sections h size : header_wf h -> sections_fit h size = true ->
  Forall (fun '(off, len) => 0 <= off /\ 0 <= len < 2 ^ 64 /\ section_fits off len size = true)
    [(filename_index_offset_bytes h, 8 * (num_docids h + 1));
     (zstd_dictionary_offset_bytes h, zstd_dictionary_length_bytes h);
     (conf_block_offset_bytes h, conf_block_length_bytes h);
     (metadata_offset_bytes h, metadata_length_bytes h);
     (history_offset_bytes h, history_length_bytes h)].
Proof.
  intros W H. destruct (wf_u64_ranges h W) as (Hn & Hd & H1 & H2 & H3 & H4 & H5 & H6 & H7 & H8).
  unfold sections_fit in H. repeat (apply andb_true_iff in H as [H ?]).
  assert (Hi : u64 ((num_docids h + 1) * 8) = 8 * (num_docids h + 1)).
  { rewrite u64_small; [lia|]. clear - Hn. solve_word. }
  rewrite Hi in H. clear Hi W.
  repeat apply Forall_cons_2; try apply Forall_nil_2; (split; [|split; [|assumption]]); solve_word.
Qed.

Lemma decode_all_total fuel : forall p, is_Some (decode_all fuel p).
Proof.
  induction fuel as [|fuel IH]; intros p; (destruct p as [|b p]; [by eexists|]); [by eexists|].
  cbn [decode_all]. destruct (decode_metadata_record_total (b :: p)) as (r & -> & _).
  cbn [mbind option_bind]. destruct r as [[m q]|]; [|by eexists].
  destruct (IH q) as [rest ->]. by eexists.
Qed.

Lemma decode_history_stream_total data : is_Some (decode_history_stream data).
Proof.
  unfold decode_history_stream. destruct (decode_events_total (length data) data []) as [es ->]; [lia|].
  by eexists.
Qed.

Section safety.
Context (zstd_stream : bytes -> option bytes)
  (zstd_content_size : bytes -> option Z)
  (zstd_decompress : option bytes -> bytes -> Z -> option bytes).

Lemma load_blocks_no_read_error file ddict offsets : Forall is_u64 offsets ->
  load_blocks zstd_content_size zstd_decompress file ddict offsets <> inr ReadError.
Proof.
  induction 1 as [|start offsets Hs F IH]; [done|]. cbn [load_blocks].
  destruct offsets as [|end_ offsets]; [done|]. destruct (_ || _) eqn:E; [done|].
  apply orb_false_iff in E as [E1%Z.ltb_ge E2%negb_false_iff]. apply Forall_inv in F as He.
  assert (Hd : is_u64 (end_ - start)) by (clear - Hs He E1; solve_word).
  rewrite u64_small in E2 by done.
  destruct (section_fits_read file start (end_ - start)) as (blob & -> & _); [apply Hs|apply Hd|done|].
  unfold decompress_block. destruct (zstd_content_size blob); [|done]. destruct (_ <? _); [done|].
  destruct (zstd_decompress _ _ _); [|done].
  destruct (load_blocks _ _ _ _ _); [done|]. intros [= ->]. by apply IH.
Qed.

Lemma read_offsets_u64 n : forall data, Forall is_byte data -> Forall is_u64 (read_offsets n data).
Proof.
  induction n as [|n IH]; intros data F; [constructor|]. cbn [read_offsets]. constructor.
  - pose proof (le_val_range (take 8 data) (Forall_take _ 8 _ F)) as H. rewrite length_take in H.
    split; [lia|]. eapply Z.lt_le_trans; [apply H|]. change (2 ^ 64) with (256 ^ 8).
    apply Z.pow_le_mono_r; lia.
  - apply IH. by apply Forall_drop.
Qed.

Lemma read_blob_bytes file off len blob : Forall is_byte file -> read_blob file off len = inl blob ->
  Forall is_byte blob.
Proof.
  intros F. unfold read_blob, read_range. destruct (decide _); [intros [= <-]; constructor|].
  destruct (decide _); [|done]. intros [= <-]. by apply Forall_take, Forall_drop.
Qed.

Lemma load_paths_no_read_error file hdr : Forall is_byte file -> header_wf hdr ->
  sections_fit hdr (Z.of_nat (length file)) = true ->
  load_paths zstd_content_size zstd_decompress file hdr <> inr ReadError.
Proof.
  intros F W Hs. pose proof (wf_sections _ _ W Hs) as S. apply Forall_cons in S as [(Ho & Hl & Hf) S].
  apply Forall_cons in S as [(Ho2 & Hl2 & Hf2) _]. unfold load_paths.
  destruct (section_fits_read _ _ _ Ho Hl Hf) as (index & Ei & _). rewrite Ei.
  pose proof (read_offsets_u64 (Z.to_nat (num_docids hdr + 1)) index (read_blob_bytes _ _ _ _ F Ei)) as Hoff.
  destruct (_ <=? _); [by apply load_blocks_no_read_error|].
  destruct (section_fits_read _ _ _ Ho2 Hl2 Hf2) as (dict & -> & _). by apply load_blocks_no_read_error.
Qed.

Lemma load_metadata_no_read_error file hdr : header_wf hdr ->
  sections_fit hdr (Z.of_nat (length file)) = true ->
  exists r, load_metadata zstd_stream file hdr = Some r /\ r <> inr ReadError.
Proof.
  intros W Hs. pose proof (wf_sections _ _ W Hs) as S. do 2 apply Forall_cons in S as [_ S].
  apply Forall_cons in S as [(Ho & Hl & Hf) S]. apply Forall_cons in S as [(Ho2 & Hl2 & Hf2) _].
  unfold load_metadata. destruct (section_fits_read _ _ _ Ho2 Hl2 Hf2) as (blob & -> & _).
  destruct (zstd_stream blob) as [ms|]; [|by eexists]. destruct (decode_all_total (length ms) ms) as [l ->].
  cbn [mbind option_bind]. eexists. split; [done|]. destruct (_ =? 0); [done|].
  by destruct (section_fits_read _ _ _ Ho Hl Hf) as (blob2 & -> & _).
Qed.

(** C22. Loading any file, however corrupt, never reads a section or a block
    outside the file and never decodes past a buffer: what the header and the
    index say is checked first.  The same holds for the history. *)
Theorem load_snapshot_safe file : Forall is_byte file ->
  (exists r, load_snapshot zstd_stream zstd_content_size zstd_decompress (Some file) = Some r /\ r <> inr ReadError) /\
  (exists r, load_history_events zstd_stream (Some file) = Some r /\ r <> inr ReadError).
Proof.
  intros F. cbn [load_snapshot load_history_events].
  destruct (read_header file) as [hdr|err] eqn:E.
  2: { assert (err <> ReadError).
       { unfold read_header in E. destruct (parse_header file); [|congruence].
         repeat (case_decide || destruct (_ && _) || destruct (_ <? _) || destruct (negb _)); congruence. }
       split; eexists; (split; [done|congruence]). }
  destruct (read_header_sections _ _ F E) as [W Hs]. split.
  - destruct (_ =? 0); [by eexists|]. destruct (load_metadata_no_read_error _ _ W Hs) as (r & -> & Hr).
    cbn [mbind option_bind]. eexists. split; [done|]. destruct r as [[[ms k] pr]|]; [|congruence].
    pose proof (load_paths_no_read_error _ _ F W Hs). destruct (load_paths _ _ _ _); congruence.
  - destruct (_ =? 0); [by eexists|]. pose proof (wf_sections _ _ W Hs) as S.
    do 4 apply Forall_cons in S as [_ S]. apply Forall_cons in S as [(Ho & Hl & Hf) _].
    destruct (section_fits_read _ _ _ Ho Hl Hf) as (blob & -> & _).
    destruct (zstd_stream blob) as [d|]; [|by eexists]. destruct (decode_history_stream_total d) as [es ->].
    by eexists.
Qed.
End safety.

Lemma load_snapshot_safe_witness :
  (exists r, load_snapshot (fun _ => None) (fun _ => None) (fun _ _ _ => None)
     (Some (header_bytes sample_header)) = Some r /\ r <> inr ReadError) /\
  (exists r, load_history_events (fun _ => None) (Some (header_bytes sample_header)) = Some r /\ r <> inr ReadError).
Proof.
  apply (load_snapshot_safe (fun _ => None) (fun _ => None) (fun _ _ _ => None) (header_bytes sample_header)).
  apply (bool_decide_unpack _). vm_compute. exact I.
Defined.

(** The paths that [EncodingCorpus::flush_block] joins into a block are read
    back from it, in order. *)
Theorem extract_paths_join files : Forall path_ok files ->
  extract_paths_from_block (join files) = files.
Proof.
  induction files as [|f files IH]; intros F; [done|]. apply Forall_cons in F as [[Hn Hne] F].
  assert (H0 : 0 ∉ f).
  { intros H. unfold name in Hn. rewrite Forall_forall in Hn. specialize (Hn _ H). lia. }
  destruct files as [|g files].
  - cbn [join]. unfold extract_paths_from_block. destruct f as [|c f]; [done|]. cbn [length extract_loop].
    by rewrite span_nul_end.
  - change (join (f :: g :: files)) with (f ++ 0 :: join (g :: files)).
    rewrite extract_cons by done. by rewrite IH.
Qed.

Lemma extract_paths_join_witness :
  extract_paths_from_block (join [bytes_of_string "/a"; bytes_of_string "/a/bc"; bytes_of_string "/d"]) =
  [bytes_of_string "/a"; bytes_of_string "/a/bc"; bytes_of_string "/d"].
Proof.
  apply (extract_paths_join [bytes_of_string "/a"; bytes_of_string "/a/bc"; bytes_of_string "/d"]).
  repeat apply Forall_cons_2; try apply Forall_nil_2;
    (split; [apply (bool_decide_unpack _); vm_compute; exact I|discriminate]).
Defined.

Lemma gen_conf_block_lists c : gen_conf_block c =
  CONST "prune_bind_mounts" ++ gen_conf_block_string_list [[if conf_prune_bind_mounts c then 49 else 48]]
  ++ CONST "prunefs" ++ gen_conf_block_string_list (conf_prunefs c)
  ++ CONST "prunenames" ++ gen_conf_block_string_list (conf_prunenames c)
  ++ CONST "prunepaths" ++ gen_conf_block_string_list (conf_prunepaths c)
  ++ CONST "metadata_hash" ++ gen_conf_block_string_list [metadata_hash_kind_to_string (conf_metadata_hash_kind c)]
  ++ CONST "history_depth" ++ gen_conf_block_string_list [to_string (conf_history_depth c)] ++ [].
Proof.
  assert (H : forall x, gen_conf_block_string_list [x] = x ++ [0; 0]).
  { intros x. unfold gen_conf_block_string_list. cbn [map concat]. by rewrite app_nil_r, <- app_assoc. }
  rewrite !H, app_nil_r. unfold gen_conf_block. rewrite <- !app_assoc. reflexivity.
Qed.

(** C26. flocate-showdiff reads from the configuration block the pruning settings
    that updatedb wrote, filesystem names in upper case, provided that the configuration
    is well-formed: no value of a list is empty or holds a NUL, and the numbers are in range.  That is
    what [conf_prepare] guarantees but for an empty path given with
    [--add-single-prunepath] (see [Conf.conf_prepare_ok]); with one, the path after it is read
    as a key (see [Conf.empty_path_in_block]). *)
Theorem conf_block_roundtrip c : conf_ok c ->
  parse_conf_block (gen_conf_block c) no_prune =
  PRUNE (conf_prune_bind_mounts c) (map (map toupper) (conf_prunefs c)) (conf_prunenames c) (conf_prunepaths c).
Proof.
  intros [Hf Hn Hp Hk Hd _ _]. unfold parse_conf_block.
  assert (Hlen : exists k, length (gen_conf_block c) = (6 + k)%nat).
  { exists (length (gen_conf_block c) - 6)%nat. unfold gen_conf_block. rewrite length_app. cbn. lia. }
  destruct Hlen as [k ->]. rewrite gen_conf_block_lists. unfold CONST. cbn [Nat.add].
  assert (H1 : list_value_ok [if conf_prune_bind_mounts c then 49 else 48]).
  { split; [done|]. rewrite list_elem_of_singleton. by destruct (conf_prune_bind_mounts c). }
  assert (H2 : list_value_ok (metadata_hash_kind_to_string (conf_metadata_hash_kind c))).
  { split; [by destruct (conf_metadata_hash_kind c)|apply hash_kind_string_ok]. }
  assert (H3 : list_value_ok (to_string (conf_history_depth c))).
  { unfold INT_MAX in Hd. split; [|apply to_string_ok; lia].
    intros E. pose proof (scan_to_string (conf_history_depth c) [] ltac:(lia) eq_refl) as H0. by rewrite E in H0. }
  assert (K : forall s, bool_decide (0 ∉ bytes_of_string s) = true -> 0 ∉ bytes_of_string s).
  { intros s. by rewrite bool_decide_eq_true. }
  do 6 (rewrite parse_conf_key; [|by apply K; vm_compute|first [assumption|by apply Forall_singleton]]).
  rewrite parse_conf_nil. unfold store_key, no_prune.
  repeat (rewrite decide_False by (vm_compute; congruence) || rewrite decide_True by reflexivity).
  by destruct (conf_prune_bind_mounts c).
Qed.

Lemma conf_block_roundtrip_witness :
  parse_conf_block (gen_conf_block conf_a) no_prune =
  PRUNE false [] [bytes_of_string "ab"; bytes_of_string "c"] [].
Proof.
  apply (conf_block_roundtrip conf_a). split; cbn; try done; try apply Forall_nil_2;
    repeat apply Forall_cons_2; try apply Forall_nil_2;
    (split; [discriminate|apply (bool_decide_unpack _); vm_compute; exact I]).
Defined.

(** The scan root is recovered from the paths: when they are those below a
    root, with their directories, sorted, it is that root. *)
Theorem scan_root_recovered R ps : ps <> [] -> tree_below R ps ->
  StronglySorted (not_above bytes_lt) ps ->
  scan_root_from_paths ps = match R with [] => [47] | _ => R end.
Proof.
  intros Hne T S. destruct ps as [|p ps]; [done|].
  destruct (first_path_is_child _ _ _ T S) as (s & -> & Hs). unfold scan_root_from_paths.
  destruct (last ((R ++ 47 :: s) :: ps)) as [b|] eqn:El; [|by apply last_None in El].
  assert (Hb : b ∈ (R ++ 47 :: s) :: ps).
  { apply last_Some in El as [l ->]. apply elem_of_app. right. left. }
  destruct T as [T _]. destruct (T _ Hb) as [t ->]. clear Hb El S T Hne.
  rewrite common_prefix_app. cbn [common_prefix]. rewrite Z.eqb_refl.
  pose proof (common_prefix_length s t) as Hlen. set (n := common_prefix s t) in *.
  rewrite (rfind_slash_spec _ (length R)).
  - destruct R as [|c R]; [done|]. cbn [length]. by rewrite take_app_length' by done.
  - by rewrite list_lookup_middle.
  - lia.
  - intros j Hj E. rewrite lookup_app_r in E by lia.
    destruct (j - length R)%nat as [|k] eqn:Ek; [lia|]. cbn [lookup list_lookup] in E.
    apply Hs. by eapply list_elem_of_lookup_2.
Qed.

Definition sample_paths : list bytes :=
  [bytes_of_string "/srv/a"; bytes_of_string "/srv/a/b"; bytes_of_string "/srv/c"].

Lemma scan_root_recovered_witness : scan_root_from_paths sample_paths = bytes_of_string "/srv".
Proof.
  apply (scan_root_recovered (bytes_of_string "/srv") sample_paths).
  - discriminate.
  - split.
    + intros p Hp. repeat (apply elem_of_cons in Hp as [-> | Hp]; [by eexists|]). by apply not_elem_of_nil in Hp.
    + intros a b H. apply list_elem_of_In in H. cbv in H. destruct H as [H|[H|[H|[]]]]; injection H as H.
      * destruct a as [|x [|y a]]; discriminate H.
      * destruct a as [|x [|y [|z [|w a]]]]; try discriminate H. injection H as <- _. left.
      * destruct a as [|x [|y a]]; discriminate H.
  - repeat constructor.
Defined.

(** A snapshot has one metadata record per path: the paths of the blocks with
    their records, padded or cut if the stream does not fit, sorted by path. *)
Theorem snapshot_sorted_pairs ps ms kind prune_ :
  let s := finish_snapshot ps ms kind prune_ in
  length (metadata s) = length (paths s) /\
  StronglySorted (not_above bytes_lt) (paths s) /\
  combine (paths s) (metadata s) ≡ₚ
    combine ps (if (length ps =? length ms)%nat then ms else resize_metadata ms (length ps)).
Proof.
  cbn [finish_snapshot paths metadata]. set (ms' := if (length ps =? length ms)%nat then ms else _).
  assert (Hl : length ms' = length ps).
  { unfold ms'. destruct (Nat.eqb_spec (length ps) (length ms)); [lia|apply length_resize]. }
  split; [|split].
  - by rewrite !length_map.
  - pose proof (StronglySorted_merge_sort path_le (combine ps ms')) as S.
    fold (sort_together ps ms') in S. induction S as [|x l S IH F]; [constructor|].
    cbn [map]. constructor; [done|]. apply Forall_map. exact F.
  - rewrite combine_fst_snd. apply merge_sort_Permutation.
Qed.
