(* ===== verification/ShowdiffCompare.v ===== *)
(** * flocate-showdiff: comparing snapshots and the live tree (src/showdiff.cpp)

    [diff_snapshots] merges two sorted snapshots; [diff_with_live] walks the file
    system and looks every entry up in one snapshot.  Both are proved to give
    exactly the events of one specification, [expected_event]: what became of a
    path, from its metadata before and after.  The file system is a parameter. *)
From S2P Require Import Prelude Text Metadata FileStat ShowdiffDb.

(** ** Events *)

Definition make_event (kind : HistoryEventKind) (path : bytes) (old_meta new_meta : FileMetadata)
    : HistoryEvent :=
  Event kind path unknown_dir_time old_meta new_meta.

Record EventFilter := FILTER {
  show_added : bool;
  show_removed : bool;
  show_modified : bool;
  filter_specified : bool
}.

Definition default_filter : EventFilter := FILTER true true true false.

Definition enable (kind : HistoryEventKind) (f : EventFilter) : EventFilter :=
  let '(FILTER a r m _) := if filter_specified f then f else FILTER false false false true in
  match kind with
  | EkAdded => FILTER true r m true
  | EkRemoved => FILTER a true m true
  | EkModified => FILTER a r true true
  | EkRunMarker | EkOther _ => FILTER a r m true
  end.

Definition accepts (f : EventFilter) (kind : HistoryEventKind) : bool :=
  match kind with
  | EkAdded => show_added f
  | EkRemoved => show_removed f
  | EkModified => show_modified f
  | EkRunMarker | EkOther _ => true
  end.

(** ** Two snapshots *)

(** [string::compare], as a sign. *)
Definition compare (a b : bytes) : Z :=
  if decide (a = b) then 0 else if bytes_lt a b then -1 else 1.

(** The loop of [diff_snapshots]; each list holds the paths from the index on
    with their metadata. *)
Fixpoint diff_loop (fuel : nat) (compare_atime : bool) (olds news : list (bytes * FileMetadata))
    : list HistoryEvent :=
  match fuel with
  | O => []
  | S fuel =>
    match olds, news with
    | [], [] => []
    | [], (p, m) :: news => make_event EkAdded p empty_metadata m :: diff_loop fuel compare_atime [] news
    | (p, m) :: olds, [] => make_event EkRemoved p m empty_metadata :: diff_loop fuel compare_atime olds []
    | (p, m) :: olds', (q, n) :: news' =>
      let cmp := compare p q in
      if cmp =? 0 then
        (if metadata_equals m n compare_atime then [] else [make_event EkModified q m n])
        ++ diff_loop fuel compare_atime olds' news'
      else if cmp <? 0 then
        make_event EkRemoved p m empty_metadata :: diff_loop fuel compare_atime olds' news
      else make_event EkAdded q empty_metadata n :: diff_loop fuel compare_atime olds news'
    end
  end.

Definition entries (s : Snapshot) : list (bytes * FileMetadata) := combine (paths s) (metadata s).

Definition diff_snapshots (compare_atime : bool) (old_snap new_snap : Snapshot) : list HistoryEvent :=
  diff_loop (length (entries old_snap) + length (entries new_snap)) compare_atime
    (entries old_snap) (entries new_snap).

(** ** The live tree *)

Definition metadata_from_stat (sb : Stat) : FileMetadata :=
  let time t := DirTime (dt_sec t) (i32 (dt_nsec t)) in
  Metadata true (u32 (st_mode sb)) (u32 (st_uid sb)) (u32 (st_gid sb)) (u64 (st_size sb))
    (time (st_mtim sb)) (time (st_ctim sb)) (time (st_atim sb)) empty_hash.

Definition set_hash (m : FileMetadata) (h : MetadataHash) : FileMetadata :=
  Metadata (md_enabled m) (md_mode m) (md_uid m) (md_gid m) (md_size m)
    (md_mtime m) (md_ctime m) (md_atime m) h.

(** [root] is on the right here: trailing slashes are dropped from the end. *)
Fixpoint drop_slashes (rev_root : bytes) : bytes :=
  match rev_root with
  | c :: ((_ :: _) as rest) => if c =? 47 then drop_slashes rest else rev_root
  | _ => rev_root
  end.

Definition normalize_root (root : bytes) : bytes :=
  let root := rev (drop_slashes (rev root)) in
  if decide (root = [47]) then [] else root.

Definition join_path (dir name : bytes) : bytes :=
  if decide (dir = [47]) then dir ++ name else dir ++ 47 :: name.

Record WalkDir := WALK {
  real : bytes;
  db : bytes;
  dev : Z;
  hash_allowed : bool;
  check_fs : bool
}.

(** [lower_bound] on a sorted list: the first element that is not smaller. *)
Fixpoint lower_bound (l : list bytes) (p : bytes) : nat :=
  match l with
  | [] => 0%nat
  | x :: l => if bytes_lt x p then S (lower_bound l p) else 0%nat
  end.

Section Live.
(** The file system: the entries of a directory with their [fstatat], a file's
    digest, and what the kernel says of a file system. *)
Context (opendir : bytes -> option (list (bytes * option Stat)))
  (compute_file_hash : bytes -> MetadataHashKind -> option MetadataHash)
  (fs_allows_hashing : bytes -> bool)
  (mounted_fs_type : bytes -> bytes)
  (compare_atime : bool) (hash_max_size : Z) (snapshot : Snapshot).

(** The entries that are looked at. *)
Definition live_entries (dir : WalkDir) : list (bytes * Stat) :=
  match opendir (real dir) with
  | None => []
  | Some des =>
    omap (fun '(name, sb) =>
      if bool_decide (name = [46]) || bool_decide (name = [46; 46]) || bool_decide (name = [])
      then None else option_map (pair name) sb) des
  end.

(** [dir.hash_allowed] after the check of a new file system. *)
Definition may_hash (dir : WalkDir) : bool :=
  match opendir (real dir) with
  | None => hash_allowed dir
  | Some _ =>
    if check_fs dir && negb (bool_decide (hash_kind snapshot = HkNone)) && hash_allowed dir
    then fs_allows_hashing (real dir) else hash_allowed dir
  end.

Definition find_path (db_path : bytes) : option (nat * FileMetadata) :=
  let it := lower_bound (paths snapshot) db_path in
  if bool_decide (paths snapshot !! it = Some db_path)
  then m ← metadata snapshot !! it; Some (it, m) else None.

(** The metadata an entry has now, with a digest where one is wanted. *)
Definition live_metadata (dir : WalkDir) (name : bytes) (sb : Stat) : FileMetadata :=
  let live := metadata_from_stat sb in
  let want_hash :=
    negb (bool_decide (hash_kind snapshot = HkNone)) && may_hash dir && S_ISREG (st_mode sb) in
  let want_hash :=
    if want_hash then
      match find_path (join_path (db dir) name) with
      | Some (_, stored) => negb (bool_decide (h_kind (md_hash stored) = HkNone)) &&
                            negb (h_length (md_hash stored) =? 0)%nat
      | None => (hash_max_size =? 0) || (u64 (st_size sb) <=? hash_max_size)
      end
    else false in
  if want_hash then
    match compute_file_hash (join_path (real dir) name) (hash_kind snapshot) with
    | Some h => set_hash live h
    | None => live
    end
  else live.

(** The event of one entry. *)
Definition entry_event (dir : WalkDir) (name : bytes) (sb : Stat) : list HistoryEvent :=
  let db_path := join_path (db dir) name in
  let live := live_metadata dir name sb in
  match find_path db_path with
  | Some (_, stored) =>
    if metadata_equals stored live compare_atime then []
    else [make_event EkModified db_path stored live]
  | None => [make_event EkAdded db_path empty_metadata live]
  end.

(** The directory that an entry adds to the stack, unless it is pruned. *)
Definition entry_push (dir : WalkDir) (name : bytes) (sb : Stat) : list WalkDir :=
  let db_path := join_path (db dir) name in
  let real_path := join_path (real dir) name in
  if negb (S_ISDIR (st_mode sb)) then []
  else if bool_decide (name ∈ prunenames (prune snapshot)) ||
          bool_decide (db_path ∈ prunepaths (prune snapshot)) then []
  else
    let new_fs := negb (st_dev sb =? dev dir) in
    let type := mounted_fs_type real_path in
    if new_fs && negb (bool_decide (prunefs (prune snapshot) = [])) &&
       (negb (bool_decide (type = [])) && bool_decide (type ∈ prunefs (prune snapshot))) then []
    else [WALK real_path db_path (st_dev sb) (may_hash dir) new_fs].

Definition entry_seen (dir : WalkDir) (name : bytes) (seen : list bool) : list bool :=
  match find_path (join_path (db dir) name) with
  | Some (idx, _) => <[idx := true]> seen
  | None => seen
  end.

(** The loop over the directories: the stack's top is the head of the list. *)
Fixpoint walk (fuel : nat) (stack : list WalkDir) (events : list HistoryEvent) (seen : list bool)
    : option (list HistoryEvent * list bool) :=
  match stack with
  | [] => Some (events, seen)
  | dir :: stack =>
    match fuel with
    | O => None
    | S fuel =>
      let des := live_entries dir in
      walk fuel (rev (concat (map (fun '(name, sb) => entry_push dir name sb) des)) ++ stack)
        (events ++ concat (map (fun '(name, sb) => entry_event dir name sb) des))
        (fold_left (fun seen '(name, _) => entry_seen dir name seen) des seen)
    end
  end.

(** The snapshot's entries that were never seen. *)
Fixpoint removed_events (ps : list (bytes * FileMetadata)) (seen : list bool) : list HistoryEvent :=
  match ps, seen with
  | (p, m) :: ps, s :: seen =>
    (if s : bool then [] else [make_event EkRemoved p m empty_metadata]) ++ removed_events ps seen
  | _, _ => []
  end.

Definition event_le (a b : HistoryEvent) : Prop := not_above bytes_lt (ev_path a) (ev_path b).

#[global] Instance event_le_dec a b : Decision (event_le a b).
Proof. unfold event_le. apply _. Defined.

Definition root_dir (root : bytes) (root_sb : Stat) : WalkDir :=
  WALK (normalize_root root ++ scan_root snapshot) (scan_root snapshot) (st_dev root_sb) true true.

(** [lstat] of the root is a parameter; [Some None] is the refusal. *)
Definition diff_with_live (lstat : bytes -> option Stat) (fuel : nat) (root : bytes)
    : option (option (list HistoryEvent)) :=
  match lstat (normalize_root root ++ scan_root snapshot) with
  | None => Some None
  | Some root_sb =>
    if negb (S_ISDIR (st_mode root_sb)) then Some None
    else
      '(events, seen) ← walk fuel [root_dir root root_sb] [] (replicate (length (paths snapshot)) false);
      Some (Some (merge_sort event_le (events ++ removed_events (entries snapshot) seen)))
  end.
End Live.

(** ** Specification *)

(** What becomes of a path. *)
Definition expected_event (compare_atime : bool) (p : bytes) (old new : option FileMetadata)
    : option HistoryEvent :=
  match old, new with
  | None, None => None
  | Some m, None => Some (make_event EkRemoved p m empty_metadata)
  | None, Some n => Some (make_event EkAdded p empty_metadata n)
  | Some m, Some n =>
    if metadata_equals m n compare_atime then None else Some (make_event EkModified p m n)
  end.

(** A snapshot as a map. *)
Definition entry_map (l : list (bytes * FileMetadata)) : gmap bytes FileMetadata := list_to_map l.

(** Strictly increasing paths, each with its metadata: what [load_snapshot] makes
    of a database without repeated paths. *)
Record snapshot_ok (s : Snapshot) : Prop := {
  ok_length : length (metadata s) = length (paths s);
  ok_sorted : StronglySorted (not_above bytes_lt) (paths s);
  ok_nodup : NoDup (paths s)
}.

(** ** Order of entries: lemmas *)

Definition before (a b : bytes * FileMetadata) : Prop := bytes_lt (fst a) (fst b) = true.

Lemma compare_spec a b :
  (compare a b = 0 /\ a = b) \/ (compare a b = -1 /\ bytes_lt a b = true) \/
  (compare a b = 1 /\ bytes_lt b a = true).
Proof.
  unfold compare. destruct (decide (a = b)) as [->|Hn]; [by left|]. right.
  destruct (bytes_lt a b) eqn:E; [by left|]. right. split; [done|].
  destruct (bytes_lt b a) eqn:E2; [done|]. by destruct Hn; apply bytes_lt_trichotomy.
Qed.

Lemma strictly_before a b : not_above bytes_lt a b -> a <> b -> bytes_lt a b = true.
Proof.
  intros H Hn. destruct (bytes_lt a b) eqn:E; [done|]. by destruct Hn; apply bytes_lt_trichotomy.
Qed.

Lemma entries_sorted s : snapshot_ok s -> StronglySorted before (entries s).
Proof.
  intros [Hl S N]. unfold entries. revert Hl. generalize (metadata s). induction S as [|p ps S IH F]; intros ms Hl.
  - constructor.
  - destruct ms as [|m ms]; [done|]. cbn [combine]. apply NoDup_cons in N as [Hp N].
    constructor; [apply IH; [done|cbn in Hl; lia]|]. apply Forall_forall. intros [q n] Hin.
    apply list_elem_of_In, in_combine_l, list_elem_of_In in Hin. cbn. apply strictly_before.
    + rewrite Forall_forall in F. by apply F.
    + intros E. cbn in E. by subst.
Qed.

(** A path before all others is not among them. *)
Lemma lookup_before p l : Forall (before (p, empty_metadata)) l -> entry_map l !! p = None.
Proof.
  intros F. apply not_elem_of_list_to_map_1. intros H. apply list_elem_of_fmap in H as ([q m] & -> & Hin).
  rewrite Forall_forall in F. specialize (F _ Hin). unfold before in F. cbn in F.
  by rewrite bytes_lt_irrefl in F.
Qed.

Lemma before_trans p q m n l : bytes_lt p q = true -> Forall (before (q, n)) l ->
  Forall (before (p, m)) ((q, n) :: l).
Proof.
  intros H F. constructor; [done|]. eapply Forall_impl; [exact F|]. intros [r k]. unfold before. cbn.
  by apply bytes_lt_trans.
Qed.

(** ** Events: lemmas *)

Lemma expected_event_path c p o n e : expected_event c p o n = Some e -> ev_path e = p.
Proof.
  destruct o, n; cbn; try (by intros [= <-]). destruct (metadata_equals _ _ _); [done|by intros [= <-]].
Qed.

(** Adding a path that neither side had adds its event. *)
Lemma event_step (c : bool) (p : bytes) (o n : option FileMetadata)
    (L R L' R' : gmap bytes FileMetadata) (e : HistoryEvent) :
  L' !! p = None -> R' !! p = None ->
  (forall q, L !! q = if decide (q = p) then o else L' !! q) ->
  (forall q, R !! q = if decide (q = p) then n else R' !! q) ->
  expected_event c (ev_path e) (L !! ev_path e) (R !! ev_path e) = Some e <->
  expected_event c p o n = Some e \/
  expected_event c (ev_path e) (L' !! ev_path e) (R' !! ev_path e) = Some e.
Proof.
  intros HL HR EL ER. rewrite EL, ER. destruct (decide (ev_path e = p)) as [->|Hne].
  - rewrite HL, HR. cbn. split; [by left|by intros [|]].
  - split; [by right|]. intros [H|H]; [|done]. by apply expected_event_path in H.
Qed.

Lemma entry_map_cons p m l q : entry_map ((p, m) :: l) !! q = if decide (q = p) then Some m else entry_map l !! q.
Proof.
  unfold entry_map. cbn. destruct (decide (q = p)) as [->|Hn].
  - by rewrite lookup_insert_eq.
  - by rewrite lookup_insert_ne.
Qed.

Lemma entry_map_same p l q : entry_map l !! p = None ->
  entry_map l !! q = if decide (q = p) then None else entry_map l !! q.
Proof. intros H. by destruct (decide (q = p)) as [->|]. Qed.

Lemma elem_option_list {A} (o : option A) (l l' : list A) x :
  l = match o with Some y => y :: l' | None => l' end -> x ∈ l <-> o = Some x \/ x ∈ l'.
Proof.
  intros ->. destruct o as [y|]; [|split; [by right|by intros [|]]]. rewrite elem_of_cons. split.
  - intros [->|H]; [by left|by right].
  - intros [[= ->]|H]; [by left|by right].
Qed.

Lemma diff_loop_spec c fuel : forall olds news,
  (length olds + length news <= fuel)%nat -> StronglySorted before olds -> StronglySorted before news ->
  forall e, e ∈ diff_loop fuel c olds news <->
    expected_event c (ev_path e) (entry_map olds !! ev_path e) (entry_map news !! ev_path e) = Some e.
Proof.
  induction fuel as [|fuel IH]; intros olds news Hf So Sn e.
  { destruct olds, news; cbn in Hf; try lia. cbn. split; [by intros ?%not_elem_of_nil|done]. }
  cbn [diff_loop]. destruct olds as [|[p m] olds], news as [|[q n] news].
  - cbn. split; [by intros ?%not_elem_of_nil|done].
  - inversion Sn as [|? ? Sn' Fn]; subst. pose proof (lookup_before q news Fn) as Hq.
    rewrite (event_step c q None (Some n) _ _ (entry_map []) (entry_map news)); [|done|done| |apply entry_map_cons].
    2: { intros r. by destruct (decide _). }
    rewrite <- IH by (done || (cbn in *; lia)). by apply elem_option_list.
  - inversion So as [|? ? So' Fo]; subst. pose proof (lookup_before p olds Fo) as Hp.
    rewrite (event_step c p (Some m) None _ _ (entry_map olds) (entry_map [])); [|done|done|apply entry_map_cons|].
    2: { intros r. by destruct (decide _). }
    rewrite <- IH by (done || (cbn in *; lia)). by apply elem_option_list.
  - inversion So as [|? ? So' Fo]; subst. inversion Sn as [|? ? Sn' Fn]; subst.
    pose proof (lookup_before p olds Fo) as Hp. pose proof (lookup_before q news Fn) as Hq.
    destruct (compare_spec p q) as [[-> <-]|[[-> Hlt]|[-> Hlt]]]; cbn [Z.eqb Z.ltb Z.compare].
    + rewrite (event_step c p (Some m) (Some n) _ _ (entry_map olds) (entry_map news));
        [|done|done|apply entry_map_cons|apply entry_map_cons].
      rewrite <- IH by (done || (cbn in *; lia)). apply elem_option_list. cbn.
      by destruct (metadata_equals m n c).
    + pose proof (lookup_before p _ (before_trans p q empty_metadata n news Hlt Fn)) as Hp'.
      rewrite (event_step c p (Some m) None _ _ (entry_map olds) (entry_map ((q, n) :: news)));
        [|done|done|apply entry_map_cons|intros r; by apply entry_map_same].
      rewrite <- IH by (done || (cbn in *; lia)). by apply elem_option_list.
    + pose proof (lookup_before q _ (before_trans q p empty_metadata m olds Hlt Fo)) as Hq'.
      rewrite (event_step c q None (Some n) _ _ (entry_map ((p, m) :: olds)) (entry_map news));
        [|done|done|intros r; by apply entry_map_same|apply entry_map_cons].
      rewrite <- IH by (done || (cbn in *; lia)). by apply elem_option_list.
Qed.

Lemma lookup_after p m l q n : Forall (before (p, m)) l -> entry_map l !! q = Some n -> bytes_lt p q = true.
Proof.
  intros F H. apply elem_of_list_to_map_2 in H. rewrite Forall_forall in F. apply (F _ H).
Qed.

Definition event_before (a b : HistoryEvent) : Prop := bytes_lt (ev_path a) (ev_path b) = true.

(** Events of later paths come after an event of [p]. *)
Lemma later_events c fuel p m n olds news : (length olds + length news <= fuel)%nat ->
  StronglySorted before olds -> StronglySorted before news ->
  Forall (before (p, m)) olds -> Forall (before (p, n)) news ->
  Forall (fun e => bytes_lt p (ev_path e) = true) (diff_loop fuel c olds news).
Proof.
  intros Hf So Sn Fo Fn. apply Forall_forall. intros e He. apply diff_loop_spec in He; [|done|done|done].
  destruct (entry_map olds !! ev_path e) eqn:E1; [eapply lookup_after; [exact Fo|exact E1]|].
  destruct (entry_map news !! ev_path e) eqn:E2; [eapply lookup_after; [exact Fn|exact E2]|]. done.
Qed.

Lemma diff_loop_sorted c fuel : forall olds news,
  (length olds + length news <= fuel)%nat -> StronglySorted before olds -> StronglySorted before news ->
  StronglySorted event_before (diff_loop fuel c olds news).
Proof.
  induction fuel as [|fuel IH]; intros olds news Hf So Sn; [constructor|]. cbn [diff_loop].
  destruct olds as [|[p m] olds], news as [|[q n] news].
  - constructor.
  - inversion Sn as [|? ? Sn' Fn]; subst. constructor; [apply IH; [cbn in *; lia|done|done]|].
    eapply (later_events _ _ q n n); [cbn in *; lia|done|done|constructor|done].
  - inversion So as [|? ? So' Fo]; subst. constructor; [apply IH; [cbn in *; lia|done|done]|].
    eapply (later_events _ _ p m m); [cbn in *; lia|done|done|done|constructor].
  - inversion So as [|? ? So' Fo]; subst. inversion Sn as [|? ? Sn' Fn]; subst.
    destruct (compare_spec p q) as [[-> <-]|[[-> Hlt]|[-> Hlt]]]; cbn [Z.eqb Z.ltb Z.compare].
    + assert (S : StronglySorted event_before (diff_loop fuel c olds news)) by (apply IH; [cbn in *; lia|done|done]).
      destruct (metadata_equals m n c); [done|]. constructor; [done|].
      eapply (later_events _ _ p m n); [cbn in *; lia|done|done|done|done].
    + constructor; [apply IH; [cbn in *; lia|done|done]|].
      eapply (later_events _ _ p m m); [cbn in *; lia|done|done|done|by apply before_trans].
    + constructor; [apply IH; [cbn in *; lia|done|done]|].
      eapply (later_events _ _ q n n); [cbn in *; lia|done|done|by apply before_trans|done].
Qed.

Lemma entries_map s p : snapshot_ok s -> forall m, entry_map (entries s) !! p = Some m <-> (p, m) ∈ entries s.
Proof.
  intros [Hl S N] m. unfold entry_map. symmetry. apply elem_of_list_to_map.
  unfold entries. assert (E : (combine (paths s) (metadata s)).*1 = paths s).
  { clear - Hl. revert Hl. generalize (metadata s). induction (paths s) as [|q qs IH]; intros [|n ns] H; try done.
    cbn. f_equal. apply IH. cbn in H. lia. }
  by rewrite E.
Qed.

(** C29. Comparing two databases reports exactly what became of every path - added
    when only the new one has it, removed when only the old one has it, modified
    when their metadata differ - each path once, in order. *)
Theorem diff_snapshots_exact compare_atime old_snap new_snap :
  snapshot_ok old_snap -> snapshot_ok new_snap ->
  let events := diff_snapshots compare_atime old_snap new_snap in
  StronglySorted event_before events /\
  forall e, e ∈ events <->
    expected_event compare_atime (ev_path e) (entry_map (entries old_snap) !! ev_path e)
      (entry_map (entries new_snap) !! ev_path e) = Some e.
Proof.
  intros Ho Hn. cbn zeta. unfold diff_snapshots. split.
  - apply diff_loop_sorted; [lia|by apply entries_sorted|by apply entries_sorted].
  - intros e. apply diff_loop_spec; [lia|by apply entries_sorted|by apply entries_sorted].
Qed.

Definition mk_metadata (size : Z) : FileMetadata :=
  Metadata true 33188 0 0 size unknown_dir_time unknown_dir_time unknown_dir_time empty_hash.

Definition snap_1 : Snapshot :=
  SNAPSHOT [bytes_of_string "/a"; bytes_of_string "/b"] [mk_metadata 1; mk_metadata 2] HkNone no_prune [47].
Definition snap_2 : Snapshot :=
  SNAPSHOT [bytes_of_string "/b"; bytes_of_string "/c"] [mk_metadata 3; mk_metadata 4] HkNone no_prune [47].

Lemma snap_1_ok : snapshot_ok snap_1.
Proof. split; [done|by repeat constructor|]. apply (bool_decide_unpack _). vm_compute. exact I. Qed.
Lemma snap_2_ok : snapshot_ok snap_2.
Proof. split; [done|by repeat constructor|]. apply (bool_decide_unpack _). vm_compute. exact I. Qed.

Lemma diff_snapshots_exact_witness :
  map ev_kind (diff_snapshots false snap_1 snap_2) = [EkRemoved; EkModified; EkAdded] /\
  StronglySorted event_before (diff_snapshots false snap_1 snap_2).
Proof.
  split; [vm_compute; reflexivity|].
  apply (diff_snapshots_exact false snap_1 snap_2 snap_1_ok snap_2_ok).
Defined.

(** ** Looking a path up: lemmas *)

Lemma lower_bound_spec l p : StronglySorted (not_above bytes_lt) l -> NoDup l ->
  forall i, l !! i = Some p <-> l !! lower_bound l p = Some p /\ i = lower_bound l p.
Proof.
  induction 1 as [|x l S IH F]; intros N i; [by split; [|intros []]|].
  apply NoDup_cons in N as [Hx N]. cbn [lower_bound]. destruct (bytes_lt x p) eqn:E.
  - destruct i as [|i].
    + cbn. split; [|by intros []]. intros [= ->]. by rewrite bytes_lt_irrefl in E.
    + cbn. rewrite (IH N). split; [intros [? ->]; done|intros [? [= ->]]; done].
  - split; [|by intros [? ->]]. intros Hi. destruct i as [|i]; [done|]. exfalso. cbn in Hi.
    apply list_elem_of_lookup_2 in Hi as Hin. rewrite Forall_forall in F. specialize (F _ Hin).
    assert (x = p) as -> by by apply bytes_lt_trichotomy. done.
Qed.

Lemma find_path_spec s p : snapshot_ok s ->
  match entry_map (entries s) !! p with
  | Some m => exists i, find_path s p = Some (i, m) /\ paths s !! i = Some p
  | None => find_path s p = None /\ forall i, paths s !! i <> Some p
  end.
Proof.
  intros Hs. pose proof Hs as [Hl S N]. unfold find_path.
  destruct (entry_map (entries s) !! p) as [m|] eqn:E.
  - apply entries_map in E; [|done]. apply list_elem_of_lookup in E as [i Hi]. unfold entries in Hi.
    assert (Hp : paths s !! i = Some p /\ metadata s !! i = Some m).
    { clear - Hi. revert Hi. generalize (metadata s) i. induction (paths s) as [|q qs IH]; intros [|n ns] [|j] H; try done.
      - cbn in H. by injection H as -> ->.
      - cbn in *. by apply IH. }
    destruct Hp as [Hp Hm]. exists i. apply (lower_bound_spec _ _ S N) in Hp as [Hp ->].
    rewrite bool_decide_true by done. by rewrite Hm.
  - assert (Hn : forall i, paths s !! i <> Some p).
    { intros i Hi. destruct (lookup_lt_is_Some_2 (metadata s) i) as [m Hm].
      { rewrite Hl. by eapply lookup_lt_Some. }
      assert (Hin : (p, m) ∈ entries s).
      { unfold entries. clear - Hi Hm. revert Hi Hm. generalize (metadata s) i.
        induction (paths s) as [|q qs IH]; intros [|n ns] [|j] H1 H2; try done.
        - cbn in *. injection H1 as ->. injection H2 as ->. left.
        - cbn in *. right. by eapply IH. }
      apply entries_map in Hin; [|done]. congruence. }
    split; [|done]. by rewrite bool_decide_false.
Qed.

(** ** The walk: lemmas *)

Lemma elem_of_rev {A} (l : list A) x : x ∈ rev l <-> x ∈ l.
Proof. rewrite !list_elem_of_In. symmetry. apply in_rev. Qed.

Section live_lemmas.
Context (opendir : bytes -> option (list (bytes * option Stat)))
  (compute_file_hash : bytes -> MetadataHashKind -> option MetadataHash)
  (fs_allows_hashing : bytes -> bool)
  (mounted_fs_type : bytes -> bytes)
  (compare_atime : bool) (hash_max_size : Z) (snapshot : Snapshot).

(** The directories below a directory. *)
Definition children (d : WalkDir) : list WalkDir :=
  concat (map (fun '(name, sb) => entry_push opendir fs_allows_hashing mounted_fs_type snapshot d name sb)
    (live_entries opendir d)).
Definition child (a b : WalkDir) : Prop := b ∈ children a.

Inductive reach : WalkDir -> WalkDir -> Prop :=
| reach_refl d : reach d d
| reach_step a b d : child a b -> reach b d -> reach a d.

Lemma reach_trans a b d : reach a b -> reach b d -> reach a d.
Proof. induction 1; [done|]. intros. eapply reach_step; eauto. Qed.

(** What the walk finds at a path. *)
Definition live_at (root : WalkDir) (p : bytes) (m : FileMetadata) : Prop :=
  exists d name sb, reach root d /\ (name, sb) ∈ live_entries opendir d /\
    p = join_path (db d) name /\
    m = live_metadata opendir compute_file_hash fs_allows_hashing hash_max_size snapshot d name sb.

Definition dir_events (d : WalkDir) : list HistoryEvent :=
  concat (map (fun '(name, sb) => entry_event opendir compute_file_hash fs_allows_hashing compare_atime
    hash_max_size snapshot d name sb) (live_entries opendir d)).

Definition dir_seen (d : WalkDir) (seen : list bool) : list bool :=
  fold_left (fun seen '(name, _) => entry_seen snapshot d name seen) (live_entries opendir d) seen.

Let walk' := walk opendir compute_file_hash fs_allows_hashing mounted_fs_type compare_atime
  hash_max_size snapshot.

Lemma walk_cons fuel d stack events seen :
  walk' (S fuel) (d :: stack) events seen =
  walk' fuel (rev (children d) ++ stack) (events ++ dir_events d) (dir_seen d seen).
Proof. done. Qed.

(** The directories that a finished walk has looked at: those on the stack and
    everything below, nothing else. *)
Lemma walk_dirs fuel : forall stack events seen events' seen',
  walk' fuel stack events seen = Some (events', seen') ->
  exists ds, events' = events ++ concat (map dir_events ds) /\
    seen' = fold_left (fun seen d => dir_seen d seen) ds seen /\
    (forall d, d ∈ stack -> d ∈ ds) /\ (forall a b, a ∈ ds -> child a b -> b ∈ ds) /\
    (forall d, d ∈ ds -> exists s, s ∈ stack /\ reach s d).
Proof.
  induction fuel as [|fuel IH]; intros stack events seen events' seen' H.
  - destruct stack; [|done]. apply (inj Some) in H. injection H as <- <-. exists [].
    rewrite app_nil_r. repeat split; try done; intros; by apply not_elem_of_nil in H.
  - destruct stack as [|d stack].
    { apply (inj Some) in H. injection H as <- <-. exists [].
      rewrite app_nil_r. repeat split; try done; intros; by apply not_elem_of_nil in H. }
    rewrite walk_cons in H. destruct (IH _ _ _ _ _ H) as (ds & -> & -> & Hst & Hcl & Hre).
    exists (d :: ds). cbn [map concat fold_left]. rewrite app_assoc. split; [done|]. split; [done|].
    split; [|split].
    + intros d' [->|Hd]%elem_of_cons; [left|]. right. apply Hst, elem_of_app. by right.
    + intros a b [->|Ha]%elem_of_cons Hab; right; [|by eapply Hcl].
      apply Hst, elem_of_app. left. by apply elem_of_rev.
    + intros d' [->|Hd]%elem_of_cons; [exists d; split; [left|constructor]|].
      destruct (Hre _ Hd) as (s & Hs & Hr). apply elem_of_app in Hs as [Hs|Hs].
      * rewrite elem_of_rev in Hs. exists d. split; [left|]. by eapply reach_step.
      * exists s. split; [by right|done].
Qed.

Lemma walk_reaches root fuel events seen events' seen' :
  walk' fuel [root] events seen = Some (events', seen') ->
  exists ds, events' = events ++ concat (map dir_events ds) /\
    seen' = fold_left (fun seen d => dir_seen d seen) ds seen /\ (forall d, d ∈ ds <-> reach root d).
Proof.
  intros H. destruct (walk_dirs _ _ _ _ _ _ H) as (ds & -> & -> & Hst & Hcl & Hre).
  exists ds. split; [done|]. split; [done|]. intros d. split.
  - intros Hd. destruct (Hre _ Hd) as (s & Hs & Hr). by apply list_elem_of_singleton in Hs as ->.
  - assert (Hall : forall a b, reach a b -> a ∈ ds -> b ∈ ds).
    { induction 1 as [|a b e Hab Hr IH]; [done|]. intros Ha. by eapply IH, Hcl. }
    intros Hr. apply (Hall _ _ Hr), Hst. left.
Qed.

(** A walk over a finite tree ends. *)
Lemma walk_ends d : Acc (fun b a => child a b) d -> forall stack,
  (forall events seen, exists fuel r, walk' fuel stack events seen = Some r) ->
  forall events seen, exists fuel r, walk' fuel (d :: stack) events seen = Some r.
Proof.
  induction 1 as [d _ IH]. intros stack Hst events seen.
  assert (Hall : forall cs, (forall b, b ∈ cs -> child d b) -> forall events seen,
    exists fuel r, walk' fuel (cs ++ stack) events seen = Some r).
  { induction cs as [|b cs IHcs]; intros Hcs; [exact Hst|]. cbn [app]. apply IH; [apply Hcs; left|].
    apply IHcs. intros b' Hb'. apply Hcs. by right. }
  destruct (Hall (rev (children d)) ltac:(intros b Hb; by rewrite elem_of_rev in Hb)
    (events ++ dir_events d) (dir_seen d seen)) as (fuel & r & H).
  exists (S fuel), r. by rewrite walk_cons.
Qed.

(** The events of one entry are the expected ones. *)
Lemma entry_event_spec d name sb e : snapshot_ok snapshot ->
  e ∈ entry_event opendir compute_file_hash fs_allows_hashing compare_atime hash_max_size snapshot d name sb <->
  expected_event compare_atime (join_path (db d) name)
    (entry_map (entries snapshot) !! join_path (db d) name)
    (Some (live_metadata opendir compute_file_hash fs_allows_hashing hash_max_size snapshot d name sb)) = Some e.
Proof.
  intros Hs. unfold entry_event. set (p := join_path (db d) name). set (n := live_metadata _ _ _ _ _ d name sb).
  pose proof (find_path_spec snapshot p Hs) as Hf. destruct (entry_map (entries snapshot) !! p) as [m|].
  - destruct Hf as (i & -> & _). cbn [expected_event]. destruct (metadata_equals m n compare_atime).
    + split; [by intros ?%not_elem_of_nil|done].
    + rewrite list_elem_of_singleton. split; [by intros ->|by intros [= ->]].
  - destruct Hf as [-> _]. cbn [expected_event]. rewrite list_elem_of_singleton.
    split; [by intros ->|by intros [= ->]].
Qed.

Lemma dir_events_spec d e : e ∈ dir_events d <-> exists name sb, (name, sb) ∈ live_entries opendir d /\
  e ∈ entry_event opendir compute_file_hash fs_allows_hashing compare_atime hash_max_size snapshot d name sb.
Proof.
  unfold dir_events. generalize (live_entries opendir d). intros l. induction l as [|[name sb] l IH].
  - cbn. split; [by intros ?%not_elem_of_nil|]. by intros (? & ? & ?%not_elem_of_nil & _).
  - cbn [map concat]. rewrite elem_of_app, IH. split.
    + intros [H|(name' & sb' & Hin & H)]; [exists name, sb|exists name', sb']; (split; [|done]); [left|by right].
    + intros (name' & sb' & [H|H]%elem_of_cons & He); [injection H as -> ->; by left|right; eauto].
Qed.

(** Marking entries as seen. *)
Lemma entry_seen_length d name seen : length (entry_seen snapshot d name seen) = length seen.
Proof. unfold entry_seen. destruct (find_path _ _) as [[i m]|]; [by rewrite length_insert|done]. Qed.

Lemma dir_seen_length d : forall seen, length (dir_seen d seen) = length seen.
Proof.
  unfold dir_seen. generalize (live_entries opendir d). intros l.
  induction l as [|[name sb] l IH]; intros seen; [done|]. cbn [fold_left]. by rewrite IH, entry_seen_length.
Qed.

Lemma all_seen_length ds : forall seen, length (fold_left (fun seen d => dir_seen d seen) ds seen) = length seen.
Proof. induction ds as [|d ds IH]; intros seen; [done|]. cbn [fold_left]. by rewrite IH, dir_seen_length. Qed.

Section marks.
Context (Hs : snapshot_ok snapshot) (i : nat) (p : bytes) (Hi : paths snapshot !! i = Some p).

Lemma entry_seen_spec d name seen : length seen = length (paths snapshot) ->
  entry_seen snapshot d name seen !! i = Some true <-> seen !! i = Some true \/ join_path (db d) name = p.
Proof.
  intros Hl. unfold entry_seen. pose proof (find_path_spec snapshot (join_path (db d) name) Hs) as Hf.
  destruct Hs as [_ S N]. destruct (entry_map (entries snapshot) !! join_path (db d) name) as [m|].
  - destruct Hf as (j & -> & Hj). destruct (Nat.eq_dec j i) as [->|Hne].
    + rewrite list_lookup_insert_eq by (rewrite Hl; by eapply lookup_lt_Some). split; [|done]. intros _. right.
      congruence.
    + rewrite list_lookup_insert_ne by done. split; [by left|]. intros [|H]; [done|]. exfalso. apply Hne.
      rewrite <- H in Hi. by eapply NoDup_lookup.
  - destruct Hf as [-> Hn]. split; [by left|]. intros [|H]; [done|]. rewrite <- H in Hi. by destruct (Hn i).
Qed.

Lemma dir_seen_spec d seen : length seen = length (paths snapshot) ->
  dir_seen d seen !! i = Some true <->
  seen !! i = Some true \/ exists name sb, (name, sb) ∈ live_entries opendir d /\ join_path (db d) name = p.
Proof.
  unfold dir_seen. revert seen. generalize (live_entries opendir d). intros l.
  induction l as [|[name sb] l IH]; intros seen Hl; cbn [fold_left].
  - split; [by left|]. by intros [|(? & ? & ?%not_elem_of_nil & _)].
  - rewrite IH by (by rewrite entry_seen_length). rewrite entry_seen_spec by done. split.
    + intros [[H|H]|(name' & sb' & Hin & H)]; [by left| |]; right; [exists name, sb|exists name', sb'];
        (split; [|done]); [left|by right].
    + intros [H|(name' & sb' & [H|H]%elem_of_cons & He')]; [by do 2 left| |right; eauto].
      injection H as -> ->. left. by right.
Qed.

Lemma all_seen_spec ds : forall seen, length seen = length (paths snapshot) ->
  fold_left (fun seen d => dir_seen d seen) ds seen !! i = Some true <->
  seen !! i = Some true \/
  exists d name sb, d ∈ ds /\ (name, sb) ∈ live_entries opendir d /\ join_path (db d) name = p.
Proof.
  induction ds as [|d ds IH]; intros seen Hl; cbn [fold_left].
  - split; [by left|]. by intros [|(? & ? & ? & ?%not_elem_of_nil & _)].
  - rewrite IH by (by rewrite dir_seen_length). rewrite dir_seen_spec by done. split.
    + intros [[H|(name & sb & H)]|(d' & name & sb & Hd & H)]; [by left| |]; right;
        [exists d, name, sb|exists d', name, sb]; (split; [|done]); [left|by right].
    + intros [H|(d' & name & sb & [->|H]%elem_of_cons & He')]; [by do 2 left| |right; eauto 6].
      left. right. eauto.
Qed.
End marks.

Lemma removed_events_spec ps ms seen e : length ms = length ps -> length seen = length ps ->
  e ∈ removed_events (combine ps ms) seen <->
  exists i p m, ps !! i = Some p /\ combine ps ms !! i = Some (p, m) /\ seen !! i <> Some true /\
    e = make_event EkRemoved p m empty_metadata.
Proof.
  revert ms seen. induction ps as [|p ps IH]; intros [|m ms] [|s seen] H1 H2; try done.
  { cbn. split; [by intros ?%not_elem_of_nil|]. by intros (? & ? & ? & ? & _). }
  cbn [combine removed_events]. rewrite elem_of_app, IH by (cbn in *; lia). split.
  - intros [H|(i & q & n & H3 & H4 & H5 & H6)]; [|by exists (S i), q, n].
    destruct s; [by apply not_elem_of_nil in H|]. apply list_elem_of_singleton in H as ->.
    by exists 0%nat, p, m.
  - intros ([|i] & q & n & H3 & H4 & H5 & H6); [|right; by exists i, q, n].
    cbn in *. injection H4 as -> ->. left. destruct s; [done|].
    by apply list_elem_of_singleton.
Qed.

#[local] Instance event_le_total : Total event_le.
Proof. intros a b. apply (total (not_above bytes_lt)). Qed.
#[local] Instance event_le_trans : Transitive event_le.
Proof. intros a b c. apply (transitivity (R := not_above bytes_lt)). Qed.

(** What the walk over the directories [ds] reports and marks. *)
Section walked.
Context (Hs : snapshot_ok snapshot) (root : WalkDir) (ds : list WalkDir) (Hds : forall d, d ∈ ds <-> reach root d).

Lemma walked_events e : e ∈ concat (map dir_events ds) <->
  exists m, live_at root (ev_path e) m /\
    expected_event compare_atime (ev_path e) (entry_map (entries snapshot) !! ev_path e) (Some m) = Some e.
Proof.
  transitivity (exists d, d ∈ ds /\ e ∈ dir_events d).
  { clear Hds. induction ds as [|d l IH]; cbn [map concat].
    - split; [by intros ?%not_elem_of_nil|]. by intros (? & ?%not_elem_of_nil & _).
    - rewrite elem_of_app, IH. split.
      + intros [H|(d' & H & H')]; [exists d|exists d']; (split; [|done]); [left|by right].
      + intros (d' & [->|H]%elem_of_cons & He); [by left|right; eauto]. }
  split.
  - intros (d & Hd & He). apply dir_events_spec in He as (name & sb & Hin & He).
    apply entry_event_spec in He; [|done]. pose proof (expected_event_path _ _ _ _ _ He) as Hp.
    rewrite Hp. eexists. split; [|exact He]. exists d, name, sb. by rewrite <- Hds.
  - intros (m & (d & name & sb & Hr & Hin & Hp & ->) & He). exists d. rewrite Hds. split; [done|].
    apply dir_events_spec. exists name, sb. split; [done|]. apply entry_event_spec; [done|].
    by rewrite <- Hp.
Qed.

Lemma walked_removals e :
  e ∈ removed_events (entries snapshot)
        (fold_left (fun seen d => dir_seen d seen) ds (replicate (length (paths snapshot)) false)) <->
  ~ (exists m, live_at root (ev_path e) m) /\
  expected_event compare_atime (ev_path e) (entry_map (entries snapshot) !! ev_path e) None = Some e.
Proof.
  unfold entries at 1. rewrite removed_events_spec by (apply Hs || by rewrite all_seen_length, length_replicate).
  assert (Hseen : forall i p, paths snapshot !! i = Some p ->
    (fold_left (fun seen d => dir_seen d seen) ds (replicate (length (paths snapshot)) false) !! i = Some true <->
     exists m, live_at root p m)).
  { intros i p Hi. rewrite (all_seen_spec Hs i p Hi) by apply length_replicate. split.
    - intros [H|(d & name & sb' & H1 & H2 & H3)]; [by apply lookup_replicate in H as [? _]|].
      apply Hds in H1. eexists. by exists d, name, sb'.
    - intros (m & d & name & sb' & H1 & H2 & -> & _). right. exists d, name, sb'. by rewrite Hds. }
  split.
  - intros (i & p & m & Hi & Hm & Hno & ->). cbn [make_event ev_path]. rewrite (Hseen i p Hi) in Hno.
    split; [done|]. assert (E : entry_map (entries snapshot) !! p = Some m); [|by rewrite E].
    apply entries_map; [done|]. by eapply list_elem_of_lookup_2.
  - intros [Hno He]. destruct (entry_map (entries snapshot) !! ev_path e) as [m|] eqn:E; [|done].
    apply entries_map in E; [|done]. apply list_elem_of_lookup in E as [i Hi].
    assert (Hp : paths snapshot !! i = Some (ev_path e)).
    { clear - Hi. unfold entries in Hi. revert i Hi. generalize (metadata snapshot).
      induction (paths snapshot) as [|q qs IH]; intros [|n ns] [|j] H; try done.
      - cbn in H. by injection H as <- _.
      - cbn in *. by eapply IH. }
    exists i, (ev_path e), m. split; [done|]. split; [done|]. split; [by rewrite (Hseen _ _ Hp)|].
    cbn in He. by injection He as <-.
Qed.
End walked.

(** C28. The live comparison ends on every finite tree and reports, sorted by path,
    exactly what became of each path: for a path the walk reaches, what the
    snapshot's metadata and the present metadata make of it; for a path of the
    snapshot that the walk does not reach, its removal. *)
Theorem diff_with_live_exact lstat root sb : snapshot_ok snapshot ->
  lstat (normalize_root root ++ scan_root snapshot) = Some sb -> S_ISDIR (st_mode sb) = true ->
  Acc (fun b a => child a b) (root_dir snapshot root sb) ->
  exists fuel events,
  diff_with_live opendir compute_file_hash fs_allows_hashing mounted_fs_type compare_atime hash_max_size
    snapshot lstat fuel root = Some (Some events) /\
  StronglySorted event_le events /\
  forall e, e ∈ events <->
    let p := ev_path e in let old := entry_map (entries snapshot) !! p in
    (exists m, live_at (root_dir snapshot root sb) p m /\
       expected_event compare_atime p old (Some m) = Some e) \/
    (~ (exists m, live_at (root_dir snapshot root sb) p m) /\
       expected_event compare_atime p old None = Some e).
Proof.
  intros Hs Hst Hd HA. unfold diff_with_live. rewrite Hst, Hd. cbn [negb].
  destruct (walk_ends _ HA [] ltac:(intros ev se; by exists 0%nat, (ev, se)) []
    (replicate (length (paths snapshot)) false)) as (fuel & [events seen] & Hw).
  exists fuel, (merge_sort event_le (events ++ removed_events (entries snapshot) seen)).
  fold walk'. rewrite Hw. split; [done|]. split; [apply (StronglySorted_merge_sort event_le)|].
  intros e. rewrite merge_sort_Permutation, elem_of_app. cbn zeta.
  destruct (walk_reaches _ _ _ _ _ _ Hw) as (ds & -> & -> & Hds). cbn [app].
  by rewrite (walked_events Hs _ _ Hds), (walked_removals Hs _ _ Hds).
Qed.
End live_lemmas.

(** A small file system: [/a] has grown, [/b] is gone, [/d/x] is new. *)
Definition sample_stat (mode size : Z) : Stat :=
  STAT mode 0 0 size unknown_dir_time unknown_dir_time unknown_dir_time 1.

Definition sample_opendir (p : bytes) : option (list (bytes * option Stat)) :=
  if decide (p = [47]) then
    Some [([46], None); (bytes_of_string "a", Some (sample_stat 33188 5)); (bytes_of_string "d", Some (sample_stat 16877 0))]
  else if decide (p = bytes_of_string "/d") then Some [(bytes_of_string "x", Some (sample_stat 33188 1))]
  else None.

Lemma diff_with_live_exact_witness :
  (exists fuel events,
    diff_with_live sample_opendir (fun _ _ => None) (fun _ => true) (fun _ => []) false 0 snap_1
      (fun _ => Some (sample_stat 16877 0)) fuel [47] = Some (Some events) /\
    StronglySorted event_le events) /\
  option_map (option_map (map (fun e => (ev_kind e, ev_path e))))
    (diff_with_live sample_opendir (fun _ _ => None) (fun _ => true) (fun _ => []) false 0 snap_1
      (fun _ => Some (sample_stat 16877 0)) 2 [47]) =
  Some (Some [(EkModified, bytes_of_string "/a"); (EkRemoved, bytes_of_string "/b");
              (EkAdded, bytes_of_string "/d"); (EkAdded, bytes_of_string "/d/x")]).
Proof.
  split; [|vm_compute; reflexivity].
  destruct (diff_with_live_exact sample_opendir (fun _ _ => None) (fun _ => true) (fun _ => []) false 0 snap_1
    (fun _ => Some (sample_stat 16877 0)) [47] (sample_stat 16877 0) snap_1_ok eq_refl eq_refl)
    as (fuel & events & H1 & H2 & _).
  - constructor. intros b Hb. unfold child in Hb. apply list_elem_of_In in Hb. vm_compute in Hb.
    destruct Hb as [<-|[]]. constructor. intros b Hb. unfold child in Hb. apply list_elem_of_In in Hb.
    vm_compute in Hb. destruct Hb.
  - exists fuel, events. split; [exact H1|exact H2].
Defined.
