(* ===== verification/ShowdiffReport.v ===== *)
(** * flocate-showdiff: reports and modes (src/showdiff.cpp)

    The human-readable and the JSON form of events, and the three modes behind
    the command line.  Output is the bytes written; the local time of a run
    marker and decompression are parameters. *)
From S2P Require Import Prelude Text Metadata FileStat MetadataCodec Conf ShowdiffDb ShowdiffCompare.

(** ** Formats *)

(** [snprintf] into a buffer of [n] bytes. *)
Definition snprintf (n : nat) (s : bytes) : bytes := take (n - 1) s.

Fixpoint digits_in (base : Z) (fuel : nat) (z : Z) (acc : bytes) : bytes :=
  match fuel with
  | O => acc
  | S fuel =>
    let d := z mod base in
    let acc := (if d <? 10 then 48 + d else 87 + d) :: acc in
    if z <? base then acc else digits_in base fuel (z / base) acc
  end.

Definition to_octal (z : Z) : bytes := digits_in 8 22 z [].
Definition pad0 (n : nat) (s : bytes) : bytes := replicate (n - length s) 48 ++ s.

Definition hash_kind_name (kind : MetadataHashKind) : bytes :=
  match kind with
  | HkNone => bytes_of_string "none"
  | HkSha256 => bytes_of_string "sha256"
  | HkXxHash64 => bytes_of_string "xxh64"
  | HkOther _ => bytes_of_string "unknown"
  end.

Definition hex : bytes := bytes_of_string "0123456789abcdef".
Definition hex_digit (d : Z) : Z := nth (Z.to_nat (Z.land d 15)) hex 0.

Definition hash_hex (hash : MetadataHash) : bytes :=
  concat (map (fun v => [hex_digit (Z.shiftr v 4); hex_digit v]) (take (h_length hash) (h_value hash))).

(** ["%lld.%09d"] *)
Definition format_09d (n : Z) : bytes :=
  if n <? 0 then 45 :: pad0 8 (to_string (- n)) else pad0 9 (to_string n).

Definition time_text (t : dir_time) : bytes := to_string (dt_sec t) ++ [46] ++ format_09d (dt_nsec t).
Definition format_time (t : dir_time) : bytes := snprintf 64 (time_text t).

Definition has_hash (meta : FileMetadata) : bool :=
  negb (bool_decide (h_kind (md_hash meta) = HkNone)) && negb (h_length (md_hash meta) =? 0)%nat.

Definition metadata_text (meta : FileMetadata) : bytes :=
  bytes_of_string "mode=" ++ to_octal (md_mode meta)
  ++ bytes_of_string " uid=" ++ to_string (md_uid meta)
  ++ bytes_of_string " gid=" ++ to_string (md_gid meta)
  ++ bytes_of_string " size=" ++ to_string (md_size meta)
  ++ bytes_of_string " mtime=" ++ format_time (md_mtime meta)
  ++ bytes_of_string " ctime=" ++ format_time (md_ctime meta)
  ++ bytes_of_string " atime=" ++ format_time (md_atime meta).

Definition format_metadata (meta : FileMetadata) : bytes :=
  if negb (md_enabled meta) then bytes_of_string "(none)"
  else
    snprintf 256 (metadata_text meta)
    ++ (if has_hash meta
        then bytes_of_string " hash=" ++ hash_kind_name (h_kind (md_hash meta)) ++ [58] ++ hash_hex (md_hash meta)
        else []).

(** ** JSON *)

Definition json_char (c : Z) : bytes :=
  if c =? 34 then [92; 34]
  else if c =? 92 then [92; 92]
  else if c =? 10 then [92; 110]
  else if c =? 13 then [92; 114]
  else if c =? 9 then [92; 116]
  else if c <? 32 then snprintf 8 (bytes_of_string "\u" ++ pad0 4 (digits_in 16 8 c []))
  else [c].

Definition json_string (s : bytes) : bytes := [34] ++ concat (map json_char s) ++ [34].

(** A string constant holds no doubled quote, so the quotes of the formats are
    spelled [quoted]. *)
Definition quoted (s : bytes) : bytes := [34] ++ s ++ [34].
Definition key (name : string) : bytes := quoted (bytes_of_string name) ++ [58].

Definition json_fields_text (meta : FileMetadata) : bytes :=
  [123] ++ key "mode" ++ quoted (to_octal (md_mode meta)) ++ [44]
  ++ key "uid" ++ to_string (md_uid meta) ++ [44]
  ++ key "gid" ++ to_string (md_gid meta) ++ [44]
  ++ key "size" ++ to_string (md_size meta) ++ [44].

Definition json_metadata (meta : FileMetadata) : bytes :=
  if negb (md_enabled meta) then bytes_of_string "null"
  else
    snprintf 128 (json_fields_text meta)
    ++ key "mtime" ++ quoted (format_time (md_mtime meta)) ++ [44]
    ++ key "ctime" ++ quoted (format_time (md_ctime meta)) ++ [44]
    ++ key "atime" ++ quoted (format_time (md_atime meta)) ++ [44]
    ++ (if has_hash meta
        then key "hash" ++ [123] ++ key "kind" ++ quoted (hash_kind_name (h_kind (md_hash meta))) ++ [44]
             ++ key "hex" ++ quoted (hash_hex (md_hash meta)) ++ [125]
        else key "hash" ++ bytes_of_string "null")
    ++ [125].

(** The text up to the next comma, and what follows it. *)
Fixpoint span_comma (s : bytes) : bytes * option bytes :=
  match s with
  | [] => ([], None)
  | c :: s => if c =? 44 then ([], Some s) else let '(w, rest) := span_comma s in (c :: w, rest)
  end.

(** The loop over the fields; [out] is the output so far. *)
Fixpoint fields_loop (fuel : nat) (fields out : bytes) : bytes :=
  match fuel with
  | O => out
  | S fuel =>
    let '(field, rest) := span_comma fields in
    let out := (if (1 <? length out)%nat then out ++ [44] else out) ++ json_string field in
    match rest with
    | None => out
    | Some rest => fields_loop fuel rest out
    end
  end.

Definition json_changed_fields (old_meta new_meta : FileMetadata) : bytes :=
  let fields := metadata_diff_fields old_meta new_meta in
  (match fields with [] => [91] | _ => fields_loop (length fields) fields [91] end) ++ [93].

(** ** Events *)

Definition kind_name (kind : HistoryEventKind) : bytes :=
  match kind with
  | EkAdded => bytes_of_string "ADDED"
  | EkRemoved => bytes_of_string "REMOVED"
  | EkModified => bytes_of_string "MODIFIED"
  | EkRunMarker => bytes_of_string "RUN"
  | EkOther _ => bytes_of_string "UNKNOWN"
  end.

Section Report.
(** [localtime_r] and [strftime], and the [--json] flag. *)
Context (local_time : Z -> option bytes) (json_output : bool).

Definition print_run_marker (event : HistoryEvent) : bytes :=
  let baseline := bool_decide (ev_path event = bytes_of_string "baseline") in
  if json_output then
    [123] ++ key "kind" ++ quoted (bytes_of_string "RUN") ++ [44]
    ++ key "time" ++ quoted (format_time (ev_time event)) ++ [44]
    ++ key "baseline" ++ bytes_of_string (if baseline then "true" else "false") ++ [125; 10]
  else
    let when := if dt_sec (ev_time event) =? 0 then bytes_of_string "unknown time"
                else match local_time (dt_sec (ev_time event)) with
                     | Some t => t
                     | None => bytes_of_string "unknown time"
                     end in
    bytes_of_string "=== run " ++ when
    ++ (if baseline then bytes_of_string " (baseline: full scan, no per-file events)" else [])
    ++ bytes_of_string " ===" ++ [10].

Definition print_event (event : HistoryEvent) : bytes :=
  if bool_decide (ev_kind event = EkRunMarker) then print_run_marker event
  else if json_output then
    [123] ++ key "kind" ++ quoted (kind_name (ev_kind event)) ++ [44]
    ++ key "path" ++ json_string (ev_path event) ++ [44]
    ++ key "time" ++ quoted (format_time (ev_time event)) ++ [44]
    ++ key "old" ++ json_metadata (ev_old event) ++ [44]
    ++ key "new" ++ json_metadata (ev_new event) ++ [44]
    ++ key "changed"
    ++ (if bool_decide (ev_kind event = EkModified) then json_changed_fields (ev_old event) (ev_new event)
        else bytes_of_string "[]")
    ++ [125; 10]
  else
    [91] ++ kind_name (ev_kind event) ++ bytes_of_string "] " ++ c_str (ev_path event) ++ [10]
    ++ (let old := bytes_of_string "  old: " ++ format_metadata (ev_old event) ++ [10] in
        let new := bytes_of_string "  new: " ++ format_metadata (ev_new event) ++ [10] in
        match ev_kind event with
        | EkAdded => new
        | EkRemoved => old
        | _ => old ++ new ++ bytes_of_string "  changed: "
               ++ metadata_diff_fields (ev_old event) (ev_new event) ++ [10]
        end).

(** The output and the number of events printed. *)
Fixpoint print_events (events : list HistoryEvent) (filter : EventFilter) : bytes * nat :=
  match events with
  | [] => ([], 0%nat)
  | event :: events =>
    let '(out, printed) := print_events events filter in
    if negb (accepts filter (ev_kind event)) then (out, printed)
    else (print_event event ++ out,
          if bool_decide (ev_kind event = EkRunMarker) then printed else S printed)
  end.
End Report.

(** ** Specification *)

(** A JSON reader for strings, as RFC 8259 has them; [\u] escapes of one byte. *)
Definition hex_value (c : Z) : option Z :=
  if between 48 57 c then Some (c - 48)
  else if between 97 102 c then Some (c - 87)
  else if between 65 70 c then Some (c - 55) else None.

Fixpoint json_read_body (fuel : nat) (s : bytes) : option (bytes * bytes) :=
  match fuel with
  | O => None
  | S fuel =>
    match s with
    | [] => None
    | c :: s =>
      if c =? 34 then Some ([], s)
      else if c <? 32 then None
      else if negb (c =? 92) then '(r, rest) ← json_read_body fuel s; Some (c :: r, rest)
      else
        match s with
        | [] => None
        | e :: s =>
          let one v := '(r, rest) ← json_read_body fuel s; Some (v :: r, rest) in
          if e =? 34 then one 34 else if e =? 92 then one 92 else if e =? 47 then one 47
          else if e =? 98 then one 8 else if e =? 102 then one 12
          else if e =? 110 then one 10 else if e =? 114 then one 13 else if e =? 116 then one 9
          else if e =? 117 then
            match s with
            | a :: b :: c :: d :: s =>
              va ← hex_value a; vb ← hex_value b; vc ← hex_value c; vd ← hex_value d;
              '(r, rest) ← json_read_body fuel s;
              Some (4096 * va + 256 * vb + 16 * vc + vd :: r, rest)
            | _ => None
            end
          else None
        end
    end
  end.

Definition json_read (s : bytes) : option (bytes * bytes) :=
  match s with
  | c :: s => if c =? 34 then json_read_body (S (length s)) s else None
  | [] => None
  end.

(** ** Strings: lemmas *)

Lemma json_char_cases c : is_byte c ->
  (json_char c = [c] /\ 32 <= c /\ c <> 34 /\ c <> 92) \/
  exists e, json_char c = 92 :: e /\ Forall (fun b => 32 <= b) e /\ (1 <= length e <= 5)%nat /\
    forall fuel s, json_read_body (S fuel) (92 :: e ++ s) =
      '(r, rest) ← json_read_body fuel s; Some (c :: r, rest).
Proof.
  intros Hc. destruct (Z_lt_ge_dec c 32) as [H|H].
  - right. assert (Hr : 0 <= c < 32) by (unfold is_byte in Hc; lia). clear Hc H.
    assert (Hin : c ∈ map Z.of_nat (seq 0 32)).
    { apply list_elem_of_fmap. exists (Z.to_nat c). split; [lia|]. apply elem_of_seq. lia. }
    cbn [seq map] in Hin. repeat (apply elem_of_cons in Hin as [->|Hin];
      [eexists; split; [vm_compute; reflexivity|]; split; [repeat constructor; discriminate|];
       split; [cbn; lia|]; intros fuel s; cbn -[json_read_body]; cbn [json_read_body];
       destruct (json_read_body fuel s) as [[? ?]|]; reflexivity|]). by apply not_elem_of_nil in Hin.
  - destruct (Z.eq_dec c 34) as [->|H34].
    { right. eexists. split; [reflexivity|]. split; [repeat constructor; discriminate|]. split; [cbn; lia|done]. }
    destruct (Z.eq_dec c 92) as [->|H92].
    { right. eexists. split; [reflexivity|]. split; [repeat constructor; discriminate|]. split; [cbn; lia|done]. }
    left. unfold json_char. repeat (rewrite (proj2 (Z.eqb_neq _ _)) by lia).
    rewrite (proj2 (Z.ltb_ge _ _)) by lia. split; [done|lia].
Qed.

Lemma json_read_body_string s : forall fuel rest, Forall is_byte s -> (length s < fuel)%nat ->
  json_read_body fuel (concat (map json_char s) ++ 34 :: rest) = Some (s, rest).
Proof.
  induction s as [|c s IH]; intros fuel rest F Hf; (destruct fuel as [|fuel]; [cbn in Hf; lia|]); [done|].
  apply Forall_cons in F as [Hc F]. cbn [map concat]. rewrite <- app_assoc.
  specialize (IH fuel rest F ltac:(cbn in Hf; lia)).
  destruct (json_char_cases c Hc) as [(-> & H1 & H2 & H3)|(e & -> & _ & _ & He)].
  - cbn [app json_read_body]. rewrite (proj2 (Z.eqb_neq c 34)) by done.
    rewrite (proj2 (Z.ltb_ge c 32)) by lia. rewrite (proj2 (Z.eqb_neq c 92)) by done. cbn [negb].
    by rewrite IH.
  - cbn [app]. by rewrite He, IH.
Qed.

Lemma json_chars_length s : Forall is_byte s -> (length s <= length (concat (map json_char s)))%nat.
Proof.
  induction 1 as [|c s Hc F IH]; [done|]. cbn [map concat length]. rewrite length_app.
  destruct (json_char_cases c Hc) as [(-> & _)|(e & -> & _ & H & _)]; cbn [length]; lia.
Qed.

Lemma json_chars_printable s : Forall is_byte s -> Forall (fun b => 32 <= b) (concat (map json_char s)).
Proof.
  induction 1 as [|c s Hc F IH]; [constructor|]. cbn [map concat]. apply Forall_app. split; [|done].
  destruct (json_char_cases c Hc) as [(-> & H & _)|(e & -> & H & _)]; [by apply Forall_singleton|].
  constructor; [lia|done].
Qed.

(** C31. Any path becomes a JSON string that a JSON reader turns back into exactly
    its bytes, and that holds no control character. *)
Theorem json_string_roundtrip s rest : Forall is_byte s ->
  json_read (json_string s ++ rest) = Some (s, rest) /\ Forall (fun b => 32 <= b) (json_string s).
Proof.
  intros F. split.
  - unfold json_string. rewrite <- !app_assoc. cbn [app json_read]. rewrite Z.eqb_refl.
    apply json_read_body_string; [done|]. pose proof (json_chars_length s F). rewrite length_app. cbn. lia.
  - unfold json_string. repeat (apply Forall_app; split); try (apply Forall_singleton; lia).
    by apply json_chars_printable.
Qed.

Lemma json_string_roundtrip_witness :
  json_read (json_string [47; 34; 10; 1; 92; 195; 164] ++ [44]) = Some ([47; 34; 10; 1; 92; 195; 164], [44]) /\
  Forall (fun b => 32 <= b) (json_string [47; 34; 10; 1; 92; 195; 164]).
Proof.
  apply (json_string_roundtrip [47; 34; 10; 1; 92; 195; 164] [44]).
  apply (bool_decide_unpack _). vm_compute. exact I.
Defined.

(** ** Buffers: lemmas *)

Lemma to_digits_length fuel : forall z acc k, 0 <= z < 10 ^ Z.of_nat k -> (1 <= k)%nat ->
  (length (to_digits fuel z acc) <= k + length acc)%nat.
Proof.
  induction fuel as [|fuel IH]; intros z acc k Hz Hk; cbn [to_digits]; [lia|].
  destruct (Z.ltb_spec z 10); [cbn; lia|]. destruct k as [|[|k]]; [lia|cbn in Hz; lia|].
  pose proof (Z.div_lt_upper_bound z 10 (10 ^ Z.of_nat (S k)) ltac:(lia)) as Hd.
  rewrite Nat2Z.inj_succ, Z.pow_succ_r in Hz by lia.
  etrans; [apply (IH _ _ (S k)); [split; [apply Z.div_pos; lia|apply Hd; lia]|lia]|cbn; lia].
Qed.

Lemma digits_in_length base fuel : forall z acc k, 2 <= base -> 0 <= z < base ^ Z.of_nat k -> (1 <= k)%nat ->
  (length (digits_in base fuel z acc) <= k + length acc)%nat.
Proof.
  induction fuel as [|fuel IH]; intros z acc k Hb Hz Hk; cbn [digits_in]; [lia|].
  destruct (Z.ltb_spec z base); [cbn; lia|].
  destruct k as [|[|k]]; [lia|rewrite Z.pow_1_r in Hz; lia|].
  pose proof (Z.div_lt_upper_bound z base (base ^ Z.of_nat (S k)) ltac:(lia)) as Hd.
  rewrite Nat2Z.inj_succ, Z.pow_succ_r in Hz by lia.
  etrans; [apply (IH _ _ (S k)); [done|split; [apply Z.div_pos; lia|apply Hd; lia]|lia]|cbn; lia].
Qed.

Lemma to_string_length z k : 0 <= z < 10 ^ Z.of_nat k -> (1 <= k)%nat -> (length (to_string z) <= k)%nat.
Proof.
  intros Hz Hk. unfold to_string. rewrite (proj2 (Z.ltb_ge z 0)) by lia.
  etrans; [by apply to_digits_length|cbn; lia].
Qed.

Lemma time_text_length t : dir_time_wf t -> (length (time_text t) <= 32)%nat.
Proof.
  intros [Hs Hn]. unfold time_text. rewrite !length_app. cbn [length].
  assert (length (to_string (dt_sec t)) <= 20)%nat.
  { unfold is_i64 in Hs. change (2 ^ 63) with 9223372036854775808 in Hs. unfold to_string.
    destruct (Z.ltb_spec (dt_sec t) 0); cbn [length].
    - pose proof (to_digits_length 20 (- dt_sec t) [] 19 ltac:(cbn; lia) ltac:(lia)) as H1. cbn [length] in H1. lia.
    - pose proof (to_digits_length 20 (dt_sec t) [] 19 ltac:(cbn; lia) ltac:(lia)) as H1. cbn [length] in H1. lia. }
  assert (length (format_09d (dt_nsec t)) <= 11)%nat.
  { unfold is_i32 in Hn. change (2 ^ 31) with 2147483648 in Hn. unfold format_09d, pad0.
    destruct (Z.ltb_spec (dt_nsec t) 0); cbn [length]; rewrite length_app, length_replicate.
    - pose proof (to_string_length (- dt_nsec t) 10 ltac:(cbn; lia) ltac:(lia)). lia.
    - pose proof (to_string_length (dt_nsec t) 10 ltac:(cbn; lia) ltac:(lia)). lia. }
  lia.
Qed.

Lemma snprintf_fits n s : (length s < n)%nat -> snprintf n s = s.
Proof. intros H. unfold snprintf. apply take_ge. lia. Qed.

Lemma format_time_length t : dir_time_wf t -> (length (format_time t) <= 32)%nat.
Proof.
  intros H. pose proof (time_text_length t H). unfold format_time. by rewrite snprintf_fits by lia.
Qed.

(** No line is cut short by the fixed buffers it is formatted in: for every
    value the fields can hold the text fits, times in 64 bytes, metadata in 256
    and the first part of their JSON form in 128. *)
Theorem format_buffers_fit m : metadata_wf m ->
  (forall t, dir_time_wf t -> snprintf 64 (time_text t) = time_text t) /\
  snprintf 256 (metadata_text m) = metadata_text m /\
  snprintf 128 (json_fields_text m) = json_fields_text m.
Proof.
  intros (Hm & Hu & Hg & Hs & H1 & H2 & H3 & _). split.
  { intros t Ht. pose proof (time_text_length t Ht). apply snprintf_fits. lia. }
  assert (E1 : (length (to_octal (md_mode m)) <= 11)%nat).
  { etrans; [apply (digits_in_length 8 22 _ [] 11); [lia|cbn; clear -Hm; solve_word|lia]|cbn; lia]. }
  assert (E2 : (length (to_string (md_uid m)) <= 10)%nat) by (apply to_string_length; [clear -Hu; cbn; solve_word|lia]).
  assert (E3 : (length (to_string (md_gid m)) <= 10)%nat) by (apply to_string_length; [clear -Hg; cbn; solve_word|lia]).
  assert (E4 : (length (to_string (md_size m)) <= 20)%nat) by (apply to_string_length; [clear -Hs; cbn; solve_word|lia]).
  apply format_time_length in H1, H2, H3. clear Hm Hu Hg Hs. split; apply snprintf_fits.
  - unfold metadata_text. rewrite !length_app.
    repeat match goal with |- context [length (bytes_of_string ?s)] =>
      let n := eval vm_compute in (length (bytes_of_string s)) in change (length (bytes_of_string s)) with n end. lia.
  - unfold json_fields_text, key, quoted. rewrite !length_app.
    repeat match goal with |- context [length (bytes_of_string ?s)] =>
      let n := eval vm_compute in (length (bytes_of_string s)) in change (length (bytes_of_string s)) with n end.
    cbn [length]. lia.
Qed.

Lemma format_buffers_fit_witness :
  snprintf 256 (metadata_text (mk_metadata 18446744073709551615)) = metadata_text (mk_metadata 18446744073709551615) /\
  snprintf 128 (json_fields_text (mk_metadata 18446744073709551615)) = json_fields_text (mk_metadata 18446744073709551615).
Proof.
  apply (format_buffers_fit (mk_metadata 18446744073709551615)).
  repeat split; try (vm_compute; congruence); try (cbn; lia). apply (bool_decide_unpack _). vm_compute. exact I.
Defined.

(** ** Changed fields: lemmas *)

(** The names joined with commas. *)
Fixpoint commas (l : list bytes) : bytes :=
  match l with
  | [] => []
  | [x] => x
  | x :: l => x ++ 44 :: commas l
  end.

Lemma commas_snoc l x : l <> [] -> commas (l ++ [x]) = commas l ++ 44 :: x.
Proof.
  induction l as [|y l IH]; [done|]. intros _. destruct l as [|z l]; [done|].
  change (commas ((y :: z :: l) ++ [x])) with (y ++ 44 :: commas ((z :: l) ++ [x])).
  rewrite IH by done. change (commas (y :: z :: l)) with (y ++ 44 :: commas (z :: l)).
  by rewrite <- app_assoc.
Qed.

Definition is_name (x : bytes) : Prop := x <> [] /\ 44 ∉ x.

Lemma commas_nil l : Forall is_name l -> commas l = [] -> l = [].
Proof.
  intros F. destruct l as [|x l]; [done|]. apply Forall_inv in F as [Hx _]. destruct l; cbn.
  - done.
  - by destruct x.
Qed.

Lemma span_comma_app w s : 44 ∉ w -> span_comma (w ++ 44 :: s) = (w, Some s).
Proof.
  induction w as [|c w IH]; [done|]. rewrite not_elem_of_cons. intros [H1 H2]. cbn [app span_comma].
  rewrite (proj2 (Z.eqb_neq c 44)) by done. by rewrite IH.
Qed.

Lemma span_comma_end w : 44 ∉ w -> span_comma w = (w, None).
Proof.
  induction w as [|c w IH]; [done|]. rewrite not_elem_of_cons. intros [H1 H2]. cbn [span_comma].
  rewrite (proj2 (Z.eqb_neq c 44)) by done. by rewrite IH.
Qed.

Lemma fields_loop_spec l : forall x fuel out, (length (commas (x :: l)) <= fuel)%nat -> Forall is_name (x :: l) ->
  (1 <= length out)%nat ->
  fields_loop fuel (commas (x :: l)) out =
  out ++ (if (1 <? length out)%nat then [44] else []) ++ commas (map json_string (x :: l)).
Proof.
  induction l as [|y l IH]; intros x fuel out Hf F Ho; apply Forall_cons in F as [[Hne Hx] F];
    (destruct fuel as [|fuel]; [destruct x; [done|cbn in Hf; try rewrite length_app in Hf; cbn in Hf; lia]|]); cbn [fields_loop].
  - cbn [commas map]. rewrite span_comma_end by done. destruct (1 <? length out)%nat; by rewrite <- ?app_assoc.
  - change (commas (x :: y :: l)) with (x ++ 44 :: commas (y :: l)) in *. rewrite span_comma_app by done.
    rewrite IH; [|rewrite length_app in Hf; cbn in *; lia|done|].
    2: { rewrite length_app. destruct (1 <? length out)%nat; rewrite ?length_app; lia. }
    assert (E : (1 <? length ((if (1 <? length out)%nat then out ++ [44%Z] else out) ++ json_string x))%nat = true).
    { apply Nat.ltb_lt. unfold json_string. rewrite !length_app. cbn [length].
      destruct (1 <? length out)%nat; rewrite ?length_app; lia. }
    rewrite E. cbn [map]. change (commas (json_string x :: json_string y :: map json_string l)) with
      (json_string x ++ 44 :: commas (json_string y :: map json_string l)).
    destruct (1 <? length out)%nat; by rewrite <- !app_assoc.
Qed.

Definition when (c : bool) (name : string) : list bytes := if c then [bytes_of_string name] else [].

(** The attributes that differ, by name, in the order of the record. *)
Definition changed_fields (a b : FileMetadata) : list bytes :=
  if negb (Bool.eqb (md_enabled a) (md_enabled b))
  then [bytes_of_string (if md_enabled a then "metadata-lost" else "metadata-gained")]
  else if negb (md_enabled a) then []
  else
    when (negb (md_mode a =? md_mode b)) "mode" ++ when (negb (md_uid a =? md_uid b)) "uid"
    ++ when (negb (md_gid a =? md_gid b)) "gid" ++ when (negb (md_size a =? md_size b)) "size"
    ++ when (negb (dir_time_equals (md_mtime a) (md_mtime b))) "mtime"
    ++ when (negb (dir_time_equals (md_ctime a) (md_ctime b))) "ctime"
    ++ when (negb (dir_time_equals (md_atime a) (md_atime b))) "atime"
    ++ when (negb (hash_equals (md_hash a) (md_hash b))) "hash".

Lemma add_field_if_commas c name l : Forall is_name l -> is_name (bytes_of_string name) ->
  add_field_if c name (commas l) = commas (l ++ when c name) /\ Forall is_name (l ++ when c name).
Proof.
  intros F Hn. unfold add_field_if, when. destruct c; [|by rewrite app_nil_r]. split.
  - unfold add_field. destruct (decide (commas l = [])) as [E|E].
    + by apply commas_nil in E as ->.
    + rewrite commas_snoc by (by intros ->). by rewrite <- app_assoc.
  - apply Forall_app. split; [done|]. by apply Forall_singleton.
Qed.

Lemma is_name_const s : bool_decide (bytes_of_string s <> [] /\ 44 ∉ bytes_of_string s) = true ->
  is_name (bytes_of_string s).
Proof. by rewrite bool_decide_eq_true. Qed.

Lemma diff_fields_commas a b :
  metadata_diff_fields a b = commas (changed_fields a b) /\ Forall is_name (changed_fields a b).
Proof.
  unfold metadata_diff_fields, changed_fields. destruct (negb (Bool.eqb _ _)).
  { destruct (md_enabled a); (split; [reflexivity|apply Forall_singleton, is_name_const; reflexivity]). }
  destruct (negb (md_enabled a)); [split; [done|constructor]|].
  pose proof (Forall_nil_2 is_name) as F. change (@nil Z) with (commas []) at 1. rewrite !app_assoc.
  change (when (negb (md_mode a =? md_mode b)) "mode") with ([] ++ when (negb (md_mode a =? md_mode b)) "mode").
  do 8 match goal with
  | F : Forall is_name ?l |- context [add_field_if ?c ?name (commas ?l)] =>
    let E := fresh "E" in
    destruct (add_field_if_commas c name l F (is_name_const name eq_refl)) as [E F'];
    rewrite E; clear E F; rename F' into F
  end.
  by split.
Qed.

(** The list of changed attributes in a JSON event names exactly the
    attributes that differ, as an array of strings. *)
Theorem json_changed_fields_exact a b :
  json_changed_fields a b = [91] ++ commas (map json_string (changed_fields a b)) ++ [93].
Proof.
  unfold json_changed_fields. destruct (diff_fields_commas a b) as [-> F].
  destruct (changed_fields a b) as [|x l]; [done|].
  assert (Hne : commas (x :: l) <> []) by (intros E; by apply commas_nil in E).
  destruct (commas (x :: l)) as [|c s] eqn:E; [done|]. rewrite <- E.
  rewrite fields_loop_spec; [|lia|done|cbn; lia]. cbn [length Nat.ltb Nat.leb app]. done.
Qed.

(** ** Modes *)

Section Main.
Context (zstd_stream : bytes -> option bytes)
  (zstd_content_size : bytes -> option Z)
  (zstd_decompress : option bytes -> bytes -> Z -> option bytes)
  (opendir : bytes -> option (list (bytes * option Stat)))
  (compute_file_hash : bytes -> MetadataHashKind -> option MetadataHash)
  (fs_allows_hashing : bytes -> bool)
  (mounted_fs_type : bytes -> bytes)
  (lstat : bytes -> option Stat)
  (local_time : Z -> option bytes)
  (open : bytes -> option bytes).

Record Options := OPTIONS {
  history_mode : bool;
  live_root : option bytes;
  filter_ : EventFilter;
  compare_atime : bool;
  hash_max_size : Z;
  json_output : bool;
  dbs : list bytes
}.

Definition initial_options : Options := OPTIONS false None default_filter false 0 false [].

(** What ends the program while the arguments are read. *)
Inductive Parsed :=
| Usage_failure
| Usage_success
| Version
| Ready (o : Options).

Fixpoint parse_argv (argv : list bytes) (o : Options) : Parsed :=
  match argv with
  | [] => Ready o
  | arg :: argv =>
    let '(OPTIONS history root filter atime max json dbs) := o in
    if decide (arg = bytes_of_string "--history") then parse_argv argv (OPTIONS true root filter atime max json dbs)
    else if decide (arg = bytes_of_string "--live") then
      match argv with
      | [] => Usage_failure
      | r :: argv => parse_argv argv (OPTIONS history (Some r) filter atime max json dbs)
      end
    else if decide (arg = bytes_of_string "--help") then Usage_success
    else if decide (arg = bytes_of_string "--version" \/ arg = bytes_of_string "-V") then Version
    else if decide (arg = bytes_of_string "--added-only") then
      parse_argv argv (OPTIONS history root (enable EkAdded filter) atime max json dbs)
    else if decide (arg = bytes_of_string "--removed-only") then
      parse_argv argv (OPTIONS history root (enable EkRemoved filter) atime max json dbs)
    else if decide (arg = bytes_of_string "--modified-only") then
      parse_argv argv (OPTIONS history root (enable EkModified filter) atime max json dbs)
    else if decide (arg = bytes_of_string "--compare-atime") then
      parse_argv argv (OPTIONS history root filter true max json dbs)
    else if decide (arg = bytes_of_string "--hash-max-size") then
      match argv with
      | [] => Usage_failure
      | s :: argv =>
        match parse_size s with
        | None => Usage_failure
        | Some v => parse_argv argv (OPTIONS history root filter atime v json dbs)
        end
      end
    else if decide (arg = bytes_of_string "--json") then
      parse_argv argv (OPTIONS history root filter atime max true dbs)
    else
      match arg with
      | 45 :: _ :: _ => Usage_failure
      | _ => parse_argv argv (OPTIONS history root filter atime max json (dbs ++ [arg]))
      end
  end.

(** A mode's output, or its failure. *)
Definition run_history_mode (o : Options) (db_path : bytes) : option (option bytes) :=
  r ← load_history_events zstd_stream (open db_path);
  Some match r with
       | inr _ => None
       | inl [] =>
         Some (if json_output o then []
               else bytes_of_string "No history events recorded in " ++ db_path ++ bytes_of_string "." ++ [10])
       | inl events => Some (fst (print_events local_time (json_output o) events (filter_ o)))
       end.

Definition run_diff_mode (o : Options) (old_db new_db : bytes) : option (option bytes) :=
  old_snap ← load_snapshot zstd_stream zstd_content_size zstd_decompress (open old_db);
  match old_snap with
  | inr _ => Some None
  | inl old_snap =>
    new_snap ← load_snapshot zstd_stream zstd_content_size zstd_decompress (open new_db);
    match new_snap with
    | inr _ => Some None
    | inl new_snap =>
      let events := diff_snapshots (compare_atime o) old_snap new_snap in
      let '(out, printed) := print_events local_time (json_output o) events (filter_ o) in
      Some (Some (out ++
        if (printed =? 0)%nat && negb (json_output o)
        then bytes_of_string "No differences between " ++ old_db ++ bytes_of_string " and " ++ new_db
             ++ bytes_of_string "." ++ [10]
        else []))
    end
  end.

Definition run_live_mode (o : Options) (fuel : nat) (db_path root : bytes) : option (option bytes) :=
  snap ← load_snapshot zstd_stream zstd_content_size zstd_decompress (open db_path);
  match snap with
  | inr _ => Some None
  | inl snap =>
    r ← diff_with_live opendir compute_file_hash fs_allows_hashing mounted_fs_type (compare_atime o)
          (hash_max_size o) snap lstat fuel root;
    match r with
    | None => Some None
    | Some events =>
      let '(out, printed) := print_events local_time (json_output o) events (filter_ o) in
      Some (Some (out ++
        if (printed =? 0)%nat && negb (json_output o)
        then bytes_of_string "No differences between " ++ db_path
             ++ bytes_of_string " and live filesystem rooted at " ++ root ++ bytes_of_string "." ++ [10]
        else []))
    end
  end.

(** The output and whether the program succeeds; the usage and version texts are
    not modelled. *)
Definition main (fuel : nat) (argv : list bytes) : option (bytes * bool) :=
  let result (r : option (option bytes)) :=
    r ← r; Some match r with Some out => (out, true) | None => ([], false) end in
  match parse_argv argv initial_options with
  | Usage_failure => Some ([], false)
  | Usage_success | Version => Some ([], true)
  | Ready o =>
    if bool_decide (dbs o = []) || (history_mode o && bool_decide (is_Some (live_root o))) then Some ([], false)
    else
      match live_root o, dbs o with
      | Some root, [db] => result (run_live_mode o fuel db root)
      | Some _, _ => Some ([], false)
      | None, [db] => result (run_history_mode o db)
      | None, [old_db; new_db] =>
        if history_mode o then Some ([], false) else result (run_diff_mode o old_db new_db)
      | None, _ => Some ([], false)
      end
  end.
End Main.

(** ** Printing: correctness *)

(** Printing writes, in order, the events whose kind is selected, and counts
    those that are not run markers; run markers are never filtered out. *)
Theorem print_events_exact local_time json events filter :
  print_events local_time json events filter =
  (concat (map (print_event local_time json) (List.filter (fun e => accepts filter (ev_kind e)) events)),
   length (List.filter (fun e => accepts filter (ev_kind e) && negb (bool_decide (ev_kind e = EkRunMarker))) events)) /\
  accepts filter EkRunMarker = true.
Proof.
  split; [|done]. induction events as [|e events IH]; [done|]. cbn [print_events List.filter]. rewrite IH.
  destruct (accepts filter (ev_kind e)); cbn [negb andb]; [|done].
  destruct (bool_decide (ev_kind e = EkRunMarker)); done.
Qed.
