(* ===== verification/Trigrams.v ===== *)
(** * Breaking a needle into trigrams (src/parse_trigrams.cpp, src/needle.cpp)

    A needle is read as a sequence of unigrams: literal bytes and glob
    constructs.  Every run of three literals is a trigram that a matching name
    must contain; ignoring case, a disjunction of trigrams.  Locale functions
    ([mbtowc], [wctomb], [towlower], [towupper]) are parameters.  What a needle matches
    is taken from [Glob]; [umatch] below is a step of the proofs. *)
From S2P Require Import Prelude Text Corpus Glob.

(** ** Definitions *)

Definition WILDCARD_UNIGRAM : Z := 4278190080.
Definition PREMATURE_END_UNIGRAM : Z := 4278190081.

(** The search for the end of a character class, [len] bytes in. *)
Fixpoint class_loop (s : bytes) (len : nat) : Z * nat :=
  match s with
  | [] => (PREMATURE_END_UNIGRAM, len)
  | c :: s => if c =? 93 then (WILDCARD_UNIGRAM, (len + 1)%nat) else class_loop s (len + 1)
  end.

(** [read_unigram] on the string from its start position on. *)
Definition read_unigram_at (s : bytes) : Z * nat :=
  match s with
  | [] => (PREMATURE_END_UNIGRAM, 0%nat)
  | c :: s' =>
    if c =? 92 then
      match s' with
      | [] => (PREMATURE_END_UNIGRAM, 1%nat)
      | d :: _ => (d, 2%nat)
      end
    else if (c =? 42) || (c =? 63) then (WILDCARD_UNIGRAM, 1%nat)
    else if c =? 91 then
      match s' with
      | [] => (PREMATURE_END_UNIGRAM, 1%nat)
      | d :: s'' =>
        let '(s', len) := if d =? 33 then (s'', 2%nat) else (s', 1%nat) in
        match s' with
        | [] => (PREMATURE_END_UNIGRAM, len)
        | d :: s'' =>
          if d =? 93 then class_loop s'' (len + 1) else class_loop s' len
        end
      end
    else (c, 1%nat)
  end.

Definition read_unigram (s : bytes) (start : nat) : Z * nat := read_unigram_at (drop start s).

Definition is_special (u : Z) : bool := (u =? WILDCARD_UNIGRAM) || (u =? PREMATURE_END_UNIGRAM).

Definition read_trigram (s : bytes) (start : nat) : Z :=
  let '(u1, l1) := read_unigram s start in
  if is_special u1 then u1
  else
    let '(u2, l2) := read_unigram s (start + l1) in
    if is_special u2 then u2
    else
      let '(u3, _) := read_unigram s (start + l1 + l2) in
      if is_special u3 then u3
      else Z.lor (Z.lor u1 (Z.shiftl u2 8)) (Z.shiftl u3 16).

(** [parse_trigrams], case-sensitive: one single-trigram group each. *)
Fixpoint parse_loop (fuel : nat) (needle : bytes) (i : nat) : list Z :=
  if (i <? length needle)%nat then
    match fuel with
    | O => []
    | S fuel =>
      let trgm := read_trigram needle i in
      let rest := parse_loop fuel needle (i + snd (read_unigram needle i)) in
      if is_special trgm then rest else trgm :: rest
    end
  else [].

Definition parse_trigrams (needle : bytes) : list Z := parse_loop (length needle) needle 0.

(** [unescape_glob_to_plain_string]; [None] ends the program. *)
Fixpoint unescape_loop (fuel : nat) (needle : bytes) (i : nat) : option bytes :=
  if (i <? length needle)%nat then
    match fuel with
    | O => None
    | S fuel =>
      let '(ch, len) := read_unigram needle i in
      if is_special ch then None
      else r ← unescape_loop fuel needle (i + len); Some (u8 ch :: r)
    end
  else Some [].

Definition unescape_glob_to_plain_string (needle : bytes) : option bytes :=
  unescape_loop (length needle) needle 0.

(** ** Ignoring case *)

Record TrigramState := TS { buffered : bytes; next_codepoint : nat }.

#[global] Instance TrigramState_eq_dec : EqDecision TrigramState.
Proof. solve_decision. Defined.

(** What the locale provides; [mb_decode] returns a character and its length. *)
Record Locale := LOC {
  mb_decode : bytes -> option (Z * nat);
  wctomb : Z -> bytes;
  towlower : Z -> Z;
  towupper : Z -> Z
}.

Definition alternatives (loc : Locale) (ch : Z) (raw : bytes) : list bytes :=
  [raw]
  ++ (if towlower loc ch =? ch then [] else [wctomb loc (towlower loc ch)])
  ++ (if (towupper loc ch =? ch) || (towupper loc ch =? towlower loc ch) then []
      else [wctomb loc (towupper loc ch)]).

(** The code points of the needle with their alternatives; a malformed needle
    ends the program. *)
Fixpoint codepoints (loc : Locale) (fuel : nat) (s : bytes) : option (list (list bytes)) :=
  match s with
  | [] => Some []
  | _ =>
    match fuel with
    | O => None
    | S fuel =>
      '(ch, ret) ← mb_decode loc s;
      rest ← codepoints loc fuel (drop ret s);
      Some (alternatives loc ch (take ret s) :: rest)
    end
  end.

(** One pass over the states: [None] is the early return, the flag
    [need_another_pass]. *)
Fixpoint extend_pass (alts : list (list bytes)) (states : list TrigramState)
    : option (list TrigramState * bool) :=
  match states with
  | [] => Some ([], false)
  | st :: states =>
    if negb (read_trigram (buffered st) 0 =? PREMATURE_END_UNIGRAM) then
      '(new_states, again) ← extend_pass alts states; Some (st :: new_states, again)
    else
      runes ← alts !! next_codepoint st;
      '(new_states, again) ← extend_pass alts states;
      Some (map (fun rune => TS (buffered st ++ rune) (S (next_codepoint st))) runes ++ new_states,
            (match runes with [] => false | _ => true end) || again)
  end.

(** The [do ... while] loop. *)
Fixpoint extend_all (fuel : nat) (alts : list (list bytes)) (states : list TrigramState)
    : option (option (list TrigramState)) :=
  match fuel with
  | O => None
  | S fuel =>
    match extend_pass alts states with
    | None => Some None
    | Some (states, again) =>
      if again : bool then extend_all fuel alts states else Some (Some states)
    end
  end.

Definition strip (st : TrigramState) : TrigramState :=
  TS (drop (snd (read_unigram (buffered st) 0)) (buffered st)) (next_codepoint st).

(** [operator<] of [TrigramState]. *)
Definition state_lt (a b : TrigramState) : bool :=
  if negb (next_codepoint a =? next_codepoint b)%nat
  then (next_codepoint a <? next_codepoint b)%nat
  else bytes_lt (buffered a) (buffered b).

(** The main loop: the groups of alternatives. *)
Fixpoint ignore_case_loop (fuel : nat) (alts : list (list bytes)) (states : list TrigramState)
    : option (list (list Z)) :=
  match fuel with
  | O => None
  | S fuel =>
    r ← extend_all (S (S (length alts))) alts states;
    match r with
    | None => Some []
    | Some states =>
      let trigram_alternatives := map (fun st => read_trigram (buffered st) 0) states in
      let any_wildcard := existsb (fun t => t =? WILDCARD_UNIGRAM) trigram_alternatives in
      let trigram_alternatives := unique_sort Z.ltb trigram_alternatives in
      let states := unique_sort state_lt (map strip states) in
      let group := if any_wildcard then [] else [trigram_alternatives] in
      if (100 <? length states)%nat then Some group
      else rest ← ignore_case_loop fuel alts states; Some (group ++ rest)
    end
  end.

Definition parse_trigrams_ignore_case (loc : Locale) (fuel : nat) (needle : bytes)
    : option (list (list Z)) :=
  alts ← codepoints loc (length needle) needle;
  ignore_case_loop fuel alts [TS [] 0].

(** ** Specification *)

(** The unigrams of a string. *)
Fixpoint unigrams_of (fuel : nat) (s : bytes) : list Z :=
  match s with
  | [] => []
  | _ =>
    match fuel with
    | O => []
    | S fuel => let '(u, len) := read_unigram_at s in u :: unigrams_of fuel (drop len s)
    end
  end.

Definition unigrams (s : bytes) : list Z := unigrams_of (length s) s.

(** A name matches a sequence of unigrams when literals match themselves; a glob
    construct (or an unterminated one) is allowed to match anything. *)
Inductive umatch : list Z -> bytes -> Prop :=
| um_nil : umatch [] []
| um_lit u us h : is_special u = false -> umatch us h -> umatch (u :: us) (u :: h)
| um_any u us w h : is_special u = true -> umatch us h -> umatch (u :: us) (w ++ h).

(** ** Unigrams: lemmas *)

Lemma class_loop_spec s : forall len u n, class_loop s len = (u, n) ->
  (len <= n <= len + length s)%nat /\ is_special u = true /\
  (u <> PREMATURE_END_UNIGRAM -> (len < n)%nat /\ forall x, class_loop (s ++ x) len = (u, n)).
Proof.
  induction s as [|c s IH]; intros len u n H; cbn [class_loop app length] in *.
  { injection H as <- <-. split; [lia|]. split; [done|]. intros Hu. by destruct Hu. }
  destruct (c =? 93) eqn:E.
  - injection H as <- <-. split; [lia|]. split; [done|]. intros _. split; [lia|]. intros x. done.
  - destruct (IH _ _ _ H) as (H1 & H2 & H3). split; [lia|]. split; [done|].
    intros Hu. destruct (H3 Hu) as [H4 H5]. split; [lia|done].
Qed.

Lemma read_unigram_at_spec s u n : Forall is_byte s -> s <> [] -> read_unigram_at s = (u, n) ->
  (1 <= n <= length s)%nat /\ (is_special u = false -> is_byte u) /\
  (u <> PREMATURE_END_UNIGRAM -> forall x, read_unigram_at (s ++ x) = (u, n)).
Proof.
  intros F Hne H. destruct s as [|c s]; [done|]. apply Forall_cons in F as [Hc F].
  cbn [read_unigram_at app] in *. destruct (c =? 92) eqn:E92.
  { destruct s as [|d s]; injection H as <- <-; cbn [length app].
    - split; [lia|]. split; [done|]. intros Hu. by destruct Hu.
    - apply Forall_cons in F as [Hd _]. split; [lia|]. done. }
  destruct ((c =? 42) || (c =? 63)) eqn:Ew.
  { injection H as <- <-. cbn [length]. split; [lia|]. done. }
  destruct (c =? 91) eqn:E91.
  2: { injection H as <- <-. cbn [length]. split; [lia|]. done. }
  destruct s as [|d s].
  { injection H as <- <-. cbn [length]. split; [lia|]. split; [done|]. intros Hu. by destruct Hu. }
  cbn [app length]. destruct (d =? 33) eqn:E33.
  - destruct s as [|e s].
    { injection H as <- <-. cbn [length]. split; [lia|]. split; [done|]. intros Hu. by destruct Hu. }
    cbn [app length]. destruct (e =? 93) eqn:E93.
    + destruct (class_loop_spec _ _ _ _ H) as (H1 & H2 & H3). split; [lia|].
      split; [congruence|]. intros Hu. apply (H3 Hu).
    + destruct (class_loop_spec _ _ _ _ H) as (H1 & H2 & H3). cbn [length] in H1. split; [lia|].
      split; [congruence|]. intros Hu. apply (H3 Hu).
  - destruct (d =? 93) eqn:E93.
    + destruct (class_loop_spec _ _ _ _ H) as (H1 & H2 & H3). split; [lia|].
      split; [congruence|]. intros Hu. apply (H3 Hu).
    + destruct (class_loop_spec _ _ _ _ H) as (H1 & H2 & H3). cbn [length] in H1. split; [lia|].
      split; [congruence|]. intros Hu. apply (H3 Hu).
Qed.

Lemma unigrams_fuel f1 : forall f2 s, Forall is_byte s -> (length s <= f1)%nat -> (length s <= f2)%nat ->
  unigrams_of f1 s = unigrams_of f2 s.
Proof.
  induction f1 as [|f1 IH]; intros f2 s F H1 H2; (destruct s as [|c s]; [by destruct f2|]);
    [cbn in H1; lia|]. destruct f2 as [|f2]; [cbn in H2; lia|]. cbn [unigrams_of].
  destruct (read_unigram_at (c :: s)) as [u n] eqn:E.
  destruct (read_unigram_at_spec _ _ _ F ltac:(done) E) as (Hn & _).
  f_equal. cbn [length] in *. apply IH; [by apply Forall_drop| |]; rewrite length_drop; cbn [length]; lia.
Qed.

(** The unigrams after the first. *)
Lemma unigrams_cons s u n : Forall is_byte s -> s <> [] -> read_unigram_at s = (u, n) ->
  unigrams s = u :: unigrams (drop n s).
Proof.
  intros F Hne E. unfold unigrams. destruct s as [|c s]; [done|].
  destruct (read_unigram_at_spec _ _ _ F Hne E) as (Hn & _).
  cbn [length unigrams_of]. rewrite E. f_equal.
  apply unigrams_fuel; [by apply Forall_drop| |done]. rewrite length_drop. cbn in *. lia.
Qed.

(** The trigram at the start of a unigram sequence. *)
Definition first_trigram (us : list Z) : option Z :=
  match us with
  | a :: b :: c :: _ =>
    if is_special a || is_special b || is_special c then None else Some (trigram_at a b c)
  | _ => None
  end.

Lemma lor_trigram a b c : is_byte a -> is_byte b -> is_byte c ->
  Z.lor (Z.lor a (Z.shiftl b 8)) (Z.shiftl c 16) = trigram_at a b c.
Proof.
  intros Ha Hb Hc. unfold is_byte in *. rewrite (lor_shiftl_add a b 8) by (change (2 ^ 8) with 256; lia).
  rewrite lor_shiftl_add by (change (2 ^ 8) with 256; change (2 ^ 16) with 65536; lia).
  change (2 ^ 8) with 256. change (2 ^ 16) with 65536. unfold trigram_at. lia.
Qed.

Lemma trigram_not_special a b c : is_byte a -> is_byte b -> is_byte c ->
  is_special (trigram_at a b c) = false.
Proof.
  unfold is_byte, is_special, trigram_at, WILDCARD_UNIGRAM, PREMATURE_END_UNIGRAM. intros.
  destruct (Z.eqb_spec (a + 256 * b + 65536 * c) 4278190080),
    (Z.eqb_spec (a + 256 * b + 65536 * c) 4278190081); lia || done.
Qed.

Lemma read_trigram_start s i : read_trigram s i = read_trigram (drop i s) 0.
Proof.
  unfold read_trigram, read_unigram. rewrite !drop_0. destruct (read_unigram_at (drop i s)) as [u1 l1].
  destruct (is_special u1); [done|]. rewrite !drop_drop. cbn [Nat.add].
  destruct (read_unigram_at (drop (i + l1) s)) as [u2 l2]. destruct (is_special u2); [done|].
  rewrite drop_drop. by rewrite Nat.add_assoc.
Qed.

Lemma first_trigram_special u us : is_special u = true -> first_trigram (u :: us) = None.
Proof. intros H. destruct us as [|b [|c us]]; cbn; [done|done|]. by rewrite H. Qed.

Lemma first_trigram_special2 a u us : is_special u = true -> first_trigram (a :: u :: us) = None.
Proof. intros H. destruct us as [|c us]; cbn; [done|]. by rewrite H, orb_true_r. Qed.

(** [read_trigram] finds a trigram exactly when the first three unigrams are
    literals. *)
Lemma read_trigram_spec s : Forall is_byte s ->
  match first_trigram (unigrams s) with
  | Some t => read_trigram s 0 = t /\ is_special t = false
  | None => is_special (read_trigram s 0) = true
  end.
Proof.
  intros F. unfold read_trigram, read_unigram. rewrite drop_0. cbn [Nat.add].
  destruct s as [|c s]; [done|].
  destruct (read_unigram_at (c :: s)) as [u1 l1] eqn:E1.
  destruct (read_unigram_at_spec _ _ _ F ltac:(done) E1) as (Hn1 & Hb1 & _).
  rewrite (unigrams_cons _ _ _ F ltac:(done) E1). remember (drop l1 (c :: s)) as s2 eqn:Es2.
  assert (F2 : Forall is_byte s2) by (subst; by apply Forall_drop).
  destruct (is_special u1) eqn:S1.
  { by rewrite first_trigram_special. }
  destruct s2 as [|c2 s2]; [done|].
  destruct (read_unigram_at (c2 :: s2)) as [u2 l2] eqn:E2.
  destruct (read_unigram_at_spec _ _ _ F2 ltac:(done) E2) as (Hn2 & Hb2 & _).
  rewrite (unigrams_cons _ _ _ F2 ltac:(done) E2). rewrite <- drop_drop, <- Es2.
  remember (drop l2 (c2 :: s2)) as s3 eqn:Es3.
  assert (F3 : Forall is_byte s3) by (subst s3; by apply Forall_drop).
  destruct (is_special u2) eqn:S2.
  { by rewrite first_trigram_special2. }
  destruct s3 as [|c3 s3]; [done|].
  destruct (read_unigram_at (c3 :: s3)) as [u3 l3] eqn:E3.
  destruct (read_unigram_at_spec _ _ _ F3 ltac:(done) E3) as (Hn3 & Hb3 & _).
  rewrite (unigrams_cons _ _ _ F3 ltac:(done) E3).
  unfold first_trigram. rewrite S1, S2. cbn [orb].
  destruct (is_special u3) eqn:S3; [exact S3|].
  rewrite lor_trigram by auto. split; [done|]. apply trigram_not_special; auto.
Qed.

(** All literal runs of three. *)
Fixpoint literal_trigrams (us : list Z) : list Z :=
  match us with
  | [] => []
  | _ :: us' => match first_trigram us with Some t => [t] | None => [] end ++ literal_trigrams us'
  end.

(** A trigram is three bytes. *)
Definition is_trigram (t : Z) : Prop := 0 <= t < 2 ^ 24.

(** A group of alternatives. *)
Definition group_ok (g : list Z) : Prop := NoDup g /\ Forall is_trigram g.

Lemma group_ok_length g : group_ok g -> Z.of_nat (length g) < 2 ^ 32.
Proof.
  intros [N F]. assert (H : (length g <= length (map Z.of_nat (seq 0 (Z.to_nat (2 ^ 24)))))%nat).
  { apply submseteq_length, NoDup_submseteq; [done|]. intros t Ht. rewrite Forall_forall in F. specialize (F t Ht).
    unfold is_trigram in F. apply list_elem_of_In, in_map_iff. exists (Z.to_nat t). split; [lia|]. apply in_seq. lia. }
  rewrite length_map, length_seq in H. change (2 ^ 24) with 16777216 in H. change (2 ^ 32) with 4294967296. lia.
Qed.

Lemma unigrams_bytes s : Forall is_byte s -> Forall (fun u => is_special u = false -> is_byte u) (unigrams s).
Proof.
  remember (length s) as k eqn:Ek. revert s Ek. induction (lt_wf k) as [k _ IH]. intros s -> F.
  destruct s as [|c s]; [constructor|]. destruct (read_unigram_at (c :: s)) as [u n] eqn:E.
  destruct (read_unigram_at_spec _ _ _ F ltac:(done) E) as (Hn & Hb & _).
  rewrite (unigrams_cons _ _ _ F ltac:(done) E). constructor; [exact Hb|].
  apply (IH (length (drop n (c :: s)))); [rewrite length_drop; cbn in *; lia|done|by apply Forall_drop].
Qed.

Lemma first_trigram_range us t : Forall (fun u => is_special u = false -> is_byte u) us ->
  first_trigram us = Some t -> is_trigram t.
Proof.
  intros F. destruct us as [|a [|b [|c us]]]; try done. cbn [first_trigram].
  rewrite !Forall_cons in F. destruct F as (Ha & Hb & Hc & _).
  destruct (is_special a), (is_special b), (is_special c); try done. cbn [orb]. intros [= <-].
  specialize (Ha eq_refl). specialize (Hb eq_refl). specialize (Hc eq_refl).
  unfold is_trigram, trigram_at, is_byte in *. change (2 ^ 24) with 16777216. lia.
Qed.

Lemma read_trigram_range s : Forall is_byte s -> is_special (read_trigram s 0) = true \/ is_trigram (read_trigram s 0).
Proof.
  intros F. pose proof (read_trigram_spec s F) as H. destruct (first_trigram (unigrams s)) as [t|] eqn:E; [|by left].
  destruct H as [-> _]. right. by apply (first_trigram_range (unigrams s)); [apply unigrams_bytes|].
Qed.

Lemma literal_trigrams_range us : Forall (fun u => is_special u = false -> is_byte u) us ->
  Forall is_trigram (literal_trigrams us).
Proof.
  induction us as [|u us IH]; intros F; [constructor|]. cbn [literal_trigrams]. apply Forall_app. split.
  - destruct (first_trigram (u :: us)) as [t|] eqn:E; [|constructor]. constructor; [|constructor].
    by eapply first_trigram_range.
  - apply IH. by apply Forall_cons in F as [_ F].
Qed.

Lemma parse_loop_spec fuel : forall s i, Forall is_byte s -> (length s <= i + fuel)%nat ->
  parse_loop fuel s i = literal_trigrams (unigrams (drop i s)).
Proof.
  induction fuel as [|fuel IH]; intros s i F Hf; cbn [parse_loop].
  - replace (i <? length s)%nat with false by (symmetry; apply Nat.ltb_ge; lia).
    by rewrite drop_ge by lia.
  - destruct (Nat.ltb_spec i (length s)) as [Hi|Hi]; [|by rewrite drop_ge by lia].
    rewrite (read_trigram_start s i). unfold read_unigram.
    assert (F' : Forall is_byte (drop i s)) by by apply Forall_drop.
    assert (Hne : drop i s <> []).
    { intros E. apply (f_equal length) in E. rewrite length_drop in E. cbn in E. lia. }
    destruct (read_unigram_at (drop i s)) as [u n] eqn:E. cbn [snd].
    destruct (read_unigram_at_spec _ _ _ F' Hne E) as (Hn & _). rewrite length_drop in Hn.
    rewrite IH by (done || lia). pose proof (read_trigram_spec (drop i s) F') as Ht.
    rewrite (unigrams_cons _ _ _ F' Hne E) in Ht |- *. rewrite drop_drop in Ht |- *.
    cbn [literal_trigrams]. destruct (first_trigram _) as [t|].
    + destruct Ht as [-> ->]. done.
    + by rewrite Ht.
Qed.

Lemma trigrams_of_cons a h t : t ∈ trigrams_of h -> t ∈ trigrams_of (a :: h).
Proof. destruct h as [|b [|c h]]; cbn; try by intros ?%not_elem_of_nil. intros H. by right. Qed.

Lemma trigrams_of_app w h t : t ∈ trigrams_of h -> t ∈ trigrams_of (w ++ h).
Proof. intros H. induction w as [|a w IH]; [done|]. cbn [app]. by apply trigrams_of_cons. Qed.

Lemma first_trigram_match us h t : umatch us h -> first_trigram us = Some t -> t ∈ trigrams_of h.
Proof.
  intros H Ht. destruct us as [|a [|b [|c us]]]; try done. cbn in Ht.
  destruct (is_special a) eqn:Sa, (is_special b) eqn:Sb, (is_special c) eqn:Sc; try done.
  injection Ht as <-. inversion H as [|? ? ? _ H1|]; subst; [|congruence].
  inversion H1 as [|? ? ? _ H2|]; subst; [|congruence].
  inversion H2 as [|? ? ? _ H3|]; subst; [|congruence]. cbn. left.
Qed.

(** Whatever matches the unigrams contains every literal trigram. *)
Lemma literal_trigrams_match us h t : umatch us h -> t ∈ literal_trigrams us -> t ∈ trigrams_of h.
Proof.
  induction 1 as [|u us h Hu Hm IH|u us w h Hu Hm IH]; intros Ht.
  - by apply not_elem_of_nil in Ht.
  - cbn [literal_trigrams] in Ht. apply elem_of_app in Ht as [Ht|Ht].
    + destruct (first_trigram (u :: us)) as [t'|] eqn:E; [|by apply not_elem_of_nil in Ht].
      apply list_elem_of_singleton in Ht as ->. eapply first_trigram_match; [|exact E]. by constructor.
    + apply trigrams_of_cons. by apply IH.
  - cbn [literal_trigrams] in Ht. apply elem_of_app in Ht as [Ht|Ht].
    + rewrite first_trigram_special in Ht by done. by apply not_elem_of_nil in Ht.
    + apply trigrams_of_app. by apply IH.
Qed.

(** Surrounding text only adds trigrams. *)
Lemma trigrams_of_prefix h x t : t ∈ trigrams_of h -> t ∈ trigrams_of (h ++ x).
Proof.
  induction h as [|a h IH]; [by intros ?%not_elem_of_nil|].
  destruct h as [|b [|c h]]; [by intros ?%not_elem_of_nil|by intros ?%not_elem_of_nil|].
  intros H. change (trigrams_of (a :: b :: c :: h)) with (trigram_at a b c :: trigrams_of (b :: c :: h)) in H.
  cbn [app] in *. change (t ∈ trigram_at a b c :: trigrams_of (b :: c :: h ++ x)).
  apply elem_of_cons in H as [->|H]; [left|right; by apply IH].
Qed.

Lemma trigrams_of_inside pre h post t : t ∈ trigrams_of h -> t ∈ trigrams_of (pre ++ h ++ post).
Proof. intros H. apply trigrams_of_app. by apply trigrams_of_prefix. Qed.

(** ** Plain strings *)

Definition is_glob_char (c : Z) : bool := (c =? 92) || (c =? 42) || (c =? 63) || (c =? 91).

Lemma read_unigram_plain c s : is_glob_char c = false -> read_unigram_at (c :: s) = (c, 1%nat).
Proof.
  unfold is_glob_char. intros H. apply orb_false_iff in H as [H H91]. apply orb_false_iff in H as [H H63].
  apply orb_false_iff in H as [H92 H42]. cbn [read_unigram_at]. by rewrite H92, H42, H63, H91.
Qed.

Lemma byte_not_special c : is_byte c -> is_special c = false.
Proof.
  unfold is_byte, is_special, WILDCARD_UNIGRAM, PREMATURE_END_UNIGRAM. intros.
  destruct (Z.eqb_spec c 4278190080), (Z.eqb_spec c 4278190081); lia || done.
Qed.

Lemma unigrams_plain s : Forall is_byte s -> forallb (fun c => negb (is_glob_char c)) s = true ->
  unigrams s = s.
Proof.
  induction s as [|c s IH]; [done|]. intros F H. cbn [forallb] in H. apply andb_true_iff in H as [Hc H].
  apply negb_true_iff in Hc.
  rewrite (unigrams_cons _ _ _ F ltac:(done) (read_unigram_plain _ _ Hc)).
  cbn [drop]. f_equal. apply Forall_cons in F as [_ F]. rewrite drop_0. by apply IH.
Qed.

Lemma literal_trigrams_plain s : Forall is_byte s -> literal_trigrams s = trigrams_of s.
Proof.
  induction 1 as [|a s Ha F IH]; [done|]. cbn [literal_trigrams]. rewrite IH.
  destruct s as [|b [|c s]]; [done|done|]. apply Forall_cons in F as [Hb F]. apply Forall_cons in F as [Hc F].
  cbn [first_trigram]. by rewrite !byte_not_special by done.
Qed.

(** The unescaped string is the sequence of unigrams, and only a pattern with no
    glob construct has one. *)
Lemma unescape_loop_spec fuel : forall s i, Forall is_byte s -> (length s <= i + fuel)%nat ->
  unescape_loop fuel s i =
  if forallb (fun u => negb (is_special u)) (unigrams (drop i s)) then Some (unigrams (drop i s)) else None.
Proof.
  induction fuel as [|fuel IH]; intros s i F Hf; cbn [unescape_loop].
  - replace (i <? length s)%nat with false by (symmetry; apply Nat.ltb_ge; lia).
    by rewrite drop_ge by lia.
  - destruct (Nat.ltb_spec i (length s)) as [Hi|Hi]; [|by rewrite drop_ge by lia].
    unfold read_unigram. assert (F' : Forall is_byte (drop i s)) by by apply Forall_drop.
    assert (Hne : drop i s <> []).
    { intros E. apply (f_equal length) in E. rewrite length_drop in E. cbn in E. lia. }
    destruct (read_unigram_at (drop i s)) as [u n] eqn:E.
    destruct (read_unigram_at_spec _ _ _ F' Hne E) as (Hn & Hb & _). rewrite length_drop in Hn.
    rewrite (unigrams_cons _ _ _ F' Hne E). rewrite drop_drop. cbn [forallb].
    destruct (is_special u) eqn:Su; [done|]. cbn [negb andb]. rewrite IH by (done || lia).
    destruct (forallb _ _); [|done]. cbn [mbind option_bind]. do 2 f_equal. unfold u8.
    apply Z.mod_small. apply Hb. done.
Qed.

Lemma umatch_plain us : forallb (fun u => negb (is_special u)) us = true -> umatch us us.
Proof.
  induction us as [|u us IH]; cbn [forallb]; [constructor|]. intros [Hu H]%andb_true_iff.
  apply negb_true_iff in Hu. constructor; auto.
Qed.

(** ** Ignoring case: lemmas *)

(** Once [read_trigram] does not run past the end, more text does not change
    it, nor the first unigram. *)
Lemma read_unigram_ext s i x u n : Forall is_byte s -> read_unigram s i = (u, n) ->
  u <> PREMATURE_END_UNIGRAM -> read_unigram (s ++ x) i = (u, n).
Proof.
  unfold read_unigram. intros F E Hu. destruct (Nat.lt_ge_cases i (length s)) as [Hi|Hi].
  - rewrite drop_app_le by lia. assert (Hne : drop i s <> []).
    { intros E'. apply (f_equal length) in E'. rewrite length_drop in E'. cbn in E'. lia. }
    destruct (read_unigram_at_spec _ _ _ (Forall_drop _ i _ F) Hne E) as (_ & _ & H). by apply H.
  - rewrite drop_ge in E by lia. injection E as <- <-. by destruct Hu.
Qed.

Lemma read_trigram_ext s x : Forall is_byte s -> read_trigram s 0 <> PREMATURE_END_UNIGRAM ->
  read_trigram (s ++ x) 0 = read_trigram s 0 /\
  read_unigram (s ++ x) 0 = read_unigram s 0 /\ fst (read_unigram s 0) <> PREMATURE_END_UNIGRAM.
Proof.
  intros F H. unfold read_trigram in *.
  destruct (read_unigram s 0) as [u1 l1] eqn:E1.
  assert (P1 : u1 <> PREMATURE_END_UNIGRAM) by (intros ->; apply H; reflexivity).
  rewrite (read_unigram_ext _ _ x _ _ F E1 P1). split; [|done].
  destruct (is_special u1); [done|]. destruct (read_unigram s (0 + l1)) as [u2 l2] eqn:E2.
  assert (P2 : u2 <> PREMATURE_END_UNIGRAM) by (intros ->; apply H; reflexivity).
  rewrite (read_unigram_ext _ _ x _ _ F E2 P2).
  destruct (is_special u2); [done|]. destruct (read_unigram s (0 + l1 + l2)) as [u3 l3] eqn:E3.
  assert (P3 : u3 <> PREMATURE_END_UNIGRAM) by (intros ->; apply H; reflexivity).
  by rewrite (read_unigram_ext _ _ x _ _ F E3 P3).
Qed.

(** A choice of one alternative for every code point. *)
Definition choice (alts : list (list bytes)) (sigma : list bytes) : Prop :=
  Forall2 (fun r alt => r ∈ alt) sigma alts.

(** The states follow every string the alternatives generate: for each choice,
    some state has buffered what comes after some whole unigrams of it. *)
Definition follows (sigma : list bytes) (st : TrigramState) : Prop :=
  exists us, unigrams (concat sigma) = us ++ unigrams (buffered st ++ concat (drop (next_codepoint st) sigma)).

Definition bytes_ok (alts : list (list bytes)) : Prop := Forall (Forall (Forall is_byte)) alts.

Lemma choice_bytes alts sigma : bytes_ok alts -> choice alts sigma -> Forall is_byte (concat sigma).
Proof.
  intros B C. induction C as [|r alt sigma alts Hr C IH]; [constructor|]. cbn [concat].
  apply Forall_cons in B as [Ba B]. apply Forall_app. split; [|by apply IH].
  rewrite Forall_forall in Ba. by apply Ba.
Qed.

(** The measure of a state: the bytes it can still consume. *)
Definition max_len (alt : list bytes) : nat := list_max (map length alt).
Definition potential (alts : list (list bytes)) (st : TrigramState) : nat :=
  length (buffered st) + sum_list (map max_len (drop (next_codepoint st) alts)).

Lemma potential_extend alts st runes rune : alts !! next_codepoint st = Some runes -> rune ∈ runes ->
  (potential alts (TS (buffered st ++ rune) (S (next_codepoint st))) <= potential alts st)%nat.
Proof.
  intros Hl Hr. unfold potential. cbn [buffered next_codepoint].
  rewrite (drop_S _ _ _ Hl). cbn [map sum_list sum_list_with]. rewrite length_app.
  assert (length rune <= max_len runes)%nat.
  { unfold max_len. pose proof (proj1 (list_max_le (map length runes) _) (Nat.le_refl _)) as F.
    rewrite List.Forall_forall in F. apply F. apply in_map. by apply list_elem_of_In. }
  cbn. lia.
Qed.

Definition waiting (st : TrigramState) : bool := read_trigram (buffered st) 0 =? PREMATURE_END_UNIGRAM.

(** One pass: states that wait advance by one code point, and the flag is down
    exactly when no state waits. *)
Lemma extend_pass_spec alts (Q Q' : TrigramState -> Prop) : forall states states' again,
  Forall (fun alt => alt <> []) alts ->
  (forall st, Q st -> waiting st = false -> Q' st) ->
  (forall st rune runes, Q st -> waiting st = true -> alts !! next_codepoint st = Some runes ->
     rune ∈ runes -> Q' (TS (buffered st ++ rune) (S (next_codepoint st)))) ->
  extend_pass alts states = Some (states', again) -> Forall Q states ->
  Forall Q' states' /\ (if again : bool then Exists (fun st => waiting st = true /\ (next_codepoint st < length alts)%nat) states
   else states' = states /\ Forall (fun st => waiting st = false) states).
Proof.
  induction states as [|st states IH]; intros states' again N HQ HQ' H F; cbn [extend_pass] in H.
  { by injection H as <- <-. }
  apply Forall_cons in F as [Hst F]. fold (waiting st) in H. destruct (waiting st) eqn:W; cbn [negb] in H.
  - destruct (alts !! next_codepoint st) as [runes|] eqn:El; [|done]. cbn [mbind option_bind] in H.
    destruct (extend_pass alts states) as [[new again']|] eqn:E; [|done]. cbn [mbind option_bind] in H.
    injection H as <- <-. destruct (IH _ _ N HQ HQ' eq_refl F) as [F' _]. split.
    + apply Forall_app. split; [|done]. apply Forall_map. apply Forall_forall. intros rune Hr.
      by eapply HQ'.
    + pose proof (Forall_lookup_1 _ _ _ _ N El) as Hne. destruct runes; [by destruct Hne|].
      cbn [orb]. left. split; [done|]. by eapply lookup_lt_Some.
  - destruct (extend_pass alts states) as [[new again']|] eqn:E; [|done]. cbn [mbind option_bind] in H.
    injection H as <- <-. destruct (IH _ _ N HQ HQ' eq_refl F) as [F' Ha].
    split; [by constructor; auto|]. destruct again'; [by right|].
    destruct Ha as [-> Fw]. split; [done|]. by constructor.
Qed.

Lemma extend_pass_follows alts sigma st : forall states states' again, choice alts sigma ->
  extend_pass alts states = Some (states', again) -> st ∈ states -> follows sigma st ->
  exists st', st' ∈ states' /\ follows sigma st'.
Proof.
  induction states as [|s0 states IH]; intros states' again C H Hin Hf; cbn [extend_pass] in H.
  { by apply not_elem_of_nil in Hin. }
  apply elem_of_cons in Hin. fold (waiting s0) in H. destruct (waiting s0) eqn:W; cbn [negb] in H.
  - destruct (alts !! next_codepoint s0) as [runes|] eqn:El; [|done]. cbn [mbind option_bind] in H.
    destruct (extend_pass alts states) as [[new again']|] eqn:E; [|done]. cbn [mbind option_bind] in H.
    injection H as <- <-. destruct Hin as [->|Hin].
    + destruct (Forall2_lookup_r _ _ _ _ _ C El) as (r & Hr & Hin).
      exists (TS (buffered s0 ++ r) (S (next_codepoint s0))). split.
      * apply elem_of_app. left. apply list_elem_of_fmap. by exists r.
      * destruct Hf as [us Hf]. exists us. rewrite Hf. cbn [buffered next_codepoint].
        rewrite (drop_S _ _ _ Hr). cbn [concat]. by rewrite app_assoc.
    + destruct (IH _ _ C eq_refl Hin Hf) as (st' & H1 & H2). exists st'. split; [|done].
      apply elem_of_app. by right.
  - destruct (extend_pass alts states) as [[new again']|] eqn:E; [|done]. cbn [mbind option_bind] in H.
    injection H as <- <-. destruct Hin as [->|Hin].
    + exists s0. split; [left|done].
    + destruct (IH _ _ C eq_refl Hin Hf) as (st' & H1 & H2). exists st'. split; [by right|done].
Qed.

(** What holds of the states between passes. *)
Definition state_ok (alts : list (list bytes)) (M : nat) (st : TrigramState) : Prop :=
  Forall is_byte (buffered st) /\ (potential alts st <= M)%nat.
Definition all_followed (alts : list (list bytes)) (states : list TrigramState) : Prop :=
  forall sigma, choice alts sigma -> exists st, st ∈ states /\ follows sigma st.

Lemma extend_all_spec alts M fuel : forall k states, bytes_ok alts -> Forall (fun alt => alt <> []) alts ->
  (k <= length alts)%nat -> (length alts + 1 <= fuel + k)%nat ->
  Forall (fun st => state_ok alts M st /\ (waiting st = true -> (k <= next_codepoint st)%nat)) states ->
  all_followed alts states ->
  exists r, extend_all fuel alts states = Some r /\ forall states', r = Some states' ->
    Forall (fun st => state_ok alts M st /\ waiting st = false) states' /\ all_followed alts states'.
Proof.
  induction fuel as [|fuel IH]; intros k states B N Hk Hfuel F A; [lia|]. cbn [extend_all].
  destruct (extend_pass alts states) as [[states' again]|] eqn:E.
  2: { exists None. by split. }
  destruct (extend_pass_spec alts
    (fun st => state_ok alts M st /\ (waiting st = true -> (k <= next_codepoint st)%nat))
    (fun st => state_ok alts M st /\ (waiting st = true -> (S k <= next_codepoint st)%nat))
    states states' again N) as [F' Ha].
  { intros st [Hs _] W. split; [done|]. by rewrite W. }
  { intros st rune runes [[Hb Hp] Hs] W El Hr. cbn [next_codepoint]. split; [|specialize (Hs W); lia].
    split; cbn [buffered].
    - apply Forall_app. split; [done|]. pose proof (Forall_lookup_1 _ _ _ _ B El) as F1.
      rewrite Forall_forall in F1. by apply F1.
    - etrans; [by eapply potential_extend|done]. }
  { exact E. }
  { exact F. }
  assert (A' : all_followed alts states').
  { intros sigma C. destruct (A sigma C) as (st & Hin & Hf). by eapply extend_pass_follows. }
  destruct again.
  - apply Exists_exists in Ha as (st & Hin & W & Hlt). rewrite Forall_forall in F.
    destruct (F _ Hin) as [_ Hkn]. specialize (Hkn W). apply (IH (S k)); [done|done|lia|lia|done|done].
  - destruct Ha as [-> Fw]. exists (Some states). split; [done|]. intros ? [= <-]. split; [|done].
    rewrite Forall_forall in F, Fw |- *. intros st Hin. destruct (F _ Hin). auto.
Qed.

(** Stripping the first unigram. *)
Lemma waiting_false s : (read_trigram s 0 =? PREMATURE_END_UNIGRAM) = false ->
  read_trigram s 0 <> PREMATURE_END_UNIGRAM.
Proof. by intros H%Z.eqb_neq. Qed.

Lemma strip_ok alts M st : state_ok alts (S M) st -> waiting st = false -> state_ok alts M (strip st).
Proof.
  intros [Hb Hp] W%waiting_false. destruct (read_trigram_ext _ [] Hb W) as (_ & _ & H).
  unfold state_ok, strip, potential in *. cbn [buffered next_codepoint].
  split; [by apply Forall_drop|]. unfold read_unigram in *. rewrite drop_0 in *.
  destruct (buffered st) as [|c s]; [by destruct H|].
  destruct (read_unigram_at (c :: s)) as [u n] eqn:E.
  destruct (read_unigram_at_spec _ _ _ Hb ltac:(done) E) as (Hn & _). cbn [snd].
  rewrite length_drop. lia.
Qed.

Lemma strip_follows st x : Forall is_byte (buffered st) -> Forall is_byte x -> waiting st = false ->
  exists u, unigrams (buffered st ++ x) = u :: unigrams (buffered (strip st) ++ x).
Proof.
  intros Hb Hx W%waiting_false. destruct (read_trigram_ext _ x Hb W) as (_ & He & H).
  unfold strip. cbn [buffered]. unfold read_unigram in *. rewrite drop_0 in *.
  destruct (buffered st) as [|c s]; [by destruct H|].
  destruct (read_unigram_at (c :: s)) as [u n] eqn:E. cbn [snd]. rewrite drop_0 in He.
  destruct (read_unigram_at_spec _ _ _ Hb ltac:(done) E) as (Hn & _). exists u.
  rewrite (unigrams_cons _ u n); [|by apply Forall_app|done|by rewrite He, E].
  by rewrite drop_app_le by lia.
Qed.

Lemma literal_trigrams_app us vs t : t ∈ literal_trigrams vs -> t ∈ literal_trigrams (us ++ vs).
Proof.
  intros H. induction us as [|u us IH]; [done|]. cbn [app literal_trigrams]. apply elem_of_app. by right.
Qed.

(** The trigram of a state that does not wait is one of the string's. *)
Lemma state_trigram sigma st : Forall is_byte (buffered st) -> Forall is_byte (concat (drop (next_codepoint st) sigma)) ->
  follows sigma st -> waiting st = false -> read_trigram (buffered st) 0 <> WILDCARD_UNIGRAM ->
  read_trigram (buffered st) 0 ∈ literal_trigrams (unigrams (concat sigma)).
Proof.
  intros Hb Hx [us ->] W%waiting_false Hw. apply literal_trigrams_app.
  set (x := concat _) in *. destruct (read_trigram_ext _ x Hb W) as (He & _ & _).
  assert (F : Forall is_byte (buffered st ++ x)) by by apply Forall_app.
  pose proof (read_trigram_spec _ F) as Ht. rewrite He in Ht.
  destruct (unigrams (buffered st ++ x)) as [|u vs]; cbn [literal_trigrams].
  - cbn [first_trigram] in Ht. unfold is_special in Ht. apply orb_true_iff in Ht as [E%Z.eqb_eq|E%Z.eqb_eq]; done.
  - destruct (first_trigram (u :: vs)) as [t|].
    + destruct Ht as [-> _]. cbn. left.
    + unfold is_special in Ht. apply orb_true_iff in Ht as [E%Z.eqb_eq|E%Z.eqb_eq]; done.
Qed.

Lemma choice_exists alts : Forall (fun alt => alt <> []) alts -> exists sigma, choice alts sigma.
Proof.
  induction 1 as [|alt alts Ha N [sigma IH]]; [by exists []; constructor|].
  destruct alt as [|r alt]; [done|]. exists (r :: sigma). constructor; [left|done].
Qed.

Lemma choice_drop_bytes alts sigma n : bytes_ok alts -> choice alts sigma ->
  Forall is_byte (concat (drop n sigma)).
Proof.
  intros B C. apply (choice_bytes (drop n alts)).
  - by apply Forall_drop.
  - by apply Forall2_drop.
Qed.

(** The states after a round of the main loop. *)
Lemma round_ok alts M states : bytes_ok alts -> Forall (fun alt => alt <> []) alts ->
  Forall (fun st => state_ok alts (S M) st /\ waiting st = false) states -> all_followed alts states ->
  Forall (state_ok alts M) (unique_sort state_lt (map strip states)) /\
  all_followed alts (unique_sort state_lt (map strip states)).
Proof.
  intros B N F A. rewrite Forall_forall in F. split.
  - apply Forall_forall. intros st Hin. rewrite elem_of_unique_sort in Hin.
    apply list_elem_of_fmap in Hin as (st' & -> & Hin). destruct (F _ Hin). by apply strip_ok.
  - intros sigma C. destruct (A sigma C) as (st & Hin & us & Hf). exists (strip st). split.
    + apply elem_of_unique_sort. apply list_elem_of_fmap. by exists st.
    + destruct (F _ Hin) as [[Hb _] W].
      destruct (strip_follows st (concat (drop (next_codepoint st) sigma)) Hb) as [u Hu]; [|done|].
      * by eapply choice_drop_bytes.
      * exists (us ++ [u]). rewrite Hf, Hu. by rewrite <- app_assoc.
Qed.

Lemma not_exhausted alts states : Forall (fun alt => alt <> []) alts ->
  Forall (fun st => state_ok alts 0 st /\ waiting st = false) states -> all_followed alts states -> False.
Proof.
  intros N F A. destruct (choice_exists _ N) as [sigma C]. destruct (A sigma C) as (st & Hin & _).
  rewrite Forall_forall in F. destruct (F _ Hin) as [[_ Hp] W]. unfold potential, waiting in *.
  destruct (buffered st); [done|]. cbn in Hp. lia.
Qed.

(** The group of a round has a trigram of every match. *)
Lemma group_sound alts M states sigma h pre post : bytes_ok alts ->
  Forall (fun st => state_ok alts M st /\ waiting st = false) states -> all_followed alts states ->
  choice alts sigma -> umatch (unigrams (concat sigma)) h ->
  existsb (fun t => t =? WILDCARD_UNIGRAM) (map (fun st => read_trigram (buffered st) 0) states) = false ->
  Exists (fun t => t ∈ trigrams_of (pre ++ h ++ post))
    (unique_sort Z.ltb (map (fun st => read_trigram (buffered st) 0) states)).
Proof.
  intros B F A C Hm Hw. destruct (A sigma C) as (st & Hin & Hf). rewrite Forall_forall in F.
  destruct (F _ Hin) as [[Hb _] W]. apply Exists_exists. exists (read_trigram (buffered st) 0). split.
  - apply elem_of_unique_sort. apply list_elem_of_fmap. by exists st.
  - apply trigrams_of_inside. eapply literal_trigrams_match; [exact Hm|]. apply state_trigram; [done| |done|done|].
    + by eapply choice_drop_bytes.
    + intros E. assert (existsb (fun t => t =? WILDCARD_UNIGRAM)
        (map (fun st => read_trigram (buffered st) 0) states) = true) as E2; [|congruence].
      apply existsb_exists. eexists. split; [|apply Z.eqb_eq; exact E].
      apply in_map_iff. exists st. split; [done|]. by apply list_elem_of_In.
Qed.

Lemma unique_sort_Z_nodup (l : list Z) : NoDup (unique_sort Z.ltb l).
Proof.
  assert (Hto : Total (not_above Z.ltb)) by (intros a b; unfold not_above; rewrite !Z.ltb_ge; lia).
  assert (Htr : Transitive (not_above Z.ltb)) by (intros a b c; unfold not_above; rewrite !Z.ltb_ge; lia).
  assert (Has : AntiSymm (=) (not_above Z.ltb)) by (intros a b; unfold not_above; rewrite !Z.ltb_ge; lia).
  apply (unique_nodup (not_above Z.ltb)). by apply (StronglySorted_merge_sort (not_above Z.ltb)).
Qed.

Lemma group_range alts M states :
  Forall (fun st => state_ok alts M st /\ waiting st = false) states ->
  existsb (fun t => t =? WILDCARD_UNIGRAM) (map (fun st => read_trigram (buffered st) 0) states) = false ->
  group_ok (unique_sort Z.ltb (map (fun st => read_trigram (buffered st) 0) states)).
Proof.
  intros F Hw. split; [apply unique_sort_Z_nodup|]. apply Forall_forall. intros t Ht. apply elem_of_unique_sort in Ht.
  apply list_elem_of_fmap in Ht as (st & -> & Hin). rewrite Forall_forall in F. destruct (F _ Hin) as [[Hb _] W%waiting_false].
  destruct (read_trigram_range _ Hb) as [Hs|]; [|done]. exfalso. unfold is_special in Hs.
  apply orb_true_iff in Hs as [E|E%Z.eqb_eq]; [|done].
  assert (existsb (fun t => t =? WILDCARD_UNIGRAM) (map (fun st => read_trigram (buffered st) 0) states) = true) as E2; [|congruence].
  apply existsb_exists. eexists. split; [|exact E]. apply in_map_iff. exists st. split; [done|]. by apply list_elem_of_In.
Qed.

Lemma ignore_case_loop_spec alts fuel : forall M states, bytes_ok alts ->
  Forall (fun alt => alt <> []) alts -> (M < fuel)%nat ->
  Forall (state_ok alts M) states -> all_followed alts states ->
  exists groups, ignore_case_loop fuel alts states = Some groups /\ Forall group_ok groups /\
  forall sigma h pre post, choice alts sigma -> umatch (unigrams (concat sigma)) h ->
    Forall (Exists (fun t => t ∈ trigrams_of (pre ++ h ++ post))) groups.
Proof.
  induction fuel as [|fuel IH]; intros M states B N HM F A; [lia|]. cbn [ignore_case_loop].
  destruct (extend_all_spec alts M (S (S (length alts))) 0 states B N) as (r & -> & Hr); [lia|lia| |done|].
  { eapply Forall_impl; [exact F|]. intros st Hs. split; [done|lia]. }
  cbn [mbind option_bind]. destruct r as [states'|]; [|exists []; by repeat constructor].
  destruct (Hr states' eq_refl) as [F' A']. destruct M as [|M]; [by destruct (not_exhausted alts states')|].
  destruct (round_ok _ _ _ B N F' A') as [F2 A2].
  set (group := if existsb _ _ then _ else _).
  assert (G : forall sigma h pre post, choice alts sigma -> umatch (unigrams (concat sigma)) h ->
    Forall (Exists (fun t => t ∈ trigrams_of (pre ++ h ++ post))) group).
  { intros sigma h pre post C Hm. unfold group. destruct (existsb _ _) eqn:Ew; [constructor|].
    constructor; [|constructor]. eapply group_sound; eauto. }
  assert (K : Forall group_ok group).
  { unfold group. destruct (existsb _ _) eqn:Ew; [constructor|]. constructor; [|constructor]. by eapply group_range. }
  destruct (100 <? _)%nat; [by eauto|].
  destruct (IH M _ B N ltac:(lia) F2 A2) as (rest & -> & Krest & Hrest). cbn [mbind option_bind].
  exists (group ++ rest). split; [done|]. split; [by apply Forall_app|]. intros. apply Forall_app. eauto.
Qed.

(** What is relied on of the locale: a character takes at least one byte of the
    text it is decoded from, and encodes to bytes. *)
Definition locale_ok (loc : Locale) : Prop :=
  (forall s ch n, mb_decode loc s = Some (ch, n) -> (1 <= n <= length s)%nat) /\
  (forall ch, Forall is_byte (wctomb loc ch)).

Lemma codepoints_ok loc fuel : forall s alts, locale_ok loc -> Forall is_byte s ->
  codepoints loc fuel s = Some alts ->
  bytes_ok alts /\ Forall (fun alt => alt <> []) alts /\ exists sigma, choice alts sigma /\ concat sigma = s.
Proof.
  induction fuel as [|fuel IH]; intros s alts L F H; (destruct s as [|c s];
    [injection H as <-; split; [by apply Forall_nil|]; split; [by apply Forall_nil|]; by exists [] ; split; [apply Forall2_nil|]|]); [done|].
  cbn [codepoints] in H. destruct (mb_decode loc (c :: s)) as [[ch n]|] eqn:E; [|done].
  cbn [mbind option_bind] in H. destruct (codepoints loc fuel (drop n (c :: s))) as [rest|] eqn:E2; [|done].
  apply (inj Some) in H as <-. destruct (IH _ _ L (Forall_drop _ n _ F) E2) as (B & N & sigma & C & Hc).
  pose proof L as [L1 L2]. pose proof (L1 _ _ _ E) as Hn. split; [|split].
  - constructor; [|done]. unfold alternatives. repeat apply Forall_app_2.
    + repeat constructor. by apply Forall_take.
    + destruct (_ =? _); repeat constructor. apply L2.
    + destruct (_ || _); repeat constructor. apply L2.
  - constructor; [done|done].
  - exists (take n (c :: s) :: sigma). split; [constructor; [left|done]|].
    cbn [concat]. by rewrite Hc, take_drop.
Qed.

(** A string without escapes matches its own unigrams. *)
Lemma read_unigram_cases c s u n : Forall is_byte (c :: s) -> c <> 92 -> read_unigram_at (c :: s) = (u, n) ->
  is_special u = true \/ (u = c /\ n = 1%nat).
Proof.
  intros F Hc. cbn [read_unigram_at]. rewrite (proj2 (Z.eqb_neq c 92)) by done.
  destruct ((c =? 42) || (c =? 63)); [intros [= <- <-]; by left|].
  destruct (c =? 91); [|intros [= <- <-]; by right].
  destruct s as [|d s]; [intros [= <- <-]; by left|].
  destruct (if d =? 33 then (s, 2%nat) else (d :: s, 1%nat)) as [s' len].
  destruct s' as [|e s'']; [intros [= <- <-]; by left|]. left.
  destruct (e =? 93); by destruct (class_loop_spec _ _ _ _ H) as (_ & ? & _).
Qed.

Lemma umatch_self s : Forall is_byte s -> 92 ∉ s -> umatch (unigrams s) s.
Proof.
  remember (length s) as k eqn:Ek. revert s Ek. induction (lt_wf k) as [k _ IH]. intros s -> F Hs.
  destruct s as [|c s]; [constructor|]. destruct (read_unigram_at (c :: s)) as [u n] eqn:E.
  destruct (read_unigram_at_spec _ _ _ F ltac:(done) E) as (Hn & _). rewrite (unigrams_cons _ _ _ F ltac:(done) E).
  apply not_elem_of_cons in Hs as Hs'. destruct Hs' as [Hc Hs'].
  assert (Hrest : umatch (unigrams (drop n (c :: s))) (drop n (c :: s))).
  { apply (IH (length (drop n (c :: s)))); [|done|by apply Forall_drop|].
    - rewrite length_drop. lia.
    - intros H. apply Hs. rewrite <- (take_drop n (c :: s)), elem_of_app. by right. }
  destruct (read_unigram_cases c s u n F ltac:(congruence) E) as [Hu|[-> ->]].
  - rewrite <- (take_drop n (c :: s)) at 2. by constructor.
  - cbn [drop] in *. rewrite drop_0 in *. apply Forall_cons in F as [Hb _]. constructor; [by apply byte_not_special|done].
Qed.

(** ** Correctness *)

Lemma umatch_plain_unique us h : forallb (fun u => negb (is_special u)) us = true -> umatch us h -> h = us.
Proof.
  intros H Hm. induction Hm as [|u us h Hu Hm IH|u us w h Hu Hm IH]; [done| |]; cbn [forallb] in H.
  - apply andb_true_iff in H as [_ H]. by rewrite IH.
  - by rewrite Hu in H.
Qed.

Lemma parse_trigrams_names needle : Forall is_byte needle ->
  (forall h pre post t, umatch (unigrams needle) h -> t ∈ parse_trigrams needle ->
     t ∈ trigrams_of (pre ++ h ++ post)) /\
  (forallb (fun c => negb (is_glob_char c)) needle = true -> parse_trigrams needle = trigrams_of needle).
Proof.
  intros F. unfold parse_trigrams. rewrite (parse_loop_spec _ _ 0 F) by lia. rewrite drop_0. split.
  - intros h pre post t Hm Ht. apply trigrams_of_inside. by eapply literal_trigrams_match.
  - intros H. rewrite unigrams_plain by done. by apply literal_trigrams_plain.
Qed.

Lemma parse_trigrams_range needle : Forall is_byte needle -> Forall is_trigram (parse_trigrams needle).
Proof.
  intros F. unfold parse_trigrams. rewrite (parse_loop_spec _ _ 0 F) by lia. apply literal_trigrams_range.
  apply unigrams_bytes. by apply Forall_drop.
Qed.

(** ** Patterns of the shell *)

Lemma class_loop_skip a : forall r len, 93 ∉ a -> class_loop (a ++ r) len = class_loop r (len + length a).
Proof.
  induction a as [|c a IH]; intros r len H; cbn [app length]; [by rewrite Nat.add_0_r|].
  apply not_elem_of_cons in H as [Hc H]. cbn [class_loop]. rewrite (proj2 (Z.eqb_neq c 93)) by congruence.
  rewrite IH by done. f_equal. lia.
Qed.

(** The characters that the parser looks for. *)
Definition pattern_char (c : Z) : bool := is_glob_char c || (c =? 33) || (c =? 93).

(** The characters of a pattern are single bytes, and the bytes of other characters are
    not among them; so it is in UTF-8, in the ISO 8859 sets and in EUC. *)
Definition encodes_ok (enc : Z -> bytes) (c : Z) : Prop :=
  if pattern_char c then enc c = [c] /\ is_byte c
  else enc c <> [] /\ Forall (fun b => is_byte b /\ pattern_char b = false) (enc c).

Definition encode (enc : Z -> bytes) (s : list Z) : bytes := concat (map enc s).

Section Patterns.
Context (enc : Z -> bytes).

Abbreviation ok := (encodes_ok enc).

Lemma pattern_char_other c : pattern_char c = false -> is_glob_char c = false /\ c <> 33 /\ c <> 93.
Proof. unfold pattern_char. rewrite !orb_false_iff, !Z.eqb_neq. tauto. Qed.

Lemma encode_bytes s : Forall ok s -> Forall is_byte (encode enc s).
Proof.
  induction 1 as [|c s Hc F IH]; [constructor|]. apply Forall_app. split; [|done]. unfold encodes_ok in Hc.
  destruct (pattern_char c); [destruct Hc as [-> Hc]; by apply Forall_singleton|]. eapply Forall_impl; [exact (proj2 Hc)|]. by intros b [Hb _].
Qed.

(** The bytes of a character that is none of the glob characters. *)
Lemma literal_bytes c : ok c -> is_glob_char c = false -> Forall (fun b => is_byte b /\ is_glob_char b = false) (enc c).
Proof.
  unfold encodes_ok. intros Hc Hg. destruct (pattern_char c); [destruct Hc as [-> Hb]; by apply Forall_singleton|].
  eapply Forall_impl; [exact (proj2 Hc)|]. intros b [Hb Hp]. split; [done|]. by apply pattern_char_other in Hp as [? _].
Qed.

Lemma encode_no_bracket s : Forall ok s -> 93 ∉ s -> 93 ∉ encode enc s.
Proof.
  induction 1 as [|c s Hc F IH]; intros H; [apply not_elem_of_nil|]. apply not_elem_of_cons in H as [Hne H].
  unfold encode. cbn [map concat]. rewrite elem_of_app. intros [Hin|Hin]; [|by apply IH]. unfold encodes_ok in Hc. destruct (pattern_char c).
  - destruct Hc as [E _]. rewrite E in Hin. apply list_elem_of_singleton in Hin. congruence.
  - destruct Hc as [_ Hc]. rewrite Forall_forall in Hc. by destruct (Hc _ Hin) as [_ ?].
Qed.

(** The members from the first one on. *)
Definition class_from (s : bytes) (len : nat) : Z * nat :=
  match s with
  | [] => (PREMATURE_END_UNIGRAM, len)
  | d :: s' => if d =? 93 then class_loop s' (len + 1) else class_loop s len
  end.

Lemma read_class s : read_unigram_at (91 :: s) =
  match s with d :: s' => if d =? 33 then class_from s' 2 else class_from s 1 | [] => (PREMATURE_END_UNIGRAM, 1%nat) end.
Proof. destruct s as [|d s]; [done|]. cbn [read_unigram_at Z.eqb orb]. by destruct (d =? 33). Qed.

Lemma class_from_members x xs r len : ok x -> Forall ok xs -> 93 ∉ xs ->
  class_from (encode enc (x :: xs) ++ r) len = class_loop r (len + length (encode enc (x :: xs))).
Proof.
  intros Hx F H. unfold encode. cbn [map concat]. fold (encode enc xs). pose proof (encode_no_bracket xs F H) as Hxs.
  assert (Hother : forall b bs, b <> 93 -> 93 ∉ bs -> class_from ((b :: bs) ++ r) len = class_loop r (len + length (b :: bs))).
  { intros b bs Hb Hbs. cbn [class_from app]. rewrite (proj2 (Z.eqb_neq b 93)) by done. rewrite app_comm_cons. apply class_loop_skip.
    by apply not_elem_of_cons. }
  unfold encodes_ok in Hx. destruct (pattern_char x).
  - destruct Hx as [-> _]. cbn [app]. destruct (decide (x = 93)) as [->|Hne]; [|by apply (Hother x)].
    cbn [class_from Z.eqb]. rewrite class_loop_skip by done. f_equal. cbn [length]. lia.
  - destruct Hx as [Hne Hx]. destruct (enc x) as [|b bs]; [done|]. apply Forall_cons in Hx as [[_ Hb] Hbs].
    cbn [app]. apply (Hother b); [by apply pattern_char_other in Hb as (_ & _ & ?)|]. rewrite elem_of_app. intros [Hin|Hin]; [|done].
    rewrite Forall_forall in Hbs. by destruct (Hbs _ Hin).
Qed.

Lemma encode_head_33 x xs r : ok x -> x <> 33 -> exists b bs, encode enc (x :: xs) ++ r = b :: bs /\ b <> 33.
Proof.
  unfold encodes_ok, encode. cbn [map concat]. intros Hx Hne. destruct (pattern_char x); destruct Hx as [E Hx].
  - rewrite E. cbn [app]. by eexists _, _.
  - destruct (enc x) as [|b bs]; [done|]. apply Forall_cons in Hx as [[_ Hb] _]. cbn [app]. eexists _, _. split; [done|].
    by apply pattern_char_other in Hb as (_ & ? & _).
Qed.

(** Bracket expressions with a [\]] as first member at most are read to their end. *)
Lemma read_members e r : Forall ok e -> simple_members e = true ->
  (exists x xs, (e = x :: xs /\ x <> 33) \/ e = 33 :: x :: xs) ->
  read_unigram_at (91 :: encode enc e ++ r) = class_loop r (S (length (encode enc e))).
Proof.
  intros F Hs (x & xs & [[-> Hx]| ->]); unfold simple_members in Hs; rewrite negb_true_iff, bool_decide_eq_false in Hs.
  - rewrite (proj2 (Z.eqb_neq x 33)) in Hs by done. cbn [tail] in Hs. apply Forall_cons in F as [Fx F].
    rewrite read_class. destruct (encode_head_33 x xs r Fx Hx) as (b & bs & E & Hb). pose proof (class_from_members x xs r 1 Fx F Hs) as H.
    rewrite E in *. by rewrite (proj2 (Z.eqb_neq b 33)).
  - cbn [Z.eqb tail] in Hs. apply Forall_cons in F as [F33 F]. apply Forall_cons in F as [Fx F]. destruct F33 as [E33 _].
    unfold encode at 1. cbn [map concat]. fold (encode enc (x :: xs)). rewrite E33, read_class. cbn [app Z.eqb].
    change (enc x ++ concat (map enc xs)) with (encode enc (x :: xs)). rewrite class_from_members by done. f_equal.
    unfold encode. cbn [map concat]. rewrite E33. cbn [app length]. lia.
Qed.

Lemma read_open s : Forall ok s -> simple_members s = true ->
  exists n, read_unigram_at (91 :: encode enc s) = (PREMATURE_END_UNIGRAM, n) /\ drop n (91 :: encode enc s) = [].
Proof.
  intros F Hs. assert (Hm : (s = [] \/ s = [33]) \/ exists x xs, (s = x :: xs /\ x <> 33) \/ s = 33 :: x :: xs).
  { destruct s as [|x xs]; [by left; left|]. destruct (decide (x = 33)) as [->|]; [|right; exists x, xs; by left].
    destruct xs as [|y ys]; [by left; right|]. right. exists y, ys. by right. }
  destruct Hm as [[-> | ->]|Hm].
  - by exists 1%nat.
  - apply Forall_cons in F as [[E _] _]. exists 2%nat. unfold encode. cbn [map concat]. by rewrite E.
  - pose proof (read_members s [] F Hs Hm) as H. rewrite app_nil_r in H. eexists. split; [exact H|]. by rewrite drop_ge by (cbn; lia).
Qed.

(** *** A name that matches the pattern matches its unigrams *)

Lemma unigrams_literals l r : Forall (fun b => is_byte b /\ is_glob_char b = false) l -> Forall is_byte r ->
  unigrams (l ++ r) = l ++ unigrams r.
Proof.
  induction 1 as [|b l [Hb Hg] F IH]; intros Hr; [done|]. cbn [app].
  assert (Fr : Forall is_byte (l ++ r)) by (apply Forall_app; split; [eapply Forall_impl; [exact F|by intros ? [? _]]|done]).
  rewrite (unigrams_cons (b :: l ++ r) b 1); [|by constructor|done|by apply read_unigram_plain]. f_equal.
  by rewrite <- IH.
Qed.

Lemma umatch_literals l us h : Forall is_byte l -> umatch us h -> umatch (l ++ us) (l ++ h).
Proof. induction 1 as [|b l Hb F IH]; intros H; [done|]. cbn [app]. constructor; [by apply byte_not_special|by apply IH]. Qed.

Context (same variant : Z -> Z -> Prop) (character : list Z -> Prop) (member : list Z -> list Z -> Prop).
Context (Hrefl : forall c, variant c c).

Lemma encode_app a b : encode enc (a ++ b) = encode enc a ++ encode enc b.
Proof. unfold encode. by rewrite map_app, concat_app. Qed.

(** A part of the pattern that is read as one special unigram. *)
Lemma umatch_special e q w s u n : Forall ok e -> Forall ok q -> e <> [] ->
  read_unigram_at (encode enc e ++ encode enc q) = (u, n) -> is_special u = true -> drop n (encode enc e ++ encode enc q) = encode enc q ->
  umatch (unigrams (encode enc q)) (encode enc s) -> umatch (unigrams (encode enc (e ++ q))) (encode enc (w ++ s)).
Proof.
  intros Fe Fq Hne E Hu Hd Hm. rewrite !encode_app. assert (Hne' : encode enc e ++ encode enc q <> []).
  { destruct e as [|x e]; [done|]. apply Forall_cons in Fe as [Fx _]. unfold encode, encodes_ok in *. cbn [map concat].
    destruct (pattern_char x); [destruct Fx as [-> _]; done|]. by destruct (enc x), Fx. }
  assert (Fb : Forall is_byte (encode enc e ++ encode enc q)) by (rewrite <- encode_app; apply encode_bytes; by apply Forall_app).
  rewrite (unigrams_cons _ u n Fb Hne' E), Hd. by constructor.
Qed.

(** The literal [d] after [e], which is nothing or a backslash. *)
Lemma umatch_literal e d q s : e = [] /\ is_glob_char d = false \/ e = [92] /\ ok 92 -> ok d -> Forall ok q ->
  umatch (unigrams (encode enc q)) (encode enc s) -> umatch (unigrams (encode enc (e ++ d :: q))) (encode enc (d :: s)).
Proof.
  intros He Hd Fq Hm. pose proof (encode_bytes q Fq) as Fb. unfold encode. cbn [map concat]. fold (encode enc s).
  assert (Fd : Forall is_byte (enc d)) by (pose proof (encode_bytes [d] ltac:(by constructor)) as H; unfold encode in H; cbn in H; by rewrite app_nil_r in H).
  destruct He as [[-> Hg]|[-> H92]]; cbn [app map concat]; fold (encode enc q).
  - rewrite unigrams_literals by (done || by apply literal_bytes). by apply umatch_literals.
  - destruct H92 as [-> _]. cbn [app]. assert (Hne : enc d <> []) by (unfold encodes_ok in Hd; destruct (pattern_char d); [by destruct Hd as [-> _]|by destruct Hd]).
    destruct (enc d) as [|b bs] eqn:Ed; [done|]. apply Forall_cons in Fd as [Fd0 Fd].
    rewrite (unigrams_cons _ b 2); [|constructor; [by apply (bool_decide_unpack _); vm_compute|constructor; [done|by apply Forall_app]]|done|reflexivity].
    cbn [drop app]. rewrite drop_0. cbn [app]. constructor; [by apply byte_not_special|].
    destruct bs as [|b' bs]; [done|]. rewrite unigrams_literals; [by apply umatch_literals| |done].
    unfold encodes_ok in Hd. destruct (pattern_char d); [destruct Hd as [Hd _]; congruence|]. destruct Hd as [_ Hd]. rewrite Ed in Hd.
    apply Forall_cons in Hd as [_ Hd]. eapply Forall_impl; [exact Hd|]. intros x [Hx Hp]. split; [done|]. by apply pattern_char_other in Hp as [? _].
Qed.

Lemma variant_refl s : Forall2 variant s s.
Proof. induction s; by constructor. Qed.

Lemma glob_umatch p : forall name, Forall ok p -> simple_brackets p = true ->
  (forall c d, c ∈ p -> d ∈ name -> same c d -> variant c d /\ ok d /\ (is_glob_char d = true -> c = d)) ->
  glob_match same character member (glob_tokens p) name ->
  exists p', Forall2 variant p p' /\ Forall ok p' /\ umatch (unigrams (encode enc p')) (encode enc name).
Proof.
  remember (length p) as k eqn:Ek. revert p Ek. induction (lt_wf k) as [k _ IH]. intros p -> name F Hs Hsame Hm.
  destruct p as [|c p]; [inversion Hm; subst; exists []; repeat constructor|].
  (* what follows [e] is matched as by induction *)
  assert (Hrest : forall e q w s, c :: p = e ++ q -> e <> [] -> name = w ++ s -> simple_brackets q = true ->
    glob_match same character member (glob_tokens q) s ->
    Forall ok e /\ exists q', Forall2 variant q q' /\ Forall ok q' /\ umatch (unigrams (encode enc q')) (encode enc s)).
  { intros e q w s E Hne -> Hq Hqs. rewrite E in *. apply Forall_app in F as [Fe Fq]. split; [done|].
    apply (IH (length q)); try done; [destruct e; [done|]; rewrite length_app; cbn [length]; lia|].
    intros a d Ha Hd. apply Hsame; apply elem_of_app; by right. }
  assert (Hany : forall e q w s u, c :: p = e ++ q -> e <> [] -> name = w ++ s -> simple_brackets q = true ->
    glob_match same character member (glob_tokens q) s -> is_special u = true ->
    (forall x, read_unigram_at (encode enc e ++ x) = (u, length (encode enc e))) ->
    exists p', Forall2 variant (c :: p) p' /\ Forall ok p' /\ umatch (unigrams (encode enc p')) (encode enc name)).
  { intros e q w s u E Hne En Hq Hqs Hu Hr. destruct (Hrest e q w s E Hne En Hq Hqs) as (Fe & q' & V & Fq & Hu'). exists (e ++ q').
    rewrite E, En. split; [apply Forall2_app; [apply variant_refl|done]|]. split; [by apply Forall_app|].
    eapply umatch_special; [done..|apply Hr|done| |done]. by rewrite drop_app_length. }
  clear IH. unfold simple_brackets in Hs. rewrite tokens_cons in Hm, Hs. apply Forall_cons in F as [Fc F].
  assert (Hsingle : pattern_char c = true -> encode enc [c] = [c])
    by (intros E; unfold encodes_ok in Fc; rewrite E in Fc; unfold encode; cbn [map concat]; by destruct Fc as [-> _]).
  destruct (Z.eqb_spec c 92) as [->|H92].
  { destruct p as [|d p].
    - inversion Hm; subst. inversion H3; subst. exists [92]. split; [by constructor|]. split; [by constructor|].
      rewrite Hsingle by done. change (unigrams [92]) with [PREMATURE_END_UNIGRAM]. rewrite <- (app_nil_r (encode enc [d])). apply um_any; [done|constructor].
    - inversion Hm as [|? d' ? s Hd Hms| | | |]; subst. apply Forall_cons in F as [Fd F].
      destruct (Hrest [92; d] p [d'] s eq_refl ltac:(done) eq_refl Hs Hms) as (_ & q' & V & Fq & Hu).
      destruct (Hsame d d') as (Hv & Hok & _); [by right; left|by left|done|]. exists (92 :: d' :: q').
      split; [by constructor; [|constructor]|]. split; [by constructor; [|constructor]|]. by apply (umatch_literal [92]); [right|..]. }
  destruct (Z.eqb_spec c 63) as [->|H63].
  { inversion Hm as [| |w ? s Hw Hms| | |]; subst. apply (Hany [63] p w s WILDCARD_UNIGRAM); try done. intros x. by rewrite Hsingle. }
  destruct (Z.eqb_spec c 42) as [->|H42].
  { inversion Hm as [| | |w ? s Hms| |]; subst. apply (Hany [42] p w s WILDCARD_UNIGRAM); try done. intros x. by rewrite Hsingle. }
  destruct (Z.eqb_spec c 91) as [->|H91].
  - destruct (bracket p) as [[e r]|] eqn:Eb.
    + cbn [forallb simple_token] in Hs. apply andb_true_iff in Hs as [He Hs]. apply bracket_spec in Eb as [-> Hx].
      inversion Hm as [| | | |? w ? s Hw Hmem Hms|]; subst. apply Forall_app in F as [Fe Fr]. apply Forall_cons in Fr as [F93 _].
      apply (Hany (91 :: e ++ [93]) r w s WILDCARD_UNIGRAM); try done; [by rewrite <- app_comm_cons, <- app_assoc|].
      intros x. change (91 :: e ++ [93]) with ([91] ++ e ++ [93]). rewrite !encode_app, Hsingle by done.
      destruct F93 as [E93 _]. change (encode enc [93]) with (enc 93 ++ []). rewrite E93. cbn [app]. rewrite <- app_assoc.
      rewrite read_members by done. cbn [app class_loop Z.eqb]. f_equal. cbn [length]. rewrite length_app. cbn [length]. lia.
    + cbn [forallb simple_token] in Hs. apply andb_true_iff in Hs as [He Hs]. exists (91 :: p).
      split; [apply variant_refl|]. split; [by constructor|].
      destruct (read_open p F He) as (n & E & Hd). assert (E91 : encode enc (91 :: p) = 91 :: encode enc p) by (change (91 :: p) with ([91] ++ p); by rewrite encode_app, Hsingle).
      rewrite E91. rewrite (unigrams_cons _ PREMATURE_END_UNIGRAM n); [|rewrite <- E91; apply encode_bytes; by constructor|done|exact E]. rewrite Hd.
      rewrite <- (app_nil_r (encode enc name)). apply um_any; [done|constructor].
  - inversion Hm as [|? d ? s Hd Hms| | | |]; subst. destruct (Hrest [c] p [d] s eq_refl ltac:(done) eq_refl Hs Hms) as (_ & q' & V & Fq & Hu).
    destruct (Hsame c d) as (Hv & Hok & Hg); [by left|by left|done|]. exists (d :: q'). split; [by constructor|]. split; [by constructor|].
    apply (umatch_literal [] d); try done. left. split; [done|].
    destruct (is_glob_char d) eqn:E; [|done]. rewrite <- (Hg eq_refl) in E. unfold is_glob_char in E.
      by rewrite !orb_true_iff, !Z.eqb_eq in E; intuition.
Qed.

End Patterns.

Lemma encode_id s : encode (fun c => [c]) s = s.
Proof. unfold encode. induction s as [|c s IH]; [done|]. cbn [map concat app]. by rewrite IH. Qed.

Lemma byte_encodes c : is_byte c -> encodes_ok (fun c => [c]) c.
Proof. intros H. unfold encodes_ok. destruct (pattern_char c) eqn:E; [done|]. split; [done|]. by apply Forall_singleton. Qed.

Lemma glob_bytes_umatch character member needle name : Forall is_byte needle -> simple_brackets needle = true ->
  glob_match eq character member (glob_tokens needle) name -> umatch (unigrams needle) name.
Proof.
  intros F Hs Hm. rewrite Forall_forall in F.
  destruct (glob_umatch (fun c => [c]) eq eq character member (fun c => eq_refl) needle name) as (p' & V & _ & H); try done.
  - apply Forall_forall. intros c Hc. by apply byte_encodes, F.
  - intros c d Hc _ <-. split; [done|]. split; [by apply byte_encodes, F|done].
  - rewrite !encode_id in H. by apply list_eq_Forall2 in V as <-.
Qed.

(** C21. Every trigram that [parse_trigrams] asks for is in every name that the needle
    matches as a shell pattern, whatever surrounds the match: candidates are not
    lost.  That needs bracket expressions without a [\]] but as their first member: at
    any other [\]] the code takes the expression for closed, and for class
    names, escaped brackets and [\[^\]] it is wrong ([named_class_false_negative]).  For a
    string without glob characters it asks for exactly the trigrams of the string. *)
Theorem parse_trigrams_sound needle character member : Forall is_byte needle ->
  (simple_brackets needle = true -> forall name pre post t,
     glob_match eq character member (glob_tokens needle) name -> t ∈ parse_trigrams needle ->
     t ∈ trigrams_of (pre ++ name ++ post)) /\
  (forallb (fun c => negb (is_glob_char c)) needle = true -> parse_trigrams needle = trigrams_of needle).
Proof.
  intros F. destruct (parse_trigrams_names needle F) as [H1 H2]. split; [|done].
  intros Hs name pre post t Hm Ht. apply H1; [|done]. by eapply glob_bytes_umatch.
Qed.

(** A character of one byte, and members compared one by one. *)
Definition one_character (w : list Z) : Prop := length w = 1%nat.

Definition listed (expression w : list Z) : Prop := exists c, w = [c] /\ c ∈ expression.

Definition needle_witness : bytes := bytes_of_string "foo*b\[r[]x]".

Lemma parse_trigrams_sound_witness :
  ((simple_brackets needle_witness = true -> forall name pre post t,
      glob_match eq one_character listed (glob_tokens needle_witness) name -> t ∈ parse_trigrams needle_witness ->
      t ∈ trigrams_of (pre ++ name ++ post)) /\
   (forallb (fun c => negb (is_glob_char c)) needle_witness = true -> parse_trigrams needle_witness = trigrams_of needle_witness)) /\
  simple_brackets needle_witness = true /\
  glob_match eq one_character listed (glob_tokens needle_witness) (bytes_of_string "fooxb[r]") /\
  parse_trigrams needle_witness = trigrams_of (bytes_of_string "foo") ++ trigrams_of (bytes_of_string "b[r").
Proof.
  split; [|split; [reflexivity|split; [|reflexivity]]].
  - apply (parse_trigrams_sound needle_witness one_character listed). apply (bool_decide_unpack _). vm_compute. exact I.
  - change (glob_tokens needle_witness) with
      [Literal 102; Literal 111; Literal 111; AnyString; Literal 98; Literal 91; Literal 114; Bracket [93; 120]].
    do 3 (apply match_literal; [reflexivity|]). apply (match_any_string eq one_character listed [120]).
    do 3 (apply match_literal; [reflexivity|]). apply (match_bracket eq one_character listed [93; 120] [93]);
      [reflexivity|exists 93; split; [reflexivity|left]|]. apply match_end.
Defined.

(** Unescaping a needle gives the one string that the needle matches, and
    fails exactly when the needle has a glob construct or ends in the middle of
    one. *)
Theorem unescape_exact needle : Forall is_byte needle ->
  match unescape_glob_to_plain_string needle with
  | Some plain => umatch (unigrams needle) plain /\
                  (forall h, umatch (unigrams needle) h -> h = plain)
  | None => Exists (fun u => is_special u = true) (unigrams needle)
  end.
Proof.
  intros F. unfold unescape_glob_to_plain_string. rewrite (unescape_loop_spec _ _ 0 F) by lia.
  rewrite drop_0. destruct (forallb _ _) eqn:E.
  - split; [by apply umatch_plain|]. intros h. by apply umatch_plain_unique.
  - clear F. induction (unigrams needle) as [|u us IH]; [done|]. cbn [forallb] in E.
    destruct (is_special u) eqn:Eu; [by left|]. right. by apply IH.
Qed.

Lemma unescape_exact_witness :
  match unescape_glob_to_plain_string (bytes_of_string "a\*b") with
  | Some plain => umatch (unigrams (bytes_of_string "a\*b")) plain /\
                  (forall h, umatch (unigrams (bytes_of_string "a\*b")) h -> h = plain)
  | None => Exists (fun u => is_special u = true) (unigrams (bytes_of_string "a\*b"))
  end /\ unescape_glob_to_plain_string (bytes_of_string "a\*b") = Some (bytes_of_string "a*b").
Proof.
  split; [|reflexivity]. apply (unescape_exact (bytes_of_string "a\*b")).
  repeat constructor; vm_compute; congruence.
Defined.

Lemma parse_ignore_case_names loc needle alts fuel :
  locale_ok loc -> Forall is_byte needle -> codepoints loc (length needle) needle = Some alts ->
  (sum_list (map max_len alts) < fuel)%nat ->
  (exists sigma, choice alts sigma /\ concat sigma = needle) /\
  exists groups, parse_trigrams_ignore_case loc fuel needle = Some groups /\ Forall group_ok groups /\
  forall sigma h pre post, choice alts sigma -> umatch (unigrams (concat sigma)) h ->
    Forall (Exists (fun t => t ∈ trigrams_of (pre ++ h ++ post))) groups.
Proof.
  intros L F H Hf. destruct (codepoints_ok _ _ _ _ L F H) as (B & N & Hc). split; [exact Hc|].
  unfold parse_trigrams_ignore_case. rewrite H. cbn [mbind option_bind].
  apply (ignore_case_loop_spec alts fuel _ _ B N Hf).
  - constructor; [|constructor]. split; [constructor|]. unfold potential. cbn. by rewrite drop_0.
  - intros sigma C. exists (TS [] 0). split; [left|]. exists []. cbn. by rewrite drop_0.
Qed.

(** *** Letters of either case *)

(** The character that the text begins with is what encodes to it. *)
Definition decodes (loc : Locale) (c : Z) : Prop :=
  forall s, mb_decode loc (wctomb loc c ++ s) = Some (c, length (wctomb loc c)).

Definition case_variants (loc : Locale) (c : Z) : list Z := [c; towlower loc c; towupper loc c].

(** As [FNM_CASEFOLD] compares. *)
Definition same_letter (loc : Locale) (c d : Z) : Prop := towlower loc c = towlower loc d.

(** No letter of the name is the same as one of the needle but itself, its lower case or
    its upper case; and glob characters have no other case. *)
Definition only_case_variants (loc : Locale) (needle name : list Z) : Prop := forall c d,
  c ∈ needle -> d ∈ name -> same_letter loc c d -> d ∈ case_variants loc c /\ (is_glob_char d = true -> c = d).

Definition longest_variant (loc : Locale) (c : Z) : nat := list_max (map (fun d => length (wctomb loc d)) (case_variants loc c)).

Lemma variant_alternative loc c d : d ∈ case_variants loc c -> wctomb loc d ∈ alternatives loc c (wctomb loc c).
Proof.
  unfold case_variants, alternatives. rewrite !elem_of_cons. intros [->|[->|[->|[]%not_elem_of_nil]]]; [by left| |].
  - destruct (Z.eqb_spec (towlower loc c) c) as [->|]; [by left|]. right. by left.
  - destruct (Z.eqb_spec (towupper loc c) c) as [->|]; [by left|]. cbn [orb].
    destruct (Z.eqb_spec (towupper loc c) (towlower loc c)) as [E|].
    + destruct (Z.eqb_spec (towlower loc c) c) as [E2|]; [rewrite E, E2; by left|]. rewrite E. right. by left.
    + right. apply elem_of_app. right. by left.
Qed.

Lemma alternative_longest loc c : (max_len (alternatives loc c (wctomb loc c)) <= longest_variant loc c)%nat.
Proof.
  unfold max_len, longest_variant, case_variants, alternatives. destruct (_ =? _), (_ || _); cbn [map app list_max foldr]; lia.
Qed.

Lemma alternatives_longest loc chars :
  (sum_list (map max_len (map (fun c => alternatives loc c (wctomb loc c)) chars)) <= sum_list (map (longest_variant loc) chars))%nat.
Proof.
  induction chars as [|c chars IH]; [done|]. cbn [map sum_list_with]. unfold id at 1 3. pose proof (alternative_longest loc c). lia.
Qed.

Lemma codepoints_encode loc chars : Forall (fun c => encodes_ok (wctomb loc) c /\ decodes loc c) chars -> forall fuel,
  (length (encode (wctomb loc) chars) <= fuel)%nat ->
  codepoints loc fuel (encode (wctomb loc) chars) = Some (map (fun c => alternatives loc c (wctomb loc c)) chars).
Proof.
  induction 1 as [|c chars [Hc Hd] F IH]; intros fuel Hf; [by destruct fuel|]. unfold encode in *. cbn [map concat] in *.
  assert (Hne : wctomb loc c <> []) by (unfold encodes_ok in Hc; destruct (pattern_char c); [by destruct Hc as [-> _]|by destruct Hc]).
  rewrite length_app in Hf. specialize (Hd (concat (map (wctomb loc) chars))). destruct (wctomb loc c) as [|b w] eqn:E; [done|].
  cbn [length app] in *. destruct fuel as [|fuel]; [lia|]. cbn [codepoints]. rewrite Hd. cbn [mbind option_bind].
  rewrite app_comm_cons. rewrite (drop_app_length' (b :: w)) by done. rewrite IH by lia. cbn [mbind option_bind].
  by rewrite (take_app_length' (b :: w)) by done.
Qed.

Lemma variants_choice loc chars p' : Forall2 (fun c d => d ∈ case_variants loc c) chars p' ->
  choice (map (fun c => alternatives loc c (wctomb loc c)) chars) (map (wctomb loc) p').
Proof. unfold choice. induction 1 as [|c d chars p' Hd V IH]; cbn [map]; constructor; [by apply variant_alternative|done]. Qed.

(** A name that matches ignoring case matches the unigrams of some choice of variants. *)
Lemma letters_umatch loc chars name character member :
  Forall (fun c => encodes_ok (wctomb loc) c /\ decodes loc c) chars -> Forall (encodes_ok (wctomb loc)) name ->
  simple_brackets chars = true -> only_case_variants loc chars name ->
  glob_match (same_letter loc) character member (glob_tokens chars) name ->
  exists sigma, choice (map (fun c => alternatives loc c (wctomb loc c)) chars) sigma /\
    umatch (unigrams (concat sigma)) (encode (wctomb loc) name).
Proof.
  intros F Fn Hs Hv Hm. assert (Fe : Forall (encodes_ok (wctomb loc)) chars) by (eapply Forall_impl; [exact F|by intros c [? _]]).
  rewrite Forall_forall in Fn.
  destruct (glob_umatch (wctomb loc) (same_letter loc) (fun c d => d ∈ case_variants loc c) character member
    (fun c => proj2 (elem_of_cons _ c _) (or_introl eq_refl)) chars name Fe Hs) as (p' & V & _ & Hu); [|done|].
  - intros c d Hc Hd Hcd. destruct (Hv c d Hc Hd Hcd). split; [done|]. split; [by apply Fn|done].
  - exists (map (wctomb loc) p'). split; [by apply variants_choice|exact Hu].
Qed.

(** C20. Ignoring case, the loops end, and every group has a trigram of every name that
    the needle matches when letters are compared by their lower case: candidates are
    not lost.  Bracket expressions must be simple, as for [parse_trigrams_sound], and
    the name must not have a letter whose lower case is that of a letter of the needle
    although it is neither that letter nor its lower or upper case
    ([kelvin_false_negative]).  The encoding keeps the characters of patterns apart from the
    bytes of others, as UTF-8 does. *)
Theorem parse_trigrams_ignore_case_sound loc chars fuel character member : locale_ok loc ->
  Forall (fun c => encodes_ok (wctomb loc) c /\ decodes loc c) chars -> (sum_list (map (longest_variant loc) chars) < fuel)%nat ->
  exists groups, parse_trigrams_ignore_case loc fuel (encode (wctomb loc) chars) = Some groups /\
    (simple_brackets chars = true -> forall name pre post, Forall (encodes_ok (wctomb loc)) name -> only_case_variants loc chars name ->
       glob_match (same_letter loc) character member (glob_tokens chars) name ->
       Forall (Exists (fun t => t ∈ trigrams_of (pre ++ encode (wctomb loc) name ++ post))) groups).
Proof.
  intros L F Hf. assert (Fe : Forall (encodes_ok (wctomb loc)) chars) by (eapply Forall_impl; [exact F|by intros c [? _]]).
  pose proof (codepoints_encode loc chars F _ (Nat.le_refl _)) as E.
  pose proof (alternatives_longest loc chars) as Hsum.
  destruct (parse_ignore_case_names loc _ _ fuel L (encode_bytes _ _ Fe) E) as (_ & groups & Eg & _ & Hg); [lia|].
  exists groups. split; [exact Eg|]. intros Hs name pre post Fn Hv Hm.
  destruct (letters_umatch loc chars name character member F Fn Hs Hv Hm) as (sigma & C & Hu). by apply (Hg sigma).
Qed.

(** ASCII letters as a locale. *)
Definition ascii_locale : Locale :=
  LOC (fun s => match s with [] => None | c :: _ => Some (c, 1%nat) end) (fun ch => [u8 ch])
    (fun ch => if (65 <=? ch) && (ch <=? 90) then ch + 32 else ch)
    (fun ch => if (97 <=? ch) && (ch <=? 122) then ch - 32 else ch).

Lemma ascii_locale_ok : locale_ok ascii_locale.
Proof.
  split.
  - intros [|c s] ch n H; [done|]. injection H as <- <-. cbn. lia.
  - intros ch. repeat constructor; apply Z.mod_pos_bound; lia.
Qed.

Lemma parse_trigrams_ignore_case_sound_witness :
  (exists groups, parse_trigrams_ignore_case ascii_locale 6 (encode (wctomb ascii_locale) (bytes_of_string "a-b?D")) = Some groups /\
    (simple_brackets (bytes_of_string "a-b?D") = true -> forall name pre post, Forall (encodes_ok (wctomb ascii_locale)) name ->
       only_case_variants ascii_locale (bytes_of_string "a-b?D") name ->
       glob_match (same_letter ascii_locale) one_character listed (glob_tokens (bytes_of_string "a-b?D")) name ->
       Forall (Exists (fun t => t ∈ trigrams_of (pre ++ encode (wctomb ascii_locale) name ++ post))) groups)) /\
  parse_trigrams_ignore_case ascii_locale 6 (bytes_of_string "a-b?D") =
    Some [[trigram_at 65 45 66; trigram_at 97 45 66; trigram_at 65 45 98; trigram_at 97 45 98]] /\
  glob_match (same_letter ascii_locale) one_character listed (glob_tokens (bytes_of_string "a-b?D")) (bytes_of_string "A-bcd").
Proof.
  split; [|split; [vm_compute; reflexivity|]].
  - apply (parse_trigrams_ignore_case_sound ascii_locale (bytes_of_string "a-b?D") 6 one_character listed ascii_locale_ok).
    + repeat (apply Forall_cons_2; [split; [split; [first [reflexivity|discriminate]|apply (bool_decide_unpack _); vm_compute; exact I]|
        intros s; reflexivity]|]). apply Forall_nil_2.
    + apply Nat.ltb_lt. vm_compute. reflexivity.
  - change (glob_tokens (bytes_of_string "a-b?D")) with [Literal 97; Literal 45; Literal 98; AnyCharacter; Literal 68].
    do 3 (apply match_literal; [reflexivity|]). apply (match_any_character _ one_character listed [99]); [reflexivity|].
    apply match_literal; [reflexivity|]. apply match_end.
Defined.

(** ASCII and the Kelvin sign, which is a letter k of its own, in UTF-8. *)
Definition kelvin_locale : Locale :=
  LOC (fun s => match s with [] => None | 226 :: 132 :: 170 :: _ => Some (8490, 3%nat) | c :: _ => Some (c, 1%nat) end)
    (fun ch => if ch =? 8490 then [226; 132; 170] else [u8 ch])
    (fun ch => if ch =? 8490 then 107 else towlower ascii_locale ch) (towupper ascii_locale).

(** The Kelvin sign matches a k if case is ignored, but no trigram with it is asked for. *)
Example kelvin_false_negative :
  glob_match (same_letter kelvin_locale) one_character listed (glob_tokens (bytes_of_string "kid")) [8490; 105; 100] /\
  match parse_trigrams_ignore_case kelvin_locale 10 (bytes_of_string "kid") with
  | Some groups => ~ Forall (Exists (fun t => t ∈ trigrams_of (encode (wctomb kelvin_locale) [8490; 105; 100]))) groups
  | None => False
  end.
Proof.
  split; [do 3 (apply match_literal; [reflexivity|]); apply match_end|].
  destruct (parse_trigrams_ignore_case _ _ _) as [groups|] eqn:E; [|by vm_compute in E]. vm_compute in E. injection E as <-.
  apply (bool_decide_unpack (~ _)). vm_compute. exact I.
Qed.

(** The search unescapes a plain needle and hands the result to
    [parse_trigrams], which reads it as a pattern again: looking for [a\bcd],
    written [a\\bcd], asks for the trigram [abc], which the name does not have. *)
Example escaped_backslash_false_negative :
  exists plain, unescape_glob_to_plain_string (bytes_of_string "a\\bcd") = Some plain /\
    plain = bytes_of_string "a\bcd" /\
    Exists (fun t => t ∉ trigrams_of plain) (parse_trigrams plain).
Proof.
  exists (bytes_of_string "a\bcd"). split; [reflexivity|]. split; [reflexivity|].
  left. intros H. apply list_elem_of_In in H. revert H. vm_compute. intuition congruence.
Qed.

(** The class of a glob ends at the first bracket, so that of [[[:digit:]]] leaves
    a bracket over, which matching names need not have. *)
Example named_class_false_negative :
  glob_match eq one_character (fun _ w => w = [53]) (glob_tokens (bytes_of_string "a[[:digit:]]bcd")) (bytes_of_string "a5bcd") /\
  trigram_at 93 98 99 ∈ parse_trigrams (bytes_of_string "a[[:digit:]]bcd") /\
  trigram_at 93 98 99 ∉ trigrams_of (bytes_of_string "a5bcd").
Proof.
  split; [|split; apply (bool_decide_unpack _); vm_compute; exact I].
  change (glob_tokens _) with [Literal 97; Bracket (bytes_of_string "[:digit:]"); Literal 98; Literal 99; Literal 100].
  apply match_literal; [reflexivity|]. apply (match_bracket eq one_character (fun _ w => w = [53]) _ [53]); [reflexivity..|].
  do 3 (apply match_literal; [reflexivity|]). apply match_end.
Qed.
