(* ===== verification/Search.v ===== *)
(** * flocate: from trigram groups to candidate blocks (src/flocate.cpp)

    The first half of [do_search_file]: looking the trigrams up, reading their
    posting lists while the answers arrive in any order, uniting them within a
    group and intersecting the groups.  The hash table and the posting lists are
    reached through two parameters; the arrival orders are parameters, too. *)
From S2P Require Import Prelude Text HashTable Trigrams.

(** ** Posting lists in hand *)

Record TrigramDisjunction := TD {
  trigram_alternatives : list Z;
  read_trigrams : list (Trigram * Z);
  max_num_docids : Z;
  docids : list Z;
  remaining_trigrams_to_read : Z
}.

(** As [parse_trigrams] leaves a group. *)
Definition new_TrigramDisjunction (alternatives : list Z) : TrigramDisjunction :=
  TD alternatives [] 0 [] (u32 (Z.of_nat (length alternatives))).

(** [std::set_union] and [std::set_intersection] of increasing sequences. *)
Fixpoint set_union (a : list Z) : list Z -> list Z :=
  match a with
  | [] => fun b => b
  | x :: a' =>
    fix union_a (b : list Z) : list Z :=
      match b with
      | [] => a
      | y :: b' =>
        if x <? y then x :: set_union a' b
        else if y <? x then y :: union_a b'
        else x :: set_union a' b'
      end
  end.

Fixpoint set_intersection (a : list Z) : list Z -> list Z :=
  match a with
  | [] => fun _ => []
  | x :: a' =>
    fix intersection_a (b : list Z) : list Z :=
      match b with
      | [] => []
      | y :: b' =>
        if x <? y then set_intersection a' b
        else if y <? x then intersection_a b'
        else x :: set_intersection a' b'
      end
  end.

(** [new_posting_list_read]: the group, [cur_candidates], and whether the search
    is over. *)
Definition new_posting_list_read (ignore_case : bool) (td : TrigramDisjunction) (decoded cur_candidates : list Z)
    : TrigramDisjunction * list Z * bool :=
  let docids :=
    match docids td with
    | [] => decoded
    | _ => set_union decoded (docids td)
    end in
  let remaining := u32 (remaining_trigrams_to_read td - 1) in
  let with_docids d := TD (trigram_alternatives td) (read_trigrams td) (max_num_docids td) d remaining in
  if 0 <? remaining then (with_docids docids, cur_candidates, false)
  else
    match cur_candidates with
    | [] => (with_docids [], docids, false)
    | _ =>
      let cur := set_intersection cur_candidates docids in
      (with_docids docids, cur, ignore_case && bool_decide (cur = []))
    end.

Section Search.
(** [Corpus::find_trigram]: the slot and the length of the posting list; then
    reading and decoding the list. *)
Context (find_trigram : Z -> option (Trigram * Z)) (read_list : Trigram * Z -> list Z).

(** ** Looking the trigrams up *)

(** The keys of [trigrams_to_lookup], in the order of their first use. *)
Definition trigrams_to_lookup (tds : list TrigramDisjunction) : list Z :=
  remove_dups (concat (map trigram_alternatives tds)).

(** One group of a trigram that is not in the table; the second component says
    that nothing can match it. *)
Definition trigram_missing (t : Z) (td : TrigramDisjunction) : TrigramDisjunction * bool :=
  if decide (t ∈ trigram_alternatives td) then
    let remaining := u32 (remaining_trigrams_to_read td - 1) in
    (TD (trigram_alternatives td) (read_trigrams td) (max_num_docids td) (docids td) remaining,
     (remaining =? 0) && bool_decide (read_trigrams td = []))
  else (td, false).

Definition trigram_found (t : Z) (e : Trigram * Z) (td : TrigramDisjunction) : TrigramDisjunction :=
  if decide (t ∈ trigram_alternatives td) then
    TD (trigram_alternatives td) (read_trigrams td ++ [e]) (u32 (max_num_docids td + tg_num_docids (fst e)))
      (docids td) (u32 (remaining_trigrams_to_read td - 1))
  else td.

(** The callbacks in the order of [arrivals]; [None] when the program exits,
    which it does at once unless it is [in_forked_child].  The boolean is
    [should_early_exit]. *)
Fixpoint lookup_all (in_forked_child : bool) (arrivals : list Z) (tds : list TrigramDisjunction) (early : bool)
    : option (list TrigramDisjunction * bool) :=
  match arrivals with
  | [] => Some (tds, early)
  | t :: arrivals =>
    match find_trigram t with
    | None =>
      let r := map (trigram_missing t) tds in
      let hopeless := existsb snd r in
      if hopeless && negb in_forked_child then None
      else lookup_all in_forked_child arrivals (map fst r) (early || hopeless)
    | Some e => lookup_all in_forked_child arrivals (map (trigram_found t e) tds) early
    end
  end.

Definition reset_for_reads (td : TrigramDisjunction) : TrigramDisjunction :=
  TD (trigram_alternatives td) (read_trigrams td) (max_num_docids td) (docids td)
    (u32 (Z.of_nat (length (read_trigrams td)))).

(** ** Reading the posting lists *)

Record Reading := READING {
  groups : list TrigramDisjunction;
  cur_candidates : list Z;
  done : bool;
  trigrams_submitted_read : list Z;
  waiting_reads : list (Trigram * Z)
}.

(** The groups that use the trigram, in turn, until the search is over. *)
Fixpoint deliver_to (ignore_case : bool) (t : Z) (decoded : list Z) (tds : list TrigramDisjunction) (cur : list Z)
    : list TrigramDisjunction * list Z * bool :=
  match tds with
  | [] => ([], cur, false)
  | td :: tds =>
    if decide (t ∈ trigram_alternatives td) then
      let '(td, cur, finished) := new_posting_list_read ignore_case td decoded cur in
      if finished then (td :: tds, cur, true)
      else let '(tds, cur, finished) := deliver_to ignore_case t decoded tds cur in (td :: tds, cur, finished)
    else let '(tds, cur, finished) := deliver_to ignore_case t decoded tds cur in (td :: tds, cur, finished)
  end.

(** The callback of [submit_read]. *)
Definition posting_list_read (ignore_case : bool) (s : Reading) (e : Trigram * Z) : Reading :=
  if done s then s
  else
    let '(tds, cur, finished) := deliver_to ignore_case (trgm (fst e)) (read_list e) (groups s) (cur_candidates s) in
    READING tds cur finished (trigrams_submitted_read s) (waiting_reads s).

(** [engine.finish()]: everything that waits arrives, in some order. *)
Definition finish (ignore_case : bool) (arrive : list (Trigram * Z) -> list (Trigram * Z)) (s : Reading) : Reading :=
  let s' := fold_left (posting_list_read ignore_case) (arrive (waiting_reads s)) s in
  READING (groups s') (cur_candidates s') (done s') (trigrams_submitted_read s') [].

(** Without io_uring the callback runs inside of [submit_read]. *)
Definition submit_read (ignore_case using_uring : bool) (e : Trigram * Z) (s : Reading) : Reading :=
  if using_uring then
    READING (groups s) (cur_candidates s) (done s) (trigrams_submitted_read s) (waiting_reads s ++ [e])
  else posting_list_read ignore_case s e.

Fixpoint submit_group (ignore_case using_uring : bool) (arrive : list (Trigram * Z) -> list (Trigram * Z))
    (reads : list (Trigram * Z)) (s : Reading) : Reading :=
  match reads with
  | [] => s
  | e :: reads =>
    if decide (trgm (fst e) ∈ trigrams_submitted_read s) then submit_group ignore_case using_uring arrive reads s
    else
      let s := READING (groups s) (cur_candidates s) (done s) (trgm (fst e) :: trigrams_submitted_read s)
                 (waiting_reads s) in
      if (5 <=? length (waiting_reads s))%nat then
        let s := finish ignore_case arrive s in
        if done s then s
        else submit_group ignore_case using_uring arrive reads (submit_read ignore_case using_uring e s)
      else submit_group ignore_case using_uring arrive reads (submit_read ignore_case using_uring e s)
  end.

(** The outer loop: a group with far more blocks than there are candidates is
    left to the final check of the names, and so are those after it. *)
Fixpoint submit_groups (ignore_case using_uring : bool) (arrive : list (Trigram * Z) -> list (Trigram * Z))
    (tds : list TrigramDisjunction) (s : Reading) : Reading :=
  match tds with
  | [] => s
  | td :: tds =>
    if negb (bool_decide (cur_candidates s = [])) &&
       (Z.of_nat (length (cur_candidates s)) * 100 <? max_num_docids td) then s
    else submit_groups ignore_case using_uring arrive tds
           (submit_group ignore_case using_uring arrive (read_trigrams td) s)
  end.

(** ** The search for candidates *)

Inductive SearchResult :=
| ScanAll
| SearchExit
| NothingFound
| Candidates (l : list Z).

(** The groups of all needles, sorted and without repetition. *)
Definition trigram_groups (alternatives : list (list Z)) : list TrigramDisjunction :=
  map new_TrigramDisjunction (unique_sort bytes_lt alternatives).

(** [arrivals], [sort_groups] and [arrive] stand for what is not determined: the
    order of the answers from the hash table, the order in which [std::sort]
    leaves groups of the same size, and the order of the posting lists. *)
Definition search_candidates (ignore_case in_forked_child using_uring : bool) (arrivals : list Z)
    (sort_groups : list TrigramDisjunction -> list TrigramDisjunction)
    (arrive : list (Trigram * Z) -> list (Trigram * Z)) (tds : list TrigramDisjunction) : SearchResult :=
  match trigrams_to_lookup tds with
  | [] => ScanAll
  | _ =>
    match lookup_all in_forked_child arrivals tds false with
    | None => SearchExit
    | Some (_, true) => NothingFound
    | Some (tds, false) =>
      let tds := sort_groups (map reset_for_reads tds) in
      let s := finish ignore_case arrive
                 (submit_groups ignore_case using_uring arrive tds (READING tds [] false [] [])) in
      if done s then NothingFound else Candidates (cur_candidates s)
    end
  end.

End Search.

(** ** Sorted sequences *)

Definition increasing (l : list Z) : Prop := StronglySorted Z.lt l.

Lemma increasing_cons x l : increasing (x :: l) <-> increasing l /\ forall y, y ∈ l -> x < y.
Proof.
  unfold increasing. split.
  - intros H. inversion H as [|? ? S F]; subst. rewrite Forall_forall in F. by split.
  - intros [S F]. constructor; [done|]. by apply Forall_forall.
Qed.

Lemma set_union_nil_r a : set_union a [] = a.
Proof. by destruct a. Qed.

Lemma set_union_cons x a y b : set_union (x :: a) (y :: b) =
  if x <? y then x :: set_union a (y :: b) else if y <? x then y :: set_union (x :: a) b else x :: set_union a b.
Proof. reflexivity. Qed.

Lemma set_intersection_cons x a y b : set_intersection (x :: a) (y :: b) =
  if x <? y then set_intersection a (y :: b) else if y <? x then set_intersection (x :: a) b else x :: set_intersection a b.
Proof. reflexivity. Qed.

(** Induction along a merge. *)
Lemma merge_ind (P : list Z -> list Z -> Prop) :
  (forall b, P [] b) -> (forall a, P a []) ->
  (forall x a y b, (x < y -> P a (y :: b)) -> (y < x -> P (x :: a) b) -> (x = y -> P a b) -> P (x :: a) (y :: b)) ->
  forall a b, P a b.
Proof.
  intros H1 H2 H3 a. induction a as [|x a IHa]; [done|]. intros b. induction b as [|y b IHb]; [done|].
  apply H3; auto.
Qed.

Lemma set_union_spec a b : increasing a -> increasing b ->
  increasing (set_union a b) /\ forall z, z ∈ set_union a b <-> z ∈ a \/ z ∈ b.
Proof.
  revert a b. apply (merge_ind (fun a b => increasing a -> increasing b ->
    increasing (set_union a b) /\ forall z, z ∈ set_union a b <-> z ∈ a \/ z ∈ b)).
  - intros b _ Hb. split; [done|]. intros z. cbn. rewrite elem_of_nil. tauto.
  - intros a Ha _. rewrite set_union_nil_r. split; [done|]. intros z. rewrite elem_of_nil. tauto.
  - intros x a y b H1 H2 H3 Ha Hb. rewrite set_union_cons.
    apply increasing_cons in Ha as Ha'. apply increasing_cons in Hb as Hb'.
    destruct Ha' as [Ia Fa], Hb' as [Ib Fb]. destruct (Z.ltb_spec x y) as [Hxy|Hxy]; [|destruct (Z.ltb_spec y x) as [Hyx|Hyx]].
    + destruct (H1 Hxy Ia Hb) as [S E]. split.
      * apply increasing_cons. split; [done|]. intros z. rewrite E, elem_of_cons. intros [Hz|[->|Hz]]; auto.
        specialize (Fb z Hz). lia.
      * intros z. rewrite elem_of_cons, E, !elem_of_cons. tauto.
    + destruct (H2 Hyx Ha Ib) as [S E]. split.
      * apply increasing_cons. split; [done|]. intros z. rewrite E, elem_of_cons. intros [[->|Hz]|Hz]; auto.
        specialize (Fa z Hz). lia.
      * intros z. rewrite elem_of_cons, E, !elem_of_cons. tauto.
    + assert (x = y) as <- by lia. destruct (H3 eq_refl Ia Ib) as [S E]. split.
      * apply increasing_cons. split; [done|]. intros z. rewrite E. intros [Hz|Hz]; auto.
      * intros z. rewrite elem_of_cons, E, !elem_of_cons. tauto.
Qed.

Lemma set_intersection_spec a b : increasing a -> increasing b ->
  increasing (set_intersection a b) /\ forall z, z ∈ set_intersection a b <-> z ∈ a /\ z ∈ b.
Proof.
  revert a b. apply (merge_ind (fun a b => increasing a -> increasing b ->
    increasing (set_intersection a b) /\ forall z, z ∈ set_intersection a b <-> z ∈ a /\ z ∈ b)).
  - intros b _ _. split; [constructor|]. intros z. cbn. rewrite elem_of_nil. tauto.
  - intros a _ _. assert (set_intersection a [] = []) as -> by by destruct a.
    split; [constructor|]. intros z. rewrite elem_of_nil. tauto.
  - intros x a y b H1 H2 H3 Ha Hb. rewrite set_intersection_cons.
    apply increasing_cons in Ha as Ha'. apply increasing_cons in Hb as Hb'.
    destruct Ha' as [Ia Fa], Hb' as [Ib Fb]. destruct (Z.ltb_spec x y) as [Hxy|Hxy]; [|destruct (Z.ltb_spec y x) as [Hyx|Hyx]].
    + destruct (H1 Hxy Ia Hb) as [S E]. split; [done|]. intros z. rewrite E, !elem_of_cons. split; [tauto|].
      intros [[->|Hz] [->|Hz2]]; auto; [lia|specialize (Fb x Hz2); lia].
    + destruct (H2 Hyx Ha Ib) as [S E]. split; [done|]. intros z. rewrite E, !elem_of_cons. split; [tauto|].
      intros [[->|Hz] [->|Hz2]]; auto; [lia|specialize (Fa y Hz); lia].
    + assert (x = y) as <- by lia. destruct (H3 eq_refl Ia Ib) as [S E]. split.
      * apply increasing_cons. split; [done|]. intros z. rewrite E. intros [Hz _]. auto.
      * intros z. rewrite elem_of_cons, E, !elem_of_cons. tauto.
Qed.

(** ** Candidates are never lost *)

Section Correct.
Context (find_trigram : Z -> option (Trigram * Z)) (read_list : Trigram * Z -> list Z).

(** [lists t] are the blocks that record [t]: what the table and the posting
    lists promise. *)
Class Index (lists : Z -> list Z) (valid : Z -> Prop) := {
  index_found : forall t e, is_trigram t -> find_trigram t = Some e -> trgm (fst e) = t /\ read_list e = lists t;
  index_missing : forall t, is_trigram t -> find_trigram t = None -> lists t = [];
  index_increasing : forall t, increasing (lists t);
  index_valid : forall t x, x ∈ lists t -> valid x
}.

Context (lists : Z -> list Z) (valid : Z -> Prop) `{!Index lists valid}.

(** The trigrams of the entries. *)
Abbreviation trgms := (map (fun e : Trigram * Z => trgm (fst e))).

(** A group once its trigrams are looked up. *)
Record looked_up (td : TrigramDisjunction) : Prop := {
  lu_found : forall e, e ∈ read_trigrams td -> find_trigram (trgm (fst e)) = Some e /\ trgm (fst e) ∈ trigram_alternatives td;
  lu_all : forall t e, t ∈ trigram_alternatives td -> find_trigram t = Some e -> e ∈ read_trigrams td;
  lu_trigrams : Forall is_trigram (trigram_alternatives td);
  lu_nodup : NoDup (trgms (read_trigrams td));
  lu_length : Z.of_nat (length (read_trigrams td)) < 2 ^ 32
}.

Definition outstanding (D : list Z) (td : TrigramDisjunction) : Z :=
  Z.of_nat (length (filter (fun e => trgm (fst e) ∉ D) (read_trigrams td))).

(** The state of a group when the lists of [D] have been read. *)
Record td_inv (D : list Z) (td : TrigramDisjunction) : Prop := {
  ti_looked_up : looked_up td;
  ti_remaining : remaining_trigrams_to_read td = outstanding D td;
  ti_docids : 0 < remaining_trigrams_to_read td -> increasing (docids td) /\ forall x, x ∈ docids td <->
    exists e, e ∈ read_trigrams td /\ trgm (fst e) ∈ D /\ x ∈ lists (trgm (fst e))
}.

Definition uncompleted (td : TrigramDisjunction) : Prop := 0 < remaining_trigrams_to_read td \/ read_trigrams td = [].

(** [X]: the blocks that every group allows. *)
Definition allowed (td : TrigramDisjunction) (x : Z) : Prop := exists e, e ∈ read_trigrams td /\ x ∈ lists (trgm (fst e)).

(** All that is allowed is among the candidates, or no group is complete yet. *)
Definition status (X : Z -> Prop) (tds : list TrigramDisjunction) (cur : list Z) : Prop :=
  (forall x, X x -> x ∈ cur) \/ (cur = [] /\ Forall uncompleted tds).

Definition sound (cur : list Z) : Prop := increasing cur /\ Forall valid cur.

Lemma filter_ext_elem {A} (P Q : A -> Prop) `{!forall x, Decision (P x), !forall x, Decision (Q x)} (l : list A) :
  (forall x, x ∈ l -> P x <-> Q x) -> filter P l = filter Q l.
Proof.
  induction l as [|x l IH]; intros Hl; [done|]. rewrite !filter_cons. rewrite IH by (intros y Hy; apply Hl; by right).
  specialize (Hl x ltac:(by left)). destruct (decide (P x)), (decide (Q x)); tauto.
Qed.

Lemma outstanding_step D t e td : looked_up td -> e ∈ read_trigrams td -> trgm (fst e) = t -> t ∉ D ->
  outstanding D td = outstanding (t :: D) td + 1.
Proof.
  intros [_ _ _ N _] He Et Hn. unfold outstanding. induction (read_trigrams td) as [|d l IH]; [by apply not_elem_of_nil in He|].
  cbn [map] in N. apply NoDup_cons in N as [N1 N2]. rewrite !filter_cons.
  apply elem_of_cons in He as [->|He].
  - rewrite decide_True by by rewrite Et. rewrite decide_False by (intros H; apply H; rewrite Et; by left). cbn [length].
    assert (E : filter (fun e0 => trgm (fst e0) ∉ D) l = filter (fun e0 => trgm (fst e0) ∉ t :: D) l).
    { apply filter_ext_elem. intros x Hx. rewrite not_elem_of_cons. split; [|tauto]. intros H. split; [|done].
      intros E. apply N1. rewrite Et, <- E. by apply (list_elem_of_fmap_2 (fun e : Trigram * Z => trgm (fst e))). }
    rewrite E. lia.
  - assert (Hd : trgm (fst d) <> t).
    { intros E. apply N1. rewrite E, <- Et. by apply (list_elem_of_fmap_2 (fun e : Trigram * Z => trgm (fst e))). }
    specialize (IH N2 He). destruct (decide (trgm (fst d) ∈ D)) as [Hin|Hin].
    + rewrite decide_False by tauto. rewrite decide_False by (intros H; apply H; by right). done.
    + rewrite decide_True by done. rewrite decide_True by (rewrite not_elem_of_cons; tauto). cbn [length]. lia.
Qed.

Lemma outstanding_other D t td : (forall e, e ∈ read_trigrams td -> trgm (fst e) <> t) ->
  outstanding (t :: D) td = outstanding D td.
Proof.
  intros H. unfold outstanding. do 2 f_equal. apply filter_ext_elem. intros x Hx. rewrite not_elem_of_cons. specialize (H x Hx). tauto.
Qed.

Lemma outstanding_none D td : outstanding D td = 0 -> forall e, e ∈ read_trigrams td -> trgm (fst e) ∈ D.
Proof.
  unfold outstanding. intros H e He. destruct (decide (trgm (fst e) ∈ D)) as [|Hn]; [done|].
  assert (Hin : e ∈ filter (fun e => trgm (fst e) ∉ D) (read_trigrams td)) by (by apply list_elem_of_filter).
  destruct (filter _ _); [by apply not_elem_of_nil in Hin|cbn in H; lia].
Qed.

(** One posting list for one group. *)
Lemma new_posting_list_read_inv ic D t e td cur (X : Z -> Prop) :
  td_inv D td -> e ∈ read_trigrams td -> trgm (fst e) = t -> t ∉ D ->
  (forall x, X x -> allowed td x) -> sound cur -> (forall x, X x -> x ∈ cur) \/ cur = [] ->
  forall td' cur' fin, new_posting_list_read ic td (read_list e) cur = (td', cur', fin) ->
  read_trigrams td' = read_trigrams td /\ td_inv (t :: D) td' /\ sound cur' /\
  ((forall x, X x -> x ∈ cur') \/ (cur' = cur /\ uncompleted td')) /\ (fin = true -> forall x, ~ X x).
Proof.
  intros [Hlu Hrem Hdoc] He Et Hn HX [Hinc Hval] Hst td' cur' fin.
  pose proof (lu_found _ Hlu e He) as [Hfind Halt]. pose proof (lu_trigrams _ Hlu) as Htri. rewrite Forall_forall in Htri.
  pose proof (index_found (lists := lists) (valid := valid) _ _ (Htri _ Halt) Hfind) as [_ Hread].
  rewrite Et in *. pose proof (outstanding_step D t e td Hlu He Et Hn) as Hstep.
  assert (Hpos : 0 <= outstanding (t :: D) td) by (unfold outstanding; lia).
  assert (Hmax : outstanding D td < 2 ^ 32).
  { unfold outstanding. pose proof (lu_length _ Hlu). pose proof (length_filter (fun e => trgm (fst e) ∉ D) (read_trigrams td)).
    change (2 ^ 32) with 4294967296 in *. lia. }
  destruct (Hdoc ltac:(lia)) as [Hdi Hde].
  set (docs := match docids td with [] => read_list e | _ => set_union (read_list e) (docids td) end).
  assert (Hdocs : increasing docs /\ forall x, x ∈ docs <->
    exists e, e ∈ read_trigrams td /\ trgm (fst e) ∈ t :: D /\ x ∈ lists (trgm (fst e))).
  { assert (Hu : docs = set_union (read_list e) (docids td)) by (unfold docs; destruct (docids td); [by rewrite set_union_nil_r|done]).
    rewrite Hu, Hread. destruct (set_union_spec (lists t) (docids td)) as [S E]; [by eapply index_increasing|done|].
    split; [done|]. intros x. rewrite E, Hde. split.
    - intros [Hx|(e2 & He2 & Ht2 & Hx)]; [exists e|exists e2]; rewrite ?Et; (split; [done|]); (split; [|done]); [by left|by right].
    - intros (e2 & He2 & Ht2 & Hx). apply elem_of_cons in Ht2 as [Ht2|Ht2]; [left; by rewrite <- Ht2|right; by exists e2]. }
  unfold new_posting_list_read. fold docs. rewrite Hrem.
  assert (Hrest : u32 (outstanding D td - 1) = outstanding (t :: D) td).
  { rewrite u32_small; [lia|]. unfold is_u32. lia. }
  rewrite Hrest. destruct Hdocs as [Hdocs Hin].
  assert (Hinv : forall d, (0 < outstanding (t :: D) td -> d = docs) ->
    td_inv (t :: D) (TD (trigram_alternatives td) (read_trigrams td) (max_num_docids td) d (outstanding (t :: D) td))).
  { intros d Hd. split; cbn; [|done|].
    - destruct Hlu. by split.
    - intros H. rewrite (Hd H). split; [done|]. apply Hin. }
  destruct (Z.ltb_spec 0 (outstanding (t :: D) td)) as [Hmore|Hlast].
  - intros [= <- <- <-]. split; [done|]. split; [by apply Hinv|]. split; [done|]. split; [|done].
    right. split; [done|]. by left.
  - assert (Hall : forall x, X x -> x ∈ docs).
    { intros x Hx. apply Hin. destruct (HX x Hx) as (e2 & He2 & Hx2). exists e2. split; [done|]. split; [|done].
      apply (outstanding_none (t :: D) td); [lia|done]. }
    destruct cur as [|c cur].
    + intros [= <- <- <-]. split; [done|]. split; [apply Hinv; lia|]. split; [|split; [by left|done]].
      split; [done|]. apply Forall_forall. intros x Hx. apply Hin in Hx as (e2 & _ & _ & Hx). by eapply index_valid.
    + destruct (set_intersection_spec (c :: cur) docs Hinc Hdocs) as [Si Ei].
      generalize dependent (set_intersection (c :: cur) docs). intros both Si Ei.
      intros [= <- <- <-]. split; [done|]. split; [apply Hinv; lia|].
      assert (Hcur : forall x, X x -> x ∈ both).
      { intros x Hx. apply Ei. split; [|by apply Hall]. destruct Hst as [Hst|Hst]; [by apply Hst|done]. }
      split; [split; [done|]|split; [by left|]].
      * apply Forall_forall. intros x Hx. apply Ei in Hx as [Hx _]. rewrite Forall_forall in Hval. by apply Hval.
      * intros Hfin x Hx. apply andb_true_iff in Hfin as [_ Hfin]. apply bool_decide_eq_true in Hfin. apply Hcur in Hx.
        rewrite Hfin in Hx. by apply not_elem_of_nil in Hx.
Qed.

(** A group that does not use the trigram is left alone. *)
Lemma td_inv_other D t td : td_inv D td -> t ∉ trigram_alternatives td -> td_inv (t :: D) td.
Proof.
  intros [Hlu Hrem Hdoc] Ht.
  assert (Hne : forall e, e ∈ read_trigrams td -> trgm (fst e) <> t).
  { intros e He E. destruct (lu_found _ Hlu e He) as [_ Halt]. by rewrite E in Halt. }
  split; [done|by rewrite outstanding_other|]. intros H. destruct (Hdoc H) as [Hi He]. split; [done|].
  intros x. rewrite He. split; intros (e & Hin & Hd & Hx); exists e; (split; [done|]); (split; [|done]).
  - by right.
  - apply elem_of_cons in Hd as [Hd|]; [by destruct (Hne e Hin)|done].
Qed.

(** One posting list for all the groups that use it. *)
Lemma deliver_to_inv ic D e (X : Z -> Prop) : find_trigram (trgm (fst e)) = Some e -> trgm (fst e) ∉ D ->
  forall tds cur, Forall (td_inv D) tds -> Forall (fun td => forall x, X x -> allowed td x) tds ->
  sound cur -> status X tds cur ->
  forall tds' cur' fin, deliver_to ic (trgm (fst e)) (read_list e) tds cur = (tds', cur', fin) ->
  (fin = true -> forall x, ~ X x) /\
  (fin = false -> Forall (td_inv (trgm (fst e) :: D)) tds' /\ sound cur' /\ status X tds' cur' /\
     map read_trigrams tds' = map read_trigrams tds /\ ((forall x, X x -> x ∈ cur) -> forall x, X x -> x ∈ cur')).
Proof.
  intros Hfind Hn. induction tds as [|td tds IH]; intros cur Hinv HX Hs Hst tds' cur' fin.
  { intros [= <- <- <-]. split; [done|]. intros _. by split; [constructor|]. }
  inversion Hinv as [|? ? Htd Hinv']; inversion HX as [|? ? HXtd HX']; subst. cbn [deliver_to].
  assert (Hgo : forall td1 cur1, read_trigrams td1 = read_trigrams td -> td_inv (trgm (fst e) :: D) td1 -> sound cur1 ->
    (forall x, X x -> x ∈ cur1) \/ (cur1 = cur /\ uncompleted td1) ->
    (let '(tds2, cur2, fin2) := deliver_to ic (trgm (fst e)) (read_list e) tds cur1 in (td1 :: tds2, cur2, fin2)) = (tds', cur', fin) ->
    (fin = true -> forall x, ~ X x) /\
    (fin = false -> Forall (td_inv (trgm (fst e) :: D)) tds' /\ sound cur' /\ status X tds' cur' /\
       map read_trigrams tds' = map read_trigrams (td :: tds) /\ ((forall x, X x -> x ∈ cur) -> forall x, X x -> x ∈ cur'))).
  { intros td1 cur1 Er Hinv1 Hs1 Hst1.
    assert (Hst2 : status X tds cur1).
    { destruct Hst1 as [Hf|[-> _]]; [by left|]. destruct Hst as [Hf|[-> Hu]]; [by left|right]. split; [done|].
      by apply Forall_cons_1 in Hu as [_ Hu]. }
    destruct (deliver_to ic (trgm (fst e)) (read_list e) tds cur1) as [[tds2 cur2] fin2] eqn:E2.
    destruct (IH cur1 Hinv' HX' Hs1 Hst2 tds2 cur2 fin2 E2) as [IH1 IH2]. intros [= <- <- <-]. split; [done|].
    intros Hf. destruct (IH2 Hf) as (Hi2 & Hs2 & Hst3 & Em & Hkeep). split; [by constructor|]. split; [done|].
    split; [|split; [cbn; by rewrite Er, Em|]].
    - destruct Hst1 as [Hf1|[-> Hu1]]; [left; by apply Hkeep|]. destruct Hst3 as [Hfull|[-> Hu2]]; [by left|].
      right. split; [done|]. by constructor.
    - intros Hf1. apply Hkeep. by destruct Hst1 as [|[-> _]]. }
  case_decide as Halt.
  - assert (He : e ∈ read_trigrams td) by (apply (lu_all _ (ti_looked_up _ _ Htd) (trgm (fst e))); done).
    destruct (new_posting_list_read ic td (read_list e) cur) as [[td1 cur1] fin1] eqn:E1.
    assert (Hst1 : (forall x, X x -> x ∈ cur) \/ cur = []) by (destruct Hst as [|[-> _]]; [by left|by right]).
    destruct (new_posting_list_read_inv ic D (trgm (fst e)) e td cur X Htd He eq_refl Hn HXtd Hs Hst1 td1 cur1 fin1 E1)
      as (Er & Hinv1 & Hs1 & Hst2 & Hfin1).
    destruct fin1; [intros [= <- <- <-]; split; [intros _; by apply Hfin1|done]|]. by apply Hgo.
  - apply Hgo; [done|by apply td_inv_other|done|]. destruct Hst as [|[-> Hu]]; [by left|right]. split; [done|].
    by apply Forall_cons_1 in Hu as [Hu _].
Qed.

(** ** The reading loop *)

Section Loop.
Context (ic using_uring : bool) (arrive : list (Trigram * Z) -> list (Trigram * Z)) (Harrive : forall l, arrive l ≡ₚ l).
Context (reads : list (list (Trigram * Z))).

Definition everywhere (x : Z) : Prop := Forall (fun rs => exists e, e ∈ rs /\ x ∈ lists (trgm (fst e))) reads.

Record reading_inv (D : list Z) (s : Reading) : Prop := {
  ri_groups : done s = false -> Forall (td_inv D) (groups s) /\ sound (cur_candidates s) /\
    status everywhere (groups s) (cur_candidates s) /\ map read_trigrams (groups s) = reads;
  ri_done : done s = true -> forall x, ~ everywhere x
}.

Record engine_inv (D : list Z) (s : Reading) : Prop := {
  en_reading : reading_inv D s;
  en_submitted : forall t, t ∈ trigrams_submitted_read s <-> t ∈ D \/ t ∈ trgms (waiting_reads s);
  en_found : forall e, e ∈ waiting_reads s -> find_trigram (trgm (fst e)) = Some e;
  en_nodup : NoDup (trgms (waiting_reads s));
  en_disjoint : forall t, t ∈ D -> (t ∉ trgms (waiting_reads s))
}.

Lemma posting_list_read_inv D s e : reading_inv D s -> find_trigram (trgm (fst e)) = Some e -> trgm (fst e) ∉ D ->
  reading_inv (trgm (fst e) :: D) (posting_list_read read_list ic s e).
Proof.
  intros [Hg Hd] Hfind Hn. unfold posting_list_read. destruct (done s) eqn:Ed.
  { split; [congruence|]. intros _. by apply Hd. }
  destruct (Hg eq_refl) as (Hinv & Hs & Hst & Hr).
  assert (HX : Forall (fun td => forall x, everywhere x -> allowed td x) (groups s)).
  { apply Forall_forall. intros td Htd x Hx. unfold everywhere in Hx. rewrite <- Hr, Forall_forall in Hx.
    by apply Hx, list_elem_of_fmap_2. }
  destruct (deliver_to ic (trgm (fst e)) (read_list e) (groups s) (cur_candidates s)) as [[tds cur] fin] eqn:E.
  destruct (deliver_to_inv ic D e everywhere Hfind Hn (groups s) (cur_candidates s) Hinv HX Hs Hst tds cur fin E) as [H1 H2].
  split; cbn.
  - intros Hf. destruct (H2 Hf) as (A & B & C & F & _). rewrite F. auto.
  - exact H1.
Qed.

Lemma posting_list_read_static s e : trigrams_submitted_read (posting_list_read read_list ic s e) = trigrams_submitted_read s /\
  waiting_reads (posting_list_read read_list ic s e) = waiting_reads s.
Proof.
  unfold posting_list_read. destruct (done s); [done|]. by destruct (deliver_to _ _ _ _ _) as [[tds cur] fin].
Qed.

Lemma fold_read_inv l : forall D s, reading_inv D s -> (forall e, e ∈ l -> find_trigram (trgm (fst e)) = Some e) ->
  NoDup (trgms l) -> (forall t, t ∈ D -> t ∉ trgms l) ->
  exists D', reading_inv D' (fold_left (posting_list_read read_list ic) l s) /\
    (forall t, t ∈ D' <-> t ∈ D \/ t ∈ trgms l) /\
    trigrams_submitted_read (fold_left (posting_list_read read_list ic) l s) = trigrams_submitted_read s.
Proof.
  induction l as [|e l IH]; intros D s Hs Hf N Hd; cbn [fold_left map] in *.
  { exists D. split; [done|]. split; [|done]. intros t. rewrite elem_of_nil. tauto. }
  apply NoDup_cons in N as [N1 N2].
  assert (Hn : trgm (fst e) ∉ D) by (intros H; apply (Hd _ H); by left).
  destruct (IH (trgm (fst e) :: D) (posting_list_read read_list ic s e)) as (D' & H1 & H2 & H3).
  - apply posting_list_read_inv; [done|apply Hf; by left|done].
  - intros e2 He2. apply Hf. by right.
  - done.
  - intros t Ht. apply elem_of_cons in Ht as [->|Ht]; [done|]. intros H. apply (Hd t Ht). by right.
  - exists D'. split; [done|]. split; [|by rewrite H3; apply posting_list_read_static].
    intros t. rewrite H2, !elem_of_cons. tauto.
Qed.

Lemma finish_inv D s : engine_inv D s -> exists D', engine_inv D' (finish read_list ic arrive s) /\
  trigrams_submitted_read (finish read_list ic arrive s) = trigrams_submitted_read s /\
  waiting_reads (finish read_list ic arrive s) = [].
Proof.
  intros [Hr Hsub Hf N Hd]. pose proof (Harrive (waiting_reads s)) as P.
  assert (Pm : trgms (arrive (waiting_reads s)) ≡ₚ trgms (waiting_reads s)) by by rewrite P.
  destruct (fold_read_inv (arrive (waiting_reads s)) D s Hr) as (D' & H1 & H2 & H3).
  - intros e He. apply Hf. by rewrite <- P.
  - by rewrite Pm.
  - intros t Ht. rewrite Pm. by apply Hd.
  - exists D'. unfold finish. split; [|by split].
    destruct H1 as [Hg Hdn]. split; cbn; [by split| | | |].
    + intros t. rewrite H3, Hsub, H2, Pm, elem_of_nil. tauto.
    + intros e He. by apply not_elem_of_nil in He.
    + constructor.
    + intros t _ Ht. by apply not_elem_of_nil in Ht.
Qed.

Lemma submit_read_inv D s e : engine_inv D (READING (groups s) (cur_candidates s) (done s)
    (trigrams_submitted_read s) (waiting_reads s)) -> trgm (fst e) ∉ trigrams_submitted_read s ->
  find_trigram (trgm (fst e)) = Some e ->
  let s1 := READING (groups s) (cur_candidates s) (done s) (trgm (fst e) :: trigrams_submitted_read s) (waiting_reads s) in
  exists D', engine_inv D' (submit_read read_list ic using_uring e s1) /\
    trigrams_submitted_read (submit_read read_list ic using_uring e s1) = trgm (fst e) :: trigrams_submitted_read s.
Proof.
  intros [[Hg Hdn] Hsub Hf N Hd] Hn Hfind s1. cbn in *.
  assert (Hn' : (trgm (fst e) ∉ D) /\ trgm (fst e) ∉ trgms (waiting_reads s)) by (rewrite Hsub in Hn; tauto).
  destruct Hn' as [HnD Hnw]. unfold submit_read. destruct using_uring.
  - exists D. split; [|done]. split; cbn; [by split| | | |].
    + intros t. rewrite elem_of_cons, Hsub, map_app, elem_of_app. cbn. rewrite list_elem_of_singleton. tauto.
    + intros e2 He2. apply elem_of_app in He2 as [He2|He2]; [by apply Hf|]. by apply list_elem_of_singleton in He2 as ->.
    + rewrite map_app. apply NoDup_app. split; [done|]. split; [|apply NoDup_singleton].
      intros t Ht Ht2. apply list_elem_of_singleton in Ht2 as ->. done.
    + intros t Ht. rewrite map_app, elem_of_app. cbn. rewrite list_elem_of_singleton. intros [H|H]; [by apply (Hd t)|].
      by subst.
  - exists (trgm (fst e) :: D). destruct (posting_list_read_static s1 e) as [E1 E2]. split; [|by rewrite E1].
    split; rewrite ?E1, ?E2; cbn; [|intros t; rewrite !elem_of_cons, Hsub; tauto|done|done|].
    + apply posting_list_read_inv; [by split|done|done].
    + intros t Ht. apply elem_of_cons in Ht as [->|Ht]; [done|by apply Hd].
Qed.

(** Marking a trigram as submitted does not disturb the reads. *)
Definition with_submitted (sub : list Z) (s : Reading) : Reading :=
  READING (groups s) (cur_candidates s) (done s) sub (waiting_reads s).

Lemma finish_submitted sub s :
  finish read_list ic arrive (with_submitted sub s) = with_submitted sub (finish read_list ic arrive s).
Proof.
  unfold finish. cbn [waiting_reads with_submitted].
  assert (H : forall l s, fold_left (posting_list_read read_list ic) l (with_submitted sub s) =
                          with_submitted sub (fold_left (posting_list_read read_list ic) l s)).
  { clear s. induction l as [|e l IH]; intros s; [done|]. cbn [fold_left]. rewrite <- IH. f_equal.
    unfold posting_list_read. cbn [with_submitted done groups cur_candidates]. destruct (done s) eqn:Ed.
    - unfold with_submitted. by rewrite Ed.
    - by destruct (deliver_to _ _ _ _ _) as [[tds cur] fin]. }
  rewrite H. done.
Qed.

Lemma submit_group_inv rs : forall D s, engine_inv D s ->
  (forall e, e ∈ rs -> find_trigram (trgm (fst e)) = Some e) ->
  exists D', engine_inv D' (submit_group read_list ic using_uring arrive rs s) /\
    (forall t, t ∈ trigrams_submitted_read s -> t ∈ trigrams_submitted_read (submit_group read_list ic using_uring arrive rs s)) /\
    (done (submit_group read_list ic using_uring arrive rs s) = true \/
     forall e, e ∈ rs -> trgm (fst e) ∈ trigrams_submitted_read (submit_group read_list ic using_uring arrive rs s)).
Proof.
  induction rs as [|e rs IH]; intros D s Hs Hf; cbn [submit_group].
  { exists D. split; [done|]. split; [done|]. right. intros e He. by apply not_elem_of_nil in He. }
  assert (Hf' : forall e, e ∈ rs -> find_trigram (trgm (fst e)) = Some e) by (intros e2 He2; apply Hf; by right).
  assert (Hcont : forall D1 s1, engine_inv D1 s1 -> trgm (fst e) ∈ trigrams_submitted_read s1 ->
    (forall t, t ∈ trigrams_submitted_read s -> t ∈ trigrams_submitted_read s1) ->
    exists D', engine_inv D' (submit_group read_list ic using_uring arrive rs s1) /\
    (forall t, t ∈ trigrams_submitted_read s -> t ∈ trigrams_submitted_read (submit_group read_list ic using_uring arrive rs s1)) /\
    (done (submit_group read_list ic using_uring arrive rs s1) = true \/
     forall e', e' ∈ e :: rs -> trgm (fst e') ∈ trigrams_submitted_read (submit_group read_list ic using_uring arrive rs s1))).
  { intros D1 s1 H1 He Hsub. destruct (IH D1 s1 H1 Hf') as (D' & A & B & C). exists D'. split; [done|]. split; [by auto|].
    destruct C as [C|C]; [by left|right]. intros e' He'. apply elem_of_cons in He' as [->|He']; [by apply B|by apply C]. }
  assert (Hsubmit : forall D1 s1, engine_inv D1 s1 -> trigrams_submitted_read s1 = trigrams_submitted_read s ->
    trgm (fst e) ∉ trigrams_submitted_read s ->
    let s2 := READING (groups s1) (cur_candidates s1) (done s1) (trgm (fst e) :: trigrams_submitted_read s1) (waiting_reads s1) in
    exists D', engine_inv D' (submit_group read_list ic using_uring arrive rs (submit_read read_list ic using_uring e s2)) /\
    (forall t, t ∈ trigrams_submitted_read s ->
       t ∈ trigrams_submitted_read (submit_group read_list ic using_uring arrive rs (submit_read read_list ic using_uring e s2))) /\
    (done (submit_group read_list ic using_uring arrive rs (submit_read read_list ic using_uring e s2)) = true \/
     forall e', e' ∈ e :: rs -> trgm (fst e') ∈
       trigrams_submitted_read (submit_group read_list ic using_uring arrive rs (submit_read read_list ic using_uring e s2)))).
  { intros D1 s1 H1 E Hn s2. destruct (submit_read_inv D1 s1 e) as (D2 & A & B); [by destruct s1|by rewrite E|apply Hf; by left|].
    fold s2 in A, B. apply (Hcont D2); [done|rewrite B; by left|]. intros t Ht. rewrite B, E. by right. }
  case_decide as Hdec; [by apply (Hcont D)|]. cbn [waiting_reads].
  destruct (5 <=? length (waiting_reads s))%nat; [|by apply (Hsubmit D s)].
  destruct (finish_inv D s Hs) as (D1 & H1 & E1 & _).
  pose proof (finish_submitted (trgm (fst e) :: trigrams_submitted_read s) s) as Ef. unfold with_submitted in Ef. rewrite Ef. clear Ef.
  cbn [done]. destruct (done (finish read_list ic arrive s)) eqn:Ed.
  - exists (trgm (fst e) :: D1). destruct H1 as [[Hg Hdn] Hsub Hfo N Hdis].
    split; [|split; [intros t Ht; by right|by left]].
    split; cbn [groups cur_candidates done trigrams_submitted_read waiting_reads].
    + split; [done|]. intros _. by apply Hdn.
    + intros t. rewrite elem_of_cons, <- E1, Hsub, elem_of_cons. tauto.
    + exact Hfo.
    + exact N.
    + intros t Ht. apply elem_of_cons in Ht as [->|Ht]; [|by apply Hdis]. intros H. apply Hdec. rewrite <- E1, Hsub. by right.
  - specialize (Hsubmit D1 _ H1 E1 Hdec). cbn zeta in Hsubmit. rewrite Ed, E1 in Hsubmit. exact Hsubmit.
Qed.

Lemma submit_groups_inv gs : forall D s, engine_inv D s ->
  Forall (fun td => forall e, e ∈ read_trigrams td -> find_trigram (trgm (fst e)) = Some e) gs ->
  exists D', engine_inv D' (submit_groups read_list ic using_uring arrive gs s) /\
    (forall t, t ∈ trigrams_submitted_read s -> t ∈ trigrams_submitted_read (submit_groups read_list ic using_uring arrive gs s)).
Proof.
  induction gs as [|td gs IH]; intros D s Hs F; cbn [submit_groups]; [by exists D|]. inversion F as [|? ? Hf F']; subst.
  destruct (_ && _); [by exists D|].
  destruct (submit_group_inv (read_trigrams td) D s Hs Hf) as (D1 & H1 & Hsub & _).
  destruct (IH D1 _ H1 F') as (D2 & H2 & Hsub2). exists D2. split; [done|]. auto.
Qed.

(** Once [done], always done. *)
Lemma posting_list_read_done s e : done s = true -> done (posting_list_read read_list ic s e) = true.
Proof. intros H. unfold posting_list_read. by rewrite H. Qed.

Lemma finish_done s : done s = true -> done (finish read_list ic arrive s) = true.
Proof.
  intros H. unfold finish. cbn [done]. generalize (arrive (waiting_reads s)). intros l. revert s H.
  induction l as [|e l IH]; intros s H; [exact H|]. cbn. by apply IH, posting_list_read_done.
Qed.

Lemma submit_group_done rs : forall s, done s = true -> done (submit_group read_list ic using_uring arrive rs s) = true.
Proof.
  induction rs as [|e rs IH]; intros s H; cbn [submit_group]; [done|]. case_decide; [by apply IH|]. cbn [waiting_reads].
  assert (Hs : forall s, done s = true -> done (submit_read read_list ic using_uring e s) = true).
  { intros s2 H2. unfold submit_read. destruct using_uring; [done|by apply posting_list_read_done]. }
  destruct (5 <=? length (waiting_reads s))%nat; [|by apply IH, Hs].
  rewrite finish_done by exact H. by apply finish_done.
Qed.

Lemma submit_groups_done gs : forall s, done s = true -> done (submit_groups read_list ic using_uring arrive gs s) = true.
Proof.
  induction gs as [|td gs IH]; intros s H; cbn [submit_groups]; [done|]. destruct (_ && _); [done|].
  by apply IH, submit_group_done.
Qed.

End Loop.

(** From the groups as looked up to the candidates. *)
Lemma read_all ic using_uring arrive gs : (forall l, arrive l ≡ₚ l) -> gs <> [] ->
  Forall (fun td => looked_up td /\ docids td = [] /\ remaining_trigrams_to_read td = Z.of_nat (length (read_trigrams td))) gs ->
  let s := finish read_list ic arrive (submit_groups read_list ic using_uring arrive gs (READING gs [] false [] [])) in
  if done s then forall x, ~ everywhere (map read_trigrams gs) x
  else sound (cur_candidates s) /\ forall x, everywhere (map read_trigrams gs) x -> x ∈ cur_candidates s.
Proof.
  intros Harrive Hne F s. set (reads := map read_trigrams gs).
  assert (Hstart : engine_inv reads [] (READING gs [] false [] [])).
  { split; cbn; [|intros t; rewrite elem_of_nil; tauto|intros e He; by apply not_elem_of_nil in He|constructor|].
    - split; [|done]. intros _. cbn. split; [|split; [|split; [|done]]].
      + eapply Forall_impl; [exact F|]. intros td (Hlu & Hd & Hr). split; [done| |].
        * rewrite Hr. unfold outstanding. do 2 f_equal. symmetry. clear. induction (read_trigrams td) as [|e l IH]; [done|].
          rewrite filter_cons_True by (apply not_elem_of_nil). by f_equal.
        * intros _. rewrite Hd. split; [constructor|]. intros x. split; [intros H; by apply not_elem_of_nil in H|].
          intros (e & _ & H & _). by apply not_elem_of_nil in H.
      + split; constructor.
      + right. split; [done|]. eapply Forall_impl; [exact F|]. intros td (_ & _ & Hr). unfold uncompleted. rewrite Hr.
        destruct (read_trigrams td); [by right|left]. cbn. lia.
    - intros t _ H. by apply not_elem_of_nil in H. }
  assert (Hf : Forall (fun td => forall e, e ∈ read_trigrams td -> find_trigram (trgm (fst e)) = Some e) gs).
  { eapply Forall_impl; [exact F|]. intros td (Hlu & _) e He. by apply (lu_found _ Hlu). }
  destruct (submit_groups_inv ic using_uring arrive Harrive reads gs [] _ Hstart Hf) as (D1 & H1 & _).
  destruct (finish_inv ic arrive Harrive reads D1 _ H1) as (D2 & H2 & Esub & Ewait). fold s in H2, Esub, Ewait.
  destruct (done s) eqn:Ed; [by apply H2|].
  destruct (ri_groups _ _ _ (en_reading _ _ _ H2) Ed) as (Hinv & Hs & Hst & Hr). split; [done|].
  destruct Hst as [Hst|[Hcur Hun]]; [done|]. intros x Hx.
  destruct gs as [|td gs]; [done|]. cbn [submit_groups] in *. rewrite bool_decide_eq_true_2 in * by done. cbn [negb andb] in *.
  inversion Hf as [|? ? Hf1 Hf2]; subst.
  destruct (submit_group_inv ic using_uring arrive Harrive reads (read_trigrams td) [] _ Hstart Hf1) as (D3 & H3 & _ & Hall).
  destruct Hall as [Hdn|Hall].
  { assert (E : done s = true) by by apply finish_done, submit_groups_done. congruence. }
  destruct (submit_groups_inv ic using_uring arrive Harrive reads gs D3 _ H3 Hf2) as (D4 & _ & Hsub4).
  destruct (groups s) as [|td' gs']; [done|]. unfold reads in Hr. cbn in Hr. injection Hr as Er _.
  inversion Hinv as [|? ? [_ Hrem _] _]; inversion Hun as [|? ? Hun1 _]; subst.
  assert (Ez : outstanding D2 td' = 0).
  { unfold outstanding. destruct (filter _ _) as [|e l] eqn:Ef; [done|].
    assert (He : e ∈ filter (fun e => trgm (fst e) ∉ D2) (read_trigrams td')) by (rewrite Ef; by left).
    apply list_elem_of_filter in He as [Hn He]. rewrite Er in He. exfalso. apply Hn.
    pose proof (Hsub4 _ (Hall e He)) as Hin. rewrite <- Esub in Hin. apply (en_submitted _ _ _ H2) in Hin as [Hin|Hin]; [done|].
    rewrite Ewait in Hin. by apply not_elem_of_nil in Hin. }
  destruct Hun1 as [Hun1|Hun1]; [lia|]. unfold everywhere in Hx. cbn in Hx. inversion Hx as [|? ? (e & He & _) _]; subst.
  rewrite <- Er, Hun1 in He. by apply not_elem_of_nil in He.
Qed.

(** ** The lookups *)

Definition in_group (td : TrigramDisjunction) (P : list Z) : list Z := filter (fun t => t ∈ trigram_alternatives td) P.

(** The state of a group after the answers for the trigrams [P]. *)
Record looking (P : list Z) (td : TrigramDisjunction) : Prop := {
  lk_reads : read_trigrams td = omap find_trigram (in_group td P);
  lk_remaining : remaining_trigrams_to_read td =
    Z.of_nat (length (trigram_alternatives td)) - Z.of_nat (length (in_group td P));
  lk_docids : docids td = [];
  lk_group : group_ok (trigram_alternatives td)
}.

Definition hopeless (td : TrigramDisjunction) : Prop := forall t, t ∈ trigram_alternatives td -> find_trigram t = None.

Lemma in_group_snoc td P t : in_group td (P ++ [t]) =
  in_group td P ++ (if decide (t ∈ trigram_alternatives td) then [t] else []).
Proof. unfold in_group. rewrite filter_app. by rewrite filter_cons. Qed.

Lemma in_group_length td P : NoDup (trigram_alternatives td) -> NoDup P ->
  (length (in_group td P) <= length (trigram_alternatives td))%nat /\
  (length (in_group td P) = length (trigram_alternatives td) -> forall t, t ∈ trigram_alternatives td -> t ∈ P).
Proof.
  intros Na Np. assert (Ng : NoDup (in_group td P)) by by apply NoDup_filter.
  assert (Hsub : in_group td P ⊆+ trigram_alternatives td).
  { apply NoDup_submseteq; [done|]. intros t Ht. by apply list_elem_of_filter in Ht as [? _]. }
  split; [by apply submseteq_length|]. intros E t Ht.
  apply submseteq_length_Permutation in Hsub; [|lia]. rewrite <- Hsub in Ht. by apply list_elem_of_filter in Ht as [_ ?].
Qed.

Lemma lookup_step P td t td' : looking P td -> NoDup (P ++ [t]) ->
  trigram_alternatives td' = trigram_alternatives td -> docids td' = docids td ->
  (if decide (t ∈ trigram_alternatives td)
   then read_trigrams td' = read_trigrams td ++ option_list (find_trigram t) /\
        remaining_trigrams_to_read td' = u32 (remaining_trigrams_to_read td - 1)
   else td' = td) -> looking (P ++ [t]) td'.
Proof.
  intros [Hr Hm Hd Hg] N Ea Ed H. assert (Eg : in_group td' (P ++ [t]) = in_group td (P ++ [t])) by (unfold in_group; by rewrite Ea).
  pose proof (in_group_length td (P ++ [t]) (proj1 Hg) N) as [Hle _]. pose proof (group_ok_length _ Hg) as Hl.
  split; rewrite ?Eg, ?Ea; [| |by rewrite Ed|done]; rewrite in_group_snoc in *; case_decide.
  - destruct H as [-> _]. rewrite omap_app, Hr. f_equal.
  - subst td'. by rewrite app_nil_r.
  - destruct H as [_ ->]. rewrite Hm. rewrite length_app in *. cbn [length] in *. rewrite u32_small; [lia|].
    unfold is_u32. change (2 ^ 32) with 4294967296 in *. lia.
  - subst td'. by rewrite app_nil_r.
Qed.

Lemma missing_hopeless P td t : looking P td -> NoDup (P ++ [t]) -> find_trigram t = None ->
  snd (trigram_missing t td) = true -> hopeless td.
Proof.
  intros Hlk N Ef. unfold trigram_missing. case_decide as Ht; [|done]. cbn [snd].
  rewrite andb_true_iff, Z.eqb_eq, bool_decide_eq_true. intros [H0 Hr] u Hu.
  assert (Hlk' : looking (P ++ [t]) (fst (trigram_missing t td))).
  { apply (lookup_step P td t); [done|done| | |]; unfold trigram_missing; rewrite !decide_True by done; [done|done|].
    cbn. rewrite Ef. cbn. by rewrite app_nil_r. }
  pose proof (lk_remaining _ _ Hlk') as Hrem.
  replace (in_group (fst (trigram_missing t td)) (P ++ [t])) with (in_group td (P ++ [t])) in Hrem
    by (unfold in_group, trigram_missing; by rewrite decide_True by done).
  unfold trigram_missing in Hrem. rewrite decide_True in Hrem by done.
  cbn [fst trigram_alternatives remaining_trigrams_to_read] in Hrem. rewrite H0 in Hrem.
  destruct (in_group_length td (P ++ [t]) (proj1 (lk_group _ _ Hlk)) N) as [_ Hall].
  assert (Hin : u ∈ P ++ [t]) by (apply Hall; [lia|done]).
  apply elem_of_app in Hin as [Hin|Hin]; [|by apply list_elem_of_singleton in Hin as ->].
  rewrite (lk_reads _ _ Hlk) in Hr. destruct (find_trigram u) as [e|] eqn:E; [|done].
  assert (He : e ∈ omap find_trigram (in_group td P)).
  { apply list_elem_of_omap. exists u. split; [|done]. by apply list_elem_of_filter. }
  rewrite Hr in He. by apply not_elem_of_nil in He.
Qed.

Lemma found_looking P td t e : looking P td -> NoDup (P ++ [t]) -> find_trigram t = Some e ->
  looking (P ++ [t]) (trigram_found t e td).
Proof.
  intros Hlk N Ef. apply (lookup_step P td t); [done|done| | |]; unfold trigram_found; case_decide; try done.
  cbn. rewrite Ef. done.
Qed.

Lemma missing_looking P td t : looking P td -> NoDup (P ++ [t]) -> find_trigram t = None ->
  looking (P ++ [t]) (fst (trigram_missing t td)).
Proof.
  intros Hlk N Ef. apply (lookup_step P td t); [done|done| | |]; unfold trigram_missing; case_decide; try done.
  cbn. rewrite Ef. cbn. by rewrite app_nil_r.
Qed.

Lemma lookup_all_spec in_child arrivals : forall P tds early, Forall (looking P) tds -> NoDup (P ++ arrivals) ->
  (early = true -> Exists hopeless tds) ->
  match lookup_all find_trigram in_child arrivals tds early with
  | None => Exists hopeless tds
  | Some (tds', early) => Forall (looking (P ++ arrivals)) tds' /\ (early = true -> Exists hopeless tds) /\
      map trigram_alternatives tds' = map trigram_alternatives tds
  end.
Proof.
  induction arrivals as [|t arrivals IH]; intros P tds early F N He; cbn [lookup_all]; [by rewrite app_nil_r|].
  assert (N' : NoDup (P ++ [t])).
  { rewrite cons_middle, app_assoc in N. by apply NoDup_app in N as (N & _). }
  rewrite cons_middle, app_assoc in N. rewrite cons_middle, app_assoc.
  assert (Hsame : forall tds1 tds2 : list TrigramDisjunction, map trigram_alternatives tds1 = map trigram_alternatives tds2 ->
    Exists hopeless tds1 -> Exists hopeless tds2).
  { intros tds1 tds2 E H. apply Exists_exists in H as (td & Htd & Hh).
    apply (list_elem_of_fmap_2 trigram_alternatives) in Htd. change (trigram_alternatives <$> tds1) with (map trigram_alternatives tds1) in Htd.
    rewrite E in Htd. apply list_elem_of_fmap in Htd as (td2 & E2 & Htd2). apply Exists_exists. exists td2. split; [done|].
    intros u. rewrite <- E2. apply Hh. }
  assert (Hgo : forall tds1 early1, map trigram_alternatives tds1 = map trigram_alternatives tds ->
    Forall (looking (P ++ [t])) tds1 -> (early1 = true -> Exists hopeless tds) ->
    match lookup_all find_trigram in_child arrivals tds1 early1 with
    | None => Exists hopeless tds
    | Some (tds', early) => Forall (looking ((P ++ [t]) ++ arrivals)) tds' /\ (early = true -> Exists hopeless tds) /\
        map trigram_alternatives tds' = map trigram_alternatives tds
    end).
  { intros tds1 early1 Ea F1 He1. specialize (IH (P ++ [t]) tds1 early1 F1 N).
    assert (He1' : early1 = true -> Exists hopeless tds1) by (intros E; apply (Hsame tds); [done|by apply He1]).
    destruct (lookup_all find_trigram in_child arrivals tds1 early1) as [[tds' early']|]; [|by apply (Hsame tds1), IH].
    destruct (IH He1') as (H1 & H2 & H3). split; [done|]. split; [|congruence]. intros E. by apply (Hsame tds1), H2. }
  destruct (find_trigram t) as [e|] eqn:Ef.
  - apply Hgo; [|apply Forall_fmap; eapply Forall_impl; [exact F|]; intros td Htd; by apply found_looking|done].
    rewrite map_map. apply map_ext. intros td. unfold trigram_found. by case_decide.
  - assert (Hh : existsb snd (map (trigram_missing t) tds) = true -> Exists hopeless tds).
    { intros H. apply existsb_exists in H as (r & Hr & Hs). apply in_map_iff in Hr as (td & <- & Htd).
      apply Exists_exists. exists td. apply list_elem_of_In in Htd. split; [done|]. rewrite Forall_forall in F.
      by apply (missing_hopeless P td t); [apply F| | |]. }
    destruct (_ && negb in_child) eqn:Ex; [apply andb_true_iff in Ex as [Ex _]; by apply Hh|].
    apply Hgo; [|do 2 apply Forall_fmap; eapply Forall_impl; [exact F|]; intros td Htd; by apply missing_looking|].
    + rewrite !map_map. apply map_ext. intros td. unfold trigram_missing. by case_decide.
    + intros E. apply orb_true_iff in E as [E|E]; [by apply He|by apply Hh].
Qed.

(** ** Correctness *)

Lemma looking_looked_up P td : looking P td -> (forall t, t ∈ trigram_alternatives td -> t ∈ P) -> NoDup P ->
  looked_up (reset_for_reads td) /\ docids (reset_for_reads td) = [] /\
  remaining_trigrams_to_read (reset_for_reads td) = Z.of_nat (length (read_trigrams (reset_for_reads td))).
Proof.
  intros [Hr Hm Hd [Hn Hg]] Hall N. pose proof (group_ok_length _ (conj Hn Hg)) as Hl. rewrite Forall_forall in Hg.
  assert (Hsome : forall e, e ∈ read_trigrams td -> find_trigram (trgm (fst e)) = Some e /\ trgm (fst e) ∈ trigram_alternatives td).
  { intros e He. rewrite Hr in He. apply list_elem_of_omap in He as (t & Ht & Ef). apply list_elem_of_filter in Ht as [Ht _].
    destruct (index_found (lists := lists) (valid := valid) _ _ (Hg _ Ht) Ef) as [<- _]. done. }
  assert (Hlen : (length (read_trigrams td) <= length (trigram_alternatives td))%nat).
  { rewrite Hr. etransitivity; [|apply (in_group_length td P Hn N)]. clear. induction (in_group td P) as [|t l IH]; [done|].
    cbn. destruct (find_trigram t); cbn; lia. }
  split; [|split; [done|]].
  - split; cbn.
    + exact Hsome.
    + intros t e Ht Ef. rewrite Hr. apply list_elem_of_omap. exists t. split; [|done]. apply list_elem_of_filter. auto.
    + by apply Forall_forall.
    + rewrite Hr. assert (Ng : NoDup (in_group td P)) by by apply NoDup_filter.
      assert (Fg : forall t, t ∈ in_group td P -> is_trigram t) by (intros t Ht; apply Hg; by apply list_elem_of_filter in Ht as [Ht _]).
      clear -Ng Fg Index0. induction Ng as [|t l Ht Ng IH]; [constructor|].
      specialize (IH (fun u Hu => Fg u ltac:(by right))). cbn. destruct (find_trigram t) as [e|] eqn:Ef; [|done].
      cbn. constructor; [|done]. destruct (index_found (lists := lists) (valid := valid) _ _ (Fg t ltac:(by left)) Ef) as [-> _].
      intros H. apply list_elem_of_fmap in H as (e2 & E & He2). apply list_elem_of_omap in He2 as (t2 & Ht2 & Ef2).
      destruct (index_found (lists := lists) (valid := valid) _ _ (Fg t2 ltac:(by right)) Ef2) as [E2 _]. by subst.
    + lia.
  - cbn. apply u32_small. unfold is_u32. lia.
Qed.

(** What can match lies in a block of every group. *)
Definition allows (groups : list (list Z)) (x : Z) : Prop := Forall (Exists (fun t => x ∈ lists t)) groups.

Section Groups.
Context (alternatives : list (list Z)) (Halternatives : Forall group_ok alternatives).

Abbreviation tds := (trigram_groups alternatives).

Lemma elem_of_groups g : g ∈ alternatives <-> g ∈ map trigram_alternatives tds.
Proof.
  unfold trigram_groups. rewrite map_map. cbn [trigram_alternatives new_TrigramDisjunction].
  rewrite map_id. by rewrite elem_of_unique_sort.
Qed.

Lemma group_trigrams td t : trigram_alternatives td ∈ alternatives -> t ∈ trigram_alternatives td -> is_trigram t.
Proof.
  intros Hg Ht. rewrite Forall_forall in Halternatives. destruct (Halternatives _ Hg) as [_ F]. rewrite Forall_forall in F. by apply F.
Qed.

Lemma elem_of_lookups g t : g ∈ alternatives -> t ∈ g -> t ∈ trigrams_to_lookup tds.
Proof.
  intros Hg Ht. apply elem_of_groups in Hg. apply elem_of_remove_dups, list_elem_of_In, in_concat.
  exists g. split; [by apply list_elem_of_In in Hg|by apply list_elem_of_In].
Qed.

Lemma new_groups_looking : Forall (looking []) tds.
Proof.
  apply Forall_forall. intros td Htd. assert (Hg : trigram_alternatives td ∈ alternatives) by (apply elem_of_groups; by apply list_elem_of_fmap_2).
  pose proof (proj1 (Forall_forall _ _) Halternatives _ Hg) as Hok. pose proof (group_ok_length _ Hok) as Hl. unfold trigram_groups in Htd.
  apply list_elem_of_fmap in Htd as (g & -> & _). split; cbn; [done| |done|done].
  cbn in Hl. rewrite u32_small; [unfold in_group; cbn; lia|]. unfold is_u32. lia.
Qed.

Lemma hopeless_allows : Exists hopeless tds -> forall x, ~ allows alternatives x.
Proof.
  intros H x Hx. apply Exists_exists in H as (td & Htd & Hh). unfold allows in Hx. rewrite Forall_forall in Hx.
  assert (Hg : trigram_alternatives td ∈ alternatives) by (apply elem_of_groups; by apply list_elem_of_fmap_2).
  apply Hx, Exists_exists in Hg as (t & Ht & Hxt).
  rewrite (index_missing (lists := lists) (valid := valid) t) in Hxt; [by apply not_elem_of_nil in Hxt| |by apply Hh].
  apply (group_trigrams td); [|done]. apply elem_of_groups. by apply list_elem_of_fmap_2.
Qed.

(** The groups as the reading of the posting lists starts with them. *)
Lemma groups_looked_up arrivals tds' : arrivals ≡ₚ trigrams_to_lookup tds -> NoDup arrivals ->
  Forall (looking arrivals) tds' -> map trigram_alternatives tds' = map trigram_alternatives tds ->
  Forall (fun td => (looked_up td /\ docids td = [] /\ remaining_trigrams_to_read td = Z.of_nat (length (read_trigrams td))) /\
    trigram_alternatives td ∈ alternatives) (map reset_for_reads tds').
Proof.
  intros Harr N Hlook E. apply Forall_fmap, Forall_forall. intros td Htd. cbn. rewrite Forall_forall in Hlook.
  assert (Hg : trigram_alternatives td ∈ alternatives) by (apply elem_of_groups; rewrite <- E; by apply list_elem_of_fmap_2).
  split; [|done]. apply (looking_looked_up arrivals); [by apply Hlook| |done].
  intros t Ht. rewrite Harr. by apply (elem_of_lookups (trigram_alternatives td)).
Qed.

Lemma allows_everywhere gs x : Forall (fun td => looked_up td /\ trigram_alternatives td ∈ alternatives) gs ->
  allows alternatives x -> everywhere (map read_trigrams gs) x.
Proof.
  intros F Hx. unfold everywhere. apply Forall_fmap, Forall_forall. intros td Htd. cbn.
  rewrite Forall_forall in F. destruct (F td Htd) as [Hlu Hg]. unfold allows in Hx. rewrite Forall_forall in Hx.
  assert (Ht24 : forall t, t ∈ trigram_alternatives td -> is_trigram t) by (intros t; by apply group_trigrams).
  apply Hx, Exists_exists in Hg as (t & Ht & Hxt). destruct (find_trigram t) as [e|] eqn:Ef.
  - exists e. split; [by apply (lu_all _ Hlu t)|]. by destruct (index_found (lists := lists) (valid := valid) _ _ (Ht24 t Ht) Ef) as [-> _].
  - rewrite (index_missing (lists := lists) (valid := valid) t (Ht24 t Ht) Ef) in Hxt. by apply not_elem_of_nil in Hxt.
Qed.

Lemma candidates_complete ic in_child using_uring arrivals sort_groups arrive :
  (forall l, sort_groups l ≡ₚ l) -> (forall l, arrive l ≡ₚ l) -> arrivals ≡ₚ trigrams_to_lookup tds ->
  match search_candidates find_trigram read_list ic in_child using_uring arrivals sort_groups arrive tds with
  | ScanAll => Forall (fun g => g = []) alternatives
  | SearchExit | NothingFound => forall x, ~ allows alternatives x
  | Candidates cur => sound cur /\ forall x, allows alternatives x -> x ∈ cur
  end.
Proof.
  intros Hsort Harrive Harr. unfold search_candidates. destruct (trigrams_to_lookup tds) as [|t0 ts] eqn:Elook.
  { apply Forall_forall. intros [|t g] Hg; [done|]. pose proof (elem_of_lookups _ t Hg ltac:(by left)) as Ht.
    rewrite Elook in Ht. by apply not_elem_of_nil in Ht. }
  rewrite <- Elook in *. assert (Narr : NoDup arrivals) by (rewrite Harr; apply NoDup_remove_dups).
  pose proof (lookup_all_spec in_child arrivals [] tds false new_groups_looking Narr ltac:(done)) as H.
  destruct (lookup_all find_trigram in_child arrivals tds false) as [[tds' early]|]; [|by apply hopeless_allows].
  destruct H as (Hlook' & Hearly & Ealts). destruct early; [by apply hopeless_allows, Hearly|]. cbn [app] in *.
  set (gs := sort_groups (map reset_for_reads tds')).
  assert (Hgs : Forall (fun td => (looked_up td /\ docids td = [] /\
    remaining_trigrams_to_read td = Z.of_nat (length (read_trigrams td))) /\ trigram_alternatives td ∈ alternatives) gs)
    by (unfold gs; rewrite Hsort; by apply (groups_looked_up arrivals)).
  assert (Hne : gs <> []).
  { intros E. assert (P : map reset_for_reads tds' ≡ₚ []) by (rewrite <- E; symmetry; apply Hsort).
    apply Permutation_nil_r in P. destruct tds'; [|done]. destruct (trigram_groups alternatives); [|done]. done. }
  pose proof (read_all ic using_uring arrive gs Harrive Hne) as Hread. cbn zeta in Hread. fold gs.
  assert (Hev : forall x, allows alternatives x -> everywhere (map read_trigrams gs) x)
    by (intros x; apply allows_everywhere; eapply Forall_impl; [exact Hgs|by intros td [[H _] Hg]]).
  specialize (Hread ltac:(eapply Forall_impl; [exact Hgs|by intros td [H _]])). destruct (done _).
  - intros x Hx. by apply (Hread x), Hev.
  - destruct Hread as [Hs Hr]. split; [done|]. intros x Hx. by apply Hr, Hev.
Qed.

End Groups.

End Correct.
