(* ===== verification/SearchFile.v ===== *)
(** * flocate: searching one database (src/flocate.cpp, src/needle.cpp)

    [scan_file_block] checks the names of a block against the needles and hands
    its results to the serializer; [do_search_file] does so for the candidate
    blocks, or for all blocks if the needles ask for no trigrams.  The C library's
    matching functions, decompression, the access checks and the orders in which
    answers arrive are parameters. *)
From S2P Require Import Prelude Text HashTable Corpus Serializer Glob Trigrams Search.

(** ** Needles *)

Inductive NeedleType := STRSTR | REGEX | GLOB.

Record Needle := NEEDLE { n_type : NeedleType; n_str : bytes }.

Fixpoint starts_with (needle haystack : bytes) : bool :=
  match needle, haystack with
  | [], _ => true
  | c :: needle, d :: haystack => (c =? d) && starts_with needle haystack
  | _ :: _, [] => false
  end.

Fixpoint strstr (haystack needle : bytes) : bool :=
  starts_with needle haystack ||
  match haystack with
  | [] => false
  | _ :: haystack => strstr haystack needle
  end.

(** The part after the last slash. *)
Fixpoint after_slashes (s rest : bytes) : bytes :=
  match s with
  | [] => rest
  | c :: s => after_slashes s (if c =? 47 then s else rest)
  end.

Definition basename (filename : bytes) : bytes := after_slashes filename filename.

(** The [for] loop of [main] over the unigrams of an argument. *)
Fixpoint any_wildcard (fuel : nat) (str : bytes) (i : nat) : bool :=
  if (i <? length str)%nat then
    match fuel with
    | O => false
    | S fuel =>
      let '(u, len) := read_unigram str i in
      (u =? WILDCARD_UNIGRAM) || any_wildcard fuel str (i + len)
    end
  else false.

(** [None] ends the program: the pattern ends in a backslash. *)
Definition make_needle (patterns_are_regex ignore_case : bool) (arg : bytes) : option Needle :=
  if patterns_are_regex then Some (NEEDLE REGEX arg)
  else if any_wildcard (length arg) arg 0 then Some (NEEDLE GLOB arg)
  else if ignore_case then Some (NEEDLE GLOB ([42] ++ arg ++ [42]))
  else str ← unescape_glob_to_plain_string arg; Some (NEEDLE STRSTR str).

(** ** The names of a block *)

Fixpoint names_loop (fuel : nat) (block : bytes) : list bytes :=
  match block with
  | [] => []
  | _ =>
    match fuel with
    | O => []
    | S fuel => let filename := c_str block in filename :: names_loop fuel (drop (S (length filename)) block)
    end
  end.

Definition names_of (block : bytes) : list bytes := names_loop (length block) block.

Record Options := OPTIONS {
  ignore_case : bool;
  match_basename : bool;
  check_existence : bool;
  patterns_are_regex : bool;
  in_forked_child : bool;
  using_uring : bool
}.

(** How [do_search_file] ends: the program exits with an error, or because a
    trigram group matches nothing (it then prints a count of 0, if asked for a
    count, and exits with status 1), or the results go to the serializer. *)
Inductive SearchOutcome :=
| ExitNow (code : Z)
| ExitEmpty
| Found (results : list Element) (matched : Z).

Section SearchFile.
Context (opt : Options).
(** [fnmatch] and [regexec], which are told about the case by their flags. *)
Context (fnmatch regexec : bytes -> bytes -> bool).
(** [check_access] of the access cache, and whether [lstat] succeeds. *)
Context (visible lstat : bytes -> bool).
(** A block as it is read on its own, and as it is found among those that the
    scan of all blocks reads together; and decompressing it with the dictionary. *)
Context (get_compressed_filename_block scanned_block : Z -> option bytes) (zstd_decompress : bytes -> option bytes).
Context (num_docids : Z).

Definition matches (needle : Needle) (haystack : bytes) : bool :=
  match n_type needle with
  | STRSTR => strstr haystack (n_str needle)
  | GLOB => fnmatch (n_str needle) haystack
  | REGEX => regexec (n_str needle) haystack
  end.

Definition haystack (filename : bytes) : bytes := if match_basename opt then basename filename else filename.

Definition stat_if_needed (filename : bytes) (access_ok : bool) : bool :=
  if negb access_ok || negb (check_existence opt) then access_ok else lstat filename.

(** The result that a candidate leads to. *)
Definition test_candidate (filename : bytes) (local_seq next_seq : Z) : Element :=
  EL local_seq (u64 (next_seq - local_seq))
    (if stat_if_needed filename (visible filename) then filename else []).

Definition found (needles : list Needle) (filename : bytes) : bool :=
  forallb (fun needle => matches needle (haystack filename)) needles.

(** The loop over the names, with the candidate that is held back. *)
Fixpoint scan_names (needles : list Needle) (seq : Z) (names : list bytes) (local_seq : Z) (pending : option bytes)
    : list Element :=
  match names with
  | [] =>
    match pending with
    | None => [EL (u64 (Z.shiftl seq 32)) (2 ^ 32) []]
    | Some candidate => [test_candidate candidate local_seq (u64 (Z.shiftl (seq + 1) 32))]
    end
  | filename :: names =>
    if found needles filename then
      match pending with
      | Some candidate =>
        test_candidate candidate local_seq (u64 (local_seq + 1)) ::
        scan_names needles seq names (u64 (local_seq + 1)) (Some filename)
      | None => scan_names needles seq names local_seq (Some filename)
      end
    else scan_names needles seq names local_seq pending
  end.

(** [None] ends the program. *)
Definition scan_file_block (needles : list Needle) (compressed : bytes) (seq : Z) : option (list Element) :=
  block ← zstd_decompress compressed;
  Some (scan_names needles seq (names_of (block ++ [0])) (u64 (Z.shiftl seq 32)) None).

(** The blocks [docids] in turn, with sequence numbers from [i] on. *)
Fixpoint scan_docids_from (get_block : Z -> option bytes) (needles : list Needle) (i : Z) (docids : list Z) : option (list Element) :=
  match docids with
  | [] => Some []
  | docid :: docids =>
    compressed ← get_block docid;
    results ← scan_file_block needles compressed i;
    rest ← scan_docids_from get_block needles (i + 1) docids;
    Some (results ++ rest)
  end.

Definition scan_docids (needles : list Needle) (docids : list Z) : option (list Element) :=
  scan_docids_from get_compressed_filename_block needles 0 docids.

(** [scan_all_docids]: all blocks, each with its own number. *)
Definition scan_all_docids (needles : list Needle) : option (list Element) :=
  scan_docids_from scanned_block needles 0 (map Z.of_nat (seq 0 (Z.to_nat num_docids))).

(** [++*matched] in [test_candidate]: the names of a block that match and may be shown. *)
Definition block_matched (needles : list Needle) (compressed : bytes) : Z :=
  match zstd_decompress compressed with
  | Some block =>
    Z.of_nat (length (List.filter (fun f => found needles f && stat_if_needed f (visible f)) (names_of (block ++ [0]))))
  | None => 0
  end.

Fixpoint docids_matched (get_block : Z -> option bytes) (needles : list Needle) (docids : list Z) : Z :=
  match docids with
  | [] => 0
  | docid :: docids =>
    match get_block docid with Some compressed => block_matched needles compressed | None => 0 end +
    docids_matched get_block needles docids
  end.

Definition finish_search (results : option (list Element)) (matched : Z) : SearchOutcome :=
  match results with
  | Some results => Found results matched
  | None => ExitNow 1
  end.

(** The trigram groups of all needles; [None] when the fuel runs out. *)
Fixpoint parse_needles (loc : Locale) (fuel : nat) (needles : list Needle) : option (list (list Z)) :=
  match needles with
  | [] => Some []
  | needle :: needles =>
    groups ← (if ignore_case opt then parse_trigrams_ignore_case loc fuel (n_str needle)
              else Some (map (fun t => [t]) (parse_trigrams (n_str needle))));
    rest ← parse_needles loc fuel needles;
    Some (groups ++ rest)
  end.

Definition do_search_file (find_trigram : Z -> option (Trigram * Z)) (read_list : Trigram * Z -> list Z)
    (root_accessible : bool) (arrivals : list Z) (sort_groups : list TrigramDisjunction -> list TrigramDisjunction)
    (arrive : list (Trigram * Z) -> list (Trigram * Z)) (loc : Locale) (fuel : nat) (needles : list Needle)
    : option SearchOutcome :=
  if negb root_accessible then Some (Found [] 0)
  else
    groups ← (if patterns_are_regex opt then Some [] else parse_needles loc fuel needles);
    Some match search_candidates find_trigram read_list (ignore_case opt) (in_forked_child opt) (using_uring opt)
                 arrivals sort_groups arrive (trigram_groups groups) with
         | ScanAll => finish_search (scan_all_docids needles)
                        (docids_matched scanned_block needles (map Z.of_nat (seq 0 (Z.to_nat num_docids))))
         | SearchExit => ExitEmpty
         | NothingFound => Found [] 0
         | Candidates cur_candidates =>
           finish_search (scan_docids needles cur_candidates) (docids_matched get_compressed_filename_block needles cur_candidates)
         end.

End SearchFile.

(** The results that have a name to print: as many as [matched], unless a file has the
    empty name. *)
Definition count_matched (results : list Element) : Z := Z.of_nat (length (messages results)).

(** ** Worker threads *)

(** [WorkerThreadReceiver::print]: an empty result is added to the one before. *)
Definition receive (results : list Element) (e : Element) : list Element :=
  match msg e, last results with
  | [], Some b =>
    if u64 (seq_ b + skip b) =? seq_ e then
      removelast results ++ [EL (seq_ b) (u64 (skip b + skip e)) (msg b)]
    else results ++ [e]
  | _, _ => results ++ [e]
  end.

(** What a thread has collected between two calls of [deliver_results]. *)
Definition collect (printed : list Element) : list Element := fold_left receive printed [].

(** ** Names *)

Lemma names_loop_join g : Forall name g -> g <> [] -> forall fuel, (length (join g ++ [0%Z]) <= fuel)%nat ->
  names_loop fuel (join g ++ [0]) = g.
Proof.
  assert (Hc : forall f s, name f -> c_str (f ++ 0 :: s) = f).
  { intros f s Hf. induction Hf as [|c f Hc Hf IH]; [done|]. cbn. rewrite (proj2 (Z.eqb_neq c 0)) by lia. by rewrite IH. }
  induction 1 as [|f g Hf F IH]; intros Hne fuel Hlen; [done|].
  assert (Hstep : forall s fuel, names_loop (S fuel) (f ++ 0 :: s) = f :: names_loop fuel s).
  { intros s fuel0. assert (E : names_loop (S fuel0) (f ++ 0 :: s) =
      c_str (f ++ 0 :: s) :: names_loop fuel0 (drop (S (length (c_str (f ++ 0 :: s)))) (f ++ 0 :: s))) by by destruct f.
    rewrite E, Hc by done. f_equal. f_equal. change (f ++ 0 :: s) with (f ++ [0] ++ s). rewrite app_assoc.
    rewrite drop_app_length'; [done|]. rewrite length_app. cbn. lia. }
  destruct g as [|f' g].
  - cbn [join] in *. rewrite length_app in Hlen. cbn in Hlen. destruct fuel as [|fuel]; [lia|]. rewrite Hstep.
    by destruct fuel.
  - change (join (f :: f' :: g)) with (f ++ 0 :: join (f' :: g)) in *. rewrite <- app_assoc in *. cbn [app] in *.
    rewrite length_app in Hlen. cbn [length] in Hlen. destruct fuel as [|fuel]; [lia|]. rewrite Hstep. f_equal.
    apply IH; [done|lia].
Qed.

Lemma names_of_join g : Forall name g -> g <> [] -> names_of (join g ++ [0]) = g.
Proof. intros F Hne. by apply names_loop_join. Qed.

(** ** Results of a block *)

(** The results cover the numbers from [n] up to [m]. *)
Fixpoint chain_to (n : Z) (es : list Element) (m : Z) : Prop :=
  match es with
  | [] => n = m
  | e :: es => seq_ e = n /\ 0 < skip e /\ chain_to (n + skip e) es m
  end.

Lemma chain_to_app n es k es' m : chain_to n es k -> chain_to k es' m -> chain_to n (es ++ es') m.
Proof.
  revert n. induction es as [|e es IH]; intros n H H'; [cbn in *; by subst|]. destruct H as (E & Hs & H). cbn. auto.
Qed.

Lemma chain_to_chain n es m : chain_to n es m -> m < 2 ^ 64 -> chain n es.
Proof.
  revert n. induction es as [|e es IH]; intros n H Hm; [cbn in *; lia|]. destruct H as (E & Hs & H). cbn. auto.
Qed.

Section Results.
Context (opt : Options) (fnmatch regexec : bytes -> bytes -> bool) (visible lstat : bytes -> bool).

Abbreviation found := (found opt fnmatch regexec).
Abbreviation shown := (fun f => stat_if_needed opt lstat f (visible f)).

(** A name that the search prints. *)
Definition wanted (needles : list Needle) (f : bytes) : bool := found needles f && shown f.

Lemma messages_app es es' : messages (es ++ es') = messages es ++ messages es'.
Proof. unfold messages. by rewrite List.map_app, filter_app. Qed.

Lemma messages_candidate f n m es : f <> [] ->
  messages (test_candidate opt visible lstat f n m :: es) = (if shown f then [f] else []) ++ messages es.
Proof.
  intros Hf. unfold messages, test_candidate. cbn [map msg]. destruct (shown f).
  - by rewrite filter_cons_True.
  - by rewrite filter_cons_False by tauto.
Qed.

Lemma scan_names_spec needles seq names : 0 <= seq -> (seq + 1) * 2 ^ 32 < 2 ^ 64 -> Forall (fun f => f <> []) names ->
  forall local_seq pending, seq * 2 ^ 32 <= local_seq ->
  local_seq + Z.of_nat (length names) < (seq + 1) * 2 ^ 32 ->
  (forall p, pending = Some p -> p <> []) -> (pending = None -> local_seq = seq * 2 ^ 32) ->
  chain_to local_seq (scan_names opt fnmatch regexec visible lstat needles seq names local_seq pending) ((seq + 1) * 2 ^ 32) /\
  messages (scan_names opt fnmatch regexec visible lstat needles seq names local_seq pending) =
  (match pending with Some p => if shown p then [p] else [] | None => [] end) ++ List.filter (wanted needles) names.
Proof.
  intros Hseq Hmax. change (2 ^ 64) with 18446744073709551616 in *. change (2 ^ 32) with 4294967296 in *.
  assert (Hsh : forall k, Z.shiftl k 32 = k * 4294967296) by (intros k; by rewrite Z.shiftl_mul_pow2).
  assert (Hu : forall z, 0 <= z < 18446744073709551616 -> u64 z = z) by (intros z Hz; by apply u64_small).
  induction 1 as [|f names Hf F IH]; intros local_seq pending Hlo Hhi Hp Hnone; cbn [scan_names length List.filter] in *.
  - destruct pending as [p|]; rewrite Hsh, Hu by lia.
    + split; [|rewrite messages_candidate by auto; done]. cbn. rewrite Hu by lia. lia.
    + rewrite (Hnone eq_refl). split; [|done]. cbn. change (2 ^ 32) with 4294967296. lia.
  - unfold wanted at 1. destruct (found needles f) eqn:Ef; cbn [andb]; [|apply IH; auto; lia].
    destruct pending as [p|].
    + rewrite (Hu (local_seq + 1)) by lia. destruct (IH (local_seq + 1) (Some f)) as [IH1 IH2]; [lia|lia|by intros p' [= <-]|done|].
      split.
      * cbn [chain_to]. cbn [test_candidate seq_ skip]. rewrite Hu by lia. split; [done|]. split; [lia|].
        replace (local_seq + (local_seq + 1 - local_seq)) with (local_seq + 1) by lia. done.
      * rewrite messages_candidate by auto. rewrite IH2. by destruct (shown f).
    + destruct (IH local_seq (Some f)) as [IH1 IH2]; [lia|lia|by intros p' [= <-]|done|]. split; [done|].
      rewrite IH2. by destruct (shown f).
Qed.

(** ** Candidate blocks *)

Context (get_block : Z -> option bytes) (decompress : bytes -> option bytes) (groups : list (list bytes)).

(** What the database holds: the blocks can be read, and a name of three bytes
    does not end a block (see [three_byte_name_not_indexed]). *)
Record blocks_ok : Prop := {
  bo_read : forall i g, groups !! i = Some g ->
    exists c, get_block (Z.of_nat i) = Some c /\ decompress c = Some (join g);
  bo_names : Forall (fun g => g <> [] /\ Forall path_ok g /\ indexed g = g /\ Z.of_nat (length g) < 2 ^ 31) groups;
  bo_count : Z.of_nat (length groups) < 2 ^ 31
}.

Definition block_matches (needles : list Needle) (docid : Z) : list bytes :=
  List.filter (wanted needles) (nth (Z.to_nat docid) groups []).

Lemma scan_docids_spec needles docids : blocks_ok ->
  Forall (fun d => 0 <= d < Z.of_nat (length groups)) docids ->
  forall i, 0 <= i -> (i + Z.of_nat (length docids)) * 2 ^ 32 < 2 ^ 64 ->
  exists els, scan_docids_from opt fnmatch regexec visible lstat decompress get_block needles i docids = Some els /\
    chain_to (i * 2 ^ 32) els ((i + Z.of_nat (length docids)) * 2 ^ 32) /\
    messages els = concat (map (block_matches needles) docids).
Proof.
  intros [Hread Hnames Hcount]. change (2 ^ 64) with 18446744073709551616. change (2 ^ 32) with 4294967296.
  induction 1 as [|d docids Hd F IH]; intros i Hi Hmax; cbn [scan_docids_from length map concat] in *.
  { exists []. split; [done|]. split; [cbn; lia|done]. }
  destruct (lookup_lt_is_Some_2 groups (Z.to_nat d)) as [g Hg]; [lia|].
  destruct (Hread _ _ Hg) as (c & Hc & Hdec). rewrite Z2Nat.id in Hc by lia. rewrite Hc. cbn [mbind option_bind].
  rewrite Forall_forall in Hnames. destruct (Hnames g) as (Hne & Hpath & _ & Hlen); [by apply list_elem_of_lookup_2 with (Z.to_nat d)|].
  unfold scan_file_block. rewrite Hdec. cbn [mbind option_bind].
  assert (Hname : Forall name g) by (eapply Forall_impl; [exact Hpath|by intros f [Hf _]]).
  rewrite names_of_join by done.
  rewrite Z.shiftl_mul_pow2 by lia. change (2 ^ 32) with 4294967296. rewrite u64_small by (unfold is_u64; lia).
  change (2 ^ 31) with 2147483648 in *.
  assert (Hnonempty : Forall (fun f => f <> []) g) by (eapply Forall_impl; [exact Hpath|by intros f [_ Hf]]).
  pose proof (scan_names_spec needles i g Hi) as Hblock. change (2 ^ 64) with 18446744073709551616 in Hblock.
  change (2 ^ 32) with 4294967296 in Hblock.
  specialize (Hblock ltac:(lia) Hnonempty (i * 4294967296) None ltac:(lia) ltac:(lia) ltac:(done) ltac:(done)).
  destruct Hblock as [H1 H2].
  destruct (IH (i + 1)) as (els & -> & H3 & H4); [lia|lia|]. cbn [mbind option_bind]. eexists. split; [done|]. split.
  - eapply chain_to_app; [exact H1|]. replace (i + Z.of_nat (S (length docids))) with (i + 1 + Z.of_nat (length docids)) by lia. done.
  - rewrite messages_app, H2, H4. cbn [app]. f_equal. unfold block_matches.
    by rewrite (nth_lookup_Some _ _ _ _ Hg).
Qed.

Lemma docids_matched_spec needles docids : blocks_ok -> Forall (fun d => 0 <= d < Z.of_nat (length groups)) docids ->
  docids_matched opt fnmatch regexec visible lstat decompress get_block needles docids =
  Z.of_nat (length (concat (map (block_matches needles) docids))).
Proof.
  intros [Hread Hnames _]. induction 1 as [|d docids Hd F IH]; cbn [docids_matched map concat]; [done|]. rewrite IH, length_app.
  destruct (lookup_lt_is_Some_2 groups (Z.to_nat d)) as [g Hg]; [lia|].
  destruct (Hread _ _ Hg) as (c & Hc & Hdec). rewrite Z2Nat.id in Hc by lia. rewrite Hc. unfold block_matched. rewrite Hdec.
  rewrite Forall_forall in Hnames. destruct (Hnames g) as (Hne & Hpath & _ & _); [by apply list_elem_of_lookup_2 with (Z.to_nat d)|].
  rewrite names_of_join by (done || (eapply Forall_impl; [exact Hpath|by intros f [Hf _]])).
  unfold block_matches at 2. rewrite (nth_lookup_Some _ _ _ _ Hg). unfold wanted. lia.
Qed.

(** ** Trigrams of matching names *)

Context (loc : Locale) (fuel : nat).

(** The needles for which the trigrams are what matching relies on: a plain
    string has no backslash (see [escaped_backslash_false_negative]), and what
    [fnmatch] accepts is matched by the literals of the glob, up to the case. *)
Definition needle_ok (n : Needle) : Prop :=
  Forall is_byte (n_str n) /\
  match n_type n with
  | REGEX => False
  | STRSTR => ignore_case opt = false /\ 92 ∉ n_str n
  | GLOB =>
    if ignore_case opt then
      exists alts, codepoints loc (length (n_str n)) (n_str n) = Some alts /\ (sum_list (map max_len alts) < fuel)%nat /\
        forall h, fnmatch (n_str n) h = true -> exists sigma, choice alts sigma /\ umatch (unigrams (concat sigma)) h
    else forall h, fnmatch (n_str n) h = true -> umatch (unigrams (n_str n)) h
  end.

(** Needles with simple brackets are among them if [fnmatch] matches as [Glob] says. *)
Lemma glob_needle_ok needle character member : ignore_case opt = false -> Forall is_byte needle ->
  simple_brackets needle = true -> (forall h, fnmatch needle h = true -> glob_match eq character member (glob_tokens needle) h) ->
  needle_ok (NEEDLE GLOB needle).
Proof.
  intros Hc F Hs Hm. split; [exact F|]. cbn [n_type n_str]. rewrite Hc. intros h Hh. by eapply glob_bytes_umatch; [..|by apply Hm].
Qed.

Lemma glob_letters_needle_ok chars character member : ignore_case opt = true ->
  Forall (fun c => encodes_ok (wctomb loc) c /\ decodes loc c) chars -> (sum_list (map (longest_variant loc) chars) < fuel)%nat ->
  simple_brackets chars = true ->
  (forall h, fnmatch (encode (wctomb loc) chars) h = true -> exists name, h = encode (wctomb loc) name /\
     Forall (encodes_ok (wctomb loc)) name /\ only_case_variants loc chars name /\
     glob_match (same_letter loc) character member (glob_tokens chars) name) ->
  needle_ok (NEEDLE GLOB (encode (wctomb loc) chars)).
Proof.
  intros Hc F Hf Hs Hm. split; [apply encode_bytes; eapply Forall_impl; [exact F|by intros c [? _]]|]. cbn [n_type n_str]. rewrite Hc.
  eexists. split; [by apply codepoints_encode|]. split; [by eapply Nat.le_lt_trans; [apply alternatives_longest|]|].
  intros h Hh. destruct (Hm h Hh) as (name & -> & Fn & Hv & Hg). by eapply letters_umatch.
Qed.

Lemma starts_with_app needle h : starts_with needle h = true -> exists post, h = needle ++ post.
Proof.
  revert h. induction needle as [|c needle IH]; intros h H; [by exists h|]. destruct h as [|d h]; [done|]. cbn in H.
  apply andb_true_iff in H as [E H]. apply Z.eqb_eq in E as ->. destruct (IH h H) as [post ->]. by exists post.
Qed.

Lemma strstr_app h needle : strstr h needle = true -> exists pre post, h = pre ++ needle ++ post.
Proof.
  induction h as [|c h IH]; cbn [strstr]; intros H; apply orb_true_iff in H as [H|H]; try done.
  - destruct (starts_with_app _ _ H) as [post E]. by exists [], post.
  - destruct (starts_with_app _ _ H) as [post E]. by exists [], post.
  - destruct (IH H) as (pre & post & ->). by exists (c :: pre), post.
Qed.

Lemma after_slashes_suffix s : forall rest whole, (exists pre, whole = pre ++ rest) -> (exists pre, whole = pre ++ s) ->
  exists pre, whole = pre ++ after_slashes s rest.
Proof.
  induction s as [|c s IH]; intros rest whole Hr Hs; [done|]. cbn [after_slashes].
  assert (Hs' : exists pre, whole = pre ++ s) by (destruct Hs as [pre ->]; exists (pre ++ [c]); by rewrite <- app_assoc).
  apply IH; [by destruct (c =? 47)|done].
Qed.

Lemma haystack_suffix f : exists pre, f = pre ++ haystack opt f.
Proof.
  unfold haystack. destruct (match_basename opt); [|by exists []]. unfold basename.
  apply after_slashes_suffix; by exists [].
Qed.

(** What a name that matches the needle must contain. *)
Definition groups_sound (groups : list (list Z)) (f : bytes) : Prop := Forall (Exists (fun t => t ∈ trigrams_of f)) groups.

Lemma single_groups_ok needle : Forall is_byte needle -> Forall group_ok (map (fun t => [t]) (parse_trigrams needle)).
Proof.
  intros F%parse_trigrams_range. apply Forall_fmap. eapply Forall_impl; [exact F|]. intros t Ht.
  split; [apply NoDup_singleton|by constructor].
Qed.

Lemma parse_needles_sound needles : patterns_are_regex opt = false -> locale_ok loc -> Forall needle_ok needles ->
  exists gs, parse_needles opt loc fuel needles = Some gs /\ Forall group_ok gs /\
    forall f, found needles f = true -> groups_sound gs f.
Proof.
  intros Hregex Hloc. induction 1 as [|n needles [Hb Hn] F IH]; cbn [parse_needles].
  { exists []. split; [done|]. split; [constructor|]. intros f _. constructor. }
  destruct IH as (gs & -> & Hgs & IH).
  assert (Hhere : exists here, (if ignore_case opt then parse_trigrams_ignore_case loc fuel (n_str n)
      else Some (map (fun t => [t]) (parse_trigrams (n_str n)))) = Some here /\ Forall group_ok here /\
      forall f, matches fnmatch regexec n (haystack opt f) = true -> groups_sound here f).
  { unfold matches. destruct (n_type n); [|done|].
    - destruct Hn as [-> Hn]. eexists. split; [done|]. split; [by apply single_groups_ok|]. intros f Hf. destruct (strstr_app _ _ Hf) as (pre & post & E).
      destruct (haystack_suffix f) as [pre' Ef]. rewrite E in Ef. apply Forall_fmap, Forall_forall. intros t Ht. apply Exists_cons. left.
      rewrite Ef, app_assoc. apply (proj1 (parse_trigrams_names (n_str n) Hb)); [by apply umatch_self|done].
    - destruct (ignore_case opt).
      + destruct Hn as (alts & Ea & Hfuel & Hm).
        destruct (parse_ignore_case_names loc (n_str n) alts fuel Hloc Hb Ea Hfuel) as (_ & here & -> & Hok & Hs).
        exists here. split; [done|]. split; [done|]. intros f Hf. destruct (Hm _ Hf) as (sigma & Hc & Hu). destruct (haystack_suffix f) as [pre ->].
        rewrite <- (app_nil_r (haystack opt f)). by apply (Hs sigma).
      + eexists. split; [done|]. split; [by apply single_groups_ok|]. intros f Hf. apply Forall_fmap, Forall_forall. intros t Ht. apply Exists_cons. left.
        destruct (haystack_suffix f) as [pre Ef]. rewrite Ef, <- (app_nil_r (haystack opt f)).
        apply (proj1 (parse_trigrams_names (n_str n) Hb)); [by apply Hn|done]. }
  destruct Hhere as (here & -> & Hok & Hhere). cbn [mbind option_bind]. eexists. split; [done|]. split; [by apply Forall_app|]. intros f Hf.
  unfold SearchFile.found in Hf. cbn [forallb] in Hf. apply andb_true_iff in Hf as [Hf1 Hf2].
  apply Forall_app. split; [by apply Hhere|by apply IH].
Qed.

End Results.

(** ** Results that were added up *)

Lemma chain_to_split n l e k m : chain_to n (l ++ e :: k) m ->
  chain_to n l (seq_ e) /\ 0 < skip e /\ chain_to (seq_ e + skip e) k m.
Proof.
  revert n. induction l as [|d l IH]; intros n H; cbn [app chain_to] in *.
  - destruct H as (<- & Hs & H). done.
  - destruct H as (E & Hs & H). destruct (IH _ H) as (H1 & H2 & H3). done.
Qed.

Lemma chain_to_seq n l m e : chain_to n l m -> e ∈ l -> n <= seq_ e < m.
Proof.
  intros H He. apply list_elem_of_split in He as (l1 & l2 & ->). apply chain_to_split in H as (H1 & Hs & H2).
  assert (Hle : forall n l m, chain_to n l m -> n <= m).
  { clear. intros n l. revert n. induction l as [|d l IH]; intros n m H; cbn in H; [lia|]. destruct H as (_ & Hs & H).
    specialize (IH _ _ H). lia. }
  pose proof (Hle _ _ _ H1). pose proof (Hle _ _ _ H2). lia.
Qed.

Lemma messages_perm_length xs ys : xs ≡ₚ ys -> length (messages xs) = length (messages ys).
Proof. intros P. apply Permutation_length. unfold messages. by rewrite P. Qed.

(** Whatever the order, [ys] are results with the same meaning as [xs]. *)
Definition adds_up (m : Z) (xs ys : list Element) : Prop :=
  forall es, xs ≡ₚ es -> chain_to 0 es m -> exists es', ys ≡ₚ es' /\ chain_to 0 es' m /\ messages es' = messages es.

Lemma adds_up_trans m xs ys zs : adds_up m xs ys -> adds_up m ys zs -> adds_up m xs zs.
Proof.
  intros H1 H2 es P C. destruct (H1 es P C) as (es1 & P1 & C1 & E1). destruct (H2 es1 P1 C1) as (es2 & P2 & C2 & E2).
  exists es2. split; [done|]. split; [done|]. congruence.
Qed.

Lemma adds_up_perm m xs ys : xs ≡ₚ ys -> adds_up m xs ys.
Proof. intros P es P' C. exists es. split; [by rewrite <- P|done]. Qed.

Lemma adds_up_merge m b e rest : m < 2 ^ 64 -> msg e = [] -> u64 (seq_ b + skip b) = seq_ e ->
  adds_up m (b :: e :: rest) (EL (seq_ b) (u64 (skip b + skip e)) (msg b) :: rest).
Proof.
  intros Hm He Hseq es P C. assert (Hb : b ∈ es) by (rewrite <- P; by left).
  apply list_elem_of_split in Hb as (l1 & l2 & ->). pose proof (chain_to_split _ _ _ _ _ C) as (C1 & Hs & C2).
  assert (He' : e ∈ l1 ++ l2).
  { rewrite <- Permutation_middle in P. apply Permutation_cons_inv in P. rewrite <- P. by left. }
  assert (Hrange : 0 <= seq_ b + skip b <= m).
  { pose proof (chain_to_seq 0 (l1 ++ b :: l2) m b C ltac:(apply elem_of_app; right; by left)).
    destruct l2 as [|d l2]; [cbn in C2; lia|]. pose proof (chain_to_seq _ _ _ d C2 ltac:(by left)). destruct C2 as [E _]. lia. }
  rewrite u64_small in Hseq by (unfold is_u64; lia). apply elem_of_app in He' as [He'|He'].
  { pose proof (chain_to_seq _ _ _ _ C1 He'). lia. }
  destruct l2 as [|d l2]; [by apply not_elem_of_nil in He'|].
  assert (e = d) as <-.
  { apply elem_of_cons in He' as [|He']; [done|]. destruct C2 as (Ed & Hsd & C3). pose proof (chain_to_seq _ _ _ _ C3 He'). lia. }
  destruct C2 as (_ & Hse & C3).
  assert (Hend : seq_ b + skip b + skip e <= m).
  { destruct l2 as [|d l2]; [cbn in C3; lia|]. pose proof (chain_to_seq _ _ _ d C3 ltac:(by left)). destruct C3 as [E _]. lia. }
  assert (H0 : 0 <= seq_ b) by (pose proof (chain_to_seq 0 (l1 ++ b :: e :: l2) m b C ltac:(apply elem_of_app; right; by left)); lia).
  rewrite u64_small by (unfold is_u64; lia).
  exists (l1 ++ EL (seq_ b) (skip b + skip e) (msg b) :: l2). split; [|split].
  - rewrite <- Permutation_middle. apply perm_skip. rewrite <- !Permutation_middle in P. by apply Permutation_cons_inv, Permutation_cons_inv in P.
  - eapply chain_to_app; [exact C1|]. cbn. split; [done|]. split; [lia|]. by rewrite Z.add_assoc.
  - rewrite !messages_app. f_equal. unfold messages. cbn [map msg]. rewrite He, !filter_cons.
    rewrite (decide_False (P := [] <> [])) by auto. done.
Qed.

Lemma adds_up_receive m results e rest : m < 2 ^ 64 -> adds_up m (results ++ e :: rest) (receive results e ++ rest).
Proof.
  intros Hm. unfold receive. destruct (msg e) as [|c s] eqn:He; [|apply adds_up_perm; by rewrite <- app_assoc].
  destruct results as [|b results _] using rev_ind; [by apply adds_up_perm|]. rewrite last_snoc, removelast_last.
  destruct (Z.eqb_spec (u64 (seq_ b + skip b)) (seq_ e)) as [Es|_]; [|apply adds_up_perm; by rewrite <- !app_assoc].
  eapply adds_up_trans; [apply (adds_up_perm _ _ (b :: e :: results ++ rest))|].
  - rewrite <- app_assoc. cbn [app]. rewrite <- !Permutation_middle. done.
  - eapply adds_up_trans; [by apply adds_up_merge|]. apply adds_up_perm. rewrite <- app_assoc. cbn [app].
    apply Permutation_middle.
Qed.

Lemma adds_up_collect m printed : m < 2 ^ 64 -> forall results rest,
  adds_up m (results ++ printed ++ rest) (fold_left receive printed results ++ rest).
Proof.
  intros Hm. induction printed as [|e printed IH]; intros results rest; cbn [app fold_left]; [by apply adds_up_perm|].
  eapply adds_up_trans; [by apply adds_up_receive|]. apply IH.
Qed.

Lemma adds_up_segments m segments : m < 2 ^ 64 -> forall before,
  adds_up m (before ++ concat segments) (before ++ concat (map collect segments)).
Proof.
  intros Hm. induction segments as [|s segments IH]; intros before; cbn [concat map]; [by apply adds_up_perm|].
  eapply adds_up_trans; [apply (adds_up_perm _ _ (s ++ before ++ concat segments)), Permutation_app_swap_app|].
  eapply adds_up_trans; [apply (adds_up_collect m s Hm [])|]. fold (collect s).
  eapply adds_up_trans; [|apply adds_up_perm, Permutation_app_swap_app]. rewrite !app_assoc. apply IH.
Qed.

(** ** The whole search *)

(** Leaving out what contributes nothing. *)
Lemma concat_increasing {A} (f : Z -> list A) n : forall k cur, increasing cur ->
  Forall (fun d => Z.of_nat k <= d < Z.of_nat (k + n)) cur ->
  (forall d, Z.of_nat k <= d < Z.of_nat (k + n) -> f d <> [] -> d ∈ cur) ->
  concat (map f cur) = concat (map f (map Z.of_nat (seq k n))).
Proof.
  induction n as [|n IH]; intros k cur Hinc F Hall; cbn [seq map concat].
  { destruct cur as [|d cur]; [done|]. apply Forall_cons in F as [F _]. lia. }
  destruct (decide (Z.of_nat k ∈ cur)) as [Hk|Hk].
  - destruct cur as [|d cur]; [by apply not_elem_of_nil in Hk|]. apply increasing_cons in Hinc as [Hinc Hd].
    apply Forall_cons in F as [Fd F]. assert (d = Z.of_nat k) as ->.
    { apply elem_of_cons in Hk as [<-|Hk]; [done|]. specialize (Hd _ Hk). lia. }
    cbn [map concat]. f_equal. apply IH; [done| |].
    + rewrite Forall_forall in F |- *. intros x Hx. specialize (Hd x Hx). specialize (F x Hx). lia.
    + intros x Hx Hf. assert (Hin : x ∈ Z.of_nat k :: cur) by (apply Hall; [lia|done]). apply elem_of_cons in Hin as [->|]; [lia|done].
  - assert (f (Z.of_nat k) = []) as ->.
    { destruct (f (Z.of_nat k)) eqn:E; [done|]. exfalso. apply Hk, Hall; [lia|by rewrite E]. }
    cbn [app]. apply IH; [done| |].
    + rewrite Forall_forall in F |- *. intros x Hx. specialize (F x Hx). assert (x <> Z.of_nat k) by (by intros ->). lia.
    + intros x Hx Hf. apply Hall; [lia|done].
Qed.

Lemma map_nth_seq {A} (d : A) l : map (fun i => nth (Z.to_nat i) l d) (map Z.of_nat (seq 0 (length l))) = l.
Proof.
  rewrite map_map. apply list_eq. intros i. rewrite list_lookup_fmap.
  destruct (decide (i < length l)%nat) as [Hi|Hi].
  - rewrite lookup_seq_lt by done. cbn [fmap option_fmap option_map]. rewrite Nat2Z.id. cbn [Nat.add].
    destruct (lookup_lt_is_Some_2 l i Hi) as [x Hx]. by rewrite Hx, (nth_lookup_Some _ _ _ _ Hx).
  - rewrite lookup_seq_ge by lia. by rewrite lookup_ge_None_2 by lia.
Qed.

Section Exact.
Context (opt : Options) (fnmatch regexec : bytes -> bytes -> bool) (visible lstat : bytes -> bool).
Context (get_block scanned_block : Z -> option bytes) (decompress : bytes -> option bytes) (groups : list (list bytes)).
Context (loc : Locale) (fuel : nat) (find_trigram : Z -> option (Trigram * Z)) (read_list : Trigram * Z -> list Z).

Abbreviation num_docids := (Z.of_nat (length groups)).

(** The names of the database that the search prints, in the order of the database. *)
Definition all_matches (needles : list Needle) : list bytes :=
  List.filter (wanted opt fnmatch regexec visible lstat needles) (concat groups).

Abbreviation block_matches := (block_matches opt fnmatch regexec visible lstat groups).

Lemma all_matches_blocks needles :
  all_matches needles = concat (map (block_matches needles) (map Z.of_nat (seq 0 (length groups)))).
Proof.
  unfold all_matches. rewrite <- List.concat_filter_map. f_equal. unfold SearchFile.block_matches.
  rewrite <- (map_nth_seq [] groups) at 1. by rewrite map_map.
Qed.

(** A block with a match is in the lists of every group of the needles. *)
Lemma matching_block_allowed needles gs d : blocks_ok get_block decompress groups ->
  (forall f, found opt fnmatch regexec needles f = true -> groups_sound gs f) ->
  0 <= d < num_docids -> block_matches needles d <> [] -> allows (blocks_with groups) gs d.
Proof.
  intros Hok Hsound Hd Hne. unfold SearchFile.block_matches in Hne.
  destruct (List.filter _ _) as [|f l] eqn:E; [done|].
  assert (Hin : In f (f :: l)) by by left. rewrite <- E in Hin. apply filter_In in Hin as [Hin Hf].
  apply andb_true_iff in Hf as [Hf _]. eapply Forall_impl; [exact (Hsound f Hf)|]. intros g Hg.
  eapply Exists_impl; [exact Hg|]. intros t Ht. unfold blocks_with. rewrite <- (Z2Nat.id d) by lia.
  apply list_elem_of_In, in_map, filter_In. split; [apply in_seq; lia|]. apply bool_decide_eq_true.
  pose proof (bo_names _ _ _ Hok) as Hn. rewrite Forall_forall in Hn.
  destruct (Hn (nth (Z.to_nat d) groups [])) as (_ & _ & Hidx & _); [apply list_elem_of_In, nth_In; lia|].
  unfold emitted. rewrite Hidx. apply list_elem_of_In, in_concat. exists (trigrams_of f).
  split; [by apply in_map|by apply list_elem_of_In].
Qed.

(** What a search leads to, whichever way its results arrive at the serializer:
    [segments] are what a thread prints between two deliveries, or the single
    results when there are no threads. *)
Definition search_result_ok (all : list bytes) (o : option SearchOutcome) : Prop :=
  match o with
  | None | Some (ExitNow _) => False
  | Some ExitEmpty => all = []
  | Some (Found results matched) =>
    matched = Z.of_nat (length all) /\
    forall segments, concat segments ≡ₚ results ->
    length (messages (concat (map collect segments))) = length all /\
    forall limit, 0 < limit ->
      match print_all false (concat (map collect segments)) (new_Serializer limit) with
      | Running s => printed s = all /\ pending s = [] /\ Z.of_nat (length all) < limit
      | Exited out => out = take (Z.to_nat limit) all /\ limit <= Z.of_nat (length all)
      end
  end.

Lemma finish_search_ok read needles docids : blocks_ok read decompress groups ->
  Forall (fun d => 0 <= d < num_docids) docids -> (length docids <= length groups)%nat ->
  concat (map (block_matches needles) docids) = all_matches needles ->
  search_result_ok (all_matches needles)
    (Some (finish_search (scan_docids_from opt fnmatch regexec visible lstat decompress read needles 0 docids)
             (docids_matched opt fnmatch regexec visible lstat decompress read needles docids))).
Proof.
  intros Hok F Hlen E. pose proof (bo_count _ _ _ Hok) as Hcount. change (2 ^ 31) with 2147483648 in Hcount.
  destruct (scan_docids_spec opt fnmatch regexec visible lstat read decompress groups needles docids Hok F 0)
    as (els & -> & Hchain & Hmsg); [done|change (2 ^ 32) with 4294967296; change (2 ^ 64) with 18446744073709551616; lia|].
  pose proof (docids_matched_spec opt fnmatch regexec visible lstat read decompress groups needles docids Hok F) as Hmatched.
  rewrite E in Hmsg, Hmatched. cbn [finish_search search_result_ok]. split; [done|].
  intros segments Harr. set (m := (0 + _) * _) in Hchain.
  assert (Hm : m < 2 ^ 64) by (unfold m; change (2 ^ 32) with 4294967296; change (2 ^ 64) with 18446744073709551616; lia).
  destruct (adds_up_segments m segments Hm [] els Harr Hchain) as (es & P & C & E'). rewrite <- Hmsg, <- E'.
  split; [by apply messages_perm_length|]. intros limit Hlim. apply print_arrivals; [by eapply chain_to_chain|done|done].
Qed.

Context `{!Index find_trigram read_list (blocks_with groups) (fun x => 0 <= x < num_docids)}.

Lemma increasing_bound cur : increasing cur -> Forall (fun d => 0 <= d < num_docids) cur -> (length cur <= length groups)%nat.
Proof.
  intros Hinc F. assert (N : NoDup cur).
  { clear F. induction Hinc as [|d cur S IH Fd]; constructor; [|done]. intros Hd. rewrite Forall_forall in Fd. specialize (Fd d Hd). lia. }
  assert (H : (length cur <= length (map Z.of_nat (seq 0 (length groups))))%nat).
  { apply submseteq_length, NoDup_submseteq; [done|]. intros d Hd. rewrite Forall_forall in F. specialize (F d Hd).
    apply list_elem_of_In, in_map_iff. exists (Z.to_nat d). split; [lia|]. apply in_seq. lia. }
  by rewrite length_map, length_seq in H.
Qed.

Lemma no_match_anywhere needles gs : blocks_ok get_block decompress groups ->
  (forall f, found opt fnmatch regexec needles f = true -> groups_sound gs f) ->
  (forall x, ~ allows (blocks_with groups) gs x) -> all_matches needles = [].
Proof.
  intros Hok Hsound Hno. rewrite all_matches_blocks. apply List.concat_nil_Forall, Forall_map, Forall_map, Forall_forall.
  intros i Hi%list_elem_of_In. destruct (block_matches needles (Z.of_nat i)) eqn:E; [done|]. exfalso. apply (Hno (Z.of_nat i)).
  apply in_seq in Hi. eapply matching_block_allowed; [done|done|lia|by rewrite E].
Qed.

(** The trigram groups of the needles: one-trigram groups, or those of [parse_trigrams_ignore_case]. *)
Definition needle_groups (needles : list Needle) : option (list (list Z)) :=
  if patterns_are_regex opt then Some [] else parse_needles opt loc fuel needles.

Lemma do_search_file_exact root_accessible arrivals sort_groups arrive needles :
  root_accessible = true -> blocks_ok get_block decompress groups -> blocks_ok scanned_block decompress groups -> locale_ok loc ->
  (patterns_are_regex opt = true \/ Forall (needle_ok opt fnmatch loc fuel) needles) ->
  (forall l, sort_groups l ≡ₚ l) -> (forall l, arrive l ≡ₚ l) ->
  (forall gs, needle_groups needles = Some gs -> arrivals ≡ₚ trigrams_to_lookup (trigram_groups gs)) ->
  search_result_ok (all_matches needles)
    (do_search_file opt fnmatch regexec visible lstat get_block scanned_block decompress num_docids find_trigram read_list root_accessible
       arrivals sort_groups arrive loc fuel needles).
Proof.
  intros -> Hok Hscan Hloc Hneedles Hsort Harrive Hgroups. unfold do_search_file. cbn [negb].
  fold (needle_groups needles). assert (Hgs : exists gs, needle_groups needles = Some gs /\ Forall group_ok gs /\
    forall f, found opt fnmatch regexec needles f = true -> groups_sound gs f).
  { unfold needle_groups in *. destruct (patterns_are_regex opt) eqn:Er.
    - exists []. split; [done|]. split; [constructor|]. intros f _. constructor.
    - destruct Hneedles as [|Hneedles]; [done|].
      destruct (parse_needles_sound opt fnmatch regexec loc fuel needles Er Hloc Hneedles) as (gs & E & Hok' & Hs).
      by exists gs. }
  destruct Hgs as (gs & Egs & Hgs & Hsound). pose proof (Hgroups gs Egs) as Harr. rewrite Egs. cbn [mbind option_bind].
  pose proof (candidates_complete find_trigram read_list (blocks_with groups) _ gs Hgs (ignore_case opt) (in_forked_child opt)
    (using_uring opt) arrivals sort_groups arrive Hsort Harrive Harr) as H.
  destruct (search_candidates _ _ _ _ _ _ _ _ _) as [| | |cur].
  - unfold scan_all_docids. rewrite Nat2Z.id. apply finish_search_ok; [done| | |by rewrite <- all_matches_blocks].
    + apply Forall_map, Forall_forall. intros i Hi%list_elem_of_In. apply in_seq in Hi. lia.
    + by rewrite length_map, length_seq.
  - cbn. by apply (no_match_anywhere needles gs).
  - cbn. rewrite (no_match_anywhere needles gs) by done. split; [done|]. intros segments Hseg.
    destruct (adds_up_segments 0 segments ltac:(done) [] [] Hseg eq_refl) as (es & P & C & E). cbn [app] in P.
    assert (es = []) as -> by (destruct es as [|e es]; [done|]; destruct C as (E1 & Hs & C); pose proof (chain_to_seq 0 (e :: es) 0 e (conj E1 (conj Hs C)) ltac:(by left)); lia).
    apply Permutation_nil_r in P. rewrite P. split; [done|]. intros limit Hl. by apply (print_arrivals []).
  - destruct H as [[Hinc Hval] Hall]. unfold scan_docids. apply finish_search_ok; [done|done|by apply increasing_bound|].
    rewrite all_matches_blocks. apply concat_increasing; [done|done|]. intros d Hd Hne. apply Hall.
    eapply matching_block_allowed; [done|done|lia|done].
Qed.

End Exact.

Lemma blocks_with_increasing groups t : increasing (blocks_with groups t).
Proof.
  unfold increasing, blocks_with. assert (H : forall n k, StronglySorted Z.lt (map Z.of_nat
    (List.filter (fun i => bool_decide (t ∈ emitted (nth i groups []))) (seq k n)))).
  { induction n as [|n IH]; intros k; cbn [seq List.filter map]; [constructor|]. case_match; [|apply IH].
    cbn [map]. constructor; [apply IH|]. apply Forall_map, Forall_forall. intros i Hi%list_elem_of_In.
    apply filter_In in Hi as [Hi _]. apply in_seq in Hi. lia. }
  apply H.
Qed.

(** ** Correctness *)

(** C4. A search prints exactly the names of the database that match all needles,
    are visible and, if asked, still exist, in the order of the database and up
    to the limit, and counts them, whichever way the trigram lookups, the posting
    lists and the results of the threads arrive: skipping blocks by trigrams never
    loses a name.  It needs an index that answers for every trigram with the
    blocks that have it, readable blocks, and needles whose matches contain their
    trigrams; if the program exits early, nothing matches. *)
Theorem search_exact opt fnmatch regexec visible lstat get_block scanned_block decompress groups loc fuel find_trigram read_list
    (Hindex : Index find_trigram read_list (blocks_with groups) (fun x => 0 <= x < Z.of_nat (length groups)))
    arrivals sort_groups arrive needles
    (Hblocks : blocks_ok get_block decompress groups /\ blocks_ok scanned_block decompress groups) (Hloc : locale_ok loc)
    (Hneedles : patterns_are_regex opt = true \/ Forall (needle_ok opt fnmatch loc fuel) needles)
    (Hsort : forall l, sort_groups l ≡ₚ l) (Harrive : forall l, arrive l ≡ₚ l)
    (Harrivals : forall gs, needle_groups opt loc fuel needles = Some gs ->
      arrivals ≡ₚ trigrams_to_lookup (trigram_groups gs)) :
  search_result_ok (List.filter (wanted opt fnmatch regexec visible lstat needles) (concat groups))
    (do_search_file opt fnmatch regexec visible lstat get_block scanned_block decompress (Z.of_nat (length groups))
       find_trigram read_list true arrivals sort_groups arrive loc fuel needles).
Proof. destruct Hblocks. by apply do_search_file_exact. Qed.

(** An index that is computed from the names. *)
Definition sample_groups : list (list bytes) :=
  map (map bytes_of_string) [["/a/food"%string; "/bar/x.txt"%string]; ["/usr/lib"%string]; ["/foobar"%string; "/zip/foo1"%string]].

Definition sample_find (t : Z) : option (Trigram * Z) :=
  match blocks_with sample_groups t with
  | [] => None
  | l => Some (TG t (Z.of_nat (length l)) 0, 0)
  end.

Definition sample_read (e : Trigram * Z) : list Z := blocks_with sample_groups (trgm (fst e)).

#[local] Instance sample_index :
  Index sample_find sample_read (blocks_with sample_groups) (fun x => 0 <= x < Z.of_nat (length sample_groups)).
Proof.
  split.
  - intros t e _ H. unfold sample_find in H. destruct (blocks_with sample_groups t) as [|x l] eqn:E; [done|].
    injection H as <-. split; [done|]. exact E.
  - intros t _. unfold sample_find. by destruct (blocks_with sample_groups t).
  - apply blocks_with_increasing.
  - intros t x Hx. pose proof (blocks_with_lt sample_groups t) as F. rewrite Forall_forall in F. by apply F.
Qed.

Definition sample_options : Options := OPTIONS false false true false false true.

Definition sample_get_block (docid : Z) : option bytes := join <$> sample_groups !! Z.to_nat docid.

Definition sample_exists (f : bytes) : bool := negb (bool_decide (f = bytes_of_string "/foobar")).

Definition sample_needles : list Needle := [NEEDLE STRSTR (bytes_of_string "foo")].

Definition no_match (_ _ : bytes) : bool := false.

Lemma sample_blocks_ok : blocks_ok sample_get_block Some sample_groups.
Proof.
  split.
  - intros i g Hg. exists (join g). split; [|done]. unfold sample_get_block. rewrite Nat2Z.id.
    by rewrite Hg.
  - repeat (apply Forall_cons; split); [..|by apply Forall_nil]; (split; [done|]); (split; [|split; [vm_compute; reflexivity|cbn; lia]]);
      apply (bool_decide_unpack _); vm_compute; exact I.
  - cbn. lia.
Qed.

Definition sample_search : option SearchOutcome :=
  do_search_file sample_options no_match no_match (fun _ => true) sample_exists sample_get_block sample_get_block Some
    (Z.of_nat (length sample_groups)) sample_find sample_read true (reverse (parse_trigrams (bytes_of_string "foo")))
    reverse reverse ascii_locale 10 sample_needles.

Lemma search_exact_witness :
  search_result_ok
    (List.filter (wanted sample_options no_match no_match (fun _ => true) sample_exists sample_needles)
      (concat sample_groups)) sample_search /\
  List.filter (wanted sample_options no_match no_match (fun _ => true) sample_exists sample_needles) (concat sample_groups)
    = map bytes_of_string ["/a/food"%string; "/zip/foo1"%string] /\
  sample_search = Some (Found [EL 0 4294967296 (bytes_of_string "/a/food"); EL 4294967296 1 [];
                               EL 4294967297 4294967295 (bytes_of_string "/zip/foo1")] 2).
Proof.
  split; [|split; vm_compute; reflexivity]. unfold sample_search.
  apply (search_exact sample_options no_match no_match (fun _ => true) sample_exists sample_get_block sample_get_block Some sample_groups
    ascii_locale 10 sample_find sample_read sample_index (reverse (parse_trigrams (bytes_of_string "foo")))
    reverse reverse sample_needles).
  - split; exact sample_blocks_ok.
  - exact ascii_locale_ok.
  - right. apply Forall_singleton. split; [apply (bool_decide_unpack _); vm_compute; exact I|].
    cbn. split; [done|]. apply (bool_decide_unpack _). vm_compute. exact I.
  - intros l. apply reverse_Permutation.
  - intros l. apply reverse_Permutation.
  - intros gs Hgs. vm_compute in Hgs. injection Hgs as <-. apply (bool_decide_unpack _). vm_compute. exact I.
Defined.
