(* ===== verification/LinearScan.v ===== *)
(** * The linear scan and its threads (src/flocate.cpp)

    [scan_all_docids]: the main thread reads 32 blocks at a time into a work queue of at
    most 256 entries; worker threads take them and scan; the results wait in a queue
    of each worker until the main thread fetches them for the serializer.  A step is what
    a thread does while it holds a lock; threads sleep on condition variables until they
    are woken, and the scheduler chooses who goes next.  Each thread's own copy of the
    regexes matches like the first.  A result has a message if the name was counted; for
    an empty name, which [SearchFile.block_matched] counts too, it has none. *)
From S2P Require Import Prelude Serializer SearchFile.

(** ** States *)

(** A worker: in [queue_added.wait], about to look at the queue, scanning (the blocks
    left, and the results of the current one that are not yet printed), returned. *)
Inductive WState :=
| Asleep
| Awake
| Working (docids : list nat) (els : list Element)
| Gone.

Record Worker := WORKER { w_state : WState; w_results : list Element }.

(** The main thread: about to read the blocks from [io_docid] on, in [queue_removed.wait],
    about to pick up results, joining the workers from [i] on. *)
Inductive MState :=
| Feeding (io_docid : nat)
| Full (io_docid : nat)
| Delivering (io_docid : nat)
| Joining (i : nat).

Record Threads := THREADS {
  main : MState;
  work_queue : list (nat * nat);
  done : bool;
  workers : list Worker;
  serializer : Serializer;
  matched : Z
}.

(** The process may end: with an error, or when [apply_limit] exits. *)
Inductive State := Live (t : Threads) | Ended (code : Z) (out : list bytes).

Section Scan.
(** The results of scanning a block; [None] ends the process, in the model when a
    worker comes to the block. *)
Context (only_count : bool) (num_blocks : nat) (block_results : nat -> option (list Element)).

(** [io_docid] has 32 bits. *)
Definition next_io_docid (n : nat) : nat := Z.to_nat (u32 (Z.of_nat n + 32)).
Definition last_docid (n : nat) : nat := Z.to_nat (Z.min (u32 (Z.of_nat n + 32)) (Z.of_nat num_blocks)).

Definition wake_worker (w : Worker) : Worker :=
  match w_state w with Asleep => WORKER Awake (w_results w) | _ => w end.

(** [queue_removed.notify_all()]: the main thread is the only one to wait for it. *)
Definition wake_main (m : MState) : MState := match m with Full n => Feeding n | _ => m end.

Definition is_asleep (w : Worker) : bool := match w_state w with Asleep => true | _ => false end.

(** [notify_one]: a sleeper, if there is one. *)
Definition notify_one (ws ws' : list Worker) : Prop :=
  (existsb is_asleep ws = false /\ ws' = ws) \/
  exists k w, ws !! k = Some w /\ is_asleep w = true /\ ws' = <[k := wake_worker w]> ws.

Definition set_worker (k : nat) (w : Worker) (t : Threads) : Threads :=
  THREADS (main t) (work_queue t) (done t) (<[k := w]> (workers t)) (serializer t) (matched t).

(** [deliver_results], after which the main thread goes on with [m]. *)
Definition deliver_results (k : nat) (m : MState) (t : Threads) : option State :=
  w ← workers t !! k;
  Some match print_all only_count (w_results w) (serializer t) with
       | Running s => Live (THREADS m (work_queue t) (done t) (<[k := WORKER (w_state w) []]> (workers t)) s (matched t))
       | Serializer.Exited out => Ended 0 out
       end.

(** What a worker does between two locks, or with one. *)
Inductive worker_step (t : Threads) (k : nat) (results : list Element) : WState -> State -> Prop :=
| take_work first last queue : work_queue t = (first, last) :: queue ->
    worker_step t k results Awake
      (Live (THREADS (wake_main (main t)) queue (done t) (<[k := WORKER (Working (seq first (last - first)) []) results]> (workers t))
               (serializer t) (matched t)))
| wait_for_work : work_queue t = [] -> done t = false -> worker_step t k results Awake (Live (set_worker k (WORKER Asleep results) t))
| return_ : work_queue t = [] -> done t = true -> worker_step t k results Awake (Live (set_worker k (WORKER Gone results) t))
| next_block d docids els : block_results d = Some els ->
    worker_step t k results (Working (d :: docids) []) (Live (set_worker k (WORKER (Working docids els) results) t))
| block_fails d docids : block_results d = None -> worker_step t k results (Working (d :: docids) []) (Ended 1 (printed (serializer t)))
| print_result e docids els :
    worker_step t k results (Working docids (e :: els))
      (Live (THREADS (main t) (work_queue t) (done t) (<[k := WORKER (Working docids els) (receive results e)]> (workers t))
               (serializer t) (matched t + match msg e with [] => 0 | _ => 1 end)))
| back_to_queue : worker_step t k results (Working [] []) (Live (set_worker k (WORKER Awake results) t)).

Inductive main_step (t : Threads) : MState -> State -> Prop :=
| queue_blocks n ws : (n < num_blocks)%nat -> (length (work_queue t) < 256)%nat -> notify_one (workers t) ws ->
    main_step t (Feeding n) (Live (THREADS (Delivering n) (work_queue t ++ [(n, last_docid n)]) (done t) ws (serializer t) (matched t)))
| wait_for_room n : (n < num_blocks)%nat -> (256 <= length (work_queue t))%nat ->
    main_step t (Feeding n) (Live (THREADS (Full n) (work_queue t) (done t) (workers t) (serializer t) (matched t)))
| pick_up n s : deliver_results (n / 32 mod length (workers t)) (Feeding (next_io_docid n)) t = Some s -> main_step t (Delivering n) s
| no_more_blocks n : (num_blocks <= n)%nat ->
    main_step t (Feeding n) (Live (THREADS (Joining 0) (work_queue t) true (map wake_worker (workers t)) (serializer t) (matched t)))
| join i w s : workers t !! i = Some w -> w_state w = Gone -> deliver_results i (Joining (S i)) t = Some s -> main_step t (Joining i) s.

Inductive step : State -> State -> Prop :=
| by_worker t k w s : workers t !! k = Some w -> worker_step t k (w_results w) (w_state w) s -> step (Live t) s
| by_main t s : main_step t (main t) s -> step (Live t) s.

(** A condition variable may also wake a thread for no reason. *)
Inductive spurious : State -> State -> Prop :=
| wakes_worker t k w : workers t !! k = Some w -> spurious (Live t) (Live (set_worker k (wake_worker w) t))
| wakes_main t : spurious (Live t) (Live (THREADS (wake_main (main t)) (work_queue t) (done t) (workers t) (serializer t) (matched t))).

Definition step_any (s s' : State) : Prop := step s s' \/ spurious s s'.

Definition start_threads (num_threads : nat) (limit : Z) : State :=
  Live (THREADS (Feeding 0) [] false (repeat (WORKER Awake []) num_threads) (new_Serializer limit) 0).

(** All threads have been joined, or the process has ended. *)
Definition finished (s : State) : Prop :=
  match s with Live t => main t = Joining (length (workers t)) | Ended _ _ => True end.

End Scan.

(** ** Lists with one element replaced *)

Lemma sum_insert {A} (f : A -> nat) l k x y : l !! k = Some x -> (sum_list_with f (<[k := y]> l) + f x = sum_list_with f l + f y)%nat.
Proof.
  revert k. induction l as [|a l IH]; intros [|k] H; try done.
  - injection H as ->. cbn. lia.
  - change (<[S k := y]> (a :: l)) with (a :: <[k := y]> l). cbn [sum_list_with]. specialize (IH k H). lia.
Qed.

Lemma concat_insert {A} (ls : list (list A)) k x y : ls !! k = Some x -> exists rest,
  concat ls ≡ₚ x ++ rest /\ concat (<[k := y]> ls) ≡ₚ y ++ rest.
Proof.
  intros H. exists (concat (take k ls) ++ concat (drop (S k) ls)). pose proof (lookup_lt_Some _ _ _ H) as Hk. split.
  - rewrite <- (take_drop_middle ls k x H) at 1. rewrite concat_app. cbn [concat]. apply Permutation_app_swap_app.
  - rewrite insert_take_drop by done. rewrite concat_app. cbn [concat]. apply Permutation_app_swap_app.
Qed.

Lemma print_all_app only_count a b : forall s, print_all only_count (a ++ b) s =
  match print_all only_count a s with Running s' => print_all only_count b s' | Serializer.Exited out => Serializer.Exited out end.
Proof.
  induction a as [|e a IH]; intros s; cbn [app print_all]; [done|]. destruct (print only_count e s) as [s'|out]; [apply IH|done].
Qed.

Lemma collect_snoc raw e : collect (raw ++ [e]) = receive (collect raw) e.
Proof. unfold collect. by rewrite fold_left_app. Qed.

Lemma collect_nil raw : collect raw = [] -> raw = [].
Proof.
  destruct raw as [|e raw _] using rev_ind; [done|]. rewrite collect_snoc. unfold receive. intros H.
  destruct (msg e); [destruct (last _) as [b|]; [destruct (_ =? _)|]|]; by apply app_nil in H as [_ H].
Qed.

Section Run.
Context (only_count : bool) (num_blocks : nat) (block_results : nat -> option (list Element)) (limit : Z).
Context (Hnum : Z.of_nat num_blocks + 32 <= 2 ^ 32).

Lemma docids_of n : (n < num_blocks)%nat -> next_io_docid n = (n + 32)%nat /\ last_docid num_blocks n = Nat.min (n + 32) num_blocks.
Proof.
  intros H. unfold next_io_docid, last_docid. rewrite u32_small by (unfold is_u32; change (2 ^ 32) with 4294967296 in *; lia).
  split; lia.
Qed.

(** ** Every step gets closer to the end *)

Definition weight (d : nat) : nat := S (length (default [] (block_results d))).

Definition state_measure (s : WState) : nat :=
  match s with
  | Asleep => 1
  | Awake => 2
  | Working docids els => sum_list_with weight docids + length els + 3
  | Gone => 0
  end%nat.

Definition worker_measure (w : Worker) : nat := state_measure (w_state w).

Definition entry_measure (e : nat * nat) : nat := (sum_list_with weight (seq e.1 (e.2 - e.1)) + 3)%nat.

Definition to_feed (n : nat) : nat := sum_list_with (fun d => weight d + 6)%nat (seq n (num_blocks - n)).

Definition main_measure (num_threads : nat) (m : MState) : nat :=
  match m with
  | Feeding n => to_feed n + 2 * num_threads + 1
  | Full n => to_feed n + 2 * num_threads
  | Delivering n => to_feed (n + 32) + 2 * num_threads + 2
  | Joining i => num_threads - i
  end.

Definition measure (s : State) : nat :=
  match s with
  | Live t => main_measure (length (workers t)) (main t) + sum_list_with entry_measure (work_queue t) +
              sum_list_with worker_measure (workers t)
  | Ended _ _ => 0
  end.

Lemma to_feed_split n : (n < num_blocks)%nat -> (to_feed (n + 32) + entry_measure (n, last_docid num_blocks n) + 3 <= to_feed n)%nat.
Proof.
  intros H. destruct (docids_of n H) as [_ ->]. unfold to_feed, entry_measure. cbn [fst snd].
  set (k := (Nat.min (n + 32) num_blocks - n)%nat).
  assert (E : (num_blocks - n = k + (num_blocks - (n + 32)))%nat) by lia. rewrite E. rewrite seq_app, sum_list_with_app.
  assert (Hs : (sum_list_with (fun d => weight d + 6) (seq n k) = sum_list_with weight (seq n k) + 6 * k)%nat).
  { rewrite <- (length_seq k n) at 3. generalize (seq n k). intros l. clear. induction l as [|d l IH]; cbn [sum_list_with length]; lia. }
  rewrite Hs. assert (1 <= k)%nat by lia.
  assert (Hr : seq (n + k) (num_blocks - (n + 32)) = seq (n + 32) (num_blocks - (n + 32)) \/ (num_blocks - (n + 32) = 0)%nat) by
    (destruct (decide (n + 32 <= num_blocks)%nat); [left; f_equal; lia|right; lia]).
  destruct Hr as [-> | ->]; cbn [seq sum_list_with]; lia.
Qed.

Lemma wake_measure w : (worker_measure (wake_worker w) <= worker_measure w + 1)%nat.
Proof. unfold worker_measure, wake_worker. destruct (w_state w) eqn:E; cbn [w_state state_measure]; rewrite ?E; cbn [state_measure]; lia. Qed.

Lemma wake_all_measure ws : (sum_list_with worker_measure (map wake_worker ws) <= sum_list_with worker_measure ws + length ws)%nat.
Proof. induction ws as [|w ws IH]; cbn; [lia|]. pose proof (wake_measure w). lia. Qed.

Lemma notify_measure ws ws' : notify_one ws ws' ->
  length ws' = length ws /\ (sum_list_with worker_measure ws' <= sum_list_with worker_measure ws + 1)%nat.
Proof.
  intros [[_ ->]|(k & w & Hk & _ & ->)]; [split; [done|lia]|]. rewrite length_insert. split; [done|].
  pose proof (sum_insert worker_measure ws k w (wake_worker w) Hk). pose proof (wake_measure w). lia.
Qed.

Lemma deliver_shape k m t s : deliver_results only_count k m t = Some s ->
  (measure s <= main_measure (length (workers t)) m + sum_list_with entry_measure (work_queue t) + sum_list_with worker_measure (workers t))%nat.
Proof.
  unfold deliver_results. destruct (workers t !! k) as [w|] eqn:Hk; [|done]. cbn [mbind option_bind]. intros [= <-].
  destruct (print_all _ _ _) as [s|out]; cbn [measure main workers work_queue]; [|lia]. rewrite length_insert.
  pose proof (sum_insert worker_measure _ k w (WORKER (w_state w) []) Hk) as E.
  change (worker_measure (WORKER (w_state w) [])) with (worker_measure w) in E. lia.
Qed.

(** ** The invariant of the locks *)

Definition gone (w : Worker) : Prop := w_state w = Gone.

Record inv (t : Threads) : Prop := {
  v_threads : (0 < length (workers t))%nat;
  v_main : match main t with
           | Joining i => done t = true /\ (i <= length (workers t))%nat /\
               forall j w, (j < i)%nat -> workers t !! j = Some w -> gone w /\ w_results w = []
           | Feeding _ => done t = false
           | Full n => done t = false /\ (n < num_blocks)%nat /\ work_queue t <> []
           | Delivering n => done t = false /\ (n < num_blocks)%nat
           end;
  v_gone : forall k w, workers t !! k = Some w -> gone w -> work_queue t = [] /\ done t = true;
  v_asleep : forall k w, workers t !! k = Some w -> is_asleep w = true -> done t = false;
  v_wake : work_queue t <> [] -> exists k w, workers t !! k = Some w /\ is_asleep w = false;
  v_queue : Forall (fun e => e.2 <= num_blocks)%nat (work_queue t);
  v_docids : forall k w docids els, workers t !! k = Some w -> w_state w = Working docids els -> Forall (fun d => d < num_blocks)%nat docids
}.

Abbreviation step' := (step only_count num_blocks block_results).
Abbreviation worker_step' := (worker_step block_results).
Abbreviation main_step' := (main_step only_count num_blocks).

Lemma worker_decreases t k w s : workers t !! k = Some w -> worker_step' t k (w_results w) (w_state w) s -> (measure s < measure (Live t))%nat.
Proof.
  intros Hk H. assert (Hm : forall w', (sum_list_with worker_measure (<[k := w']> (workers t)) + state_measure (w_state w) =
    sum_list_with worker_measure (workers t) + state_measure (w_state w'))%nat) by (intros w'; by apply (sum_insert worker_measure)).
  inversion H as [first last queue Hq E|Hq Hd E|Hq Hd E|d docids els Hb E|d docids Hb E|e docids els E|E]; subst; rewrite <- E in Hm;
    cbn [measure main workers work_queue set_worker]; rewrite ?length_insert;
    try match goal with |- context [<[k := ?w']> (workers t)] => specialize (Hm w'); cbn [w_state state_measure length sum_list_with] in Hm end.
  - rewrite Hq. cbn [sum_list_with]. unfold entry_measure at 2. cbn [fst snd].
    assert (main_measure (length (workers t)) (wake_main (main t)) <= main_measure (length (workers t)) (main t) + 1)%nat
      by (destruct (main t); cbn [main_measure wake_main]; lia). lia.
  - lia.
  - lia.
  - unfold weight at 1 in Hm. rewrite Hb in Hm. change (default [] (Some els)) with els in Hm. lia.
  - specialize (Hm (WORKER Gone [])). cbn [w_state state_measure] in Hm. lia.
  - lia.
  - lia.
Qed.

Lemma main_decreases t s : inv t -> main_step' t (main t) s -> (measure s < measure (Live t))%nat.
Proof.
  intros Hi H. pose proof (v_threads t Hi) as HT. cbn [measure].
  inversion H as [n ws Hn Hq Hw E|n Hn Hq E|n s' Hd E|n Hn E|i w s' Hk Hg Hd E]; subst; cbn [measure main workers work_queue main_measure].
  - apply notify_measure in Hw as [Hl Hw]. rewrite Hl, sum_list_with_app. cbn [sum_list_with]. pose proof (to_feed_split n Hn). lia.
  - lia.
  - apply deliver_shape in Hd. pose proof (v_main t Hi) as Hm. rewrite <- E in Hm. destruct Hm as [_ Hn].
    destruct (docids_of n Hn) as [En _]. rewrite En in Hd. cbn [main_measure] in Hd. lia.
  - rewrite length_map. pose proof (wake_all_measure (workers t)). unfold to_feed. lia.
  - apply deliver_shape in Hd. cbn [main_measure] in Hd. apply lookup_lt_Some in Hk. lia.
Qed.

Lemma step_decreases t s : inv t -> step' (Live t) s -> (measure s < measure (Live t))%nat.
Proof. intros Hi H. inversion H; subst; [by eapply worker_decreases|by apply main_decreases]. Qed.

(** ** No thread waits for ever *)

Lemma worker_moves t k w : workers t !! k = Some w -> is_asleep w = false -> ~ gone w -> exists s, step' (Live t) s.
Proof.
  intros Hk Ha Hg. unfold is_asleep, gone in *. assert (H : exists s, worker_step' t k (w_results w) (w_state w) s).
  { destruct (w_state w) as [| |[|d docids] [|e els]|]; try done.
    - destruct (work_queue t) as [|[a b] q] eqn:Eq; [|eexists; by eapply take_work]. destruct (done t) eqn:Ed; eexists; [by apply return_|by apply wait_for_work].
    - eexists. apply back_to_queue.
    - eexists. apply print_result.
    - destruct (block_results d) eqn:Eb; eexists; [by apply next_block|by apply block_fails].
    - eexists. apply print_result. }
  destruct H as [s H]. exists s. by eapply by_worker.
Qed.

Lemma deliver_happens k m t : (k < length (workers t))%nat -> exists s, deliver_results only_count k m t = Some s.
Proof. intros H. unfold deliver_results. destruct (lookup_lt_is_Some_2 _ _ H) as [w ->]. by eexists. Qed.

Lemma step_possible t : inv t -> (exists s, step' (Live t) s) \/ finished (Live t).
Proof.
  intros Hi. pose proof (v_threads t Hi) as HT. pose proof (v_main t Hi) as Hm. destruct (main t) as [n|n|n|i] eqn:Em.
  - left. destruct (decide (n < num_blocks)%nat) as [Hn|Hn].
    + destruct (decide (length (work_queue t) < 256)%nat) as [Hq|Hq].
      * assert (Hnot : exists ws, notify_one (workers t) ws).
        { destruct (existsb is_asleep (workers t)) eqn:E; [|exists (workers t); by left]. apply existsb_exists in E as (w & Hin & Hw).
          apply list_elem_of_In, list_elem_of_lookup in Hin as [k Hk]. eexists. right. by exists k, w. }
        destruct Hnot as [ws Hws]. eexists. apply by_main. rewrite Em. by apply queue_blocks.
      * eexists. apply by_main. rewrite Em. apply wait_for_room; [done|lia].
    + eexists. apply by_main. rewrite Em. apply no_more_blocks. lia.
  - left. destruct Hm as (Hd & Hn & Hq). destruct (v_wake t Hi Hq) as (k & w & Hk & Ha). eapply worker_moves; [exact Hk|done|].
    intros Hg. destruct (v_gone t Hi k w Hk Hg). congruence.
  - left. destruct (deliver_happens (n / 32 mod length (workers t)) (Feeding (next_io_docid n)) t) as [s Hs]; [apply Nat.mod_upper_bound; lia|].
    exists s. apply by_main. rewrite Em. by apply pick_up.
  - destruct Hm as (Hd & Hle & _). destruct (decide (i = length (workers t))) as [->|Hne]; [right; exact Em|].
    left. destruct (lookup_lt_is_Some_2 (workers t) i ltac:(lia)) as [w Hw]. assert (gone w \/ ~ gone w) as [Hg|Hg] by (unfold gone; destruct (w_state w); auto).
    + destruct (deliver_happens i (Joining (S i)) t) as [s Hs]; [lia|]. exists s. apply by_main. rewrite Em. by eapply join.
    + eapply worker_moves; [exact Hw| |done]. destruct (is_asleep w) eqn:Ha; [|done]. by rewrite (v_asleep t Hi i w Hw Ha) in Hd.
Qed.

(** ** Keeping the invariant *)

Lemma inv_ext t s m : inv t -> inv (THREADS (main t) (work_queue t) (done t) (workers t) s m).
Proof. intros [? ? ? ? ? ? ?]. by split. Qed.

Lemma set_worker_inv t k w w' : inv t -> workers t !! k = Some w -> ~ gone w ->
  (gone w' -> work_queue t = [] /\ done t = true) -> (is_asleep w' = true -> work_queue t = [] /\ done t = false) ->
  (forall docids els, w_state w' = Working docids els -> Forall (fun d => d < num_blocks)%nat docids) -> inv (set_worker k w' t).
Proof.
  intros Hi Hk Hg Hgone Hsleep Hdoc. pose proof (lookup_lt_Some _ _ _ Hk) as Hlt.
  assert (Hlook : forall j v, <[k := w']> (workers t) !! j = Some v -> j = k /\ v = w' \/ j <> k /\ workers t !! j = Some v).
  { intros j v H. destruct (decide (j = k)) as [->|Hne]; [rewrite list_lookup_insert_eq in H by done; left; by injection H|].
    rewrite list_lookup_insert_ne in H by done. by right. }
  split; cbn [set_worker workers main work_queue done].
  - rewrite length_insert. apply Hi.
  - pose proof (v_main t Hi) as Hm. destruct (main t); try done. rewrite length_insert. destruct Hm as (Hd & Hle & Hall).
    split; [done|]. split; [done|]. intros j v Hj Hv. destruct (Hlook j v Hv) as [[-> ->]|[_ Hv']]; [|by eapply Hall].
    destruct (Hall k w Hj Hk) as [Hw _]. by destruct Hg.
  - intros j v Hv Hgv. destruct (Hlook j v Hv) as [[-> ->]|[_ Hv']]; [by apply Hgone|by eapply (v_gone t Hi)].
  - intros j v Hv Hs. destruct (Hlook j v Hv) as [[-> ->]|[_ Hv']]; [by apply Hsleep|by eapply (v_asleep t Hi)].
  - intros Hq. exists k, w'. split; [by apply list_lookup_insert_eq|]. destruct (is_asleep w') eqn:E; [|done]. by destruct (Hsleep eq_refl).
  - apply Hi.
  - intros j v docids els Hv Hw. destruct (Hlook j v Hv) as [[-> ->]|[_ Hv']]; [by eapply Hdoc|by eapply (v_docids t Hi)].
Qed.

Lemma pop_inv t e queue : inv t -> work_queue t = e :: queue ->
  inv (THREADS (wake_main (main t)) queue (done t) (workers t) (serializer t) (matched t)).
Proof.
  intros Hi Hq. split; cbn [workers main work_queue done]; try apply Hi.
  - pose proof (v_main t Hi) as Hm. destruct (main t); cbn [wake_main]; tauto.
  - intros k w Hk Hg. destruct (v_gone t Hi k w Hk Hg) as [H _]. by rewrite Hq in H.
  - intros _. apply (v_wake t Hi). by rewrite Hq.
  - pose proof (v_queue t Hi) as H. rewrite Hq in H. by apply Forall_cons in H as [_ H].
Qed.

Lemma worker_keeps t k w t' : inv t -> workers t !! k = Some w -> worker_step' t k (w_results w) (w_state w) (Live t') -> inv t'.
Proof.
  intros Hi Hk H. pose proof (v_docids t Hi k w) as Hdoc. specialize (fun docids els => Hdoc docids els Hk).
  assert (Hgw : forall s, s = w_state w -> s <> Gone -> ~ gone w) by (unfold gone; congruence).
  inversion H as [first last queue Hq E|Hq Hd E|Hq Hd E|d docids els Hb E|d docids Hb E|e docids els E|E]; subst;
    specialize (Hgw _ E ltac:(done)).
  - pose proof (v_queue t Hi) as F. rewrite Hq in F. apply Forall_cons in F as [F _]. cbn [snd] in F.
    apply (set_worker_inv _ k w _ (pop_inv t _ _ Hi Hq)); try done. intros docids els [= <- <-].
    apply Forall_forall. intros d Hin. apply elem_of_seq in Hin. lia.
  - by apply (set_worker_inv t k w).
  - by apply (set_worker_inv t k w).
  - apply (set_worker_inv t k w); try done. intros docids' els' [= <- <-]. symmetry in E. apply Hdoc in E. by apply Forall_cons in E as [_ E].
  - apply (inv_ext (set_worker k (WORKER (Working docids els) (receive (w_results w) e)) t)). apply (set_worker_inv t k w); try done.
    intros docids' els' [= <- <-]. symmetry in E. by apply Hdoc in E.
  - by apply (set_worker_inv t k w).
Qed.

Lemma notify_inv ws ws' : notify_one ws ws' -> (0 < length ws)%nat ->
  (exists k w, ws' !! k = Some w /\ is_asleep w = false) /\
  (forall k w, ws' !! k = Some w -> w_state w = Awake \/ ws !! k = Some w).
Proof.
  intros [[Hn ->]|(k & w & Hk & Ha & ->)] HT.
  - split; [|by right]. destruct ws as [|w ws]; [cbn in HT; lia|]. exists 0%nat, w. split; [done|]. cbn [existsb] in Hn. by apply orb_false_iff in Hn as [Hn _].
  - assert (Hw : w_state (wake_worker w) = Awake) by (unfold wake_worker, is_asleep in *; by destruct (w_state w)).
    pose proof (lookup_lt_Some _ _ _ Hk) as Hlt. split.
    + exists k, (wake_worker w). split; [by apply list_lookup_insert_eq|]. unfold is_asleep. by rewrite Hw.
    + intros j v Hv. destruct (decide (j = k)) as [->|Hne].
      * rewrite list_lookup_insert_eq in Hv by done. injection Hv as <-. by left.
      * rewrite list_lookup_insert_ne in Hv by done. by right.
Qed.

Lemma deliver_keeps k m t t' : inv t -> deliver_results only_count k m t = Some (Live t') ->
  (forall w, workers t !! k = Some w -> workers t' = <[k := WORKER (w_state w) []]> (workers t) ->
     match m with
     | Joining i => done t = true /\ (i <= length (workers t))%nat /\
         forall j w, (j < i)%nat -> workers t' !! j = Some w -> gone w /\ w_results w = []
     | Feeding _ => done t = false
     | _ => False
     end) -> inv t'.
Proof.
  intros Hi Hd Hm. unfold deliver_results in Hd. destruct (workers t !! k) as [w|] eqn:Hk; [|done]. cbn [mbind option_bind] in Hd.
  injection Hd as Hd. destruct (print_all _ _ _) as [s|out]; [|done]. injection Hd as <-. specialize (Hm w eq_refl eq_refl).
  pose proof (lookup_lt_Some _ _ _ Hk) as Hlt.
  assert (Hlook : forall j v, <[k := WORKER (w_state w) []]> (workers t) !! j = Some v -> exists u, workers t !! j = Some u /\ w_state u = w_state v).
  { intros j v H. destruct (decide (j = k)) as [->|Hne].
    - rewrite list_lookup_insert_eq in H by done. injection H as <-. by exists w.
    - rewrite list_lookup_insert_ne in H by done. by exists v. }
  split; cbn [workers main work_queue done] in *.
  - rewrite length_insert. apply Hi.
  - destruct m; try done. by rewrite length_insert.
  - intros j v Hv Hg. destruct (Hlook j v Hv) as (u & Hu & Es). apply (v_gone t Hi j u Hu). unfold gone. by rewrite Es.
  - intros j v Hv Hs. destruct (Hlook j v Hv) as (u & Hu & Es). apply (v_asleep t Hi j u Hu). unfold is_asleep in *. by rewrite Es.
  - intros Hq. destruct (v_wake t Hi Hq) as (j & v & Hv & Hs). destruct (decide (j = k)) as [->|Hne].
    + exists k, (WORKER (w_state w) []). split; [by apply list_lookup_insert_eq|]. rewrite Hk in Hv. injection Hv as ->. done.
    + exists j, v. split; [by rewrite list_lookup_insert_ne|done].
  - apply Hi.
  - intros j v docids els Hv Hw. destruct (Hlook j v Hv) as (u & Hu & Es). eapply (v_docids t Hi j u); [done|]. by rewrite Es.
Qed.

Lemma queue_blocks_keeps t n ws : inv t -> done t = false -> (n < num_blocks)%nat -> notify_one (workers t) ws ->
  inv (THREADS (Delivering n) (work_queue t ++ [(n, last_docid num_blocks n)]) (done t) ws (serializer t) (matched t)).
Proof.
  intros Hi Hd Hn Hw. pose proof (v_threads t Hi) as HT. destruct (notify_inv _ _ Hw HT) as [Hwake Hold]. apply notify_measure in Hw as [Hl _].
  split; cbn [workers main work_queue done]; try done.
  - by rewrite Hl.
  - intros k w Hk Hg. destruct (Hold k w Hk) as [E|E]; [unfold gone in Hg; congruence|]. destruct (v_gone t Hi k w E Hg). congruence.
  - apply Forall_app. split; [apply Hi|]. apply Forall_singleton. cbn [snd]. destruct (docids_of n Hn) as [_ ->]. lia.
  - intros k w docids els Hk E. destruct (Hold k w Hk) as [E'|E']; [congruence|]. by eapply (v_docids t Hi).
Qed.

Lemma wake_all_inv t : inv t -> inv (THREADS (Joining 0) (work_queue t) true (map wake_worker (workers t)) (serializer t) (matched t)).
Proof.
  intros Hi. assert (Hlook : forall k w, map wake_worker (workers t) !! k = Some w ->
    is_asleep w = false /\ (w_state w = Awake \/ workers t !! k = Some w)).
  { intros k w H. change (map wake_worker (workers t)) with (wake_worker <$> workers t) in H. apply list_lookup_fmap_Some in H as (v & -> & Hv).
    unfold wake_worker, is_asleep. destruct (w_state v) eqn:E; cbn [w_state]; rewrite ?E; auto. }
  split; cbn [workers main work_queue done].
  - rewrite length_map. apply Hi.
  - split; [done|]. split; [lia|]. intros j w H. lia.
  - intros k w Hk Hg. destruct (Hlook k w Hk) as [_ [E|E]]; [unfold gone in Hg; congruence|]. by destruct (v_gone t Hi k w E Hg).
  - intros k w Hk Ha. destruct (Hlook k w Hk) as [E _]. congruence.
  - intros _. pose proof (v_threads t Hi) as HT. destruct (lookup_lt_is_Some_2 (map wake_worker (workers t)) 0) as [w Hw]; [by rewrite length_map|].
    exists 0%nat, w. split; [done|]. by destruct (Hlook _ _ Hw).
  - apply Hi.
  - intros k w docids els Hk E. destruct (Hlook k w Hk) as [_ [E'|E']]; [congruence|]. by eapply (v_docids t Hi).
Qed.

Lemma main_keeps t t' : inv t -> main_step' t (main t) (Live t') -> inv t'.
Proof.
  intros Hi H. pose proof (v_main t Hi) as Hm. inversion H as [n ws Hn Hq Hw E|n Hn Hq E|n s' Hd E|n Hn E|i w s' Hk Hg Hd E]; subst; rewrite <- E in Hm.
  - by apply queue_blocks_keeps.
  - split; cbn [workers main work_queue done]; try apply Hi. split; [done|]. split; [done|]. intros Hnil. rewrite Hnil in Hq. cbn in Hq. lia.
  - eapply deliver_keeps; [exact Hi|exact Hd|]. intros w Hk _. cbn. by destruct Hm.
  - by apply wake_all_inv.
  - eapply deliver_keeps; [exact Hi|exact Hd|]. intros v Hv ->. cbn. destruct Hm as (Hdone & Hle & Hall).
    pose proof (lookup_lt_Some _ _ _ Hk) as Hlt. split; [done|]. split; [lia|]. intros j u Hj Hu. rewrite Hk in Hv. injection Hv as ->.
    destruct (decide (j = i)) as [->|Hne].
    + rewrite list_lookup_insert_eq in Hu by done. by injection Hu as <-.
    + rewrite list_lookup_insert_ne in Hu by done. apply (Hall j u); [lia|done].
Qed.

Lemma spurious_keeps t t' : inv t -> spurious (Live t) (Live t') -> inv t'.
Proof.
  intros Hi H. inversion H as [t0 k w Hk|t0]; subst.
  - destruct (is_asleep w) eqn:Ha.
    + apply (set_worker_inv t k w); try done; unfold gone, is_asleep, wake_worker in *; by destruct (w_state w).
    + assert (E : wake_worker w = w) by (unfold wake_worker, is_asleep in *; by destruct (w_state w)).
      rewrite E. unfold set_worker. rewrite list_insert_id by done. by apply inv_ext.
  - split; cbn [workers main work_queue done]; try apply Hi. pose proof (v_main t Hi) as Hm. destruct (main t); cbn [wake_main]; tauto.
Qed.

Lemma start_threads_inv num_threads : (0 < num_threads)%nat ->
  inv (THREADS (Feeding 0) [] false (repeat (WORKER Awake []) num_threads) (new_Serializer limit) 0).
Proof.
  intros H. assert (Hrep : forall k w, repeat (WORKER Awake []) num_threads !! k = Some w -> w = WORKER Awake []).
  { intros k w Hk. apply list_elem_of_lookup_2, list_elem_of_In in Hk. by apply repeat_spec in Hk. }
  split; cbn [workers main work_queue done]; try done.
  - by rewrite repeat_length.
  - intros k w Hk Hg. by apply Hrep in Hk as ->.
  - intros k w docids els Hk E. by apply Hrep in Hk as ->.
Qed.

Lemma step_keeps t t' : inv t -> step' (Live t) (Live t') -> inv t'.
Proof. intros Hi H. inversion H; subst; [by eapply worker_keeps|by eapply main_keeps]. Qed.

(** ** No result is lost *)

Definition results_of (docids : list nat) : list Element := concat (map (fun d => default [] (block_results d)) docids).

(** What a worker has still to print of the work it took. *)
Definition pending_of (w : Worker) : list Element :=
  match w_state w with Working docids els => els ++ results_of docids | _ => [] end.

Definition queued (e : nat * nat) : list Element := results_of (seq e.1 (e.2 - e.1)).

Definition unread (m : MState) : list Element :=
  match m with
  | Feeding n | Full n => results_of (seq n (num_blocks - n))
  | Delivering n => results_of (seq (n + 32) (num_blocks - (n + 32)))
  | Joining _ => []
  end.

Definition total : list Element := results_of (seq 0 num_blocks).

(** What has not been printed by any worker. *)
Definition to_print (t : Threads) : list Element :=
  concat (map pending_of (workers t)) ++ concat (map queued (work_queue t)) ++ unread (main t).

(** [segments] have been delivered, [raws] wait in the queues of the workers, one each. *)
Record data_ok (t : Threads) (segments raws : list (list Element)) : Prop := {
  o_results : map w_results (workers t) = map collect raws;
  o_printed : print_all only_count (concat (map collect segments)) (new_Serializer limit) = Running (serializer t);
  o_total : concat segments ++ concat raws ++ to_print t ≡ₚ total;
  o_matched : matched t = count_matched (concat segments ++ concat raws)
}.

(** What may have come out when the process ends: all results arrived, or fewer
    than all but the output was complete. *)
Definition state_ok (s : State) : Prop :=
  match s with
  | Live t => inv t /\ exists segments raws, data_ok t segments raws
  | Ended 0 out => exists segments, concat segments ≡ₚ total /\
      print_all only_count (concat (map collect segments)) (new_Serializer limit) = Serializer.Exited out
  | Ended _ _ => exists d, (d < num_blocks)%nat /\ block_results d = None
  end.

Lemma results_of_app a b : results_of (a ++ b) = results_of a ++ results_of b.
Proof. unfold results_of. by rewrite List.map_app, concat_app. Qed.

Lemma map_insert {A B} (f : A -> B) k x l : map f (<[k := x]> l) = <[k := f x]> (map f l).
Proof. apply list_fmap_insert. Qed.

Lemma count_app a b : count_matched (a ++ b) = count_matched a + count_matched b.
Proof. unfold count_matched. rewrite messages_app, length_app. lia. Qed.

Lemma count_perm a b : a ≡ₚ b -> count_matched a = count_matched b.
Proof. intros H. unfold count_matched. by rewrite (messages_perm_length _ _ H). Qed.

Lemma fold_collect out r : fold_left receive out (collect r) = collect (r ++ out).
Proof. unfold collect. by rewrite fold_left_app. Qed.

Lemma raw_of t segments raws k w : data_ok t segments raws -> workers t !! k = Some w ->
  exists r, raws !! k = Some r /\ collect r = w_results w.
Proof.
  intros Ho Hk. assert (E : map collect raws !! k = Some (w_results w)) by (rewrite <- (o_results _ _ _ Ho); by apply list_lookup_fmap_Some_2).
  apply list_lookup_fmap_Some in E as (r & -> & Hr). by exists r.
Qed.

(** A worker prints [out], and takes from the queue or not. *)
Lemma worker_data t k w w' segments raws out m queue flag : data_ok t segments raws -> workers t !! k = Some w ->
  w_results w' = fold_left receive out (w_results w) ->
  out ++ pending_of w' ++ concat (map queued queue) ++ unread m ≡ₚ pending_of w ++ concat (map queued (work_queue t)) ++ unread (main t) ->
  exists raws', data_ok (THREADS m queue flag (<[k := w']> (workers t)) (serializer t) (matched t + count_matched out)) segments raws'.
Proof.
  intros Ho Hk Hw P. destruct (raw_of _ _ _ _ _ Ho Hk) as (r & Hr & Ec).
  destruct (concat_insert raws k r (r ++ out) Hr) as (rest & R1 & R2).
  destruct (concat_insert (map pending_of (workers t)) k (pending_of w) (pending_of w')) as (todo & T1 & T2); [by apply list_lookup_fmap_Some_2|].
  exists (<[k := r ++ out]> raws). split; cbn [workers serializer matched].
  - rewrite !map_insert, (o_results _ _ _ Ho), Hw, <- fold_collect. by rewrite Ec.
  - apply Ho.
  - rewrite <- (o_total _ _ _ Ho). unfold to_print. cbn [workers work_queue main]. rewrite map_insert, T1, T2, R1, R2.
    transitivity (concat segments ++ r ++ rest ++ todo ++ out ++ pending_of w' ++ concat (map queued queue) ++ unread m); [solve_Permutation|].
    rewrite P. solve_Permutation.
  - rewrite (o_matched _ _ _ Ho), <- count_app. apply count_perm. rewrite R1, R2. solve_Permutation.
Qed.

(** The main thread delivers the results of worker [k]. *)
Lemma deliver_data t k m segments raws s : data_ok t segments raws -> unread m ≡ₚ unread (main t) ->
  deliver_results only_count k m t = Some s ->
  match s with
  | Live t' => exists segments' raws', data_ok t' segments' raws'
  | Ended code out => code = 0 /\ exists segments', concat segments' ≡ₚ total /\
      print_all only_count (concat (map collect segments')) (new_Serializer limit) = Serializer.Exited out
  end.
Proof.
  intros Ho Hm Hd. unfold deliver_results in Hd. destruct (workers t !! k) as [w|] eqn:Hk; [|done]. cbn [mbind option_bind] in Hd. injection Hd as <-.
  destruct (raw_of _ _ _ _ _ Ho Hk) as (r & Hr & Ec). destruct (concat_insert raws k r [] Hr) as (rest & R1 & R2). cbn [app] in R2.
  pose proof (o_total _ _ _ Ho) as Htot. rewrite R1 in Htot.
  assert (Hall : forall more, print_all only_count (concat (map collect (segments ++ r :: more))) (new_Serializer limit) =
    match print_all only_count (w_results w) (serializer t) with
    | Running s => print_all only_count (concat (map collect more)) s | Serializer.Exited out => Serializer.Exited out end).
  { intros more. rewrite List.map_app, concat_app, print_all_app, (o_printed _ _ _ Ho). cbn [map concat]. by rewrite print_all_app, Ec. }
  destruct (print_all only_count (w_results w) (serializer t)) as [s|out].
  - exists (segments ++ [r]), (<[k := []]> raws). split; cbn [workers serializer matched].
    + rewrite !map_insert, (o_results _ _ _ Ho). done.
    + by rewrite Hall.
    + rewrite <- Htot. unfold to_print. cbn [workers work_queue main]. rewrite map_insert, R2, Hm, concat_app. cbn [concat].
      rewrite list_insert_id by (by apply list_lookup_fmap_Some_2 with (f := pending_of) in Hk). solve_Permutation.
    + rewrite (o_matched _ _ _ Ho). apply count_perm. rewrite R1, R2, concat_app. cbn [concat]. solve_Permutation.
  - split; [done|]. exists (segments ++ [r; rest ++ to_print t]). split; [|by rewrite Hall].
    rewrite <- Htot, concat_app. cbn [concat]. solve_Permutation.
Qed.

Lemma worker_takes t k w w' segments raws m queue flag : data_ok t segments raws -> workers t !! k = Some w -> w_results w' = w_results w ->
  pending_of w' ++ concat (map queued queue) ++ unread m ≡ₚ pending_of w ++ concat (map queued (work_queue t)) ++ unread (main t) ->
  exists raws', data_ok (THREADS m queue flag (<[k := w']> (workers t)) (serializer t) (matched t)) segments raws'.
Proof. intros Ho Hk Hw P. rewrite <- (Z.add_0_r (matched t)). by apply (worker_data t k w w' segments raws [] m queue flag). Qed.

Lemma worker_ok t k w s : state_ok (Live t) -> workers t !! k = Some w -> worker_step' t k (w_results w) (w_state w) s -> state_ok s.
Proof.
  intros [Hi (segments & raws & Ho)] Hk H.
  assert (Hlive : forall t', s = Live t' -> (exists raws', data_ok t' segments raws') -> state_ok s).
  { intros t' -> [raws' Ho']. split; [by eapply worker_keeps|by exists segments, raws']. }
  assert (Hp : forall st, st = w_state w -> pending_of w = match st with Working docids els => els ++ results_of docids | _ => [] end)
    by (unfold pending_of; by intros ? ->).
  inversion H as [first last queue Hq E|Hq Hd E|Hq Hd E|d docids els Hb E|d docids Hb E|e docids els E|E]; subst;
    specialize (Hp _ E); try (eapply Hlive; [reflexivity|]; unfold set_worker).
  - apply (worker_takes t k w _ segments raws); [done|done|done|]. rewrite Hp, Hq. cbn [map concat app pending_of w_state].
    unfold queued at 2. cbn [fst snd]. assert (Hu : unread (wake_main (main t)) = unread (main t)) by by destruct (main t).
    rewrite Hu. solve_Permutation.
  - apply (worker_takes t k w _ segments raws); [done|done|done|]. by rewrite Hp.
  - apply (worker_takes t k w _ segments raws); [done|done|done|]. by rewrite Hp.
  - apply (worker_takes t k w _ segments raws); [done|done|done|]. rewrite Hp. cbn [pending_of w_state app]. unfold results_of at 2. cbn [map concat].
    rewrite Hb. change (default [] (Some els)) with els. unfold results_of. solve_Permutation.
  - exists d. split; [|done]. symmetry in E. pose proof (v_docids t Hi k w _ _ Hk E) as F. by apply Forall_cons in F as [F _].
  - assert (Hc : match msg e with [] => 0 | _ => 1 end = count_matched [e])
      by (unfold count_matched, messages; cbn [map]; destruct (msg e); [done|]; by rewrite filter_cons_True by done).
    rewrite Hc. apply (worker_data t k w _ segments raws [e]); [done|done|done|]. rewrite Hp. cbn [pending_of w_state app]. solve_Permutation.
  - apply (worker_takes t k w _ segments raws); [done|done|done|]. by rewrite Hp.
Qed.

Lemma woken_data ws ws' : ws' = ws \/ (exists k w, ws !! k = Some w /\ ws' = <[k := wake_worker w]> ws) \/ ws' = map wake_worker ws ->
  map w_results ws' = map w_results ws /\ map pending_of ws' = map pending_of ws.
Proof.
  assert (Hr : forall w, w_results (wake_worker w) = w_results w) by (intros w; unfold wake_worker; by destruct (w_state w)).
  assert (Hp : forall w, pending_of (wake_worker w) = pending_of w) by (intros w; unfold pending_of, wake_worker; by destruct (w_state w) eqn:E; rewrite ?E).
  intros [-> |[(k & w & Hk & ->)| ->]]; [done| |].
  - rewrite !map_insert, Hr, Hp, !list_insert_id; [done| |]; by apply list_lookup_fmap_Some_2.
  - rewrite !map_map. split; by apply map_ext.
Qed.

(** The threads that sleep are woken, and the main thread goes on. *)
Lemma woken_ok t segments raws ws m queue flag : data_ok t segments raws ->
  ws = workers t \/ (exists k w, workers t !! k = Some w /\ ws = <[k := wake_worker w]> (workers t)) \/ ws = map wake_worker (workers t) ->
  concat (map queued queue) ++ unread m ≡ₚ concat (map queued (work_queue t)) ++ unread (main t) ->
  data_ok (THREADS m queue flag ws (serializer t) (matched t)) segments raws.
Proof.
  intros Ho Hws P. apply woken_data in Hws as [Hr Hp]. split; cbn [workers serializer matched]; try apply Ho.
  - rewrite Hr. apply Ho.
  - rewrite <- (o_total _ _ _ Ho). unfold to_print. cbn [workers work_queue main]. rewrite Hp. by rewrite P.
Qed.

Lemma feed_split n : (n < num_blocks)%nat -> unread (Feeding n) = queued (n, last_docid num_blocks n) ++ unread (Delivering n).
Proof.
  intros H. destruct (docids_of n H) as [_ E]. unfold queued. rewrite E. cbn [unread fst snd]. rewrite <- results_of_app. f_equal.
  destruct (decide (n + 32 <= num_blocks)%nat).
  - replace (num_blocks - n)%nat with (Nat.min (n + 32) num_blocks - n + (num_blocks - (n + 32)))%nat by lia. rewrite seq_app. f_equal. f_equal. lia.
  - replace (num_blocks - (n + 32))%nat with 0%nat by lia. cbn [seq]. rewrite app_nil_r. f_equal. lia.
Qed.

Lemma deliver_ok t k m s : state_ok (Live t) -> unread m ≡ₚ unread (main t) -> deliver_results only_count k m t = Some s ->
  (forall t', s = Live t' -> inv t') -> state_ok s.
Proof.
  intros [Hi (segments & raws & Ho)] Hm Hd Hk. pose proof (deliver_data t k m segments raws s Ho Hm Hd) as H.
  destruct s as [t'|code out]; [split; [by apply Hk|done]|]. by destruct H as [-> H].
Qed.

Lemma main_ok t s : state_ok (Live t) -> main_step' t (main t) s -> state_ok s.
Proof.
  intros Hs H. pose proof Hs as [Hi (segments & raws & Ho)]. pose proof (v_main t Hi) as Hm.
  assert (Hkeep : forall t', s = Live t' -> inv t') by (intros t' ->; by eapply main_keeps).
  assert (Hlive : forall t', s = Live t' -> data_ok t' segments raws -> state_ok s).
  { intros t' -> Ho'. split; [by apply Hkeep|by exists segments, raws]. }
  inversion H as [n ws Hn Hq Hw E|n Hn Hq E|n s' Hd E|n Hn E|i w s' Hk Hg Hd E]; subst; rewrite <- E in Hm.
  - eapply Hlive; [reflexivity|]. apply woken_ok; [done| |].
    + destruct Hw as [[_ ->]|(k & w & Hk & _ & ->)]; [by left|right; left; by exists k, w].
    + rewrite <- E, (feed_split n Hn), List.map_app, concat_app. cbn [map concat]. solve_Permutation.
  - eapply Hlive; [reflexivity|]. apply woken_ok; [done|by left|]. by rewrite <- E.
  - apply (deliver_ok t _ _ _ Hs) in Hd; [done| |done]. rewrite <- E. destruct Hm as [_ Hn]. by destruct (docids_of n Hn) as [-> _].
  - eapply Hlive; [reflexivity|]. apply woken_ok; [done|by right; right|]. rewrite <- E. cbn [unread].
    by replace (num_blocks - n)%nat with 0%nat by lia.
  - apply (deliver_ok t _ _ _ Hs) in Hd; [done| |done]. by rewrite <- E.
Qed.

Lemma step_ok s s' : state_ok s -> step' s s' -> state_ok s'.
Proof. intros Hs H. inversion H; subst; [by eapply worker_ok|by eapply main_ok]. Qed.

Lemma spurious_ok s s' : state_ok s -> spurious s s' -> state_ok s'.
Proof.
  intros Hs H. inversion H as [t k w Hk|t]; subst; pose proof Hs as [Hi (segments & raws & Ho)];
    (split; [by eapply spurious_keeps|]); exists segments, raws; unfold set_worker; apply woken_ok; try done.
  - right. left. by exists k, w.
  - by left.
  - by destruct (main t).
Qed.

Lemma start_ok num_threads : (0 < num_threads)%nat -> state_ok (start_threads num_threads limit).
Proof.
  intros H. split; [by apply start_threads_inv|]. exists [], (repeat [] num_threads). split; cbn [workers serializer matched map concat print_all]; [| | |].
  - by rewrite !map_repeat.
  - done.
  - unfold to_print. cbn [workers work_queue main map concat app unread].
    assert (E : forall A n, concat (repeat (@nil A) n) = []) by (intros A n; induction n; cbn; auto).
    rewrite map_repeat. cbn [pending_of w_state]. rewrite !E. cbn [app]. by replace (num_blocks - 0)%nat with num_blocks by lia.
  - assert (E : forall n, concat (repeat (@nil Element) n) = []) by (intros n; induction n; cbn; auto). by rewrite E.
Qed.

Lemma reachable_ok num_threads s : (0 < num_threads)%nat ->
  rtc (step_any only_count num_blocks block_results) (start_threads num_threads limit) s -> state_ok s.
Proof.
  intros HT H. pose proof (start_ok num_threads HT) as Hs. induction H as [s|s s1 s2 H _ IH]; [done|].
  apply IH. destruct H as [H|H]; [by eapply step_ok|by eapply spurious_ok].
Qed.

(** ** The end *)

Lemma no_endless_run s : state_ok s -> Acc (fun s2 s1 => step' s1 s2) s.
Proof.
  remember (measure s) as n eqn:En. revert s En. induction (lt_wf n) as [n _ IH]. intros s -> Hs. constructor. intros s' H.
  apply (IH (measure s')); [|done|by eapply step_ok]. destruct s as [t|code out]; [|by inversion H]. apply step_decreases; [|done]. by destruct Hs.
Qed.

Lemma all_collected t segments raws : inv t -> data_ok t segments raws -> main t = Joining (length (workers t)) -> concat raws = [] /\ to_print t = [].
Proof.
  intros Hi Ho Em. pose proof (v_main t Hi) as Hm. rewrite Em in Hm. destruct Hm as (_ & _ & Hall).
  assert (F : Forall (fun w => gone w /\ w_results w = []) (workers t)).
  { apply Forall_lookup. intros j w Hw. apply (Hall j w); [by apply lookup_lt_Some in Hw|done]. }
  split.
  - pose proof (o_results _ _ _ Ho) as E. clear Ho Hall Em Hi. revert raws E. induction F as [|w ws [_ Hw] _ IH]; intros [|r raws] E; try done.
    cbn [map] in E. injection E as E1 E2. rewrite Hw in E1. cbn [concat]. rewrite (collect_nil r) by done. by apply IH.
  - destruct (lookup_lt_is_Some_2 (workers t) 0 (v_threads t Hi)) as [w Hw]. destruct (proj1 (Forall_lookup _ _) F _ _ Hw) as [Hg _].
    destruct (v_gone t Hi _ _ Hw Hg) as [Hq _]. unfold to_print. rewrite Hq, Em. cbn [map concat app unread]. rewrite app_nil_r.
    clear - F. induction F as [|v ws [Hv _] _ IH]; [done|]. cbn [map concat]. rewrite IH. unfold pending_of. by rewrite Hv.
Qed.

Lemma finished_ok s : state_ok s -> finished s ->
  match s with
  | Live t => matched t = count_matched total /\ exists segments, concat segments ≡ₚ total /\
      print_all only_count (concat (map collect segments)) (new_Serializer limit) = Running (serializer t)
  | Ended 0 out => exists segments, concat segments ≡ₚ total /\
      print_all only_count (concat (map collect segments)) (new_Serializer limit) = Serializer.Exited out
  | Ended _ _ => exists d, (d < num_blocks)%nat /\ block_results d = None
  end.
Proof.
  destruct s as [t|code out]; [|done]. intros [Hi (segments & raws & Ho)] Hf. destruct (all_collected t segments raws Hi Ho Hf) as [Hr Hp].
  pose proof (o_total _ _ _ Ho) as Ht. pose proof (o_matched _ _ _ Ho) as Hm. rewrite Hr, ?Hp, !app_nil_r in *.
  split; [rewrite Hm; by apply count_perm|]. exists segments. split; [done|apply Ho].
Qed.

End Run.

(** ** The scan of a database *)

Section Database.
Context (opt : Options) (fnmatch regexec : bytes -> bytes -> bool) (visible lstat : bytes -> bool).
Context (scanned_block : Z -> option bytes) (zstd_decompress : bytes -> option bytes) (needles : list Needle).

(** What the thread that has the block [docid] prints. *)
Definition scan_block (docid : nat) : option (list Element) :=
  compressed ← scanned_block (Z.of_nat docid);
  scan_file_block opt fnmatch regexec visible lstat zstd_decompress needles compressed (Z.of_nat docid).

Abbreviation scan_from := (scan_docids_from opt fnmatch regexec visible lstat zstd_decompress scanned_block needles).

Lemma scan_blocks_total k : forall n els, scan_from (Z.of_nat n) (map Z.of_nat (seq n k)) = Some els ->
  results_of scan_block (seq n k) = els /\ forall d, (n <= d < n + k)%nat -> scan_block d <> None.
Proof.
  induction k as [|k IH]; intros n els H; cbn [seq map scan_docids_from] in H; [injection H as <-; split; [done|lia]|].
  destruct (scanned_block (Z.of_nat n)) as [c|] eqn:Ec; [|done]. cbn [mbind option_bind] in H.
  destruct (scan_file_block _ _ _ _ _ _ _ c _) as [results|] eqn:Es; [|done]. cbn [mbind option_bind] in H.
  replace (Z.of_nat n + 1) with (Z.of_nat (S n)) in H by lia.
  destruct (scan_from _ _) as [rest|] eqn:Er; [|done]. injection H as <-.
  assert (Hn : scan_block n = Some results) by (unfold scan_block; by rewrite Ec).
  destruct (IH (S n) rest Er) as [<- Hall]. split; [unfold results_of; cbn [seq map concat]; by rewrite Hn|].
  intros d Hd. destruct (decide (d = n)) as [->|]; [by rewrite Hn|apply Hall; lia].
Qed.

End Database.

(** ** Runs that can be evaluated: a schedule says which thread goes next *)

Section Schedule.
Context (only_count : bool) (num_blocks : nat) (block_results : nat -> option (list Element)).

Definition worker_next (t : Threads) (k : nat) (w : Worker) : option State :=
  let go w' := Some (Live (set_worker k w' t)) in
  match w_state w with
  | Awake =>
    match work_queue t with
    | (first, last) :: queue =>
      Some (Live (THREADS (wake_main (main t)) queue (done t) (<[k := WORKER (Working (seq first (last - first)) []) (w_results w)]> (workers t))
                    (serializer t) (matched t)))
    | [] => go (WORKER (if done t then Gone else Asleep) (w_results w))
    end
  | Working (d :: docids) [] =>
    match block_results d with Some els => go (WORKER (Working docids els) (w_results w)) | None => Some (Ended 1 (printed (serializer t))) end
  | Working docids (e :: els) =>
    Some (Live (THREADS (main t) (work_queue t) (done t) (<[k := WORKER (Working docids els) (receive (w_results w) e)]> (workers t))
                  (serializer t) (matched t + match msg e with [] => 0 | _ => 1 end)))
  | Working [] [] => go (WORKER Awake (w_results w))
  | Asleep | Gone => None
  end.

(** The first sleeper is notified. *)
Fixpoint notify_first (ws : list Worker) : list Worker :=
  match ws with
  | [] => []
  | w :: ws => if is_asleep w then wake_worker w :: ws else w :: notify_first ws
  end.

Definition main_next (t : Threads) : option State :=
  match main t with
  | Feeding n =>
    Some (Live (if (num_blocks <=? n)%nat then THREADS (Joining 0) (work_queue t) true (map wake_worker (workers t)) (serializer t) (matched t)
                else if (256 <=? length (work_queue t))%nat then THREADS (Full n) (work_queue t) (done t) (workers t) (serializer t) (matched t)
                else THREADS (Delivering n) (work_queue t ++ [(n, last_docid num_blocks n)]) (done t) (notify_first (workers t)) (serializer t) (matched t)))
  | Full _ => None
  | Delivering n => deliver_results only_count (n / 32 mod length (workers t)) (Feeding (next_io_docid n)) t
  | Joining i =>
    w ← workers t !! i;
    match w_state w with Gone => deliver_results only_count i (Joining (S i)) t | _ => None end
  end.

(** [None] stands for the main thread. *)
Definition thread_next (who : option nat) (s : State) : option State :=
  match s, who with
  | Ended _ _, _ => None
  | Live t, None => main_next t
  | Live t, Some k => w ← workers t !! k; worker_next t k w
  end.

Fixpoint run_threads (schedule : list (option nat)) (s : State) : option State :=
  match schedule with
  | [] => Some s
  | who :: schedule => s' ← thread_next who s; run_threads schedule s'
  end.

Lemma notify_first_ok ws : notify_one ws (notify_first ws).
Proof.
  induction ws as [|w ws IH]; [by left|]. cbn [notify_first]. destruct (is_asleep w) eqn:Ha.
  - right. by exists 0%nat, w.
  - destruct IH as [[H1 H2]|(k & v & Hk & Hv & E)]; [left; cbn [existsb]; rewrite Ha; by rewrite H2|].
    right. exists (S k), v. rewrite E. done.
Qed.

Lemma thread_next_step who s s' : thread_next who s = Some s' -> step only_count num_blocks block_results s s'.
Proof.
  destruct s as [t|]; [|done]. destruct who as [k|]; cbn [thread_next].
  - destruct (workers t !! k) as [w|] eqn:Hk; [|done]. cbn [mbind option_bind]. intros H. eapply by_worker; [done|]. unfold worker_next in H.
    destruct (w_state w) as [| |[|d docids] [|e els]|] eqn:E; try done; try (injection H as <-; by constructor).
    + destruct (work_queue t) as [|[a b] queue] eqn:Eq; [|injection H as <-; by apply take_work].
      destruct (done t) eqn:Ed; injection H as <-; [by apply return_|by apply wait_for_work].
    + destruct (block_results d) eqn:Eb; injection H as <-; [by apply next_block|by apply block_fails].
  - intros H. apply by_main. unfold main_next in H. destruct (main t) as [n|n|n|i] eqn:Em; [|done| |].
    + destruct (Nat.leb_spec num_blocks n); [injection H as <-; by apply no_more_blocks|].
      destruct (Nat.leb_spec 256 (length (work_queue t))); injection H as <-; [by apply wait_for_room|].
      apply queue_blocks; [done|lia|apply notify_first_ok].
    + by apply pick_up.
    + destruct (workers t !! i) as [w|] eqn:Hk; [|done]. cbn [mbind option_bind] in H. destruct (w_state w) eqn:E; try done.
      by apply (join _ _ _ i w).
Qed.

Lemma run_threads_steps schedule : forall s s', run_threads schedule s = Some s' -> rtc (step_any only_count num_blocks block_results) s s'.
Proof.
  induction schedule as [|who schedule IH]; intros s s' H; cbn [run_threads] in H; [injection H as <-; constructor|].
  destruct (thread_next who s) as [s1|] eqn:E; [|done]. cbn [mbind option_bind] in H.
  eapply rtc_l; [left; by eapply thread_next_step|by apply IH].
Qed.

End Schedule.

(** ** Correctness *)

(** C8. The threads of the linear scan: however the scheduler interleaves the main
    thread and the workers, whichever sleeper a notification wakes, and if threads
    wake for no reason, a thread can always go on until all have been joined; no run
    goes on for ever but by waking for no reason; and when all have been joined every
    match has been counted and the output is the matches in the order of the
    database; if the limit ends the process before that, the first of them have
    been printed. *)
Theorem linear_scan_exact opt fnmatch regexec visible lstat scanned_block zstd_decompress groups needles num_threads limit only_count s
    (Hblocks : blocks_ok scanned_block zstd_decompress groups) (Hthreads : (0 < num_threads)%nat) (Hlimit : 0 < limit)
    (Hrun : rtc (step_any only_count (length groups) (scan_block opt fnmatch regexec visible lstat scanned_block zstd_decompress needles))
              (start_threads num_threads limit) s) :
  let block_results := scan_block opt fnmatch regexec visible lstat scanned_block zstd_decompress needles in
  let all := all_matches opt fnmatch regexec visible lstat groups needles in
  ((exists s', step only_count (length groups) block_results s s') \/ finished s) /\
  Acc (fun s2 s1 => step only_count (length groups) block_results s1 s2) s /\
  (finished s ->
   match s with
   | Live t => matched t = Z.of_nat (length all) /\
       (only_count = false -> printed (serializer t) = all /\ Z.of_nat (length all) < limit)
   | Ended code out => code = 0 /\ (only_count = false -> out = take (Z.to_nat limit) all /\ limit <= Z.of_nat (length all))
   end).
Proof.
  intros block_results all. assert (Hnum : Z.of_nat (length groups) + 32 <= 2 ^ 32).
  { pose proof (bo_count _ _ _ Hblocks) as H. change (2 ^ 31) with 2147483648 in H. change (2 ^ 32) with 4294967296. lia. }
  pose proof (reachable_ok only_count (length groups) block_results limit Hnum num_threads s Hthreads Hrun) as Hs.
  split; [|split; [by eapply no_endless_run|]].
  { destruct s as [t|]; [|by right]. destruct Hs as [Hi _]. by eapply step_possible. }
  intros Hf. pose proof (finished_ok only_count (length groups) block_results limit s Hs Hf) as H. clear Hs Hf Hrun.
  pose proof (finish_search_ok opt fnmatch regexec visible lstat scanned_block scanned_block zstd_decompress groups (fun _ => None) scanned_block needles
    (map Z.of_nat (seq 0 (length groups))) Hblocks) as E.
  rewrite <- all_matches_blocks in E. rewrite length_map, length_seq in E.
  assert (Hids : Forall (fun d => 0 <= d < Z.of_nat (length groups)) (map Z.of_nat (seq 0 (length groups))))
    by (apply Forall_forall; intros x [n [-> Hn]]%list_elem_of_fmap; apply elem_of_seq in Hn; lia).
  specialize (E Hids ltac:(lia) eq_refl). fold all in E.
  destruct (scan_docids_spec opt fnmatch regexec visible lstat scanned_block zstd_decompress groups needles _ Hblocks Hids 0)
    as (els & Els & _ & Hmsg); [done|rewrite length_map, length_seq; change (2 ^ 32) with 4294967296 in *; change (2 ^ 64) with 18446744073709551616; lia|].
  rewrite <- all_matches_blocks in Hmsg. fold all in Hmsg. rewrite Els in E. cbn [finish_search search_result_ok] in E.
  apply (scan_blocks_total opt fnmatch regexec visible lstat scanned_block zstd_decompress needles _ 0) in Els as [Htot Hsome].
  destruct E as [_ E]. fold block_results in Htot, Hsome. unfold total in H. rewrite Htot in H.
  destruct s as [t|[|p|p] out].
  - destruct H as (Hm & segments & P & Hp). split; [rewrite Hm; unfold count_matched; by rewrite Hmsg|]. intros ->. destruct (E segments P) as [_ E']. specialize (E' limit Hlimit).
    rewrite Hp in E'. tauto.
  - destruct H as (segments & P & Hp). split; [done|]. intros ->. destruct (E segments P) as [_ E']. specialize (E' limit Hlimit).
    by rewrite Hp in E'.
  - destruct H as (d & Hd & Hn). by destruct (Hsome d ltac:(lia)).
  - destruct H as (d & Hd & Hn). by destruct (Hsome d ltac:(lia)).
Qed.

(** Two threads: both fall asleep, the first one is woken and takes the blocks; the main
    thread picks up results in the middle of its work. *)
Definition sample_scan : nat -> option (list Element) :=
  scan_block sample_options no_match no_match (fun _ => true) sample_exists sample_get_block Some sample_needles.

Definition sample_schedule : list (option nat) :=
  [Some 1; Some 0; None; Some 0; Some 0; Some 0; None; Some 0; Some 0; Some 0; Some 0; Some 0; None; Some 0; Some 0; Some 1; None; None]%nat.

Definition sample_run : State :=
  default (Ended 2 []) (run_threads false 3 sample_scan sample_schedule (start_threads 2 100)).

Lemma linear_scan_exact_witness :
  (((exists s', step false 3 sample_scan sample_run s') \/ finished sample_run) /\
   Acc (fun s2 s1 => step false 3 sample_scan s1 s2) sample_run /\
   (finished sample_run ->
    match sample_run with
    | Live t => matched t = 2 /\
        (false = false -> printed (serializer t) = map bytes_of_string ["/a/food"%string; "/zip/foo1"%string] /\ 2 < 100)
    | Ended code out => code = 0 /\
        (false = false -> out = take 100 (map bytes_of_string ["/a/food"%string; "/zip/foo1"%string]) /\ 100 <= 2)
    end)) /\ finished sample_run.
Proof.
  split; [|vm_compute; reflexivity].
  apply (linear_scan_exact sample_options no_match no_match (fun _ => true) sample_exists sample_get_block Some sample_groups
    sample_needles 2 100 false).
  - exact sample_blocks_ok.
  - lia.
  - lia.
  - apply (run_threads_steps false 3 sample_scan sample_schedule). vm_compute. reflexivity.
Defined.

(** A limit of one ends the process as soon as the first match is delivered. *)
Example limit_ends_scan : run_threads false 3 sample_scan [None; Some 0; Some 0; Some 0; None]%nat (start_threads 2 1) =
  Some (Ended 0 [bytes_of_string "/a/food"]).
Proof. vm_compute. reflexivity. Qed.
