(* ===== verification/DatabaseFile.v ===== *)
(** * The database file (src/database-builder.cpp, src/flocate.cpp)

    [finish_corpus] lays the file out: header, dictionary, blocks of names, their
    offsets, the hash table, the posting lists and the optional sections.
    [open_corpus] and the readers of [Corpus] find them again.  The compressed
    directory times, metadata and history are given; compression and the stack
    buffers of the encoder are parameters. *)
From S2P Require Import Prelude Metadata MetadataCodec PostingList TurboPForDecode HashTable Corpus DbHeader.

(** ** Writing *)

(** What [finish_corpus] appends when it is not empty. *)
Record Sections := SECTIONS {
  compressed_dir_times : bytes;
  compressed_metadata : bytes;
  compressed_history : bytes;
  next_dictionary : bytes;
  conf_block : bytes
}.

(** The header that the constructor of [DatabaseBuilder] writes first, marked as
    broken, and the one it keeps once the dictionary is written. *)
Definition new_header (dictionary_length dictionary_offset : Z) (check_visibility : bool) : Header :=
  HEADER flocate_magic (u32 (-1)) 0 num_overflow_slots 0 (u64 (-1)) (u64 (-1)) 3 dictionary_length dictionary_offset
    0 0 0 0 0 0 0 0 0 0 METADATA_FLAG_NONE check_visibility.

Definition initial_header (dictionary : bytes) (check_visibility : bool) : Header :=
  new_header (u32 (Z.of_nat (length dictionary))) (match dictionary with [] => 0 | _ => Z.of_nat sizeof_Header end)
    check_visibility.

(** What is in the file when the corpus starts. *)
Definition start_of_file (dictionary : bytes) (check_visibility : bool) : bytes :=
  header_bytes (new_header (u32 (-1)) (u64 (-1)) check_visibility) ++ dictionary.

Definition trigram_bytes (e : Trigram) : bytes :=
  le_bytes 4 (trgm e) ++ le_bytes 4 (tg_num_docids e) ++ le_bytes 8 (tg_offset e).

(** [NUM_TRIGRAMS] *)
Definition NUM_TRIGRAMS : Z := 16777216.

(** The trigrams seen, as the loop from 0 to [NUM_TRIGRAMS] finds them; see
    [all_trigrams_loop]. *)
Definition all_trigrams (c : EncodingCorpus) : list Z :=
  merge_sort Z.le (filter (fun t => 0 <= t < NUM_TRIGRAMS) (map fst (map_to_list (invindex c)))).

(** The length and the offset of a section; both stay 0 without one. *)
Definition section_place (outfp section : bytes) : Z * Z :=
  match section with
  | [] => (0, 0)
  | _ => (Z.of_nat (length section), Z.of_nat (length outfp))
  end.

(** The offset of each place, with what is written up to there. *)
Definition finish_header (hdr : Header) (num_docids ht_size hash_table_offset filename_index_offset : Z)
    (dir_times metadata history dictionary conf : Z * Z) : Header :=
  HEADER (magic hdr) 2 ht_size (extra_ht_slots hdr) num_docids hash_table_offset filename_index_offset
    (max_version hdr) (zstd_dictionary_length_bytes hdr) (zstd_dictionary_offset_bytes hdr)
    (fst dir_times) (snd dir_times) (fst dictionary) (snd dictionary) (fst conf) (snd conf)
    (fst metadata) (snd metadata) (fst history) (snd history)
    (if fst metadata =? 0 then METADATA_FLAG_NONE else METADATA_FLAG_POSIX_V2) (check_visibility hdr).

Section Builder.
Context (zstd_compress : bytes -> bytes) (buf1 buf : bytes) (fuel prime_fuel : nat).

(** [pl_builder.finish()] for every trigram seen, then its list. *)
Definition pl_encoded (c : EncodingCorpus) (t : Z) : bytes :=
  match finished_list buf c t with Some pl => encoded pl | None => [] end.

Definition pl_num_docids (c : EncodingCorpus) (t : Z) : Z :=
  match finished_list buf c t with
  | Some pl => match get_num_docids pl with Some n => u32 n | None => 0 end
  | None => 0
  end.

(** [finish_corpus] after [corpus->finish()]: the header and what follows it. *)
Definition write_corpus (hdr : Header) (c : EncodingCorpus) (s : Sections) : option (Header * bytes) :=
  let out := outfp c in
  let num_docids := u32 (Z.of_nat (length (filename_blocks c))) in
  let filename_blocks := filename_blocks c ++ [u64 (Z.of_nat (length out))] in
  let filename_index_offset := Z.of_nat (length out) in
  let out := out ++ concat (map (le_bytes 8) filename_blocks) in
  _ ← mapM (finished_list buf c) (all_trigrams c);
  ht_size ← next_prime prime_fuel (u32 (Z.of_nat (length (all_trigrams c))));
  '(ht_size, hashtable) ← build_hashtable fuel prime_fuel (pl_num_docids c) (all_trigrams c) ht_size;
  let hash_table_offset := Z.of_nat (length out) in
  let offset := u64 (Z.of_nat (length out) + (ht_size + num_overflow_slots + 1) * 16) in
  let out := out ++ concat (map trigram_bytes (assign_offsets (pl_encoded c) offset hashtable)) in
  let out := out ++ write_posting_lists (pl_encoded c) hashtable in
  let dir_times := section_place out (compressed_dir_times s) in
  let out := out ++ compressed_dir_times s in
  let metadata := section_place out (compressed_metadata s) in
  let out := out ++ compressed_metadata s in
  let history := section_place out (compressed_history s) in
  let out := out ++ compressed_history s in
  let dictionary := section_place out (next_dictionary s) in
  let out := out ++ next_dictionary s in
  let conf := section_place out (conf_block s) in
  let out := out ++ conf_block s in
  Some (finish_header hdr num_docids ht_size hash_table_offset filename_index_offset
          dir_times metadata history dictionary conf, drop sizeof_Header out).

(** The file: [None] if the program stops, [build_hashtable] runs out of fuel, or
    something is accessed outside its bounds. *)
Definition finish_corpus (hdr : Header) (c : EncodingCorpus) (s : Sections) : option bytes :=
  c ← flush_block zstd_compress buf1 buf c;
  '(hdr, rest) ← write_corpus hdr c s;
  Some (header_bytes hdr ++ rest).

(** The constructor, the files and [finish_corpus]. *)
Definition build_database (block_size : Z) (dictionary : bytes) (check_visibility : bool) (paths : list bytes)
    (s : Sections) : option bytes :=
  c ← add_files zstd_compress buf1 buf block_size paths (new_EncodingCorpus (start_of_file dictionary check_visibility));
  finish_corpus (initial_header dictionary check_visibility) c s.

End Builder.

(** ** Reading *)

(** [complete_pread] and the reads of the engine: [None] ends the program. *)
Definition read_at (file : bytes) (len offset : Z) : option bytes :=
  if decide (0 <= offset /\ 0 <= len /\ offset + len <= Z.of_nat (length file))
  then Some (take (Z.to_nat len) (drop (Z.to_nat offset) file)) else None.

(** The constructor of [Corpus]: [None] ends the program. *)
Definition open_corpus (ignore_visibility : bool) (file : bytes) : option Header :=
  s ← read_at file (Z.of_nat sizeof_Header) 0;
  h ← parse_header s;
  if negb (bool_decide (magic h = flocate_magic)) then None
  else if negb (version h =? 0) && negb (version h =? 1) && negb (version h =? 2) then None
  else
    let '(len, off) := if version h =? 0 then (0, 0)
                       else (zstd_dictionary_length_bytes h, zstd_dictionary_offset_bytes h) in
    let visibility := if max_version h <? 2 then true else check_visibility h in
    let visibility := if ignore_visibility then false else visibility in
    Some (HEADER (magic h) (version h) (hashtable_size h) (extra_ht_slots h) (num_docids h)
      (hash_table_offset_bytes h) (filename_index_offset_bytes h) (max_version h) len off
      (directory_data_length_bytes h) (directory_data_offset_bytes h)
      (next_zstd_dictionary_length_bytes h) (next_zstd_dictionary_offset_bytes h)
      (conf_block_length_bytes h) (conf_block_offset_bytes h) (metadata_length_bytes h) (metadata_offset_bytes h)
      (history_length_bytes h) (history_offset_bytes h) (metadata_flags h) visibility).

(** The dictionary, if there is one, is fetched before any block is decompressed; [None]
    ends the program. *)
Definition read_dictionary (h : Header) (file : bytes) : option (option bytes) :=
  if 0 <? zstd_dictionary_length_bytes h
  then dictionary ← read_at file (zstd_dictionary_length_bytes h) (zstd_dictionary_offset_bytes h); Some (Some dictionary)
  else Some None.

(** The slots that a lookup reads. *)
Fixpoint parse_slots (n : nat) (s : bytes) : option (list Trigram) :=
  match n with
  | O => Some []
  | S n =>
    '(t, s) ← get_u32 s;
    '(num, s) ← get_u32 s;
    '(offset, s) ← get_u64 s;
    rest ← parse_slots n s;
    Some (TG t num offset :: rest)
  end.

(** [Corpus::find_trigram]: [None] ends the program, [Some None] is the callback
    with a null pointer. *)
Definition corpus_find_trigram (file : bytes) (h : Header) (t : Z) : option (option (Trigram * Z)) :=
  let bucket := hash_trigram t (hashtable_size h) in
  s ← read_at file (16 * (extra_ht_slots h + 2)) (u64 (hash_table_offset_bytes h + 16 * bucket));
  slots ← parse_slots (Z.to_nat (extra_ht_slots h + 2)) s;
  find_loop (Z.to_nat (extra_ht_slots h + 1)) slots t.

Definition offset_for_block (h : Header) (docid : Z) : Z := u64 (filename_index_offset_bytes h + docid * 8).

Definition get_compressed_filename_block (file : bytes) (h : Header) (docid : Z) : option bytes :=
  s ← read_at file 16 (offset_for_block h docid);
  '(from, s) ← get_u64 s;
  '(to, _) ← get_u64 s;
  read_at file (u64 (to - from)) from.

(** A posting list, decoded in place with what is in the buffer behind it. *)
Definition read_posting_list (file slop_bytes : bytes) (e : Trigram * Z) : option (list Z) :=
  s ← read_at file (snd e) (tg_offset (fst e));
  '(l, _) ← decode_pfor_delta1_128 (s ++ slop_bytes) (Z.to_nat (tg_num_docids (fst e))) true;
  Some l.

(** [offsets] of [scan_all_docids]. *)
Fixpoint parse_offsets (n : nat) (s : bytes) : option (list Z) :=
  match n with
  | O => Some []
  | S n => '(v, s) ← get_u64 s; rest ← parse_offsets n s; Some (v :: rest)
  end.

(** [scan_all_docids] reads 32 blocks at a time; a worker takes each from its
    place among them.  [None]: the program ends, or an access outside [offsets]
    or the string. *)
Definition scanned_block (file : bytes) (h : Header) (docid : Z) : option bytes :=
  let num_blocks := num_docids h in
  s ← read_at file ((num_blocks + 1) * 8) (offset_for_block h 0);
  offsets ← parse_offsets (Z.to_nat (num_blocks + 1)) s;
  let io_docid := docid / 32 * 32 in
  let last_docid := Z.min (io_docid + 32) num_blocks in
  io_from ← offsets !! Z.to_nat io_docid;
  io_to ← offsets !! Z.to_nat last_docid;
  compressed ← read_at file (u64 (io_to - io_from)) io_from;
  from ← offsets !! Z.to_nat docid;
  to ← offsets !! Z.to_nat (docid + 1);
  read_at compressed (u64 (to - from)) (u64 (from - io_from)).

(** ** Reading from a known place *)

Lemma read_at_mid pre mid post len o : 0 <= o -> 0 <= len -> o + len <= Z.of_nat (length mid) ->
  read_at (pre ++ mid ++ post) len (Z.of_nat (length pre) + o) = read_at mid len o.
Proof.
  intros Ho Hl Hm. unfold read_at. rewrite !length_app, !decide_True by lia. f_equal.
  rewrite Z2Nat.inj_add, Nat2Z.id by lia. rewrite <- drop_drop, drop_app_length.
  rewrite drop_app_le by lia. rewrite take_app_le; [done|]. rewrite length_drop. lia.
Qed.

Lemma read_at_whole s : read_at s (Z.of_nat (length s)) 0 = Some s.
Proof.
  unfold read_at. rewrite decide_True by lia. cbn [Z.to_nat]. rewrite drop_0, Nat2Z.id. by rewrite firstn_all.
Qed.

(** Items of the same size. *)
Lemma concat_fixed_length {A} (f : A -> bytes) n l : (forall x, length (f x) = n) ->
  length (concat (map f l)) = (n * length l)%nat.
Proof. intros Hf. induction l as [|x l IH]; cbn [map concat length]; [lia|]. rewrite length_app, Hf, IH. lia. Qed.

Lemma drop_fixed {A} (f : A -> bytes) n : (forall x, length (f x) = n) -> forall i l,
  drop (n * i) (concat (map f l)) = concat (map f (drop i l)).
Proof.
  intros Hf. induction i as [|i IH]; intros l; [by rewrite Nat.mul_0_r, !drop_0|].
  destruct l as [|x l]; cbn [map concat drop]; [by rewrite drop_nil|].
  replace (n * S i)%nat with (length (f x) + n * i)%nat by (rewrite Hf; lia). by rewrite drop_app_add.
Qed.

Lemma take_fixed {A} (f : A -> bytes) n : (forall x, length (f x) = n) -> forall k l,
  take (n * k) (concat (map f l)) = concat (map f (take k l)).
Proof.
  intros Hf. induction k as [|k IH]; intros l; [by rewrite Nat.mul_0_r|].
  destruct l as [|x l]; cbn [map concat take]; [by rewrite take_nil|].
  replace (n * S k)%nat with (length (f x) + n * k)%nat by (rewrite Hf; lia). by rewrite take_app_add, IH.
Qed.

Lemma read_at_fixed {A} (f : A -> bytes) n l i k : (forall x, length (f x) = n) ->
  0 <= i -> 0 <= k -> i + k <= Z.of_nat (length l) ->
  read_at (concat (map f l)) (Z.of_nat n * k) (Z.of_nat n * i) = Some (concat (map f (take (Z.to_nat k) (drop (Z.to_nat i) l)))).
Proof.
  intros Hf Hi Hk Hl. unfold read_at. rewrite (concat_fixed_length f n) by done. rewrite decide_True by nia. f_equal.
  rewrite !Z2Nat.inj_mul, Nat2Z.id by lia. rewrite (drop_fixed f n) by done. by rewrite (take_fixed f n) by done.
Qed.

(** ** The hash table *)

Record slot_wf (e : Trigram) : Prop := {
  sw_trgm : is_u32 (trgm e);
  sw_num : is_u32 (tg_num_docids e);
  sw_offset : is_u64 (tg_offset e)
}.

Lemma length_trigram_bytes e : length (trigram_bytes e) = 16%nat.
Proof. unfold trigram_bytes. by rewrite !length_app, !length_le_bytes. Qed.

Lemma parse_slots_bytes l : Forall slot_wf l -> parse_slots (length l) (concat (map trigram_bytes l)) = Some l.
Proof.
  induction 1 as [|e l [H1 H2 H3] F IH]; [done|]. cbn [length map concat parse_slots]. unfold trigram_bytes at 1.
  rewrite <- !app_assoc, get_u32_le. cbn [mbind option_bind]. rewrite get_u32_le. cbn [mbind option_bind].
  rewrite get_u64_le. cbn [mbind option_bind]. rewrite IH. cbn [mbind option_bind].
  rewrite !u32_small, u64_small by done. by destruct e.
Qed.

Lemma find_loop_take n : forall slots t, (n < length slots)%nat -> find_loop n (take (S n) slots) t = find_loop n slots t.
Proof.
  induction n as [|n IH]; intros slots t H; [done|]. destruct slots as [|e slots]; [done|].
  cbn [length] in H. change (take (S (S n)) (e :: slots)) with (e :: take (S n) slots). cbn [find_loop].
  rewrite (IH slots t) by lia. by destruct slots.
Qed.

(** ** Sizes of the hash table *)

Lemma next_prime_loop_pos fuel : forall x y, 0 <= x -> next_prime_loop fuel x = Some y -> 0 < y.
Proof.
  induction fuel as [|fuel IH]; intros x y Hx; cbn [next_prime_loop]; destruct (is_prime x) eqn:E; try done;
    try (intros [= <-]; destruct (Z.eq_dec x 0) as [->|]; [done|lia]).
  apply IH. apply u32_range.
Qed.

Lemma build_hashtable_spec prime_fuel docids ts fuel : forall ht_size n ht, 0 < ht_size ->
  build_hashtable fuel prime_fuel docids ts ht_size = Some (n, ht) ->
  0 < n /\ create_hashtable docids ts n num_overflow_slots = Some (Some ht).
Proof.
  induction fuel as [|fuel IH]; intros ht_size n ht Hpos; cbn [build_hashtable]; [done|].
  destruct (create_hashtable _ _ _ _) as [[ht'|]|] eqn:E; cbn [mbind option_bind]; [by intros [= <- <-]| |done].
  destruct (next_prime prime_fuel (ht_size * 21 / 20)) as [m|] eqn:Em; cbn [mbind option_bind]; [|done]. apply IH.
  unfold next_prime in Em. eapply next_prime_loop_pos; [|exact Em].
  pose proof (u32_range (ht_size * 21 / 20 + 1)) as Hu. unfold is_u32 in Hu.
  case_match; [lia|]. apply Z.div_pos; lia.
Qed.

(** ** The layout *)

Lemma section_place_spec out section : section_place out section =
  if decide (section = []) then (0, 0) else (Z.of_nat (length section), Z.of_nat (length out)).
Proof. by destruct section. Qed.

(** A section is where the header says, or it is empty. *)
Definition section_at (full : bytes) (len off : Z) (section : bytes) : Prop :=
  if decide (section = []) then len = 0 /\ off = 0
  else len = Z.of_nat (length section) /\ Z.of_nat sizeof_Header <= off /\ read_at full len off = Some section.

Record sections_in (full : bytes) (h : Header) (s : Sections) : Prop := {
  si_dir_times : section_at full (directory_data_length_bytes h) (directory_data_offset_bytes h) (compressed_dir_times s);
  si_metadata : section_at full (metadata_length_bytes h) (metadata_offset_bytes h) (compressed_metadata s);
  si_history : section_at full (history_length_bytes h) (history_offset_bytes h) (compressed_history s);
  si_dictionary : section_at full (next_zstd_dictionary_length_bytes h) (next_zstd_dictionary_offset_bytes h) (next_dictionary s);
  si_conf : section_at full (conf_block_length_bytes h) (conf_block_offset_bytes h) (conf_block s);
  si_flags : metadata_flags h = if metadata_length_bytes h =? 0 then METADATA_FLAG_NONE else METADATA_FLAG_POSIX_V2
}.

Lemma section_placed out section rest : (sizeof_Header <= length out)%nat ->
  section_at (out ++ section ++ rest) (fst (section_place out section)) (snd (section_place out section)) section.
Proof.
  intros Hl. rewrite section_place_spec. unfold section_at. case_decide as E; cbn [fst snd]; [done|]. split; [done|].
  split; [lia|]. pose proof (read_at_mid out section rest (Z.of_nat (length section)) 0) as Hr.
  rewrite Z.add_0_r in Hr. rewrite Hr by lia. apply read_at_whole.
Qed.

(** Where [write_corpus] has put what; [before] is what follows the header
    when the corpus is finished. *)
Record layout (c : EncodingCorpus) (enc : Z -> bytes) (num : Z -> Z) (h : Header) (full : bytes) : Type := {
  lo_table : list Trigram;
  lo_rest : bytes;
  lo_created : 0 < hashtable_size h /\
    create_hashtable num (all_trigrams c) (hashtable_size h) num_overflow_slots = Some (Some lo_table);
  lo_offset : Z;
  lo_full : full = outfp c
    ++ concat (map (le_bytes 8) (filename_blocks c ++ [u64 (Z.of_nat (length (outfp c)))]))
    ++ concat (map trigram_bytes (assign_offsets enc lo_offset lo_table))
    ++ write_posting_lists enc lo_table ++ lo_rest;
  lo_index_at : filename_index_offset_bytes h = Z.of_nat (length (outfp c));
  lo_table_at : hash_table_offset_bytes h
    = Z.of_nat (length (outfp c)) + 8 * Z.of_nat (length (filename_blocks c) + 1);
  lo_lists_at : lo_offset = u64 (hash_table_offset_bytes h + (hashtable_size h + num_overflow_slots + 1) * 16)
}.

Section Written.
Context (buf : bytes) (fuel prime_fuel : nat).

Abbreviation enc c := (pl_encoded buf c).
Abbreviation num c := (pl_num_docids buf c).

Lemma write_corpus_layout hdr c s h rest : (sizeof_Header <= length (outfp c))%nat ->
  write_corpus buf fuel prime_fuel hdr c s = Some (h, rest) ->
  exists full, rest = drop sizeof_Header full /\ inhabited (layout c (enc c) (num c) h full) /\
    num_docids h = u32 (Z.of_nat (length (filename_blocks c))) /\
    magic h = magic hdr /\ version h = 2 /\ max_version h = max_version hdr /\ extra_ht_slots h = extra_ht_slots hdr /\
    zstd_dictionary_length_bytes h = zstd_dictionary_length_bytes hdr /\
    zstd_dictionary_offset_bytes h = zstd_dictionary_offset_bytes hdr /\ check_visibility h = check_visibility hdr /\
    is_u32 (metadata_flags h) /\
    (forall o, In o [directory_data_length_bytes h; directory_data_offset_bytes h;
       next_zstd_dictionary_length_bytes h; next_zstd_dictionary_offset_bytes h; conf_block_length_bytes h;
       conf_block_offset_bytes h; metadata_length_bytes h; metadata_offset_bytes h; history_length_bytes h;
       history_offset_bytes h] -> 0 <= o <= Z.of_nat (length full)) /\ sections_in full h s /\
    exists tail, full = outfp c ++ tail.
Proof.
  intros Hlen. unfold write_corpus. destruct (mapM _ _) as [pls|]; cbn [mbind option_bind]; [|done].
  destruct (next_prime _ _) as [n0|] eqn:Ep; cbn [mbind option_bind]; [|done].
  destruct (build_hashtable _ _ _ _ _) as [[n ht]|] eqn:Eb; cbn [mbind option_bind]; [|done].
  assert (Hn0 : 0 < n0).
  { unfold next_prime in Ep. eapply next_prime_loop_pos; [|exact Ep].
    case_match; apply u32_range. }
  destruct (build_hashtable_spec _ _ _ _ _ _ _ Hn0 Eb) as [Hn Hc].
  set (out1 := outfp c ++ concat _). set (off := u64 (Z.of_nat (length out1) + _)).
  set (out2 := out1 ++ concat _). set (out3 := out2 ++ write_posting_lists _ _).
  set (out4 := out3 ++ compressed_dir_times s). set (out5 := out4 ++ compressed_metadata s).
  set (out6 := out5 ++ compressed_history s). set (out7 := out6 ++ next_dictionary s).
  intros [= <- <-]. eexists. split; [reflexivity|]. split; [|cbn [finish_header num_docids magic version max_version
    extra_ht_slots zstd_dictionary_length_bytes zstd_dictionary_offset_bytes check_visibility metadata_flags
    directory_data_length_bytes directory_data_offset_bytes next_zstd_dictionary_length_bytes
    next_zstd_dictionary_offset_bytes conf_block_length_bytes conf_block_offset_bytes metadata_length_bytes
    metadata_offset_bytes history_length_bytes history_offset_bytes]; repeat (split; [done|])].
  - constructor. refine (Build_layout _ _ _ _ _ ht (compressed_dir_times s ++ compressed_metadata s ++ compressed_history s ++
      next_dictionary s ++ conf_block s) _ off _ _ _ _); cbn [finish_header hashtable_size filename_index_offset_bytes hash_table_offset_bytes].
    + done.
    + unfold out7, out6, out5, out4, out3, out2, out1. by rewrite <- !app_assoc.
    + done.
    + unfold out1. rewrite length_app. rewrite (concat_fixed_length (le_bytes 8) 8) by apply length_le_bytes.
      rewrite length_app. cbn [length]. lia.
    + unfold off. done.
  - split; [by case_match|]. split; [|split].
    + intros o Ho. rewrite length_app. cbn [In] in Ho.
      rewrite !section_place_spec in Ho. unfold out7, out6, out5, out4 in *. rewrite !length_app in *.
      repeat case_decide; cbn [fst snd] in Ho; lia.
    + assert (H3 : (sizeof_Header <= length out3)%nat) by (unfold out3, out2, out1; rewrite !length_app; lia).
      assert (H4 : (sizeof_Header <= length out4)%nat) by (unfold out4; rewrite length_app; lia).
      assert (H5 : (sizeof_Header <= length out5)%nat) by (unfold out5; rewrite length_app; lia).
      assert (H6 : (sizeof_Header <= length out6)%nat) by (unfold out6; rewrite length_app; lia).
      assert (H7 : (sizeof_Header <= length out7)%nat) by (unfold out7; rewrite length_app; lia).
      split; [| | | | |done];
        [replace (out7 ++ conf_block s) with (out3 ++ compressed_dir_times s ++ compressed_metadata s ++ compressed_history s ++
           next_dictionary s ++ conf_block s) by (unfold out7, out6, out5, out4; by rewrite <- !app_assoc)
        |replace (out7 ++ conf_block s) with (out4 ++ compressed_metadata s ++ compressed_history s ++
           next_dictionary s ++ conf_block s) by (unfold out7, out6, out5; by rewrite <- !app_assoc)
        |replace (out7 ++ conf_block s) with (out5 ++ compressed_history s ++ next_dictionary s ++ conf_block s)
           by (unfold out7, out6; by rewrite <- !app_assoc)
        |replace (out7 ++ conf_block s) with (out6 ++ next_dictionary s ++ conf_block s) by (unfold out7; by rewrite <- !app_assoc)
        |rewrite <- (app_nil_r (conf_block s)) at 1]; by apply section_placed.
    + unfold out7, out6, out5, out4, out3, out2, out1. rewrite <- !app_assoc. by eexists.
Qed.
End Written.

Lemma read_at_rest hb full len off : length hb = sizeof_Header -> (sizeof_Header <= length full)%nat ->
  Z.of_nat sizeof_Header <= off -> read_at (hb ++ drop sizeof_Header full) len off = read_at full len off.
Proof.
  intros Hb Hf Ho. unfold read_at. rewrite length_app, length_drop, Hb.
  replace (sizeof_Header + (length full - sizeof_Header))%nat with (length full) by lia.
  case_decide; [|done]. do 2 f_equal. rewrite drop_app_ge by lia. rewrite drop_drop. f_equal. lia.
Qed.

Lemma elem_of_all_trigrams c t : t ∈ all_trigrams c <-> 0 <= t < NUM_TRIGRAMS /\ is_Some (invindex c !! t).
Proof.
  unfold all_trigrams. rewrite merge_sort_Permutation, list_elem_of_filter. apply and_iff_compat_l. split.
  - intros H. apply list_elem_of_fmap in H as ([u pl] & -> & H). apply elem_of_map_to_list in H. by exists pl.
  - intros [pl H]. apply elem_of_map_to_list in H. by apply (list_elem_of_fmap_2 fst _ (t, pl)).
Qed.

Lemma keys_loop {A} (m : gmap Z A) (seen : Z -> bool) N : (forall t, seen t = true <-> is_Some (m !! t)) ->
  merge_sort Z.le (filter (fun t => 0 <= t < N) (map fst (map_to_list m))) =
  List.filter seen (map Z.of_nat (seq 0 (Z.to_nat N))).
Proof.
  intros Hseen. apply (StronglySorted_unique Z.le).
  - apply (StronglySorted_merge_sort Z.le).
  - assert (H : forall n k, StronglySorted Z.le (List.filter seen (map Z.of_nat (seq k n)))).
    { induction n as [|n IH]; intros k; cbn [seq map List.filter]; [constructor|]. case_match; [|apply IH].
      constructor; [apply IH|]. apply Forall_forall. intros x Hx%list_elem_of_In.
      apply filter_In in Hx as [Hx _]. apply in_map_iff in Hx as (i & <- & Hi). apply in_seq in Hi. lia. }
    apply H.
  - apply NoDup_Permutation.
    + rewrite merge_sort_Permutation. apply NoDup_filter. apply NoDup_fst_map_to_list.
    + apply NoDup_ListNoDup, List.NoDup_filter, NoDup_ListNoDup, NoDup_fmap_2; [intros a b; lia|apply NoDup_seq].
    + intros t. rewrite merge_sort_Permutation, list_elem_of_filter, list_elem_of_In, (list_elem_of_In (List.filter _ _)).
      rewrite filter_In, in_map_iff, Hseen, in_map_iff. split.
      * intros (Ht & ([u pl] & <- & H)). apply list_elem_of_In, elem_of_map_to_list in H. split; [|by exists pl].
        exists (Z.to_nat u). cbn [fst] in *. split; [lia|]. apply in_seq. lia.
      * intros [(i & <- & Hi) [pl H]]. apply in_seq in Hi. split; [lia|]. exists (Z.of_nat i, pl). split; [done|].
        by apply list_elem_of_In, elem_of_map_to_list.
Qed.

(** [all_trigrams] is what the loop from 0 to [NUM_TRIGRAMS] collects. *)
Lemma all_trigrams_loop c :
  all_trigrams c = List.filter (seen_trigram c) (map Z.of_nat (seq 0 (Z.to_nat NUM_TRIGRAMS))).
Proof. apply keys_loop. intros t. apply bool_decide_eq_true. Qed.

(** ** Offsets *)

Lemma parse_offsets_bytes l : Forall is_u64 l -> parse_offsets (length l) (concat (map (le_bytes 8) l)) = Some l.
Proof.
  induction 1 as [|v l Hv F IH]; [done|]. cbn [length map concat parse_offsets]. rewrite get_u64_le. cbn [mbind option_bind].
  rewrite IH. cbn [mbind option_bind]. by rewrite u64_small.
Qed.

Lemma length_chunk_offsets chunks : forall pos, length (chunk_offsets pos chunks) = length chunks.
Proof. induction chunks as [|c chunks IH]; intros pos; cbn; [done|by rewrite IH]. Qed.

(** The start of chunk [i], and the end of the last one. *)
Lemma chunk_offsets_lookup chunks : forall pos i, (i <= length chunks)%nat ->
  (chunk_offsets pos chunks ++ [pos + Z.of_nat (length (concat chunks))]) !! i
  = Some (pos + Z.of_nat (length (concat (take i chunks)))).
Proof.
  induction chunks as [|c chunks IH]; intros pos i Hi; cbn [length] in Hi.
  - by assert (i = O) as -> by lia.
  - destruct i as [|i]; cbn [chunk_offsets app].
    + cbn [take concat length]. change ((?x :: ?l) !! O) with (Some x). f_equal. lia.
    + change ((?x :: ?l) !! S i) with (l !! i). cbn [concat take]. rewrite !length_app.
      replace (pos + Z.of_nat (length c + length (concat chunks)))
        with (pos + Z.of_nat (length c) + Z.of_nat (length (concat chunks))) by lia.
      rewrite IH by lia. f_equal. lia.
Qed.

(** A run of chunks. *)
Lemma concat_take_drop (chunks : list bytes) i k :
  concat chunks = concat (take i chunks) ++ concat (take k (drop i chunks)) ++ concat (drop (i + k) chunks).
Proof.
  rewrite <- (take_drop i chunks) at 1. rewrite concat_app. f_equal.
  rewrite <- (take_drop k (drop i chunks)) at 1. by rewrite concat_app, drop_drop.
Qed.

Lemma read_chunks pre chunks post i k : (i + k <= length chunks)%nat ->
  read_at (pre ++ concat chunks ++ post) (Z.of_nat (length (concat (take k (drop i chunks)))))
    (Z.of_nat (length pre) + Z.of_nat (length (concat (take i chunks)))) = Some (concat (take k (drop i chunks))).
Proof.
  intros Hi. rewrite (concat_take_drop chunks i k) at 1. rewrite <- app_assoc, app_assoc, <- (app_assoc (concat (take k _))).
  rewrite <- Nat2Z.inj_add, <- length_app, <- (Z.add_0_r (Z.of_nat (length (pre ++ _)))).
  rewrite read_at_mid by lia. apply read_at_whole.
Qed.

(** ** A database that was written *)

Definition with_visibility (v : bool) (h : Header) : Header :=
  HEADER (magic h) (version h) (hashtable_size h) (extra_ht_slots h) (num_docids h)
    (hash_table_offset_bytes h) (filename_index_offset_bytes h) (max_version h)
    (zstd_dictionary_length_bytes h) (zstd_dictionary_offset_bytes h)
    (directory_data_length_bytes h) (directory_data_offset_bytes h)
    (next_zstd_dictionary_length_bytes h) (next_zstd_dictionary_offset_bytes h)
    (conf_block_length_bytes h) (conf_block_offset_bytes h) (metadata_length_bytes h) (metadata_offset_bytes h)
    (history_length_bytes h) (history_offset_bytes h) (metadata_flags h) v.

Section Database.
Context (zstd_compress : bytes -> bytes) (buf1 buf : bytes) (fuel prime_fuel : nat) (block_size : Z)
  (dictionary : bytes) (visibility : bool) (paths : list bytes) (s : Sections) (file : bytes).
Context (Hzstd : forall b, zstd_compress b <> []).
Context (Hbufs : length buf1 = P4NENC_BOUND 1 /\ length buf = P4NENC_BOUND 128 /\ Forall is_byte buf).
Context (Hbs : 0 < block_size) (Hpaths : Forall path_ok paths /\ Z.of_nat (length paths) < 2 ^ 24).
Context (Hbuild : build_database zstd_compress buf1 buf fuel prime_fuel block_size dictionary visibility paths s = Some file).
Context (Hsmall : Z.of_nat (length file) < 2 ^ 36) (Hdict : Z.of_nat (length dictionary) < 2 ^ 32).

Abbreviation start := (start_of_file dictionary visibility).
Abbreviation chunk := (fun g => zstd_compress (join g)).

Record parts (c : EncodingCorpus) (groups : list (list bytes)) (h : Header) (full : bytes) : Prop := {
  pa_file : file = header_bytes h ++ drop sizeof_Header full;
  pa_start : (sizeof_Header <= length full)%nat;
  pa_layout : inhabited (layout c (pl_encoded buf c) (pl_num_docids buf c) h full);
  pa_header : magic h = flocate_magic /\ version h = 2 /\ max_version h = 3 /\ extra_ht_slots h = num_overflow_slots /\
    check_visibility h = visibility;
  pa_wf : header_wf h;
  pa_count : num_docids h = Z.of_nat (length groups) /\ Z.of_nat (length groups) < 2 ^ 24;
  pa_groups : concat groups = paths /\ Forall (fun g => g <> [] /\ Z.of_nat (length g) <= block_size) groups;
  pa_out : outfp c = start ++ concat (map chunk groups);
  pa_offsets : filename_blocks c = chunk_offsets (Z.of_nat (length start)) (map chunk groups);
  pa_lists : forall t,
    if decide (blocks_with groups t = []) then seen_trigram c t = false
    else exists pl, finished_list buf c t = Some pl /\
      get_num_docids pl = Some (Z.of_nat (length (blocks_with groups t))) /\
      forall tail, slop tail ->
        decode_pfor_delta1_128 (encoded pl ++ tail) (length (blocks_with groups t)) true
        = Some (blocks_with groups t, tail)
}.

Lemma length_start : length start = (sizeof_Header + length dictionary)%nat.
Proof. unfold start_of_file. by rewrite length_app, length_header_bytes. Qed.

Lemma table_fits c h full : layout c (pl_encoded buf c) (pl_num_docids buf c) h full ->
  0 < hashtable_size h /\ (hashtable_size h + 17) * 16 <= Z.of_nat (length full) /\
  filename_index_offset_bytes h <= hash_table_offset_bytes h <= Z.of_nat (length full) /\ 0 <= filename_index_offset_bytes h.
Proof.
  intros [ht rest [Hpos Hc] off Hfull Hi Ht Hl]. split; [done|].
  assert (Hlen : (hashtable_size h + 17) <= Z.of_nat (length ht)).
  { assert (Hlen : forall docids ts n slots ht0 ht, insert_all docids ts n slots ht0 = Some (Some ht) -> length ht = length ht0).
    { clear. assert (Hone : forall fuel n slots ht0 e b d ht, insert_loop fuel n slots ht0 e b d = Some (Some ht) -> length ht = length ht0).
      { induction fuel as [|fuel IH]; intros n slots ht0 e b d ht; cbn [insert_loop]; [done|].
        destruct (get ht0 b) as [x|]; cbn [mbind option_bind]; [|done].
        destruct (tg_num_docids x =? 0); [intros [= <-]; apply length_insert|].
        destruct (d >? u32 (b - hash_trigram (trgm x) n)); case_match; try done; intros Hl; apply IH in Hl;
          rewrite ?length_insert in Hl; exact Hl. }
      intros docids ts. induction ts as [|t ts IH]; intros n slots ht0 ht; cbn [insert_all]; [by intros [= <-]|].
      destruct (insert_loop _ _ _ _ _ _ _) as [[ht1|]|] eqn:E; cbn [mbind option_bind]; [|done|done].
      intros H. apply IH in H. rewrite H. by eapply Hone. }
    apply Hlen in Hc. rewrite Hc, repeat_length. unfold num_overflow_slots. lia. }
  rewrite Hfull, !length_app, (concat_fixed_length trigram_bytes 16) by apply length_trigram_bytes.
  rewrite (concat_fixed_length (le_bytes 8) 8) by apply length_le_bytes.
  rewrite length_assign_offsets, length_app. cbn [length]. rewrite Hi, Ht. lia.
Qed.

(** What the readers other than the search need. *)
Definition readable (h : Header) (full : bytes) : Prop :=
  sections_in full h s /\ section_at full (zstd_dictionary_length_bytes h) (zstd_dictionary_offset_bytes h) dictionary.

Lemma database_readable : exists c groups h full, parts c groups h full /\ readable h full.
Proof.
  destruct (build_corpus_index zstd_compress buf1 buf block_size start paths Hzstd Hbufs Hbs Hpaths)
    as (c & groups & Hc & Hgroups & Hsizes & Hnum & Hout & Hoffs & Hlists).
  pose proof (groups_le _ groups Hsizes) as Hle. rewrite Hgroups in Hle. destruct Hpaths as [_ Hlim].
  unfold build_database in Hbuild. unfold build_corpus in Hc.
  destruct (add_files _ _ _ _ _ _) as [c0|]; cbn [mbind option_bind] in *; [|done].
  unfold finish_corpus in Hbuild. rewrite Hc in Hbuild. cbn [mbind option_bind] in Hbuild.
  destruct (write_corpus _ _ _ _ _ _) as [[h rest]|] eqn:Ew; cbn [mbind option_bind] in Hbuild; [|done].
  injection Hbuild as Hfile. pose proof length_start as Hstart.
  destruct (write_corpus_layout buf fuel prime_fuel (initial_header dictionary visibility) c s h rest) as (full & -> & Hlay & Hn & H1 & H2 & H3 & H4 & H5 & H6 & H7 & Hf & Ho & Hsec & Htail);
    [rewrite Hout, length_app; lia|done|].
  assert (Hfull : (sizeof_Header <= length full)%nat).
  { destruct Hlay as [lay]. rewrite (lo_full _ _ _ _ _ lay), Hout, !length_app. lia. }
  cbn [initial_header new_header magic max_version extra_ht_slots zstd_dictionary_length_bytes zstd_dictionary_offset_bytes
    check_visibility] in H1, H3, H4, H5, H6, H7.
  assert (Hlen : length file = length full).
  { rewrite <- Hfile, length_app, length_header_bytes, length_drop; [lia|]. by rewrite H1. }
  change (2 ^ 36) with 68719476736 in Hsmall. change (2 ^ 24) with 16777216 in Hlim.
  rewrite Hoffs, length_chunk_offsets, length_map in Hn.
  rewrite u32_small in Hn by (unfold is_u32; change (2 ^ 32) with 4294967296; lia).
  exists c, groups, h, full. split; [|split; [exact Hsec|]].
  2:{ destruct Htail as [tail ->]. rewrite Hout. unfold start_of_file. rewrite H5, H6.
      change (2 ^ 32) with 4294967296 in Hdict.
      rewrite (u32_small (Z.of_nat (length dictionary))) by (unfold is_u32; change (2 ^ 32) with 4294967296; lia). unfold section_at.
      destruct dictionary as [|d ds] eqn:Ed; [done|]. rewrite <- Ed in *. rewrite decide_False by congruence.
      split; [done|]. split; [lia|].
      rewrite <- !app_assoc. pose proof (read_at_mid (header_bytes (new_header (u32 (-1)) (u64 (-1)) visibility)) dictionary
        (concat (map chunk groups) ++ tail) (Z.of_nat (length dictionary)) 0) as Hr.
      rewrite length_header_bytes, Z.add_0_r in Hr by done. rewrite Hr by lia. apply read_at_whole. }
  split; try done.
  - destruct Hlay as [lay]. destruct (table_fits _ _ _ lay) as (T1 & T2 & T3 & T4). split.
    + by rewrite H1.
    + rewrite H2, H3, H4, H5, Hn. unfold is_u32, num_overflow_slots in *. change (2 ^ 32) with 4294967296 in *.
      repeat apply Forall_cons_2; try apply Forall_nil_2; try lia. pose proof (u32_range (Z.of_nat (length dictionary))) as Hd.
      unfold is_u32 in Hd. change (2 ^ 32) with 4294967296 in Hd. lia.
    + unfold is_u64. change (2 ^ 64) with 18446744073709551616. rewrite H6.
      do 2 (apply Forall_cons_2; [lia|]). apply Forall_cons_2; [destruct dictionary; cbn; lia|].
      apply Forall_forall. intros o Hin%list_elem_of_In. specialize (Ho o Hin). lia.
  - split; [done|]. change (2 ^ 24) with 16777216. lia.
Qed.

Lemma database_parts : exists c groups h full, parts c groups h full.
Proof. destruct database_readable as (c & groups & h & full & H & _). by exists c, groups, h, full. Qed.

(** ** The readers on it *)

Context (c : EncodingCorpus) (groups : list (list bytes)) (h : Header) (full : bytes) (Hparts : parts c groups h full).

Lemma open_database iv : open_corpus iv file = Some (with_visibility (if iv then false else visibility) h).
Proof.
  destruct Hparts as [Hfile Hstart _ (H1 & H2 & H3 & H4 & H5) Hwf _ _ _ _ _]. unfold open_corpus.
  assert (Hl : length (header_bytes h) = sizeof_Header) by (apply length_header_bytes; by rewrite H1).
  rewrite Hfile. pose proof (read_at_mid [] (header_bytes h) (drop sizeof_Header full) (Z.of_nat sizeof_Header) 0) as Hr.
  cbn [app length] in Hr. change (Z.of_nat 0 + 0) with 0 in Hr. rewrite Hr by lia. rewrite <- Hl at 1.
  rewrite read_at_whole. cbn [mbind option_bind]. rewrite <- (app_nil_r (header_bytes h)), parse_header_bytes by done.
  cbn [mbind option_bind]. rewrite H1, bool_decide_eq_true_2 by done. cbn [negb]. rewrite H2. cbn [Z.eqb andb negb Pos.eqb].
  rewrite H3. cbn. unfold with_visibility. by rewrite H1, H2, H3, H5.
Qed.

Lemma read_at_full len off : Z.of_nat sizeof_Header <= off -> read_at file len off = read_at full len off.
Proof.
  intros Ho. destruct Hparts as [Hfile Hstart _ (H1 & _) _ _ _ _ _ _]. rewrite Hfile.
  apply read_at_rest; [|done|done]. apply length_header_bytes. by rewrite H1.
Qed.

Lemma dictionary_found iv : section_at full (zstd_dictionary_length_bytes h) (zstd_dictionary_offset_bytes h) dictionary ->
  (h ← open_corpus iv file; read_dictionary h file) = Some (match dictionary with [] => None | _ => Some dictionary end).
Proof.
  intros Hd. rewrite open_database. cbn [mbind option_bind]. unfold read_dictionary.
  change (zstd_dictionary_length_bytes (with_visibility _ h)) with (zstd_dictionary_length_bytes h).
  change (zstd_dictionary_offset_bytes (with_visibility _ h)) with (zstd_dictionary_offset_bytes h).
  unfold section_at in Hd. destruct dictionary as [|d ds] eqn:Ed; [rewrite decide_True in Hd by done; destruct Hd as [-> _]; done|].
  rewrite decide_False in Hd by done. destruct Hd as (El & Ho & Hr). rewrite (proj2 (Z.ltb_lt _ _)) by (rewrite El; cbn [length]; lia).
  by rewrite read_at_full, Hr.
Qed.

Lemma full_small : Z.of_nat (length full) < 2 ^ 36.
Proof.
  destruct Hparts as [Hfile Hstart _ (H1 & _) _ _ _ _ _ _]. rewrite Hfile in Hsmall.
  rewrite length_app, length_header_bytes, length_drop in Hsmall by (by rewrite H1). lia.
Qed.

Abbreviation enc := (pl_encoded buf c).
Abbreviation num := (pl_num_docids buf c).

(** What the lists of [c] are, for the 24-bit trigrams. *)
Lemma posting_lists t : 0 <= t < 2 ^ 24 ->
  (t ∈ all_trigrams c <-> blocks_with groups t <> []) /\
  (t ∈ all_trigrams c -> num t = Z.of_nat (length (blocks_with groups t)) /\ forall tail, slop tail ->
    decode_pfor_delta1_128 (enc t ++ tail) (length (blocks_with groups t)) true = Some (blocks_with groups t, tail)).
Proof.
  intros Ht. pose proof (pa_lists _ _ _ _ Hparts t) as Hl. rewrite elem_of_all_trigrams.
  assert (Hrange : 0 <= t < NUM_TRIGRAMS) by done.
  unfold pl_encoded, pl_num_docids, seen_trigram, finished_list in *. case_decide as Hb.
  - apply bool_decide_eq_false in Hl. split; [tauto|]. intros [_ Hs]. by destruct (Hl Hs).
  - destruct Hl as (pl & Hf & Hn & Hd). split.
    + split; [done|]. intros _. split; [done|]. destruct (invindex c !! t) as [p|]; [by exists p|done].
    + intros _. rewrite Hf, Hn. split; [|exact Hd]. pose proof (blocks_with_length groups t) as Hlen.
      destruct (pa_count _ _ _ _ Hparts) as [_ Hc]. rewrite u32_small; [done|]. unfold is_u32.
      change (2 ^ 24) with 16777216 in *. change (2 ^ 32) with 4294967296. lia.
Qed.

Lemma posting_lists_nonzero : Forall (fun t => num t <> 0) (all_trigrams c).
Proof.
  apply Forall_forall. intros t Ht. pose proof (proj1 (proj1 (elem_of_all_trigrams c t) Ht)) as Hr.
  assert (Hr' : 0 <= t < 2 ^ 24) by done. destruct (posting_lists t Hr') as [H1 H2]. destruct (H2 Ht) as [-> _].
  apply H1 in Ht. destruct (blocks_with groups t); [done|]. cbn [length]. lia.
Qed.

Section Table.
Context (lay : layout c enc num h full).

Abbreviation ht := (lo_table _ _ _ _ _ lay).
Abbreviation off := (lo_offset _ _ _ _ _ lay).
Abbreviation index_bytes := (concat (map (le_bytes 8) (filename_blocks c ++ [u64 (Z.of_nat (length (outfp c)))]))).

Lemma table_created : ht_inv (hashtable_size h) num_overflow_slots ht /\ entries ht ≡ₚ map (new_entry num) (all_trigrams c).
Proof.
  destruct (lo_created _ _ _ _ _ lay) as [Hpos Hc]. destruct (table_fits _ _ _ lay) as (_ & T2 & _).
  pose proof full_small as Hs. change (2 ^ 36) with 68719476736 in Hs.
  destruct (create_hashtable_spec num (all_trigrams c) (hashtable_size h) num_overflow_slots) as (r & E & Hr);
    [done|done| |exact posting_lists_nonzero|].
  { unfold num_overflow_slots. change (2 ^ 32) with 4294967296. lia. }
  rewrite E in Hc. injection Hc as ->. done.
Qed.

Lemma table_length : Z.of_nat (length ht) = hashtable_size h + 17.
Proof. destruct table_created as [Hinv _]. rewrite (hi_len _ _ _ Hinv). unfold num_overflow_slots. lia. Qed.

Lemma lists_at : off = hash_table_offset_bytes h + 16 * Z.of_nat (length ht) /\
  off + Z.of_nat (length (write_posting_lists enc ht)) <= Z.of_nat (length full) /\ Z.of_nat sizeof_Header <= hash_table_offset_bytes h.
Proof.
  pose proof table_length as Hl. pose proof full_small as Hs. change (2 ^ 36) with 68719476736 in Hs.
  pose proof (lo_full _ _ _ _ _ lay) as Hf. pose proof (lo_table_at _ _ _ _ _ lay) as Ht.
  pose proof (f_equal (fun l => Z.of_nat (length l)) Hf) as Hlen. cbn beta in Hlen. rewrite !length_app in Hlen.
  rewrite (concat_fixed_length trigram_bytes 16) in Hlen by apply length_trigram_bytes.
  rewrite (concat_fixed_length (le_bytes 8) 8) in Hlen by apply length_le_bytes.
  rewrite length_assign_offsets, length_app in Hlen. cbn [length] in Hlen.
  pose proof (lo_lists_at _ _ _ _ _ lay) as Ho. unfold num_overflow_slots in Ho. rewrite u64_small in Ho.
  - rewrite (pa_out _ _ _ _ Hparts) in *. rewrite length_app, length_start in *. lia.
  - unfold is_u64. change (2 ^ 64) with 18446744073709551616. lia.
Qed.

Lemma table_slots_wf : Forall slot_wf (assign_offsets enc off ht).
Proof.
  destruct table_created as [Hinv Hperm]. destruct lists_at as (Ho & Hend & Hstart).
  pose proof full_small as Hs. change (2 ^ 36) with 68719476736 in Hs.
  apply Forall_lookup. intros i e He. assert (Hi := lookup_lt_Some _ _ _ He). rewrite length_assign_offsets in Hi.
  destruct (lookup_lt_is_Some_2 ht i Hi) as [a Ha].
  rewrite (assign_offsets_lookup enc ht i a off Ha) in He; [|lia|change (2 ^ 64) with 18446744073709551616; lia].
  injection He as <-. pose proof (position_total enc ht i) as Hp. unfold position in Hp.
  assert (Hwf : is_u32 (trgm a) /\ is_u32 (tg_num_docids a)).
  { unfold is_u32. change (2 ^ 32) with 4294967296. destruct (decide (occupied a)) as [Hocc|Hocc].
    - assert (Hin : a ∈ entries ht) by (apply entries_elem; split; [done|by eapply list_elem_of_lookup_2]).
      rewrite Hperm in Hin. apply elem_new_entry in Hin as [Hin ->]. cbn [trgm tg_num_docids new_entry].
      pose proof (proj1 (proj1 (elem_of_all_trigrams c _) Hin)) as Hr. unfold NUM_TRIGRAMS in Hr. split; [lia|].
      destruct (posting_lists (trgm a) Hr) as [_ H2]. destruct (H2 Hin) as [-> _].
      pose proof (blocks_with_length groups (trgm a)). destruct (pa_count _ _ _ _ Hparts) as [_ Hc].
      change (2 ^ 24) with 16777216 in Hc. lia.
    - rewrite (hi_empty _ _ _ Hinv i a Ha Hocc). change (u32 (-1)) with 4294967295. split; [lia|].
      destruct (Z.eq_dec (tg_num_docids a) 0) as [->|Hn]; [lia|]. by destruct Hocc. }
  split; cbn [trgm tg_num_docids tg_offset]; [apply Hwf|apply Hwf|]. unfold is_u64, position.
  change (2 ^ 64) with 18446744073709551616. lia.
Qed.

(** The read of the slots. *)
Lemma read_table i k : 0 <= i -> 0 <= k -> i + k <= Z.of_nat (length ht) ->
  read_at file (16 * k) (hash_table_offset_bytes h + 16 * i)
  = Some (concat (map trigram_bytes (take (Z.to_nat k) (drop (Z.to_nat i) (assign_offsets enc off ht))))).
Proof.
  intros Hi Hk Hl. destruct lists_at as (_ & _ & Hstart). rewrite read_at_full by lia.
  assert (Hpre : hash_table_offset_bytes h = Z.of_nat (length (outfp c ++ index_bytes))).
  { rewrite (lo_table_at _ _ _ _ _ lay), length_app, (concat_fixed_length (le_bytes 8) 8) by apply length_le_bytes.
    rewrite length_app. cbn [length]. lia. }
  rewrite (f_equal (fun l => read_at l (16 * k) (hash_table_offset_bytes h + 16 * i)) (lo_full _ _ _ _ _ lay)).
  rewrite Hpre, app_assoc, read_at_mid; [|lia|lia|rewrite (concat_fixed_length trigram_bytes 16) by apply length_trigram_bytes;
    rewrite length_assign_offsets; lia].
  apply (read_at_fixed trigram_bytes 16); [apply length_trigram_bytes|lia|lia|rewrite length_assign_offsets; lia].
Qed.

Lemma corpus_find_table t : corpus_find_trigram file h t
  = find_trigram (hashtable_size h) num_overflow_slots (assign_offsets enc off ht) t.
Proof.
  destruct (pa_header _ _ _ _ Hparts) as (_ & _ & _ & Hx & _). destruct (lo_created _ _ _ _ _ lay) as [Hpos _].
  pose proof (hash_trigram_range t (hashtable_size h) Hpos) as Hh. pose proof table_length as Hl.
  destruct lists_at as (Ho & Hend & Hstart). pose proof full_small as Hs. change (2 ^ 36) with 68719476736 in Hs.
  unfold corpus_find_trigram, find_trigram. cbn zeta. rewrite Hx. unfold num_overflow_slots.
  revert Hh. generalize (hash_trigram t (hashtable_size h)). intros bucket Hh. rewrite length_assign_offsets, decide_True by lia.
  rewrite u64_small by (unfold is_u64; change (2 ^ 64) with 18446744073709551616; lia).
  rewrite (read_table bucket (16 + 2)) by lia.
  cbn [mbind option_bind]. set (slots := drop _ _).
  assert (Hsl : (Z.to_nat (16 + 2) <= length slots)%nat) by (unfold slots; rewrite length_drop, length_assign_offsets; lia).
  assert (Ep : parse_slots (Z.to_nat (16 + 2)) (concat (map trigram_bytes (take (Z.to_nat (16 + 2)) slots)))
    = Some (take (Z.to_nat (16 + 2)) slots)).
  { rewrite <- (parse_slots_bytes (take _ slots)) by (apply Forall_take, Forall_drop, table_slots_wf).
    f_equal. rewrite length_take. lia. }
  rewrite Ep. cbn [mbind option_bind]. change (Z.to_nat (16 + 2)) with (S (Z.to_nat (16 + 1))). by apply find_loop_take.
Qed.

End Table.

(** A trigram is found exactly if a block has it, and its list is read back. *)
Lemma lookup_in_database t : 0 <= t < 2 ^ 24 ->
  if decide (blocks_with groups t = []) then corpus_find_trigram file h t = Some None
  else exists e, corpus_find_trigram file h t = Some (Some e) /\ trgm (fst e) = t /\
    tg_num_docids (fst e) = Z.of_nat (length (blocks_with groups t)) /\
    forall slop_bytes, slop slop_bytes -> read_posting_list file slop_bytes e = Some (blocks_with groups t).
Proof.
  intros Ht. destruct (pa_layout _ _ _ _ Hparts) as [lay]. rewrite (corpus_find_table lay).
  destruct (table_created lay) as [Hinv Hperm]. destruct (lists_at lay) as (Ho & Hend & Hstart).
  destruct (lo_created _ _ _ _ _ lay) as [Hpos _]. pose proof full_small as Hs.
  change (2 ^ 36) with 68719476736 in Hs. destruct (posting_lists t Ht) as [Hiff Hlist].
  assert (Htot : lo_offset _ _ _ _ _ lay + Z.of_nat (length (write_posting_lists enc (lo_table _ _ _ _ _ lay))) < 2 ^ 64)
    by (change (2 ^ 64) with 18446744073709551616; lia).
  assert (Hoff : 0 <= lo_offset _ _ _ _ _ lay) by lia.
  case_decide as Hb.
  - assert (Hn : t ∉ all_trigrams c) by (rewrite Hiff; auto).
    by apply (find_absent num enc (all_trigrams c) (hashtable_size h) _ _ Hpos Hinv Hperm Hoff Htot).
  - assert (Hin : t ∈ all_trigrams c) by by apply Hiff. destruct (Hlist Hin) as [Hnum Hdec].
    destruct (find_present num enc (all_trigrams c) (hashtable_size h) _ _ Hpos Hinv Hperm posting_lists_nonzero Hoff Htot t Ht Hin)
      as (o & -> & H1 & H2 & H3).
    eexists. split; [done|]. split; [done|]. split; [done|]. intros slop_bytes Hslop.
    unfold read_posting_list. cbn [fst snd tg_offset tg_num_docids]. rewrite read_at_full by lia.
    assert (Hread : read_at full (Z.of_nat (length (enc t))) o = Some (enc t)).
    { rewrite (f_equal (fun l => read_at l (Z.of_nat (length (enc t))) o) (lo_full _ _ _ _ _ lay)).
      set (off := lo_offset _ _ _ _ _ lay) in *. set (ht := lo_table _ _ _ _ _ lay) in *.
      rewrite !app_assoc. rewrite <- (app_assoc _ (write_posting_lists enc ht)). set (pre := (outfp c ++ _) ++ _).
      assert (Hpre : Z.of_nat (length pre) = off).
      { unfold pre. rewrite !length_app, (concat_fixed_length trigram_bytes 16) by apply length_trigram_bytes.
        rewrite (concat_fixed_length (le_bytes 8) 8) by apply length_le_bytes. rewrite length_assign_offsets, length_app.
        cbn [length]. pose proof (lo_table_at _ _ _ _ _ lay). lia. }
      replace o with (Z.of_nat (length pre) + (o - off)) by lia. rewrite read_at_mid by lia. unfold read_at.
      rewrite decide_True by lia. by rewrite Nat2Z.id, H2. }
    rewrite Hread. cbn [mbind option_bind]. rewrite Hnum, Nat2Z.id, Hdec by done. done.
Qed.

(** ** The blocks of names *)

Abbreviation chunks := (map chunk groups).
Abbreviation offsets := (chunk_offsets (Z.of_nat (length start)) chunks ++ [Z.of_nat (length start) + Z.of_nat (length (concat chunks))]).

Lemma outfp_small : Z.of_nat (length start) + Z.of_nat (length (concat chunks)) < 2 ^ 36 /\
  (sizeof_Header <= length start)%nat.
Proof.
  destruct (pa_layout _ _ _ _ Hparts) as [lay]. pose proof full_small as Hs.
  pose proof (f_equal (fun l => Z.of_nat (length l)) (lo_full _ _ _ _ _ lay)) as Hl. cbn beta in Hl.
  rewrite length_app, (pa_out _ _ _ _ Hparts), length_app in Hl. rewrite length_start in *. lia.
Qed.

Lemma read_offsets i k : 0 <= i -> 0 <= k -> i + k <= Z.of_nat (length groups) + 1 ->
  read_at file (k * 8) (offset_for_block h i)
  = Some (concat (map (le_bytes 8) (take (Z.to_nat k) (drop (Z.to_nat i) offsets)))).
Proof.
  intros Hi Hk Hl. destruct (pa_layout _ _ _ _ Hparts) as [lay]. destruct outfp_small as [Hsm Hst].
  destruct (table_fits _ _ _ lay) as (_ & _ & T3 & T4). pose proof full_small as Hs.
  change (2 ^ 36) with 68719476736 in *. pose proof (pa_out _ _ _ _ Hparts) as Hout.
  pose proof (pa_count _ _ _ _ Hparts) as [_ Hg]. change (2 ^ 24) with 16777216 in Hg.
  unfold offset_for_block. rewrite u64_small by (unfold is_u64; change (2 ^ 64) with 18446744073709551616; lia).
  rewrite (lo_index_at _ _ _ _ _ lay) in *.
  assert (Hst2 : Z.of_nat sizeof_Header <= Z.of_nat (length (outfp c))) by (rewrite Hout, length_app; lia).
  rewrite read_at_full by lia. rewrite (f_equal (fun l => read_at l (k * 8) (Z.of_nat (length (outfp c)) + i * 8)) (lo_full _ _ _ _ _ lay)).
  assert (Hoffs : filename_blocks c ++ [u64 (Z.of_nat (length (outfp c)))] = offsets).
  { rewrite (pa_offsets _ _ _ _ Hparts), u64_small.
    - do 2 f_equal. rewrite Hout, length_app. lia.
    - unfold is_u64. change (2 ^ 64) with 18446744073709551616. lia. }
  rewrite Hoffs. assert (Hlen : length offsets = S (length groups)).
  { rewrite length_app, length_chunk_offsets, length_map. cbn. lia. }
  rewrite read_at_mid; [|lia|lia|rewrite (concat_fixed_length (le_bytes 8) 8) by apply length_le_bytes; rewrite Hlen; lia].
  rewrite (Z.mul_comm k), (Z.mul_comm i). apply (read_at_fixed (le_bytes 8) 8); [apply length_le_bytes|lia|lia|rewrite Hlen; lia].
Qed.

Lemma offset_u64 i v : offsets !! i = Some v ->
  v = Z.of_nat (length start) + Z.of_nat (length (concat (take i chunks))) /\ is_u64 v /\ Z.of_nat sizeof_Header <= v.
Proof.
  intros Hv. destruct outfp_small as [Hsm Hst]. change (2 ^ 36) with 68719476736 in *.
  assert (Hi : (i <= length chunks)%nat).
  { apply lookup_lt_Some in Hv. rewrite length_app, length_chunk_offsets in Hv. cbn in Hv. lia. }
  rewrite chunk_offsets_lookup in Hv by done.
  assert (v = Z.of_nat (length start) + Z.of_nat (length (concat (take i chunks)))) as -> by congruence. split; [done|].
  pose proof (concat_take_drop chunks i 0) as Hc. apply (f_equal length) in Hc. rewrite !length_app in Hc.
  unfold is_u64. change (2 ^ 64) with 18446744073709551616. lia.
Qed.

Lemma read_run i k : (i + k <= length groups)%nat -> forall from to,
  offsets !! i = Some from -> offsets !! (i + k)%nat = Some to ->
  read_at file (u64 (to - from)) from = Some (concat (take k (drop i chunks))).
Proof.
  intros Hi from to Hf Ht. destruct (pa_layout _ _ _ _ Hparts) as [lay].
  destruct (offset_u64 _ _ Hf) as (Ef & Hf1 & Hf2). destruct (offset_u64 _ _ Ht) as (Et & Ht1 & _).
  assert (Hrun : to - from = Z.of_nat (length (concat (take k (drop i chunks))))).
  { rewrite Ef, Et. assert (E : take (i + k) chunks = take i chunks ++ take k (drop i chunks)).
    { rewrite <- (take_drop i chunks) at 1. rewrite take_app. rewrite length_take, length_map.
      replace (i + k - min i (length groups))%nat with k by lia. f_equal. rewrite take_take. f_equal. lia. }
    rewrite E, concat_app, length_app. lia. }
  rewrite u64_small by (unfold is_u64 in *; lia). rewrite read_at_full by done.
  rewrite (f_equal (fun l => read_at l (to - from) from) (lo_full _ _ _ _ _ lay)), (pa_out _ _ _ _ Hparts), <- app_assoc.
  rewrite Hrun, Ef. apply read_chunks. by rewrite length_map.
Qed.

Lemma offsets_some i : (i <= length groups)%nat -> exists v, offsets !! i = Some v.
Proof. intros Hi. eexists. apply chunk_offsets_lookup. by rewrite length_map. Qed.

Lemma take_one {A} (l : list A) i x : l !! i = Some x -> take 1 (drop i l) = [x].
Proof. intros H. by rewrite (drop_S _ _ _ H). Qed.

Lemma chunk_at i g : groups !! i = Some g -> concat (take 1 (drop i chunks)) = chunk g.
Proof.
  intros Hg. rewrite (take_one _ _ (chunk g)); [cbn; by rewrite app_nil_r|]. by rewrite list_lookup_fmap, Hg.
Qed.

Lemma get_block i g : groups !! i = Some g -> get_compressed_filename_block file h (Z.of_nat i) = Some (chunk g).
Proof.
  intros Hg. assert (Hi := lookup_lt_Some _ _ _ Hg). destruct (offsets_some i) as [from Hf]; [lia|].
  destruct (offsets_some (S i)) as [to Ht]; [lia|]. unfold get_compressed_filename_block.
  change 16 with (2 * 8). rewrite read_offsets by lia. cbn [mbind option_bind].
  rewrite Nat2Z.id, (drop_S _ _ _ Hf), (drop_S _ _ _ Ht). change (Z.to_nat 2) with 2%nat. cbn [take map concat].
  rewrite get_u64_le. cbn [mbind option_bind]. rewrite get_u64_le. cbn [mbind option_bind].
  destruct (offset_u64 _ _ Hf) as (_ & Hf1 & _). destruct (offset_u64 _ _ Ht) as (_ & Ht1 & _).
  rewrite (u64_small from), (u64_small to) by done.
  rewrite (read_run i 1); [|lia|done|by rewrite Nat.add_1_r].
  by rewrite (chunk_at i g).
Qed.

Lemma all_offsets : exists s, read_at file ((num_docids h + 1) * 8) (offset_for_block h 0) = Some s /\
  parse_offsets (Z.to_nat (num_docids h + 1)) s = Some offsets.
Proof.
  destruct (pa_count _ _ _ _ Hparts) as [Hn _]. rewrite Hn. eexists. split; [apply read_offsets; lia|].
  change (Z.to_nat 0) with O. rewrite drop_0.
  assert (Hlen : length offsets = Z.to_nat (Z.of_nat (length groups) + 1)).
  { rewrite length_app, length_chunk_offsets, length_map. cbn [length]. lia. }
  rewrite take_ge by (rewrite Hlen; lia). rewrite <- Hlen. apply parse_offsets_bytes.
  apply Forall_lookup. intros i v Hv. by destruct (offset_u64 _ _ Hv) as (_ & ? & _).
Qed.

Lemma scan_block i g : groups !! i = Some g -> scanned_block file h (Z.of_nat i) = Some (chunk g).
Proof.
  intros Hg. assert (Hi := lookup_lt_Some _ _ _ Hg). destruct (pa_count _ _ _ _ Hparts) as [Hn _].
  unfold scanned_block. destruct all_offsets as (bs & -> & Hoffs). cbn [mbind option_bind]. rewrite Hoffs. cbn [mbind option_bind].
  rewrite Hn. set (io := Z.of_nat i / 32 * 32). set (last := Z.min (io + 32) (Z.of_nat (length groups))).
  assert (Hio : 0 <= io <= Z.of_nat i /\ Z.of_nat i < io + 32).
  { unfold io. pose proof (Z.div_mod (Z.of_nat i) 32 ltac:(lia)) as Hd.
    pose proof (Z.mod_pos_bound (Z.of_nat i) 32 ltac:(lia)) as Hm. pose proof (Z.div_pos (Z.of_nat i) 32). lia. }
  clearbody io. destruct (offsets_some (Z.to_nat io)) as [io_from Hiof]; [lia|].
  destruct (offsets_some (Z.to_nat last)) as [io_to Hiot]; [lia|].
  destruct (offsets_some i) as [from Hf]; [lia|]. destruct (offsets_some (S i)) as [to Ht]; [lia|].
  rewrite Hiof, Hiot. cbn [mbind option_bind].
  set (j := Z.to_nat io) in *. set (k := (Z.to_nat last - j)%nat).
  rewrite (read_run j k); [|lia|done|by replace (j + k)%nat with (Z.to_nat last) by lia]. cbn [mbind option_bind].
  rewrite Nat2Z.id, Hf. cbn [mbind option_bind]. replace (Z.to_nat (Z.of_nat i + 1)) with (S i) by lia. rewrite Ht. cbn [mbind option_bind].
  destruct (offset_u64 _ _ Hiof) as (E0 & U0 & _). destruct (offset_u64 _ _ Hf) as (E1 & U1 & _).
  destruct (offset_u64 _ _ Ht) as (E2 & U2 & _).
  assert (Hpre : take i chunks = take j chunks ++ take (i - j) (drop j chunks)).
  { rewrite <- (take_drop j chunks) at 1. rewrite take_app, length_take, length_map.
    replace (i - min j (length groups))%nat with (i - j)%nat by lia. f_equal. rewrite take_take. f_equal. lia. }
  assert (Hsuc : take (S i) chunks = take i chunks ++ [chunk g]).
  { apply take_S_r. by rewrite list_lookup_fmap, Hg. }
  assert (D1 : from - io_from = Z.of_nat (length (concat (take (i - j) (drop j chunks))))).
  { rewrite E0, E1, Hpre, concat_app, length_app. lia. }
  assert (D2 : to - from = Z.of_nat (length (concat (take 1 (drop (i - j) (take k (drop j chunks))))))).
  { rewrite E1, E2, Hsuc, concat_app, length_app. rewrite (take_one _ _ (chunk g)); [lia|].
    rewrite lookup_take_lt by lia. rewrite lookup_drop, list_lookup_fmap. by replace (j + (i - j))%nat with i by lia; rewrite Hg. }
  rewrite !u64_small by (unfold is_u64 in *; lia). rewrite D1, D2.
  pose proof (read_chunks [] (take k (drop j chunks)) [] (i - j) 1) as Hr. cbn [app length] in Hr. rewrite app_nil_r in Hr.
  rewrite take_take in Hr. replace (min (i - j) k) with (i - j)%nat in Hr by lia.
  change (Z.of_nat 0 + ?z) with z in Hr. rewrite Hr.
  - rewrite (take_one _ _ (chunk g)); [cbn; by rewrite app_nil_r|]. rewrite lookup_take_lt by lia.
    rewrite lookup_drop, list_lookup_fmap. by replace (j + (i - j))%nat with i by lia; rewrite Hg.
  - rewrite length_take, length_drop, length_map. lia.
Qed.

End Database.

Lemma dictionary_read zstd_compress buf1 buf fuel prime_fuel block_size dictionary visibility paths s file iv :
  (forall b, zstd_compress b <> []) -> (length buf1 = P4NENC_BOUND 1 /\ length buf = P4NENC_BOUND 128 /\ Forall is_byte buf) ->
  0 < block_size -> Forall path_ok paths /\ Z.of_nat (length paths) < 2 ^ 24 ->
  build_database zstd_compress buf1 buf fuel prime_fuel block_size dictionary visibility paths s = Some file ->
  Z.of_nat (length file) < 2 ^ 36 -> Z.of_nat (length dictionary) < 2 ^ 32 ->
  (h ← open_corpus iv file; read_dictionary h file) = Some (match dictionary with [] => None | _ => Some dictionary end).
Proof.
  intros H1 H2 H3 H4 H5 H6 H7. destruct (database_readable zstd_compress buf1 buf fuel prime_fuel block_size dictionary visibility paths s
    file H1 H2 H3 H4 H5 H6 H7) as (c & groups & h & full & Hparts & _ & Hd). by eapply dictionary_found.
Qed.
