(* ===== verification/DatabaseSearch.v ===== *)
(** * From names to search results (src/database-builder.cpp and src/flocate.cpp together)

    The database that [build_database] writes, searched by [do_search_file]
    through the readers of [Corpus]: the output is the matching names. *)
From S2P Require Import Prelude PostingList TurboPForDecode HashTable Corpus Serializer Trigrams Search SearchFile.
From S2P Require Import DbHeader DatabaseFile.

(** ** Definitions *)

Section SearchDatabase.
Context (opt : Options) (fnmatch regexec : bytes -> bytes -> bool) (zstd_decompress : bytes -> option bytes).
(** Whether the directories of a name can be searched, and whether [lstat] succeeds. *)
Context (accessible lstat : bytes -> bool).
(** What the read buffers hold behind the data, and what is not determined. *)
Context (slop_bytes : bytes) (arrivals : list Z) (sort_groups : list TrigramDisjunction -> list TrigramDisjunction)
  (arrive : list (Trigram * Z) -> list (Trigram * Z)) (loc : Locale) (fuel : nat).

(** A failed read ends the program before the callback; see [lookups_succeed]. *)
Definition lookup_trigram (file : bytes) (h : Header) (t : Z) : option (Trigram * Z) :=
  match corpus_find_trigram file h t with Some answer => answer | None => None end.

Definition decoded_list (file : bytes) (e : Trigram * Z) : list Z :=
  match read_posting_list file slop_bytes e with Some l => l | None => [] end.

(** [check_access]: without the visibility check every name may be shown. *)
Definition check_access (h : Header) (filename : bytes) : bool := negb (check_visibility h) || accessible filename.

(** [do_search_file] on the bytes of a database. *)
Definition search_database (ignore_visibility root_accessible : bool) (needles : list Needle) (file : bytes)
    : option SearchOutcome :=
  if negb root_accessible then Some (Found [] 0)
  else
    match open_corpus ignore_visibility file with
    | None => Some (ExitNow 1)
    | Some h =>
      do_search_file opt fnmatch regexec (check_access h) lstat (get_compressed_filename_block file h)
        (scanned_block file h) zstd_decompress (num_docids h) (lookup_trigram file h) (decoded_list file)
        root_accessible arrivals sort_groups arrive loc fuel needles
    end.

End SearchDatabase.

(** ** Lemmas *)

Lemma indexed_all files : Forall (fun f => length f <> 3%nat) files -> indexed files = files.
Proof.
  induction 1 as [|f files Hf F IH]; [done|]. destruct files as [|g files].
  - cbn. by rewrite (proj2 (Nat.eqb_neq _ _) Hf).
  - change (indexed (f :: g :: files)) with (f :: indexed (g :: files)). by rewrite IH.
Qed.

Section Index.
Context (zstd_compress : bytes -> bytes) (buf1 buf : bytes) (fuel prime_fuel : nat) (block_size : Z)
  (dictionary : bytes) (visibility : bool) (paths : list bytes) (s : Sections) (file : bytes) (slop_bytes : bytes).
Context (Hbufs : length buf1 = P4NENC_BOUND 1 /\ length buf = P4NENC_BOUND 128 /\ Forall is_byte buf).
Context (Hpaths : Forall path_ok paths /\ Z.of_nat (length paths) < 2 ^ 24).
Context (Hsmall : Z.of_nat (length file) < 2 ^ 36) (Hslop : slop slop_bytes) (Hbs : 0 < block_size < 2 ^ 31).
Context (c : EncodingCorpus) (groups : list (list bytes)) (h : Header) (full : bytes).
Context (Hparts : parts zstd_compress buf block_size dictionary visibility paths file c groups h full).

(** The readers on an opened database do not depend on the visibility. *)
Lemma lookups_succeed v t : is_trigram t ->
  corpus_find_trigram file (with_visibility v h) t = Some (lookup_trigram file (with_visibility v h) t).
Proof.
  intros Ht. unfold lookup_trigram. change (corpus_find_trigram file (with_visibility v h) t) with (corpus_find_trigram file h t).
  pose proof (lookup_in_database _ _ _ _ _ _ _ _ Hbufs Hpaths Hsmall _ _ _ _ Hparts t Ht) as H.
  case_decide; [by rewrite H|]. destruct H as (e & -> & _). done.
Qed.

#[local] Instance database_index v :
  Index (lookup_trigram file (with_visibility v h)) (decoded_list slop_bytes file) (blocks_with groups)
    (fun x => 0 <= x < Z.of_nat (length groups)).
Proof.
  assert (Hl : forall t, is_trigram t -> _) by exact (fun t Ht => lookup_in_database _ _ _ _ _ _ _ _ Hbufs Hpaths Hsmall _ _ _ _ Hparts t Ht).
  split.
  - intros t e Ht. unfold lookup_trigram, decoded_list. specialize (Hl t Ht). case_decide as Hb.
    + change (corpus_find_trigram file (with_visibility v h) t) with (corpus_find_trigram file h t). by rewrite Hl.
    + change (corpus_find_trigram file (with_visibility v h) t) with (corpus_find_trigram file h t).
      destruct Hl as (e' & -> & H1 & _ & H3). intros [= <-]. split; [done|]. by rewrite H3.
  - intros t Ht. unfold lookup_trigram. specialize (Hl t Ht).
    change (corpus_find_trigram file (with_visibility v h) t) with (corpus_find_trigram file h t).
    case_decide as Hb; [done|]. destruct Hl as (e' & -> & _). done.
  - apply blocks_with_increasing.
  - intros t x Hx. pose proof (blocks_with_lt groups t) as F. rewrite Forall_forall in F. by apply F.
Qed.

Context (decompress : bytes -> option bytes) (Hzip : forall b, decompress (zstd_compress b) = Some b).
Context (Hlong : Forall (fun p => length p <> 3%nat) paths).

Lemma database_blocks_ok read :
  (forall i g, groups !! i = Some g -> read (Z.of_nat i) = Some (zstd_compress (join g))) -> blocks_ok read decompress groups.
Proof.
  intros Hread. destruct (pa_groups _ _ _ _ _ _ _ _ _ _ _ Hparts) as [Hg Hsizes].
  destruct (pa_count _ _ _ _ _ _ _ _ _ _ _ Hparts) as [_ Hn]. split.
  - intros i g Hi. exists (zstd_compress (join g)). split; [by apply Hread|done].
  - apply Forall_forall. intros g Hin. rewrite Forall_forall in Hsizes. destruct (Hsizes g Hin) as [H1 H2].
    assert (Hsub : forall f, f ∈ g -> f ∈ paths).
    { intros f Hf. rewrite <- Hg. apply list_elem_of_In, in_concat. exists g. split; by apply list_elem_of_In. }
    destruct Hpaths as [Hok _]. rewrite Forall_forall in Hok, Hlong. split; [done|]. split; [|split; [|lia]].
    + apply Forall_forall. intros f Hf. by apply Hok, Hsub.
    + apply indexed_all, Forall_forall. intros f Hf. by apply Hlong, Hsub.
  - change (2 ^ 24) with 16777216 in Hn. change (2 ^ 31) with 2147483648. lia.
Qed.

End Index.

(** ** Correctness *)

(** Searching what was built; see [database_search_exact]. *)
Lemma search_built zstd_compress decompress buf1 buf hash_fuel prime_fuel block_size dictionary visibility
    paths s file opt fnmatch regexec accessible lstat slop_bytes arrivals
    (sort_groups : list TrigramDisjunction -> list TrigramDisjunction) (arrive : list (Trigram * Z) -> list (Trigram * Z))
    loc fuel iv needles
    (Hzstd : forall b, zstd_compress b <> [] /\ decompress (zstd_compress b) = Some b)
    (Hbufs : length buf1 = P4NENC_BOUND 1 /\ length buf = P4NENC_BOUND 128 /\ Forall is_byte buf)
    (Hbs : 0 < block_size < 2 ^ 31)
    (Hpaths : Forall (fun p => path_ok p /\ length p <> 3%nat) paths /\ Z.of_nat (length paths) < 2 ^ 24)
    (Hbuild : build_database zstd_compress buf1 buf hash_fuel prime_fuel block_size dictionary visibility paths s = Some file)
    (Hsizes : Z.of_nat (length file) < 2 ^ 36 /\ Z.of_nat (length dictionary) < 2 ^ 32)
    (Hslop : slop slop_bytes) (Hloc : locale_ok loc)
    (Hneedles : patterns_are_regex opt = true \/ Forall (needle_ok opt fnmatch loc fuel) needles)
    (Hsort : forall l, sort_groups l ≡ₚ l) (Harrive : forall l, arrive l ≡ₚ l)
    (Harrivals : forall gs, needle_groups opt loc fuel needles = Some gs ->
      arrivals ≡ₚ trigrams_to_lookup (trigram_groups gs)) :
  search_result_ok
    (List.filter (wanted opt fnmatch regexec (fun f => negb (if (iv : bool) then false else visibility) || accessible f) lstat needles) paths)
    (search_database opt fnmatch regexec decompress accessible lstat slop_bytes arrivals sort_groups arrive loc fuel
       iv true needles file).
Proof.
  destruct Hsizes as [Hsmall Hdict], Hpaths as [Hp Hcount].
  assert (Hp1 : Forall path_ok paths) by (eapply Forall_impl; [exact Hp|by intros p []]).
  assert (Hp2 : Forall (fun p => length p <> 3%nat) paths) by (eapply Forall_impl; [exact Hp|by intros p []]).
  destruct (database_parts zstd_compress buf1 buf hash_fuel prime_fuel block_size dictionary visibility paths s file
    (fun b => proj1 (Hzstd b)) Hbufs ltac:(lia) (conj Hp1 Hcount) Hbuild Hsmall Hdict) as (c & groups & h & full & Hparts).
  unfold search_database. cbn [negb].
  rewrite (open_database _ _ _ _ _ _ _ _ Hbufs _ _ _ _ Hparts). set (v := if iv then false else visibility).
  destruct (pa_groups _ _ _ _ _ _ _ _ _ _ _ Hparts) as [<- _].
  destruct (pa_count _ _ _ _ _ _ _ _ _ _ _ Hparts) as [Hn _].
  change (num_docids (with_visibility v h)) with (num_docids h). rewrite Hn.
  assert (Hzip : forall b, decompress (zstd_compress b) = Some b) by (intros b; apply Hzstd).
  pose proof (conj Hp1 Hcount) as Hpaths.
  assert (Hblocks : forall read, (forall i g, groups !! i = Some g -> read (Z.of_nat i) = Some (zstd_compress (join g))) ->
    blocks_ok read decompress groups) by (intros read Hread; eapply database_blocks_ok; eassumption).
  apply do_search_file_exact; try done.
  - eapply database_index; done.
  - apply Hblocks. intros i g Hi. exact (get_block _ _ _ _ _ _ _ _ Hbufs Hsmall _ _ _ _ Hparts i g Hi).
  - apply Hblocks. intros i g Hi. exact (scan_block _ _ _ _ _ _ _ _ Hbufs Hsmall _ _ _ _ Hparts i g Hi).
Qed.

(** C1. Searching the database that was built for [paths] prints exactly the
    paths that match all needles, are visible and, if asked, still exist, in the
    order in which they were added and up to the limit; opening, the lookups, the
    posting lists and the blocks are read from the bytes of the file.  The paths are
    neither empty nor hold a NUL.  Paths of exactly three bytes are left out (see [three_byte_name_not_indexed]), and so are
    needles whose matches need not contain their trigrams (see [needle_ok]). *)
Theorem database_search_exact zstd_compress decompress buf1 buf hash_fuel prime_fuel block_size dictionary visibility
    paths s file opt fnmatch regexec accessible lstat slop_bytes arrivals
    (sort_groups : list TrigramDisjunction -> list TrigramDisjunction) (arrive : list (Trigram * Z) -> list (Trigram * Z))
    loc fuel iv needles
    (Hzstd : forall b, zstd_compress b <> [] /\ decompress (zstd_compress b) = Some b)
    (Hbufs : length buf1 = P4NENC_BOUND 1 /\ length buf = P4NENC_BOUND 128 /\ Forall is_byte buf)
    (Hbs : 0 < block_size < 2 ^ 31)
    (Hpaths : Forall (fun p => path_ok p /\ length p <> 3%nat) paths /\ Z.of_nat (length paths) < 2 ^ 24)
    (Hbuild : build_database zstd_compress buf1 buf hash_fuel prime_fuel block_size dictionary visibility paths s = Some file)
    (Hsizes : Z.of_nat (length file) < 2 ^ 36 /\ Z.of_nat (length dictionary) < 2 ^ 32)
    (Hslop : slop slop_bytes) (Hloc : locale_ok loc)
    (Hneedles : patterns_are_regex opt = true \/ Forall (needle_ok opt fnmatch loc fuel) needles)
    (Hsort : forall l, sort_groups l ≡ₚ l) (Harrive : forall l, arrive l ≡ₚ l)
    (Harrivals : forall gs, needle_groups opt loc fuel needles = Some gs ->
      arrivals ≡ₚ trigrams_to_lookup (trigram_groups gs)) :
  search_result_ok
    (List.filter (wanted opt fnmatch regexec (fun f => negb (if (iv : bool) then false else visibility) || accessible f) lstat needles) paths)
    (search_database opt fnmatch regexec decompress accessible lstat slop_bytes arrivals sort_groups arrive loc fuel
       iv true needles file).
Proof. by eapply search_built. Qed.

(** Compression that marks its output. *)
Definition marked (b : bytes) : bytes := 40 :: b.

Definition unmarked (b : bytes) : option bytes := match b with [] => None | _ :: b => Some b end.

Definition sample_names : list bytes :=
  map bytes_of_string ["/a/food"%string; "/bar/x.txt"%string; "/usr/lib"%string; "/foobar"%string; "/zip/foo1"%string].

Definition sample_sections : Sections := SECTIONS [7] [] [8; 9] [] [5].

Definition sample_database : bytes :=
  match build_database marked (repeat 0 133) (repeat 0 641) 10 100 2 [1; 2; 3] true sample_names sample_sections with
  | Some file => file
  | None => []
  end.

Definition sample_accessible (f : bytes) : bool := negb (bool_decide (f = bytes_of_string "/zip/foo1")).

Definition sample_database_search (ignore_visibility : bool) : option SearchOutcome :=
  search_database sample_options no_match no_match unmarked sample_accessible sample_exists (repeat 7 16)
    (reverse (parse_trigrams (bytes_of_string "foo"))) reverse reverse ascii_locale 10 ignore_visibility true
    sample_needles sample_database.

Lemma database_search_exact_witness :
  search_result_ok
    (List.filter (wanted sample_options no_match no_match (fun f => negb true || sample_accessible f) sample_exists
      sample_needles) sample_names) (sample_database_search false) /\
  option_map (fun o => match o with Found els _ => messages els | _ => [] end) (sample_database_search false)
    = Some [bytes_of_string "/a/food"] /\
  option_map (fun o => match o with Found els _ => messages els | _ => [] end) (sample_database_search true)
    = Some (map bytes_of_string ["/a/food"%string; "/zip/foo1"%string]).
Proof.
  split; [|split; vm_compute; reflexivity]. unfold sample_database_search.
  apply (database_search_exact marked unmarked (repeat 0 133) (repeat 0 641) 10 100 2 [1; 2; 3] true sample_names
    sample_sections sample_database sample_options no_match no_match sample_accessible sample_exists (repeat 7 16)
    (reverse (parse_trigrams (bytes_of_string "foo"))) reverse reverse ascii_locale 10 false sample_needles).
  - intros b. done.
  - split; [done|]. split; [done|]. apply (bool_decide_unpack _). vm_compute. exact I.
  - lia.
  - split; [|vm_compute; reflexivity]. apply (bool_decide_unpack _). vm_compute. exact I.
  - vm_compute. reflexivity.
  - split; vm_compute; reflexivity.
  - split; [|cbn; lia]. apply (bool_decide_unpack _). vm_compute. exact I.
  - exact ascii_locale_ok.
  - right. apply Forall_singleton. split; [apply (bool_decide_unpack _); vm_compute; exact I|].
    cbn. split; [done|]. apply (bool_decide_unpack _). vm_compute. exact I.
  - intros l. apply reverse_Permutation.
  - intros l. apply reverse_Permutation.
  - intros gs Hgs. vm_compute in Hgs. injection Hgs as <-. apply (bool_decide_unpack _). vm_compute. exact I.
Defined.
