(* ===== verification/SearchMain.v ===== *)
(** * flocate: several databases (src/flocate.cpp, main)

    [main] searches the databases in turn, all but the last in a child process
    that returns its number of matches through a pipe; the limit and the exit
    status are those of all databases together. *)
From S2P Require Import Prelude Serializer Search SearchFile.

(** ** Database paths *)

(** [None] ends the program: the escape character is the last one. *)
Fixpoint parse_dbpaths (ptr str : bytes) : option (list bytes) :=
  match ptr with
  | [] => Some [str]
  | c :: ptr =>
    if c =? 92 then
      match ptr with
      | [] => None
      | d :: ptr => parse_dbpaths ptr (str ++ [d])
      end
    else if c =? 58 then rest ← parse_dbpaths ptr []; Some (str :: rest)
    else parse_dbpaths ptr (str ++ [c])
  end.

(** The databases of the command line (each [-d] in turn), else the default, and
    then those of [LOCATE_PATH]. *)
Fixpoint parse_all (args : list bytes) : option (list bytes) :=
  match args with
  | [] => Some []
  | arg :: args => here ← parse_dbpaths arg []; rest ← parse_all args; Some (here ++ rest)
  end.

Definition dbpaths (database_options : list bytes) (DBFILE : bytes) (locate_path : option bytes) : option (list bytes) :=
  dbpaths ← parse_all database_options;
  let dbpaths := match dbpaths with [] => [DBFILE] | _ => dbpaths end in
  match locate_path with
  | None => Some dbpaths
  | Some locate_path => more ← parse_dbpaths locate_path []; Some (dbpaths ++ more)
  end.

(** ** One database *)

Inductive Printed := Name (filename : bytes) | Count (n : Z).

(** A process returns from [do_search_file], or exits; with what it has printed. *)
Inductive Ending :=
| Returned (matched : Z) (out : list Printed)
| Exited (code : Z) (out : list Printed).

(** [do_search_file] with its output: [segments] is how the results reach the
    serializer, whose [apply_limit] ends the process. *)
Definition run_search (only_count : bool) (limit_matches limit_left : Z) (outcome : SearchOutcome)
    (segments : list (list Element)) : Ending :=
  match outcome with
  | ExitNow code => Exited code []
  | ExitEmpty => Exited 1 (if only_count then [Count 0] else [])
  | Found _ matched =>
    match print_all only_count (concat (map collect segments)) (new_Serializer limit_left) with
    | Running s => Returned matched (map Name (printed s))
    | Serializer.Exited out => Exited 0 (map Name out ++ (if only_count then [Count limit_matches] else []))
    end
  end.

(** [do_search_file_in_child]: the parent passes a failure on; a child that exits
    with status 0 has not written its count, so that the read is short. *)
Definition do_search_file_in_child (child : Ending) : Ending :=
  match child with
  | Returned matched out => Returned matched out
  | Exited code out => if code =? 0 then Exited 1 out else Exited code out
  end.

(** ** All databases *)

(** A database, told whether it is searched in a child. *)
Record Database := DATABASE {
  db_outcome : bool -> SearchOutcome;
  db_segments : bool -> list (list Element)
}.

(** The loop of [main] and what follows: the exit status and the output. *)
Fixpoint search_databases (only_count : bool) (limit_matches limit_left matched : Z) (dbs : list Database)
    : Z * list Printed :=
  match dbs with
  | [] => (if matched =? 0 then 1 else 0, if only_count then [Count matched] else [])
  | db :: dbs =>
    let in_forked_child := match dbs with [] => false | _ => true end in
    let ending := run_search only_count limit_matches limit_left (db_outcome db in_forked_child) (db_segments db in_forked_child) in
    let ending := if in_forked_child then do_search_file_in_child ending else ending in
    match ending with
    | Exited code out => (code, out)
    | Returned this_matched out =>
      let '(code, rest) := search_databases only_count limit_matches (i64 (limit_left - this_matched))
                             (u64 (matched + this_matched)) dbs in
      (code, out ++ rest)
    end
  end.

(** ** Lemmas *)

Lemma print_all_count es : forall s,
  match print_all true es s with
  | Running s' => printed s' = printed s /\ limit_left s' = limit_left s - Z.of_nat (length (messages es))
      /\ (0 < limit_left s -> 0 < limit_left s')
  | Serializer.Exited out => out = printed s /\ limit_left s <= Z.of_nat (length (messages es))
  end.
Proof.
  assert (Hm : forall e es, messages (e :: es) = match msg e with [] => messages es | m => m :: messages es end).
  { intros e es'. unfold messages. cbn [map]. destruct (msg e); [by rewrite filter_cons_False by auto|by rewrite filter_cons_True]. }
  induction es as [|e es IH]; intros s; cbn [print_all]; [cbn; split; [done|]; split; [lia|done]|].
  unfold print. rewrite Hm. destruct (msg e) as [|b m]; [apply IH|]. unfold apply_limit. cbn [length].
  destruct (limit_left s - 1 >? 0) eqn:E; [|split; [done|lia]].
  specialize (IH (SZ (next_seq s) (pending s) (printed s) (limit_left s - 1))). cbn [printed limit_left] in IH.
  destruct (print_all true es _) as [s'|out]; destruct IH as [H1 H2]; [|split; [done|lia]].
  destruct H2 as [H2 H3]. split; [done|]. split; [lia|]. intros _. apply H3. lia.
Qed.

(** A database that prints the names [all] and whose results arrive at the
    serializer somehow; in a child it does not exit early. *)
Record database_ok (all : list bytes) (db : Database) : Prop := {
  do_result : forall in_child, search_result_ok all (Some (db_outcome db in_child));
  do_segments : forall in_child results matched, db_outcome db in_child = Found results matched ->
    concat (db_segments db in_child) ≡ₚ results;
  do_child : db_outcome db true <> ExitEmpty
}.

Definition exits_empty (dbs : list Database) : bool :=
  match last dbs with
  | Some db => match db_outcome db false with ExitEmpty => true | _ => false end
  | None => false
  end.

Lemma run_search_spec only_count limit_matches left all db in_child :
  database_ok all db -> 0 < left -> db_outcome db in_child <> ExitEmpty ->
  run_search only_count limit_matches left (db_outcome db in_child) (db_segments db in_child) =
  if decide (Z.of_nat (length all) < left)
  then Returned (Z.of_nat (length all)) (if only_count then [] else map Name all)
  else Exited 0 (if only_count then [Count limit_matches] else map Name (take (Z.to_nat left) all)).
Proof.
  intros [Hres Hseg _] Hlim Hne. specialize (Hres in_child). specialize (Hseg in_child). unfold run_search.
  destruct (db_outcome db in_child) as [code| |results matched]; [done|done|]. destruct Hres as [-> Hres].
  specialize (Hseg results _ eq_refl). destruct (Hres _ Hseg) as [Hlen Hprint]. destruct only_count.
  - pose proof (print_all_count (concat (map collect (db_segments db in_child))) (new_Serializer left)) as Hc.
    cbn [printed limit_left new_Serializer] in Hc. rewrite Hlen in Hc. destruct (print_all true _ _) as [s|out].
    + destruct Hc as (-> & Hl & Hpos). rewrite decide_True by lia. done.
    + destruct Hc as [-> Hl]. rewrite decide_False by lia. done.
  - specialize (Hprint left Hlim). destruct (print_all false _ _) as [s|out].
    + destruct Hprint as (-> & _ & Hl). by rewrite decide_True.
    + destruct Hprint as (-> & Hl). rewrite decide_False by lia. by rewrite app_nil_r.
Qed.

Lemma search_databases_spec only_count limit dbs : forall alls matched, dbs <> [] -> Forall2 database_ok alls dbs ->
  0 <= matched -> 0 < limit < 2 ^ 63 -> matched + Z.of_nat (length (concat (removelast alls))) < limit ->
  matched + Z.of_nat (length (concat alls)) < 2 ^ 63 ->
  let total := matched + Z.of_nat (length (concat alls)) in
  search_databases only_count limit (limit - matched) matched dbs =
  if exits_empty dbs then (1, if only_count then [Count 0] else map Name (concat alls))
  else (if total =? 0 then 1 else 0,
        if only_count then [Count (Z.min limit total)] else map Name (take (Z.to_nat (limit - matched)) (concat alls))).
Proof.
  change (2 ^ 63) with 9223372036854775808.
  induction dbs as [|db dbs IH]; intros alls matched Hne F Hm Hlim Hbefore Htotal total; [done|].
  inversion F as [|all ? alls' ? Hdb F']; subst. cbn [search_databases].
  destruct dbs as [|db' dbs].
  - inversion F'; subst. subst total. unfold exits_empty. cbn [last search_databases concat] in *. rewrite app_nil_r in *.
    cbn [removelast concat length] in Hbefore.
    assert (Hcases : db_outcome db false = ExitEmpty \/ db_outcome db false <> ExitEmpty)
      by (destruct (db_outcome db false); auto).
    destruct Hcases as [E|E].
    + rewrite E. cbn. pose proof (do_result _ _ Hdb false) as Hr. rewrite E in Hr. cbn in Hr. subst. by destruct only_count.
    + rewrite (run_search_spec only_count limit (limit - matched) all db false) by (done || lia).
      assert (Hfalse : match db_outcome db false with ExitEmpty => true | _ => false end = false) by by destruct (db_outcome db false).
      rewrite Hfalse. case_decide as Hl.
      * rewrite u64_small by (unfold is_u64; change (2 ^ 64) with 18446744073709551616; lia). f_equal. destruct only_count.
        -- rewrite Z.min_r by lia. done.
        -- rewrite app_nil_r. f_equal. rewrite take_ge by lia. done.
      * rewrite (proj2 (Z.eqb_neq _ 0)) by lia. f_equal. destruct only_count; [|done]. by rewrite Z.min_l by lia.
  - assert (Hexit : exits_empty (db :: db' :: dbs) = exits_empty (db' :: dbs)) by done. rewrite Hexit.
    destruct alls' as [|all' alls']; [by inversion F'|].
    change (removelast (all :: all' :: alls')) with (all :: removelast (all' :: alls')) in Hbefore.
    change (concat (all :: ?l)) with (all ++ concat l) in *. rewrite length_app in Hbefore.
    rewrite (run_search_spec only_count limit (limit - matched) all db true) by (done || lia || apply Hdb).
    rewrite decide_True by lia. cbn [do_search_file_in_child]. rewrite length_app in Htotal.
    assert (Ei : i64 (limit - matched - Z.of_nat (length all)) = limit - (matched + Z.of_nat (length all))).
    { unfold i64. change (2 ^ 63) with 9223372036854775808. change (2 ^ 64) with 18446744073709551616. rewrite Z.mod_small; lia. }
    rewrite Ei, u64_small by (unfold is_u64; change (2 ^ 64) with 18446744073709551616; lia).
    rewrite (IH (all' :: alls') (matched + Z.of_nat (length all))) by (done || lia).
    subst total. rewrite !length_app. replace (matched + Z.of_nat (length all) + Z.of_nat (length (concat (all' :: alls'))))
      with (matched + Z.of_nat (length all + length (concat (all' :: alls')))) by lia.
    destruct (exits_empty (db' :: dbs)).
    + f_equal. destruct only_count; [done|]. by rewrite List.map_app.
    + f_equal. destruct only_count; [done|]. rewrite take_app. rewrite List.map_app. f_equal; [by rewrite take_ge by lia|].
      f_equal. f_equal. lia.
Qed.

(** If the limit is reached in a child, the parent fails. *)
Lemma search_databases_limit only_count limit dbs : forall alls matched, Forall2 database_ok alls dbs ->
  0 <= matched < limit -> limit < 2 ^ 63 -> limit <= matched + Z.of_nat (length (concat (removelast alls))) ->
  search_databases only_count limit (limit - matched) matched dbs =
  (1, if only_count then [Count limit] else map Name (take (Z.to_nat (limit - matched)) (concat alls))).
Proof.
  change (2 ^ 63) with 9223372036854775808.
  induction dbs as [|db dbs IH]; intros alls matched F Hm Hlim Hbefore; inversion F as [|all ? alls' ? Hdb F']; subst;
    [cbn in Hbefore; lia|].
  destruct dbs as [|db' dbs]; [inversion F'; subst; cbn in Hbefore; lia|]. destruct alls' as [|all' alls']; [by inversion F'|].
  change (removelast (all :: all' :: alls')) with (all :: removelast (all' :: alls')) in Hbefore.
  change (concat (all :: ?l)) with (all ++ concat l) in *. rewrite length_app in Hbefore. cbn [search_databases].
  rewrite (run_search_spec only_count limit (limit - matched) all db true) by (done || lia || apply Hdb). case_decide as Hl.
  - cbn [do_search_file_in_child].
    assert (Ei : i64 (limit - matched - Z.of_nat (length all)) = limit - (matched + Z.of_nat (length all))).
    { unfold i64. change (2 ^ 63) with 9223372036854775808. change (2 ^ 64) with 18446744073709551616. rewrite Z.mod_small; lia. }
    rewrite Ei, u64_small by (unfold is_u64; change (2 ^ 64) with 18446744073709551616; lia).
    specialize (IH (all' :: alls') (matched + Z.of_nat (length all)) F' ltac:(lia) Hlim ltac:(lia)). cbn [search_databases] in IH. rewrite IH. f_equal. destruct only_count; [done|].
    rewrite take_app, (take_ge all) by lia. rewrite List.map_app. do 3 f_equal. lia.
  - cbn [do_search_file_in_child Z.eqb]. f_equal. destruct only_count; [done|]. by rewrite take_app_le by lia.
Qed.

(** All that can come out. *)
Definition exit_status (limit before total : Z) (last_exits : bool) : Z :=
  if (limit <=? before) || last_exits || (total =? 0) then 1 else 0.

Definition printed_count (limit before total : Z) (last_exits : bool) : Z :=
  if limit <=? before then limit else if last_exits then 0 else Z.min limit total.

Lemma search_databases_total only_count limit alls dbs : dbs <> [] -> Forall2 database_ok alls dbs -> 0 < limit < 2 ^ 63 ->
  Z.of_nat (length (concat alls)) < 2 ^ 63 ->
  let before := Z.of_nat (length (concat (removelast alls))) in let total := Z.of_nat (length (concat alls)) in
  search_databases only_count limit limit 0 dbs =
  (exit_status limit before total (exits_empty dbs),
   if only_count then [Count (printed_count limit before total (exits_empty dbs))]
   else map Name (take (Z.to_nat limit) (concat alls))).
Proof.
  intros Hne F Hlim Htotal before total. unfold exit_status, printed_count. destruct (Z.leb_spec limit before) as [Hb|Hb]; cbn [orb].
  - pose proof (search_databases_limit only_count limit dbs alls 0 F ltac:(lia) ltac:(lia) Hb) as H. by rewrite Z.sub_0_r in H.
  - pose proof (search_databases_spec only_count limit dbs alls 0 Hne F (Z.le_refl 0) Hlim Hb Htotal) as H.
    rewrite Z.sub_0_r in H. rewrite H. destruct (exits_empty dbs) eqn:E; [|done]. f_equal. destruct only_count; [done|].
    rewrite take_ge; [done|]. destruct (exists_last Hne) as (dbs' & db & ->). apply Forall2_app_inv_r in F as (alls' & alls2 & F1 & F2 & ->).
    inversion F2 as [|all ? ? ? Hdb F3]; subst. inversion F3; subst. subst before. rewrite removelast_last in Hb. unfold exits_empty in E. rewrite last_snoc in E.
    pose proof (do_result _ _ Hdb false) as Hr. destruct (db_outcome db false); try done. cbn in Hr. subst all.
    rewrite concat_app. cbn [concat]. rewrite !app_nil_r. lia.
Qed.

(** A child never exits early: [do_child] holds of [do_search_file]. *)
Lemma lookup_all_in_child find_trigram arrivals : forall tds early, lookup_all find_trigram true arrivals tds early <> None.
Proof.
  induction arrivals as [|t arrivals IH]; intros tds early; cbn [lookup_all]; [done|].
  destruct (find_trigram t); [apply IH|]. cbn [negb]. rewrite andb_false_r. apply IH.
Qed.

Lemma do_search_file_in_child_returns opt fnmatch regexec visible lstat get_block scanned decompress num_docids find_trigram
    read_list root arrivals sort_groups arrive loc fuel needles : in_forked_child opt = true ->
  do_search_file opt fnmatch regexec visible lstat get_block scanned decompress num_docids find_trigram read_list root
    arrivals sort_groups arrive loc fuel needles <> Some ExitEmpty.
Proof.
  intros Hc. unfold do_search_file. destruct (negb root); [done|].
  destruct (if patterns_are_regex opt then _ else _) as [gs|]; cbn [mbind option_bind]; [|done].
  unfold search_candidates. rewrite Hc. destruct (trigrams_to_lookup _); [unfold finish_search; by case_match|].
  pose proof (lookup_all_in_child find_trigram arrivals (trigram_groups gs) false) as Hl.
  destruct (lookup_all _ _ _ _ _) as [[tds []]|]; [done| |done].
  destruct (done _); [done|]. unfold finish_search. by case_match.
Qed.

(** What [main] joins paths with, and its escapes. *)
Definition escape_dbpath (path : bytes) : bytes :=
  concat (map (fun c => if (c =? 92) || (c =? 58) then [92; c] else [c]) path).

Fixpoint join_dbpaths (paths : list bytes) : bytes :=
  match paths with
  | [] => []
  | [path] => escape_dbpath path
  | path :: paths => escape_dbpath path ++ 58 :: join_dbpaths paths
  end.

Lemma parse_dbpaths_escaped path rest : forall str,
  parse_dbpaths (escape_dbpath path ++ rest) str = parse_dbpaths rest (str ++ path).
Proof.
  induction path as [|c path IH]; intros str; [by rewrite app_nil_r|].
  change (escape_dbpath (c :: path)) with ((if (c =? 92) || (c =? 58) then [92; c] else [c]) ++ escape_dbpath path).
  rewrite <- app_assoc. replace (str ++ c :: path) with ((str ++ [c]) ++ path) by by rewrite <- app_assoc.
  destruct (Z.eqb_spec c 92) as [->|H1]; [exact (IH _)|]. destruct (Z.eqb_spec c 58) as [->|H2]; [exact (IH _)|].
  cbn [orb app parse_dbpaths]. rewrite (proj2 (Z.eqb_neq _ _) H1), (proj2 (Z.eqb_neq _ _) H2). apply IH.
Qed.

(** ** Correctness *)

(** Several databases print the matches of all of them in order, up to the
    limit, or their number; the exit status says whether there were any.  The
    limit must not be reached before the last database (see
    [limit_in_child_is_fatal]), and if the last database exits early, the status is
    1 and a count is 0 (see [last_database_hides_matches]). *)
Theorem databases_exact only_count limit alls dbs
    (Hdbs : dbs <> [] /\ Forall2 database_ok alls dbs) (Hlimit : 0 < limit < 2 ^ 63)
    (Hbefore : Z.of_nat (length (concat (removelast alls))) < limit)
    (Htotal : Z.of_nat (length (concat alls)) < 2 ^ 63) :
  let total := Z.of_nat (length (concat alls)) in
  search_databases only_count limit limit 0 dbs =
  if exits_empty dbs then (1, if only_count then [Count 0] else map Name (concat alls))
  else (if total =? 0 then 1 else 0,
        if only_count then [Count (Z.min limit total)] else map Name (take (Z.to_nat limit) (concat alls))).
Proof.
  destruct Hdbs as [Hne F]. pose proof (search_databases_spec only_count limit dbs alls 0 Hne F) as H.
  rewrite Z.sub_0_r in H. apply H; lia.
Qed.

(** A database whose results arrive one by one. *)
Definition found_database (results : list Element) : Database :=
  DATABASE (fun _ => Found results (count_matched results)) (fun _ => map (fun e => [e]) results).

Definition empty_database : Database :=
  DATABASE (fun in_child => if in_child : bool then Found [] 0 else ExitEmpty) (fun _ => []).

Definition two_matches : Database := found_database [EL 0 5 [97]; EL 5 7 [98]].

Lemma found_database_ok results m : chain_to 0 results m -> m < 2 ^ 64 -> database_ok (messages results) (found_database results).
Proof.
  intros C Hm. split; [|cbn; intros in_child results' matched [= <- <-]|done].
  - intros in_child. cbn. split; [done|]. intros segments P.
    destruct (adds_up_segments m segments Hm [] results P C) as (es & P' & C' & E). cbn [app] in P'.
    split; [rewrite <- E; by apply messages_perm_length|]. intros limit Hlim. rewrite <- E.
    apply print_arrivals; [by eapply chain_to_chain|done|done].
  - clear. induction results as [|e results IH]; [done|]. cbn. by f_equiv.
Qed.

Lemma databases_exact_witness :
  (let total := Z.of_nat (length (concat [[[97]; [98]]; [[97]; [98]]])) in
   search_databases false 3 3 0 [two_matches; two_matches] =
   if exits_empty [two_matches; two_matches] then (1, map Name (concat [[[97]; [98]]; [[97]; [98]]]))
   else (if total =? 0 then 1 else 0, map Name (take (Z.to_nat 3) (concat [[[97]; [98]]; [[97]; [98]]])))) /\
  search_databases false 3 3 0 [two_matches; two_matches] = (0, [Name [97]; Name [98]; Name [97]]).
Proof.
  split; [|reflexivity]. apply (databases_exact false 3 [[[97]; [98]]; [[97]; [98]]] [two_matches; two_matches]).
  - assert (H : database_ok [[97]; [98]] two_matches).
    { apply (found_database_ok [EL 0 5 [97]; EL 5 7 [98]] 12); [cbn; lia|lia]. }
    split; [done|]. apply Forall2_cons; split; [exact H|]. apply Forall2_cons; split; [exact H|]. constructor.
  - lia.
  - cbn. lia.
  - cbn. lia.
Defined.

(** The matches of the first database are printed, but the exit status says that
    there were none, and so does the count. *)
Example last_database_hides_matches :
  search_databases false 10 10 0 [two_matches; empty_database] = (1, [Name [97]; Name [98]]) /\
  search_databases true 10 10 0 [two_matches; empty_database] = (1, [Count 0]).
Proof. split; reflexivity. Qed.

(** The child exits with status 0 at the limit and the parent then fails. *)
Example limit_in_child_is_fatal :
  search_databases false 2 2 0 [two_matches; two_matches] = (1, [Name [97]; Name [98]]) /\
  search_databases true 1 1 0 [two_matches; two_matches] = (1, [Count 1]).
Proof. split; reflexivity. Qed.

(** A list of database paths, each with its colons and backslashes escaped,
    is read back; an escape character at the very end is refused. *)
Theorem dbpaths_roundtrip paths path :
  (paths <> [] -> parse_dbpaths (join_dbpaths paths) [] = Some paths) /\
  parse_dbpaths (escape_dbpath path ++ [92]) [] = None.
Proof.
  split; [|by rewrite parse_dbpaths_escaped].
  induction paths as [|p [|q paths] IH]; intros Hne; [done| |].
  - cbn [join_dbpaths]. rewrite <- (app_nil_r (escape_dbpath p)). by rewrite parse_dbpaths_escaped.
  - change (join_dbpaths (p :: q :: paths)) with (escape_dbpath p ++ 58 :: join_dbpaths (q :: paths)).
    rewrite parse_dbpaths_escaped. cbn [app parse_dbpaths]. change (58 =? 92) with false. change (58 =? 58) with true.
    cbn iota. rewrite IH by done. done.
Qed.

Lemma dbpaths_roundtrip_witness :
  parse_dbpaths (join_dbpaths [[97; 58]; []; [92]]) [] = Some [[97; 58]; []; [92]] /\
  join_dbpaths [[97; 58]; []; [92]] = [97; 92; 58; 58; 58; 92; 92].
Proof. split; [|reflexivity]. by apply (proj1 (dbpaths_roundtrip [[97; 58]; []; [92]] [])). Defined.
