(* ===== verification/FlocateMain.v ===== *)
(** * flocate: the program (src/flocate.cpp, main)

    The options as [getopt_long] returns them, the needles, the databases and what is
    written to standard output.  The names of options follow the long options.  The
    databases are files, searched by [DatabaseSearch.search_database]. *)
From S2P Require Import Prelude Text PostingList TurboPForDecode HashTable Corpus Serializer Trigrams Search SearchFile SearchMain.
From S2P Require Import DbHeader DatabaseFile DatabaseSearch.

(** ** Options *)

(** The global variables that options set; [limit_left] starts as [limit_matches]. *)
Record Globals := GLOBALS {
  g_ignore_case : bool;
  g_only_count : bool;
  g_print_nul : bool;
  g_use_debug : bool;
  g_flush_cache : bool;
  g_patterns_are_regex : bool;
  g_use_extended_regex : bool;
  g_match_basename : bool;
  g_check_existence : bool;
  g_ignore_visibility : bool;
  g_limit_matches : Z;
  g_literal_printing : bool
}.

Definition initial_globals : Globals :=
  GLOBALS false false false false false false false false false false (2 ^ 63 - 1) false.

Inductive MainOption :=
| opt_all
| opt_basename
| opt_count
| opt_database (optarg : bytes)
| opt_existing
| opt_help
| opt_ignore_case
| opt_limit (optarg : bytes)
| opt_literal
| opt_null
| opt_regexp
| opt_regex
| opt_wholename
| opt_debug
| opt_flush_cache
| opt_version
| opt_ignore_visibility
| opt_unknown.

#[export] Instance MainOption_eq_dec : EqDecision MainOption.
Proof. solve_decision. Defined.

Definition atoll (s : bytes) : Z := fst (fst (strtol s)).

(** What an option does to the variables; the others end the program. *)
Definition set_global (o : MainOption) (g : Globals) : Globals :=
  let 'GLOBALS ic oc pn ud fc re ex mb ce iv lim lit := g in
  match o with
  | opt_basename => GLOBALS ic oc pn ud fc re ex true ce iv lim lit
  | opt_count => GLOBALS ic true pn ud fc re ex mb ce iv lim lit
  | opt_existing => GLOBALS ic oc pn ud fc re ex mb true iv lim lit
  | opt_ignore_case => GLOBALS true oc pn ud fc re ex mb ce iv lim lit
  | opt_limit optarg => GLOBALS ic oc pn ud fc re ex mb ce iv (atoll optarg) lit
  | opt_literal => GLOBALS ic oc pn ud fc re ex mb ce iv lim true
  | opt_null => GLOBALS ic oc true ud fc re ex mb ce iv lim lit
  | opt_regexp => GLOBALS ic oc pn ud fc true ex mb ce iv lim lit
  | opt_regex => GLOBALS ic oc pn ud fc true true mb ce iv lim lit
  | opt_wholename => GLOBALS ic oc pn ud fc re ex false ce iv lim lit
  | opt_debug => GLOBALS ic oc pn true fc re ex mb ce iv lim lit
  | opt_flush_cache => GLOBALS ic oc pn ud true re ex mb ce iv lim lit
  | opt_ignore_visibility => GLOBALS ic oc pn ud fc re ex mb ce true lim lit
  | _ => g
  end.

(** The program ends with a status, or goes on with the arguments of [-d]. *)
Fixpoint parse_main_options (options : list MainOption) (g : Globals) (databases : list bytes) : Z + Globals * list bytes :=
  match options with
  | [] => inr (g, databases)
  | o :: options =>
    match o with
    | opt_help | opt_version => inl 0
    | opt_unknown => inl 1
    | opt_database optarg =>
      match parse_dbpaths optarg [] with
      | None => inl 1
      | Some _ => parse_main_options options g (databases ++ [optarg])
      end
    | opt_limit optarg => if atoll optarg <=? 0 then inl 1 else parse_main_options options (set_global o g) databases
    | _ => parse_main_options options (set_global o g) databases
    end
  end.

(** ** The program *)

Section Main.
(** Whether [regcomp] accepts a pattern, extended or not; the default database; how the
    locale reads a character. *)
Context (regcomp : bool -> bool -> bytes -> bool) (DBFILE : bytes).
Context (mbtowc : bytes -> MbResult) (isatty : bool).
(** The bytes of a file, if the process can open it, with the privileges of the group or
    without; whether the directories of a name can be searched, and whether [lstat] succeeds. *)
Context (read_file : bool -> bytes -> option bytes) (accessible lstat : bytes -> bool).
(** The matching functions of the C library, which are told about the case (and the kind of
    regex), decompression, and what the system decides: see [DatabaseSearch]. *)
Context (fnmatch : bool -> bytes -> bytes -> bool) (regexec : bool -> bool -> bytes -> bytes -> bool).
Context (zstd_decompress : option bytes -> bytes -> option bytes) (slop_bytes : bytes) (uring : bool).
Context (arrivals : bool -> list Needle -> bytes -> list Z) (sort_groups : list TrigramDisjunction -> list TrigramDisjunction)
  (arrive : list (Trigram * Z) -> list (Trigram * Z)) (loc : Locale) (fuel : nat).
(** How the results are cut by the threads that find them, in the order of arrival. *)
Context (segments : bytes -> list Element -> list (list Element)).

(** [None] ends the program: [regcomp] fails. *)
Definition compile_regex (g : Globals) (needle : bytes) : option bytes :=
  if regcomp (g_use_extended_regex g) (g_ignore_case g) needle then Some needle else None.

Definition main_needle (g : Globals) (arg : bytes) : option Needle :=
  needle ← make_needle (g_patterns_are_regex g) (g_ignore_case g) arg;
  match n_type needle with
  | REGEX => _ ← compile_regex g (n_str needle); Some needle
  | _ => Some needle
  end.

(** Whether the privileges of the group are kept until a database is open. *)
Definition privileged (g : Globals) : bool := negb (g_use_debug g || g_flush_cache g || g_ignore_visibility g).

Definition search_options (g : Globals) (in_child : bool) : Options :=
  OPTIONS (g_ignore_case g) (g_match_basename g) (g_check_existence g) (g_patterns_are_regex g) in_child uring.

(** [do_search_file] from the name of the database on. *)
Definition search_file (privileged : bool) (g : Globals) (needles : list Needle) (path : bytes) (in_child : bool) : SearchOutcome :=
  match read_file privileged path with
  | None => ExitNow 1
  | Some file =>
    match (hdr ← open_corpus (g_ignore_visibility g) file; read_dictionary hdr file) with
    | None => ExitNow 1
    | Some ddict =>
      default (ExitNow 1)
        (search_database (search_options g in_child) (fnmatch (g_ignore_case g)) (regexec (g_use_extended_regex g) (g_ignore_case g))
           (zstd_decompress ddict) accessible lstat slop_bytes (arrivals (g_ignore_case g) needles path) sort_groups arrive loc fuel
           (g_ignore_visibility g) true needles file)
    end
  end.

Definition open_database (privileged : bool) (g : Globals) (needles : list Needle) (path : bytes) : Database :=
  DATABASE (search_file privileged g needles path)
    (fun in_child => match search_file privileged g needles path in_child with Found results _ => segments path results | _ => [] end).

(** One item on standard output; [stdout_is_tty] is only set without [-0]. *)
Definition print_item (g : Globals) (p : Printed) : option bytes :=
  match p with
  | Name filename =>
    print_possibly_escaped mbtowc (g_print_nul g) (g_literal_printing g) (negb (g_print_nul g) && isatty) filename
  | Count n => Some (to_string n ++ [10])
  end.

Inductive MainResult := Info | Failure | Searched (status : Z) (output : list Printed).

Definition main (options : list MainOption) (operands : list bytes) (locate_path : option bytes) : MainResult :=
  match parse_main_options options initial_globals [] with
  | inl code => if code =? 0 then Info else Failure
  | inr (g, databases) =>
    match mapM (main_needle g) operands with
    | None | Some [] => Failure
    | Some needles =>
      match dbpaths databases DBFILE locate_path with
      | None => Failure
      | Some paths =>
        let '(status, output) := search_databases (g_only_count g) (g_limit_matches g) (g_limit_matches g) 0
                                   (map (open_database (privileged g) g needles) paths) in
        Searched status output
      end
    end
  end.

Definition output_bytes (g : Globals) (output : list Printed) : option bytes := @concat Z <$> mapM (print_item g) output.

End Main.

(** ** Options: correctness *)

(** Options that do not end the program. *)
Definition goes_on (o : MainOption) : Prop :=
  match o with
  | opt_help | opt_version | opt_unknown => False
  | opt_limit optarg => 0 < atoll optarg
  | opt_database optarg => parse_dbpaths optarg [] <> None
  | _ => True
  end.

Definition limit_of (o : MainOption) : option Z := match o with opt_limit optarg => Some (atoll optarg) | _ => None end.
Definition database_of (o : MainOption) : option bytes := match o with opt_database optarg => Some optarg | _ => None end.
Definition basename_of (o : MainOption) : option bool :=
  match o with opt_basename => Some true | opt_wholename => Some false | _ => None end.

Definition given (options : list MainOption) (o : MainOption) : bool := bool_decide (o ∈ options).

Lemma given_cons o options o' : given (o :: options) o' = bool_decide (o' = o) || given options o'.
Proof. unfold given. rewrite <- bool_decide_or. apply bool_decide_ext, elem_of_cons. Qed.

Lemma last_cons_default {A} (x d : A) l : default d (last (x :: l)) = default x (last l).
Proof. destruct l as [|y l]; [done|]. change (last (x :: y :: l)) with (last (y :: l)). by destruct (last_is_Some (y :: l)) as [_ [z ->]]. Qed.

Lemma parse_main_options_spec options : forall g databases, Forall goes_on options ->
  parse_main_options options g databases = inr
    (GLOBALS (given options opt_ignore_case || g_ignore_case g) (given options opt_count || g_only_count g)
       (given options opt_null || g_print_nul g) (given options opt_debug || g_use_debug g)
       (given options opt_flush_cache || g_flush_cache g)
       (given options opt_regexp || given options opt_regex || g_patterns_are_regex g)
       (given options opt_regex || g_use_extended_regex g) (default (g_match_basename g) (last (omap basename_of options)))
       (given options opt_existing || g_check_existence g) (given options opt_ignore_visibility || g_ignore_visibility g)
       (default (g_limit_matches g) (last (omap limit_of options))) (given options opt_literal || g_literal_printing g),
     databases ++ omap database_of options).
Proof.
  induction options as [|o options IH]; intros g databases F.
  { cbn. rewrite app_nil_r. by destruct g. }
  apply Forall_cons in F as [Ho F]. rewrite !given_cons. destruct g as [ic oc pn ud fc re ex mb ce iv lim lit].
  destruct o; try done; cbn [parse_main_options goes_on] in *.
  4: destruct (parse_dbpaths optarg []); [|done].
  7: rewrite (proj2 (Z.leb_gt _ 0)) by done.
  all: rewrite IH by done; cbn [set_global g_ignore_case g_only_count g_print_nul g_use_debug g_flush_cache g_patterns_are_regex
      g_use_extended_regex g_match_basename g_check_existence g_ignore_visibility g_limit_matches g_literal_printing];
    repeat (rewrite bool_decide_eq_false_2 by done || rewrite bool_decide_eq_true_2 by done);
    cbn [omap list_omap basename_of limit_of database_of];
    rewrite ?last_cons_default, <- ?app_assoc; cbn [orb app]; rewrite ?orb_true_r; done.
Qed.

(** The options that are given set what they stand for, in whatever order: the last
    of [-b] and [-w] decides what is matched, the last [-l] is the limit, the arguments
    of [-d] are collected in their order. *)
Theorem main_options_exact options : Forall goes_on options ->
  parse_main_options options initial_globals [] = inr
    (GLOBALS (given options opt_ignore_case) (given options opt_count) (given options opt_null) (given options opt_debug)
       (given options opt_flush_cache) (given options opt_regexp || given options opt_regex) (given options opt_regex)
       (default false (last (omap basename_of options))) (given options opt_existing) (given options opt_ignore_visibility)
       (default (2 ^ 63 - 1) (last (omap limit_of options))) (given options opt_literal),
     omap database_of options).
Proof. intros F. rewrite (parse_main_options_spec options initial_globals [] F). cbn [initial_globals app g_ignore_case g_only_count
  g_print_nul g_use_debug g_flush_cache g_patterns_are_regex g_use_extended_regex g_match_basename g_check_existence
  g_ignore_visibility g_limit_matches g_literal_printing]. by rewrite !orb_false_r. Qed.

(** ** The program: correctness *)

Lemma atoll_max s : atoll s < 2 ^ 63.
Proof.
  unfold atoll, strtol. destruct (scan_number s) as [[[neg v] rest]|]; [|cbn; lia]. set (w := if neg then - v else v).
  destruct (Z.ltb_spec w (- 2 ^ 63)); [cbn; lia|]. destruct (Z.ltb_spec (2 ^ 63 - 1) w); cbn [fst]; lia.
Qed.

Lemma limit_range options : forall g databases g' databases', 0 < g_limit_matches g < 2 ^ 63 ->
  parse_main_options options g databases = inr (g', databases') -> 0 < g_limit_matches g' < 2 ^ 63.
Proof.
  induction options as [|o options IH]; intros g databases g' databases' Hg; cbn [parse_main_options]; [by intros [= <- _]|].
  destruct g as [ic oc pn ud fc re ex mb ce iv lim lit].
  destruct o; try done; try (by apply IH).
  - destruct (parse_dbpaths optarg []); [by apply IH|done].
  - destruct (Z.leb_spec (atoll optarg) 0); [done|]. apply IH. pose proof (atoll_max optarg). cbn [set_global g_limit_matches]. lia.
Qed.

Lemma dbpaths_nonempty databases DBFILE locate_path paths : dbpaths databases DBFILE locate_path = Some paths -> paths <> [].
Proof.
  unfold dbpaths. destruct (parse_all databases) as [l|]; [|done]. cbn [mbind option_bind].
  destruct locate_path as [s|]; [|by intros [= <-]; destruct l].
  destruct (parse_dbpaths s []) as [more|]; [|done]. cbn [mbind option_bind]. intros [= <-]. by destruct l.
Qed.

Lemma names_output mbtowc isatty g names : g_print_nul g = true \/ g_literal_printing g = true \/ isatty = false ->
  output_bytes mbtowc isatty g (map Name names) = Some (concat (map (fun f => f ++ [if g_print_nul g then 0 else 10]) names)).
Proof.
  intros H. unfold output_bytes. assert (Hone : forall f, print_item mbtowc isatty g (Name f) = Some (f ++ [if g_print_nul g then 0 else 10])).
  { intros f. unfold print_item, print_possibly_escaped. destruct (g_print_nul g); [done|]. destruct (g_literal_printing g); [done|].
    destruct isatty; [|done]. by destruct H as [?|[?|?]]. }
  assert (E : mapM (print_item mbtowc isatty g) (map Name names) = Some (map (fun f => f ++ [if g_print_nul g then 0 else 10]) names)).
  { induction names as [|f names IH]; [done|]. cbn [map]. change (mapM ?f (?x :: ?l)) with (y ← f x; k ← mapM f l; mret (y :: k)). by rewrite Hone, IH. }
  by rewrite E.
Qed.

(** Several databases, as [main] searches them: [alls] are the matches of each. *)
Lemma searched_output mbtowc isatty g dbs alls : dbs <> [] -> Forall2 database_ok alls dbs -> 0 < g_limit_matches g < 2 ^ 63 ->
  Z.of_nat (length (concat alls)) < 2 ^ 63 -> g_print_nul g = true \/ g_literal_printing g = true \/ isatty = false ->
  let before := Z.of_nat (length (concat (removelast alls))) in let total := Z.of_nat (length (concat alls)) in
  exists output,
    search_databases (g_only_count g) (g_limit_matches g) (g_limit_matches g) 0 dbs =
      (exit_status (g_limit_matches g) before total (exits_empty dbs), output) /\
    output_bytes mbtowc isatty g output =
      Some (if g_only_count g then to_string (printed_count (g_limit_matches g) before total (exits_empty dbs)) ++ [10]
            else concat (map (fun f => f ++ [if g_print_nul g then 0 else 10]) (take (Z.to_nat (g_limit_matches g)) (concat alls)))).
Proof.
  intros Hne F Hl Ht Hplain before total. eexists. split; [by apply (search_databases_total _ _ alls)|].
  destruct (g_only_count g); [|by apply names_output]. unfold output_bytes. cbn. by rewrite app_nil_r.
Qed.

(** The file is a database that was built for [names]; see [database_search_exact]. *)
Definition built_database (zstd_decompress : option bytes -> bytes -> option bytes) (visibility : bool) (names : list bytes) (file : bytes) : Prop :=
  exists zstd_compress buf1 buf hash_fuel prime_fuel block_size dictionary s,
    (forall b, zstd_compress b <> [] /\
       zstd_decompress (match dictionary with [] => None | _ => Some dictionary end) (zstd_compress b) = Some b) /\
    (length buf1 = P4NENC_BOUND 1 /\ length buf = P4NENC_BOUND 128 /\ Forall is_byte buf) /\
    0 < block_size < 2 ^ 31 /\
    (Forall (fun p => path_ok p /\ length p <> 3%nat) names /\ Z.of_nat (length names) < 2 ^ 24) /\
    build_database zstd_compress buf1 buf hash_fuel prime_fuel block_size dictionary visibility names s = Some file /\
    (Z.of_nat (length file) < 2 ^ 36 /\ Z.of_nat (length dictionary) < 2 ^ 32).

Section Databases.
Context (read_file : bool -> bytes -> option bytes) (accessible lstat : bytes -> bool).
Context (fnmatch : bool -> bytes -> bytes -> bool) (regexec : bool -> bool -> bytes -> bytes -> bool).
Context (zstd_decompress : option bytes -> bytes -> option bytes) (slop_bytes : bytes) (uring : bool).
Context (arrivals : bool -> list Needle -> bytes -> list Z) (sort_groups : list TrigramDisjunction -> list TrigramDisjunction)
  (arrive : list (Trigram * Z) -> list (Trigram * Z)) (loc : Locale) (fuel : nat) (segments : bytes -> list Element -> list (list Element)).
Context (g : Globals) (needles : list Needle).

Abbreviation opt := (search_options uring g false).

(** The names of a database that are printed. *)
Definition database_matches (visibility : bool) (names : list bytes) : list bytes :=
  List.filter (wanted opt (fnmatch (g_ignore_case g)) (regexec (g_use_extended_regex g) (g_ignore_case g))
    (fun f => negb (if g_ignore_visibility g then false else visibility) || accessible f) lstat needles) names.

(** What the needles and the system owe; see [database_search_exact]. *)
Record search_ok : Prop := {
  so_slop : slop slop_bytes;
  so_locale : locale_ok loc;
  so_needles : g_patterns_are_regex g = true \/ Forall (needle_ok opt (fnmatch (g_ignore_case g)) loc fuel) needles;
  so_sort : forall l, sort_groups l ≡ₚ l;
  so_arrive : forall l, arrive l ≡ₚ l;
  so_arrivals : forall path gs, needle_groups opt loc fuel needles = Some gs ->
    arrivals (g_ignore_case g) needles path ≡ₚ trigrams_to_lookup (trigram_groups gs);
  so_segments : forall path results, concat (segments path results) ≡ₚ results
}.

Abbreviation open := (open_database read_file accessible lstat fnmatch regexec zstd_decompress slop_bytes uring arrivals sort_groups
  arrive loc fuel segments).

Lemma open_database_ok path visibility names file : search_ok -> read_file (privileged g) path = Some file ->
  built_database zstd_decompress visibility names file ->
  database_ok (database_matches visibility names) (open (privileged g) g needles path).
Proof.
  intros Hok Hfile (zstd_compress & buf1 & buf & hash_fuel & prime_fuel & block_size & dictionary & s & H1 & H2 & H3 & H4 & H5 & H6).
  pose proof (dictionary_read zstd_compress buf1 buf hash_fuel prime_fuel block_size dictionary visibility names s file
    (g_ignore_visibility g) (fun b => proj1 (H1 b)) H2 ltac:(lia) ltac:(split; [eapply Forall_impl; [apply H4|by intros p []]|apply H4])
    H5 (proj1 H6) (proj2 H6)) as Hread.
  set (ddict := match dictionary with [] => None | _ => Some dictionary end) in *.
  assert (Hres : forall in_child, search_result_ok (database_matches visibility names)
    (search_database (search_options uring g in_child) (fnmatch (g_ignore_case g)) (regexec (g_use_extended_regex g) (g_ignore_case g))
       (zstd_decompress ddict) accessible lstat slop_bytes (arrivals (g_ignore_case g) needles path) sort_groups arrive loc fuel
       (g_ignore_visibility g) true needles file)).
  { intros in_child. destruct Hok.
    exact (search_built zstd_compress (zstd_decompress ddict) buf1 buf hash_fuel prime_fuel block_size dictionary visibility names s file
      (search_options uring g in_child) (fnmatch (g_ignore_case g)) (regexec (g_use_extended_regex g) (g_ignore_case g)) accessible lstat
      slop_bytes (arrivals (g_ignore_case g) needles path) sort_groups arrive loc fuel (g_ignore_visibility g) needles
      H1 H2 H3 H4 H5 H6 so_slop0 so_locale0 so_needles0 so_sort0 so_arrive0 (so_arrivals0 path)). }
  split; cbn [open_database db_outcome db_segments]; unfold search_file; rewrite Hfile, Hread.
  - intros in_child. specialize (Hres in_child). by destruct (search_database _ _ _ _ _ _ _ _ _ _ _ _ _ _ _ _).
  - intros in_child results matched ->. apply Hok.
  - specialize (Hres true). pose proof (do_search_file_in_child_returns (search_options uring g true)) as Hchild.
    destruct (search_database _ _ _ _ _ _ _ _ _ _ _ _ _ _ _ _) as [o|] eqn:E; [|done]. cbn [default from_option id]. intros ->.
    unfold search_database in E. cbn [negb] in E. destruct (DatabaseFile.open_corpus _ _); [|done]. by eapply Hchild.
Qed.

End Databases.

(** C5. A run with patterns over databases that were built for lists of names writes to
    standard output, where names are not quoted, exactly the matches of all databases in
    their order and up to the limit, each ended by a newline or, with [-0], a NUL; with
    [-c], their number.  The status says whether there was any.  Two bugs are part of the
    statement: if the limit is reached before the last database, the child that reaches
    it makes the parent fail ([limit_in_child_is_fatal]); and if some group of trigrams is
    wholly unknown to the last database, the status is 1 and the count 0 whatever the
    others held ([last_database_hides_matches]).  A database is opened with the
    privileges of the group only if no option that could misuse them is given.  The
    databases and needles are those of [database_search_exact]. *)
Theorem main_prints regcomp DBFILE mbtowc isatty read_file accessible lstat fnmatch regexec zstd_decompress slop_bytes uring
    arrivals sort_groups arrive loc fuel segments options operands locate_path g databases needles paths contents
    (Hoptions : parse_main_options options initial_globals [] = inr (g, databases))
    (Hneedles : mapM (main_needle regcomp g) operands = Some needles /\ needles <> [])
    (Hpaths : dbpaths databases DBFILE locate_path = Some paths)
    (Hfiles : Forall2 (fun '(visibility, names) path => exists file, read_file (privileged g) path = Some file /\
       built_database zstd_decompress visibility names file) contents paths)
    (Hsearch : search_ok fnmatch slop_bytes uring arrivals sort_groups arrive loc fuel segments g needles)
    (Htotal : Z.of_nat (length (concat (map snd contents))) < 2 ^ 63)
    (Hplain : g_print_nul g = true \/ g_literal_printing g = true \/ isatty = false) :
  let matches := map (fun '(visibility, names) =>
    database_matches accessible lstat fnmatch regexec uring g needles visibility names) contents in
  let before := Z.of_nat (length (concat (removelast matches))) in
  let total := Z.of_nat (length (concat matches)) in
  let open := open_database read_file accessible lstat fnmatch regexec zstd_decompress slop_bytes uring arrivals sort_groups arrive
                loc fuel segments in
  let last_exits := exits_empty (map (open (privileged g) g needles) paths) in
  exists output,
    main regcomp DBFILE read_file accessible lstat fnmatch regexec zstd_decompress slop_bytes uring arrivals sort_groups arrive
      loc fuel segments options operands locate_path = Searched (exit_status (g_limit_matches g) before total last_exits) output /\
    output_bytes mbtowc isatty g output =
      Some (if g_only_count g then to_string (printed_count (g_limit_matches g) before total last_exits) ++ [10]
            else concat (map (fun f => f ++ [if g_print_nul g then 0 else 10])
                   (take (Z.to_nat (g_limit_matches g)) (concat matches)))).
Proof.
  intros matches before total open last_exits. assert (Hl : 0 < g_limit_matches g < 2 ^ 63).
  { refine (limit_range options initial_globals [] g databases _ Hoptions). split; vm_compute; reflexivity. }
  unfold main. rewrite Hoptions. destruct Hneedles as [Hn Hne]. rewrite Hn, Hpaths. destruct needles as [|n ns]; [done|].
  assert (Hdb : map (open (privileged g) g (n :: ns)) paths <> []).
  { intros E. apply map_eq_nil in E. by eapply dbpaths_nonempty. }
  assert (Hdbs : Forall2 database_ok matches (map (open (privileged g) g (n :: ns)) paths)).
  { apply Forall2_fmap. eapply Forall2_impl; [exact Hfiles|]. intros [visibility names] path (file & Hfile & Hbuilt).
    by eapply open_database_ok. }
  assert (Hless : Z.of_nat (length (concat matches)) < 2 ^ 63).
  { eapply Z.le_lt_trans; [|exact Htotal]. unfold matches. clear. induction contents as [|[v names] contents IH]; [done|].
    cbn [map concat snd]. rewrite !length_app. pose proof (List.filter_length_le (wanted (search_options uring g false)
      (fnmatch (g_ignore_case g)) (regexec (g_use_extended_regex g) (g_ignore_case g))
      (fun f => negb (if g_ignore_visibility g then false else v) || accessible f) lstat (n :: ns)) names). unfold database_matches at 1. lia. }
  destruct (searched_output mbtowc isatty g _ matches Hdb Hdbs Hl Hless Hplain) as (output & E & Ho).
  exists output. unfold open in E. by rewrite E.
Qed.

(** ** Witnesses and examples *)

Definition sample_options : list MainOption :=
  [opt_ignore_case; opt_basename; opt_limit (bytes_of_string "9"); opt_database (bytes_of_string "a:b\:c"); opt_limit (bytes_of_string "3x");
   opt_null; opt_wholename; opt_ignore_visibility].

Lemma main_options_exact_witness :
  parse_main_options sample_options initial_globals [] =
  inr (GLOBALS true false true false false false false false false true 3 false, [bytes_of_string "a:b\:c"]).
Proof.
  apply (main_options_exact sample_options). repeat apply Forall_cons_2; try apply Forall_nil_2; cbn [goes_on];
    first [exact I|vm_compute; reflexivity|vm_compute; discriminate].
Defined.

(** A database under two names; privileges make no difference. *)
Definition sample_files (privileged : bool) (path : bytes) : option bytes := Some sample_database.

Definition few_options : list MainOption :=
  [opt_database (bytes_of_string "a:b\:c"); opt_limit (bytes_of_string "3x"); opt_null].

Definition sample_main_globals : Globals := GLOBALS false false true false false false false false false false 3 false.

Definition sample_arrivals (_ : bool) (_ : list Needle) (_ : bytes) : list Z := reverse (parse_trigrams (bytes_of_string "foo")).

Definition sample_segments (_ : bytes) (results : list Element) : list (list Element) := [reverse results].

Lemma sample_built : built_database (fun _ => unmarked) true sample_names sample_database.
Proof.
  exists marked, (repeat 0 133), (repeat 0 641), 10%nat, 100%nat, 2, [1; 2; 3], sample_sections.
  split; [intros b; done|]. split; [split; [done|split; [done|apply (bool_decide_unpack _); vm_compute; exact I]]|].
  split; [lia|]. split; [split; [apply (bool_decide_unpack _); vm_compute; exact I|vm_compute; reflexivity]|].
  split; [vm_compute; reflexivity|]. split; vm_compute; reflexivity.
Qed.

(** The third match of [foo] in each may not be accessed. *)
Lemma main_prints_witness : exists output,
  main (fun _ _ _ => true) (bytes_of_string "db") sample_files sample_accessible (fun _ => true) (fun _ => no_match) (fun _ _ => no_match)
    (fun _ => unmarked) (repeat 7 16) true sample_arrivals reverse reverse ascii_locale 10 sample_segments few_options
    [bytes_of_string "foo"] None = Searched 0 output /\
  output_bytes (fun _ => MbInvalid) true sample_main_globals output =
    Some (concat (map (fun f => bytes_of_string f ++ [0]) ["/a/food"%string; "/foobar"%string; "/a/food"%string])).
Proof.
  apply (main_prints (fun _ _ _ => true) (bytes_of_string "db") (fun _ => MbInvalid) true sample_files sample_accessible (fun _ => true)
    (fun _ => no_match) (fun _ _ => no_match) (fun _ => unmarked) (repeat 7 16) true sample_arrivals reverse reverse ascii_locale 10
    sample_segments few_options [bytes_of_string "foo"] None sample_main_globals [bytes_of_string "a:b\:c"]
    [NEEDLE STRSTR (bytes_of_string "foo")] [bytes_of_string "a"; bytes_of_string "b:c"] [(true, sample_names); (true, sample_names)]).
  - vm_compute. reflexivity.
  - split; [vm_compute; reflexivity|discriminate].
  - vm_compute. reflexivity.
  - apply Forall2_cons; split; [exists sample_database; split; [reflexivity|exact sample_built]|].
    apply Forall2_cons; split; [exists sample_database; split; [reflexivity|exact sample_built]|]. constructor.
  - split.
    + split; [|cbn; lia]. apply (bool_decide_unpack _). vm_compute. exact I.
    + exact ascii_locale_ok.
    + right. apply Forall_singleton. split; [apply (bool_decide_unpack _); vm_compute; exact I|].
      cbn. split; [done|]. apply (bool_decide_unpack _). vm_compute. exact I.
    + intros l. apply reverse_Permutation.
    + intros l. apply reverse_Permutation.
    + intros path gs Hgs. vm_compute in Hgs. injection Hgs as <-. apply (bool_decide_unpack _). vm_compute. exact I.
    + intros path results. unfold sample_segments. cbn. rewrite app_nil_r. apply reverse_Permutation.
  - vm_compute. reflexivity.
  - left. reflexivity.
Defined.
