(* ===== verification/AccessCache.v ===== *)
(** * The access cache (src/access_rx_cache.cpp)

    [AccessRXCache] decides whether all directories above a file can be read.  It
    remembers what [access] said about each directory, and may first ask the engine
    for a stat, after which it checks again; calls that need a stat that is under
    way wait for it.  A callback is the call that it belongs to, and the stats
    complete in any order. *)
From S2P Require Import Prelude Text.

(** ** The cache *)

Section Cache.
(** The callbacks; what [access(path, R_OK | X_OK)] says; whether the engine does stats. *)
Context {CB : Type} (access : bytes -> bool) (supports_stat check_visibility : bool).

Record PendingStat := PS { filename : bytes; cb : CB }.

(** [pending_stats] is a sorted map; [submitted] are the stats that the engine
    works on, each with the call that its callback continues; [answered] are the
    callbacks that were called. *)
Record AccessRXCache := ARC {
  cache : gmap bytes bool;
  pending_stats : list (bytes * list PendingStat);
  submitted : list PendingStat;
  answered : list (PendingStat * bool)
}.

Definition new_AccessRXCache : AccessRXCache := ARC ∅ [] [] [].

Definition answer (s : AccessRXCache) (call : PendingStat) (ok : bool) : AccessRXCache :=
  ARC (cache s) (pending_stats s) (submitted s) (answered s ++ [(call, ok)]).

(** The prefixes that end before a slash, other than one at the very start. *)
Fixpoint parents_after (before rest : bytes) : list bytes :=
  match rest with
  | [] => []
  | c :: rest => (if c =? 47 then [before] else []) ++ parents_after (before ++ [c]) rest
  end.

(** [None]: [filename + 1] is past the end of an empty name. *)
Definition parents (filename : bytes) : option (list bytes) :=
  match filename with
  | [] => None
  | c :: rest => Some (parents_after [c] rest)
  end.

(** [std::map]: [lower_bound], appending to the vector of a key, [emplace], [erase]. *)
Fixpoint lower_bound (key : bytes) (m : list (bytes * list PendingStat)) : option bytes :=
  match m with
  | [] => None
  | (k, _) :: m => if bytes_lt k key then lower_bound key m else Some k
  end.

Definition add_waiting (key : bytes) (call : PendingStat) (m : list (bytes * list PendingStat))
    : list (bytes * list PendingStat) :=
  map (fun '(k, v) => (k, if decide (k = key) then v ++ [call] else v)) m.

Fixpoint emplace (key : bytes) (m : list (bytes * list PendingStat)) : list (bytes * list PendingStat) :=
  match m with
  | [] => [(key, [])]
  | (k, v) :: m => if decide (k = key) then (k, v) :: m else if bytes_lt key k then (key, []) :: (k, v) :: m else (k, v) :: emplace key m
  end.

Fixpoint erase (key : bytes) (m : list (bytes * list PendingStat)) : list (bytes * list PendingStat) :=
  match m with
  | [] => []
  | (k, v) :: m => if decide (k = key) then m else (k, v) :: erase key m
  end.

Fixpoint find_pending (key : bytes) (m : list (bytes * list PendingStat)) : option (list PendingStat) :=
  match m with
  | [] => None
  | (k, v) :: m => if decide (k = key) then Some v else find_pending key m
  end.

(** The loop over the directories above the file. *)
Fixpoint check_parents (allow_async : bool) (call : PendingStat) (parents : list bytes) (s : AccessRXCache) : AccessRXCache :=
  match parents with
  | [] => answer s call true
  | parent_path :: parents =>
    match cache s !! parent_path with
    | Some false => answer s call false
    | Some true => check_parents allow_async call parents s
    | None =>
      if negb allow_async then
        let ok := access parent_path in
        let s := ARC (<[parent_path := ok]> (cache s)) (pending_stats s) (submitted s) (answered s) in
        if ok then check_parents allow_async call parents s else answer s call false
      else
        match lower_bound parent_path (pending_stats s) with
        | Some key =>
          if bool_decide (parent_path `prefix_of` key)
          then ARC (cache s) (add_waiting key call (pending_stats s)) (submitted s) (answered s)
          else ARC (cache s) (emplace (filename call) (pending_stats s)) (submitted s ++ [call]) (answered s)
        | None => ARC (cache s) (emplace (filename call) (pending_stats s)) (submitted s ++ [call]) (answered s)
        end
    end
  end.

(** [None]: something is accessed outside its bounds. *)
Definition check_access (allow_async : bool) (s : AccessRXCache) (call : PendingStat) : option AccessRXCache :=
  if negb check_visibility then Some (answer s call true)
  else ps ← parents (filename call); Some (check_parents (allow_async && supports_stat) call ps s).

Fixpoint check_all (s : AccessRXCache) (calls : list PendingStat) : option AccessRXCache :=
  match calls with
  | [] => Some s
  | call :: calls => s ← check_access true s call; check_all s calls
  end.

(** The callback of a stat: any of those under way, so that [i] counts around.
    [None] also stands for an iterator into [pending_stats] that is no longer valid. *)
Definition stat_done (i : nat) (s : AccessRXCache) : option AccessRXCache :=
  let n := (i mod length (submitted s))%nat in
  match submitted s !! n with
  | None => Some s
  | Some call =>
    let s := ARC (cache s) (pending_stats s) (delete n (submitted s)) (answered s) in
    s ← check_access false s call;
    pending ← find_pending (filename call) (pending_stats s);
    check_all (ARC (cache s) (erase (filename call) (pending_stats s)) (submitted s) (answered s)) pending
  end.

(** What happens to the cache: calls, and stats that complete. *)
Inductive event := Check (call : PendingStat) | StatDone (i : nat).

Fixpoint run (events : list event) (s : AccessRXCache) : option AccessRXCache :=
  match events with
  | [] => Some s
  | Check call :: events => s ← check_access true s call; run events s
  | StatDone i :: events => s ← stat_done i s; run events s
  end.

Definition calls_of (events : list event) : list PendingStat :=
  omap (fun e => match e with Check call => Some call | StatDone _ => None end) events.

(** ** Specification *)

(** Whether all directories above a file can be read. *)
Definition accessible (f : bytes) : bool :=
  negb check_visibility || match parents f with Some ps => forallb access ps | None => false end.

Definition waiting (s : AccessRXCache) : list PendingStat := concat (map snd (pending_stats s)).

(** What is remembered is what [access] says, and the sorted map has a key for each
    stat under way. *)
Record map_ok (s : AccessRXCache) : Prop := {
  mo_cache : forall p b, cache s !! p = Some b -> b = access p;
  mo_sorted : StronglySorted (fun a b => bytes_lt a b = true) (map fst (pending_stats s));
  mo_keys : map fst (pending_stats s) ≡ₚ map filename (submitted s)
}.

Record cache_inv (calls : list PendingStat) (s : AccessRXCache) : Prop := {
  ci_map : map_ok s;
  ci_calls : calls ≡ₚ map fst (answered s) ++ submitted s ++ waiting s;
  ci_names : check_visibility = true -> Forall (fun call => filename call <> []) calls;
  ci_answers : Forall (fun '(call, ok) => ok = accessible (filename call)) (answered s)
}.

(** ** Lemmas on the map *)

Lemma parents_prefix rest : forall before p, p ∈ parents_after before rest -> p `prefix_of` before ++ rest.
Proof.
  induction rest as [|c rest IH]; intros before p; cbn [parents_after]; [intros H; by apply not_elem_of_nil in H|].
  rewrite elem_of_app. intros [H|H].
  - destruct (c =? 47); [|by apply not_elem_of_nil in H]. apply list_elem_of_singleton in H as ->. by apply prefix_app_r.
  - apply IH in H. by rewrite <- app_assoc in H.
Qed.

(** Between a string and one that it starts, all start with it. *)
Lemma prefix_between p : forall k k', bytes_lt k p = false -> p `prefix_of` k' -> bytes_lt k' k = false -> p `prefix_of` k.
Proof.
  induction p as [|c p IH]; intros k k' H1 H2 H3; [by apply prefix_nil|].
  destruct H2 as [x ->]. destruct k as [|d k]; [done|]. cbn in H1, H3.
  apply orb_false_iff in H1 as [H1 H1']. apply orb_false_iff in H3 as [H3 H3'].
  apply Z.ltb_ge in H1, H3. assert (d = c) as -> by lia. rewrite Z.eqb_refl in *. cbn [andb] in *.
  apply prefix_cons. apply (IH k (p ++ x)); [done|by exists x|done].
Qed.

Lemma lower_bound_prefix p k m : StronglySorted (fun a b => bytes_lt a b = true) (map fst m) ->
  k ∈ map fst m -> p `prefix_of` k -> exists k', lower_bound p m = Some k' /\ p `prefix_of` k'.
Proof.
  intros S Hk Hp. induction m as [|[k0 v] m IH]; [by apply not_elem_of_nil in Hk|]. cbn [map fst lower_bound] in *.
  apply StronglySorted_inv in S as [S F]. destruct (bytes_lt k0 p) eqn:E.
  - apply elem_of_cons in Hk as [->|Hk]; [|by apply IH]. exfalso. destruct Hp as [x ->].
    assert (H : forall s t, bytes_lt (s ++ t) s = false).
    { clear. induction s as [|c s IH]; intros t; [by destruct t|]. cbn. rewrite IH, Z.ltb_irrefl. by rewrite andb_false_r. }
    by rewrite H in E.
  - exists k0. split; [done|]. apply elem_of_cons in Hk as [->|Hk]; [done|].
    apply (prefix_between p k0 k); [done|done|]. rewrite Forall_forall in F. specialize (F k Hk).
    destruct (bytes_lt k k0) eqn:E2; [|done]. pose proof (bytes_lt_trans _ _ _ F E2) as H. by rewrite bytes_lt_irrefl in H.
Qed.

Lemma lower_bound_elem p k m : lower_bound p m = Some k -> k ∈ map fst m.
Proof.
  induction m as [|[k0 v] m IH]; cbn [lower_bound map fst]; [done|]. destruct (bytes_lt k0 p); [right; auto|].
  intros [= ->]. left.
Qed.

Lemma add_waiting_keys key call m : map fst (add_waiting key call m) = map fst m.
Proof. unfold add_waiting. rewrite map_map. apply map_ext. by intros [k v]. Qed.

Lemma add_waiting_perm key call m : NoDup (map fst m) -> key ∈ map fst m ->
  concat (map snd (add_waiting key call m)) ≡ₚ call :: concat (map snd m).
Proof.
  induction m as [|[k v] m IH]; cbn [map fst]; intros N Hk; [by apply not_elem_of_nil in Hk|].
  apply NoDup_cons in N as [Hn N]. change (add_waiting key call ((k, v) :: m))
    with ((k, if decide (k = key) then v ++ [call] else v) :: add_waiting key call m). cbn [map snd concat].
  destruct (decide (k = key)) as [->|Hne].
  - assert (Heq : add_waiting key call m = m).
    { clear -Hn. induction m as [|[k' v'] m IH]; [done|]. cbn [map fst] in Hn. apply not_elem_of_cons in Hn as [H1 H2].
      change (add_waiting key call ((k', v') :: m)) with ((k', if decide (k' = key) then v' ++ [call] else v') :: add_waiting key call m).
      rewrite IH by done. by rewrite decide_False by auto. }
    rewrite Heq, <- app_assoc. cbn [app]. symmetry. apply Permutation_middle.
  - apply elem_of_cons in Hk as [->|Hk]; [done|]. rewrite (IH N Hk). symmetry. apply Permutation_middle.
Qed.

Lemma emplace_spec key m : key ∉ map fst m -> StronglySorted (fun a b => bytes_lt a b = true) (map fst m) ->
  StronglySorted (fun a b => bytes_lt a b = true) (map fst (emplace key m)) /\
  map fst (emplace key m) ≡ₚ key :: map fst m /\ concat (map snd (emplace key m)) = concat (map snd m).
Proof.
  induction m as [|[k v] m IH]; intros Hn S; cbn [emplace map fst]; [by repeat constructor|].
  cbn [map fst] in *. apply not_elem_of_cons in Hn as [Hk Hn]. rewrite decide_False by auto.
  apply StronglySorted_inv in S as [S F]. destruct (bytes_lt key k) eqn:E.
  - split; [|split; done]. cbn [map fst]. constructor; [by constructor|]. constructor; [done|].
    eapply Forall_impl; [exact F|]. intros x Hx. by eapply bytes_lt_trans.
  - destruct (IH Hn S) as (S' & P & C). cbn [map fst snd concat]. split; [|split].
    + constructor; [done|]. rewrite P. constructor; [|done]. destruct (bytes_lt k key) eqn:E2; [done|].
      exfalso. apply Hk. symmetry. by apply bytes_lt_trichotomy.
    + rewrite P. apply perm_swap.
    + by rewrite C.
Qed.

Lemma sorted_nodup (l : list bytes) : StronglySorted (fun a b => bytes_lt a b = true) l -> NoDup l.
Proof.
  induction 1 as [|x l S IH F]; constructor; [|done]. intros Hx. rewrite Forall_forall in F. specialize (F x Hx).
  by rewrite bytes_lt_irrefl in F.
Qed.

Lemma erase_spec key m : key ∈ map fst m -> StronglySorted (fun a b => bytes_lt a b = true) (map fst m) ->
  exists v, find_pending key m = Some v /\ StronglySorted (fun a b => bytes_lt a b = true) (map fst (erase key m)) /\
  map fst m ≡ₚ key :: map fst (erase key m) /\ concat (map snd m) ≡ₚ v ++ concat (map snd (erase key m)).
Proof.
  induction m as [|[k v] m IH]; intros Hk S; cbn [map fst] in *; [by apply not_elem_of_nil in Hk|].
  cbn [find_pending erase]. apply StronglySorted_inv in S as [S F]. destruct (decide (k = key)) as [->|Hne]; [by exists v|].
  apply elem_of_cons in Hk as [->|Hk]; [done|]. destruct (IH Hk S) as (v' & -> & S' & P & C). exists v'.
  split; [done|]. cbn [map fst snd concat]. split; [|split].
  - constructor; [done|]. rewrite P in F. by apply Forall_cons in F as [_ F].
  - rewrite P. apply perm_swap.
  - rewrite C. apply Permutation_app_swap_app.
Qed.

(** ** The invariant *)

(** A call is answered, or it joins those that are not answered yet. *)
Definition handled (s s' : AccessRXCache) (call : PendingStat) (ok : bool) : Prop :=
  (answered s' = answered s ++ [(call, ok)] /\ pending_stats s' = pending_stats s /\ submitted s' = submitted s) \/
  (answered s' = answered s /\ submitted s' ++ waiting s' ≡ₚ call :: submitted s ++ waiting s).

Lemma emplace_ok s call p : map_ok s -> p `prefix_of` filename call ->
  (forall k, lower_bound p (pending_stats s) = Some k -> ~ p `prefix_of` k) ->
  let s' := ARC (cache s) (emplace (filename call) (pending_stats s)) (submitted s ++ [call]) (answered s) in
  map_ok s' /\ handled s s' call (accessible (filename call)).
Proof.
  intros [H1 H2 H3] Hp Hno s'.
  assert (Hfresh : filename call ∉ map fst (pending_stats s)).
  { intros Hin. destruct (lower_bound_prefix p _ _ H2 Hin Hp) as (k & E & Hk). by apply (Hno k). }
  destruct (emplace_spec _ _ Hfresh H2) as (S & P & C). split.
  - split; cbn; [done|done|]. rewrite P, H3, List.map_app. cbn [map]. by rewrite <- Permutation_cons_append.
  - right. split; [done|]. unfold s', waiting. cbn [pending_stats submitted]. rewrite C, <- app_assoc. cbn [app].
    by rewrite <- Permutation_middle.
Qed.

Lemma check_parents_sync call ps : forall s, (forall p b, cache s !! p = Some b -> b = access p) -> exists c,
  check_parents false call ps s = ARC c (pending_stats s) (submitted s) (answered s ++ [(call, forallb access ps)]) /\
  forall p b, c !! p = Some b -> b = access p.
Proof.
  induction ps as [|p ps IH]; intros s Hs; cbn [check_parents forallb]; [by exists (cache s)|].
  destruct (cache s !! p) as [b|] eqn:E.
  - apply Hs in E; subst b. destruct (access p) eqn:Ea; cbn [andb]; [by apply IH|].
    by exists (cache s).
  - cbn [negb]. assert (Hc : forall q b, <[p:=access p]> (cache s) !! q = Some b -> b = access q).
    { intros q b. destruct (decide (q = p)) as [->|Hne]; [by rewrite lookup_insert_eq; intros [= <-]|].
      rewrite lookup_insert_ne by auto. apply Hs. }
    destruct (access p) eqn:Ea; cbn [andb].
    + destruct (IH (ARC (<[p:=true]> (cache s)) (pending_stats s) (submitted s) (answered s))) as (c & E' & Hc'); [exact Hc|].
      by exists c.
    + exists (<[p:=false]> (cache s)). done.
Qed.

Lemma check_parents_spec aa call ps : forall s, map_ok s -> Forall (fun p => p `prefix_of` filename call) ps ->
  forallb access ps = accessible (filename call) ->
  map_ok (check_parents aa call ps s) /\ handled s (check_parents aa call ps s) call (accessible (filename call)).
Proof.
  destruct aa.
  2: { intros s Hs _ Hok. destruct (check_parents_sync call ps s (mo_cache _ Hs)) as (c & -> & Hc). rewrite Hok. split; [by split; try apply Hs|].
       by left. }
  induction ps as [|p ps IH]; intros s Hs F Hok; cbn [check_parents forallb] in *.
  { rewrite <- Hok. split; [by split; try apply Hs|by left]. }
  apply Forall_cons in F as [Hp F]. destruct (cache s !! p) as [b|] eqn:E.
  - apply (mo_cache _ Hs) in E; subst b. destruct (access p) eqn:Ea; cbn [andb] in Hok; [by apply IH|].
    rewrite <- Hok. split; [by split; try apply Hs|by left].
  - cbn [negb]. destruct (lower_bound p (pending_stats s)) as [k|] eqn:El.
    + case_bool_decide as Hk.
      * split.
        -- destruct Hs as [H1 H2 H3]. split; cbn; [done| |]; by rewrite add_waiting_keys.
        -- right. split; [done|]. unfold waiting. cbn [pending_stats submitted].
           rewrite add_waiting_perm; [by rewrite <- Permutation_middle|by apply sorted_nodup, Hs|by eapply lower_bound_elem].
      * apply (emplace_ok s call p Hs Hp). by intros k' [= <-]%(eq_trans (eq_sym El)).
    + apply (emplace_ok s call p Hs Hp). congruence.
Qed.

Lemma accessible_parents f ps : check_visibility = true -> parents f = Some ps -> forallb access ps = accessible f.
Proof. intros Hc Hp. unfold accessible. by rewrite Hc, Hp. Qed.

Lemma check_access_spec aa s call : map_ok s -> (check_visibility = true -> filename call <> []) ->
  exists s', check_access aa s call = Some s' /\ map_ok s' /\ handled s s' call (accessible (filename call)).
Proof.
  intros Hs Hne. unfold check_access. destruct check_visibility eqn:Hv; cbn [negb].
  - destruct (filename call) as [|c rest] eqn:Ef; [by destruct (Hne eq_refl)|]. cbn [parents mbind option_bind].
    eexists. split; [done|]. rewrite <- Ef. apply check_parents_spec; [done| |].
    + rewrite Ef. apply Forall_forall. intros p Hp. by apply parents_prefix in Hp.
    + by apply accessible_parents; [|rewrite Ef].
  - assert (Hacc : accessible (filename call) = true) by (unfold accessible; by rewrite Hv). rewrite Hacc.
    eexists. split; [done|]. split; [by split; try apply Hs|by left].
Qed.

Lemma check_access_sync s call : (forall p b, cache s !! p = Some b -> b = access p) ->
  (check_visibility = true -> filename call <> []) -> exists c,
  check_access false s call
    = Some (ARC c (pending_stats s) (submitted s) (answered s ++ [(call, accessible (filename call))])) /\
  forall p b, c !! p = Some b -> b = access p.
Proof.
  intros Hs Hne. unfold check_access. destruct check_visibility eqn:Hv; cbn [negb andb].
  - destruct (filename call) as [|d rest] eqn:Ef; [by destruct (Hne eq_refl)|]. cbn [parents mbind option_bind].
    destruct (check_parents_sync call (parents_after [d] rest) s Hs) as (c & -> & Hc). exists c. split; [|done].
    do 3 f_equal. unfold accessible. rewrite Hv. cbn. done.
  - exists (cache s). split; [|done]. unfold answer, accessible. by rewrite Hv.
Qed.

(** A call adds to what is answered and submitted; without stats nothing is submitted. *)
Lemma check_parents_log aa call ps : forall s, exists na ns,
  answered (check_parents aa call ps s) = answered s ++ na /\ submitted (check_parents aa call ps s) = submitted s ++ ns /\
  (aa = false -> ns = []).
Proof.
  assert (Hnone : forall l : list PendingStat, l = l ++ []) by (intros; by rewrite app_nil_r).
  induction ps as [|p ps IH]; intros s; cbn [check_parents]; [by exists [(call, true)], []; cbn; rewrite app_nil_r|].
  destruct (cache s !! p) as [[|]|]; [apply IH|by exists [(call, false)], []; cbn; rewrite app_nil_r|]. destruct aa; cbn [negb].
  - destruct (lower_bound p (pending_stats s)) as [k|]; [case_bool_decide|]; cbn; exists [].
    1: exists []. 2, 3: exists [call]. all: by rewrite ?app_nil_r.
  - destruct (access p); [apply (IH (ARC _ _ _ _))|]. exists [(call, false)], []. cbn. by rewrite app_nil_r.
Qed.

Lemma check_access_log aa s call s' : check_access aa s call = Some s' -> exists na ns,
  answered s' = answered s ++ na /\ submitted s' = submitted s ++ ns /\ (aa && supports_stat = false -> ns = []).
Proof.
  unfold check_access. destruct (negb check_visibility).
  - intros [= <-]. exists [(call, true)], []. cbn. by rewrite app_nil_r.
  - destruct (parents (filename call)) as [ps|]; cbn [mbind option_bind]; [|done]. intros [= <-]. apply check_parents_log.
Qed.

Lemma handled_answered s s' call ok : handled s s' call ok -> (length (answered s) <= length (answered s'))%nat.
Proof. intros [(-> & _)|(-> & _)]; [rewrite length_app|]; lia. Qed.

Lemma check_access_inv calls s call : cache_inv calls s -> (check_visibility = true -> filename call <> []) ->
  exists s', check_access true s call = Some s' /\ cache_inv (calls ++ [call]) s' /\
    (length (answered s) <= length (answered s'))%nat.
Proof.
  intros [Hm Hc Hn Ha] Hne. destruct (check_access_spec true s call Hm Hne) as (s' & E & Hm' & Hh).
  exists s'. split; [done|]. split; [|by eapply handled_answered]. split; [done| | |].
  - rewrite Hc, <- Permutation_cons_append. unfold waiting in *. destruct Hh as [(-> & -> & ->)|(-> & P)].
    + rewrite List.map_app. cbn [map fst]. rewrite <- app_assoc. cbn [app]. by rewrite <- Permutation_middle.
    + unfold waiting in P. rewrite P. by rewrite <- Permutation_middle.
  - intros Hv. apply Forall_app. split; [by apply Hn|]. constructor; [by apply Hne|constructor].
  - destruct Hh as [(-> & _)|(-> & _)]; [|done]. apply Forall_app. split; [done|]. by constructor.
Qed.

Lemma check_all_inv new : forall calls s, cache_inv calls s -> (check_visibility = true -> Forall (fun call => filename call <> []) new) ->
  exists s', check_all s new = Some s' /\ cache_inv (calls ++ new) s' /\ (length (answered s) <= length (answered s'))%nat.
Proof.
  induction new as [|call new IH]; intros calls s Hs Hne; cbn [check_all]; [exists s; by rewrite app_nil_r|].
  destruct (check_access_inv calls s call Hs) as (s1 & -> & H1 & L1); [by intros Hv; apply Hne, Forall_cons in Hv as [? _]|].
  cbn [mbind option_bind]. destruct (IH _ s1 H1) as (s2 & -> & H2 & L2); [by intros Hv; apply Hne, Forall_cons in Hv as [_ ?]|].
  exists s2. split; [done|]. split; [by rewrite <- app_assoc in H2|lia].
Qed.

(** A stat that is done answers its call; the calls that waited for it are left. *)
Lemma stat_done_start calls s n call : cache_inv calls s -> submitted s !! n = Some call -> exists c v,
  let s1 := ARC c (erase (filename call) (pending_stats s)) (delete n (submitted s))
    (answered s ++ [(call, accessible (filename call))]) in
  let calls1 := map fst (answered s1) ++ submitted s1 ++ waiting s1 in
  check_access false (ARC (cache s) (pending_stats s) (delete n (submitted s)) (answered s)) call
    = Some (ARC c (pending_stats s) (delete n (submitted s)) (answered s1)) /\
  find_pending (filename call) (pending_stats s) = Some v /\
  cache_inv calls1 s1 /\ calls ≡ₚ calls1 ++ v /\ waiting s ≡ₚ v ++ waiting s1 /\
  (check_visibility = true -> Forall (fun call => filename call <> []) v).
Proof.
  intros [[H1 H2 H3] Hc Hn Ha] Hcall.
  assert (P : submitted s ≡ₚ call :: delete n (submitted s)) by by apply delete_Permutation.
  assert (Hne : check_visibility = true -> filename call <> []).
  { intros Hv. specialize (Hn Hv). rewrite Hc, P in Hn. rewrite !Forall_app in Hn. destruct Hn as (_ & Hn & _).
    by apply Forall_cons in Hn as [? _]. }
  destruct (check_access_sync (ARC (cache s) (pending_stats s) (delete n (submitted s)) (answered s)) call H1 Hne) as (c & E & Hc').
  assert (Hk : filename call ∈ map fst (pending_stats s)) by (rewrite H3, P; by left).
  destruct (erase_spec _ _ Hk H2) as (v & Ev & S & Pk & Pw). exists c, v. intros s1 calls1.
  assert (Pcalls : calls ≡ₚ calls1 ++ v).
  { rewrite Hc, P. unfold calls1, s1, waiting. cbn [answered submitted pending_stats]. rewrite Pw, List.map_app. cbn [map fst].
    rewrite <- !app_assoc. apply Permutation_app_head. cbn [app]. apply perm_skip. apply Permutation_app_head.
    apply Permutation_app_comm. }
  assert (Hnames : check_visibility = true -> Forall (fun call => filename call <> []) (calls1 ++ v)).
  { intros Hv. rewrite <- Pcalls. by apply Hn. }
  split; [exact E|]. split; [done|]. split; [|split; [done|split; [exact Pw|]]].
  - split; [split; cbn|done| |].
    + done.
    + done.
    + rewrite Pk, P in H3. cbn [map] in H3. by apply Permutation_cons_inv in H3.
    + intros Hv. by apply Hnames, Forall_app in Hv as [? _].
    + cbn. apply Forall_app. split; [done|]. by constructor.
  - intros Hv. by apply Hnames, Forall_app in Hv as [_ ?].
Qed.

Lemma stat_done_inv calls s i : cache_inv calls s -> exists s', stat_done i s = Some s' /\ cache_inv calls s' /\
  (submitted s = [] /\ s' = s \/ (length (answered s) < length (answered s'))%nat).
Proof.
  intros Hs. unfold stat_done. destruct (submitted s) as [|x0 l0] eqn:Esub.
  { exists s. split; [done|]. split; [|by left]. exact Hs. }
  rewrite <- Esub in *. set (n := (i mod length (submitted s))%nat).
  assert (Hlt : (n < length (submitted s))%nat) by (apply Nat.mod_upper_bound; by rewrite Esub).
  destruct (lookup_lt_is_Some_2 _ _ Hlt) as [call Hcall]. rewrite Hcall.
  destruct (stat_done_start calls s n call Hs Hcall) as (c & v & -> & Ev & I1 & P1 & _ & Hv). cbv zeta in *.
  cbn [mbind option_bind pending_stats cache submitted answered]. rewrite Ev. cbn [mbind option_bind].
  destruct (check_all_inv v _ _ I1 Hv) as (s2 & E & Hinv & L). exists s2. split; [exact E|].
  split; [|right; cbn in L; rewrite length_app in L; cbn in L; lia].
  destruct Hinv as [J1 J2 J3 J4]. split; [done|by rewrite P1| |done]. intros Hvis. rewrite P1. by apply J3.
Qed.

Lemma run_inv events : forall calls s, cache_inv calls s ->
  (check_visibility = true -> Forall (fun call => filename call <> []) (calls_of events)) ->
  exists s', run events s = Some s' /\ cache_inv (calls ++ calls_of events) s'.
Proof.
  induction events as [|[call|i] events IH]; intros calls s Hs Hne; cbn [run calls_of omap list_omap]; [exists s; by rewrite app_nil_r| |].
  - cbn in Hne. destruct (check_access_inv calls s call Hs) as (s1 & -> & H1 & _); [by intros Hv; apply Hne, Forall_cons in Hv as [? _]|].
    cbn [mbind option_bind]. destruct (IH _ s1 H1) as (s2 & -> & H2); [by intros Hv; apply Hne, Forall_cons in Hv as [_ ?]|].
    exists s2. split; [done|]. by rewrite <- app_assoc in H2.
  - destruct (stat_done_inv calls s i Hs) as (s1 & -> & H1 & _). cbn [mbind option_bind]. by apply IH.
Qed.

Lemma run_done indices : forall calls s, cache_inv calls s -> exists s', run (map StatDone indices) s = Some s' /\ cache_inv calls s' /\
  (submitted s' = [] \/ (length (answered s) + length indices <= length (answered s'))%nat).
Proof.
  induction indices as [|i indices IH]; intros calls s Hs; cbn [map run length]; [exists s; split; [done|]; split; [done|right; lia]|].
  destruct (stat_done_inv calls s i Hs) as (s1 & -> & H1 & Hd). cbn [mbind option_bind].
  destruct (IH calls s1 H1) as (s2 & -> & H2 & Hd2). exists s2. split; [done|]. split; [done|].
  destruct Hd as [[Esub ->]|Hd].
  - destruct Hd2 as [|Hd2]; [by left|]. left. clear -Esub IH H1 H2 Hd2. destruct (submitted s2) as [|x l] eqn:E2; [done|]. exfalso.
    pose proof (ci_calls _ _ H1) as C1. pose proof (ci_calls _ _ H2) as C2.
    rewrite C2 in C1. apply Permutation_length in C1. rewrite !length_app, !length_map, Esub, E2 in C1.
    pose proof (mo_keys _ (ci_map _ _ H1)) as K1. rewrite Esub in K1. apply Permutation_nil_r in K1.
    assert (W : waiting s = []) by (unfold waiting; by destruct (pending_stats s)). rewrite W in C1. cbn [length] in C1. lia.
  - destruct Hd2 as [|Hd2]; [by left|]. right. lia.
Qed.

Lemma new_inv : cache_inv [] new_AccessRXCache.
Proof. split; [split; cbn| |done|]; try done; try constructor. Qed.

Lemma run_app e1 e2 : forall s, run (e1 ++ e2) s = s' ← run e1 s; run e2 s'.
Proof.
  induction e1 as [|[call|i] e1 IH]; intros s; cbn [app run]; [done| |].
  - destruct (check_access true s call); cbn [mbind option_bind]; [apply IH|done].
  - destruct (stat_done i s); cbn [mbind option_bind]; [apply IH|done].
Qed.

End Cache.

(** ** Correctness *)

(** C39. Whatever calls are made and in whatever order the stats complete, the
    cache never touches an entry that is gone, every answer says whether all
    directories above the file can be read, and every call is answered at most
    once or is still waiting for a stat. *)
Theorem access_answers_right {CB : Type} access supports_stat check_visibility (events : list (event (CB := CB)))
    (Hnames : Forall (fun call => filename call <> []) (calls_of events)) :
  exists s, run access supports_stat check_visibility events new_AccessRXCache = Some s /\
    Forall (fun '(call, ok) => ok = accessible access check_visibility (filename call)) (answered s) /\
    calls_of events ≡ₚ map fst (answered s) ++ submitted s ++ waiting s.
Proof.
  destruct (run_inv access supports_stat check_visibility events [] _ (new_inv _ _)) as (s & E & [H1 H2 H3 H4]); [done|].
  by exists s.
Qed.

(** Files below readable and unreadable directories, the second one waiting for
    the stat of the first. *)
Definition sample_access (p : bytes) : bool := negb (bool_decide (p = bytes_of_string "/b/c")).

Definition sample_call (f : string) (cb : Z) : PendingStat := PS (bytes_of_string f) cb.

Definition sample_events : list event :=
  [Check (sample_call "/a/x" 1); Check (sample_call "/a/b/y" 2); Check (sample_call "/b/c/d" 3);
   StatDone 1; Check (sample_call "/b/c/e" 4); Check (sample_call "/a/x" 5); StatDone 7].

Lemma access_answers_right_witness :
  (exists s, run sample_access true true sample_events new_AccessRXCache = Some s /\
    Forall (fun '(call, ok) => ok = accessible sample_access true (filename call)) (answered s) /\
    calls_of sample_events ≡ₚ map fst (answered s) ++ submitted s ++ waiting s) /\
  option_map (fun s => map (fun '(call, ok) => (cb call, ok)) (answered s))
    (run sample_access true true sample_events new_AccessRXCache) = Some [(3, false); (4, false); (1, true); (5, true)].
Proof.
  split; [|vm_compute; reflexivity]. apply (access_answers_right sample_access true true sample_events).
  repeat (constructor; [done|]). constructor.
Defined.

(** Once as many stats have completed as there were calls, in any order, every
    call has been answered exactly once. *)
Theorem all_calls_answered {CB : Type} access supports_stat check_visibility (events : list (event (CB := CB))) indices
    (Hnames : Forall (fun call => filename call <> []) (calls_of events))
    (Henough : (length (calls_of events) <= length indices)%nat) :
  exists s, run access supports_stat check_visibility (events ++ map StatDone indices) new_AccessRXCache = Some s /\
    map fst (answered s) ≡ₚ calls_of events /\
    Forall (fun '(call, ok) => ok = accessible access check_visibility (filename call)) (answered s).
Proof.
  rewrite run_app.
  destruct (run_inv access supports_stat check_visibility events [] _ (new_inv _ _)) as (s1 & -> & H1); [done|].
  cbn [mbind option_bind app] in *. destruct (run_done access supports_stat check_visibility indices _ s1 H1) as (s & -> & H2 & Hd).
  exists s. split; [done|]. split; [|apply H2]. pose proof (ci_calls _ _ _ _ H2) as P. rewrite P.
  assert (E : submitted s ++ waiting s = []).
  { destruct Hd as [Hsub|Hd].
    - pose proof (mo_keys _ _ (ci_map _ _ _ _ H2)) as K. rewrite Hsub in K. apply Permutation_nil_r in K. rewrite Hsub. unfold waiting.
      by destruct (pending_stats s).
    - apply Permutation_length in P. rewrite length_app, length_map in P. destruct (submitted s ++ waiting s); [done|].
      cbn [length] in P. lia. }
  by rewrite E, app_nil_r.
Qed.

Lemma all_calls_answered_witness :
  (exists s, run sample_access true true (sample_events ++ map StatDone [0; 0; 0; 0; 0]%nat) new_AccessRXCache = Some s /\
    map fst (answered s) ≡ₚ calls_of sample_events /\
    Forall (fun '(call, ok) => ok = accessible sample_access true (filename call)) (answered s)) /\
  option_map (fun s => map (fun '(call, ok) => (cb call, ok)) (answered s))
    (run sample_access true true (sample_events ++ map StatDone [0; 0; 0; 0; 0]%nat) new_AccessRXCache)
    = Some [(3, false); (4, false); (1, true); (5, true); (2, true)].
Proof.
  split; [|vm_compute; reflexivity]. apply (all_calls_answered sample_access true true sample_events [0; 0; 0; 0; 0]%nat).
  - repeat (constructor; [done|]). constructor.
  - apply Nat.leb_le. reflexivity.
Defined.
