(* ===== verification/Streams.v ===== *)
(** * Compressed streams (src/database-builder.cpp)

    The encoding corpus keeps the directory times and the metadata of all files as
    two streams that are compressed while files arrive.  The streaming interface
    of the compression library is a class, with what the program relies on as its
    laws; a codec that stores the bytes as they are shows that the laws can hold. *)
From S2P Require Import Prelude Metadata MetadataCodec.

(** ** The compression library *)

(** [compressStream] takes what is to be compressed and the room for output, and
    says what it wrote and how much it consumed; [endStream] also returns whether
    there is more to write.  The last number of [decompressStream] is 0 at the
    end of a frame.  [None] is an error. *)
Class StreamCompressor (C : Type) := {
  compressStream : C -> bytes -> nat -> option (C * bytes * nat);
  endStream : C -> nat -> option (C * bytes * Z)
}.

Class StreamDecompressor (D : Type) := {
  decompressStream : D -> bytes -> nat -> option (D * bytes * nat * Z)
}.

(** [valid_frame comp raw]: a frame that decompresses to [raw].  A compressor is
    described by what it has consumed and produced, a decompressor by what it has
    yet to read and to write.  Calls make progress: the compressor does unless it
    has nothing to do, the decompressor unless it waits for input; and it consumes
    the last byte of a frame only when all output has been written. *)
Class StreamCodec (C D : Type) `{!StreamCompressor C} `{!StreamDecompressor D} (new_c : C) (new_d : D) := {
  valid_frame : bytes -> bytes -> Prop;
  encoding : C -> bytes -> bytes -> Prop;
  ending : C -> bytes -> bytes -> Prop;
  decoding : D -> bytes -> bytes -> Prop;
  pending_output : C -> nat;
  encoding_new : encoding new_c [] [];
  encoding_ends c consumed produced : encoding c consumed produced -> ending c consumed produced;
  encoding_step c consumed produced input room : encoding c consumed produced -> (0 < room)%nat ->
    exists c' out n, compressStream c input room = Some (c', out, n) /\ (n <= length input)%nat /\
      encoding c' (consumed ++ take n input) (produced ++ out) /\
      (n = 0%nat -> out = [] -> input = []) /\ (n = 0%nat -> out <> [] -> (pending_output c' < pending_output c)%nat);
  ending_step c consumed produced room : ending c consumed produced -> (0 < room)%nat ->
    exists c' out ret, endStream c room = Some (c', out, ret) /\ 0 <= ret /\ ending c' consumed (produced ++ out) /\
      if ret =? 0 then valid_frame (produced ++ out) consumed else (pending_output c' < pending_output c)%nat;
  decoding_new comp raw : valid_frame comp raw -> decoding new_d comp raw;
  decoding_step d input later raw room : decoding d (input ++ later) raw -> (0 < room)%nat ->
    exists d' out n ret raw', decompressStream d input room = Some (d', out, n, ret) /\ (n <= length input)%nat /\
      raw = out ++ raw' /\ decoding d' (drop n input ++ later) raw' /\
      (out = [] -> raw = [] \/ later <> []) /\ (out = [] -> input <> [] -> n <> 0%nat) /\
      (drop n input ++ later = [] -> raw' = [])
}.

(** ** Writing a stream *)

(** The context, what is still uncompressed, and what is compressed. *)
Record Stream (C : Type) := STREAM { st_ctx : C; st_input : bytes; st_output : bytes }.

Arguments STREAM {C}.
Arguments st_ctx {C}.
Arguments st_input {C}.
Arguments st_output {C}.

Section Writer.
Context {C : Type} `{!StreamCompressor C}.

(** The loop of [compress_dir_times] and [compress_metadata].  [None]: the program
    stops, or the fuel runs out. *)
Fixpoint compress_loop (fuel allowed_slop : nat) (s : Stream C) : option (Stream C) :=
  if decide (length (st_input s) < allowed_slop)%nat then Some s
  else
    match fuel with
    | O => None
    | S fuel =>
      '(ctx, out, pos) ← compressStream (st_ctx s) (st_input s) 4096;
      let s := STREAM ctx (drop pos (st_input s)) (st_output s ++ out) in
      if (length out =? 0)%nat && (pos =? 0)%nat then Some s else compress_loop fuel allowed_slop s
    end.

Fixpoint end_loop (fuel : nat) (s : Stream C) : option bytes :=
  match fuel with
  | O => None
  | S fuel =>
    '(ctx, out, ret) ← endStream (st_ctx s) 4096;
    let s := STREAM ctx (st_input s) (st_output s ++ out) in
    if ret <? 0 then None else if ret =? 0 then Some (st_output s) else end_loop fuel s
  end.

(** The directory times and the metadata that the corpus has been given. *)
Record RecordStreams := STREAMS { dir_time_stream : Stream C; metadata_stream : Stream C }.

Definition new_RecordStreams (new_c : C) : RecordStreams := STREAMS (STREAM new_c [] []) (STREAM new_c [] []).

Section Store.
Context (fuel : nat) (store_dir_times store_metadata : bool).

Definition compress_dir_times (allowed_slop : nat) (s : RecordStreams) : option RecordStreams :=
  st ← compress_loop fuel allowed_slop (dir_time_stream s); Some (STREAMS st (metadata_stream s)).

Definition compress_metadata (allowed_slop : nat) (s : RecordStreams) : option RecordStreams :=
  if negb store_metadata then Some s
  else st ← compress_loop fuel allowed_slop (metadata_stream s); Some (STREAMS (dir_time_stream s) st).

(** What [add_file] appends for the directory timestamp. *)
Definition dir_time_record (dt : dir_time) : bytes :=
  if dt_sec dt =? -1 then [0] else [1] ++ le_bytes 8 (dt_sec dt) ++ le_bytes 4 (dt_nsec dt).

(** The part of [EncodingCorpus::add_file] after the name. *)
Definition add_record (record : FileRecord) (s : RecordStreams) : option RecordStreams :=
  s ← (if store_dir_times then
         let st := dir_time_stream s in
         compress_dir_times 4096
           (STREAMS (STREAM (st_ctx st) (st_input st ++ dir_time_record (fr_dir_timestamp record)) (st_output st))
              (metadata_stream s))
       else Some s);
  if store_metadata then
    let st := metadata_stream s in
    compress_metadata 4096
      (STREAMS (dir_time_stream s) (STREAM (st_ctx st) (encode_metadata_record (st_input st) (fr_metadata record)) (st_output st)))
  else Some s.

Fixpoint add_records (records : list FileRecord) (s : RecordStreams) : option RecordStreams :=
  match records with
  | [] => Some s
  | r :: records => s ← add_record r s; add_records records s
  end.

(** The assertions are that all input has been consumed. *)
Definition get_compressed_dir_times (s : RecordStreams) : option bytes :=
  if negb store_dir_times then Some []
  else
    s ← compress_dir_times 0 s;
    if decide (st_input (dir_time_stream s) = []) then end_loop fuel (dir_time_stream s) else None.

Definition get_compressed_metadata (s : RecordStreams) : option bytes :=
  if negb store_metadata then Some []
  else
    s ← compress_metadata 0 s;
    if decide (st_input (metadata_stream s) = []) then end_loop fuel (metadata_stream s) else None.

(** Both streams of the records, as [finish_corpus] asks for them. *)
Definition record_streams (new_c : C) (records : list FileRecord) : option (bytes * bytes) :=
  s ← add_records records (new_RecordStreams new_c);
  times ← get_compressed_dir_times s;
  metadata ← get_compressed_metadata s;
  Some (times, metadata).

End Store.
End Writer.

Arguments RecordStreams : clear implicits.

(** ** Fuel *)

(** [f] has the result [a] from some fuel on. *)
Definition eventually {A} (f : nat -> option A) (a : A) : Prop :=
  exists fuel0, forall fuel, (fuel0 <= fuel)%nat -> f fuel = Some a.

Lemma eventually_now {A} (a : A) : eventually (fun _ => Some a) a.
Proof. by exists 0%nat. Qed.

Lemma eventually_step {A} (f : nat -> option A) a : eventually (fun fuel => f (S fuel)) a -> eventually f a.
Proof. intros [n H]. exists (S n). intros [|fuel] Hf; [lia|]. apply H. lia. Qed.

Lemma eventually_bind {A B} (f : nat -> option A) (k : nat -> A -> option B) a b :
  eventually f a -> eventually (fun fuel => k fuel a) b -> eventually (fun fuel => a ← f fuel; k fuel a) b.
Proof. intros [n Hf] [m Hk]. exists (Nat.max n m). intros fuel H. rewrite Hf by lia. apply Hk. lia. Qed.

Lemma eventually_ext {A} (f g : nat -> option A) a : (forall fuel, f fuel = g fuel) -> eventually f a -> eventually g a.
Proof. intros E [n H]. exists n. intros fuel Hf. rewrite <- E. by apply H. Qed.

(** A result does not depend on the fuel. *)
Definition monotone {A} (f : nat -> option A) : Prop :=
  forall fuel a, f fuel = Some a -> forall fuel', (fuel <= fuel')%nat -> f fuel' = Some a.

Lemma monotone_const {A} (o : option A) : monotone (fun _ => o).
Proof. by intros fuel a H fuel' _. Qed.

Lemma monotone_bind {A B} (f : nat -> option A) (k : nat -> A -> option B) :
  monotone f -> (forall a, monotone (fun fuel => k fuel a)) -> monotone (fun fuel => a ← f fuel; k fuel a).
Proof.
  intros Hf Hk fuel b H fuel' Hle. destruct (f fuel) as [a|] eqn:E; cbn [mbind option_bind] in H; [|done].
  rewrite (Hf _ _ E _ Hle). by apply (Hk a _ _ H).
Qed.

Lemma monotone_eventually {A} (f : nat -> option A) fuel a b : monotone f -> eventually f a -> f fuel = Some b -> b = a.
Proof.
  intros Hm [n H] E. specialize (Hm _ _ E (Nat.max n fuel)). rewrite H in Hm by lia.
  assert (Some a = Some b) as [= ->] by (apply Hm; lia). done.
Qed.

Section Monotone.
Context {C : Type} `{!StreamCompressor C}.

Lemma compress_loop_monotone slop (s : Stream C) : monotone (fun fuel => compress_loop fuel slop s).
Proof.
  intros fuel. revert s. induction fuel as [|fuel IH]; intros s a; cbn [compress_loop].
  - destruct (decide _) eqn:Ed; [|done]. intros [= <-] f' _. destruct f'; cbn [compress_loop]; by rewrite Ed.
  - intros H [|f'] Hf; [lia|]. cbn [compress_loop]. destruct (decide _); [done|].
    destruct (compressStream _ _ _) as [[[ctx out] pos]|]; cbn [mbind option_bind] in *; [|done].
    case_match; [done|]. apply (IH _ _ H). lia.
Qed.

Lemma end_loop_monotone (s : Stream C) : monotone (fun fuel => end_loop fuel s).
Proof.
  intros fuel. revert s. induction fuel as [|fuel IH]; intros s a; cbn [end_loop]; [done|].
  intros H [|f'] Hf; [lia|]. cbn [end_loop]. destruct (endStream _ _) as [[[ctx out] ret]|]; cbn [mbind option_bind] in *; [|done].
  case_match; [done|]. case_match; [done|]. apply (IH _ _ H). lia.
Qed.

Lemma record_streams_monotone sd sm (new_c : C) records : monotone (fun fuel => record_streams fuel sd sm new_c records).
Proof.
  assert (Hd : forall slop s, monotone (fun fuel => compress_dir_times fuel slop s)).
  { intros slop s. apply monotone_bind; [apply compress_loop_monotone|intros; apply monotone_const]. }
  assert (Hm : forall slop s, monotone (fun fuel => compress_metadata fuel sm slop s)).
  { intros slop s. unfold compress_metadata. destruct sm; cbn [negb]; [|apply monotone_const].
    apply monotone_bind; [apply compress_loop_monotone|intros; apply monotone_const]. }
  assert (Ha : forall r s, monotone (fun fuel => add_record fuel sd sm r s)).
  { intros r s. apply monotone_bind; [destruct sd; [apply Hd|apply monotone_const]|].
    intros s'. destruct sm; [apply Hm|apply monotone_const]. }
  unfold record_streams. apply monotone_bind.
  { generalize (new_RecordStreams new_c). induction records as [|r records IH]; intros s; [exact (monotone_const (Some s))|].
    exact (monotone_bind (fun fuel => add_record fuel sd sm r s) (fun fuel => add_records fuel sd sm records) (Ha r s) IH). }
  intros s. apply monotone_bind; [|intros times; apply monotone_bind; [|intros; apply monotone_const]].
  - unfold get_compressed_dir_times. destruct sd; cbn [negb]; [|apply monotone_const]. apply monotone_bind; [apply Hd|].
    intros s'. destruct (decide _); [apply end_loop_monotone|apply monotone_const].
  - unfold get_compressed_metadata. destruct sm; cbn [negb]; [|apply monotone_const]. apply monotone_bind; [apply (Hm 0%nat s)|].
    intros s'. destruct (decide _); [apply end_loop_monotone|apply monotone_const].
Qed.

End Monotone.

(** ** What is written *)

(** The bytes of the timestamps and of the metadata of the records. *)
Definition dir_times_bytes (records : list FileRecord) : bytes :=
  concat (map (fun r => dir_time_record (fr_dir_timestamp r)) records).

Definition metadatas_bytes (records : list FileRecord) : bytes :=
  concat (map (fun r => metadata_bytes (fr_metadata r)) records).

Section Written.
Context {C D : Type} `{Codec : StreamCodec C D new_c new_d}.

(** What has gone into the stream so far. *)
Definition stream_holds (s : Stream C) (raw : bytes) : Prop :=
  exists consumed, encoding (st_ctx s) consumed (st_output s) /\ raw = consumed ++ st_input s.

Lemma compress_loop_holds slop raw s : stream_holds s raw -> exists s',
  eventually (fun fuel => compress_loop fuel slop s) s' /\ stream_holds s' raw /\ (slop = 0%nat -> st_input s' = []).
Proof.
  assert (H : forall k j s, (length (st_input s) < k)%nat -> (pending_output (st_ctx s) < j)%nat -> stream_holds s raw ->
    exists s', eventually (fun fuel => compress_loop fuel slop s) s' /\
      stream_holds s' raw /\ (slop = 0%nat -> st_input s' = [])).
  { clear s. induction k as [|k IHk]; [lia|]. induction j as [|j IHj]; [lia|]. intros s Hk Hj (cs & He & Hraw).
    destruct (decide (length (st_input s) < slop)%nat) as [Hs|Hs].
    { exists s. split; [|split; [by exists cs|lia]]. exists 0%nat.
      intros fuel _. destruct fuel; cbn [compress_loop]; by destruct (decide _). }
    destruct (encoding_step _ _ _ (st_input s) 4096 He) as (c' & out & n & E & Hn & He' & Hidle & Hprog); [lia|].
    set (s' := STREAM c' (drop n (st_input s)) (st_output s ++ out)).
    assert (Hs' : stream_holds s' raw).
    { exists (cs ++ take n (st_input s)). split; [done|]. cbn [st_input s']. by rewrite <- app_assoc, take_drop. }
    assert (Hstep : forall r, eventually (fun fuel => if (length out =? 0)%nat && (n =? 0)%nat then Some s' else
        compress_loop fuel slop s') r -> eventually (fun fuel => compress_loop fuel slop s) r).
    { intros r Hr. apply eventually_step. cbn [compress_loop]. destruct (decide _); [done|]. rewrite E. exact Hr. }
    destruct (decide (out = [] /\ n = 0%nat)) as [[Eo En]|Hmove].
    { exists s'. split; [|split; [done|]].
      - apply Hstep. rewrite Eo, En. apply eventually_now.
      - intros _. cbn. by rewrite (Hidle En Eo), drop_nil. }
    assert (Hrec : exists s'', eventually (fun fuel => compress_loop fuel slop s') s'' /\
      stream_holds s'' raw /\ (slop = 0%nat -> st_input s'' = [])).
    { destruct n as [|n].
      - apply IHj; [exact Hk| |done]. cbn [st_ctx s']. assert (Ho : out <> []) by (intros ->; by apply Hmove).
        specialize (Hprog eq_refl Ho). lia.
      - apply (IHk (S (pending_output c'))); [|cbn; lia|done]. cbn [st_input s']. rewrite length_drop. lia. }
    destruct Hrec as (s'' & Hrec & Hs''). exists s''. split; [|done]. apply Hstep.
    replace ((length out =? 0)%nat && (n =? 0)%nat) with false; [done|].
    symmetry. apply andb_false_iff. destruct out; [|by left]. right. apply Nat.eqb_neq. intros ->. by apply Hmove. }
  by apply (H (S (length (st_input s))) (S (pending_output (st_ctx s)))); lia.
Qed.

Lemma end_loop_frame raw s : stream_holds s raw -> st_input s = [] -> exists comp,
  eventually (fun fuel => end_loop fuel s) comp /\ valid_frame comp raw.
Proof.
  intros (cs & He & ->) Hi. rewrite Hi, app_nil_r. apply encoding_ends in He. revert He. clear Hi.
  remember (S (pending_output (st_ctx s))) as k eqn:Ek. assert (Hk : (pending_output (st_ctx s) < k)%nat) by lia.
  clear Ek. revert s Hk. induction k as [|k IH]; [lia|]. intros s Hk He.
  destruct (ending_step _ _ _ 4096 He) as (c' & out & ret & E & Hpos & He' & Hret); [lia|].
  assert (Eneg : (ret <? 0) = false) by lia. assert (Hstep : forall r, eventually (fun fuel => if ret =? 0 then
    Some (st_output s ++ out) else end_loop fuel (STREAM c' (st_input s) (st_output s ++ out))) r ->
    eventually (fun fuel => end_loop fuel s) r).
  { intros r Hr. apply eventually_step. cbn [end_loop]. rewrite E. cbn [mbind option_bind]. by rewrite Eneg. }
  destruct (ret =? 0) eqn:Er.
  - exists (st_output s ++ out). split; [|done]. apply Hstep. apply eventually_now.
  - destruct (IH (STREAM c' (st_input s) (st_output s ++ out))) as (comp & H & Hv); [cbn; lia|done|].
    exists comp. split; [|done]. by apply Hstep.
Qed.

(** The streams hold what the records so far have given. *)
Definition streams_hold (store_dir_times store_metadata : bool) (s : RecordStreams C) (records : list FileRecord) : Prop :=
  (store_dir_times = true -> stream_holds (dir_time_stream s) (dir_times_bytes records)) /\
  (store_metadata = true -> stream_holds (metadata_stream s) (metadatas_bytes records)).

Lemma stream_append s raw more : stream_holds s raw ->
  stream_holds (STREAM (st_ctx s) (st_input s ++ more) (st_output s)) (raw ++ more).
Proof. intros (cs & He & ->). exists cs. by rewrite <- app_assoc. Qed.

Lemma dir_times_bytes_snoc l r : dir_times_bytes (l ++ [r]) = dir_times_bytes l ++ dir_time_record (fr_dir_timestamp r).
Proof. unfold dir_times_bytes. rewrite List.map_app, concat_app. cbn [map concat]. by rewrite app_nil_r. Qed.

Lemma metadatas_bytes_snoc l r : metadatas_bytes (l ++ [r]) = metadatas_bytes l ++ metadata_bytes (fr_metadata r).
Proof. unfold metadatas_bytes. rewrite List.map_app, concat_app. cbn [map concat]. by rewrite app_nil_r. Qed.

Lemma add_record_holds sd sm r l s : metadata_wf (fr_metadata r) -> streams_hold sd sm s l -> exists s',
  eventually (fun fuel => add_record fuel sd sm r s) s' /\ streams_hold sd sm s' (l ++ [r]).
Proof.
  intros Hr [Ht Hm]. unfold streams_hold. rewrite dir_times_bytes_snoc, metadatas_bytes_snoc.
  assert (H1 : exists s1, eventually (fun fuel => if sd then compress_dir_times fuel 4096 (STREAMS (STREAM
      (st_ctx (dir_time_stream s)) (st_input (dir_time_stream s) ++ dir_time_record (fr_dir_timestamp r))
      (st_output (dir_time_stream s))) (metadata_stream s)) else Some s) s1 /\ metadata_stream s1 = metadata_stream s /\
      (sd = true -> stream_holds (dir_time_stream s1) (dir_times_bytes l ++ dir_time_record (fr_dir_timestamp r)))).
  { destruct sd; [|by exists s; split; [apply eventually_now|]].
    destruct (compress_loop_holds 4096 _ _ (stream_append _ _ (dir_time_record (fr_dir_timestamp r)) (Ht eq_refl))) as (st & H & Hst & _).
    exists (STREAMS st (metadata_stream s)). split; [|by split].
    eapply eventually_bind; [exact H|apply eventually_now]. }
  destruct H1 as (s1 & H1 & Em & Ht1). destruct sm.
  - destruct (compress_loop_holds 4096 _ _ (stream_append _ _ (metadata_bytes (fr_metadata r)) (Hm eq_refl))) as (st & H & Hst & _).
    exists (STREAMS (dir_time_stream s1) st). split; [|by split]. eapply eventually_bind; [exact H1|]. cbn [negb compress_metadata].
    rewrite encode_metadata_record_eq, Em by done. eapply eventually_bind; [exact H|apply eventually_now].
  - exists s1. split; [|by split]. eapply eventually_bind; [exact H1|apply eventually_now].
Qed.

Lemma add_records_hold sd sm : forall records l s, Forall (fun r => metadata_wf (fr_metadata r)) records -> streams_hold sd sm s l ->
  exists s', eventually (fun fuel => add_records fuel sd sm records s) s' /\ streams_hold sd sm s' (l ++ records).
Proof.
  induction records as [|r records IH]; intros l s F Hs.
  { exists s. rewrite app_nil_r. split; [apply eventually_now|done]. }
  apply Forall_cons in F as [Hr F]. destruct (add_record_holds sd sm r l s Hr Hs) as (s1 & H1 & Hs1).
  destruct (IH (l ++ [r]) s1 F Hs1) as (s2 & H2 & Hs2). exists s2. rewrite <- app_assoc in Hs2. split; [|done].
  eapply eventually_bind; [exact H1|exact H2].
Qed.

Lemma new_streams_hold sd sm : streams_hold sd sm (new_RecordStreams new_c) [].
Proof. split; intros _; exists []; (split; [apply encoding_new|done]). Qed.

(** The frames of a finished corpus. *)
Lemma record_streams_frames sd sm records : Forall (fun r => metadata_wf (fr_metadata r)) records -> exists times metadata,
  eventually (fun fuel => record_streams fuel sd sm new_c records) (times, metadata) /\
  (if sd then valid_frame times (dir_times_bytes records) else times = []) /\
  (if sm then valid_frame metadata (metadatas_bytes records) else metadata = []).
Proof.
  intros F. destruct (add_records_hold sd sm records [] _ F (new_streams_hold sd sm)) as (s & Hs & Ht & Hm).
  assert (H1 : exists times, eventually (fun fuel => get_compressed_dir_times fuel sd s) times /\
    if sd then valid_frame times (dir_times_bytes records) else times = []).
  { unfold get_compressed_dir_times. destruct sd; cbn [negb]; [|exists []; split; [apply eventually_now|done]].
    destruct (compress_loop_holds 0 _ _ (Ht eq_refl)) as (st & H & Hst & Hi). specialize (Hi eq_refl).
    destruct (end_loop_frame _ st Hst Hi) as (comp & Hc & Hv). exists comp. split; [|done].
    eapply eventually_bind; [eapply eventually_bind; [exact H|apply eventually_now]|]. cbn [dir_time_stream].
    eapply eventually_ext; [|exact Hc]. intros fuel. by rewrite decide_True. }
  assert (H2 : exists metadata, eventually (fun fuel => get_compressed_metadata fuel sm s) metadata /\
    if sm then valid_frame metadata (metadatas_bytes records) else metadata = []).
  { unfold get_compressed_metadata, compress_metadata. destruct sm; cbn [negb]; [|exists []; split; [apply eventually_now|done]].
    destruct (compress_loop_holds 0 _ _ (Hm eq_refl)) as (st & H & Hst & Hi). specialize (Hi eq_refl).
    destruct (end_loop_frame _ st Hst Hi) as (comp & Hc & Hv). exists comp. split; [|done].
    eapply eventually_bind; [eapply eventually_bind; [exact H|apply eventually_now]|]. cbn [metadata_stream].
    eapply eventually_ext; [|exact Hc]. intros fuel. by rewrite decide_True. }
  destruct H1 as (times & H1 & Hv1), H2 as (metadata & H2 & Hv2). exists times, metadata. split; [|done].
  eapply eventually_bind; [exact Hs|]. eapply eventually_bind; [exact H1|]. eapply eventually_bind; [exact H2|apply eventually_now].
Qed.

(** C37. The compressed directory times and metadata of a corpus are whole frames
    of the timestamps and the metadata of all records in order: enough turns of
    the loops let them end, and neither what is left uncompressed nor what the
    library still holds back is lost. *)
Theorem streams_complete sd sm records : Forall (fun r => metadata_wf (fr_metadata r)) records -> exists times metadata fuel0,
  (forall fuel, (fuel0 <= fuel)%nat -> record_streams fuel sd sm new_c records = Some (times, metadata)) /\
  (if sd then valid_frame times (dir_times_bytes records) else times = []) /\
  (if sm then valid_frame metadata (metadatas_bytes records) else metadata = []).
Proof.
  intros F. destruct (record_streams_frames sd sm records F) as (times & metadata & [fuel0 H] & Hv). by exists times, metadata, fuel0.
Qed.

End Written.

(** ** A codec that stores the bytes as they are *)

#[global] Instance stored_compressor : StreamCompressor () := {|
  compressStream _ input room := Some ((), take room input, Nat.min room (length input));
  endStream _ _ := Some ((), [], 0)
|}.

#[global] Instance stored_decompressor : StreamDecompressor () := {|
  decompressStream _ input room := Some ((), take room input, Nat.min room (length input), 0)
|}.

#[global, program] Instance stored_codec : StreamCodec () () () () := {|
  valid_frame comp raw := comp = raw;
  encoding _ consumed produced := consumed = produced;
  ending _ consumed produced := consumed = produced;
  decoding _ todo raw := todo = raw;
  pending_output _ := 0%nat
|}.
Next Obligation. done. Qed.
Next Obligation. done. Qed.
Next Obligation.
  intros [] cs produced input room -> Hr. cbn. do 3 eexists. split; [done|]. split; [lia|].
  assert (E : take (Nat.min room (length input)) input = take room input).
  { destruct (Nat.min_spec room (length input)) as [[? ->]|[? ->]]; [done|]. rewrite firstn_all. symmetry. by apply take_ge. }
  split; [by rewrite E|]. destruct input as [|c input]; [by rewrite take_nil|]. cbn [length]. split; intros; lia.
Qed.
Next Obligation. intros [] cs produced room -> Hr. exists (), [], 0. by rewrite app_nil_r. Qed.
Next Obligation. done. Qed.
Next Obligation.
  intros [] input later raw room <- Hr. cbn. do 5 eexists. split; [done|]. split; [lia|].
  assert (E : input = take room input ++ drop (Nat.min room (length input)) input).
  { destruct (Nat.min_spec room (length input)) as [[? ->]|[? ->]]; [by rewrite take_drop|].
    rewrite drop_all, app_nil_r. symmetry. by apply take_ge. }
  split; [by rewrite app_assoc, <- E|]. split; [done|]. destruct input as [|c input]; cbn [length].
  - rewrite drop_nil. cbn [app]. repeat split; try done. destruct later; [by left|by right].
  - destruct room; [lia|]. cbn [take]. repeat split; done.
Qed.

Lemma streams_complete_witness : exists times metadata fuel0,
  (forall fuel, (fuel0 <= fuel)%nat ->
     record_streams fuel true true () [Record_ [97] not_a_dir empty_metadata; Record_ [98] (DirTime 5 6) sample_metadata]
     = Some (times, metadata)) /\
  times = [0; 1; 5; 0; 0; 0; 0; 0; 0; 0; 6; 0; 0; 0] /\
  metadata = [0] ++ metadata_bytes sample_metadata.
Proof.
  refine (streams_complete true true [Record_ [97] not_a_dir empty_metadata; Record_ [98] (DirTime 5 6) sample_metadata] _).
  apply Forall_cons_2; [apply empty_metadata_wf|]. apply Forall_cons_2; [apply sample_metadata_wf|apply Forall_nil_2].
Defined.
