(* ===== verification/ExistingDB.v ===== *)
(** * The old database of updatedb (src/updatedb.cpp)

    [ExistingDB] opens the database of the last run and delivers its records one by
    one: names block by block, directory times and metadata from two compressed
    streams that it reads piece by piece.  Any error ends the records.  Here are its
    operations; [ExistingStream] shows what they deliver. *)
From S2P Require Import Prelude Metadata MetadataCodec DbHeader DatabaseFile ShowdiffDb RecordReader Streams.

(** ** State *)

Section Existing.
(** The decompressors: for whole blocks, with a dictionary, and for streams; the
    configuration block of this run; and the turns that a loop may take. *)
Context (zstd_content_size : bytes -> option Z) (zstd_decompress : option bytes -> bytes -> Z -> option bytes).
Context {D : Type} `{!StreamDecompressor D} (new_d : D) (fuel : nat).

(** [current_dir_time] is the block from [current_dir_time_ptr] on. *)
Record DirTimes := DIRTIMES {
  compressed_dir_time_pos : Z;
  compressed_dir_time : bytes;
  current_dir_time : bytes;
  dir_time_ctx : D
}.

Record Metadatas := METADATAS {
  metadata_available : bool;
  compressed_metadata_pos : Z;
  compressed_metadata : bytes;
  current_metadata_block : bytes;
  current_metadata_offset : nat;
  last_metadata_record : FileMetadata;
  metadata_ctx : D
}.

Record Unread := UNREAD {
  unread_record : bytes * dir_time;
  unread_metadata_record : FileMetadata;
  unread_metadata_valid : bool
}.

(** [fd] is the file, [None] for -1.  [current_filename] is the block from [current_filename_ptr] on, with the zero
    at its end, and [None] for a null pointer. *)
Record ExistingDB := EXISTING {
  fd : option bytes;
  hdr : Header;
  ddict : option bytes;
  current_docid : Z;
  current_filename : option bytes;
  dir_times : DirTimes;
  metadatas : Metadatas;
  unread_ : Unread;
  eof : bool;
  error : bool
}.

Definition initial_dir_times (pos : Z) : DirTimes := DIRTIMES pos [] [] new_d.

Definition initial_metadatas (available : bool) (pos : Z) : Metadatas :=
  METADATAS available pos [] [] 0 empty_metadata new_d.

Definition nothing_unread : Unread := UNREAD ([], unknown_dir_time) empty_metadata false.

Definition initial_existing (fd : option bytes) (hdr : Header) (ddict : option bytes) (dir_time_pos metadata_pos : Z)
    (available error : bool) : ExistingDB :=
  EXISTING fd hdr ddict 0 None (initial_dir_times dir_time_pos) (initial_metadatas available metadata_pos) nothing_unread
    false error.

(** ** Opening *)

(** [try_complete_pread], which does not look at the file for no bytes. *)
Definition try_read (file : bytes) (len offset : Z) : option bytes :=
  if len =? 0 then Some [] else read_at file len offset.

(** The dictionary: [Some None] without one, [None] if it cannot be read. *)
Definition open_dictionary (file : bytes) (h : Header) : option (option bytes) :=
  if zstd_dictionary_length_bytes h <=? 0 then Some None
  else
    dictionary ← try_read file (zstd_dictionary_length_bytes h) (zstd_dictionary_offset_bytes h);
    Some (Some dictionary).

(** The checks of the header and of the configuration block. *)
Definition header_usable (conf_block file : bytes) (h : Header) : bool :=
  bool_decide (magic h = flocate_magic) &&
  negb ((negb (version h =? 1) && negb (version h =? 2)) || (max_version h <? 2)) &&
  (conf_block_length_bytes h =? Z.of_nat (length conf_block)) &&
  bool_decide (try_read file (conf_block_length_bytes h) (conf_block_offset_bytes h) = Some conf_block).

(** The constructor does not initialise [hdr]: [indeterminate] is what it holds
    when it has not been read in full. *)
Definition new_ExistingDB (conf_block : bytes) (indeterminate : Header) (fd : option bytes) : ExistingDB :=
  match fd with
  | None => initial_existing fd indeterminate None 0 0 false true
  | Some file =>
    match try_read file (Z.of_nat sizeof_Header) 0 ≫= parse_header with
    | None => initial_existing fd indeterminate None 0 0 false true
    | Some h =>
      if negb (header_usable conf_block file h) then initial_existing fd h None 0 0 false true
      else
        match open_dictionary file h with
        | None => initial_existing fd h None 0 0 false true
        | Some ddict =>
          let pos := directory_data_offset_bytes h in
          if metadata_length_bytes h =? 0 then initial_existing fd h ddict pos 0 false false
          else if Z.land (metadata_flags h) METADATA_FLAG_POSIX_V2 =? 0
          then initial_existing fd h ddict pos 0 false true
          else initial_existing fd h ddict pos (metadata_offset_bytes h) true false
        end
    end
  end.

(** ** Metadata *)

(** What the closures of both functions do on failure. *)
Definition metadata_give_up (m : Metadatas) : Metadatas :=
  METADATAS false (compressed_metadata_pos m) (compressed_metadata m) (current_metadata_block m) (current_metadata_offset m)
    (last_metadata_record m) (metadata_ctx m).

Section File.
Context (file : bytes) (h : Header).

Fixpoint refill_loop (fuel : nat) (m : Metadatas) : option (bool * Metadatas) :=
  match fuel with
  | O => None
  | S fuel =>
    match decompressStream (metadata_ctx m) (compressed_metadata m) 4096 with
    | None => Some (false, metadata_give_up m)
    | Some (ctx, out, pos, _) =>
      let m := METADATAS (metadata_available m) (compressed_metadata_pos m) (drop pos (compressed_metadata m))
                 (current_metadata_block m ++ out) (current_metadata_offset m) (last_metadata_record m) ctx in
      if (0 <? length out)%nat then Some (true, m)
      else
        let metadata_end := u64 (metadata_offset_bytes h + metadata_length_bytes h) in
        let comp_pos := u64 (compressed_metadata_pos m) in
        if metadata_end <=? comp_pos then Some (false, metadata_give_up m)
        else
          let bytes_to_read := Z.min 4096 (u64 (metadata_end - comp_pos)) in
          match try_read file bytes_to_read (compressed_metadata_pos m) with
          | None => Some (false, metadata_give_up m)
          | Some buf =>
            refill_loop fuel
              (METADATAS (metadata_available m) (compressed_metadata_pos m + bytes_to_read) (compressed_metadata m ++ buf)
                 (current_metadata_block m) (current_metadata_offset m) (last_metadata_record m) (metadata_ctx m))
          end
    end
  end.

Definition refill_metadata_block (m : Metadatas) : option (bool * Metadatas) :=
  if negb (metadata_available m) then Some (false, m)
  else
    let block := if decide (length (current_metadata_block m) < current_metadata_offset m)%nat then []
                 else drop (current_metadata_offset m) (current_metadata_block m) in
    refill_loop fuel
      (METADATAS (metadata_available m) (compressed_metadata_pos m) (compressed_metadata m) block 0
         (last_metadata_record m) (metadata_ctx m)).

(** The [while (true)] of [ensure_metadata_bytes]; a turn adds a byte at least, so
    that [need + 1] turns are enough. *)
Fixpoint ensure_loop (turns : nat) (need : nat) (m : Metadatas) : option (bool * Metadatas) :=
  if decide (length (current_metadata_block m) < current_metadata_offset m)%nat then Some (false, m)
  else if decide (need <= length (current_metadata_block m) - current_metadata_offset m)%nat then Some (true, m)
  else
    match turns with
    | O => None
    | S turns =>
      '(ok, m) ← refill_metadata_block m;
      if ok : bool then ensure_loop turns need m else Some (false, m)
    end.

Definition ensure_metadata_bytes (need : nat) (m : Metadatas) : option (bool * Metadatas) :=
  if negb (metadata_available m) then Some (false, m) else ensure_loop (need + 1) need m.

(** The rest of [read_next_metadata_record] once all bytes are there. *)
Definition decode_record (m : Metadatas) : option Metadatas :=
  r ← decode_metadata_record (drop (current_metadata_offset m) (current_metadata_block m));
  Some match r with
  | None => metadata_give_up m
  | Some (record, rest) =>
    METADATAS (metadata_available m) (compressed_metadata_pos m) (compressed_metadata m) (current_metadata_block m)
      (length (current_metadata_block m) - length rest) record (metadata_ctx m)
  end.

Definition read_next_metadata_record (m : Metadatas) : option Metadatas :=
  let m := METADATAS (metadata_available m) (compressed_metadata_pos m) (compressed_metadata m) (current_metadata_block m)
             (current_metadata_offset m) empty_metadata (metadata_ctx m) in
  if negb (metadata_available m) then Some m
  else
    '(ok, m) ← ensure_metadata_bytes 1 m;
    if negb ok then Some (metadata_give_up m)
    else
      enabled ← current_metadata_block m !! current_metadata_offset m;
      if enabled =? 0 then decode_record m
      else
        '(ok, m) ← ensure_metadata_bytes up_to_hash_len m;
        if negb ok then Some (metadata_give_up m)
        else
          hash_len ← current_metadata_block m !! (current_metadata_offset m + up_to_hash_len - 1)%nat;
          '(ok, m) ← ensure_metadata_bytes (up_to_hash_len + Z.to_nat hash_len) m;
          if negb ok then Some (metadata_give_up m) else decode_record m.

(** ** Names and directory times *)

(** An allocation of this size throws an exception, which ends the program. *)
Definition too_large (n : Z) : bool := 2 ^ 63 - 1 <=? n.

(** The block of names of a document, with a zero behind it: [Some None] is an
    error, [None] an exception. *)
Definition load_block (ddict : option bytes) (docid : Z) : option (option bytes) :=
  let offset_for_block := u64 (filename_index_offset_bytes h + docid * 8) in
  match vals ← try_read file 16 offset_for_block; '(from, vals) ← get_u64 vals; '(to, _) ← get_u64 vals; Some (from, to) with
  | None => Some None
  | Some (from, to) =>
    let compressed_len := u64 (to - from) in
    if too_large compressed_len then None
    else
      match compressed ← try_read file compressed_len from; uncompressed_len ← zstd_content_size compressed;
            Some (compressed, uncompressed_len) with
      | None => Some None
      | Some (compressed, uncompressed_len) =>
        if too_large uncompressed_len then None
        else
          Some (block ← zstd_decompress ddict compressed (uncompressed_len + 1);
                Some (take (Z.to_nat uncompressed_len) (block ++ replicate (Z.to_nat uncompressed_len - length block) 0) ++ [0]))
      end
  end.

Definition dir_record_bytes : nat := 1 + 8 + 4.

Definition needs_dir_time (d : DirTimes) : bool :=
  match current_dir_time d with
  | [] => true
  | b :: _ => negb (b =? 0) && (length (current_dir_time d) <? dir_record_bytes)%nat
  end.

(** The loop that gets more of the directory times: [Some None] is an error. *)
Fixpoint dir_time_loop (fuel : nat) (d : DirTimes) : option (option DirTimes) :=
  if negb (needs_dir_time d) then Some (Some d)
  else
    match fuel with
    | O => None
    | S fuel =>
      match decompressStream (dir_time_ctx d) (compressed_dir_time d) 4096 with
      | None => Some None
      | Some (ctx, out, pos, _) =>
        let d := DIRTIMES (compressed_dir_time_pos d) (drop pos (compressed_dir_time d)) (current_dir_time d ++ out) ctx in
        if (pos =? 0)%nat && (length out =? 0)%nat then
          let bytes_to_read := Z.min (u64 (directory_data_offset_bytes h + directory_data_length_bytes h
                                           - compressed_dir_time_pos d)) 4096 in
          if bytes_to_read =? 0 then Some None
          else
            match try_read file bytes_to_read (compressed_dir_time_pos d) with
            | None => Some None
            | Some buf =>
              dir_time_loop fuel
                (DIRTIMES (compressed_dir_time_pos d + bytes_to_read) (compressed_dir_time d ++ buf)
                   (current_dir_time d) (dir_time_ctx d))
            end
        else dir_time_loop fuel d
      end
    end.

(** The timestamp at [current_dir_time_ptr], and what follows it. *)
Definition take_dir_time (s : bytes) : option (dir_time * bytes) :=
  match s with
  | [] => None
  | b :: s => if b =? 0 then Some (not_a_dir, s) else get_time s
  end.

End File.

(** ** Reading records *)

Definition with_error (db : ExistingDB) : ExistingDB :=
  EXISTING (fd db) (hdr db) (ddict db) (current_docid db) (current_filename db) (dir_times db) (metadatas db) (unread_ db)
    (eof db) true.

Definition with_eof (db : ExistingDB) : ExistingDB :=
  EXISTING (fd db) (hdr db) (ddict db) (current_docid db) (current_filename db) (dir_times db) (metadatas db) (unread_ db)
    true (error db).

Definition set_last (m : Metadatas) (record : FileMetadata) : Metadatas :=
  METADATAS (metadata_available m) (compressed_metadata_pos m) (compressed_metadata m) (current_metadata_block m)
    (current_metadata_offset m) record (metadata_ctx m).

(** The record that was put back. *)
Definition read_unread (db : ExistingDB) : (bytes * dir_time) * ExistingDB :=
  let u := unread_ db in
  (unread_record u,
   EXISTING (fd db) (hdr db) (ddict db) (current_docid db) (current_filename db) (dir_times db)
     (set_last (metadatas db) (if unread_metadata_valid u then unread_metadata_record u else empty_metadata))
     (UNREAD ([], snd (unread_record u)) (unread_metadata_record u) false) (eof db) (error db)).

(** The name and the timestamp are taken from what has been read. *)
Definition deliver (db : ExistingDB) (docid : Z) (names : bytes) (d : DirTimes) : option ((bytes * dir_time) * ExistingDB) :=
  match fd db with
  | Some file =>
    '(filename, names) ← (let '(w, rest) := span_nul names in rest ← rest; Some (w, rest));
    '(dt, rest) ← take_dir_time (current_dir_time d);
    let d := DIRTIMES (compressed_dir_time_pos d) (compressed_dir_time d) rest (dir_time_ctx d) in
    m ← (if decide (filename = []) then Some (metadatas db) else read_next_metadata_record file (hdr db) (metadatas db));
    Some ((filename, dt),
          EXISTING (fd db) (hdr db) (ddict db) docid (match names with [] => None | _ => Some names end) d m (unread_ db)
            (eof db) (error db))
  | None => None
  end.

(** The block of names: [inr] is the end of the records or an error. *)
Definition current_names (db : ExistingDB) (file : bytes) : option ((Z * bytes) + ExistingDB) :=
  match current_filename db with
  | Some names => Some (inl (current_docid db, names))
  | None =>
    if num_docids (hdr db) <=? current_docid db then Some (inr (with_eof db))
    else
      block ← load_block file (hdr db) (ddict db) (current_docid db);
      Some match block with
      | None => inr (with_error db)
      | Some block => inl (u32 (current_docid db + 1), block)
      end
  end.

(** [None]: an exception, the fuel runs out, or something is accessed outside its
    bounds. *)
Definition read_next_record (db : ExistingDB) : option ((bytes * dir_time) * ExistingDB) :=
  if decide (fst (unread_record (unread_ db)) <> []) then Some (read_unread db)
  else if eof db || error db then Some (([], not_a_dir), db)
  else
    file ← fd db;
    names ← current_names db file;
    match names with
    | inr db => Some (([], not_a_dir), db)
    | inl (docid, names) =>
      d ← dir_time_loop file (hdr db) fuel (dir_times db);
      match d with
      | None => Some (([], not_a_dir), with_error db)
      | Some d => deliver db docid names d
      end
    end.

Definition unread_next (record : bytes * dir_time) (db : ExistingDB) : ExistingDB :=
  EXISTING (fd db) (hdr db) (ddict db) (current_docid db) (current_filename db) (dir_times db) (metadatas db)
    (UNREAD record (last_metadata_record (metadatas db)) true) (eof db) (error db).

(** The reader of the scan; that it always has a result is part of
    [existing_stream]. *)
#[global] Instance existing_reader : RecordReader ExistingDB := {|
  read_next db := default (([], not_a_dir), with_error db) (read_next_record db);
  unread := unread_next;
  last_metadata db := last_metadata_record (metadatas db);
  get_error := error
|}.

(** ** The dictionary and the history *)

Definition read_next_dictionary (db : ExistingDB) : bytes :=
  let h := hdr db in
  if (next_zstd_dictionary_length_bytes h =? 0) || (1048576 <? next_zstd_dictionary_length_bytes h) then []
  else default [] (file ← fd db; try_read file (next_zstd_dictionary_length_bytes h) (next_zstd_dictionary_offset_bytes h)).

(** The loop of [decompress_history_blob]; an error clears the output. *)
Fixpoint history_loop (fuel : nat) (ctx : D) (todo output : bytes) : option bytes :=
  if (length todo =? 0)%nat then Some output
  else
    match fuel with
    | O => None
    | S fuel =>
      match decompressStream ctx todo 4096 with
      | None => Some []
      | Some (ctx, out, pos, ret) =>
        let output := output ++ out in
        let todo := drop pos todo in
        if (ret =? 0) && (length todo =? 0)%nat then Some output else history_loop fuel ctx todo output
      end
    end.

Definition decompress_history_blob (compressed : bytes) : option bytes := history_loop fuel new_d compressed [].

(** [None] also stands for an exception. *)
Definition read_history_events (db : ExistingDB) : option (list HistoryEvent) :=
  let h := hdr db in
  if history_length_bytes h =? 0 then Some []
  else if too_large (history_length_bytes h) then None
  else
    match file ← fd db; try_read file (history_length_bytes h) (history_offset_bytes h) with
    | None => Some []
    | Some compressed => decompressed ← decompress_history_blob compressed; decode_history_stream decompressed
    end.

End Existing.
