(* ===== verification/ExistingStream.v ===== *)
(** * What the old database delivers (src/updatedb.cpp)

    [ExistingDB] over a file with the blocks of names and the two compressed
    streams of a list of records delivers these records in order: it is a
    [RecordStream], so that the theorems on the scan apply to it. *)
From S2P Require Import Prelude Metadata MetadataCodec DbHeader Corpus DatabaseFile ShowdiffDb RecordReader Streams ExistingDB.

(** ** A section that is decompressed piece by piece *)

Lemma try_read_prefix file later pos n : 0 <= n <= Z.of_nat (length later) ->
  read_at file (Z.of_nat (length later)) pos = Some later ->
  try_read file n pos = Some (take (Z.to_nat n) later) /\
  read_at file (Z.of_nat (length (drop (Z.to_nat n) later))) (pos + n) = Some (drop (Z.to_nat n) later).
Proof.
  intros Hn. unfold try_read, read_at. case_decide as Hd; [|done]. intros [= Hl].
  rewrite Nat2Z.id in Hl. assert (Hd' : (Z.to_nat pos + length later <= length file)%nat) by lia. split.
  - destruct (n =? 0) eqn:E; [apply Z.eqb_eq in E as ->; done|]. rewrite decide_True by lia. f_equal.
    rewrite <- Hl at 1. rewrite take_take. f_equal. lia.
  - rewrite length_drop, decide_True by lia. f_equal. replace (Z.to_nat (pos + n)) with (Z.to_nat pos + Z.to_nat n)%nat by lia.
    rewrite <- drop_drop, Nat2Z.id. rewrite <- Hl at 2. rewrite skipn_firstn_comm. done.
Qed.

Section Feeding.
Context {C D : Type} `{Codec : StreamCodec C D new_c new_d} (file : bytes).

(** The decompressor has [raw] to write once the section up to [last] is read;
    [k] bounds the turns. *)
Definition feeding (ctx : D) (comp : bytes) (pos last : Z) (raw : bytes) (k : nat) : Prop :=
  exists later, decoding ctx (comp ++ later) raw /\ 0 <= pos /\ pos + Z.of_nat (length later) = last /\ last < 2 ^ 63 /\
    read_at file (Z.of_nat (length later)) pos = Some later /\ (2 * length later + length comp + length raw <= k)%nat.

Lemma feeding_bounds ctx comp pos last raw k : feeding ctx comp pos last raw k -> 0 <= pos <= last /\ last < 2 ^ 63.
Proof. intros (later & _ & H1 & H2 & H3 & _). lia. Qed.

Lemma feeding_decompress ctx comp pos last raw k : feeding ctx comp pos last raw k ->
  exists ctx' out n ret raw', decompressStream ctx comp 4096 = Some (ctx', out, n, ret) /\ raw = out ++ raw' /\
    (out = [] -> raw = [] \/ pos < last) /\ (n + length out <= k)%nat /\
    feeding ctx' (drop n comp) pos last raw' (k - (n + length out)).
Proof.
  intros (later & Hd & H1 & H2 & H3 & H4 & H5). destruct (decoding_step _ _ _ _ 4096 Hd) as (ctx' & out & n & ret & raw' & E & Hn & Hr & Hd' & Hw & _ & _); [lia|].
  exists ctx', out, n, ret, raw'. split; [done|]. split; [done|]. assert (Hlen : length raw = (length out + length raw')%nat) by (by rewrite Hr, length_app).
  split; [|split; [lia|]].
  - intros Ho. destruct (Hw Ho) as [Hraw|Hl]; [by left|right]. destruct later; [done|]. cbn [length] in H2. lia.
  - exists later. repeat (split; [done|]). rewrite length_drop. lia.
Qed.

Lemma feeding_read ctx comp pos last raw k : feeding ctx comp pos last raw k -> pos < last ->
  exists buf, try_read file (Z.min 4096 (last - pos)) pos = Some buf /\ (1 <= k)%nat /\
    feeding ctx (comp ++ buf) (pos + Z.min 4096 (last - pos)) last raw (k - 1).
Proof.
  intros (later & Hd & H1 & H2 & H3 & H4 & H5) Hlt. set (n := Z.min 4096 (last - pos)).
  assert (Hn : 0 <= n <= Z.of_nat (length later)) by lia. destruct (try_read_prefix file later pos n Hn H4) as [E E'].
  eexists. split; [exact E|]. split; [lia|]. exists (drop (Z.to_nat n) later). rewrite <- app_assoc, take_drop.
  split; [done|]. rewrite length_app, length_drop, length_take. split; [lia|]. split; [lia|]. split; [done|].
  split; [|lia]. by rewrite length_drop in E'.
Qed.

Lemma feeding_weaken ctx comp pos last raw k k' : feeding ctx comp pos last raw k -> (k <= k')%nat -> feeding ctx comp pos last raw k'.
Proof. intros (later & H) Hk. exists later. intuition lia. Qed.

End Feeding.

(** ** Records that can be stored *)

(** What is written for a record reads back as this record: a timestamp before
    1970 by a second means that it is not a directory, and bytes of the hash that
    do not count are not stored. *)
Record record_ok (r : FileRecord) : Prop := {
  ro_path : path_ok (fr_path r);
  ro_time : dir_time_wf (fr_dir_timestamp r);
  ro_dir : dt_sec (fr_dir_timestamp r) = -1 -> fr_dir_timestamp r = not_a_dir;
  ro_metadata : metadata_wf (fr_metadata r);
  ro_norm : norm_metadata (fr_metadata r) = fr_metadata r
}.

Lemma take_dir_time_record r k : record_ok r ->
  take_dir_time (dir_time_record (fr_dir_timestamp r) ++ k) = Some (fr_dir_timestamp r, k).
Proof.
  intros [_ Hw Hd _ _]. unfold dir_time_record. destruct (dt_sec (fr_dir_timestamp r) =? -1) eqn:E.
  - cbn. by rewrite Hd by lia.
  - cbn [app take_dir_time Z.eqb]. rewrite <- app_assoc. apply (get_time_bytes (fr_dir_timestamp r) k Hw).
Qed.

Lemma length_dir_time_record dt :
  length (dir_time_record dt) = if dt_sec dt =? -1 then 1%nat else dir_record_bytes.
Proof. unfold dir_time_record. case_match; [done|]. by rewrite !length_app, !length_le_bytes. Qed.

(** The loop stops exactly when the next timestamp is there. *)
Lemma dir_time_there (dt : dir_time) s raw k : s ++ raw = dir_time_record dt ++ k ->
  (match s with [] => true | b :: _ => negb (b =? 0) && (length s <? dir_record_bytes)%nat end) = false ->
  exists rest, s = dir_time_record dt ++ rest /\ rest ++ raw = k.
Proof.
  intros E Hn. assert (Hl : (length (dir_time_record dt) <= length s)%nat).
  { rewrite length_dir_time_record. destruct s as [|b s]; [done|]. destruct (dt_sec dt =? -1) eqn:Ed; [cbn; lia|].
    unfold dir_time_record in E. rewrite Ed in E. injection E as -> _. cbn [Z.eqb negb andb] in Hn. by apply Nat.ltb_ge in Hn. }
  exists (drop (length (dir_time_record dt)) s).
  assert (Ht : take (length (dir_time_record dt)) s = dir_time_record dt).
  { apply (f_equal (take (length (dir_time_record dt)))) in E. by rewrite take_app_le, take_app_length in E. }
  split; [by rewrite <- Ht at 1; rewrite take_drop|].
  apply (app_inv_head (dir_time_record dt)). rewrite app_assoc, <- E. f_equal. by rewrite <- Ht at 1; rewrite take_drop.
Qed.

Section Streams.
Context {C D : Type} `{Codec : StreamCodec C D new_c new_d}.
Context (zstd_content_size : bytes -> option Z) (zstd_decompress : option bytes -> bytes -> Z -> option bytes) (fuel : nat).
Context (file : bytes) (h : Header).

(** ** Directory times *)

Definition times_ok (d : DirTimes (D := D)) (l : list FileRecord) (k : nat) : Prop :=
  exists raw, current_dir_time d ++ raw = dir_times_bytes l /\
    feeding file (dir_time_ctx d) (compressed_dir_time d) (compressed_dir_time_pos d)
      (directory_data_offset_bytes h + directory_data_length_bytes h) raw k.

Lemma dir_times_bytes_cons r l : dir_times_bytes (r :: l) = dir_time_record (fr_dir_timestamp r) ++ dir_times_bytes l.
Proof. done. Qed.

Lemma dir_time_loop_ok r l : forall turns d k, times_ok d (r :: l) k -> (k < turns)%nat -> exists d',
  dir_time_loop file h turns d = Some (Some d') /\ times_ok d' (r :: l) k /\ needs_dir_time d' = false.
Proof.
  induction turns as [|turns IH]; intros d k Hd Hk; [lia|]. cbn [dir_time_loop].
  destruct (needs_dir_time d) eqn:En; cbn [negb]; [|by exists d]. destruct Hd as (raw & Eraw & Hf).
  assert (Hraw : raw <> []).
  { intros ->. rewrite app_nil_r, dir_times_bytes_cons in Eraw. unfold needs_dir_time in En. rewrite Eraw in En.
    pose proof (length_dir_time_record (fr_dir_timestamp r)) as Hl. unfold dir_time_record in En, Hl. case_match; [done|].
    cbn [app Z.eqb negb andb] in En. cbn [app length] in En, Hl. rewrite length_app in En. apply Nat.ltb_lt in En. lia. }
  destruct (feeding_decompress file _ _ _ _ _ _ Hf) as (ctx' & out & n & ret & raw' & -> & Er & Hwait & Hmove & Hf').
  destruct ((n =? 0)%nat && (length out =? 0)%nat) eqn:Emove.
  - apply andb_true_iff in Emove as [En0 Eo]. apply Nat.eqb_eq in En0 as ->. apply Nat.eqb_eq, nil_length_inv in Eo as ->.
    destruct Hwait as [->|Hlt]; [done|done|]. cbn [app] in Er. subst raw'. cbn [length] in Hf'. rewrite drop_0, Nat.sub_0_r in Hf'.
    cbn [compressed_dir_time_pos compressed_dir_time current_dir_time dir_time_ctx].
    destruct (feeding_bounds _ _ _ _ _ _ _ Hf) as [Hb Hmax]. rewrite u64_small.
    2:{ unfold is_u64. change (2 ^ 64) with 18446744073709551616. change (2 ^ 63) with 9223372036854775808 in Hmax. lia. }
    rewrite Z.min_comm. destruct (feeding_read _ _ _ _ _ _ _ Hf' Hlt) as (buf & E & Hk1 & Hf2).
    replace (Z.min 4096 (_ - compressed_dir_time_pos d) =? 0) with false by lia. rewrite E. rewrite app_nil_r, drop_0.
    destruct (IH (DIRTIMES (compressed_dir_time_pos d + Z.min 4096 (directory_data_offset_bytes h + directory_data_length_bytes h - compressed_dir_time_pos d))
      (compressed_dir_time d ++ buf) (current_dir_time d) ctx') (k - 1)%nat) as (d' & E' & Hd' & Hn'); [by exists raw|lia|].
    exists d'. split; [exact E'|]. split; [|done]. destruct Hd' as (raw' & Eraw' & Hf3). exists raw'. split; [done|].
    eapply feeding_weaken; [exact Hf3|lia].
  - destruct (IH (DIRTIMES (compressed_dir_time_pos d) (drop n (compressed_dir_time d)) (current_dir_time d ++ out) ctx')
      (k - (n + length out))%nat) as (d' & E' & Hd' & Hn').
    + exists raw'. split; [cbn [current_dir_time]; by rewrite <- app_assoc, <- Er|done].
    + apply andb_false_iff in Emove as [H%Nat.eqb_neq|H%Nat.eqb_neq]; lia.
    + exists d'. split; [exact E'|]. split; [|done]. destruct Hd' as (raw2 & Eraw' & Hf3). exists raw2. split; [done|].
      eapply feeding_weaken; [exact Hf3|lia].
Qed.

(** ** Metadata *)

Abbreviation buffered m := (drop (current_metadata_offset m) (current_metadata_block m)).

(** [bs] is what the stream still has, with what is buffered. *)
Definition meta_has (m : Metadatas (D := D)) (bs : bytes) (k : nat) : Prop :=
  metadata_available m = true /\ (current_metadata_offset m <= length (current_metadata_block m))%nat /\
  exists raw, buffered m ++ raw = bs /\
    feeding file (metadata_ctx m) (compressed_metadata m) (compressed_metadata_pos m)
      (metadata_offset_bytes h + metadata_length_bytes h) raw k.

Lemma refill_loop_has bs : forall turns m k, meta_has m bs k -> current_metadata_offset m = 0%nat ->
  (length (buffered m) < length bs)%nat -> (k < turns)%nat -> exists m',
  refill_loop file h turns m = Some (true, m') /\ meta_has m' bs k /\ (length (buffered m) < length (buffered m'))%nat.
Proof.
  induction turns as [|turns IH]; intros m k (Hav & Hoff & raw & Ebs & Hf) H0 Hlt Hk; [lia|]. cbn [refill_loop].
  destruct (feeding_decompress file _ _ _ _ _ _ Hf) as (ctx' & out & n & ret & raw' & -> & Er & Hwait & Hmove & Hf').
  rewrite H0 in *. rewrite drop_0 in *. destruct out as [|o out].
  - cbn [length Nat.ltb Nat.leb metadata_available compressed_metadata_pos compressed_metadata current_metadata_block
      current_metadata_offset last_metadata_record metadata_ctx].
    assert (Hraw : raw <> []) by (intros ->; rewrite app_nil_r in Ebs; subst bs; lia).
    destruct Hwait as [->|Hpos]; [done|done|]. destruct (feeding_bounds _ _ _ _ _ _ _ Hf) as [Hb Hmax].
    cbn [app] in Er. subst raw'. rewrite !u64_small.
    2-4: unfold is_u64; change (2 ^ 64) with 18446744073709551616; change (2 ^ 63) with 9223372036854775808 in Hmax; lia.
    assert (Ele : (metadata_offset_bytes h + metadata_length_bytes h <=? compressed_metadata_pos m) = false) by lia. rewrite Ele.
    destruct (feeding_read _ _ _ _ _ _ _ Hf' Hpos) as (buf & E & Hk1 & Hf2). rewrite E, app_nil_r.
    destruct (IH (METADATAS (metadata_available m) (compressed_metadata_pos m + Z.min 4096 (metadata_offset_bytes h + metadata_length_bytes h - compressed_metadata_pos m))
      (drop n (compressed_metadata m) ++ buf) (current_metadata_block m) 0 (last_metadata_record m) ctx') (k - (n + 0) - 1)%nat)
      as (m' & E' & Hm' & Hl').
    + split; [done|]. split; [cbn; lia|]. by exists raw.
    + done.
    + done.
    + lia.
    + exists m'. split; [exact E'|]. cbn [current_metadata_offset current_metadata_block] in Hl'. split; [|exact Hl'].
      destruct Hm' as (A & B & raw' & C1 & C2). split; [done|]. split; [done|]. exists raw'. split; [done|].
      eapply feeding_weaken; [exact C2|lia].
  - cbn [length Nat.ltb Nat.leb]. eexists. split; [reflexivity|].
    cbn [current_metadata_offset current_metadata_block]. rewrite ?H0, ?drop_0. split; [|rewrite length_app; cbn [length]; lia].
    split; [done|]. split; [cbn; lia|]. exists raw'. cbn [current_metadata_offset current_metadata_block metadata_ctx compressed_metadata compressed_metadata_pos]. rewrite ?H0, ?drop_0. split; [by rewrite <- app_assoc, <- Er|].
    eapply feeding_weaken; [exact Hf'|lia].
Qed.

Lemma refill_has bs m k : meta_has m bs k -> (length (buffered m) < length bs)%nat -> (k < fuel)%nat -> exists m',
  refill_metadata_block fuel file h m = Some (true, m') /\ meta_has m' bs k /\ (length (buffered m) < length (buffered m'))%nat.
Proof.
  intros (Hav & Hoff & raw & Ebs & Hf) Hlt Hk. unfold refill_metadata_block. rewrite Hav. cbn [negb].
  destruct (decide (length (current_metadata_block m) < current_metadata_offset m)%nat) as [Hd|_]; [lia|].
  set (m0 := METADATAS _ _ _ _ _ _ _). destruct (refill_loop_has bs fuel m0 k) as (m' & E & Hm' & Hl); [| |exact Hlt|exact Hk|].
  - split; [done|]. split; [cbn; lia|]. by exists raw.
  - done.
  - by exists m'.
Qed.

Lemma ensure_has bs need k : (need <= length bs)%nat -> (k < fuel)%nat -> forall turns m, meta_has m bs k ->
  (need < turns + length (buffered m))%nat -> exists m',
  ensure_loop fuel file h turns need m = Some (true, m') /\ meta_has m' bs k /\ (need <= length (buffered m'))%nat.
Proof.
  intros Hneed Hk. induction turns as [|turns IH]; intros m Hm Ht; cbn [ensure_loop];
    (destruct (decide (length (current_metadata_block m) < current_metadata_offset m)%nat) as [Hd|_];
      [destruct Hm as (_ & Ho & _); lia|]); rewrite <- length_drop;
    (destruct (decide (need <= length (buffered m))%nat) as [Hd|Hd]; [by exists m|]); [lia|].
  destruct (refill_has bs m k Hm) as (m1 & E & Hm1 & Hl); [lia|done|]. rewrite E. cbn [mbind option_bind].
  apply IH; [done|lia].
Qed.

Lemma ensure_metadata_bytes_has bs need k m : (need <= length bs)%nat -> (k < fuel)%nat -> meta_has m bs k -> exists m',
  ensure_metadata_bytes fuel file h need m = Some (true, m') /\ meta_has m' bs k /\ (need <= length (buffered m'))%nat.
Proof.
  intros Hneed Hk Hm. unfold ensure_metadata_bytes. pose proof (proj1 Hm) as Hav. rewrite Hav. cbn [negb].
  apply (ensure_has bs need k Hneed Hk); [done|lia].
Qed.

Definition metas_ok (m : Metadatas (D := D)) (l : list FileRecord) (k : nat) : Prop :=
  if metadata_available m then meta_has m (metadatas_bytes l) k
  else Forall (fun r => fr_metadata r = empty_metadata) l.

Lemma buffered_lookup m bs k i : meta_has m bs k -> (i < length (buffered m))%nat ->
  current_metadata_block m !! (current_metadata_offset m + i)%nat = bs !! i.
Proof.
  intros (_ & _ & raw & <- & _) Hi. rewrite lookup_app_l by done. by rewrite lookup_drop.
Qed.

Lemma decode_record_has m r l k : record_ok r -> meta_has m (metadatas_bytes (r :: l)) k ->
  (length (metadata_bytes (fr_metadata r)) <= length (buffered m))%nat -> exists m',
  decode_record m = Some m' /\ metas_ok m' l k /\ last_metadata_record m' = fr_metadata r.
Proof.
  intros Hr (Hav & Hoff & raw & Ebs & Hf) Hl. unfold decode_record.
  change (metadatas_bytes (r :: l)) with (metadata_bytes (fr_metadata r) ++ metadatas_bytes l) in Ebs.
  assert (Hs : exists rest, buffered m = metadata_bytes (fr_metadata r) ++ rest /\ rest ++ raw = metadatas_bytes l).
  { exists (drop (length (metadata_bytes (fr_metadata r))) (buffered m)).
    assert (Ht : take (length (metadata_bytes (fr_metadata r))) (buffered m) = metadata_bytes (fr_metadata r)).
    { apply (f_equal (take (length (metadata_bytes (fr_metadata r))))) in Ebs. by rewrite take_app_le, take_app_length in Ebs. }
    split; [by rewrite <- Ht at 1; rewrite take_drop|]. apply (app_inv_head (metadata_bytes (fr_metadata r))).
    rewrite app_assoc, <- Ebs. f_equal. by rewrite <- Ht at 1; rewrite take_drop. }
  destruct Hs as (rest & Eb & Er). rewrite Eb, decode_metadata_bytes by apply Hr. cbn [mbind option_bind].
  eexists. split; [reflexivity|]. split; [|cbn; by rewrite (ro_norm r Hr)].
  unfold metas_ok. cbn [metadata_available]. rewrite Hav. split; [done|].
  cbn [current_metadata_block current_metadata_offset metadata_ctx compressed_metadata compressed_metadata_pos].
  assert (Hlen : (length (current_metadata_block m) - current_metadata_offset m = length (metadata_bytes (fr_metadata r)) + length rest)%nat)
    by (by rewrite <- length_drop, Eb, length_app).
  split; [lia|]. exists raw. split; [|done]. rewrite <- Er. f_equal.
  replace (length (current_metadata_block m) - length rest)%nat
    with (current_metadata_offset m + length (metadata_bytes (fr_metadata r)))%nat by lia.
  by rewrite <- drop_drop, Eb, drop_app_length.
Qed.

Lemma read_metadata_ok m r l k : record_ok r -> metas_ok m (r :: l) k -> (k < fuel)%nat -> exists m',
  read_next_metadata_record fuel file h m = Some m' /\ metas_ok m' l k /\ last_metadata_record m' = fr_metadata r.
Proof.
  intros Hr Hm Hk. unfold read_next_metadata_record. set (m0 := METADATAS _ _ _ _ _ _ _). cbv zeta.
  unfold metas_ok in Hm. change (metadata_available m) with (metadata_available m0) in Hm.
  destruct (metadata_available m0) eqn:Eav; cbn [negb].
  2:{ exists m0. apply Forall_cons in Hm as [Er Hm]. split; [done|]. split; [|by rewrite Er].
      unfold metas_ok. by rewrite Eav. }
  assert (H0 : meta_has m0 (metadatas_bytes (r :: l)) k) by exact Hm. clear Hm.
  pose proof (length_metadata_bytes _ (ro_metadata r Hr)) as Hlen.
  assert (Etot : (length (metadata_bytes (fr_metadata r)) <= length (metadatas_bytes (r :: l)))%nat).
  { change (metadatas_bytes (r :: l)) with (metadata_bytes (fr_metadata r) ++ metadatas_bytes l). rewrite length_app. lia. }
  destruct (ensure_metadata_bytes_has (metadatas_bytes (r :: l)) 1 k m0) as (m1 & -> & H1 & L1); [case_match; unfold up_to_hash_len in *; lia|done|done|].
  cbn [mbind option_bind negb]. rewrite <- (Nat.add_0_r (current_metadata_offset m1)).
  rewrite (buffered_lookup _ _ _ 0 H1) by lia.
  change (metadatas_bytes (r :: l)) with (metadata_bytes (fr_metadata r) ++ metadatas_bytes l).
  unfold metadata_bytes at 1. destruct (md_enabled (fr_metadata r)) eqn:Een.
  - cbn [app lookup list_lookup mbind option_bind Z.eqb].
    destruct (ensure_metadata_bytes_has (metadatas_bytes (r :: l)) up_to_hash_len k m1) as (m2 & -> & H2 & L2); [lia|done|exact H1|].
    cbn [mbind option_bind negb]. rewrite <- Nat.add_sub_assoc by (unfold up_to_hash_len; lia).
    rewrite (buffered_lookup _ _ _ _ H2) by (unfold up_to_hash_len in *; lia).
    change (metadatas_bytes (r :: l)) with (metadata_bytes (fr_metadata r) ++ metadatas_bytes l).
    rewrite metadata_bytes_hash_len by done. cbn [mbind option_bind]. rewrite Nat2Z.id, <- Hlen.
    destruct (ensure_metadata_bytes_has (metadatas_bytes (r :: l)) (length (metadata_bytes (fr_metadata r))) k m2) as (m3 & -> & H3 & L3); [exact Etot|done|exact H2|].
    cbn [mbind option_bind negb]. by apply decode_record_has.
  - cbn [app lookup list_lookup mbind option_bind Z.eqb]. apply decode_record_has; [done|exact H1|lia].
Qed.

(** ** Names *)

Context (ddict_ : option bytes) (groups : list (list bytes)).

(** The blocks of names in the file. *)
Record blocks_in_file : Prop := {
  bf_count : num_docids h = Z.of_nat (length groups);
  bf_small : Z.of_nat (length groups) < 2 ^ 32;
  bf_groups : Forall (fun g => g <> [] /\ Forall path_ok g) groups;
  bf_block i g : groups !! i = Some g ->
    load_block zstd_content_size zstd_decompress file h ddict_ (Z.of_nat i) = Some (Some (join g ++ [0]))
}.

Context (Hblocks : blocks_in_file).

(** [cur] are the names left of the current block, [i] the next block. *)
Definition names_left (cur : list bytes) (i : nat) (l : list FileRecord) : Prop :=
  (i <= length groups)%nat /\ map fr_path l = cur ++ concat (drop i groups).

Definition filename_ptr (cur : list bytes) : option bytes :=
  match cur with [] => None | _ => Some (join cur ++ [0]) end.

Abbreviation existing := (ExistingDB (D := D)).

Lemma span_nul_join p cur : path_ok p ->
  span_nul (join (p :: cur) ++ [0]) = (p, Some (match cur with [] => [] | _ => join cur ++ [0] end)).
Proof.
  intros [Hn _]. assert (Hn0 : 0 ∉ p) by (intros H0; destruct (proj1 (Forall_forall _ _) Hn 0 H0); lia). destruct cur as [|q cur]; [exact (span_nul_app p [] Hn0)|].
  change (join (p :: q :: cur)) with (p ++ 0 :: join (q :: cur)). rewrite <- app_assoc. exact (span_nul_app p (join (q :: cur) ++ [0]) Hn0).
Qed.

Lemma current_names_next (db : existing) cur i r l : current_docid db = Z.of_nat i -> current_filename db = filename_ptr cur ->
  names_left cur i (r :: l) -> hdr db = h -> ddict db = ddict_ -> exists cur' i',
  current_names zstd_content_size zstd_decompress db file = Some (inl (Z.of_nat i', join (fr_path r :: cur') ++ [0])) /\
  names_left cur' i' l.
Proof.
  intros Hi Hc [Hle Hn] Hh Hd. unfold current_names. rewrite Hc, Hi, Hh, Hd. destruct cur as [|p cur].
  - cbn [filename_ptr app] in *. destruct (drop i groups) as [|g rest] eqn:Eg; [done|].
    assert (Hg : groups !! i = Some g).
    { rewrite <- (Nat.add_0_r i), <- lookup_drop, Eg. done. }
    pose proof (lookup_lt_Some _ _ _ Hg) as Hlt. pose proof (bf_count Hblocks) as Hcount. pose proof (bf_small Hblocks) as Hsmall.
    replace (num_docids h <=? Z.of_nat i) with false by lia. rewrite (bf_block Hblocks i g Hg).
    pose proof (bf_groups Hblocks) as F. rewrite Forall_forall in F.
    destruct (F g (list_elem_of_lookup_2 _ _ _ Hg)) as [Hne _]. destruct g as [|p g]; [done|].
    cbn [map concat app] in Hn. injection Hn as -> Hn. exists g, (S i). split.
    + cbn [mbind option_bind]. rewrite u32_small; [do 3 f_equal; lia|]. unfold is_u32. lia.
    + split; [lia|]. rewrite Hn. f_equal. f_equal. replace (S i) with (i + 1)%nat by lia. by rewrite <- drop_drop, Eg.
  - cbn [filename_ptr]. injection Hn as -> Hn. by exists cur, i.
Qed.

Lemma current_names_end (db : existing) cur i : current_docid db = Z.of_nat i -> current_filename db = filename_ptr cur ->
  names_left cur i [] -> hdr db = h ->
  current_names zstd_content_size zstd_decompress db file = Some (inr (with_eof db)).
Proof.
  intros Hi Hc [Hle Hn] Hh. unfold current_names. rewrite Hc, Hi, Hh. cbn [map] in Hn. symmetry in Hn.
  apply app_nil in Hn as [-> Hn]. cbn [filename_ptr]. assert (Hlen : (length groups <= i)%nat).
  { destruct (drop i groups) as [|g rest] eqn:Eg; [apply (f_equal length) in Eg; rewrite length_drop in Eg; cbn in Eg; lia|].
    pose proof (bf_groups Hblocks) as F. rewrite Forall_forall in F. destruct (F g) as [Hne _].
    { apply (list_elem_of_lookup_2 _ i). by rewrite <- (Nat.add_0_r i), <- lookup_drop, Eg. }
    cbn [concat] in Hn. by apply app_nil in Hn as [-> _]. }
  rewrite (bf_count Hblocks). by replace (Z.of_nat (length groups) <=? Z.of_nat i) with true by lia.
Qed.

(** ** The stream of records *)

Record reading (db : existing) (l : list FileRecord) : Prop := {
  re_fd : fd db = Some file;
  re_hdr : hdr db = h;
  re_ddict : ddict db = ddict_;
  re_error : error db = false;
  re_eof : eof db = true -> l = [];
  re_names : exists cur i, current_docid db = Z.of_nat i /\ current_filename db = filename_ptr cur /\ names_left cur i l;
  re_times : exists k, times_ok (dir_times db) l k /\ (k < fuel)%nat;
  re_metas : exists k, metas_ok (metadatas db) l k /\ (k < fuel)%nat;
  re_records : Forall record_ok l
}.

(** With an error, there is nothing left. *)
Definition existing_stream (db : existing) (l : list FileRecord) (err : bool) : Prop :=
  if err then l = [] /\ error db = true /\ fst (unread_record (unread_ db)) = []
  else
    (fst (unread_record (unread_ db)) = [] /\ reading db l) \/
    exists x rest, l = x :: rest /\ reading db rest /\ record_ok x /\
      unread_ db = UNREAD (fr_path x, fr_dir_timestamp x) (fr_metadata x) true.

Lemma metas_ok_last m l k record : metas_ok m l k -> metas_ok (set_last m record) l k.
Proof. done. Qed.

Lemma read_stored (db : existing) r l : reading db (r :: l) -> fst (unread_record (unread_ db)) = [] -> exists db',
  read_next_record zstd_content_size zstd_decompress fuel db = Some ((fr_path r, fr_dir_timestamp r), db') /\
  reading db' l /\ unread_ db' = unread_ db /\ last_metadata_record (metadatas db') = fr_metadata r.
Proof.
  intros [H1 H2 H3 H4 H5 (cur & i & Hi & Hc & Hn) (k & Ht & Hk) (k' & Hm & Hk') F] Hu. apply Forall_cons in F as [Hr F].
  unfold read_next_record. destruct (decide (fst (unread_record (unread_ db)) <> [])) as [Hd|_]; [done|].
  destruct (eof db) eqn:Ee; [by specialize (H5 eq_refl)|]. rewrite H4, H1, H2. cbn [orb].
  cbn [mbind option_bind]. destruct (current_names_next db cur i r l Hi Hc Hn H2 H3) as (cur' & i' & -> & Hn').
  cbn [mbind option_bind].
  destruct (dir_time_loop_ok r l fuel (dir_times db) k Ht Hk) as (d & -> & (raw & Eraw & Hf) & Hneed).
  cbn [mbind option_bind]. unfold deliver. rewrite H1, H2. rewrite (span_nul_join (fr_path r) cur') by apply Hr.
  cbn [mbind option_bind]. rewrite dir_times_bytes_cons in Eraw.
  destruct (dir_time_there (fr_dir_timestamp r) (current_dir_time d) raw _ Eraw Hneed) as (rest & Ed & Erest).
  rewrite Ed, take_dir_time_record by done. cbn [mbind option_bind].
  destruct (decide (fr_path r = [])) as [Hp|_]; [by destruct (ro_path r Hr)|].
  destruct (read_metadata_ok (metadatas db) r l k' Hr Hm Hk') as (m & -> & Hm' & El). cbn [mbind option_bind].
  eexists. split; [reflexivity|]. split; [|done]. split; cbn; try done.
  - by rewrite Ee.
  - exists cur', i'. split; [done|]. split; [|done]. destruct cur' as [|q cur']; [done|]. cbn [filename_ptr].
    by destruct (join (q :: cur')).
  - exists k. split; [|done]. by exists raw.
  - by exists k'.
Qed.

Lemma read_stored_end (db : existing) : reading db [] -> fst (unread_record (unread_ db)) = [] -> exists db',
  read_next_record zstd_content_size zstd_decompress fuel db = Some (([], not_a_dir), db') /\
  reading db' [] /\ unread_ db' = unread_ db.
Proof.
  intros Hr Hu. destruct (Hr) as [H1 H2 H3 H4 H5 (cur & i & Hi & Hc & Hn) Ht Hm F].
  unfold read_next_record. destruct (decide (fst (unread_record (unread_ db)) <> [])) as [Hd|_]; [done|].
  destruct (eof db) eqn:Ee; cbn [orb]; [by exists db|]. rewrite H4, H1. cbn [orb mbind option_bind].
  rewrite (current_names_end db cur i Hi Hc Hn H2). cbn [mbind option_bind]. eexists. split; [reflexivity|]. split; [|done].
  split; cbn; try done. by exists cur, i.
Qed.

Lemma read_back (db : existing) x rest : unread_ db = UNREAD (fr_path x, fr_dir_timestamp x) (fr_metadata x) true -> record_ok x ->
  reading db rest -> exists db',
  read_next_record zstd_content_size zstd_decompress fuel db = Some ((fr_path x, fr_dir_timestamp x), db') /\
  reading db' rest /\ fst (unread_record (unread_ db')) = [] /\ last_metadata_record (metadatas db') = fr_metadata x.
Proof.
  intros Hu Hx [H1 H2 H3 H4 H5 Hn Ht Hm F]. unfold read_next_record, read_unread. rewrite Hu. cbn [unread_record fst].
  destruct (decide (fr_path x <> [])) as [_|Hd]; [|by destruct Hd; destruct (ro_path x Hx)].
  eexists. split; [reflexivity|]. done.
Qed.

#[local] Instance reader : RecordReader existing := existing_reader zstd_content_size zstd_decompress fuel.

Lemma existing_delivers : RecordStream existing existing_stream.
Proof.
  split.
  - intros db x l [|]; [by intros [? _]|]. intros [[Hu Hr]|(y & rest & [= <- <-] & Hr & Hx & Hu)].
    + pose proof (re_records _ _ Hr) as F. apply Forall_cons in F as [Hx _].
      destruct (read_stored db x l Hr Hu) as (db' & E & Hr' & Hu' & Hl). exists db'. cbn [read_next reader existing_reader].
      rewrite E. split; [done|]. split; [left; by rewrite Hu'|]. split; [done|]. right. exists x, l.
      split; [done|]. split; [by destruct Hr'|]. split; [done|]. cbn. by rewrite Hl.
    + destruct (read_back db x l Hu Hx Hr) as (db' & E & Hr' & Hu' & Hl). exists db'. cbn [read_next reader existing_reader].
      rewrite E. split; [done|]. split; [by left|]. split; [done|]. right. exists x, l.
      split; [done|]. split; [by destruct Hr'|]. split; [done|]. cbn. by rewrite Hl.
  - intros db [|].
    + intros (_ & He & Hu). exists db. cbn [read_next reader existing_reader]. unfold read_next_record. rewrite Hu.
      destruct (decide ([] <> [])) as [?|_]; [done|]. rewrite He, orb_true_r. by split.
    + intros [[Hu Hr]|(? & ? & ? & _)]; [|done]. destruct (read_stored_end db Hr Hu) as (db' & E & Hr' & Hu').
      exists db'. cbn [read_next reader existing_reader]. rewrite E. split; [done|]. split; [left; by rewrite Hu'|].
      apply Hr'.
  - intros db x l [|]; [by intros [? _]|]. intros [[_ Hr]|(y & rest & [= <- <-] & _ & Hx & _)].
    + pose proof (re_records _ _ Hr) as F. apply Forall_cons in F as [Hx _]. apply (ro_path x Hx).
    + apply (ro_path x Hx).
  - intros db x l [|]; [by intros [? _]|]. intros [[_ Hr]|(y & rest & _ & Hr & _)]; apply Hr.
Qed.

End Streams.
