(* ===== verification/StoredDatabase.v ===== *)
(** * A database of records, written and opened again (src/database-builder.cpp, src/updatedb.cpp)

    [store_database] is what updatedb does with the records of a run: names,
    directory times, metadata, history, the dictionary for the next run and the
    configuration block.  [ExistingDB] reads all of it back. *)
From S2P Require Import Prelude Metadata MetadataCodec PostingList Corpus DbHeader DatabaseFile RecordReader Streams ExistingDB ExistingStream.

(** ** Writing *)

Section Store.
(** Compression of blocks with a dictionary, and of the history. *)
Context (zstd_compress : bytes -> bytes -> bytes) (zstd_compress_history : bytes -> bytes).
Context {C : Type} `{!StreamCompressor C} (new_c : C).
Context (buf1 buf : bytes) (fuel prime_fuel : nat).

Definition history_section (events : list HistoryEvent) : bytes :=
  match events with [] => [] | _ => zstd_compress_history (encode_history_stream events) end.

(** [None]: the program stops, the fuel runs out, or something is accessed
    outside its bounds. *)
Definition store_database (block_size : Z) (check_visibility : bool) (dictionary conf_block : bytes)
    (records : list FileRecord) (events : list HistoryEvent) (next_dictionary : bytes) : option bytes :=
  '(times, metadata) ← record_streams fuel true true new_c records;
  build_database (zstd_compress dictionary) buf1 buf fuel prime_fuel block_size dictionary check_visibility
    (map fr_path records) (SECTIONS times metadata (history_section events) next_dictionary conf_block).

End Store.

(** ** What the library promises *)

Section Compression.
Context (zstd_compress : bytes -> bytes -> bytes) (zstd_compress_history : bytes -> bytes)
  (zstd_content_size : bytes -> option Z) (zstd_decompress : option bytes -> bytes -> Z -> option bytes).
Context {C D : Type} `{Codec : StreamCodec C D new_c new_d}.

(** A compressed block says how long it is and decompresses with the same
    dictionary; the history is a frame of the streams; nothing is compressed to
    nothing, or only nothing is. *)
Record compression_ok : Prop := {
  co_block d b : zstd_compress d b <> [];
  co_size d b : zstd_content_size (zstd_compress d b) = Some (Z.of_nat (length b));
  co_back d b : zstd_decompress (if decide (d = []) then None else Some d) (zstd_compress d b) (Z.of_nat (length b) + 1) = Some b;
  co_history b : b <> [] -> zstd_compress_history b <> [] /\ valid_frame (zstd_compress_history b) b;
  co_frame raw : valid_frame [] raw -> raw = []
}.

End Compression.

(** ** Sections and the header *)

Lemma section_read full len off section : section_at full len off section ->
  len = Z.of_nat (length section) /\ 0 <= off /\ read_at full len off = Some section.
Proof.
  unfold section_at. case_decide as E.
  - intros [-> ->]. subst section. split; [done|]. split; [done|]. unfold read_at. rewrite decide_True by lia. done.
  - intros (-> & Ho & Hr). split; [done|]. split; [|done]. unfold sizeof_Header in Ho. lia.
Qed.

Lemma try_read_pos file len off : 0 < len -> try_read file len off = read_at file len off.
Proof. intros H. unfold try_read. destruct (len =? 0) eqn:E; [lia|done]. Qed.

Lemma length_join (g : list bytes) B : Forall (fun p => Z.of_nat (length p) < B) g -> 0 < B ->
  Z.of_nat (length (join g)) <= Z.of_nat (length g) * B.
Proof.
  intros F HB. induction F as [|p g Hp F IH]; [cbn; lia|]. destruct g as [|q g]; [cbn [join length]; lia|].
  change (join (p :: q :: g)) with (p ++ 0 :: join (q :: g)). rewrite length_app. cbn [length] in *. lia.
Qed.

Lemma nonempty_length (s : bytes) : s <> [] -> 0 < Z.of_nat (length s).
Proof. destruct s; [done|cbn [length]; lia]. Qed.

(** ** Opening what was written *)

Section Stored.
Context (zstd_compress : bytes -> bytes -> bytes) (zstd_compress_history : bytes -> bytes)
  (zstd_content_size : bytes -> option Z) (zstd_decompress : option bytes -> bytes -> Z -> option bytes).
Context {C D : Type} `{Codec : StreamCodec C D new_c new_d}.
Context (Hzstd : compression_ok zstd_compress zstd_compress_history zstd_content_size zstd_decompress).
Context (buf1 buf : bytes) (fuel prime_fuel : nat) (block_size : Z) (visibility : bool) (dictionary conf : bytes)
  (records : list FileRecord) (events : list HistoryEvent) (next_dict file : bytes).
Context (Hbufs : length buf1 = P4NENC_BOUND 1 /\ length buf = P4NENC_BOUND 128 /\ Forall is_byte buf).
Context (Hbs : 0 < block_size).
Context (Hrecords : Forall (fun r => record_ok r /\ Z.of_nat (length (fr_path r)) < 2 ^ 32) records)
  (Hcount : Z.of_nat (length records) < 2 ^ 24).
Context (Hstore : store_database zstd_compress zstd_compress_history new_c buf1 buf fuel prime_fuel block_size visibility
  dictionary conf records events next_dict = Some file).
Context (Hsmall : Z.of_nat (length file) < 2 ^ 36) (Hdict : Z.of_nat (length dictionary) < 2 ^ 32).
Context (Hconf : conf <> []).

(** The frames, and where everything is. *)
Record stored (times metadata : bytes) (c : EncodingCorpus) (groups : list (list bytes)) (h : Header) (full : bytes) : Prop := {
  sd_times : valid_frame times (dir_times_bytes records);
  sd_metadata : valid_frame metadata (metadatas_bytes records);
  sd_parts : parts (zstd_compress dictionary) buf block_size dictionary visibility (map fr_path records) file c groups h full;
  sd_sections : sections_in full h (SECTIONS times metadata (history_section zstd_compress_history events) next_dict conf);
  sd_dictionary : section_at full (zstd_dictionary_length_bytes h) (zstd_dictionary_offset_bytes h) dictionary
}.

Lemma records_metadata : Forall (fun r => metadata_wf (fr_metadata r)) records.
Proof. eapply Forall_impl; [exact Hrecords|]. intros r [Hr _]. apply Hr. Qed.

Lemma paths_ok : Forall path_ok (map fr_path records) /\ Z.of_nat (length (map fr_path records)) < 2 ^ 24.
Proof.
  rewrite length_map. split; [|done]. apply Forall_fmap. eapply Forall_impl; [exact Hrecords|]. intros r [Hr _]. apply Hr.
Qed.

Lemma stored_database : exists times metadata c groups h full, stored times metadata c groups h full.
Proof.
  unfold store_database in Hstore. destruct (record_streams fuel true true new_c records) as [[times metadata]|] eqn:Es;
    cbn [mbind option_bind] in Hstore; [|done].
  destruct (record_streams_frames true true records records_metadata) as (times' & metadata' & He & Ht & Hm).
  pose proof (monotone_eventually _ _ _ _ (record_streams_monotone true true new_c records) He Es) as [= <- <-].
  destruct (database_readable (zstd_compress dictionary) buf1 buf fuel prime_fuel block_size dictionary visibility
    (map fr_path records) _ file (co_block _ _ _ _ Hzstd dictionary) Hbufs Hbs paths_ok Hstore Hsmall Hdict)
    as (c & groups & h & full & Hparts & Hsec & Hd).
  by exists times, metadata, c, groups, h, full.
Qed.

(** ** The parts of the file *)

Section Parts.
Context (times metadata : bytes) (c : EncodingCorpus) (groups : list (list bytes)) (h : Header) (full : bytes)
  (Hst : stored times metadata c groups h full).

Lemma section_in_file len off section : section_at full len off section -> section_at file len off section.
Proof.
  unfold section_at. case_decide; [done|]. intros (-> & Ho & Hr). split; [done|]. split; [done|].
  by rewrite (read_at_full _ _ _ _ _ _ _ _ _ _ _ (sd_parts _ _ _ _ _ _ Hst)).
Qed.

Lemma stored_header : try_read file (Z.of_nat sizeof_Header) 0 ≫= parse_header = Some h.
Proof.
  destruct (sd_parts _ _ _ _ _ _ Hst) as [Hfile Hstart _ (H1 & _) Hwf _ _ _ _ _].
  assert (Hl : length (header_bytes h) = sizeof_Header) by (apply length_header_bytes; by rewrite H1).
  rewrite try_read_pos by done. rewrite Hfile.
  pose proof (read_at_mid [] (header_bytes h) (drop sizeof_Header full) (Z.of_nat sizeof_Header) 0) as Hr.
  cbn [app length] in Hr. change (Z.of_nat 0 + 0) with 0 in Hr. rewrite Hr by lia. rewrite <- Hl at 1.
  rewrite read_at_whole. cbn [mbind option_bind]. rewrite <- (app_nil_r (header_bytes h)). by apply parse_header_bytes.
Qed.

Lemma stored_usable : header_usable conf file h = true.
Proof.
  destruct (sd_parts _ _ _ _ _ _ Hst) as [_ _ _ (H1 & H2 & H3 & _) _ _ _ _ _ _].
  pose proof (section_in_file _ _ _ (si_conf _ _ _ (sd_sections _ _ _ _ _ _ Hst))) as Hc. cbn [conf_block] in Hc.
  apply section_read in Hc as (El & _ & Hr). unfold header_usable. rewrite H1, H2, H3, El. rewrite bool_decide_eq_true_2 by done.
  cbn [Z.eqb Pos.eqb negb andb orb Z.ltb Z.compare Pos.compare Pos.compare_cont]. rewrite Z.eqb_refl.
  rewrite try_read_pos by (by apply nonempty_length). rewrite <- El, Hr. by rewrite bool_decide_eq_true_2.
Qed.

Lemma stored_dictionary : open_dictionary file h = Some (if decide (dictionary = []) then None else Some dictionary).
Proof.
  pose proof (section_in_file _ _ _ (sd_dictionary _ _ _ _ _ _ Hst)) as Hd. pose proof (section_read _ _ _ _ Hd) as (El & _ & Hr).
  unfold open_dictionary. rewrite El in *. case_decide as E.
  - by rewrite E.
  - assert (Hpos : 0 < Z.of_nat (length dictionary)) by (by apply nonempty_length).
    replace (Z.of_nat (length dictionary) <=? 0) with false by lia. rewrite try_read_pos by done. by rewrite Hr.
Qed.

Lemma stored_blocks : blocks_in_file zstd_content_size zstd_decompress file h (if decide (dictionary = []) then None else Some dictionary) groups.
Proof.
  pose proof (sd_parts _ _ _ _ _ _ Hst) as Hp. destruct (pa_count _ _ _ _ _ _ _ _ _ _ _ Hp) as [Hn Hlim].
  destruct (pa_groups _ _ _ _ _ _ _ _ _ _ _ Hp) as [Hg Hsizes]. change (2 ^ 24) with 16777216 in *.
  assert (Hsub : forall g f, g ∈ groups -> f ∈ g -> f ∈ map fr_path records).
  { intros g f Hin Hf. rewrite <- Hg. apply list_elem_of_In, in_concat. exists g. split; by apply list_elem_of_In. }
  split.
  - done.
  - change (2 ^ 32) with 4294967296. lia.
  - apply Forall_forall. intros g Hin. rewrite Forall_forall in Hsizes. split; [by apply Hsizes|].
    apply Forall_forall. intros f Hf. pose proof (proj1 paths_ok) as F. rewrite Forall_forall in F. by apply F, (Hsub g).
  - intros i g Hi. pose proof (get_block _ _ _ _ _ _ _ _ Hbufs Hsmall _ _ _ _ Hp i g Hi) as Hb.
    assert (Hin : g ∈ groups) by by eapply list_elem_of_lookup_2.
    assert (Hjoin : Z.of_nat (length (join g)) < 2 ^ 62).
    { pose proof (length_join g (2 ^ 32)) as Hl. change (2 ^ 32) with 4294967296 in *. change (2 ^ 62) with 4611686018427387904.
      assert (Hlen : Z.of_nat (length g) <= 16777216).
      { assert (Hle : (length g <= length (map fr_path records))%nat); [|rewrite length_map in Hle; lia].
        rewrite <- Hg. clear -Hin. induction groups as [|g' gs IH]; [by apply not_elem_of_nil in Hin|]. cbn [concat].
        rewrite length_app. apply elem_of_cons in Hin as [->|Hin]; [lia|]. specialize (IH Hin). lia. }
      specialize (Hl ltac:(apply Forall_forall; intros f Hf; specialize (Hsub g f Hin Hf);
        apply list_elem_of_fmap in Hsub as (r & -> & Hr); rewrite Forall_forall in Hrecords; by apply Hrecords) ltac:(lia)). lia. }
    unfold get_compressed_filename_block, offset_for_block in Hb. unfold load_block. rewrite try_read_pos by lia.
    destruct (read_at file 16 _) as [s|]; cbn [mbind option_bind] in *; [|done].
    destruct (get_u64 s) as [[from s']|]; cbn [mbind option_bind] in *; [|done].
    destruct (get_u64 s') as [[to s'']|]; cbn [mbind option_bind] in *; [|done].
    assert (Hpos : 0 < u64 (to - from) /\ u64 (to - from) < 2 ^ 36).
    { unfold read_at in Hb. case_decide as Hd; [|done]. split; [|lia]. injection Hb as Hb.
      destruct (Z.eq_dec (u64 (to - from)) 0) as [E|]; [|lia]. rewrite E in Hb. cbn in Hb.
      by destruct (co_block _ _ _ _ Hzstd dictionary (join g)). }
    change (2 ^ 36) with 68719476736 in *. change (2 ^ 62) with 4611686018427387904 in *. unfold too_large. change (2 ^ 63) with 9223372036854775808.
    replace (9223372036854775808 - 1 <=? u64 (to - from)) with false by lia. rewrite try_read_pos by lia.
    rewrite Hb. cbn [mbind option_bind]. rewrite (co_size _ _ _ _ Hzstd). cbn [mbind option_bind].
    replace (9223372036854775808 - 1 <=? Z.of_nat (length (join g))) with false by lia.
    rewrite (co_back _ _ _ _ Hzstd). cbn [mbind option_bind]. rewrite Nat2Z.id, Nat.sub_diag. cbn [replicate].
    by rewrite app_nil_r, firstn_all.
Qed.

(** ** Opening *)

Abbreviation dict := (if decide (dictionary = []) then None else Some dictionary).

Lemma stored_opens indeterminate : new_ExistingDB new_d conf indeterminate (Some file) =
  initial_existing new_d (Some file) h dict (directory_data_offset_bytes h) (metadata_offset_bytes h)
    (negb (bool_decide (metadata = []))) false.
Proof.
  unfold new_ExistingDB. rewrite stored_header, stored_usable, stored_dictionary. cbn [negb].
  pose proof (si_metadata _ _ _ (sd_sections _ _ _ _ _ _ Hst)) as Hm. pose proof (si_flags _ _ _ (sd_sections _ _ _ _ _ _ Hst)) as Hf.
  cbn [compressed_metadata] in Hm. unfold section_at in Hm. case_decide as E.
  - destruct Hm as [El Eo]. rewrite El, Eo. cbn [Z.eqb]. by rewrite bool_decide_eq_true_2.
  - destruct Hm as (El & _). rewrite bool_decide_eq_false_2 by done. rewrite Hf.
    assert (Hpos : 0 < metadata_length_bytes h) by (rewrite El; by apply nonempty_length).
    replace (metadata_length_bytes h =? 0) with false by lia. done.
Qed.

Lemma stored_feeding (d : D) len off section raw : section_at full len off section -> valid_frame section raw ->
  feeding file new_d [] off (off + len) raw (2 * length section + length raw).
Proof.
  intros Hs Hv. apply section_in_file, section_read in Hs as (-> & Ho & Hr). exists section.
  assert (Hle : off + Z.of_nat (length section) <= Z.of_nat (length file)) by (unfold read_at in Hr; case_decide; [lia|done]).
  change (2 ^ 36) with 68719476736 in Hsmall. change (2 ^ 63) with 9223372036854775808.
  split; [by apply decoding_new|]. repeat (split; [done || lia|]). cbn [length]. lia.
Qed.

(** Turns that are enough for the loops of the reader. *)
Definition turns_needed : nat :=
  S (Nat.max (2 * length times + length (dir_times_bytes records)) (2 * length metadata + length (metadatas_bytes records))).

Lemma stored_reading turns indeterminate : (turns_needed <= turns)%nat ->
  reading turns file h dict groups (new_ExistingDB new_d conf indeterminate (Some file)) records.
Proof.
  intros Ht. unfold turns_needed in Ht. rewrite stored_opens. pose proof (sd_sections _ _ _ _ _ _ Hst) as Hs. split; try done.
  - exists [], 0%nat. split; [done|]. split; [done|]. split; [lia|]. rewrite drop_0. cbn [app].
    by destruct (pa_groups _ _ _ _ _ _ _ _ _ _ _ (sd_parts _ _ _ _ _ _ Hst)) as [-> _].
  - exists (2 * length times + length (dir_times_bytes records))%nat. split; [|lia]. exists (dir_times_bytes records).
    split; [done|]. apply (stored_feeding new_d _ _ times); [apply (si_dir_times _ _ _ Hs)|apply (sd_times _ _ _ _ _ _ Hst)].
  - exists (2 * length metadata + length (metadatas_bytes records))%nat. split; [|lia]. unfold metas_ok.
    cbn [metadatas initial_existing initial_metadatas metadata_available]. case_bool_decide as E; cbn [negb].
    + pose proof (sd_metadata _ _ _ _ _ _ Hst) as Hv. rewrite E in Hv. apply (co_frame _ _ _ _ Hzstd) in Hv.
      destruct records as [|r l]; [constructor|]. exfalso.
      change (metadatas_bytes (r :: l)) with (metadata_bytes (fr_metadata r) ++ metadatas_bytes l) in Hv.
      apply app_nil in Hv as [Hv _]. unfold metadata_bytes in Hv. by destruct (md_enabled (fr_metadata r)).
    + split; [done|]. split; [done|]. exists (metadatas_bytes records). split; [done|].
      apply (stored_feeding new_d _ _ metadata); [apply (si_metadata _ _ _ Hs)|apply (sd_metadata _ _ _ _ _ _ Hst)].
  - eapply Forall_impl; [exact Hrecords|]. by intros r [Hr _].
Qed.

(** ** The dictionary and the history *)

Lemma stored_next_dictionary indeterminate : read_next_dictionary (new_ExistingDB new_d conf indeterminate (Some file)) =
  if 1048576 <? Z.of_nat (length next_dict) then [] else next_dict.
Proof.
  rewrite stored_opens. unfold read_next_dictionary. cbn [hdr fd initial_existing].
  pose proof (section_read _ _ _ _ (section_in_file _ _ _ (si_dictionary _ _ _ (sd_sections _ _ _ _ _ _ Hst)))) as (El & _ & Hr).
  cbn [next_dictionary] in *. rewrite El in *. destruct next_dict as [|x next] eqn:En; [done|].
  rewrite <- En in *. assert (Hpos : 0 < Z.of_nat (length next_dict)) by (rewrite En; cbn [length]; lia).
  replace (Z.of_nat (length next_dict) =? 0) with false by lia. cbn [orb]. case_match; [done|].
  cbn [mbind option_bind]. rewrite try_read_pos by done. by rewrite Hr.
Qed.

End Parts.

Lemma history_loop_frame turns : forall d todo raw output, decoding d todo raw -> (length todo + length raw < turns)%nat ->
  (todo = [] -> raw = []) -> history_loop turns d todo output = Some (output ++ raw).
Proof.
  induction turns as [|turns IH]; intros d todo raw output Hd Ht Hend; [lia|]. cbn [history_loop].
  destruct todo as [|b todo]; [cbn; by rewrite Hend, app_nil_r|].
  assert (Hd' : decoding d ((b :: todo) ++ []) raw) by by rewrite app_nil_r.
  destruct (decoding_step _ _ _ _ 4096 Hd') as (d' & out & n & ret & raw' & E & Hn & Hr & Hd2 & _ & Hmove & Hlast); [lia|].
  rewrite app_nil_r in Hd2, Hlast. replace (length (b :: todo) =? 0)%nat with false by done. rewrite E.
  assert (Hl : length raw = (length out + length raw')%nat) by (by rewrite Hr, length_app).
  case_match eqn:Edone.
  - apply andb_true_iff in Edone as [_ Etodo%Nat.eqb_eq]. apply nil_length_inv in Etodo. rewrite (Hlast Etodo), app_nil_r in Hr.
    by rewrite Hr.
  - rewrite (IH d' (drop n (b :: todo)) raw'); [by rewrite Hr, app_assoc|done| |done]. rewrite length_drop.
    destruct out as [|o out]; [|cbn [length] in *; lia]. assert (n <> 0%nat) by by apply Hmove. cbn [length] in *. lia.
Qed.

Lemma decode_history_whole es : Forall event_wf es ->
  decode_history_stream (encode_history_stream es) = Some (add_run_marker (map norm_event es)).
Proof.
  intros F. rewrite encode_history_stream_eq by done. set (bs := mjoin (map event_bytes es)).
  destruct (decode_events_cut es F (length bs) (length bs) []) as (k & H1 & H2 & H3); [fold bs; rewrite length_take; lia|].
  fold bs in H1, H2, H3. rewrite firstn_all in H3. assert (Hk : (length es <= k)%nat).
  { destruct (decide (k < length es)%nat) as [Hlt|]; [|lia]. specialize (H2 Hlt). exfalso.
    assert (Hle : forall l j, (length (mjoin (map event_bytes (take j l))) <= length (mjoin (map event_bytes l)))%nat).
    { clear. induction l as [|e l IH]; intros j; [by rewrite take_nil|]. destruct j as [|j]; [cbn; lia|]. cbn [take].
      assert (Hm : forall l, mjoin (map event_bytes (e :: l)) = event_bytes e ++ mjoin (map event_bytes l)) by done.
      rewrite !Hm, !length_app. specialize (IH j). lia. }
    specialize (Hle es (S k)). fold bs in Hle. lia. }
  unfold decode_history_stream. rewrite H3. by rewrite take_ge by done.
Qed.

Lemma stored_history times metadata c groups h full turns indeterminate : stored times metadata c groups h full ->
  Forall event_wf events -> (length (history_section zstd_compress_history events) + length (encode_history_stream events) < turns)%nat ->
  read_history_events new_d turns (new_ExistingDB new_d conf indeterminate (Some file)) = Some (add_run_marker (map norm_event events)).
Proof.
  intros Hst F Ht. rewrite (stored_opens _ _ _ _ _ _ Hst). unfold read_history_events. cbn [hdr fd initial_existing].
  pose proof (section_read _ _ _ _ (section_in_file _ _ _ _ _ _ Hst _ _ _ (si_history _ _ _ (sd_sections _ _ _ _ _ _ Hst)))) as (El & Ho & Hr).
  cbn [compressed_history] in *. rewrite El in *. destruct events as [|e es] eqn:Ee; [done|]. rewrite <- Ee in *.
  assert (Es : history_section zstd_compress_history events = zstd_compress_history (encode_history_stream events)) by by rewrite Ee.
  rewrite Es in *. assert (Hraw : encode_history_stream events <> []).
  { rewrite encode_history_stream_eq, Ee by done. change (mjoin (map event_bytes (e :: es))) with (event_bytes e ++ mjoin (map event_bytes es)).
    unfold event_bytes. done. }
  destruct (co_history _ _ _ _ Hzstd (encode_history_stream events) Hraw) as [Hne Hv].
  pose proof (nonempty_length _ Hne) as Hpos.
  replace (Z.of_nat (length (zstd_compress_history (encode_history_stream events))) =? 0) with false by lia.
  assert (Hle : Z.of_nat (length (zstd_compress_history (encode_history_stream events))) <= Z.of_nat (length file))
    by (unfold read_at in Hr; case_decide; [lia|done]).
  unfold too_large. change (2 ^ 36) with 68719476736 in Hsmall. change (2 ^ 63) with 9223372036854775808.
  replace (9223372036854775808 - 1 <=? _) with false by lia. cbn [mbind option_bind]. rewrite try_read_pos by done.
  rewrite Hr. unfold decompress_history_blob. rewrite (history_loop_frame turns new_d _ (encode_history_stream events));
    [|by apply decoding_new|lia|by intros ?].
  cbn [app mbind option_bind]. by apply decode_history_whole.
Qed.

(** ** Reading everything *)

Section ReadAll.
Context (turns : nat).

(** Reads up to the empty name that means the end, and says whether it was an error. *)
Fixpoint read_everything (n : nat) (db : ExistingDB (D := D)) : option (list FileRecord * bool) :=
  match n with
  | O => None
  | S n =>
    '((path, dt), db) ← read_next_record zstd_content_size zstd_decompress turns db;
    if decide (path = []) then Some ([], error db)
    else '(rest, err) ← read_everything n db; Some (Record_ path dt (last_metadata_record (metadatas db)) :: rest, err)
  end.

Lemma read_everything_stream h ddict_ groups db l :
  blocks_in_file zstd_content_size zstd_decompress file h ddict_ groups -> reading turns file h ddict_ groups db l ->
  fst (unread_record (unread_ db)) = [] -> read_everything (S (length l)) db = Some (l, false).
Proof.
  intros Hb. revert db. induction l as [|r l IH]; intros db Hr Hu.
  - destruct (read_stored_end _ _ turns file h ddict_ groups Hb db Hr Hu) as (db' & E & Hr' & _). cbn [length read_everything].
    rewrite E. cbn [mbind option_bind]. rewrite decide_True by done. by rewrite (re_error _ _ _ _ _ _ _ Hr').
  - destruct (read_stored _ _ turns file h ddict_ groups Hb db r l Hr Hu) as (db' & E & Hr' & Hu' & Hl).
    cbn [length]. change (read_everything (S (S (length l))) db) with
      ('((path, dt), db) ← read_next_record zstd_content_size zstd_decompress turns db;
       if decide (path = []) then Some ([], error db)
       else '(rest, err) ← read_everything (S (length l)) db; Some (Record_ path dt (last_metadata_record (metadatas db)) :: rest, err)).
    rewrite E. cbn [mbind option_bind]. pose proof (re_records _ _ _ _ _ _ _ Hr) as F. apply Forall_cons in F as [Hok _].
    rewrite decide_False by (by destruct (ro_path _ Hok)). rewrite IH by (done || by rewrite Hu'). cbn [mbind option_bind].
    rewrite Hl. by destruct r.
Qed.

End ReadAll.

(** The stream that the opened database is, and what else is read from it. *)
Lemma stored_stream : Forall event_wf events -> exists h ddict_ groups turns0,
  blocks_in_file zstd_content_size zstd_decompress file h ddict_ groups /\
  forall turns indeterminate, (turns0 <= turns)%nat ->
    let db := new_ExistingDB new_d conf indeterminate (Some file) in
    existing_stream turns file h ddict_ groups db records false /\ fd db = Some file /\ hdr db = h /\
    read_next_dictionary db = (if 1048576 <? Z.of_nat (length next_dict) then [] else next_dict) /\
    read_history_events new_d turns db = Some (add_run_marker (map norm_event events)).
Proof.
  intros F. destruct stored_database as (times & metadata & c & groups & h & full & Hst).
  exists h, (if decide (dictionary = []) then None else Some dictionary), groups, (Nat.max (turns_needed times metadata)
    (S (length (history_section zstd_compress_history events) + length (encode_history_stream events)))).
  split; [apply (stored_blocks _ _ _ _ _ _ Hst)|]. intros turns indeterminate Ht db.
  pose proof (stored_opens _ _ _ _ _ _ Hst indeterminate) as E. split; [|split; [|split; [|split]]].
  - left. split; [unfold db; by rewrite E|]. apply (stored_reading _ _ _ _ _ _ Hst). lia.
  - unfold db. by rewrite E.
  - unfold db. by rewrite E.
  - apply (stored_next_dictionary _ _ _ _ _ _ Hst).
  - apply (stored_history _ _ _ _ _ _ _ _ Hst F). lia.
Qed.

Lemma stored_read_back : Forall event_wf events -> exists turns0, forall turns indeterminate, (turns0 <= turns)%nat ->
  read_everything turns (S (length records)) (new_ExistingDB new_d conf indeterminate (Some file)) = Some (records, false) /\
  read_next_dictionary (new_ExistingDB new_d conf indeterminate (Some file)) =
    (if 1048576 <? Z.of_nat (length next_dict) then [] else next_dict) /\
  read_history_events new_d turns (new_ExistingDB new_d conf indeterminate (Some file))
    = Some (add_run_marker (map norm_event events)).
Proof.
  intros F. destruct (stored_stream F) as (h & ddict_ & groups & turns0 & Hb & H). exists turns0.
  intros turns indeterminate Ht. destruct (H turns indeterminate Ht) as ([[Hu Hr]|(? & ? & ? & ? & ? & Hu)] & Hf & Hh & Hd & He).
  - split; [|done]. eapply read_everything_stream; eassumption.
  - exfalso. revert Hu. unfold new_ExistingDB. repeat case_match; discriminate.
Qed.

End Stored.

(** ** Correctness *)

(** C3. The old database round-trips: opening the database that updatedb has
    stored, with the same configuration, delivers exactly the records of that run,
    each with its timestamp and its metadata, then the end and no error; and the
    dictionary and the history that were stored for this run.  Enough turns of the
    reader's loops let it end. *)
Theorem stored_database_reopens {C D} `{Codec : StreamCodec C D new_c new_d} zstd_compress zstd_compress_history
    zstd_content_size zstd_decompress buf1 buf fuel prime_fuel block_size visibility dictionary conf records events next_dict file
    (Hzstd : compression_ok zstd_compress zstd_compress_history zstd_content_size zstd_decompress)
    (Hbufs : length buf1 = P4NENC_BOUND 1 /\ length buf = P4NENC_BOUND 128 /\ Forall is_byte buf)
    (Hbs : 0 < block_size)
    (Hrecords : Forall (fun r => record_ok r /\ Z.of_nat (length (fr_path r)) < 2 ^ 32) records)
    (Hcount : Z.of_nat (length records) < 2 ^ 24)
    (Hstore : store_database zstd_compress zstd_compress_history new_c buf1 buf fuel prime_fuel block_size visibility
       dictionary conf records events next_dict = Some file)
    (Hsizes : Z.of_nat (length file) < 2 ^ 36 /\ Z.of_nat (length dictionary) < 2 ^ 32)
    (Hconf : conf <> []) (Hevents : Forall event_wf events) :
  exists turns0, forall turns indeterminate, (turns0 <= turns)%nat ->
    let db := new_ExistingDB new_d conf indeterminate (Some file) in
    read_everything zstd_content_size zstd_decompress turns (S (length records)) db = Some (records, false) /\
    read_next_dictionary db = (if 1048576 <? Z.of_nat (length next_dict) then [] else next_dict) /\
    read_history_events new_d turns db = Some (add_run_marker (map norm_event events)).
Proof.
  destruct Hsizes as [H1 H2]. by apply (stored_read_back zstd_compress zstd_compress_history zstd_content_size zstd_decompress Hzstd
    buf1 buf fuel prime_fuel block_size visibility dictionary conf records events next_dict file).
Qed.

(** Compression that marks its output. *)
Definition mark_block (d b : bytes) : bytes := 40 :: b.

Definition marked_size (b : bytes) : option Z := Some (Z.of_nat (length b) - 1).

Definition unmark_block (d : option bytes) (b : bytes) (size : Z) : option bytes :=
  match b with [] => None | _ :: b => Some b end.

Lemma marked_ok : compression_ok mark_block (fun b => b) marked_size unmark_block (new_c := ()) (new_d := ()).
Proof.
  split; try done. intros d b. unfold marked_size, mark_block. f_equal. cbn [length]. lia.
Qed.

Definition stored_metadata : FileMetadata :=
  Metadata true 33188 0 1000 5 (DirTime (-1) 7) (DirTime 1792627714 197516230) (DirTime 3 999999999)
    (Hash HkXxHash64 (map Z.of_nat (seq 200 8) ++ repeat 0 24) 8).

Lemma stored_metadata_wf : metadata_wf stored_metadata.
Proof.
  unfold metadata_wf, dir_time_wf, hash_wf, is_u32, is_u64, is_i32, is_i64. simpl.
  repeat split; try lia. repeat (apply Forall_cons_2; [unfold is_byte; lia|]). apply Forall_nil_2.
Qed.

Definition sample_records : list FileRecord :=
  [Record_ (bytes_of_string "/d") (DirTime 100 5) empty_metadata; Record_ (bytes_of_string "/e.txt") not_a_dir stored_metadata;
   Record_ (bytes_of_string "/d/x1") not_a_dir empty_metadata].

Lemma sample_records_ok : Forall (fun r => record_ok r /\ Z.of_nat (length (fr_path r)) < 2 ^ 32) sample_records.
Proof.
  assert (H : forall p dt m, path_ok p -> Z.of_nat (length p) < 2 ^ 32 -> dir_time_wf dt -> (dt_sec dt = -1 -> dt = not_a_dir) ->
    metadata_wf m -> norm_metadata m = m -> record_ok (Record_ p dt m) /\ Z.of_nat (length p) < 2 ^ 32).
  { intros p dt m H1 H2 H3 H4 H5 H6. split; [|done]. by split. }
  repeat (apply Forall_cons_2; [apply H;
    [apply (bool_decide_unpack _); vm_compute; exact I|vm_compute; reflexivity|split; split; vm_compute; congruence|done
    |apply empty_metadata_wf || apply stored_metadata_wf|reflexivity]|]).
  apply Forall_nil_2.
Qed.

Definition sample_events : list HistoryEvent := [sample_marker 7; sample_event].

Definition sample_stored : option bytes :=
  store_database mark_block (fun b => b) () (repeat 0 133) (repeat 0 641) 10 100 2 true [1; 2; 3] [5; 0] sample_records
    sample_events [7; 7].

Definition sample_file : bytes := default [] sample_stored.

Lemma sample_events_ok : Forall event_wf sample_events.
Proof.
  repeat (apply Forall_cons_2; [split; [done|]; split; [split; split; vm_compute; congruence|]; split; [vm_compute; reflexivity|];
    split; apply empty_metadata_wf || apply sample_metadata_wf|]). apply Forall_nil_2.
Qed.

Lemma stored_database_reopens_witness : exists turns0, forall turns indeterminate, (turns0 <= turns)%nat ->
  let db := new_ExistingDB () [5; 0] indeterminate (Some sample_file) in
  read_everything marked_size unmark_block turns (S (length sample_records)) db = Some (sample_records, false) /\
  read_next_dictionary db = (if 1048576 <? Z.of_nat (length [7; 7]) then [] else [7; 7]) /\
  read_history_events () turns db = Some (add_run_marker (map norm_event sample_events)).
Proof.
  apply (stored_database_reopens (new_c := ()) (new_d := ()) mark_block (fun b => b) marked_size unmark_block (repeat 0 133)
    (repeat 0 641) 10 100 2 true [1; 2; 3] [5; 0] sample_records sample_events [7; 7] sample_file).
  - exact marked_ok.
  - split; [done|]. split; [done|]. apply (bool_decide_unpack _). vm_compute. exact I.
  - lia.
  - exact sample_records_ok.
  - vm_compute. reflexivity.
  - vm_compute. reflexivity.
  - split; vm_compute; reflexivity.
  - done.
  - exact sample_events_ok.
Defined.

(** Without an old database the header is never initialised, but the length of the
    history is still taken from it: an exception if that happens to be negative. *)
Definition indeterminate_header : Header :=
  HEADER [] 0 0 0 0 0 0 0 0 0 0 0 0 0 0 0 0 0 (2 ^ 64 - 8) 0 0 false.

Example first_run_history_length_is_indeterminate :
  read_history_events () 10 (new_ExistingDB () [5; 0] indeterminate_header None) = None.
Proof. vm_compute. reflexivity. Qed.

(** Offsets in the wrong order make the length of the block wrap around, and the
    allocation ends the program; a database that cannot be read is otherwise ignored. *)
Example decreasing_offsets_abort :
  load_block marked_size unmark_block (le_bytes 8 4096 ++ le_bytes 8 4095) indeterminate_header None 0 = None.
Proof. vm_compute. reflexivity. Qed.
