(* ===== verification/DictBuilder.v ===== *)
(** * Choosing blocks for a dictionary (src/database-builder.cpp)

    [DictionaryBuilder] sees the same files as the corpus and keeps a sample of its
    blocks by reservoir sampling; from these a dictionary is trained for the next
    run.  Training and the random numbers are parameters. *)
From S2P Require Import Prelude Text Metadata Corpus.

Section Dictionary.
(** The number drawn for a block, between 0 and its index; training with the
    blocks in a row and their lengths. *)
Context (reservoir_rand : Z -> Z) (zdict_train : nat -> bytes -> list Z -> option bytes).
Context (blocks_to_keep block_size : Z).

Record DictionaryBuilder := DICTBUILDER {
  dict_block : bytes;
  block_num : Z;
  num_files_in_block : Z;
  keep_current_block : bool;
  slot_for_current_block : Z;
  sampled_blocks : list bytes;
  lengths : list Z
}.

Definition new_DictionaryBuilder : DictionaryBuilder := DICTBUILDER [] 0 0 true (-1) [] [].

(** Writing a vector element: [None] outside its bounds. *)
Definition store_at {A} (i : Z) (x : A) (l : list A) : option (list A) :=
  if decide (0 <= i < Z.of_nat (length l)) then Some (<[Z.to_nat i := x]> l) else None.

Definition save_block (b : DictionaryBuilder) : option (list bytes * list Z) :=
  if negb (keep_current_block b) then Some (sampled_blocks b, lengths b)
  else if slot_for_current_block b =? -1 then
    Some (sampled_blocks b ++ [dict_block b], lengths b ++ [Z.of_nat (length (dict_block b))])
  else
    ls ← store_at (slot_for_current_block b) (Z.of_nat (length (dict_block b))) (lengths b);
    bs ← store_at (slot_for_current_block b) (dict_block b) (sampled_blocks b);
    Some (bs, ls).

Definition dict_flush_block (b : DictionaryBuilder) : option DictionaryBuilder :=
  '(bs, ls) ← save_block b;
  let num := u64 (block_num b + 1) in
  Some (if num <? blocks_to_keep then DICTBUILDER [] num 0 true (-1) bs ls
        else
          let idx := reservoir_rand num in
          DICTBUILDER [] num 0 (idx <? blocks_to_keep) (i64 idx) bs ls).

Definition dict_add_file (path : bytes) (b : DictionaryBuilder) : option DictionaryBuilder :=
  let block := if keep_current_block b then
                 match dict_block b with [] => path | _ => dict_block b ++ [0] ++ path end
               else dict_block b in
  let n := u64 (num_files_in_block b + 1) in
  let b := DICTBUILDER block (block_num b) n (keep_current_block b) (slot_for_current_block b) (sampled_blocks b) (lengths b) in
  if n =? block_size then dict_flush_block b else Some b.

Fixpoint dict_add_files (paths : list bytes) (b : DictionaryBuilder) : option DictionaryBuilder :=
  match paths with
  | [] => Some b
  | path :: paths => b ← dict_add_file path b; dict_add_files paths b
  end.

(** The blocks are sorted, but not their lengths. *)
Definition train (buf_size : nat) (b : DictionaryBuilder) : bytes :=
  let dictionary_buf := concat (merge_sort (not_above bytes_lt) (sampled_blocks b)) in
  default [] (zdict_train buf_size dictionary_buf (lengths b)).

(** What [main] does with the files of a run. *)
Definition build_dictionary (buf_size : nat) (paths : list bytes) : option bytes :=
  b ← dict_add_files paths new_DictionaryBuilder; Some (train buf_size b).

End Dictionary.

(** ** The sample *)

Section Sample.
Context (reservoir_rand : Z -> Z) (blocks_to_keep block_size : Z).
Context (Hrand : forall n, blocks_to_keep <= n -> 0 <= reservoir_rand n <= n).
Context (Hkeep : 0 < blocks_to_keep) (Hbs : 0 < block_size).

Abbreviation block_at blocks := (fun i => join (nth i blocks [])).

(** After the files in [blocks], which are full, and [cur]; [idxs] says which
    blocks are in the sample. *)
Record sample_inv (blocks : list (list bytes)) (cur : list bytes) (idxs : list nat) (b : DictionaryBuilder) : Prop := {
  sa_blocks : Forall (fun g => Z.of_nat (length g) = block_size) blocks;
  sa_current : Z.of_nat (length cur) < block_size;
  sa_counts : block_num b = Z.of_nat (length blocks) /\ num_files_in_block b = Z.of_nat (length cur);
  sa_block : dict_block b = if keep_current_block b then join cur else [];
  sa_nodup : NoDup idxs;
  sa_range : Forall (fun i => (i < length blocks)%nat) idxs;
  sa_sampled : sampled_blocks b = map (block_at blocks) idxs;
  sa_lengths : lengths b = map (fun s => Z.of_nat (length s)) (sampled_blocks b);
  sa_filling : Z.of_nat (length blocks) < blocks_to_keep ->
    keep_current_block b = true /\ slot_for_current_block b = -1 /\ length idxs = length blocks;
  sa_full : blocks_to_keep <= Z.of_nat (length blocks) ->
    Z.of_nat (length idxs) = blocks_to_keep /\ (keep_current_block b = true -> 0 <= slot_for_current_block b < blocks_to_keep)
}.

Lemma new_sample : sample_inv [] [] [] new_DictionaryBuilder.
Proof. split; try done; cbn; try lia; constructor. Qed.

Lemma block_at_app blocks g idxs : Forall (fun i => (i < length blocks)%nat) idxs ->
  map (block_at (blocks ++ [g])) idxs = map (block_at blocks) idxs.
Proof.
  intros F. apply map_ext_in. intros i Hi%list_elem_of_In. rewrite Forall_forall in F.
  by rewrite app_nth1 by by apply F.
Qed.

(** Saving a full block: it takes a new slot, or the one that was drawn. *)
Lemma save_block_ok blocks g idxs b : sample_inv blocks [] idxs (DICTBUILDER [] (block_num b) 0 (keep_current_block b)
    (slot_for_current_block b) (sampled_blocks b) (lengths b)) ->
  dict_block b = (if keep_current_block b then join g else []) -> exists idxs' bs ls, save_block b = Some (bs, ls) /\
  NoDup idxs' /\ Forall (fun i => (i < length (blocks ++ [g]))%nat) idxs' /\ bs = map (block_at (blocks ++ [g])) idxs' /\
  ls = map (fun s => Z.of_nat (length s)) bs /\
  Z.of_nat (length idxs') = Z.min blocks_to_keep (Z.of_nat (length (blocks ++ [g]))).
Proof.
  intros [_ _ _ _ Hn Hr Hs Hl Hfill Hfull] Hb. cbn [sampled_blocks lengths keep_current_block slot_for_current_block] in *.
  assert (Hr' : Forall (fun i => (i < length (blocks ++ [g]))%nat) idxs).
  { eapply Forall_impl; [exact Hr|]. intros i Hi. rewrite length_app. cbn [length] in *. lia. }
  assert (Hnew : nth (length blocks) (blocks ++ [g]) [] = g) by (rewrite app_nth2 by lia; by rewrite Nat.sub_diag).
  assert (Hfresh : length blocks ∉ idxs) by (intros Hin; rewrite Forall_forall in Hr; specialize (Hr _ Hin); cbn in Hr; lia).
  assert (Hlen1 : Z.of_nat (length (blocks ++ [g])) = Z.of_nat (length blocks) + 1) by (rewrite length_app; cbn [length]; lia).
  unfold save_block. destruct (keep_current_block b) eqn:Ek; cbn [negb].
  2:{ destruct (decide (Z.of_nat (length blocks) < blocks_to_keep)) as [Hlt|Hge]; [by destruct (Hfill Hlt)|].
      exists idxs, (sampled_blocks b), (lengths b). destruct Hfull as [Hlen _]; [lia|]. repeat (split; [done|]).
      split; [by rewrite Hs, block_at_app|]. split; [done|lia]. }
  destruct (slot_for_current_block b =? -1) eqn:Es.
  - assert (Hlt : Z.of_nat (length blocks) < blocks_to_keep).
    { destruct (decide (Z.of_nat (length blocks) < blocks_to_keep)) as [|Hge]; [done|].
      destruct Hfull as [_ Hslot]; [lia|]. specialize (Hslot eq_refl). lia. }
    destruct (Hfill Hlt) as (_ & _ & Hlen). exists (idxs ++ [length blocks]), (sampled_blocks b ++ [dict_block b]),
      (lengths b ++ [Z.of_nat (length (dict_block b))]). split; [done|]. split; [|split; [|split; [|split]]].
    + apply NoDup_app. split; [done|]. split; [|apply NoDup_singleton]. intros i Hi ->%list_elem_of_singleton. done.
    + apply Forall_app. split; [exact Hr'|]. apply Forall_singleton. lia.
    + rewrite List.map_app. cbn [map]. by rewrite Hnew, block_at_app, Hs, Hb by done.
    + rewrite List.map_app. cbn [map]. by rewrite Hl.
    + rewrite length_app. cbn [length]. lia.
  - assert (Hge : blocks_to_keep <= Z.of_nat (length blocks)).
    { destruct (decide (Z.of_nat (length blocks) < blocks_to_keep)) as [Hlt|]; [|lia].
      destruct (Hfill Hlt) as (_ & E & _). lia. }
    destruct (Hfull Hge) as [Hlen Hslot]. specialize (Hslot eq_refl). unfold store_at. rewrite Hl, Hs, !length_map.
    rewrite !decide_True by lia. cbn [mbind option_bind].
    set (k := Z.to_nat (slot_for_current_block b)).
    exists (<[k := length blocks]> idxs). eexists _, _. split; [reflexivity|]. split; [|split; [|split; [|split]]].
    + apply NoDup_alt. intros i j x Hi Hj. apply list_lookup_insert_Some in Hi, Hj. rewrite NoDup_alt in Hn.
      destruct Hi as [(-> & <- & _)|[Hi1 Hi2]], Hj as [(-> & E & _)|[Hj1 Hj2]]; try done.
      * apply list_elem_of_lookup_2 in Hj2. done.
      * subst x. apply list_elem_of_lookup_2 in Hi2. done.
      * by apply (Hn i j x).
    + apply Forall_insert; [exact Hr'|lia].
    + change (map (block_at (blocks ++ [g]))) with (fmap (M := list) (block_at (blocks ++ [g]))).
      rewrite list_fmap_insert. cbn beta. rewrite Hnew, Hb. f_equal. symmetry. by apply block_at_app.
    + change (map (fun s : bytes => Z.of_nat (length s))) with (fmap (M := list) (fun s : bytes => Z.of_nat (length s))).
      by rewrite list_fmap_insert.
    + rewrite length_insert. lia.
Qed.

Lemma flush_ok blocks g idxs b n : sample_inv blocks [] idxs (DICTBUILDER [] (block_num b) 0 (keep_current_block b)
    (slot_for_current_block b) (sampled_blocks b) (lengths b)) -> Z.of_nat (length g) = block_size ->
  Z.of_nat (length blocks) < 2 ^ 62 ->
  dict_block b = (if keep_current_block b then join g else []) -> exists idxs' b',
  dict_flush_block reservoir_rand blocks_to_keep
    (DICTBUILDER (dict_block b) (block_num b) n (keep_current_block b) (slot_for_current_block b) (sampled_blocks b) (lengths b)) = Some b' /\
  sample_inv (blocks ++ [g]) [] idxs' b'.
Proof.
  intros Hinv Hg Hlim Hb. destruct (save_block_ok blocks g idxs b Hinv Hb) as (idxs' & bs & ls & E & H1 & H2 & H3 & H4 & H5).
  assert (Hlen1 : Z.of_nat (length (blocks ++ [g])) = Z.of_nat (length blocks) + 1) by (rewrite length_app; cbn [length]; lia).
  exists idxs'. unfold dict_flush_block.
  change (save_block (DICTBUILDER (dict_block b) (block_num b) n (keep_current_block b) (slot_for_current_block b) (sampled_blocks b) (lengths b)))
    with (save_block b). rewrite E. cbn [mbind option_bind block_num].
  assert (Hf : Forall (fun g => Z.of_nat (length g) = block_size) (blocks ++ [g])).
  { apply Forall_app. split; [apply (sa_blocks _ _ _ _ Hinv)|by apply Forall_singleton]. }
  destruct (sa_counts _ _ _ _ Hinv) as [Hn _]. cbn [block_num] in Hn. rewrite Hn.
  change (2 ^ 62) with 4611686018427387904 in Hlim.
  rewrite u64_small by (unfold is_u64; change (2 ^ 64) with 18446744073709551616; lia).
  destruct (Z.of_nat (length blocks) + 1 <? blocks_to_keep) eqn:Ek.
  - eexists. split; [reflexivity|]. split; cbn [dict_block block_num num_files_in_block keep_current_block slot_for_current_block sampled_blocks lengths];
      try done; try lia.
  - eexists. split; [reflexivity|]. split; cbn [dict_block block_num num_files_in_block keep_current_block slot_for_current_block sampled_blocks lengths];
      try done; try lia.
    + by destruct (reservoir_rand (Z.of_nat (length blocks) + 1) <? blocks_to_keep).
    + intros _. split; [lia|]. intros Hk. pose proof (Hrand (Z.of_nat (length blocks) + 1)) as Hr.
      unfold i64. rewrite Z.mod_small by (change (2 ^ 63) with 9223372036854775808; change (2 ^ 64) with 18446744073709551616; lia).
      lia.
Qed.

Lemma dict_add_file_ok blocks cur idxs b p : sample_inv blocks cur idxs b -> path_ok p ->
  Forall path_ok cur -> Z.of_nat (length blocks) < 2 ^ 62 -> block_size < 2 ^ 63 ->
  exists blocks' cur' idxs' b', dict_add_file reservoir_rand blocks_to_keep block_size p b = Some b' /\
    sample_inv blocks' cur' idxs' b' /\ concat blocks' ++ cur' = concat blocks ++ cur ++ [p] /\ Forall path_ok cur' /\
    (length blocks' <= S (length blocks))%nat.
Proof.
  intros Hinv Hp Hcur Hlim Hmax. destruct (Hinv) as [H1 H2 [H3 H3'] H4 H5 H6 H7 H8 H9 H10].
  change (2 ^ 63) with 9223372036854775808 in Hmax.
  unfold dict_add_file. rewrite H3'. rewrite u64_small by (unfold is_u64; change (2 ^ 64) with 18446744073709551616; lia).
  set (blk := if keep_current_block b then _ else _).
  assert (Hblk : blk = if keep_current_block b then join (cur ++ [p]) else []).
  { unfold blk. rewrite H4. destruct (keep_current_block b); [|done]. destruct cur as [|q cur]; [done|].
    rewrite join_snoc by done. pose proof (join_nonempty (q :: cur)) as Hj. destruct (join (q :: cur)) eqn:Ej;
      [by destruct Hj|by rewrite <- app_assoc]. }
  assert (Hlen : Z.of_nat (length (cur ++ [p])) = Z.of_nat (length cur) + 1) by (rewrite length_app; cbn [length]; lia).
  destruct (Z.of_nat (length cur) + 1 =? block_size) eqn:E.
  - destruct (flush_ok blocks (cur ++ [p]) idxs (DICTBUILDER blk (block_num b) 0 (keep_current_block b) (slot_for_current_block b) (sampled_blocks b) (lengths b))
      (Z.of_nat (length cur) + 1)) as (idxs' & b' & E' & Hinv').
    + split; cbn [dict_block block_num num_files_in_block keep_current_block slot_for_current_block sampled_blocks lengths length]; try done.
      by case_match.
    + lia.
    + done.
    + exact Hblk.
    + exists (blocks ++ [cur ++ [p]]), [], idxs', b'. split; [exact E'|]. split; [done|]. split; [|split; [constructor|]].
      * rewrite concat_app. cbn [concat]. by rewrite !app_nil_r.
      * rewrite length_app. cbn [length]. lia.
  - exists blocks, (cur ++ [p]), idxs. eexists. split; [reflexivity|]. split; [|split; [done|split; [|lia]]].
    + split; cbn [dict_block block_num num_files_in_block keep_current_block slot_for_current_block sampled_blocks lengths]; try done; lia.
    + apply Forall_app. split; [done|by apply Forall_singleton].
Qed.

Lemma dict_add_files_ok paths : forall blocks cur idxs b, sample_inv blocks cur idxs b -> Forall path_ok paths ->
  Forall path_ok cur -> Z.of_nat (length blocks + length paths) < 2 ^ 62 -> block_size < 2 ^ 63 ->
  exists blocks' cur' idxs' b', dict_add_files reservoir_rand blocks_to_keep block_size paths b = Some b' /\
    sample_inv blocks' cur' idxs' b' /\ concat blocks' ++ cur' = concat blocks ++ cur ++ paths.
Proof.
  induction paths as [|p paths IH]; intros blocks cur idxs b Hinv F Hc Hlim Hmax.
  { exists blocks, cur, idxs, b. by rewrite app_nil_r. }
  apply Forall_cons in F as [Hp F]. cbn [length] in Hlim.
  destruct (dict_add_file_ok blocks cur idxs b p Hinv Hp Hc) as (blocks1 & cur1 & idxs1 & b1 & E & Hinv1 & Ec & Hc1 & Hl); [lia|done|].
  cbn [dict_add_files]. rewrite E. cbn [mbind option_bind].
  destruct (IH blocks1 cur1 idxs1 b1 Hinv1 F Hc1) as (blocks' & cur' & idxs' & b' & E' & Hinv' & Ec'); [lia|done|].
  exists blocks', cur', idxs', b'. split; [done|]. split; [done|]. rewrite Ec', app_assoc, Ec. by rewrite <- !app_assoc.
Qed.

End Sample.

(** C38. Reservoir sampling never writes outside its vectors, and what it has kept
    when all files are in is a sample of the full blocks of the database: as many as
    there is room for, no block twice, each as it is stored and next to its
    length, whatever the random numbers. *)
Theorem reservoir_sample reservoir_rand blocks_to_keep block_size paths
    (Hrand : forall n, blocks_to_keep <= n -> 0 <= reservoir_rand n <= n)
    (Hkeep : 0 < blocks_to_keep) (Hbs : 0 < block_size < 2 ^ 63)
    (Hpaths : Forall path_ok paths /\ Z.of_nat (length paths) < 2 ^ 62) :
  exists b blocks rest idxs, dict_add_files reservoir_rand blocks_to_keep block_size paths new_DictionaryBuilder = Some b /\
    concat blocks ++ rest = paths /\ Forall (fun g => Z.of_nat (length g) = block_size) blocks /\
    Z.of_nat (length rest) < block_size /\ NoDup idxs /\ Forall (fun i => (i < length blocks)%nat) idxs /\
    Z.of_nat (length idxs) = Z.min blocks_to_keep (Z.of_nat (length blocks)) /\
    sampled_blocks b = map (fun i => join (nth i blocks [])) idxs /\
    lengths b = map (fun s => Z.of_nat (length s)) (sampled_blocks b).
Proof.
  destruct Hpaths as [F Hlim], Hbs as [Hbs Hmax].
  destruct (dict_add_files_ok reservoir_rand blocks_to_keep block_size Hrand Hbs paths [] [] [] new_DictionaryBuilder)
    as (blocks & rest & idxs & b & E & [H1 H2 H3 H4 H5 H6 H7 H8 H9 H10] & Ec); [by apply new_sample|done|constructor|done|done|].
  exists b, blocks, rest, idxs. repeat (split; [done|]). split; [|done].
  destruct (decide (Z.of_nat (length blocks) < blocks_to_keep)) as [Hlt|Hge].
  - destruct (H9 Hlt) as (_ & _ & ->). lia.
  - destruct H10 as [-> _]; lia.
Qed.

Lemma reservoir_sample_witness : exists b blocks rest idxs,
  dict_add_files (fun n => n / 2) 2 2 (map bytes_of_string ["ab"%string; "c"%string; "x"%string; "y"%string; "d"%string; "e"%string; "f"%string])
    new_DictionaryBuilder = Some b /\
  concat blocks ++ rest = map bytes_of_string ["ab"%string; "c"%string; "x"%string; "y"%string; "d"%string; "e"%string; "f"%string] /\
  Forall (fun g => Z.of_nat (length g) = 2) blocks /\ Z.of_nat (length rest) < 2 /\ NoDup idxs /\
  Forall (fun i => (i < length blocks)%nat) idxs /\ Z.of_nat (length idxs) = Z.min 2 (Z.of_nat (length blocks)) /\
  sampled_blocks b = map (fun i => join (nth i blocks [])) idxs /\
  lengths b = map (fun s => Z.of_nat (length s)) (sampled_blocks b).
Proof.
  apply (reservoir_sample (fun n => n / 2) 2 2).
  - intros n Hn. split; [apply Z.div_pos; lia|]. apply Z.div_le_upper_bound; lia.
  - lia.
  - lia.
  - split; [apply (bool_decide_unpack _); vm_compute; exact I|vm_compute; reflexivity].
Defined.

(** Training sorts the blocks but not their lengths: the trainer is told that the
    first block, x NUL y, has four bytes, the length of the second. *)
Example lengths_not_sorted_with_blocks :
  build_dictionary (fun n => n) (fun _ s ls => Some (s ++ ls)) 2 2 1024
    (map bytes_of_string ["xy"%string; "z"%string; "a"%string; "b"%string]) =
  Some (bytes_of_string "a" ++ [0] ++ bytes_of_string "b" ++ bytes_of_string "xy" ++ [0] ++ bytes_of_string "z" ++ [4; 3]).
Proof. vm_compute. reflexivity. Qed.
