(* ===== verification/Updatedb.v ===== *)
(** * updatedb as a whole (src/updatedb.cpp)

    [main] from the old database file to the new one: open the old database, scan
    the file system against it, add this run to the history, train a dictionary
    for the next run and store everything. *)
From S2P Require Import Prelude Metadata MetadataCodec FileStat Conf DirPath RecordReader History Scan ScanOrder ScanExact ScanRuns.
From S2P Require Import PostingList Corpus DbHeader DatabaseFile Streams ExistingDB ExistingStream StoredDatabase DictBuilder.

Section Updatedb.
(** The system, the configuration after [conf_prepare], bind mounts and hashing. *)
Context (os : OS) (conf : Config) (is_bind_mount fs_allows_hashing : bytes -> bool)
  (compute_file_hash_at : bytes -> bytes -> MetadataHashKind -> option MetadataHash) (group_known : bool).
(** Compression, decompression, the random numbers and the training of dictionaries. *)
Context (zstd_compress : bytes -> bytes -> bytes) (zstd_compress_history : bytes -> bytes)
  (zstd_content_size : bytes -> option Z) (zstd_decompress : option bytes -> bytes -> Z -> option bytes).
Context {C D : Type} `{!StreamCompressor C} `{!StreamDecompressor D} (new_c : C) (new_d : D).
Context (reservoir_rand : Z -> Z) (zdict_train : nat -> bytes -> list Z -> option bytes).
(** The stack buffers of the encoder, what the header holds before it is read,
    and the turns of the loops. *)
Context (buf1 buf : bytes) (indeterminate : Header) (fuel prime_fuel turns reads depth : nat).

(** What follows the scan, with the history of the old database. *)
Definition finish_run (w : World) (baseline_run : bool) (dictionary : bytes) (previous : list HistoryEvent) : option bytes :=
  let now := stat_time (os_clock_gettime os (ticks w)) in
  let events := run_history (conf_history_depth conf) baseline_run now previous (default [] (history_events w)) in
  next_dictionary ← build_dictionary reservoir_rand zdict_train 1000 (conf_block_size conf) 1024 (map fr_path (added w));
  store_database zstd_compress zstd_compress_history new_c buf1 buf fuel prime_fuel (conf_block_size conf)
    (conf_check_visibility conf) dictionary (gen_conf_block conf) (added w) events next_dictionary.

(** What the scan starts with: the device and the timestamp of the root, whether
    its files may be hashed, and the world; [None] if it cannot be opened. *)
Definition start_run (root : bytes) (baseline_run : bool) : option (Z * dir_time * bool * World) :=
  let '(failed, w) := opendir_noatime os root (WORLD 0 unknown_dir_time false [] None) in
  match failed, os_fstat os root with
  | Some _, _ | _, None => None
  | None, Some buf_ =>
    let sink := if (conf_history_depth conf =? 0) || baseline_run then None else Some [] in
    let root_hash_allowed := bool_decide (conf_metadata_hash_kind conf = HkNone) || fs_allows_hashing root in
    let '(modified, w) := get_dirtime_from_stat os buf_ w in
    Some (st_dev buf_, modified, root_hash_allowed, WORLD (ticks w) (time_cache w) (noatime_failed w) (added w) sink)
  end.

(** [None]: the program crashes, or the fuel of a loop runs out. *)
Definition main (old : option bytes) : option (Outcome bytes) :=
  let existing_db := new_ExistingDB new_d (gen_conf_block conf) indeterminate old in
  if conf_check_visibility conf && negb group_known then Some Exit1
  else
    let dictionary := read_next_dictionary existing_db in
    root ← conf_scan_root conf;
    let baseline_run := get_error (RecordReader := existing_reader zstd_content_size zstd_decompress turns) existing_db in
    match start_run root baseline_run with
    | None => Some Exit1
    | Some (dev, modified, root_hash_allowed, w) =>
      match scan (RecordReader0 := existing_reader zstd_content_size zstd_decompress turns) os conf is_bind_mount
              fs_allows_hashing compute_file_hash_at reads depth root dev modified unknown_dir_time root_hash_allowed
              (STATE existing_db 0 w) with
      | Done st =>
        previous ← (if 1 <? conf_history_depth conf then read_history_events new_d turns (Scan.existing_db st) else Some []);
        file ← finish_run (world st) baseline_run dictionary previous;
        Some (Done file)
      | Exit1 => Some Exit1
      | OutOfFuel => None
      end
    end.

(** ** Specification *)

(** The same with a scan that reads every directory and looks the old records up
    by their paths. *)
Definition main_spec (old : list FileRecord) (baseline_run : bool) (dictionary : bytes) (previous : list HistoryEvent)
    : option (Outcome bytes) :=
  if conf_check_visibility conf && negb group_known then Some Exit1
  else
    root ← conf_scan_root conf;
    match start_run root baseline_run with
    | None => Some Exit1
    | Some (dev, _, root_hash_allowed, w) =>
      match full_scan os conf is_bind_mount fs_allows_hashing compute_file_hash_at old depth root dev root_hash_allowed w with
      | Done w => file ← finish_run w baseline_run dictionary previous; Some (Done file)
      | Exit1 => Some Exit1
      | OutOfFuel => None
      end
    end.

End Updatedb.

(** ** What the scan leaves of the old database *)

Section Keeps.
Context (zstd_content_size : bytes -> option Z) (zstd_decompress : option bytes -> bytes -> Z -> option bytes).
Context {D : Type} `{!StreamDecompressor D} (turns : nat).

#[local] Instance reader : RecordReader (ExistingDB (D := D)) := existing_reader zstd_content_size zstd_decompress turns.

Lemma read_next_keeps db r : read_next_record zstd_content_size zstd_decompress turns db = Some r ->
  fd (snd r) = fd db /\ hdr (snd r) = hdr db.
Proof.
  unfold read_next_record. case_decide; [by intros [= <-]|]. destruct (eof db || error db); [by intros [= <-]|].
  destruct (fd db) as [file|] eqn:Ef; cbn [mbind option_bind]; [|done]. unfold current_names.
  destruct (current_filename db) as [names|]; [|destruct (num_docids (hdr db) <=? current_docid db); [by intros [= <-]|]];
    [cbn [mbind option_bind]|destruct (load_block _ _ _ _ _ _) as [[names|]|]; cbn [mbind option_bind]; [|by intros [= <-]|done]];
    (destruct (dir_time_loop _ _ _ _) as [[d|]|]; cbn [mbind option_bind]; [|by intros [= <-]|done]);
    (unfold deliver; rewrite Ef; destruct (ShowdiffDb.span_nul names) as [w [rest|]]; cbn [mbind option_bind]; [|done]);
    (destruct (take_dir_time _) as [[dt s]|]; cbn [mbind option_bind]; [|done]);
    (destruct (decide (w = [])) as [|]; [|destruct (read_next_metadata_record _ _ _ _); [|done]]; cbn [mbind option_bind];
      by intros [= <-]).
Qed.

Lemma reader_keeps f h db : fd db = f /\ hdr db = h ->
  fd (snd (read_next (R := ExistingDB) db)) = f /\ hdr (snd (read_next (R := ExistingDB) db)) = h.
Proof.
  intros [<- <-]. cbn [read_next reader existing_reader].
  destruct (read_next_record zstd_content_size zstd_decompress turns db) as [r|] eqn:E; [|done].
  cbn [default from_option id]. by apply (read_next_keeps db r).
Qed.

(** An old database that cannot be used has no records, and says so. *)
Definition unusable_stream (db : ExistingDB (D := D)) (l : list FileRecord) (err : bool) : Prop :=
  l = [] /\ err = true /\ error db = true /\ fst (unread_record (unread_ db)) = [].

Lemma unusable_delivers : RecordStream (ExistingDB (D := D)) unusable_stream.
Proof.
  split; try by intros db x l err [? _].
  intros db err (_ & -> & He & Hu). exists db. cbn [read_next reader existing_reader]. unfold read_next_record.
  rewrite Hu, He, orb_true_r. by rewrite decide_False by (by intros ?).
Qed.

End Keeps.

(** ** The run against its specification *)

Lemma run_setting_other {R1 R2} `{!RecordReader R1} `{!RecordReader R2} (s1 : R1 -> list FileRecord -> bool -> Prop)
    (s2 : R2 -> list FileRecord -> bool -> Prop) os conf old err err2 db1 db2 reads depth root :
  run_setting s1 os conf old err db1 reads depth root -> (err2 = err \/ old = []) -> s2 db2 old err2 ->
  run_setting s2 os conf old err2 db2 reads depth root.
Proof.
  intros [H1 H2 H3 H4 H5 H6 H7 H8 H9] He Hs. split; try done. destruct He as [-> | ->]; [done|].
  intros r buf Hr. by apply not_elem_of_nil in Hr.
Qed.

Section Run.
Context (os : OS) (conf : Config) (is_bind_mount fs_allows_hashing : bytes -> bool)
  (compute_file_hash_at : bytes -> bytes -> MetadataHashKind -> option MetadataHash) (group_known : bool).
Context (zstd_compress : bytes -> bytes -> bytes) (zstd_compress_history : bytes -> bytes)
  (zstd_content_size : bytes -> option Z) (zstd_decompress : option bytes -> bytes -> Z -> option bytes).
Context {C D : Type} `{!StreamCompressor C} `{!StreamDecompressor D} (new_c : C) (new_d : D).
Context (reservoir_rand : Z -> Z) (zdict_train : nat -> bytes -> list Z -> option bytes).
Context (buf1 buf : bytes) (indeterminate : Header) (fuel prime_fuel turns reads depth : nat).

#[local] Instance run_reader : RecordReader (ExistingDB (D := D)) := existing_reader zstd_content_size zstd_decompress turns.

Lemma main_is_spec stream `{!RecordStream (ExistingDB (D := D)) stream} old file err root previous :
  let db := new_ExistingDB new_d (gen_conf_block conf) indeterminate file in
  run_setting stream os conf old err db reads depth root -> conf_scan_root conf = Some root -> error db = err ->
  (forall db' l, stream db' l err -> 1 < conf_history_depth conf -> read_history_events new_d turns db' = Some previous) ->
  main os conf is_bind_mount fs_allows_hashing compute_file_hash_at group_known zstd_compress zstd_compress_history
    zstd_content_size zstd_decompress new_c new_d reservoir_rand zdict_train buf1 buf indeterminate fuel prime_fuel turns
    reads depth file =
  main_spec os conf is_bind_mount fs_allows_hashing compute_file_hash_at group_known zstd_compress zstd_compress_history
    new_c reservoir_rand zdict_train buf1 buf fuel prime_fuel depth old err (read_next_dictionary db) previous.
Proof.
  intros db Hset Hroot Herr Hprev. unfold main, main_spec. fold db. destruct (conf_check_visibility conf && negb group_known); [done|].
  rewrite Hroot. cbn [mbind option_bind get_error existing_reader]. rewrite Herr.
  destruct (start_run os conf fs_allows_hashing root err) as [[[[dev modified] ha] w]|]; [|done].
  pose proof (scan_is_full_scan os conf is_bind_mount fs_allows_hashing compute_file_hash_at stream old err db reads depth
    root dev modified ha w Hset) as Hs.
  destruct (full_scan _ _ _ _ _ _ _ _ _ _ _) as [w'| |]; [|unfold run_reader in Hs; by rewrite Hs|done].
  destruct Hs as (db' & idx' & E & l & Hl). unfold run_reader in E. rewrite E. cbn [Scan.existing_db world].
  destruct (1 <? conf_history_depth conf) eqn:Ed.
  - rewrite (Hprev db' l Hl) by lia. done.
  - cbn [mbind option_bind]. unfold finish_run, run_history. by rewrite Ed.
Qed.

End Run.

(** ** Correctness *)

Lemma gen_conf_block_nonempty conf : gen_conf_block conf <> [].
Proof. unfold gen_conf_block. intros H. by apply (f_equal length) in H. Qed.

(** C2. A run of updatedb from file to file: over the database that the last run
    stored with the same configuration, [main] stores what a scan would give that
    reads every directory and looks the old records up by path, although it
    reads the old file piece by piece in one pass; the names are compressed with
    the dictionary that the last run trained, and the runs of the last database come
    before this one in the history.  As for [ScanRuns.incremental_scan_exact] it is
    assumed that timestamps can be trusted: a directory that still has the timestamp of
    its record has the names and types that are recorded.  Where the last run could not open a
    directory this fails, and the directory stays empty although it could be read now
    (see [ScanRuns.unopened_directory_stays_empty]).  It is assumed, too, that the records of the last
    run are of the same tree and in the order of updatedb, fewer than 2^24, that [readdir] names no
    entry twice, that the pruned paths are sorted, and that the fuel covers the records and
    the depth of the tree. *)
Theorem updatedb_run_exact {C D} `{Codec : StreamCodec C D new_c new_d} os conf is_bind_mount fs_allows_hashing
    compute_file_hash_at group_known zstd_compress zstd_compress_history zstd_content_size zstd_decompress reservoir_rand
    zdict_train buf1 buf fuel prime_fuel reads depth root dictionary records events next_dict file
    (Hzstd : compression_ok zstd_compress zstd_compress_history zstd_content_size zstd_decompress)
    (Hbufs : length buf1 = P4NENC_BOUND 1 /\ length buf = P4NENC_BOUND 128 /\ Forall is_byte buf)
    (Hbs : 0 < conf_block_size conf)
    (Hrecords : Forall (fun r => record_ok r /\ Z.of_nat (length (fr_path r)) < 2 ^ 32) records)
    (Hcount : Z.of_nat (length records) < 2 ^ 24)
    (Hstore : store_database zstd_compress zstd_compress_history new_c buf1 buf fuel prime_fuel (conf_block_size conf)
       (conf_check_visibility conf) dictionary (gen_conf_block conf) records events next_dict = Some file)
    (Hsizes : Z.of_nat (length file) < 2 ^ 36 /\ Z.of_nat (length dictionary) < 2 ^ 32)
    (Hevents : Forall event_wf events) (Hroot : conf_scan_root conf = Some root)
    (Hset : run_setting list_stream os conf records false (records, empty_metadata) reads depth root) :
  exists turns0, forall turns indeterminate, (turns0 <= turns)%nat ->
    main os conf is_bind_mount fs_allows_hashing compute_file_hash_at group_known zstd_compress zstd_compress_history
      zstd_content_size zstd_decompress new_c new_d reservoir_rand zdict_train buf1 buf indeterminate fuel prime_fuel turns
      reads depth (Some file) =
    main_spec os conf is_bind_mount fs_allows_hashing compute_file_hash_at group_known zstd_compress zstd_compress_history
      new_c reservoir_rand zdict_train buf1 buf fuel prime_fuel depth records false
      (if 1048576 <? Z.of_nat (length next_dict) then [] else next_dict) (add_run_marker (map norm_event events)).
Proof.
  destruct Hsizes as [H1 H2].
  destruct (stored_stream zstd_compress zstd_compress_history zstd_content_size zstd_decompress Hzstd buf1 buf fuel prime_fuel
    (conf_block_size conf) (conf_check_visibility conf) dictionary (gen_conf_block conf) records events next_dict file Hbufs Hbs
    Hrecords Hcount Hstore H1 H2 (gen_conf_block_nonempty conf) Hevents) as (h & ddict_ & groups & turns0 & Hb & H).
  exists turns0. intros turns indeterminate Ht. destruct (H turns indeterminate Ht) as (Hs & Hf & Hh & <- & Hprev).
  set (stream := fun (db : ExistingDB (D := D)) l err => existing_stream turns file h ddict_ groups db l err /\ (fd db = Some file /\ hdr db = h)).
  assert (Hd : @RecordStream _ (existing_reader zstd_content_size zstd_decompress turns) stream).
  { apply stream_with; [by apply existing_delivers|apply reader_keeps|done]. }
  eapply (main_is_spec _ _ _ _ _ _ _ _ _ _ _ _ _ _ _ _ _ _ _ _ _ _ stream records (Some file) false root).
  - eapply run_setting_other; [exact Hset|by left|]. by split.
  - done.
  - destruct Hs as [[_ Hr]|(? & ? & _ & Hr & _)]; apply Hr.
  - intros db' l [_ [Hf' Hh']] _. unfold read_history_events in *. by rewrite Hf', Hh', <- Hf, <- Hh.
Qed.

(** C36. The first run, or one whose old database cannot be used: a full scan that
    records no events, only the marker of a baseline, which comes behind what is left of
    the history.  With more than one run in the history it is assumed that the old history can be read (or is found to be empty): on a
    first run its length and position are what the memory of the header happened to hold
    (see [StoredDatabase.first_run_history_length_is_indeterminate]). *)
Theorem baseline_run_exact {C D} `{!StreamCompressor C} `{!StreamDecompressor D} (new_c : C) (new_d : D) os conf is_bind_mount
    fs_allows_hashing compute_file_hash_at group_known zstd_compress zstd_compress_history zstd_content_size zstd_decompress
    reservoir_rand zdict_train buf1 buf fuel prime_fuel turns reads depth root indeterminate old previous
    (Hroot : conf_scan_root conf = Some root)
    (Hset : run_setting list_stream os conf [] false ([], empty_metadata) reads depth root)
    (Herror : error (new_ExistingDB new_d (gen_conf_block conf) indeterminate old) = true)
    (Hprevious : 1 < conf_history_depth conf ->
       read_history_events new_d turns (new_ExistingDB new_d (gen_conf_block conf) indeterminate old) = Some previous) :
  main os conf is_bind_mount fs_allows_hashing compute_file_hash_at group_known zstd_compress zstd_compress_history
    zstd_content_size zstd_decompress new_c new_d reservoir_rand zdict_train buf1 buf indeterminate fuel prime_fuel turns
    reads depth old =
  main_spec os conf is_bind_mount fs_allows_hashing compute_file_hash_at group_known zstd_compress zstd_compress_history
    new_c reservoir_rand zdict_train buf1 buf fuel prime_fuel depth [] true
    (read_next_dictionary (new_ExistingDB new_d (gen_conf_block conf) indeterminate old)) previous.
Proof.
  set (db := new_ExistingDB _ _ _ _) in *.
  set (stream := fun (d : ExistingDB (D := D)) l err => unusable_stream d l err /\ (fd d = fd db /\ hdr d = hdr db)).
  assert (Hd : @RecordStream _ (existing_reader zstd_content_size zstd_decompress turns) stream).
  { apply stream_with; [apply unusable_delivers|apply reader_keeps|done]. }
  eapply (main_is_spec _ _ _ _ _ _ _ _ _ _ _ _ _ _ _ _ _ _ _ _ _ _ stream [] old true root).
  - eapply run_setting_other; [exact Hset|by right|]. split; [|done]. repeat split; [done|].
    unfold new_ExistingDB. by repeat case_match.
  - done.
  - done.
  - intros db' l [_ [Hf Hh]] Hdepth. rewrite <- (Hprevious Hdepth). unfold read_history_events. by rewrite Hf, Hh.
Qed.

(** ** Two runs *)

Definition updatedb_conf : Config := set_history_depth 5 (set_scan_root (Some (str "/")) initial_config).

Definition updatedb_os : OS := {|
  os_openat := os_openat sample_os;
  os_readdir := os_readdir sample_os;
  os_fstatat := os_fstatat sample_os;
  os_fstat p := if decide (p = str "/") then Some dir_stat else os_fstat sample_os p;
  os_mounts := None;
  os_gettimeofday := os_gettimeofday sample_os;
  os_clock_gettime := os_clock_gettime sample_os
|}.

Lemma updatedb_setting old : (old = sample_old \/ old = []) ->
  run_setting list_stream updatedb_os updatedb_conf old false (old, empty_metadata) 9 3 (str "/").
Proof.
  destruct sample_setting as [H1 H2 H3 H4 H5 H6 H7 H8 H9]. intros [-> | ->].
  - split; try done. intros r buf Hr Hs. apply (H2 r buf Hr). cbn [os_fstat updatedb_os] in Hs. case_decide as E; [|exact Hs].
    exfalso. revert E. clear -Hr. repeat (apply elem_of_cons in Hr as [->|Hr]; [by vm_compute|]). by apply not_elem_of_nil in Hr.
  - split; try done.
    + intros r buf Hr. by apply not_elem_of_nil in Hr.
    + exists []. split; [done|]. split; [split; constructor|]. intros g Hg. by apply not_elem_of_nil in Hg.
    + cbn. lia.
Qed.

Definition run_main (old : option bytes) (turns : nat) (indeterminate : Header) : option (Outcome bytes) :=
  main updatedb_os updatedb_conf (fun _ => false) (fun _ => true) no_hash true mark_block (fun b => b) marked_size unmark_block
    () () (fun n => n / 2) (fun _ s _ => Some (take 5 s)) (repeat 0 133) (repeat 0 641) indeterminate 20 200 turns 9 3 old.

Definition run_spec (old : list FileRecord) (baseline : bool) (dictionary : bytes) (previous : list HistoryEvent)
    : option (Outcome bytes) :=
  main_spec updatedb_os updatedb_conf (fun _ => false) (fun _ => true) no_hash true mark_block (fun b => b)
    () (fun n => n / 2) (fun _ s _ => Some (take 5 s)) (repeat 0 133) (repeat 0 641) 20 200 3 old baseline dictionary previous.

Lemma baseline_run_exact_witness : run_main None 10 sample_header = run_spec [] true [] [].
Proof.
  apply (baseline_run_exact () () updatedb_os updatedb_conf (fun _ => false) (fun _ => true) no_hash true mark_block (fun b => b)
    marked_size unmark_block (fun n => n / 2) (fun _ s _ => Some (take 5 s)) (repeat 0 133) (repeat 0 641) 20 200 10 9 3
    (str "/") sample_header None []).
  - reflexivity.
  - apply updatedb_setting. by right.
  - reflexivity.
  - intros _. vm_compute. reflexivity.
Defined.

(** The database of the last run. *)
Definition last_run : option bytes :=
  store_database mark_block (fun b => b) () (repeat 0 133) (repeat 0 641) 20 200 (conf_block_size updatedb_conf)
    (conf_check_visibility updatedb_conf) [] (gen_conf_block updatedb_conf) sample_old sample_events [1; 2].

Definition last_file : bytes := default [] last_run.

Lemma stat_metadata_wf st : st = dir_stat \/ st = file_stat -> metadata_wf (metadata_from_stat st).
Proof.
  intros [-> | ->]; unfold metadata_wf, dir_time_wf, hash_wf, is_u32, is_u64, is_i32, is_i64;
    repeat match goal with |- _ /\ _ => split end; try done; try (vm_compute; congruence);
    try (apply (bool_decide_unpack _); vm_compute; exact I); cbn; lia.
Qed.

Lemma sample_old_ok : Forall (fun r => record_ok r /\ Z.of_nat (length (fr_path r)) < 2 ^ 32) sample_old.
Proof.
  assert (H : forall p dt m, path_ok p -> Z.of_nat (length p) < 2 ^ 32 -> dir_time_wf dt -> (dt_sec dt = -1 -> dt = not_a_dir) ->
    metadata_wf m -> norm_metadata m = m -> record_ok (Record_ p dt m) /\ Z.of_nat (length p) < 2 ^ 32).
  { intros p dt m H1 H2 H3 H4 H5 H6. split; [|done]. by split. }
  unfold sample_old, records, sample_groups. cbn [map concat app fst snd].
  repeat (apply Forall_cons_2; [apply H;
    [apply (bool_decide_unpack _); vm_compute; exact I|vm_compute; reflexivity|split; split; vm_compute; congruence|done
    |apply empty_metadata_wf || (apply stat_metadata_wf; by left) || (apply stat_metadata_wf; by right)|reflexivity]|]).
  apply Forall_nil_2.
Qed.

Lemma updatedb_run_exact_witness : exists turns0, forall turns indeterminate, (turns0 <= turns)%nat ->
  run_main (Some last_file) turns indeterminate =
  run_spec sample_old false (if 1048576 <? Z.of_nat (length [1; 2]) then [] else [1; 2]) (add_run_marker (map norm_event sample_events)).
Proof.
  unfold run_main, run_spec.
  apply (updatedb_run_exact (new_c := ()) (new_d := ()) updatedb_os updatedb_conf (fun _ => false) (fun _ => true) no_hash true
    mark_block (fun b => b) marked_size unmark_block (fun n => n / 2) (fun _ s _ => Some (take 5 s)) (repeat 0 133)
    (repeat 0 641) 20 200 9 3 (str "/") [] sample_old sample_events [1; 2] last_file).
  - exact marked_ok.
  - split; [done|]. split; [done|]. apply (bool_decide_unpack _). vm_compute. exact I.
  - reflexivity.
  - exact sample_old_ok.
  - vm_compute. reflexivity.
  - vm_compute. reflexivity.
  - split; vm_compute; reflexivity.
  - exact sample_events_ok.
  - reflexivity.
  - apply updatedb_setting. by left.
Defined.

(** The second run stores a file, and the new history has the runs of the first. *)
Example second_run_stores_a_file : exists file, run_main (Some last_file) 3000 sample_header = Some (Done file) /\
  run_main (Some last_file) 3000 sample_header = run_spec sample_old false [1; 2] sample_events.
Proof. eexists. split; vm_compute; reflexivity. Qed.
