(* ===== verification/MetadataHash.v ===== *)
(** * Hashing file contents (src/metadata_hash.cpp)

    XXH64 and SHA-256 over the pieces of a file as [read] returns them, the choice
    of the files to hash, and the file systems below which nothing is hashed.  The
    streaming states are shown to depend only on the bytes, not on the pieces.  SHA-256
    comes out as the standard has it; XXH64 is defined here a second time, from its
    specification, and [digest] agrees with it unless eight or more bytes are left after
    the last stripe of 32, where the code leaves out a rotation. *)
From S2P Require Import Prelude Metadata FileStat.

(** ** Words *)

Definition rotl64 (value : Z) (bits : Z) : Z := u64 (Z.lor (Z.shiftl value bits) (Z.shiftr value (64 - bits))).

Definition rotr32 (value : Z) (bits : Z) : Z := u32 (Z.lor (Z.shiftr value bits) (Z.shiftl value (32 - bits))).

(** On a little-endian machine; [s] has the bytes from the pointer on. *)
Definition read64 (s : bytes) : Z := le_val (take 8 s).

Definition read32 (s : bytes) : Z := le_val (take 4 s).

(** ** XXH64 *)

Definition Prime1 : Z := 11400714785074694791.
Definition Prime2 : Z := 14029467366897019727.
Definition Prime3 : Z := 1609587929392839161.
Definition Prime4 : Z := 9650029242287828579.
Definition Prime5 : Z := 2870177450012600261.

(** [memory] are the first [memsize] bytes of the buffer. *)
Record XxHash64State := XXH64 {
  xxh_total_len : Z;
  v1 : Z;
  v2 : Z;
  v3 : Z;
  v4 : Z;
  memory : bytes
}.

Definition xxhash_round (acc input : Z) : Z :=
  let acc := u64 (acc + u64 (input * Prime2)) in
  let acc := rotl64 acc 31 in
  u64 (acc * Prime1).

Definition xxhash_merge_round (acc val : Z) : Z :=
  let val := xxhash_round 0 val in
  let acc := Z.lxor acc val in
  u64 (u64 (acc * Prime1) + Prime4).

Definition xxh_reset (seed : Z) : XxHash64State :=
  XXH64 0 (u64 (seed + Prime1 + Prime2)) (u64 (seed + Prime2)) seed (u64 (seed - Prime1)) [].

(** The four lanes take eight bytes each. *)
Definition xxh_stripe (s : XxHash64State) (p : bytes) : XxHash64State :=
  XXH64 (xxh_total_len s) (xxhash_round (v1 s) (read64 p)) (xxhash_round (v2 s) (read64 (drop 8 p)))
    (xxhash_round (v3 s) (read64 (drop 16 p))) (xxhash_round (v4 s) (read64 (drop 24 p))) (memory s).

(** [while (p <= limit)]; what is left goes to the buffer. *)
Fixpoint xxh_stripes (fuel : nat) (s : XxHash64State) (p : bytes) : option XxHash64State :=
  if decide (length p < 32)%nat then Some (XXH64 (xxh_total_len s) (v1 s) (v2 s) (v3 s) (v4 s) p)
  else match fuel with O => None | S fuel => xxh_stripes fuel (xxh_stripe s (take 32 p)) (drop 32 p) end.

(** The fuel is the number of bytes; see [xxh_consume_after]. *)
Definition xxh_consume (s : XxHash64State) (data : bytes) : option XxHash64State :=
  let s := XXH64 (u64 (xxh_total_len s + Z.of_nat (length data))) (v1 s) (v2 s) (v3 s) (v4 s) (memory s) in
  if decide (length (memory s) + length data < 32)%nat then
    Some (XXH64 (xxh_total_len s) (v1 s) (v2 s) (v3 s) (v4 s) (memory s ++ data))
  else if decide (memory s = []) then xxh_stripes (length data) s data
  else
    let fill := (32 - length (memory s))%nat in
    xxh_stripes (length data) (xxh_stripe s (memory s ++ take fill data)) (drop fill data).

Fixpoint xxh_tail8 (fuel : nat) (hash : Z) (p : bytes) : Z * bytes :=
  if decide (length p < 8)%nat then (hash, p)
  else
    match fuel with
    | O => (hash, p)
    | S fuel =>
      let hash := Z.lxor hash (u64 (rotl64 (u64 (read64 p * Prime2)) 31 * Prime1)) in
      xxh_tail8 fuel (u64 (u64 (hash * Prime1) + Prime4)) (drop 8 p)
    end.

Fixpoint xxh_tail1 (hash : Z) (p : bytes) : Z :=
  match p with
  | [] => hash
  | b :: p => xxh_tail1 (u64 (rotl64 (Z.lxor hash (u64 (b * Prime5))) 11 * Prime1)) p
  end.

Definition xxh_digest (s : XxHash64State) : Z :=
  let hash :=
    if 32 <=? xxh_total_len s then
      let hash := u64 (rotl64 (v1 s) 1 + rotl64 (v2 s) 7 + rotl64 (v3 s) 12 + rotl64 (v4 s) 18) in
      xxhash_merge_round (xxhash_merge_round (xxhash_merge_round (xxhash_merge_round hash (v1 s)) (v2 s)) (v3 s)) (v4 s)
    else Prime5 in
  let hash := u64 (hash + xxh_total_len s) in
  let '(hash, p) := xxh_tail8 (length (memory s)) hash (memory s) in
  let '(hash, p) :=
    if decide (length p < 4)%nat then (hash, p)
    else (u64 (u64 (rotl64 (Z.lxor hash (u64 (read32 p * Prime1))) 23 * Prime2) + Prime3), drop 4 p) in
  let hash := xxh_tail1 hash p in
  let hash := Z.lxor hash (Z.shiftr hash 33) in
  let hash := u64 (hash * Prime2) in
  let hash := Z.lxor hash (Z.shiftr hash 29) in
  let hash := u64 (hash * Prime3) in
  Z.lxor hash (Z.shiftr hash 32).

(** ** SHA-256 *)

Definition sha256_k : list Z :=
  [1116352408; 1899447441; 3049323471; 3921009573; 961987163; 1508970993; 2453635748; 2870763221;
   3624381080; 310598401; 607225278; 1426881987; 1925078388; 2162078206; 2614888103; 3248222580;
   3835390401; 4022224774; 264347078; 604807628; 770255983; 1249150122; 1555081692; 1996064986;
   2554220882; 2821834349; 2952996808; 3210313671; 3336571891; 3584528711; 113926993; 338241895;
   666307205; 773529912; 1294757372; 1396182291; 1695183700; 1986661051; 2177026350; 2456956037;
   2730485921; 2820302411; 3259730800; 3345764771; 3516065817; 3600352804; 4094571909; 275423344;
   430227734; 506948616; 659060556; 883997877; 958139571; 1322822218; 1537002063; 1747873779;
   1955562222; 2024104815; 2227730452; 2361852424; 2428436474; 2756734187; 3204031479; 3329325298].

(** The hash [h], and the first [buffer_len] bytes of the buffer. *)
Record Sha256State := SHA256 {
  sha_h : list Z;
  sha_total_len : Z;
  sha_buffer : bytes
}.

Definition sha_initial_h : list Z :=
  [1779033703; 3144134277; 1013904242; 2773480762; 1359893119; 2600822924; 528734635; 1541459225].

Definition sha_reset : Sha256State := SHA256 sha_initial_h 0 [].

(** The words of a block, most significant byte first. *)
Fixpoint block_words (block : bytes) : list Z :=
  match block with
  | b0 :: b1 :: b2 :: b3 :: block =>
    Z.lor (Z.lor (Z.lor (Z.shiftl b0 24) (Z.shiftl b1 16)) (Z.shiftl b2 8)) b3 :: block_words block
  | _ => []
  end.

(** [w] from the index [length w] on. *)
Fixpoint schedule (n : nat) (w : list Z) : list Z :=
  match n with
  | O => w
  | S n =>
    let at_ k := nth (length w - k) w 0 in
    let s0 := Z.lxor (Z.lxor (rotr32 (at_ 15%nat) 7) (rotr32 (at_ 15%nat) 18)) (Z.shiftr (at_ 15%nat) 3) in
    let s1 := Z.lxor (Z.lxor (rotr32 (at_ 2%nat) 17) (rotr32 (at_ 2%nat) 19)) (Z.shiftr (at_ 2%nat) 10) in
    schedule n (w ++ [u32 (at_ 16%nat + s0 + at_ 7%nat + s1)])
  end.

(** One round on the working variables [a] to [hval]. *)
Definition sha_round (v : list Z) (kw : Z * Z) : list Z :=
  match v with
  | [a; b; c; d; e; f; g; hval] =>
    let s1 := Z.lxor (Z.lxor (rotr32 e 6) (rotr32 e 11)) (rotr32 e 25) in
    let ch := Z.lxor (Z.land e f) (Z.land (u32 (Z.lnot e)) g) in
    let temp1 := u32 (hval + s1 + ch + fst kw + snd kw) in
    let s0 := Z.lxor (Z.lxor (rotr32 a 2) (rotr32 a 13)) (rotr32 a 22) in
    let maj := Z.lxor (Z.lxor (Z.land a b) (Z.land a c)) (Z.land b c) in
    let temp2 := u32 (s0 + maj) in
    [u32 (temp1 + temp2); a; b; c; u32 (d + temp1); e; f; g]
  | _ => v
  end.

Definition process_block (h : list Z) (block : bytes) : list Z :=
  let w := schedule 48 (block_words block) in
  map (fun '(x, y) => u32 (x + y)) (combine h (fold_left sha_round (combine sha256_k w) h)).

(** [while (len >= 64)]; what is left goes to the buffer. *)
Fixpoint sha_blocks (fuel : nat) (s : Sha256State) (p : bytes) : option Sha256State :=
  if decide (length p < 64)%nat then Some match p with [] => s | _ => SHA256 (sha_h s) (sha_total_len s) p end
  else
    match fuel with
    | O => None
    | S fuel => sha_blocks fuel (SHA256 (process_block (sha_h s) (take 64 p)) (sha_total_len s) (sha_buffer s)) (drop 64 p)
    end.

(** If the buffer is not full after taking from the data, nothing is left. *)
Definition sha_consume (s : Sha256State) (data : bytes) : option Sha256State :=
  let s := SHA256 (sha_h s) (u64 (sha_total_len s + Z.of_nat (length data))) (sha_buffer s) in
  if decide (sha_buffer s = []) then sha_blocks (length data) s data
  else
    let fill := Nat.min (64 - length (sha_buffer s)) (length data) in
    let buffer := sha_buffer s ++ take fill data in
    let s := if (length buffer =? 64)%nat then SHA256 (process_block (sha_h s) buffer) (sha_total_len s) []
             else SHA256 (sha_h s) (sha_total_len s) buffer in
    sha_blocks (length data) s (drop fill data).

Definition be_word (w : Z) : bytes := [u8 (Z.shiftr w 24); u8 (Z.shiftr w 16); u8 (Z.shiftr w 8); u8 w].

Definition be_bit_len (bit_len : Z) : bytes :=
  map (fun i => u8 (Z.land (Z.shiftr bit_len (i * 8)) 255)) [7; 6; 5; 4; 3; 2; 1; 0].

Definition sha_finalize (s : Sha256State) : bytes :=
  let bit_len := u64 (sha_total_len s * 8) in
  let buffer := sha_buffer s ++ [128] in
  let '(h, buffer) :=
    if decide (56 < length buffer)%nat then (process_block (sha_h s) (buffer ++ replicate (64 - length buffer) 0), [])
    else (sha_h s, buffer) in
  let buffer := buffer ++ replicate (56 - length buffer) 0 ++ be_bit_len bit_len in
  concat (map be_word (process_block h buffer)).

(** ** The builder *)

Inductive BuilderState :=
| XxhBuilder (s : XxHash64State)
| ShaBuilder (s : Sha256State)
| OtherBuilder.

Definition new_MetadataHashBuilder (kind : MetadataHashKind) : BuilderState :=
  match kind with
  | HkXxHash64 => XxhBuilder (xxh_reset 0)
  | HkSha256 => ShaBuilder sha_reset
  | _ => OtherBuilder
  end.

Definition update (b : BuilderState) (data : bytes) : option BuilderState :=
  match b, data with
  | b, [] => Some b
  | XxhBuilder s, _ => s ← xxh_consume s data; Some (XxhBuilder s)
  | ShaBuilder s, _ => s ← sha_consume s data; Some (ShaBuilder s)
  | OtherBuilder, _ => Some OtherBuilder
  end.

(** The digest fills the front of the 32 bytes of [value]. *)
Definition finalize (b : BuilderState) : MetadataHash :=
  match b with
  | XxhBuilder s =>
    let value := xxh_digest s in
    Hash HkXxHash64 (map (fun i => u8 (Z.shiftr value (56 - 8 * i))) [0; 1; 2; 3; 4; 5; 6; 7] ++ replicate 24 0) 8
  | ShaBuilder s => Hash HkSha256 (sha_finalize s) 32
  | OtherBuilder => empty_hash
  end.

(** ** Files *)

(** What the system says about a file: the error of [openat] with and without
    [O_NOATIME], the mode that [fstat] finds, the bytes that each [read] returns
    ([None] for an error), and whether [close] fails. *)
Record FileToHash := FILETOHASH {
  open_error : bool -> option Z;
  fstat_mode : option Z;
  reads : list (option bytes);
  close_ok : bool
}.

(** The loop: [None] if there are no more replies. *)
Fixpoint hash_reads (b : BuilderState) (replies : list (option bytes)) : option (option BuilderState) :=
  match replies with
  | [] => None
  | None :: _ => Some None
  | Some [] :: _ => Some (Some b)
  | Some data :: replies => b ← update b data; hash_reads b replies
  end.

Definition EPERM_ : Z := 1.

(** [Some None]: the function returned false. *)
Definition compute_file_hash_at (f : FileToHash) (kind : MetadataHashKind) : option (option MetadataHash) :=
  if decide (kind = HkNone) then Some (Some empty_hash)
  else
    let opened := match open_error f true with
                  | Some errno => if errno =? EPERM_ then open_error f false else Some errno
                  | None => None
                  end in
    match opened, fstat_mode f with
    | None, Some mode =>
      if negb (S_ISREG mode) then Some None
      else
        r ← hash_reads (new_MetadataHashBuilder kind) (reads f);
        Some (b ← r; if close_ok f then Some (finalize b) else None)
    | _, _ => Some None
    end.

Definition denied_fs_magic : list Z :=
  [40864; 1650812274; 1684170528; 1953653091; 1935894131;
   2613483; 1667723888; 7377; 1634035564; 3730735588; 1650812272; 1702057283; 3405662737; 1112100429; 427819522; 2508478710;
   1733912937; 1853056627; 4185718668; 1128357203; 391].

(** [None]: [fstatfs] fails. *)
Definition fs_allows_hashing (magic : option Z) : bool :=
  match magic with None => true | Some m => negb (bool_decide (m ∈ denied_fs_magic)) end.

(** ** Reference definitions *)

(** The blocks of [n] bytes, and what is left; the fuel is the number of bytes. *)
Fixpoint split_blocks (fuel n : nat) (s : bytes) : list bytes * bytes :=
  if decide (length s < n)%nat then ([], s)
  else
    match fuel with
    | O => ([], s)
    | S fuel => let '(bs, t) := split_blocks fuel n (drop n s) in (take n s :: bs, t)
    end.

Definition blocks (n : nat) (s : bytes) : list bytes * bytes := split_blocks (length s) n s.

(** XXH64 with seed 0 as its specification describes it, in arithmetic modulo 2^64.
    The standard rotates by 27 after each lane of the tail; [tail_rotation] is there to say
    what the code does. *)
Section XXH64.
Context (tail_rotation : Z).

Definition P64_1 : Z := 0x9E3779B185EBCA87.
Definition P64_2 : Z := 0xC2B2AE3D27D4EB4F.
Definition P64_3 : Z := 0x165667B19E3779F9.
Definition P64_4 : Z := 0x85EBCA77C2B2AE63.
Definition P64_5 : Z := 0x27D4EB2F165667C5.

(** A circular shift of a 64-bit word. *)
Definition rotate_left (x k : Z) : Z := (x * 2 ^ k + x / 2 ^ (64 - k)) mod 2 ^ 64.

Definition round (acc lane : Z) : Z := rotate_left ((acc + lane * P64_2) mod 2 ^ 64) 31 * P64_1 mod 2 ^ 64.

Definition merge_accumulator (acc acc_n : Z) : Z := (Z.lxor acc (round 0 acc_n) * P64_1 + P64_4) mod 2 ^ 64.

Definition initial_accumulators : list Z := [(P64_1 + P64_2) mod 2 ^ 64; P64_2; 0; (- P64_1) mod 2 ^ 64].

(** The four lanes of a stripe of 32 bytes. *)
Definition stripe_lanes (stripe : bytes) : list Z := map (fun i => le_val (take 8 (drop (8 * i) stripe))) (seq 0 4).

Definition process_stripe (accs : list Z) (stripe : bytes) : list Z :=
  map (fun '(acc, lane) => round acc lane) (combine accs (stripe_lanes stripe)).

Definition converge (accs : list Z) : Z :=
  match accs with
  | [acc1; acc2; acc3; acc4] =>
    fold_left merge_accumulator accs
      ((rotate_left acc1 1 + rotate_left acc2 7 + rotate_left acc3 12 + rotate_left acc4 18) mod 2 ^ 64)
  | _ => 0
  end.

Definition consume_lane (acc : Z) (s : bytes) : Z :=
  (rotate_left (Z.lxor acc (round 0 (le_val s))) tail_rotation * P64_1 + P64_4) mod 2 ^ 64.

Definition consume_word (acc : Z) (s : bytes) : Z :=
  (rotate_left (Z.lxor acc (le_val s * P64_1 mod 2 ^ 64)) 23 * P64_2 + P64_3) mod 2 ^ 64.

Definition consume_byte (acc byte : Z) : Z := rotate_left (Z.lxor acc (byte * P64_5 mod 2 ^ 64)) 11 * P64_1 mod 2 ^ 64.

(** What is left after the stripes: whole lanes, a half lane, bytes. *)
Definition consume_remaining (acc : Z) (s : bytes) : Z :=
  let '(lanes, s) := blocks 8 s in
  let '(words, s) := blocks 4 s in
  fold_left consume_byte s (fold_left consume_word words (fold_left consume_lane lanes acc)).

Definition avalanche (acc : Z) : Z :=
  let acc := Z.lxor acc (acc / 2 ^ 33) * P64_2 mod 2 ^ 64 in
  let acc := Z.lxor acc (acc / 2 ^ 29) * P64_3 mod 2 ^ 64 in
  Z.lxor acc (acc / 2 ^ 32).

Definition xxh64_with (msg : bytes) : Z :=
  let '(stripes, s) := blocks 32 msg in
  let acc := if decide (length msg < 32)%nat then P64_5 else converge (fold_left process_stripe stripes initial_accumulators) in
  avalanche (consume_remaining ((acc + Z.of_nat (length msg)) mod 2 ^ 64) s).

End XXH64.

Definition xxh64 (msg : bytes) : Z := xxh64_with 27 msg.

(** SHA-256: a one bit, zeros and the length in bits make whole blocks. *)
Definition sha256_pad (msg : bytes) : bytes :=
  msg ++ [128] ++ replicate (Nat.modulo (64 - Nat.modulo (length msg + 9) 64) 64) 0 ++ be_bit_len (8 * Z.of_nat (length msg)).

Definition sha256_reference (msg : bytes) : bytes :=
  concat (map be_word (fold_left process_block (fst (blocks 64 (sha256_pad msg))) sha_initial_h)).

(** What is documented: the digests that xxhsum and sha256sum print. *)
Definition reference_hash (kind : MetadataHashKind) (msg : bytes) : MetadataHash :=
  match kind with
  | HkXxHash64 => Hash HkXxHash64 (rev (le_bytes 8 (xxh64 msg)) ++ replicate 24 0) 8
  | HkSha256 => Hash HkSha256 (sha256_reference msg) 32
  | _ => empty_hash
  end.

(** [digest] gives XXH64 if no whole lane is left after the stripes; otherwise it leaves
    out the rotations of the tail. *)
Definition whole_lane_left (msg : bytes) : bool := (8 <=? length msg mod 32)%nat.

Definition stored_hash (kind : MetadataHashKind) (msg : bytes) : MetadataHash :=
  if bool_decide (kind = HkXxHash64) && whole_lane_left msg
  then Hash HkXxHash64 (rev (le_bytes 8 (xxh64_with 0 msg)) ++ replicate 24 0) 8
  else reference_hash kind msg.

(** ** Blocks *)

Section Blocks.
Context (n : nat) (Hn : (0 < n)%nat).

Lemma split_blocks_fuel f1 : forall f2 s, (length s <= f1)%nat -> (length s <= f2)%nat -> split_blocks f1 n s = split_blocks f2 n s.
Proof.
  induction f1 as [|f1 IH]; intros [|f2] s H1 H2; cbn [split_blocks]; destruct (decide (length s < n)%nat); try done; try lia.
  rewrite (IH f2); [done|rewrite length_drop; lia..].
Qed.

Lemma blocks_short s : (length s < n)%nat -> blocks n s = ([], s).
Proof. intros H. unfold blocks. destruct (length s) eqn:E; cbn [split_blocks]; rewrite E; by destruct (decide _). Qed.

Lemma blocks_long s : (n <= length s)%nat -> blocks n s = (take n s :: fst (blocks n (drop n s)), snd (blocks n (drop n s))).
Proof.
  intros H. unfold blocks at 1. destruct (length s) as [|m] eqn:E; [lia|]. cbn [split_blocks]. rewrite E.
  destruct (decide _) as [|_]; [lia|]. rewrite (split_blocks_fuel m (length (drop n s))); [|rewrite length_drop; lia|lia].
  fold (blocks n (drop n s)). by destruct (blocks n (drop n s)).
Qed.

Lemma blocks_tail_short s : (length (snd (blocks n s)) < n)%nat.
Proof.
  remember (length s) as k eqn:Ek. revert s Ek. induction (lt_wf k) as [k _ IH]. intros s ->.
  destruct (decide (length s < n)%nat) as [H|H]; [by rewrite blocks_short|]. rewrite blocks_long by lia. cbn [snd].
  apply (IH (length (drop n s))); [rewrite length_drop; lia|done].
Qed.

Lemma blocks_app a b : blocks n (a ++ b) =
  (fst (blocks n a) ++ fst (blocks n (snd (blocks n a) ++ b)), snd (blocks n (snd (blocks n a) ++ b))).
Proof.
  remember (length a) as k eqn:Ek. revert a Ek. induction (lt_wf k) as [k _ IH]. intros a ->.
  destruct (decide (length a < n)%nat) as [H|H].
  - rewrite (blocks_short a) by done. cbn [fst snd app]. by destruct (blocks n (a ++ b)).
  - rewrite (blocks_long a), (blocks_long (a ++ b)) by (rewrite ?length_app; lia). cbn [fst snd app].
    rewrite take_app_le, drop_app_le by lia. rewrite (IH (length (drop n a))) by (rewrite ?length_drop; lia || done). done.
Qed.

End Blocks.

Lemma blocks_tail_length n s : (0 < n)%nat -> length (snd (blocks n s)) = Nat.modulo (length s) n.
Proof.
  intros Hn. remember (length s) as k eqn:Ek. revert s Ek. induction (lt_wf k) as [k _ IH]. intros s ->.
  destruct (decide (length s < n)%nat) as [H|H]; [by rewrite blocks_short, Nat.mod_small|]. rewrite blocks_long by lia. cbn [snd].
  rewrite (IH (length (drop n s))) by (rewrite ?length_drop; lia || done). rewrite length_drop.
  replace (length s) with ((length s - n) + 1 * n)%nat at 2 by lia. by rewrite Nat.Div0.mod_add.
Qed.

(** ** The streaming states *)

Definition lanes (s : XxHash64State) : Z * Z * Z * Z := (v1 s, v2 s, v3 s, v4 s).

Definition with_lanes (total : Z) (s : XxHash64State) (t : bytes) : XxHash64State := XXH64 total (v1 s) (v2 s) (v3 s) (v4 s) t.

Lemma stripes_lanes bs : forall s s', lanes s = lanes s' -> lanes (fold_left xxh_stripe bs s) = lanes (fold_left xxh_stripe bs s').
Proof.
  induction bs as [|b bs IH]; intros s s' H; [done|]. cbn [fold_left]. apply IH. injection H as H1 H2 H3 H4.
  unfold lanes, xxh_stripe. cbn. by rewrite H1, H2, H3, H4.
Qed.

Lemma with_lanes_eq total s s' t : lanes s = lanes s' -> with_lanes total s t = with_lanes total s' t.
Proof. intros [= H1 H2 H3 H4]. unfold with_lanes. by rewrite H1, H2, H3, H4. Qed.

Lemma xxh_stripes_spec fuel : forall s p, (length p <= fuel)%nat -> xxh_stripes fuel s p =
  Some (with_lanes (xxh_total_len s) (fold_left xxh_stripe (fst (blocks 32 p)) s) (snd (blocks 32 p))).
Proof.
  induction fuel as [|fuel IH]; intros s p Hp; cbn [xxh_stripes]; destruct (decide (length p < 32)%nat) as [H|H]; try lia;
    try (by rewrite blocks_short by done).
  rewrite IH by (rewrite length_drop; lia). rewrite (blocks_long 32 ltac:(lia) p) by lia. done.
Qed.

(** After all of [msg]. *)
Definition xxh_after (msg : bytes) : XxHash64State :=
  with_lanes (u64 (Z.of_nat (length msg))) (fold_left xxh_stripe (fst (blocks 32 msg)) (xxh_reset 0)) (snd (blocks 32 msg)).

Lemma u64_add_length (a b : bytes) : u64 (u64 (Z.of_nat (length a)) + Z.of_nat (length b)) = u64 (Z.of_nat (length (a ++ b))).
Proof. unfold u64. rewrite Zplus_mod_idemp_l, length_app. f_equal. lia. Qed.

Lemma xxh_consume_after msg d : xxh_consume (xxh_after msg) d = Some (xxh_after (msg ++ d)).
Proof.
  unfold xxh_consume. cbn [xxh_after with_lanes xxh_total_len memory v1 v2 v3 v4]. rewrite u64_add_length.
  unfold xxh_after. rewrite (blocks_app 32 ltac:(lia) msg d). cbn [fst snd].
  pose proof (blocks_tail_short 32 ltac:(lia) msg) as Ht. set (t := snd (blocks 32 msg)) in *.
  rewrite fold_left_app. set (s := fold_left xxh_stripe (fst (blocks 32 msg)) (xxh_reset 0)).
  destruct (decide (length t + length d < 32)%nat) as [H|H].
  { rewrite blocks_short by (rewrite length_app; lia). done. }
  destruct (decide (t = [])) as [E|E].
  - rewrite E. cbn [app]. rewrite xxh_stripes_spec by done. f_equal. by apply with_lanes_eq, stripes_lanes.
  - rewrite (blocks_long 32 ltac:(lia) (t ++ d)) by (rewrite length_app; lia). cbn [fst snd fold_left].
    rewrite take_app_ge, drop_app_ge by lia. rewrite xxh_stripes_spec by (rewrite length_drop; lia). f_equal.
    by apply with_lanes_eq, stripes_lanes.
Qed.

(** *** The digest is XXH64, but for a rotation *)

Lemma lxor_is_u64 a b : is_u64 a -> is_u64 b -> is_u64 (Z.lxor a b).
Proof.
  intros [Ha Ha'] [Hb Hb']. split; [by apply Z.lxor_nonneg|].
  destruct (decide (Z.lxor a b = 0)) as [->|H]; [done|]. assert (0 <= Z.lxor a b) by by apply Z.lxor_nonneg.
  apply Z.log2_lt_pow2; [lia|]. eapply Z.le_lt_trans; [by apply Z.log2_lxor|].
  apply Z.max_lub_lt; (destruct (decide (a = 0)), (decide (b = 0)); subst; try done; apply Z.log2_lt_pow2; lia).
Qed.

Lemma rotl64_spec x k : is_u64 x -> 0 < k < 64 -> rotl64 x k = rotate_left x k.
Proof.
  intros [H0 H1] Hk. unfold rotl64, rotate_left. rewrite Z.lor_comm, lor_shiftl_add; [|lia|].
  - rewrite Z.shiftr_div_pow2 by lia. rewrite Z.add_comm. done.
  - rewrite Z.shiftr_div_pow2 by lia. split; [by apply Z.div_pos; [|apply Z.pow_pos_nonneg; lia]|].
    apply Z.div_lt_upper_bound; [apply Z.pow_pos_nonneg; lia|]. rewrite <- Z.pow_add_r by lia. by replace (64 - k + k) with 64 by lia.
Qed.

Lemma rotate_left_0 x : is_u64 x -> rotate_left x 0 = x.
Proof.
  intros [H0 H1]. unfold rotate_left. rewrite Z.mul_1_r. change (64 - 0) with 64. rewrite (Z.div_small x) by done.
  rewrite Z.add_0_r. by apply Z.mod_small.
Qed.

Lemma xxhash_round_spec acc input : xxhash_round acc input = round acc input.
Proof.
  unfold xxhash_round, round. rewrite rotl64_spec by (apply u64_range || lia). unfold u64. by rewrite Zplus_mod_idemp_r.
Qed.

Lemma xxhash_merge_round_spec acc val : xxhash_merge_round acc val = merge_accumulator acc val.
Proof. unfold xxhash_merge_round, merge_accumulator. rewrite xxhash_round_spec. unfold u64. by rewrite Zplus_mod_idemp_l. Qed.

(** The accumulators of a state. *)
Definition accumulators (s : XxHash64State) : list Z := [v1 s; v2 s; v3 s; v4 s].

Lemma xxh_stripe_spec s p : accumulators (xxh_stripe s p) = process_stripe (accumulators s) p.
Proof. unfold xxh_stripe, accumulators. cbn [v1 v2 v3 v4]. by rewrite !xxhash_round_spec. Qed.

Lemma xxh_stripes_accumulators bs : forall s, accumulators (fold_left xxh_stripe bs s) = fold_left process_stripe bs (accumulators s).
Proof. induction bs as [|b bs IH]; intros s; [done|]. cbn [fold_left]. by rewrite IH, xxh_stripe_spec. Qed.

Lemma round_is acc lane : is_u64 (round acc lane).
Proof. apply u64_range. Qed.

Lemma process_stripe_is stripe accs : Forall is_u64 (process_stripe accs stripe).
Proof. unfold process_stripe. apply Forall_map, Forall_forall. intros [acc lane] _. apply round_is. Qed.

Lemma stripes_is stripes : forall accs, Forall is_u64 accs -> Forall is_u64 (fold_left process_stripe stripes accs).
Proof. induction stripes as [|b bs IH]; intros accs H; [done|]. cbn [fold_left]. apply IH, process_stripe_is. Qed.

Lemma consume_lane_is r acc s : is_u64 (consume_lane r acc s).
Proof. apply u64_range. Qed.

Lemma xxh_tail8_spec fuel : forall hash p, (length p <= fuel)%nat -> is_u64 hash ->
  xxh_tail8 fuel hash p = (fold_left (consume_lane 0) (fst (blocks 8 p)) hash, snd (blocks 8 p)).
Proof.
  induction fuel as [|fuel IH]; intros hash p Hp Hh; cbn [xxh_tail8]; destruct (decide (length p < 8)%nat) as [H|H]; try lia;
    try (by rewrite blocks_short by done).
  rewrite (blocks_long 8 ltac:(lia) p) by lia. cbn [fst snd fold_left]. rewrite IH by (apply u64_range || rewrite length_drop; lia).
  f_equal. f_equal. unfold consume_lane. rewrite rotate_left_0 by (apply lxor_is_u64; [done|apply round_is]).
  unfold u64. rewrite Zplus_mod_idemp_l. do 3 f_equal. f_equal. rewrite <- xxhash_round_spec. unfold xxhash_round. rewrite Z.add_0_l.
  unfold u64. by rewrite Z.mod_mod by done.
Qed.

Lemma xxh_tail1_spec p : forall hash, is_u64 hash -> xxh_tail1 hash p = fold_left consume_byte p hash.
Proof.
  induction p as [|b p IH]; intros hash H; [done|]. cbn [xxh_tail1 fold_left]. rewrite IH by apply u64_range. f_equal.
  unfold consume_byte. rewrite rotl64_spec; [done|apply lxor_is_u64; [done|apply u64_range]|lia].
Qed.

(** What comes after the lanes. *)
Lemma xxh_words_spec hash p : is_u64 hash -> (length p < 8)%nat ->
  (if decide (length p < 4)%nat then (hash, p)
   else (u64 (u64 (rotl64 (Z.lxor hash (u64 (read32 p * Prime1))) 23 * Prime2) + Prime3), drop 4 p)) =
  (fold_left consume_word (fst (blocks 4 p)) hash, snd (blocks 4 p)).
Proof.
  intros Hh Hp. destruct (decide (length p < 4)%nat) as [H|H]; [by rewrite blocks_short|].
  rewrite (blocks_long 4 ltac:(lia) p), blocks_short by (rewrite ?length_drop; lia). cbn [fst snd fold_left]. f_equal.
  unfold consume_word. rewrite rotl64_spec; [|apply lxor_is_u64; [done|apply u64_range]|lia]. unfold u64. by rewrite Zplus_mod_idemp_l.
Qed.

Lemma fold_left_is {A} (f : Z -> A -> Z) l : (forall z a, is_u64 (f z a)) -> forall z, is_u64 z -> is_u64 (fold_left f l z).
Proof. intros H. induction l as [|a l IH]; intros z Hz; [done|]. cbn [fold_left]. apply IH, H. Qed.

Lemma converge_spec a1 a2 a3 a4 n : is_u64 a1 -> is_u64 a2 -> is_u64 a3 -> is_u64 a4 ->
  (if 32 <=? Z.of_nat n then
     xxhash_merge_round (xxhash_merge_round (xxhash_merge_round (xxhash_merge_round
       (u64 (rotl64 a1 1 + rotl64 a2 7 + rotl64 a3 12 + rotl64 a4 18)) a1) a2) a3) a4
   else Prime5) = if decide (n < 32)%nat then P64_5 else converge [a1; a2; a3; a4].
Proof.
  intros H1 H2 H3 H4. destruct (decide (n < 32)%nat), (Z.leb_spec 32 (Z.of_nat n)); try lia; [reflexivity|].
  rewrite !xxhash_merge_round_spec, !rotl64_spec by (assumption || lia). cbn [converge fold_left]. unfold u64. reflexivity.
Qed.

Lemma xxh_digest_spec msg : Z.of_nat (length msg) < 2 ^ 64 -> xxh_digest (xxh_after msg) = xxh64_with 0 msg.
Proof.
  intros Hlen. unfold xxh_digest, xxh64_with, xxh_after, with_lanes. cbn [xxh_total_len memory v1 v2 v3 v4].
  rewrite (u64_small (Z.of_nat (length msg))) by (split; [apply Nat2Z.is_nonneg|exact Hlen]). pose proof (xxh_stripes_accumulators (fst (blocks 32 msg)) (xxh_reset 0)) as Hacc.
  destruct (blocks 32 msg) as [stripes t]. cbn [fst snd] in *. set (s := fold_left xxh_stripe stripes (xxh_reset 0)) in *.
  change (accumulators (xxh_reset 0)) with initial_accumulators in Hacc.
  assert (Hs : Forall is_u64 (accumulators s)).
  { rewrite Hacc. apply stripes_is. repeat constructor; vm_compute; congruence. }
  unfold accumulators in *. rewrite !Forall_cons in Hs. destruct Hs as (H1 & H2 & H3 & H4 & _).
  cbv zeta. rewrite converge_spec by done. rewrite Hacc. clearbody s.
  fold (u64 ((if decide (length msg < 32)%nat then P64_5 else
    converge (fold_left process_stripe stripes initial_accumulators)) + Z.of_nat (length msg))).
  set (acc := u64 (_ + Z.of_nat (length msg))). assert (Ha : is_u64 acc) by apply u64_range.
  rewrite xxh_tail8_spec by done. unfold consume_remaining. pose proof (blocks_tail_short 8 ltac:(lia) t) as H8.
  destruct (blocks 8 t) as [ls t8]. cbn [fst snd] in *. set (acc8 := fold_left (consume_lane 0) ls acc).
  assert (Ha8 : is_u64 acc8) by (apply fold_left_is; [intros; apply u64_range|done]).
  rewrite (xxh_words_spec acc8 t8 Ha8 H8). destruct (blocks 4 t8) as [ws t4]. cbn [fst snd].
  rewrite xxh_tail1_spec by (apply fold_left_is; [intros; apply u64_range|done]).
  unfold avalanche. by rewrite !Z.shiftr_div_pow2 by lia.
Qed.

(** Without a whole lane in the tail, the rotation there does not matter. *)
Lemma xxh64_no_lane r msg : whole_lane_left msg = false -> xxh64_with r msg = xxh64 msg.
Proof.
  unfold whole_lane_left, xxh64, xxh64_with. intros H. apply Nat.leb_gt in H.
  pose proof (blocks_tail_length 32 msg ltac:(lia)) as Ht. destruct (blocks 32 msg) as [stripes t]. cbn [snd] in Ht.
  unfold consume_remaining. rewrite (blocks_short 8 t) by lia. done.
Qed.

Definition sha_after (msg : bytes) : Sha256State :=
  SHA256 (fold_left process_block (fst (blocks 64 msg)) sha_initial_h) (u64 (Z.of_nat (length msg))) (snd (blocks 64 msg)).

Lemma sha_blocks_spec fuel : forall s p, (length p <= fuel)%nat -> sha_buffer s = [] -> sha_blocks fuel s p =
  Some (SHA256 (fold_left process_block (fst (blocks 64 p)) (sha_h s)) (sha_total_len s) (snd (blocks 64 p))).
Proof.
  induction fuel as [|fuel IH]; intros s p Hp Hs; cbn [sha_blocks]; destruct (decide (length p < 64)%nat) as [H|H]; try lia.
  1,2: rewrite blocks_short by done; destruct s as [h n b], p; cbn in Hs; subst b; done.
  rewrite IH by (done || rewrite length_drop; lia). by rewrite (blocks_long 64 ltac:(lia) p) by lia.
Qed.

Lemma sha_consume_after msg d : sha_consume (sha_after msg) d = Some (sha_after (msg ++ d)).
Proof.
  unfold sha_consume. cbn [sha_after sha_h sha_total_len sha_buffer]. rewrite u64_add_length.
  unfold sha_after. rewrite (blocks_app 64 ltac:(lia) msg d). cbn [fst snd].
  pose proof (blocks_tail_short 64 ltac:(lia) msg) as Ht. set (t := snd (blocks 64 msg)) in *.
  rewrite fold_left_app. set (h := fold_left process_block (fst (blocks 64 msg)) sha_initial_h).
  destruct (decide (t = [])) as [E|E]; [rewrite E; by rewrite sha_blocks_spec|].
  destruct (Nat.min_spec (64 - length t) (length d)) as [[Hlt ->]|[Hge ->]].
  - rewrite length_app, length_take. replace (_ =? 64)%nat with true by (symmetry; apply Nat.eqb_eq; lia).
    rewrite sha_blocks_spec by (rewrite ?length_drop; done || lia).
    rewrite (blocks_long 64 ltac:(lia) (t ++ d)) by (rewrite length_app; lia). cbn [fst snd fold_left sha_h sha_total_len].
    by rewrite take_app_ge, drop_app_ge by lia.
  - rewrite firstn_all, drop_all. rewrite length_app. destruct (length t + length d =? 64)%nat eqn:Efull.
    + apply Nat.eqb_eq in Efull. rewrite sha_blocks_spec by (cbn; done || lia).
      rewrite (blocks_long 64 ltac:(lia) (t ++ d)) by (rewrite length_app; lia).
      rewrite take_ge, drop_ge by (rewrite length_app; lia). done.
    + apply Nat.eqb_neq in Efull. rewrite (blocks_short 64 (t ++ d)) by (rewrite length_app; lia).
      destruct (length d); cbn [sha_blocks]; by destruct (decide _) as [|Hd]; [|destruct Hd; cbn; lia].
Qed.

Lemma length_be_bit_len n : length (be_bit_len n) = 8%nat.
Proof. done. Qed.

(** The padding of the last bytes: one block, or two. *)
Lemma pad_blocks t l : (length t < 64)%nat -> length l = 8%nat ->
  blocks 64 (t ++ [128] ++ replicate (Nat.modulo (64 - Nat.modulo (length t + 9) 64) 64) 0 ++ l) =
  if decide (56 < length (t ++ [128%Z]))%nat
  then ([(t ++ [128]) ++ replicate (64 - length (t ++ [128])) 0; replicate 56 0 ++ l], [])
  else ([(t ++ [128]) ++ replicate (56 - length (t ++ [128])) 0 ++ l], []).
Proof.
  intros Ht Hl. assert (Hb : length (t ++ [128]) = (length t + 1)%nat) by (rewrite length_app; done). rewrite Hb.
  assert (Hone : forall b, length b = 64%nat -> blocks 64 b = ([b], [])).
  { intros b E. rewrite blocks_long by lia. rewrite take_ge, drop_ge by lia. done. }
  destruct (decide (56 < length t + 1)%nat) as [H|H].
  - assert (Hz : Nat.modulo (64 - Nat.modulo (length t + 9) 64) 64 = ((64 - (length t + 1)) + 56)%nat).
    { replace (length t + 9)%nat with ((length t - 55) + 1 * 64)%nat by lia. rewrite Nat.Div0.mod_add, (Nat.mod_small (length t - 55)) by lia.
      destruct (decide (length t = 55%nat)) as [E|E]; [lia|]. rewrite Nat.mod_small by lia. lia. }
    rewrite Hz, replicate_add. rewrite (app_assoc t [128]), <- (app_assoc (replicate _ _)), app_assoc.
    set (b1 := (t ++ [128]) ++ replicate (64 - (length t + 1)) 0).
    assert (Hb1 : length b1 = 64%nat) by (unfold b1; rewrite length_app, length_replicate, Hb; lia).
    rewrite blocks_long by (rewrite ?length_app; lia). rewrite take_app_length', drop_app_length' by done.
    rewrite Hone by (rewrite length_app, length_replicate, Hl; done). done.
  - assert (Hz : Nat.modulo (64 - Nat.modulo (length t + 9) 64) 64 = (56 - (length t + 1))%nat).
    { destruct (decide (length t = 55%nat)) as [->|E]; [done|]. rewrite (Nat.mod_small (length t + 9)) by lia.
      rewrite Nat.mod_small by lia. lia. }
    rewrite Hz, (app_assoc t [128]). apply Hone. rewrite !length_app, length_replicate, Hl. cbn [length]. lia.
Qed.

Lemma sha_finalize_after msg : Z.of_nat (length msg) < 2 ^ 61 -> sha_finalize (sha_after msg) = sha256_reference msg.
Proof.
  intros Hlim. change (2 ^ 61) with 2305843009213693952 in Hlim. unfold sha_finalize, sha256_reference, sha256_pad.
  cbn [sha_after sha_total_len sha_buffer sha_h].
  rewrite (u64_small (Z.of_nat (length msg))) by (unfold is_u64; change (2 ^ 64) with 18446744073709551616; lia).
  rewrite u64_small by (unfold is_u64; change (2 ^ 64) with 18446744073709551616; lia). rewrite (Z.mul_comm _ 8).
  pose proof (blocks_tail_short 64 ltac:(lia) msg) as Ht. pose proof (blocks_tail_length 64 msg ltac:(lia)) as Htl.
  rewrite blocks_app by lia. cbn [fst]. rewrite fold_left_app. set (t := snd (blocks 64 msg)) in *.
  set (h := fold_left process_block (fst (blocks 64 msg)) sha_initial_h). set (l := be_bit_len (8 * Z.of_nat (length msg))).
  assert (Hmod : Nat.modulo (length msg + 9) 64 = Nat.modulo (length t + 9) 64).
  { rewrite Htl. by rewrite Nat.Div0.add_mod_idemp_l. }
  rewrite Hmod, (pad_blocks t l) by done. destruct (decide (56 < length (t ++ [128%Z]))%nat) as [H|H]; done.
Qed.

Definition builder_after (kind : MetadataHashKind) (msg : bytes) : BuilderState :=
  match kind with
  | HkXxHash64 => XxhBuilder (xxh_after msg)
  | HkSha256 => ShaBuilder (sha_after msg)
  | _ => OtherBuilder
  end.

Lemma update_after kind msg d : update (builder_after kind msg) d = Some (builder_after kind (msg ++ d)).
Proof.
  destruct d as [|b d]; [rewrite app_nil_r; by destruct kind|]. destruct kind; cbn [builder_after update]; try done.
  - by rewrite sha_consume_after.
  - by rewrite xxh_consume_after.
Qed.

Lemma hash_reads_after kind pieces rest : Forall (fun d => d <> []) pieces -> forall msg,
  hash_reads (builder_after kind msg) (map Some pieces ++ Some [] :: rest) = Some (Some (builder_after kind (msg ++ concat pieces))).
Proof.
  induction 1 as [|d pieces Hd F IH]; intros msg; cbn [map app hash_reads concat]; [by rewrite app_nil_r|].
  destruct d as [|b d]; [done|]. rewrite update_after. cbn [mbind option_bind]. by rewrite IH, <- app_assoc.
Qed.

Lemma be_bytes_rev value : map (fun i => u8 (Z.shiftr value (56 - 8 * i))) [0; 1; 2; 3; 4; 5; 6; 7] = rev (le_bytes 8 value).
Proof.
  cbn [map le_bytes rev app]. rewrite !Z.shiftr_div_pow2 by lia. unfold u8.
  rewrite !Z.div_div by lia. repeat f_equal; by rewrite ?Z.div_1_r.
Qed.

Lemma finalize_after kind msg : Z.of_nat (length msg) < 2 ^ 61 -> finalize (builder_after kind msg) = stored_hash kind msg.
Proof.
  intros Hlim. unfold stored_hash. destruct kind; cbn [builder_after finalize reference_hash bool_decide andb]; try done.
  - by rewrite sha_finalize_after.
  - change (2 ^ 61) with 2305843009213693952 in Hlim. rewrite be_bytes_rev, xxh_digest_spec
      by (change (2 ^ 64) with 18446744073709551616; lia).
    destruct (whole_lane_left msg) eqn:E; [done|]. by rewrite (xxh64_no_lane 0 msg E).
Qed.

Lemma new_builder_after kind : new_MetadataHashBuilder kind = builder_after kind [].
Proof. by destruct kind. Qed.

(** [openat] succeeds, the second time if permission was refused the first. *)
Definition openable (f : FileToHash) : bool :=
  match open_error f true with
  | None => true
  | Some errno => (errno =? EPERM_) && bool_decide (open_error f false = None)
  end.

Lemma compute_opened f kind : kind <> HkNone -> compute_file_hash_at f kind =
  if openable f && (match fstat_mode f with Some mode => S_ISREG mode | None => false end)
  then r ← hash_reads (new_MetadataHashBuilder kind) (reads f); Some (b ← r; if close_ok f then Some (finalize b) else None)
  else Some None.
Proof.
  intros Hk. unfold compute_file_hash_at, openable. destruct (decide (kind = HkNone)); [done|].
  destruct (open_error f true) as [errno|]; [destruct (errno =? EPERM_)|]; [destruct (open_error f false)| |];
    destruct (fstat_mode f); cbn [andb bool_decide]; try done;
    try (rewrite bool_decide_false by done; done);
    try (rewrite bool_decide_true by done; cbn [andb]); destruct (S_ISREG _); done.
Qed.

Lemma hash_reads_fails kind pieces rest : Forall (fun d => d <> []) pieces -> forall msg,
  hash_reads (builder_after kind msg) (map Some pieces ++ None :: rest) = Some None.
Proof.
  induction 1 as [|d pieces Hd F IH]; intros msg; cbn [map app hash_reads]; [done|].
  destruct d as [|b d]; [done|]. rewrite update_after. cbn [mbind option_bind]. apply IH.
Qed.

(** ** Known answers *)

(** The constants of SHA-256 are the first bits of the fractional parts of square and
    cube roots of the primes. *)
Definition primes (n : nat) : list Z :=
  take n (filter (fun p => forallb (fun d => negb (p mod d =? 0)) (map Z.of_nat (seq 2 (Z.to_nat p - 2)))) (map Z.of_nat (seq 2 400))).

Fixpoint bisect (fuel : nat) (f : Z -> Z) (x lo hi : Z) : Z :=
  match fuel with
  | O => lo
  | S fuel => let mid := (lo + hi) / 2 in if f mid <=? x then bisect fuel f x mid hi else bisect fuel f x lo mid
  end.

Example sha256_k_roots : sha256_k = map (fun p => bisect 40 (fun r => r ^ 3) (p * 2 ^ 96) 0 (2 ^ 40) mod 2 ^ 32) (primes 64).
Proof. vm_compute. reflexivity. Qed.

Example sha256_h_roots : sha_initial_h = map (fun p => Z.sqrt (p * 2 ^ 64) mod 2 ^ 32) (primes 8).
Proof. vm_compute. reflexivity. Qed.

Definition abc : bytes := [97; 98; 99].

Definition hex_digits : bytes := bytes_of_string "0123456789abcdef".

Definition hex (s : bytes) : bytes := concat (map (fun b => [nth (Z.to_nat (b / 16)) hex_digits 0; nth (Z.to_nat (b mod 16)) hex_digits 0]) s).

(** The examples of the standard: one block, and padding that needs a second. *)
Example sha256_abc : hex (sha256_reference abc) =
  bytes_of_string "ba7816bf8f01cfea414140de5dae2223b00361a396177a9cb410ff61f20015ad".
Proof. vm_compute. reflexivity. Qed.

Example sha256_two_blocks : hex (sha256_reference (bytes_of_string "abcdbcdecdefdefgefghfghighijhijkijkljklmklmnlmnomnopnopq")) =
  bytes_of_string "248d6a61d20638b8e5c026930c3e6039a33ce45964ff2167f6ecedd419db06c1".
Proof. vm_compute. reflexivity. Qed.

Example sha256_empty : hex (sha256_reference []) =
  bytes_of_string "e3b0c44298fc1c149afbf4c8996fb92427ae41e4649b934ca495991b7852b855".
Proof. vm_compute. reflexivity. Qed.

(** What [xxhsum] prints. *)
Example xxh64_empty : hex (rev (le_bytes 8 (xxh64 []))) = bytes_of_string "ef46db3751d8e999". Proof. vm_compute. reflexivity. Qed.

Example xxh64_abc : hex (rev (le_bytes 8 (xxh64 abc))) = bytes_of_string "44bc2cf5ad770999". Proof. vm_compute. reflexivity. Qed.

Definition long_message : bytes := bytes_of_string "Call me Ishmael. Some years ago--never mind how long precisely-".

Example xxh64_long : hex (rev (le_bytes 8 (xxh64 long_message))) = bytes_of_string "02a2e85470d6fd96".
Proof. vm_compute. reflexivity. Qed.

(** That message leaves three lanes after its stripe; the program stores another value. *)
Example xxh64_rotation_missing :
  match update (new_MetadataHashBuilder HkXxHash64) long_message with
  | Some b => hex (take 8 (h_value (finalize b))) = bytes_of_string "878942c2a34f5d51" /\
      finalize b <> reference_hash HkXxHash64 long_message
  | None => False
  end.
Proof. vm_compute. split; [reflexivity|discriminate]. Qed.

(** ** Hashing a file *)

(** C23. Hashing a file is independent of how [read] cuts its contents: whatever
    the nonempty pieces are, with or without a refused [O_NOATIME], the result is
    SHA-256 of the whole contents, or their XXH64 if fewer than eight bytes are left
    after the stripes of 32; with more left it is what XXH64 would be without the
    rotation by 27 after each of the eight-byte lanes of the tail, so not the documented
    digest (a bug, see [xxh64_rotation_missing]).  The function fails exactly if the file
    cannot be opened, is not regular, has a read error before its end, or cannot be
    closed. *)
Theorem file_hash_exact f kind pieces last rest :
  kind <> HkNone -> Forall (fun d => d <> []) pieces ->
  reads f = map Some pieces ++ last :: rest -> last = None \/ last = Some [] ->
  Z.of_nat (length (concat pieces)) < 2 ^ 61 ->
  compute_file_hash_at f kind =
    Some (if openable f && (match fstat_mode f with Some mode => S_ISREG mode | None => false end)
             && bool_decide (last = Some []) && close_ok f
          then Some (stored_hash kind (concat pieces)) else None).
Proof.
  intros Hk F Hr Hlast Hlim. rewrite compute_opened by done. destruct (openable f); cbn [andb]; [|done].
  destruct (fstat_mode f) as [mode|]; [|done]. destruct (S_ISREG mode); cbn [andb]; [|done].
  rewrite new_builder_after, Hr. destruct Hlast as [-> | ->].
  - by rewrite hash_reads_fails.
  - rewrite hash_reads_after by done. cbn [mbind option_bind app]. rewrite bool_decide_true by done. cbn [andb].
    rewrite finalize_after by done. by destruct (close_ok f).
Qed.

(** A file of another owner: 100 bytes that come in pieces of 70 and 30. *)
Definition piecewise_file : FileToHash :=
  FILETOHASH (fun noatime => if noatime then Some EPERM_ else None) (Some 33188)
    [Some (replicate 70 7); Some (replicate 30 8); Some []] true.

Lemma file_hash_exact_witness :
  compute_file_hash_at piecewise_file HkSha256 = Some (Some (reference_hash HkSha256 (replicate 70 7 ++ replicate 30 8))).
Proof.
  refine (file_hash_exact piecewise_file HkSha256 [replicate 70 7; replicate 30 8] (Some []) [] _ _ _ _ _).
  - discriminate.
  - apply Forall_cons_2; [discriminate|]. apply Forall_cons_2; [discriminate|]. apply Forall_nil_2.
  - reflexivity.
  - right. reflexivity.
  - reflexivity.
Defined.
