(* ===== verification/IOUring.v ===== *)
(** * The io_uring engine (src/io_uring_engine.cpp)

    [IOUringEngine] reads ranges of files and does stats, at most [queue_depth] at a
    time; what does not fit waits in two queues.  A callback may make new requests.
    The kernel completes what was submitted in any order, when it likes, and reads
    as much as it likes.  A client of the engine states an invariant of its state
    and its outstanding requests ([ClientLaws]); in return it gets every callback
    called exactly once, with the right answer, without ever waiting for nothing. *)
From S2P Require Import Prelude FileRead.

Definition queue_depth : nat := 256%nat.

(** ** Requests *)

(** A callback is a [Tag] that the client understands. *)
Inductive Request {Tag : Type} :=
| ReadReq (fd len offset : nat) (read_cb : Tag)
| StatReq (path : bytes) (stat_cb : Tag).

Arguments Request : clear implicits.
Arguments ReadReq {Tag}.
Arguments StatReq {Tag}.

(** What a callback is called with. *)
Inductive Answer := Data (s : bytes) | StatOk (ok : bool).

(** [buf] is what stands in the buffer before [iov_base]. *)
Inductive PendingRead {Tag : Type} :=
| OpRead (read_cb : Tag) (buf : bytes) (len fd offset iov_len : nat)
| OpStat (pathname : bytes) (stat_cb : Tag).

Arguments PendingRead : clear implicits.
Arguments OpRead {Tag}.
Arguments OpStat {Tag}.

(** A completion, with the bytes that the kernel wrote at [iov_base]. *)
Record CQE {Tag : Type} := COMPLETION { user_data : PendingRead Tag; res : Z; written : bytes }.

Arguments CQE : clear implicits.
Arguments COMPLETION {Tag}.

(** [sq]: requests that are prepared but not submitted; [in_flight]: those the
    kernel works on; [cq]: completions not yet seen; [clock] counts the calls into
    the ring. *)
Record IOUringEngine {Tag : Type} := ENGINE {
  pending_reads : nat;
  queued_reads : list (Request Tag);
  queued_stats : list (Request Tag);
  sq : list (PendingRead Tag);
  in_flight : list (PendingRead Tag);
  cq : list (CQE Tag);
  clock : nat
}.

Arguments IOUringEngine : clear implicits.
Arguments ENGINE {Tag}.

Inductive Failure := AssertFailed | NoSqe | NoSqeForResubmit | AsyncReadFailed | SubmitFailed.

(** A call returns, ends the program, or waits forever. *)
Inductive outcome (A : Type) := Returns (a : A) | Exits (f : Failure) | Hangs.

Arguments Returns {A} a.
Arguments Exits {A} f.
Arguments Hangs {A}.

#[export] Instance outcome_bind : MBind outcome := fun A B f m =>
  match m with Returns a => f a | Exits g => Exits g | Hangs => Hangs end.

(** What the kernel does at a time to the requests in flight: the index of the
    request that completes (counted around) and the reply to its read.  [peek] are
    the completions that come by themselves; a wait ends with at least one, or is
    interrupted ([None]). *)
Record Kernel {Tag : Type} := KERNEL {
  peek : nat -> list (PendingRead Tag) -> list (nat * PreadReply);
  wait : nat -> list (PendingRead Tag) -> option ((nat * PreadReply) * list (nat * PreadReply))
}.

Arguments Kernel : clear implicits.
Arguments KERNEL {Tag}.

(** ** The engine *)

Section Engine.
(** The files, what [statx] returns, and the client's callbacks with their state. *)
Context {Tag St : Type} (files : nat -> bytes) (statx : bytes -> Z)
  (supports_stat : bool) (kernel : Kernel Tag) (react : St -> Tag -> Answer -> St * list (Request Tag)).

Abbreviation Engine := (IOUringEngine Tag).

(** The constructor: [using_uring] and [supports_stat], from what
    [io_uring_queue_init] returns and whether the probe, if there is one, finds statx. *)
Definition probe_engine (ret : Z) (probe : option bool) : bool * bool :=
  let using_uring := 0 <=? ret in (using_uring, using_uring && default false probe).

Definition new_IOUringEngine : Engine := ENGINE 0 [] [] [] [] [] 0.

Definition new_pending (r : Request Tag) : PendingRead Tag :=
  match r with
  | ReadReq fd len offset cb => OpRead cb [] len fd offset len
  | StatReq path cb => OpStat path cb
  end.

(** [io_uring_get_sqe] and the two [submit_*_internal]. *)
Definition submit_internal (r : Request Tag) (e : Engine) : outcome Engine :=
  if decide (length (sq e) < queue_depth)%nat then
    Returns (ENGINE (pending_reads e + 1) (queued_reads e) (queued_stats e) (sq e ++ [new_pending r]) (in_flight e) (cq e) (clock e))
  else Exits NoSqe.

(** [submit_stat] and, where the ring is used, [submit_read]. *)
Definition submit (r : Request Tag) (e : Engine) : outcome Engine :=
  match r with
  | StatReq _ _ =>
    if negb supports_stat then Exits AssertFailed
    else if decide (pending_reads e < queue_depth)%nat then submit_internal r e
    else Returns (ENGINE (pending_reads e) (queued_reads e) (queued_stats e ++ [r]) (sq e) (in_flight e) (cq e) (clock e))
  | ReadReq _ _ _ _ =>
    if decide (pending_reads e < queue_depth)%nat then submit_internal r e
    else Returns (ENGINE (pending_reads e) (queued_reads e ++ [r]) (queued_stats e) (sq e) (in_flight e) (cq e) (clock e))
  end.

Fixpoint submit_all (rs : list (Request Tag)) (e : Engine) : outcome Engine :=
  match rs with
  | [] => Returns e
  | r :: rs => e ← submit r e; submit_all rs e
  end.

(** *** The kernel *)

Definition kernel_cqe (p : PendingRead Tag) (reply : PreadReply) : CQE Tag :=
  match p with
  | OpStat path _ => COMPLETION p (statx path) []
  | OpRead _ _ _ fd offset iov_len =>
    match reply with
    | PreadEintr => COMPLETION p (-4) []
    | PreadError => COMPLETION p (-5) []
    | PreadUpTo n => let data := pread (files fd) iov_len offset n in COMPLETION p (Z.of_nat (length data)) data
    end
  end.

Fixpoint complete (moves : list (nat * PreadReply)) (e : Engine) : Engine :=
  match moves with
  | [] => e
  | (i, reply) :: moves =>
    let n := (i mod length (in_flight e))%nat in
    match in_flight e !! n with
    | None => e
    | Some p => complete moves (ENGINE (pending_reads e) (queued_reads e) (queued_stats e) (sq e)
                                  (delete n (in_flight e)) (cq e ++ [kernel_cqe p reply]) (clock e))
    end
  end.

Definition tick (e : Engine) : Engine :=
  ENGINE (pending_reads e) (queued_reads e) (queued_stats e) (sq e) (in_flight e) (cq e) (S (clock e)).

Definition do_peek (e : Engine) : Engine := complete (peek kernel (clock e) (in_flight e)) (tick e).

Definition do_wait (e : Engine) : outcome Engine :=
  match in_flight e with
  | [] => Hangs
  | _ =>
    match wait kernel (clock e) (in_flight e) with
    | None => Exits SubmitFailed
    | Some (m, ms) => Returns (complete (m :: ms) (tick e))
    end
  end.

Definition do_submit (e : Engine) : Engine :=
  ENGINE (pending_reads e) (queued_reads e) (queued_stats e) [] (in_flight e ++ sq e) (cq e) (clock e).

(** *** Completions *)

(** The engine, the state of the client, and the callbacks called so far. *)
Record Run := RUN { engine : Engine; state : St; calls : list (Request Tag * Answer) }.

Definition tag (r : Request Tag) : Tag := match r with ReadReq _ _ _ cb => cb | StatReq _ cb => cb end.

(** A callback makes its requests last. *)
Definition call_back (r : Request Tag) (a : Answer) (run : Run) : outcome Run :=
  let '(st, new) := react (state run) (tag r) a in
  e ← submit_all new (engine run);
  Returns (RUN e st (calls run ++ [(r, a)])).

(** The request that a pending one was made for. *)
Definition request_of (p : PendingRead Tag) : Request Tag :=
  match p with
  | OpRead cb buf len fd offset _ => ReadReq fd len (offset - length buf) cb
  | OpStat path cb => StatReq path cb
  end.

Definition done_one (e : Engine) : Engine :=
  ENGINE (pending_reads e - 1) (queued_reads e) (queued_stats e) (sq e) (in_flight e) (cq e) (clock e).

(** The last callback of a request, and whether it made a request that was not queued. *)
Definition finish_one (r : Request Tag) (a : Answer) (run : Run) (anything_to_submit : bool) : outcome (Run * bool) :=
  let run := RUN (done_one (engine run)) (state run) (calls run) in
  let old_pending_reads := pending_reads (engine run) in
  run ← call_back r a run;
  Returns (run, if (pending_reads (engine run) =? old_pending_reads)%nat then anything_to_submit else true).

(** The body of [io_uring_for_each_cqe]. *)
Definition handle_cqe (c : CQE Tag) (run : Run) (anything_to_submit : bool) : outcome (Run * bool) :=
  match user_data c with
  | OpStat _ _ => finish_one (request_of (user_data c)) (StatOk (res c =? 0)) run anything_to_submit
  | OpRead cb buf len fd offset iov_len =>
    if res c <=? 0 then Exits AsyncReadFailed
    else if res c <? Z.of_nat iov_len then
      let n := Z.to_nat (res c) in
      let e := engine run in
      if decide (length (sq e) < queue_depth)%nat then
        let p := OpRead cb (buf ++ written c) len fd (offset + n) (iov_len - n) in
        Returns (RUN (ENGINE (pending_reads e) (queued_reads e) (queued_stats e) (sq e ++ [p]) (in_flight e) (cq e) (clock e))
                   (state run) (calls run), true)
      else Exits NoSqeForResubmit
    else finish_one (request_of (user_data c)) (Data (buf ++ written c)) run anything_to_submit
  end.

(** More completions may come before each look at the ring. *)
Fixpoint for_each_cqe (fuel : nat) (run : Run) (anything_to_submit : bool) : option (outcome (Run * bool)) :=
  let e := do_peek (engine run) in
  match cq e with
  | [] => Some (Returns (RUN e (state run) (calls run), anything_to_submit))
  | c :: rest =>
    match fuel with
    | O => None
    | S fuel =>
      let e := ENGINE (pending_reads e) (queued_reads e) (queued_stats e) (sq e) (in_flight e) rest (clock e) in
      match handle_cqe c (RUN e (state run) (calls run)) anything_to_submit with
      | Returns (run, ats) => for_each_cqe fuel run ats
      | Exits f => Some (Exits f)
      | Hangs => Some Hangs
      end
    end
  end.

(** [while (!queued_stats.empty() && pending_reads < queue_depth)]. *)
Fixpoint drain_stats (queue : list (Request Tag)) (e : Engine) (anything_to_submit : bool) : outcome (Engine * bool) :=
  match queue with
  | r :: queue =>
    if decide (pending_reads e < queue_depth)%nat then
      e ← submit_internal r e;
      drain_stats queue (ENGINE (pending_reads e) (queued_reads e) queue (sq e) (in_flight e) (cq e) (clock e)) true
    else Returns (e, anything_to_submit)
  | [] => Returns (e, anything_to_submit)
  end.

Fixpoint drain_reads (queue : list (Request Tag)) (e : Engine) (anything_to_submit : bool) : outcome (Engine * bool) :=
  match queue with
  | r :: queue =>
    if decide (pending_reads e < queue_depth)%nat then
      e ← submit_internal r e;
      drain_reads queue (ENGINE (pending_reads e) queue (queued_stats e) (sq e) (in_flight e) (cq e) (clock e)) true
    else Returns (e, anything_to_submit)
  | [] => Returns (e, anything_to_submit)
  end.

(** Submitting and waiting if nothing is ready. *)
Definition get_ready (e : Engine) (anything_to_submit : bool) : outcome (Engine * bool) :=
  let e := do_peek e in
  match cq e with
  | [] => if anything_to_submit then e ← do_wait (do_submit e); Returns (e, false)
          else e ← do_wait e; Returns (e, false)
  | _ => Returns (e, anything_to_submit)
  end.

(** The loop of [finish]; [None] if the fuel is used up. *)
Fixpoint finish_loop (fuel : nat) (run : Run) (anything_to_submit : bool) : option (outcome Run) :=
  if (pending_reads (engine run) =? 0)%nat then Some (Returns run)
  else
    match fuel with
    | O => None
    | S fuel' =>
      match get_ready (engine run) anything_to_submit with
      | Returns (e, ats) =>
        o ← for_each_cqe fuel (RUN e (state run) (calls run)) ats;
        match o with
        | Returns (run, ats) =>
          match ('(e, ats) ← drain_stats (queued_stats (engine run)) (engine run) ats; drain_reads (queued_reads e) e ats) with
          | Returns (e, ats) => finish_loop fuel' (RUN e (state run) (calls run)) ats
          | Exits f => Some (Exits f)
          | Hangs => Some Hangs
          end
        | Exits f => Some (Exits f)
        | Hangs => Some Hangs
        end
      | Exits f => Some (Exits f)
      | Hangs => Some Hangs
      end
    end.

(** The client makes its requests and calls [finish]. *)
Definition finish (fuel : nat) (st : St) (requests : list (Request Tag)) : option (outcome Run) :=
  match submit_all requests new_IOUringEngine with
  | Returns e => finish_loop fuel (RUN e st []) true
  | Exits f => Some (Exits f)
  | Hangs => Some Hangs
  end.

(** *** Without io_uring *)

(** [submit_read] reads at once and calls back, so that the requests of a callback
    come before the rest; [replies] are those to the reads, in turn and by length. *)
Fixpoint submit_sync (fuel : nat) (replies : nat -> nat -> list PreadReply) (requests : list (Request Tag)) (st : St)
    (calls : list (Request Tag * Answer)) : option (outcome (St * list (Request Tag * Answer))) :=
  match requests with
  | [] => Some (Returns (st, calls))
  | r :: requests =>
    match fuel with
    | O => None
    | S fuel =>
      match r with
      | StatReq _ _ => Some (Exits AssertFailed)
      | ReadReq fd len offset cb =>
        s ← complete_pread (files fd) (replies (length calls) len) len offset;
        match s with
        | None => Some (Exits AsyncReadFailed)
        | Some s =>
          let '(st, new) := react st cb (Data s) in
          submit_sync fuel replies (new ++ requests) st (calls ++ [(r, Data s)])
        end
      end
    end
  end.

(** ** Specification *)

Definition right (r : Request Tag) : Answer :=
  match r with
  | ReadReq fd len offset _ => Data (take len (drop offset (files fd)))
  | StatReq path _ => StatOk (statx path =? 0)
  end.

(** A read of a nonempty range that the file has, or a stat that the engine can do. *)
Definition valid (r : Request Tag) : Prop :=
  match r with
  | ReadReq fd len offset _ => (0 < len)%nat /\ (offset + len <= length (files fd))%nat
  | StatReq _ _ => supports_stat = true
  end.

(** What the engine asks of a client: an invariant of its state and of the requests
    that are not answered, kept by every callback with the right answer, and a
    measure of what is left to do. *)
Class ClientLaws := {
  client_inv : St -> list (Request Tag) -> Prop;
  potential : St -> nat;
  weight : Tag -> nat;
  cost r := match r with ReadReq _ len _ cb => (len + weight cb)%nat | StatReq _ cb => weight cb end;
  client_perm st : Proper (Permutation ==> iff) (client_inv st);
  client_valid st out : client_inv st out -> Forall valid out;
  client_react st r out st' new : client_inv st (r :: out) -> react st (tag r) (right r) = (st', new) ->
    client_inv st' (new ++ out) /\ (potential st' + sum_list_with cost new < potential st + weight (tag r))%nat
}.

(** The client's own run over its answered requests: its state, and what it asked for. *)
Fixpoint replay (st : St) (calls : list (Request Tag * Answer)) : St * list (Request Tag) :=
  match calls with
  | [] => (st, [])
  | (r, a) :: calls =>
    let '(st, new) := react st (tag r) a in
    let '(st, more) := replay st calls in (st, new ++ more)
  end.

(** Every request, of the client's first ones or of a callback, was answered exactly
    once and rightly. *)
Definition delivered (st : St) (requests : list (Request Tag)) (st' : St) (calls : list (Request Tag * Answer)) : Prop :=
  fst (replay st calls) = st' /\ map fst calls ≡ₚ requests ++ snd (replay st calls) /\
  Forall (fun '(r, a) => a = right r) calls.

(** No read fails, and no wait is interrupted. *)
Definition kernel_ok : Prop :=
  (forall t fl, Forall (fun m => is_chunk (snd m) = true) (peek kernel t fl)) /\
  (forall t fl, match wait kernel t fl with
                | Some (m, ms) => Forall (fun m => is_chunk (snd m) = true) (m :: ms)
                | None => False
                end).

(** *** The invariant of the ring *)

Definition pendings (e : Engine) : list (PendingRead Tag) := sq e ++ in_flight e ++ map user_data (cq e).

Definition outstanding (e : Engine) : list (Request Tag) :=
  map request_of (pendings e) ++ queued_reads e ++ queued_stats e.

(** What was read so far is the start of the range, and something is left. *)
Definition p_ok (p : PendingRead Tag) : Prop :=
  match p with
  | OpRead _ buf len fd offset iov_len =>
    (0 < iov_len)%nat /\ (length buf + iov_len = len)%nat /\ (length buf <= offset)%nat /\
    (offset + iov_len <= length (files fd))%nat /\ buf = take (length buf) (drop (offset - length buf) (files fd))
  | OpStat _ _ => True
  end.

Definition cqe_ok (c : CQE Tag) : Prop :=
  exists reply, c = kernel_cqe (user_data c) reply /\ (kernel_ok -> is_chunk reply = true).

Record ring_ok (e : Engine) : Prop := {
  rok_count : pending_reads e = length (pendings e);
  rok_depth : (pending_reads e <= queue_depth)%nat;
  rok_pending : Forall p_ok (pendings e);
  rok_cq : Forall cqe_ok (cq e)
}.

(** Requests wait in the queues only if the ring is full. *)
Definition full (e : Engine) : Prop := queued_reads e = [] /\ queued_stats e = [] \/ pending_reads e = queue_depth.

Lemma queue_depth_pos : queue_depth = 0%nat -> False.
Proof. done. Qed.

#[local] Opaque queue_depth.

(** *** The kernel moves requests *)

Record moved (e e' : Engine) : Prop := {
  mv_pending : pending_reads e' = pending_reads e;
  mv_reads : queued_reads e' = queued_reads e;
  mv_stats : queued_stats e' = queued_stats e;
  mv_pendings : pendings e' ≡ₚ pendings e
}.

Lemma moved_refl e : moved e e.
Proof. done. Qed.

Lemma moved_trans e1 e2 e3 : moved e1 e2 -> moved e2 e3 -> moved e1 e3.
Proof. intros [A1 A2 A3 A4] [B1 B2 B3 B4]. split; [congruence..|]. by rewrite B4. Qed.

Lemma moved_ok e e' : moved e e' -> ring_ok e -> Forall cqe_ok (cq e') -> ring_ok e'.
Proof. intros [A1 A2 A3 A4] [B1 B2 B3 B4] H. split; [by rewrite A1, A4|by rewrite A1|by rewrite A4|done]. Qed.

Lemma moved_outstanding e e' : moved e e' -> outstanding e' ≡ₚ outstanding e.
Proof. intros [A1 A2 A3 A4]. unfold outstanding. by rewrite A2, A3, A4. Qed.

Lemma kernel_cqe_data p reply : user_data (kernel_cqe p reply) = p.
Proof. destruct p; [by destruct reply|done]. Qed.

Lemma complete_spec moves : (kernel_ok -> Forall (fun m => is_chunk (snd m) = true) moves) -> forall e,
  Forall cqe_ok (cq e) -> moved e (complete moves e) /\ sq (complete moves e) = sq e /\
  Forall cqe_ok (cq (complete moves e)) /\ (length (cq e) <= length (cq (complete moves e)))%nat /\
  (in_flight e <> [] -> moves <> [] -> cq (complete moves e) <> []).
Proof.
  induction moves as [|[i reply] moves IH]; intros Hk e He; [done|]. cbn [complete].
  set (n := (i mod length (in_flight e))%nat). destruct (in_flight e !! n) as [p|] eqn:Hp.
  - set (e1 := ENGINE _ _ _ _ _ _ _). destruct (IH (fun k => proj2 (proj1 (Forall_cons _ _ _) (Hk k))) e1) as (M & S & F & L & _).
    + cbn. apply Forall_app. split; [done|]. constructor; [|constructor]. exists reply. rewrite kernel_cqe_data.
      split; [done|]. intros k. by apply Hk, Forall_cons in k as [? _].
    + split; [|split; [done|split; [done|split; [|intros _ _ E; rewrite E in L; cbn in L; rewrite length_app in L; cbn in L; lia]]]].
      * apply (moved_trans e e1); [|done]. split; [done..|]. unfold pendings. cbn. rewrite List.map_app. cbn [map]. rewrite kernel_cqe_data.
        apply Permutation_app_head. rewrite (app_assoc (delete _ _)), <- Permutation_cons_append, app_comm_cons.
        apply Permutation_app_tail. symmetry. by apply delete_Permutation.
      * cbn in L. rewrite length_app in L. cbn in L. lia.
  - split; [done|]. split; [done|]. split; [done|]. split; [done|]. intros Hne _. exfalso.
    apply lookup_ge_None in Hp. assert (n < length (in_flight e))%nat; [|lia]. apply Nat.mod_upper_bound.
    by destruct (in_flight e).
Qed.

Lemma do_peek_spec e : ring_ok e -> moved e (do_peek e) /\ ring_ok (do_peek e) /\ sq (do_peek e) = sq e /\
  (length (cq e) <= length (cq (do_peek e)))%nat.
Proof.
  intros He. destruct (complete_spec (peek kernel (clock e) (in_flight e)) (fun k => proj1 k _ _) (tick e)) as (M & S & F & L & _);
    [apply He|]. unfold do_peek. split; [by apply (moved_trans e (tick e))|]. split; [|done].
  by apply (moved_ok (tick e)); [|destruct He; split|].
Qed.

Lemma do_wait_spec e : ring_ok e -> in_flight e <> [] ->
  match do_wait e with
  | Returns e' => moved e e' /\ ring_ok e' /\ sq e' = sq e /\ cq e' <> []
  | Exits SubmitFailed => ~ kernel_ok
  | _ => False
  end.
Proof.
  intros He Hne. unfold do_wait. destruct (in_flight e) as [|p0 fl] eqn:Efl; [done|]. rewrite <- Efl in *.
  destruct (wait kernel (clock e) (in_flight e)) as [[m ms]|] eqn:Ew.
  - destruct (complete_spec (m :: ms)) with (e := tick e) as (M & S & F & L & N).
    + intros k. pose proof (proj2 k (clock e) (in_flight e)) as H. by rewrite Ew in H.
    + apply He.
    + split; [by apply (moved_trans e (tick e))|]. split; [by apply (moved_ok (tick e)); [|destruct He; split|]|].
      split; [done|]. by apply N.
  - intros k. pose proof (proj2 k (clock e) (in_flight e)) as H. by rewrite Ew in H.
Qed.

(** *** Requests go in *)

Lemma new_pending_request r : request_of (new_pending r) = r.
Proof. destruct r; [|done]. cbn [new_pending request_of length]. f_equal. lia. Qed.

Lemma new_pending_ok r : valid r -> p_ok (new_pending r).
Proof. destruct r; [|done]. cbn. intros [H1 H2]. split; [done|]. split; [done|]. split; [lia|]. by split. Qed.

(** The queues aside, [e'] has [new] more requests than [e], all in the ring. *)
Record grown (new : list (Request Tag)) (e e' : Engine) : Prop := {
  gr_ok : ring_ok e';
  gr_out : outstanding e' ≡ₚ new ++ outstanding e;
  gr_pending : (pending_reads e <= pending_reads e')%nat;
  gr_sq : pending_reads e' = pending_reads e -> sq e' = sq e;
  gr_full : full e -> full e';
  gr_cq : cq e' = cq e
}.

Lemma submit_internal_spec r e : ring_ok e -> valid r -> (pending_reads e < queue_depth)%nat -> exists e',
  submit_internal r e = Returns e' /\ grown [r] e e' /\ pending_reads e' = S (pending_reads e) /\
  queued_reads e' = queued_reads e /\ queued_stats e' = queued_stats e /\ pendings e' ≡ₚ new_pending r :: pendings e.
Proof.
  intros [H1 H2 H3 H4] Hr Hlt. unfold submit_internal.
  assert (Hsq : (length (sq e) < queue_depth)%nat) by (unfold pendings in H1; rewrite length_app in H1; lia).
  rewrite decide_True by done. set (e' := ENGINE _ _ _ _ _ _ _). exists e'. split; [done|].
  assert (P : pendings e' ≡ₚ new_pending r :: pendings e).
  { unfold pendings, e'. cbn. rewrite <- app_assoc. cbn [app]. symmetry. apply Permutation_middle. }
  assert (N : pending_reads e' = S (pending_reads e)) by (cbn; lia).
  split; [split; try done|done].
  - split; [rewrite P; cbn [length]; lia|lia| |done]. rewrite P. constructor; [by apply new_pending_ok|done].
  - unfold outstanding. rewrite P. cbn. by rewrite new_pending_request.
  - lia.
  - lia.
  - intros [H|H]; [by left|lia].
Qed.

(** *** The client *)

Context {CL : ClientLaws}.

Definition pcost (p : PendingRead Tag) : nat :=
  match p with OpRead cb _ _ _ _ iov_len => (iov_len + weight cb)%nat | OpStat _ cb => weight cb end.

(** What the requests still cost. *)
Definition load (e : Engine) : nat :=
  (sum_list_with pcost (pendings e) + sum_list_with cost (queued_reads e) + sum_list_with cost (queued_stats e))%nat.

Lemma moved_load e e' : moved e e' -> load e' = load e.
Proof. intros [A1 A2 A3 A4]. unfold load. by rewrite A2, A3, A4. Qed.

Lemma new_pending_cost r : pcost (new_pending r) = cost r.
Proof. by destruct r. Qed.

Lemma submit_spec r e : ring_ok e -> valid r ->
  exists e', submit r e = Returns e' /\ grown [r] e e' /\ load e' = (cost r + load e)%nat.
Proof.
  intros He Hr. destruct (decide (pending_reads e < queue_depth)%nat) as [Hlt|Hge].
  - destruct (submit_internal_spec r e He Hr Hlt) as (e' & E & G & _ & Q1 & Q2 & P). exists e'. split; [|split; [done|]].
    + unfold submit. destruct r as [|path cb]; [by rewrite decide_True|]. cbn in Hr. rewrite Hr. by rewrite decide_True.
    + unfold load. rewrite P, Q1, Q2. cbn [sum_list_with]. rewrite new_pending_cost. lia.
  - destruct He as [H1 H2 H3 H4]. unfold submit.
    destruct r as [fd len offset cb|path cb]; [|cbn in Hr; rewrite Hr; cbn [negb]]; rewrite decide_False by done;
      eexists; (split; [done|split; [split; try done|]]).
    + unfold outstanding. cbn [queued_reads queued_stats]. change (pendings (ENGINE _ _ _ _ _ _ _)) with (pendings e).
      rewrite <- (app_assoc (queued_reads e)). cbn [app]. by rewrite <- !Permutation_middle.
    + intros _. right. cbn. lia.
    + unfold load. cbn [queued_reads queued_stats]. change (pendings (ENGINE _ _ _ _ _ _ _)) with (pendings e).
      rewrite sum_list_with_app. cbn [sum_list_with]. lia.
    + unfold outstanding. cbn [queued_reads queued_stats]. change (pendings (ENGINE _ _ _ _ _ _ _)) with (pendings e).
      rewrite (app_assoc (queued_reads e)). cbn [app]. rewrite <- Permutation_cons_append. by rewrite <- Permutation_middle.
    + intros _. right. cbn. lia.
    + unfold load. cbn [queued_reads queued_stats]. change (pendings (ENGINE _ _ _ _ _ _ _)) with (pendings e).
      rewrite sum_list_with_app. cbn [sum_list_with]. lia.
Qed.

Lemma grown_trans n1 n2 e1 e2 e3 : grown n1 e1 e2 -> grown n2 e2 e3 -> grown (n1 ++ n2) e1 e3.
Proof.
  intros [A1 A2 A3 A4 A5 A6] [B1 B2 B3 B4 B5 B6]. split; [done| |lia| |auto|congruence].
  - rewrite B2, A2, <- app_assoc. apply Permutation_app_swap_app.
  - intros H. rewrite B4 by lia. apply A4. lia.
Qed.

Lemma submit_all_spec rs : forall e, ring_ok e -> Forall valid rs ->
  exists e', submit_all rs e = Returns e' /\ grown rs e e' /\ load e' = (sum_list_with cost rs + load e)%nat.
Proof.
  induction rs as [|r rs IH]; intros e He F; cbn [submit_all].
  - exists e. split; [done|]. split; [by split|done].
  - apply Forall_cons in F as [Hr F]. destruct (submit_spec r e He Hr) as (e1 & -> & G1 & L1). cbn [mbind outcome_bind].
    destruct (IH e1 (gr_ok _ _ _ G1) F) as (e2 & -> & G2 & L2). exists e2. split; [done|].
    split; [by apply (grown_trans [r] rs e e1 e2)|]. cbn [sum_list_with]. lia.
Qed.

(** Requests leave the queues for the ring. *)
Lemma drain_stats_spec qs : forall e ats, queued_stats e = qs -> ring_ok e -> Forall valid (outstanding e) ->
  (ats = false -> sq e = []) -> exists e' ats', drain_stats qs e ats = Returns (e', ats') /\ ring_ok e' /\
  outstanding e' ≡ₚ outstanding e /\ load e' = load e /\ queued_reads e' = queued_reads e /\
  (queued_stats e' = [] \/ pending_reads e' = queue_depth) /\ (ats' = false -> sq e' = []).
Proof.
  induction qs as [|r qs IH]; intros e ats Hq He Hv Hs; cbn [drain_stats]; [by exists e, ats; repeat (split; [done|]); split; [left|]|].
  destruct (decide (pending_reads e < queue_depth)%nat) as [Hlt|Hge].
  2: { exists e, ats. repeat (split; [done|]). split; [|done]. right. pose proof (rok_depth _ He). lia. }
  assert (Hr : valid r). { unfold outstanding in Hv. rewrite Hq in Hv. rewrite !Forall_app, Forall_cons in Hv. by destruct Hv as (_ & _ & ? & _). }
  destruct (submit_internal_spec r e He Hr Hlt) as (e1 & -> & [G1 G2 _ _ _ _] & _ & Q1 & Q2 & P). cbn [mbind outcome_bind].
  set (e2 := ENGINE _ _ _ _ _ _ _). assert (Pe : pendings e2 = pendings e1) by done.
  assert (O : outstanding e2 ≡ₚ outstanding e).
  { unfold outstanding. rewrite Pe, P, Hq. cbn [map app]. unfold e2. cbn [queued_reads queued_stats]. rewrite Q1, new_pending_request.
    rewrite (app_assoc _ _ (r :: qs)), <- Permutation_middle. by rewrite <- app_assoc. }
  assert (L : load e2 = load e).
  { unfold load. rewrite Pe, P, Hq. unfold e2. cbn [queued_reads queued_stats sum_list_with]. rewrite Q1, new_pending_cost. lia. }
  destruct (IH e2 true) as (e3 & ats3 & -> & H1 & H2 & H3 & H4 & H5 & H6); [done| |by rewrite O|done|].
  - destruct G1. by split.
  - exists e3, ats3. split; [done|]. split; [done|]. split; [by rewrite H2|]. split; [lia|]. split; [|by split].
    rewrite H4. done.
Qed.

Lemma drain_reads_spec qs : forall e ats, queued_reads e = qs -> ring_ok e -> Forall valid (outstanding e) ->
  (ats = false -> sq e = []) -> (queued_stats e = [] \/ pending_reads e = queue_depth) ->
  exists e' ats', drain_reads qs e ats = Returns (e', ats') /\ ring_ok e' /\
  outstanding e' ≡ₚ outstanding e /\ load e' = load e /\ full e' /\ (ats' = false -> sq e' = []).
Proof.
  induction qs as [|r qs IH]; intros e ats Hq He Hv Hs Hf; cbn [drain_reads].
  { exists e, ats. repeat (split; [done|]). split; [|done]. destruct Hf as [H|H]; [by left|by right]. }
  destruct (decide (pending_reads e < queue_depth)%nat) as [Hlt|Hge].
  2: { exists e, ats. repeat (split; [done|]). split; [|done]. right. pose proof (rok_depth _ He). lia. }
  destruct Hf as [Hf|Hf]; [|lia].
  assert (Hr : valid r). { unfold outstanding in Hv. rewrite Hq in Hv. rewrite Forall_app in Hv. cbn [app] in Hv.
    rewrite Forall_cons in Hv. by destruct Hv as (_ & ? & _). }
  destruct (submit_internal_spec r e He Hr Hlt) as (e1 & -> & [G1 G2 _ _ _ _] & _ & Q1 & Q2 & P). cbn [mbind outcome_bind].
  set (e2 := ENGINE _ _ _ _ _ _ _). assert (Pe : pendings e2 = pendings e1) by done.
  assert (O : outstanding e2 ≡ₚ outstanding e).
  { unfold outstanding. rewrite Pe, P, Hq. cbn [map app]. unfold e2. cbn [queued_reads queued_stats]. rewrite Q2, new_pending_request.
    by rewrite <- Permutation_middle. }
  assert (L : load e2 = load e).
  { unfold load. rewrite Pe, P, Hq. unfold e2. cbn [queued_reads queued_stats sum_list_with]. rewrite Q2, new_pending_cost. lia. }
  destruct (IH e2 true) as (e3 & ats3 & -> & H1 & H2 & H3 & H4 & H5); [done| |by rewrite O|done|left; cbn; congruence|].
  - destruct G1. by split.
  - exists e3, ats3. split; [done|]. split; [done|]. split; [by rewrite H2|]. split; [lia|]. by split.
Qed.

(** *** Callbacks *)

Lemma replay_snoc calls : forall st r a, replay st (calls ++ [(r, a)]) =
  let '(st1, emitted) := replay st calls in let '(st2, new) := react st1 (tag r) a in (st2, emitted ++ new).
Proof.
  induction calls as [|[r0 a0] calls IH]; intros st r a; cbn [app replay].
  - destruct (react st (tag r) a). by rewrite app_nil_r.
  - destruct (react st (tag r0) a0) as [st1 new0]. rewrite IH. destruct (replay st1 calls) as [st2 em].
    destruct (react st2 (tag r) a). by rewrite app_assoc.
Qed.

(** The requests [out] of a run are not answered yet. *)
Record answered_so_far (st0 : St) (requests out : list (Request Tag)) (run : Run) : Prop := {
  as_client : client_inv (state run) out;
  as_state : fst (replay st0 (calls run)) = state run;
  as_perm : map fst (calls run) ++ out ≡ₚ requests ++ snd (replay st0 (calls run));
  as_right : Forall (fun '(r, a) => a = right r) (calls run)
}.

Definition run_inv (st0 : St) (requests : list (Request Tag)) (run : Run) : Prop :=
  ring_ok (engine run) /\ answered_so_far st0 requests (outstanding (engine run)) run.

Definition work (run : Run) : nat := (potential (state run) + load (engine run))%nat.

Lemma answered_perm st0 requests out out' run : out ≡ₚ out' -> answered_so_far st0 requests out run ->
  answered_so_far st0 requests out' run.
Proof.
  intros P [H1 H2 H3 H4]. split; [|done| |done].
  - by eapply client_perm; [|exact H1].
  - by rewrite <- P.
Qed.

Lemma answered_engine st0 requests out e e' st calls : answered_so_far st0 requests out (RUN e st calls) ->
  answered_so_far st0 requests out (RUN e' st calls).
Proof. intros [H1 H2 H3 H4]. by split. Qed.

Lemma call_back_spec st0 requests r run : ring_ok (engine run) ->
  answered_so_far st0 requests (r :: outstanding (engine run)) run -> exists run',
  call_back r (right r) run = Returns run' /\ run_inv st0 requests run' /\
  (work run' < work run + weight (tag r))%nat /\
  (pending_reads (engine run) <= pending_reads (engine run'))%nat /\
  (pending_reads (engine run') = pending_reads (engine run) -> sq (engine run') = sq (engine run)).
Proof.
  intros He [H1 H2 H3 H4]. unfold call_back. destruct (react (state run) (tag r) (right r)) as [st new] eqn:Er.
  destruct (client_react _ _ _ _ _ H1 Er) as (C & W). pose proof (client_valid _ _ C) as V. apply Forall_app in V as [V _].
  destruct (submit_all_spec new (engine run) He V) as (e & -> & [G1 G2 G3 G4 _ _] & L). cbn [mbind outcome_bind].
  eexists. split; [done|]. split; [split; [done|]|].
  - cbn [engine]. pose proof (replay_snoc (calls run) st0 r (right r)) as R.
    destruct (replay st0 (calls run)) as [st1 em]. cbn [fst snd] in *. subst st1. rewrite Er in R.
    split; cbn [state calls].
    + by eapply client_perm; [exact G2|].
    + by rewrite R.
    + rewrite R. cbn [snd]. rewrite List.map_app, G2. cbn [map fst]. rewrite <- app_assoc. cbn [app].
      rewrite (app_assoc requests), <- H3, <- app_assoc. apply Permutation_app_head. cbn [app]. apply perm_skip, Permutation_app_comm.
    + apply Forall_app. split; [done|]. by constructor.
  - unfold work. cbn [engine state]. rewrite L. split; [lia|]. by split.
Qed.

(** *** Completions *)

Lemma pread_next cb buf len fd offset iov_len n : p_ok (OpRead cb buf len fd offset iov_len) ->
  let data := pread (files fd) iov_len offset n in
  (0 < length data <= iov_len)%nat /\ buf ++ data = take (length buf + length data) (drop (offset - length buf) (files fd)).
Proof.
  intros (H1 & H2 & H3 & H4 & H5) data. pose proof (length_pread (files fd) iov_len offset n) as L. fold data in L.
  split; [lia|]. assert (E : data = take (length data) (drop offset (files fd))).
  { unfold data, pread. rewrite length_take. rewrite length_drop. by rewrite (Nat.min_l (Nat.min _ _)) by lia. }
  replace offset with ((offset - length buf) + length buf)%nat in E by lia. rewrite <- drop_drop in E.
  set (o := (offset - length buf)%nat) in *. rewrite E at 1. rewrite H5 at 1. apply take_take_drop.
Qed.

(** What the handling of a completion leads to. *)
Definition handled (st0 : St) (requests : list (Request Tag)) (before : nat) (o : outcome (Run * bool)) : Prop :=
  match o with
  | Returns (run, ats) => run_inv st0 requests run /\ (work run < before)%nat /\ (ats = false -> sq (engine run) = [])
  | Exits AsyncReadFailed => ~ kernel_ok
  | _ => False
  end.

Definition pop (e : Engine) (rest : list (CQE Tag)) : Engine :=
  ENGINE (pending_reads e) (queued_reads e) (queued_stats e) (sq e) (in_flight e) rest (clock e).

Lemma pop_spec c rest e : cq e = c :: rest -> ring_ok e ->
  p_ok (user_data c) /\ cqe_ok c /\ pending_reads e = S (length (pendings (pop e rest))) /\
  ring_ok (done_one (pop e rest)) /\ outstanding e ≡ₚ request_of (user_data c) :: outstanding (pop e rest) /\
  load e = (pcost (user_data c) + load (pop e rest))%nat.
Proof.
  intros Hc [H1 H2 H3 H4]. assert (P : pendings e ≡ₚ user_data c :: pendings (pop e rest)).
  { unfold pendings. rewrite Hc. cbn [map sq in_flight cq pop]. rewrite !app_assoc. symmetry. apply Permutation_middle. }
  rewrite Hc in H4. apply Forall_cons in H4 as [Hc1 H4]. pose proof H1 as H1'. rewrite P in H1', H3. cbn [length] in H1'.
  apply Forall_cons in H3 as [H3 H3']. split; [done|]. split; [done|]. split; [done|]. split; [|split].
  - split; [|change (pending_reads (done_one (pop e rest))) with (pending_reads e - 1)%nat; lia|done|done].
    change (pendings (done_one (pop e rest))) with (pendings (pop e rest)).
    change (pending_reads (done_one (pop e rest))) with (pending_reads e - 1)%nat. lia.
  - unfold outstanding. rewrite P. done.
  - unfold load. rewrite P. cbn [sum_list_with queued_reads queued_stats pop]. lia.
Qed.

Lemma finish_one_spec st0 requests c rest run ats : cq (engine run) = c :: rest -> run_inv st0 requests run ->
  (ats = false -> sq (engine run) = []) ->
  handled st0 requests (work run)
    (finish_one (request_of (user_data c)) (right (request_of (user_data c))) (RUN (pop (engine run) rest) (state run) (calls run)) ats).
Proof.
  intros Hc [He Ha] Hs. destruct (pop_spec c rest _ Hc He) as (Hp & _ & _ & Hr & O & L).
  unfold finish_one. cbn [engine state calls]. set (run1 := RUN _ _ _). set (r := request_of (user_data c)) in *.
  destruct (call_back_spec st0 requests r run1) as (run2 & -> & I & W & P1 & P2).
  - done.
  - apply (answered_perm _ _ (outstanding (engine run)) _ _ O) in Ha. destruct run as [e st cs]. by apply (answered_engine _ _ _ e).
  - cbn [mbind outcome_bind handled]. split; [done|]. split.
    + assert (Hw : (weight (tag r) <= pcost (user_data c))%nat) by (unfold r; destruct (user_data c); cbn; lia).
      change (work run1) with (potential (state run) + load (pop (engine run) rest))%nat in W. unfold work at 2. lia.
    + destruct (Nat.eqb_spec (pending_reads (engine run2)) (pending_reads (done_one (pop (engine run) rest)))) as [E|E]; [|done].
      intros Hats. rewrite (P2 E). by apply Hs.
Qed.

Lemma handle_cqe_spec st0 requests c rest run ats : cq (engine run) = c :: rest -> run_inv st0 requests run ->
  (ats = false -> sq (engine run) = []) ->
  handled st0 requests (work run) (handle_cqe c (RUN (pop (engine run) rest) (state run) (calls run)) ats).
Proof.
  intros Hc Hi Hs. destruct (pop_spec c rest _ Hc (proj1 Hi)) as (Hp & (reply & Hk & Hok) & Hcount & Hr & O & L).
  pose proof (finish_one_spec st0 requests c rest run ats Hc Hi Hs) as F. unfold handle_cqe.
  destruct (user_data c) as [cb buf len fd offset iov_len|path cb] eqn:Eu; cbn [kernel_cqe] in Hk.
  2: { rewrite Hk. exact F. }
  destruct reply as [| |n]; [rewrite Hk; cbn [res handled]; intros k; by apply Hok in k..|].
  destruct (pread_next cb buf len fd offset iov_len n Hp) as (Hlen & Happ). set (data := pread (files fd) iov_len offset n) in *.
  rewrite Hk. cbn [res written]. destruct (Z.leb_spec (Z.of_nat (length data)) 0); [lia|].
  destruct (Z.ltb_spec (Z.of_nat (length data)) (Z.of_nat iov_len)) as [Hlt|Hge].
  - rewrite Nat2Z.id. cbn [engine state calls]. change (sq (pop (engine run) rest)) with (sq (engine run)).
    destruct Hi as [[I1 I2 I3 I4] Ha].
    assert (Hsq : (length (sq (engine run)) < queue_depth)%nat).
    { rewrite Hcount in I2. unfold pendings in I2. rewrite length_app in I2. cbn [pop sq] in I2. lia. }
    rewrite decide_True by done. cbn [handled]. set (p' := OpRead cb (buf ++ data) len fd (offset + length data) (iov_len - length data)).
    set (e' := ENGINE _ _ _ _ _ _ _).
    assert (P : pendings e' ≡ₚ p' :: pendings (pop (engine run) rest)).
    { unfold pendings, e'. cbn. rewrite <- app_assoc. cbn [app]. symmetry. apply Permutation_middle. }
    destruct Hp as (P1 & P2 & P3 & P4 & P5). split; [split; cbn [engine]|split; [|done]].
    + split; [rewrite P; cbn [length]; exact Hcount|exact I2| |apply Hr].
      rewrite P. constructor; [|apply Hr]. unfold p'. cbn [p_ok]. rewrite length_app. split; [lia|]. split; [lia|]. split; [lia|].
      split; [lia|]. replace (offset + length data - (length buf + length data))%nat with (offset - length buf)%nat by lia. done.
    + destruct run as [e st cs]. apply (answered_engine _ _ _ e). eapply answered_perm; [|exact Ha]. cbn [engine] in *.
      rewrite O. unfold outstanding. rewrite P. cbn [map app]. apply reflexive_eq. f_equal.
      cbn [request_of p']. rewrite length_app. f_equal. lia.
    + unfold work. cbn [engine state]. rewrite L. unfold load. rewrite P. cbn [sum_list_with pcost p' queued_reads queued_stats e' pop]. lia.
  - replace (Data (buf ++ data)) with (right (request_of (OpRead cb buf len fd offset iov_len))); [exact F|].
    cbn [request_of right]. f_equal. rewrite Happ. f_equal. destruct Hp as (P1 & P2 & _). lia.
Qed.

Lemma work_pos st0 requests run : run_inv st0 requests run -> (0 < length (pendings (engine run)))%nat -> (0 < work run)%nat.
Proof.
  intros [Hr Ha] Hlen. destruct (pendings (engine run)) as [|p ps] eqn:Ep; [cbn in Hlen; lia|].
  assert (O : outstanding (engine run) ≡ₚ request_of p :: (map request_of ps ++ queued_reads (engine run) ++ queued_stats (engine run))).
  { unfold outstanding. by rewrite Ep. }
  pose proof (as_client _ _ _ _ (answered_perm _ _ _ _ _ O Ha)) as C. set (r := request_of p) in *.
  destruct (react (state run) (tag r) (right r)) as [st new] eqn:Er. destruct (client_react _ _ _ _ _ C Er) as [_ W].
  assert (Hw : (weight (tag r) <= pcost p)%nat) by (unfold r; destruct p; cbn; lia).
  unfold work, load. rewrite Ep. cbn [sum_list_with]. lia.
Qed.

(** All completions there are, and those that come meanwhile. *)
Lemma for_each_cqe_spec st0 requests fuel : forall run ats, run_inv st0 requests run -> (work run <= fuel)%nat ->
  (ats = false -> sq (engine run) = []) ->
  exists o, for_each_cqe fuel run ats = Some o /\ handled st0 requests (S (work run)) o /\
    (cq (engine run) <> [] -> handled st0 requests (work run) o).
Proof.
  induction fuel as [|fuel IH]; intros run ats [Hr Ha] Hf Hs; cbn [for_each_cqe];
    destruct (do_peek_spec _ Hr) as (M & Hr' & S' & L'); set (e := do_peek (engine run)) in *;
    set (run1 := RUN e (state run) (calls run));
    (assert (I1 : run_inv st0 requests run1); [split; [done|]; destruct run as [e0 st cs]; apply (answered_engine _ _ _ e0);
      eapply answered_perm; [|exact Ha]; symmetry; by apply moved_outstanding|]);
    (assert (W1 : work run1 = work run); [unfold work; cbn; by rewrite (moved_load _ _ M)|]);
    (assert (S1 : ats = false -> sq (engine run1) = []); [by intros ?; cbn; rewrite S'; apply Hs|]);
    destruct (cq e) as [|c rest] eqn:Ec.
  1, 3: (exists (Returns (run1, ats)); split; [done|]; split; [cbn; split; [done|]; split; [lia|done]|];
    intros Hne; destruct (cq (engine run)); [done|cbn in L'; lia]).
  - pose proof (work_pos _ _ _ I1) as H. cbn [engine run1] in H. unfold pendings in H. rewrite Ec, !length_app in H.
    cbn [map length] in H. lia.
  - pose proof (handle_cqe_spec st0 requests c rest run1 ats Ec I1 S1) as H. cbn [engine state calls run1] in H.
    change (ENGINE (pending_reads e) (queued_reads e) (queued_stats e) (sq e) (in_flight e) rest (clock e)) with (pop e rest).
    destruct (handle_cqe c (RUN (pop e rest) (state run) (calls run)) ats) as [[run2 ats2]|f|]; cbn [handled] in H.
    + destruct H as (I2 & W2 & S2). destruct (IH run2 ats2 I2) as (o & -> & Ho & _); [lia|done|].
      exists o. split; [done|].
      assert (Hh : handled st0 requests (work run) o). { destruct o as [[run3 ats3]|f|]; [|done..]. cbn in *. destruct Ho as (? & ? & ?).
        split; [done|]. split; [lia|done]. }
      split; [|done]. destruct o as [[run3 ats3]|f|]; [|done..]. cbn in *. destruct Hh as (? & ? & ?). split; [done|]. split; [lia|done].
    + exists (Exits f). by destruct f.
    + done.
Qed.

(** *** The loop *)

(** Whenever the engine waits, something is in flight. *)
Lemma get_ready_spec e ats : ring_ok e -> (0 < pending_reads e)%nat -> (ats = false -> sq e = []) ->
  match get_ready e ats with
  | Returns (e', ats') => moved e e' /\ ring_ok e' /\ cq e' <> [] /\ (ats' = false -> sq e' = [])
  | Exits SubmitFailed => ~ kernel_ok
  | _ => False
  end.
Proof.
  intros He Hpos Hs. destruct (do_peek_spec e He) as (M & He' & S' & L'). unfold get_ready. set (e1 := do_peek e) in *.
  destruct (cq e1) as [|c rest] eqn:Ec; [|by rewrite Ec; split; [done|]; split; [done|]; split; [done|]; intros ?; rewrite S'; apply Hs].
  assert (Hcount : pending_reads e1 = (length (sq e1) + length (in_flight e1))%nat).
  { rewrite (rok_count _ He'). unfold pendings. rewrite Ec, !length_app. cbn [map length]. lia. }
  rewrite (mv_pending _ _ M) in Hcount. destruct ats; cbn iota.
  - set (e2 := do_submit e1). assert (M2 : moved e1 e2).
    { split; [done..|]. unfold pendings, e2, do_submit. cbn [sq in_flight cq app]. rewrite !app_assoc.
      apply Permutation_app_tail, Permutation_app_comm. }
    assert (He2 : ring_ok e2) by (apply (moved_ok e1); [done|done|apply He']).
    pose proof (do_wait_spec e2 He2) as W. destruct (do_wait e2) as [e3|f|]; cbn [mbind outcome_bind].
    + destruct W as (M3 & He3 & S3 & Hc3); [|split; [by eapply moved_trans; [|eapply moved_trans]|]; split; [done|]; split; [done|]; by rewrite S3].
      unfold e2, do_submit. cbn. intros E. apply (f_equal length) in E. rewrite length_app in E. cbn in E. lia.
    + apply W. unfold e2, do_submit. cbn. intros E. apply (f_equal length) in E. rewrite length_app in E. cbn in E. lia.
    + apply W. unfold e2, do_submit. cbn. intros E. apply (f_equal length) in E. rewrite length_app in E. cbn in E. lia.
  - rewrite Hs in S' by done. rewrite S' in Hcount. cbn in Hcount.
    assert (Hne : in_flight e1 <> []) by (intros E; rewrite E in Hcount; cbn in Hcount; lia).
    pose proof (do_wait_spec e1 He' Hne) as W. destruct (do_wait e1) as [e3|f|]; cbn [mbind outcome_bind]; [|done..].
    destruct W as (M3 & He3 & S3 & Hc3). split; [by eapply moved_trans|]. split; [done|]. split; [done|]. by rewrite S3.
Qed.

(** How [finish] ends: everything is answered, or a read or a wait failed. *)
Definition finished (st0 : St) (requests : list (Request Tag)) (o : outcome Run) : Prop :=
  match o with
  | Returns run => run_inv st0 requests run /\ outstanding (engine run) = []
  | Exits AsyncReadFailed | Exits SubmitFailed => ~ kernel_ok
  | _ => False
  end.

Lemma finish_loop_spec st0 requests fuel : forall run ats, run_inv st0 requests run -> full (engine run) ->
  (ats = false -> sq (engine run) = []) -> (work run <= fuel)%nat ->
  exists o, finish_loop fuel run ats = Some o /\ finished st0 requests o.
Proof.
  induction fuel as [|fuel IH]; intros run ats [Hr Ha] Hfull Hs Hf; cbn [finish_loop];
    (destruct (Nat.eqb_spec (pending_reads (engine run)) 0) as [Hz|Hz];
     [exists (Returns run); split; [done|]; split; [done|]; unfold outstanding;
      (destruct Hfull as [[-> ->]|Hfull]; [|rewrite Hfull in Hz; by apply queue_depth_pos in Hz]);
      rewrite (rok_count _ Hr) in Hz; by destruct (pendings (engine run))|]).
  { pose proof (work_pos st0 requests run (conj Hr Ha)) as Hw. rewrite <- (rok_count _ Hr) in Hw. lia. }
  pose proof (get_ready_spec (engine run) ats Hr ltac:(lia) Hs) as G.
  destruct (get_ready (engine run) ats) as [[e1 ats1]|f|]; [|by exists (Exits f); destruct f|done].
  destruct G as (M & Hr1 & Hc1 & Hs1). set (run1 := RUN e1 (state run) (calls run)).
  assert (I1 : run_inv st0 requests run1).
  { split; [done|]. destruct run as [e0 st cs]. apply (answered_engine _ _ _ e0). eapply answered_perm; [|exact Ha].
    symmetry. by apply moved_outstanding. }
  assert (W1 : work run1 = work run) by (unfold work; cbn; by rewrite (moved_load _ _ M)).
  destruct (for_each_cqe_spec st0 requests (S fuel) run1 ats1 I1) as (o & -> & _ & Ho); [lia|done|]. specialize (Ho Hc1).
  cbn [mbind option_bind]. destruct o as [[run2 ats2]|f|]; [|by exists (Exits f); destruct f|done].
  destruct Ho as ((Hr2 & Ha2) & W2 & Hs2). pose proof (client_valid _ _ (as_client _ _ _ _ Ha2)) as V2.
  destruct (drain_stats_spec _ (engine run2) ats2 eq_refl Hr2 V2 Hs2) as (e3 & ats3 & -> & Hr3 & O3 & L3 & Q3 & F3 & Hs3).
  cbn [mbind outcome_bind].
  destruct (drain_reads_spec (queued_reads e3) e3 ats3 eq_refl Hr3) as (e4 & ats4 & -> & Hr4 & O4 & L4 & F4 & Hs4);
    [by rewrite O3|done|done|]. apply IH; [split; [done|]|done|done|].
  - destruct run2 as [e0 st cs]. apply (answered_engine _ _ _ e0). eapply answered_perm; [|exact Ha2]. by rewrite <- O3, <- O4.
  - unfold work in *. cbn [engine state] in *. lia.
Qed.

Lemma engine_finish_spec st requests fuel : client_inv st requests -> (potential st + sum_list_with cost requests <= fuel)%nat ->
  exists o, finish fuel st requests = Some o /\ finished st requests o.
Proof.
  intros C Hf. unfold finish. assert (H0 : ring_ok new_IOUringEngine) by (split; [done|cbn; lia|constructor|constructor]).
  destruct (submit_all_spec requests new_IOUringEngine H0 (client_valid _ _ C)) as (e & -> & [G1 G2 _ _ G5 _] & L).
  cbn [mbind outcome_bind]. change (outstanding new_IOUringEngine) with (@nil (Request Tag)) in G2. rewrite app_nil_r in G2.
  apply finish_loop_spec; [split; [done|]|apply G5; by left|done|unfold work; cbn; change (load new_IOUringEngine) with 0%nat in L; lia].
  split; cbn [state calls engine]; [by eapply client_perm|done| |constructor]. cbn [map app replay snd]. by rewrite app_nil_r.
Qed.

(** *** Synchronous reads *)

Lemma answered_delivered st0 requests run : answered_so_far st0 requests [] run ->
  delivered st0 requests (state run) (calls run) /\ client_inv (state run) [].
Proof. intros [H1 H2 H3 H4]. rewrite app_nil_r in H3. by split. Qed.

Lemma submit_sync_spec st0 requests0 replies (Hstat : supports_stat = false)
  (Hreplies : forall k len, (PreadError ∉ replies k len) /\ (len < length (filter is_chunk (replies k len)))%nat) fuel :
  forall requests st cs, answered_so_far st0 requests0 requests (RUN new_IOUringEngine st cs) ->
  (potential st + sum_list_with cost requests <= fuel)%nat ->
  exists st' cs', submit_sync fuel replies requests st cs = Some (Returns (st', cs')) /\
    answered_so_far st0 requests0 [] (RUN new_IOUringEngine st' cs').
Proof.
  induction fuel as [|fuel IH]; intros requests st cs Ha Hf;
    (destruct requests as [|r requests]; [by exists st, cs|]); cbn [submit_sync];
    pose proof Ha as [C A2 A3 A4]; cbn [state calls] in C, A2, A3, A4;
    destruct (react st (tag r) (right r)) as [st1 new] eqn:Er; destruct (client_react _ _ _ _ _ C Er) as [C1 W1];
    (assert (Hw : (weight (tag r) <= cost r)%nat); [destruct r; cbn; lia|]); cbn [sum_list_with] in Hf; [lia|].
  pose proof (client_valid _ _ C) as V. apply Forall_cons in V as [V _]. destruct r as [fd len offset cb|path cb].
  2: { cbn in V. by rewrite Hstat in V. }
  destruct V as [V1 V2]. unfold complete_pread. destruct (Hreplies (length cs) len) as [R1 R2].
  rewrite try_complete_pread_spec by done. unfold read_range. rewrite decide_False, decide_True by lia.
  cbn [mbind option_bind app tag right] in *. rewrite Er. apply IH.
  - pose proof (replay_snoc cs st0 (ReadReq fd len offset cb) (Data (take len (drop offset (files fd))))) as R.
    cbn [tag] in R. destruct (replay st0 cs) as [st2 em]. cbn [fst snd] in *. subst st2. rewrite Er in R.
    split; cbn [state calls]; [done|by rewrite R| |].
    + rewrite R. cbn [snd]. rewrite List.map_app. cbn [map fst]. rewrite <- app_assoc. cbn [app].
      rewrite (app_assoc requests0), <- A3, <- app_assoc. apply Permutation_app_head. cbn [app]. apply perm_skip, Permutation_app_comm.
    + apply Forall_app. split; [done|]. by constructor.
  - rewrite sum_list_with_app. lia.
Qed.

End Engine.

Arguments client_inv {Tag St files statx supports_stat react ClientLaws}.
Arguments potential {Tag St files statx supports_stat react ClientLaws}.
Arguments weight {Tag St files statx supports_stat react ClientLaws}.
Arguments cost {Tag St files statx supports_stat react ClientLaws}.

(** ** Correctness *)

(** C7. Whatever the kernel does with the requests in flight (any order, any
    sizes of reads, completions at any time), a client that keeps its laws gets
    every callback called exactly once with the right bytes or the right answer, also
    for the requests that its callbacks make and when there are more than the ring
    holds.  [finish] ends; it never waits while nothing is in flight, never runs
    out of ring entries, and ends the program only if a read or a wait failed. *)
Theorem finish_delivers {Tag St : Type} files statx supports_stat (kernel : Kernel Tag)
    (react : St -> Tag -> Answer -> St * list (Request Tag)) (CL : ClientLaws files statx supports_stat react)
    (st : St) (requests : list (Request Tag)) (fuel : nat) :
  client_inv st requests -> (potential st + sum_list_with cost requests <= fuel)%nat ->
  exists o, finish files statx supports_stat kernel react fuel st requests = Some o /\
    match o with
    | Returns run => delivered files statx react st requests (state run) (calls run) /\ client_inv (state run) []
    | Exits AsyncReadFailed | Exits SubmitFailed => ~ kernel_ok kernel
    | _ => False
    end.
Proof.
  intros C Hf. destruct (engine_finish_spec files statx supports_stat kernel react st requests fuel C Hf) as (o & E & H).
  exists o. split; [done|]. destruct o as [run|f|]; [|done..]. destruct H as [[_ Ha] O]. rewrite O in Ha. by eapply answered_delivered.
Qed.

(** Without io_uring, where each read is done at once and its callback called
    from within [submit_read], a client gets the same: every callback called exactly
    once, with the right bytes. *)
Theorem sync_delivers {Tag St : Type} files statx (react : St -> Tag -> Answer -> St * list (Request Tag))
    (CL : ClientLaws files statx false react) replies
    (Hreplies : forall k len, (PreadError ∉ replies k len) /\ (len < length (filter is_chunk (replies k len)))%nat)
    (st : St) (requests : list (Request Tag)) (fuel : nat) :
  client_inv st requests -> (potential st + sum_list_with cost requests <= fuel)%nat ->
  exists st' calls, submit_sync files react fuel replies requests st [] = Some (Returns (st', calls)) /\
    delivered files statx react st requests st' calls /\ client_inv st' [].
Proof.
  intros C Hf.
  destruct (submit_sync_spec files statx false react st requests replies eq_refl Hreplies fuel requests st []) as (st' & cs & E & A).
  - split; cbn [state calls]; [done|done| |constructor]. cbn [map app replay snd]. by rewrite app_nil_r.
  - done.
  - exists st', cs. split; [done|]. by apply (answered_delivered _ _ _ _ _ _ _ A).
Qed.

(** ** An example *)

Definition sample_file : bytes := [10; 11; 12; 13; 14; 15; 16; 17; 18; 19].

(** Callback 1 reads again, and does a stat if it can; the state counts. *)
Definition sample_react (stats : bool) (st : nat) (t : Z) (a : Answer) : nat * list (Request Z) :=
  (S st, if t =? 1 then ReadReq 0 4 2 2 :: (if stats then [StatReq [47; 97] 2] else []) else []).

Definition sample_weight (t : Z) : nat := if t =? 1 then 10 else 1.

#[refine] Instance sample_client stats : ClientLaws (fun _ => sample_file) (fun _ => 0) stats (sample_react stats) := {
  client_inv _ out := Forall (valid (fun _ => sample_file) stats) out;
  potential _ := O;
  weight := sample_weight
}.
Proof.
  - intros _ l l' P. by rewrite P.
  - done.
  - intros st r out st' new F. unfold sample_react. intros [= <- <-]. apply Forall_cons in F as [_ F]. unfold sample_weight.
    destruct (tag r =? 1); [|cbn; split; [done|lia]]. split; [|destruct stats; cbn; lia].
    apply Forall_app. split; [|done]. apply Forall_cons. split; [cbn; lia|]. destruct stats; [by apply Forall_cons|constructor].
Defined.

(** Nothing completes by itself; a wait brings the request whose number is the time,
    and at most three bytes. *)
Definition sample_kernel : Kernel Z := KERNEL (fun _ _ => []) (fun t _ => Some ((t, PreadUpTo 3), [])).

Definition sample_requests : list (Request Z) := [ReadReq 0 5 0 1; ReadReq 0 2 8 2].

Lemma finish_delivers_witness :
  (exists o, finish (fun _ => sample_file) (fun _ => 0) true sample_kernel (sample_react true) 30 O sample_requests = Some o /\
    match o with
    | Returns run => delivered (fun _ => sample_file) (fun _ => 0) (sample_react true) O sample_requests (state run) (calls run) /\
                     client_inv (ClientLaws := sample_client true) (state run) []
    | Exits AsyncReadFailed | Exits SubmitFailed => ~ kernel_ok sample_kernel
    | _ => False
    end) /\
  match finish (fun _ => sample_file) (fun _ => 0) true sample_kernel (sample_react true) 30 O sample_requests with
  | Some (Returns run) => map (fun c => (tag (fst c), snd c)) (calls run)
  | _ => []
  end = [(2, Data [18; 19]); (1, Data [10; 11; 12; 13; 14]); (2, StatOk true); (2, Data [12; 13; 14; 15])].
Proof.
  split; [|vm_compute; reflexivity].
  apply (finish_delivers (fun _ => sample_file) (fun _ => 0) true sample_kernel (sample_react true) (sample_client true) O sample_requests 30).
  - change (Forall (valid (fun _ => sample_file) true) sample_requests). apply Forall_cons_2; [split; apply Nat.leb_le; reflexivity|]. apply Forall_cons_2; [split; apply Nat.leb_le; reflexivity|].
    apply Forall_nil_2.
  - apply Nat.leb_le. vm_compute. reflexivity.
Defined.

Lemma length_chunks n k : length (filter is_chunk (replicate n (PreadUpTo k))) = n.
Proof. induction n as [|n IH]; [done|]. cbn [replicate]. rewrite filter_cons_True by done. cbn [length]. by rewrite IH. Qed.

Definition sample_replies (k len : nat) : list PreadReply := PreadEintr :: replicate (S len) (PreadUpTo 3).

Lemma sync_delivers_witness :
  (exists st' calls, submit_sync (fun _ => sample_file) (sample_react false) 30 sample_replies sample_requests O []
      = Some (Returns (st', calls)) /\
    delivered (fun _ => sample_file) (fun _ => 0) (sample_react false) O sample_requests st' calls /\ client_inv (ClientLaws := sample_client false) st' []) /\
  match submit_sync (fun _ => sample_file) (sample_react false) 30 sample_replies sample_requests O [] with
  | Some (Returns (_, calls)) => map (fun c => (tag (fst c), snd c)) calls
  | _ => []
  end = [(1, Data [10; 11; 12; 13; 14]); (2, Data [12; 13; 14; 15]); (2, Data [18; 19])].
Proof.
  split; [|vm_compute; reflexivity].
  apply (sync_delivers (fun _ => sample_file) (fun _ => 0) (sample_react false) (sample_client false) sample_replies).
  - intros k len. unfold sample_replies. split.
    + intros H. apply elem_of_cons in H as [H|H]; [discriminate H|]. apply elem_of_replicate in H as [H _]. discriminate H.
    + rewrite filter_cons_False by (intros H; exact H).
      rewrite length_chunks. apply Nat.lt_succ_diag_r.
  - change (Forall (valid (fun _ => sample_file) false) sample_requests). apply Forall_cons_2; [split; apply Nat.leb_le; reflexivity|]. apply Forall_cons_2; [split; apply Nat.leb_le; reflexivity|].
    apply Forall_nil_2.
  - apply Nat.leb_le. vm_compute. reflexivity.
Defined.
