(* ===== verification/AsyncSearch.v ===== *)
(** * Scanning candidate blocks through the engine (src/flocate.cpp)

    [scan_docids] as it runs: the reads of a block, the access checks of its
    candidates and the stats that tell whether they exist are requests to
    [IOUringEngine]; their callbacks update the access cache and print to the
    serializer in the order in which the kernel completes them.  The output is
    shown to be that of the scan that does one block after the other
    ([SearchFile.scan_docids]). *)
From S2P Require Import Prelude Text FileRead MetadataCodec HashTable Corpus Serializer Trigrams Search SearchFile.
From S2P Require Import DbHeader DatabaseFile DatabaseSearch AccessCache IOUring.

(** ** Definitions *)

(** A call of [check_access]; the callback knows the sequence numbers. *)
Abbreviation Call := (@PendingStat (Z * Z)).

(** The callbacks: those of [get_compressed_filename_block], of the access cache,
    and of [stat_if_needed]. *)
Inductive SearchTag :=
| IndexRead (i docid : Z)
| BlockRead (i docid : Z)
| AccessStat (call : Call)
| ExistStat (call : Call).

(** The access cache, and the calls of [Serializer::print] so far. *)
Record SearchState := SEARCH { rx : @AccessRXCache (Z * Z); arrived : list Element }.

(** What [scan_file_block] does in turn. *)
Inductive Action := PrintNow (e : Element) | Test (call : Call).

Section AsyncSearch.
Context (opt : Options) (fnmatch regexec : bytes -> bytes -> bool) (zstd_decompress : bytes -> option bytes).
(** What [access(path, R_OK | X_OK)] and [statx] say, and whether the engine does stats. *)
Context (access : bytes -> bool) (statx : bytes -> Z) (supports_stat : bool).
Context (file : bytes) (h : Header) (needles : list Needle).

Abbreviation Req := (Request SearchTag).

Definition test_candidate (filename : bytes) (local_seq next_seq : Z) : Action := Test (PS filename (local_seq, next_seq)).

Fixpoint scan_names (seq : Z) (names : list bytes) (local_seq : Z) (pending : option bytes) : list Action :=
  match names with
  | [] =>
    match pending with
    | None => [PrintNow (EL (u64 (Z.shiftl seq 32)) (2 ^ 32) [])]
    | Some candidate => [test_candidate candidate local_seq (u64 (Z.shiftl (seq + 1) 32))]
    end
  | filename :: names =>
    if found opt fnmatch regexec needles filename then
      match pending with
      | Some candidate =>
        test_candidate candidate local_seq (u64 (local_seq + 1)) :: scan_names seq names (u64 (local_seq + 1)) (Some filename)
      | None => scan_names seq names local_seq (Some filename)
      end
    else scan_names seq names local_seq pending
  end.

(** The inner callback of a candidate. *)
Definition print_result (call : Call) (ok : bool) : Element :=
  EL (fst (cb call)) (u64 (snd (cb call) - fst (cb call))) (if ok then filename call else []).

(** The outer callback: [stat_if_needed] prints at once or asks for a stat. *)
Fixpoint access_results (results : list (Call * bool)) : list Element * list Req :=
  match results with
  | [] => ([], [])
  | (call, access_ok) :: results =>
    let '(es, reqs) := access_results results in
    if negb access_ok || negb (check_existence opt) then (print_result call access_ok :: es, reqs)
    else if negb supports_stat then (print_result call (statx (filename call) =? 0) :: es, reqs)
    else (es, StatReq (filename call) (ExistStat call) :: reqs)
  end.

(** A call of the cache, from its state [s] on: what it submits, and the callback if it is called. *)
Definition check (allow_async : bool) (s : AccessRXCache) (call : Call) : option (AccessRXCache * (list Element * list Req)) :=
  s' ← check_access access supports_stat (check_visibility h) allow_async s call;
  let '(es, reqs) := access_results (drop (length (answered s)) (answered s')) in
  Some (s', (es, map (fun call => StatReq (filename call) (AccessStat call)) (drop (length (submitted s)) (submitted s')) ++ reqs)).

Fixpoint do_actions (actions : list Action) (st : SearchState) : option (SearchState * list Req) :=
  match actions with
  | [] => Some (st, [])
  | PrintNow e :: actions => do_actions actions (SEARCH (rx st) (arrived st ++ [e]))
  | Test call :: actions =>
    '(s, (es, reqs)) ← check true (rx st) call;
    '(st, more) ← do_actions actions (SEARCH s (arrived st ++ es));
    Some (st, reqs ++ more)
  end.

(** The callback of the cache's stat: its own call, and then those that waited. *)
Definition access_done (st : SearchState) (call : Call) : option (SearchState * list Req) :=
  '(n, _) ← list_find (fun c => filename c = filename call) (submitted (rx st));
  let s := rx st in
  '(s, (es, reqs)) ← check false (ARC (cache s) (pending_stats s) (delete n (submitted s)) (answered s)) call;
  pending ← find_pending (filename call) (pending_stats s);
  '(st, more) ← do_actions (map Test pending)
    (SEARCH (ARC (cache s) (erase (filename call) (pending_stats s)) (submitted s) (answered s)) (arrived st ++ es));
  Some (st, reqs ++ more).

Definition block_actions (i : Z) (compressed : bytes) : option (list Action) :=
  block ← zstd_decompress compressed;
  Some (scan_names i (names_of (block ++ [0])) (u64 (Z.shiftl i 32)) None).

(** A callback; [None] ends the program. *)
Definition callback (st : SearchState) (tag : SearchTag) (answer : Answer) : option (SearchState * list Req) :=
  match tag, answer with
  | IndexRead i docid, Data s =>
    '(from, s) ← get_u64 s;
    '(to, _) ← get_u64 s;
    Some (st, [ReadReq 0 (Z.to_nat (u64 (to - from))) (Z.to_nat from) (BlockRead i docid)])
  | BlockRead i docid, Data compressed => actions ← block_actions i compressed; do_actions actions st
  | AccessStat call, StatOk _ => access_done st call
  | ExistStat call, StatOk ok => Some (SEARCH (rx st) (arrived st ++ [print_result call ok]), [])
  | _, _ => None
  end.

(** A callback that ends the program loses its results; see [search_react]. *)
Definition react (st : SearchState) (tag : SearchTag) (answer : Answer) : SearchState * list Req :=
  match callback st tag answer with Some r => r | None => (st, []) end.

Definition index_request (b : Z * Z) : Req := ReadReq 0 16 (Z.to_nat (offset_for_block h (snd b))) (IndexRead (fst b) (snd b)).

(** The loop over the candidate documents. *)
Fixpoint scan_requests (i : Z) (docids : list Z) : list (Z * Z) :=
  match docids with
  | [] => []
  | docid :: docids => (i, docid) :: scan_requests (i + 1) docids
  end.

Definition new_search : SearchState := SEARCH new_AccessRXCache [].

(** [scan_docids]: the requests, and then [finish]. *)
Definition scan_docids (kernel : Kernel SearchTag) (fuel : nat) (docids : list Z) : option (IOUring.outcome (@Run SearchTag SearchState)) :=
  finish (fun _ => file) statx supports_stat kernel react fuel new_search (map index_request (scan_requests 0 docids)).

(** The same without io_uring. *)
Definition scan_docids_sync (replies : nat -> nat -> list PreadReply) (fuel : nat) (docids : list Z)
    : option (IOUring.outcome (SearchState * list (Req * Answer))) :=
  submit_sync (fun _ => file) react fuel replies (map index_request (scan_requests 0 docids)) new_search [].

(** ** Specification *)

Abbreviation visible := (accessible access (check_visibility h)).
Abbreviation lstat := (fun f => statx f =? 0).
Abbreviation get_block := (get_compressed_filename_block file h).

(** The result that a call leads to in the end. *)
Definition result_of (call : Call) : Element :=
  SearchFile.test_candidate opt visible lstat (filename call) (fst (cb call)) (snd (cb call)).

Definition action_element (a : Action) : Element := match a with PrintNow e => e | Test call => result_of call end.

Definition calls_of_actions (actions : list Action) : list Call :=
  omap (fun a => match a with PrintNow _ => None | Test call => Some call end) actions.

(** The results of a block, in sequence. *)
Definition block_results (b : Z * Z) : list Element :=
  match get_block (snd b) with
  | Some c => map action_element (default [] (block_actions (fst b) c))
  | None => []
  end.

Definition name_ok (call : Call) : Prop := check_visibility h = true -> filename call <> [].

(** A block that can be read and holds names. *)
Definition block_ok (b : Z * Z) : Prop :=
  exists c acts, get_block (snd b) = Some c /\ block_actions (fst b) c = Some acts /\ Forall name_ok (calls_of_actions acts).

Definition block_request (b : Z * Z) : Req :=
  let index := take 16 (drop (Z.to_nat (offset_for_block h (snd b))) file) in
  match get_u64 index with
  | Some (from, s) =>
    match get_u64 s with
    | Some (to, _) => ReadReq 0 (Z.to_nat (u64 (to - from))) (Z.to_nat from) (BlockRead (fst b) (snd b))
    | None => index_request b
    end
  | None => index_request b
  end.

Definition access_request (call : Call) : Req := StatReq (filename call) (AccessStat call).

Definition exist_request (call : Call) : Req := StatReq (filename call) (ExistStat call).

(** A candidate whose existence is still asked for. *)
Definition exist_ok (call : Call) : Prop :=
  supports_stat = true /\ check_existence opt = true /\ visible (filename call) = true.

Definition unanswered (s : @AccessRXCache (Z * Z)) : list Call := submitted s ++ waiting s.

Lemma scan_names_results seq names : forall local_seq pending,
  map action_element (scan_names seq names local_seq pending) =
  SearchFile.scan_names opt fnmatch regexec visible lstat needles seq names local_seq pending.
Proof.
  induction names as [|f names IH]; intros local_seq pending; cbn [scan_names SearchFile.scan_names].
  - by destruct pending.
  - destruct (found opt fnmatch regexec needles f); [|apply IH]. destruct pending; [|apply IH]. cbn [map]. by rewrite IH.
Qed.

Lemma access_results_spec results : Forall (fun '(call, ok) => ok = visible (filename call)) results ->
  exists es ex, access_results results = (es, map exist_request ex) /\ Forall exist_ok ex /\
    es ++ map result_of ex ≡ₚ map (fun r => result_of (fst r)) results /\ (length ex <= length results)%nat.
Proof.
  induction 1 as [|[call ok] results -> F IH]; cbn [access_results map]; [by exists [], []|].
  destruct IH as (es & ex & -> & Fx & P & L). cbn [fst length].
  assert (Hr : forall ok, stat_if_needed opt lstat (filename call) (visible (filename call)) = ok -> result_of call = print_result call ok).
  { intros ok' <-. done. }
  unfold stat_if_needed in Hr. destruct (negb (visible (filename call)) || negb (check_existence opt)) eqn:E.
  - exists (print_result call (visible (filename call)) :: es), ex. split; [done|]. split; [done|].
    rewrite (Hr _ eq_refl). split; [by apply perm_skip|lia].
  - apply orb_false_iff in E as [E1 E2]. apply negb_false_iff in E1, E2. destruct (negb supports_stat) eqn:Es.
    + exists (print_result call (statx (filename call) =? 0) :: es), ex. split; [done|]. split; [done|].
      rewrite (Hr _ eq_refl). split; [by apply perm_skip|lia].
    + exists es, (call :: ex). split; [done|]. apply negb_false_iff in Es. split; [by apply Forall_cons|].
      cbn [map length]. rewrite <- P. split; [by rewrite Permutation_middle|lia].
Qed.

(** Leaving a call to the cache: it is answered or it waits. *)
Lemma check_spec calls s call : cache_inv access (check_visibility h) calls s -> name_ok call ->
  exists s' es added ex, check true s call = Some (s', (es, map access_request added ++ map exist_request ex)) /\
    cache_inv access (check_visibility h) (calls ++ [call]) s' /\ submitted s' = submitted s ++ added /\
    Forall exist_ok ex /\ (supports_stat = false -> added = []) /\
    es ++ map result_of (ex ++ unanswered s') ≡ₚ result_of call :: map result_of (unanswered s) /\
    (2 * length (unanswered s') + length ex <= 2 + 2 * length (unanswered s))%nat.
Proof.
  intros Hs Hn. unfold check.
  destruct (check_access_inv access supports_stat (check_visibility h) calls s call Hs Hn) as (s' & E & I & _).
  destruct (check_access_spec access supports_stat (check_visibility h) true s call (ci_map _ _ _ _ Hs) Hn) as (s2 & E2 & _ & H).
  rewrite E in E2. injection E2 as <-. destruct (check_access_log _ _ _ _ _ _ _ E) as (na & ns & A & S & Z).
  rewrite E. cbn [mbind option_bind]. rewrite A, S, !drop_app_length. destruct H as [(A1 & P1 & S1)|(A1 & P1)].
  - rewrite A1 in A. apply app_inv_head in A. subst na. assert (ns = []) as ->.
    { rewrite S in S1. apply (f_equal length) in S1. rewrite length_app in S1. destruct ns; [done|cbn in S1; lia]. }
    destruct (access_results_spec [(call, visible (filename call))]) as (es & ex & -> & Fx & P & L); [by constructor|].
    exists s', es, [], ex. split; [done|]. split; [done|]. split; [by rewrite app_nil_r|]. split; [done|]. split; [done|].
    assert (U : unanswered s' = unanswered s) by (unfold unanswered, waiting; by rewrite P1, S1). rewrite U. cbn in L.
    split; [|lia]. rewrite List.map_app, app_assoc. by rewrite P.
  - rewrite A1 in A. assert (na = []) as ->.
    { apply (f_equal length) in A. rewrite length_app in A. destruct na; [done|cbn in A; lia]. }
    cbn [access_results app]. exists s', [], ns, []. split; [done|]. split; [done|]. split; [done|]. split; [done|].
    split; [intros E0; apply Z; by rewrite E0|]. cbn [app map length]. unfold unanswered. rewrite P1. cbn [map length]. split; [done|lia].
Qed.

Lemma do_actions_spec actions : forall calls st, cache_inv access (check_visibility h) calls (rx st) ->
  Forall name_ok (calls_of_actions actions) -> exists st' new added ex, do_actions actions st = Some (st', new) /\
    new ≡ₚ map access_request added ++ map exist_request ex /\
    cache_inv access (check_visibility h) (calls ++ calls_of_actions actions) (rx st') /\
    submitted (rx st') = submitted (rx st) ++ added /\ Forall exist_ok ex /\ (supports_stat = false -> added = []) /\
    arrived st' ++ map result_of (ex ++ unanswered (rx st')) ≡ₚ
      arrived st ++ map action_element actions ++ map result_of (unanswered (rx st)) /\
    (2 * length (unanswered (rx st')) + length ex <= 2 * length actions + 2 * length (unanswered (rx st)))%nat.
Proof.
  induction actions as [|a actions IH]; intros calls st Hs Hn; cbn [do_actions].
  - exists st, [], [], []. cbn. rewrite !app_nil_r. repeat (split; [done|]). lia.
  - destruct a as [e|call].
    + destruct (IH calls (SEARCH (rx st) (arrived st ++ [e])) Hs Hn) as (st' & new & added & ex & E & P1 & I & S & F & Z & P2 & L).
      exists st', new, added, ex. rewrite E. repeat (split; [done|]). cbn [rx arrived length] in *. split; [|lia].
      rewrite P2. cbn [map action_element]. by rewrite <- app_assoc.
    + cbn [calls_of_actions omap list_omap] in Hn. apply Forall_cons in Hn as [Hc Hn].
      destruct (check_spec calls (rx st) call Hs Hc) as (s1 & es & added1 & ex1 & -> & I1 & S1 & F1 & Z1 & P1 & L1).
      cbn [mbind option_bind].
      destruct (IH _ (SEARCH s1 (arrived st ++ es)) I1 Hn) as (st' & new & added & ex & -> & Pn & I & S & F & Z & P2 & L).
      cbn [mbind option_bind rx arrived] in *. eexists st', _, (added1 ++ added), (ex1 ++ ex). split; [done|].
      split; [rewrite Pn, !List.map_app; solve_Permutation|]. split; [by rewrite <- app_assoc in I|].
      split; [by rewrite S, S1, app_assoc|]. split; [by apply Forall_app|]. split; [intros E; by rewrite (Z1 E), (Z E)|].
      split; [|rewrite length_app; cbn [length]; lia]. cbn [map action_element].
      transitivity (map result_of ex1 ++ arrived st' ++ map result_of (ex ++ unanswered (rx st'))); [rewrite !List.map_app; solve_Permutation|].
      rewrite P2. transitivity (arrived st ++ map action_element actions ++ (es ++ map result_of (ex1 ++ unanswered s1)));
        [rewrite !List.map_app; solve_Permutation|]. rewrite P1. solve_Permutation.
Qed.

(** The stat of a call of the cache is done. *)
Lemma access_done_spec calls st call : cache_inv access (check_visibility h) calls (rx st) -> call ∈ submitted (rx st) ->
  exists st' new added ex, access_done st call = Some (st', new) /\
    new ≡ₚ map access_request added ++ map exist_request ex /\
    (exists calls', calls ≡ₚ calls' /\ cache_inv access (check_visibility h) calls' (rx st')) /\
    submitted (rx st) ++ added ≡ₚ call :: submitted (rx st') /\ Forall exist_ok ex /\ (supports_stat = false -> added = []) /\
    arrived st' ++ map result_of (ex ++ unanswered (rx st')) ≡ₚ arrived st ++ map result_of (unanswered (rx st)) /\
    (2 * length (unanswered (rx st')) + length ex < 2 * length (unanswered (rx st)))%nat.
Proof.
  intros Hs Hin. unfold access_done.
  destruct (list_find_elem_of (fun c => filename c = filename call) _ _ Hin eq_refl) as [[n c'] Hf]. rewrite Hf.
  apply list_find_Some in Hf as (Hn & Heq & _). cbn [mbind option_bind].
  assert (N : NoDup (map filename (submitted (rx st)))).
  { destruct (ci_map _ _ _ _ Hs) as [_ H2 H3]. rewrite <- H3. by apply sorted_nodup. }
  assert (c' = call) as ->.
  { apply list_elem_of_lookup in Hin as [m Hm]. pose proof (NoDup_lookup _ n m (filename call) N) as Hnm.
    change (map filename (submitted (rx st))) with (filename <$> submitted (rx st)) in Hnm.
    rewrite !list_lookup_fmap, Hn, Hm in Hnm. cbn in Hnm. rewrite Heq in Hnm.
    specialize (Hnm eq_refl eq_refl). subst m. congruence. }
  destruct (stat_done_start access supports_stat (check_visibility h) calls (rx st) n call Hs Hn)
    as (c & v & E & Ev & I1 & P1 & Pw & Hv). cbv zeta in *. set (s1 := ARC c (erase _ _) _ _) in *.
  unfold check. rewrite E. cbn [mbind option_bind answered submitted pending_stats]. cbn [answered s1].
  rewrite drop_app_length, drop_all. destruct (access_results_spec [(call, visible (filename call))]) as (es & ex0 & -> & Fx & Px & Lx);
    [by constructor|]. cbn [mbind option_bind map app pending_stats cache submitted answered]. rewrite Ev. cbn [mbind option_bind].
  change (ARC c (erase (filename call) (pending_stats (rx st))) (delete n (submitted (rx st))) _) with s1.
  assert (Hnames : Forall name_ok (calls_of_actions (map Test v))).
  { unfold calls_of_actions. clear -Hv. unfold name_ok. apply Forall_forall. intros x Hx Hvis.
    specialize (Hv Hvis). rewrite Forall_forall in Hv. apply Hv. apply list_elem_of_omap in Hx as (a & Ha & Hx).
    apply list_elem_of_fmap in Ha as (y & -> & Hy). by injection Hx as ->. }
  assert (Hcv : calls_of_actions (map Test v) = v) by (unfold calls_of_actions; clear; induction v as [|x v IH]; cbn; [done|by f_equal]).
  destruct (do_actions_spec (map Test v) _ (SEARCH s1 (arrived st ++ es)) I1 Hnames) as (st' & new & added & ex & -> & Pn & I & S & F & Z & P2 & L).
  rewrite Hcv in I. cbn [mbind option_bind rx arrived] in *. eexists st', _, added, (ex0 ++ ex). split; [done|].
  pose proof (delete_Permutation _ _ _ Hn) as Pd. cbn [submitted s1] in S.
  split; [rewrite Pn, !List.map_app; solve_Permutation|]. split; [eexists; split; [exact P1|exact I]|].
  split; [rewrite S, Pd at 1; done|]. split; [by apply Forall_app|]. split; [done|].
  assert (U : unanswered (rx st) ≡ₚ call :: v ++ unanswered s1).
  { unfold unanswered. rewrite Pw, Pd at 1. cbn [submitted s1]. solve_Permutation. }
  rewrite U. split; [|rewrite length_app, length_map in *; cbn [length] in *; rewrite length_app; lia].
  assert (Hmap : map action_element (map Test v) = map result_of v) by by rewrite map_map.
  rewrite Hmap in P2. transitivity (map result_of ex0 ++ arrived st' ++ map result_of (ex ++ unanswered (rx st')));
    [rewrite !List.map_app; solve_Permutation|]. rewrite P2.
  cbn [map fst] in Px. cbn [map]. rewrite List.map_app.
  transitivity (arrived st ++ (es ++ map result_of ex0) ++ map result_of v ++ map result_of (unanswered s1)); [solve_Permutation|].
  rewrite Px. done.
Qed.

(** ** The client of the engine *)

(** Nothing is no frame. *)
Context (Hzstd : zstd_decompress [] = None).

Definition search_weight (t : SearchTag) : nat :=
  match t with
  | IndexRead i docid => (length (default [] (get_block docid)) + S (S (2 * length (block_results (i, docid)))))%nat
  | BlockRead i docid => S (2 * length (block_results (i, docid)))
  | AccessStat _ => 0%nat
  | ExistStat _ => 1%nat
  end.

(** The blocks still to be read, the candidates whose existence is asked for, and
    the calls made to the cache; [els] are the results that there will be. *)
Definition search_inv (els : list Element) (st : SearchState) (out : list Req) : Prop :=
  exists RI RB EX calls,
    out ≡ₚ map index_request RI ++ map block_request RB ++ map access_request (submitted (rx st)) ++ map exist_request EX /\
    Forall block_ok (RI ++ RB) /\ cache_inv access (check_visibility h) calls (rx st) /\ Forall exist_ok EX /\
    (supports_stat = false -> submitted (rx st) = []) /\
    arrived st ++ map result_of (EX ++ unanswered (rx st)) ++ concat (map block_results (RI ++ RB)) ≡ₚ els.

Lemma block_ok_reads b : block_ok b -> exists c acts,
  get_block (snd b) = Some c /\ block_actions (fst b) c = Some acts /\ Forall name_ok (calls_of_actions acts) /\
  block_results b = map action_element acts /\ valid (fun _ => file) supports_stat (index_request b) /\
  valid (fun _ => file) supports_stat (block_request b) /\ right (fun _ => file) statx (block_request b) = Data c /\
  (forall st, callback st (IndexRead (fst b) (snd b)) (right (fun _ => file) statx (index_request b)) = Some (st, [block_request b])) /\
  exists off, block_request b = ReadReq 0 (length c) off (BlockRead (fst b) (snd b)).
Proof.
  intros (c & acts & Hc & Ha & Hn). exists c, acts. split; [done|]. split; [done|]. split; [done|].
  split; [unfold block_results; by rewrite Hc, Ha|]. pose proof Hc as Hc'.
  unfold get_compressed_filename_block, read_at in Hc'. unfold block_request, index_request.
  destruct (decide (0 <= offset_for_block h (snd b) /\ 0 <= 16 /\ _)) as [(H1 & _ & H2)|]; cbn [mbind option_bind] in Hc'; [|done].
  change (Z.to_nat 16) with 16%nat in Hc'. cbn [right].
  set (index := take 16 (drop (Z.to_nat (offset_for_block h (snd b))) file)) in *. cbn [callback].
  destruct (get_u64 index) as [[from s1]|]; cbn [mbind option_bind] in *; [|done].
  destruct (get_u64 s1) as [[to s2]|]; cbn [mbind option_bind] in *; [|done].
  destruct (decide _) as [(H3 & H4 & H5)|]; [|done]. injection Hc' as Hc'.
  assert (Hlen : length c = Z.to_nat (u64 (to - from))) by (rewrite <- Hc', length_take, length_drop; lia).
  assert (Hpos : (0 < length c)%nat).
  { destruct c; [|cbn; lia]. exfalso. unfold block_actions in Ha. by rewrite Hzstd in Ha. }
  cbn [valid right]. rewrite <- Hlen. split; [lia|]. split; [lia|]. split; [by rewrite Hlen, Hc'|]. split; [done|].
  by exists (Z.to_nat from).
Qed.

Lemma request_in_map {A} (f : A -> Req) r l : r ∈ map f l -> exists x l', r = f x /\ l ≡ₚ x :: l'.
Proof.
  intros Hin. apply list_elem_of_fmap in Hin as (x & -> & Hx). apply elem_of_Permutation in Hx as [l' P]. by exists x, l'.
Qed.

Lemma new_requests_cost added ex :
  sum_list_with (fun r => match r with ReadReq _ len _ t => (len + search_weight t)%nat | StatReq _ t => search_weight t end)
    (map access_request added ++ map exist_request ex) = length ex.
Proof.
  rewrite sum_list_with_app. assert (H1 : forall l, sum_list_with (fun r : Req =>
    match r with ReadReq _ len _ t => (len + search_weight t)%nat | StatReq _ t => search_weight t end) (map access_request l) = 0%nat).
  { induction l as [|x l IH]; cbn; [done|exact IH]. }
  rewrite H1. induction ex as [|x ex IH]; cbn; [done|]. by f_equal.
Qed.

Lemma react_index els st b RI RB EX calls out : 
  out ≡ₚ map index_request RI ++ map block_request RB ++ map access_request (submitted (rx st)) ++ map exist_request EX ->
  Forall block_ok (b :: RI ++ RB) -> cache_inv access (check_visibility h) calls (rx st) -> Forall exist_ok EX ->
  (supports_stat = false -> submitted (rx st) = []) ->
  arrived st ++ map result_of (EX ++ unanswered (rx st)) ++ concat (map block_results (b :: RI ++ RB)) ≡ₚ els ->
  react st (IndexRead (fst b) (snd b)) (right (fun _ => file) statx (index_request b)) = (st, [block_request b]) /\
  search_inv els st (block_request b :: out).
Proof.
  intros P F I Fx Hs A. pose proof F as F0. apply Forall_cons in F0 as [Hb _].
  destruct (block_ok_reads b Hb) as (c & acts & _ & _ & _ & _ & _ & _ & _ & Hcb & _). split; [unfold react; by rewrite Hcb|].
  exists RI, (b :: RB), EX, calls. split; [rewrite P; cbn [map]; solve_Permutation|].
  split; [by rewrite <- Permutation_middle|]. split; [done|]. split; [done|]. split; [done|]. by rewrite <- Permutation_middle.
Qed.

Lemma react_block els st b RI RB EX calls out :
  out ≡ₚ map index_request RI ++ map block_request RB ++ map access_request (submitted (rx st)) ++ map exist_request EX ->
  Forall block_ok (b :: RI ++ RB) -> cache_inv access (check_visibility h) calls (rx st) -> Forall exist_ok EX ->
  (supports_stat = false -> submitted (rx st) = []) ->
  arrived st ++ map result_of (EX ++ unanswered (rx st)) ++ concat (map block_results (b :: RI ++ RB)) ≡ₚ els ->
  exists st' added ex new, react st (BlockRead (fst b) (snd b)) (right (fun _ => file) statx (block_request b)) = (st', new) /\
  new ≡ₚ map access_request added ++ map exist_request ex /\ search_inv els st' (new ++ out) /\
  (2 * length (unanswered (rx st')) + length ex <= 2 * length (block_results b) + 2 * length (unanswered (rx st)))%nat.
Proof.
  intros P F I Fx Hs A. apply Forall_cons in F as [Hb F].
  destruct (block_ok_reads b Hb) as (c & acts & Hc & Ha & Hn & Hres & _ & _ & Hr & _ & _).
  destruct (do_actions_spec acts calls st I Hn) as (st' & new & added & ex & E & Pn & I' & S & Fe & Z & P2 & L).
  exists st', added, ex, new. unfold react. rewrite Hr. cbn [callback]. rewrite Ha. cbn [mbind option_bind]. rewrite E.
  split; [done|]. split; [done|]. split; [|rewrite Hres, length_map; lia].
  exists RI, RB, (EX ++ ex), (calls ++ calls_of_actions acts).
  split; [rewrite Pn, P, S, !List.map_app; solve_Permutation|]. split; [done|]. split; [done|]. split; [by apply Forall_app|].
  split; [intros E0; by rewrite S, (Hs E0), (Z E0)|]. rewrite <- A. cbn [map concat]. rewrite Hres.
  transitivity (map result_of EX ++ (arrived st' ++ map result_of (ex ++ unanswered (rx st'))) ++ concat (map block_results (RI ++ RB)));
    [rewrite !List.map_app; solve_Permutation|]. rewrite P2, !List.map_app. solve_Permutation.
Qed.

Lemma react_access els st call RI RB EX calls out :
  map index_request RI ++ map block_request RB ++ map access_request (submitted (rx st)) ++ map exist_request EX
    ≡ₚ access_request call :: out -> call ∈ submitted (rx st) ->
  Forall block_ok (RI ++ RB) -> cache_inv access (check_visibility h) calls (rx st) -> Forall exist_ok EX ->
  (supports_stat = false -> submitted (rx st) = []) ->
  arrived st ++ map result_of (EX ++ unanswered (rx st)) ++ concat (map block_results (RI ++ RB)) ≡ₚ els ->
  exists st' added ex new, react st (AccessStat call) (right (fun _ => file) statx (access_request call)) = (st', new) /\
  new ≡ₚ map access_request added ++ map exist_request ex /\ search_inv els st' (new ++ out) /\
  (2 * length (unanswered (rx st')) + length ex < 2 * length (unanswered (rx st)))%nat.
Proof.
  intros P Hin F I Fx Hs A.
  destruct (access_done_spec calls st call I Hin) as (st' & new & added & ex & E & Pn & (calls' & Pc & I') & S & Fe & Z & P2 & L).
  exists st', added, ex, new. unfold react. cbn [callback right access_request]. rewrite E.
  split; [done|]. split; [done|]. split; [|done]. exists RI, RB, (EX ++ ex), calls'.
  split; [|split; [done|split; [done|split; [by apply Forall_app|split]]]].
  - apply (Permutation_cons_inv (a := access_request call)). rewrite Pn, !List.map_app.
    transitivity ((access_request call :: out) ++ map access_request added ++ map exist_request ex); [solve_Permutation|].
    rewrite <- P. apply (fmap_Permutation access_request) in S. change (access_request <$> submitted (rx st) ++ added)
      with (map access_request (submitted (rx st) ++ added)) in S. rewrite List.map_app in S.
    transitivity (map index_request RI ++ map block_request RB ++ map exist_request EX ++
      (map access_request (submitted (rx st)) ++ map access_request added) ++ map exist_request ex); [solve_Permutation|].
    rewrite S. change (access_request <$> call :: submitted (rx st')) with (access_request call :: map access_request (submitted (rx st'))).
    solve_Permutation.
  - intros E0. rewrite (Hs E0) in Hin. by apply not_elem_of_nil in Hin.
  - rewrite <- A. transitivity (map result_of EX ++ (arrived st' ++ map result_of (ex ++ unanswered (rx st'))) ++
      concat (map block_results (RI ++ RB))); [rewrite !List.map_app; solve_Permutation|].
    rewrite P2, !List.map_app. solve_Permutation.
Qed.

Lemma react_exist els st call RI RB EX calls out :
  map index_request RI ++ map block_request RB ++ map access_request (submitted (rx st)) ++ map exist_request (call :: EX)
    ≡ₚ exist_request call :: out ->
  Forall block_ok (RI ++ RB) -> cache_inv access (check_visibility h) calls (rx st) -> Forall exist_ok (call :: EX) ->
  (supports_stat = false -> submitted (rx st) = []) ->
  arrived st ++ map result_of ((call :: EX) ++ unanswered (rx st)) ++ concat (map block_results (RI ++ RB)) ≡ₚ els ->
  exists st', react st (ExistStat call) (right (fun _ => file) statx (exist_request call)) = (st', []) /\
  rx st' = rx st /\ search_inv els st' out.
Proof.
  intros P F I Fx Hs A. apply Forall_cons in Fx as [(H1 & H2 & H3) Fx]. eexists. split; [done|]. split; [done|].
  exists RI, RB, EX, calls. cbn [rx arrived]. split; [|split; [done|split; [done|split; [done|split; [done|]]]]].
  - apply (Permutation_cons_inv (a := exist_request call)). rewrite <- P. cbn [map]. solve_Permutation.
  - rewrite <- A. assert (Hr : result_of call = print_result call (statx (filename call) =? 0)).
    { unfold result_of, SearchFile.test_candidate, stat_if_needed. rewrite H2, H3. done. }
    cbn [app map]. rewrite Hr. solve_Permutation.
Qed.

#[refine] Instance search_client els : ClientLaws (fun _ => file) statx supports_stat react := {
  client_inv := search_inv els;
  potential st := (2 * length (unanswered (rx st)))%nat;
  weight := search_weight
}.
Proof.
  - intros st l l' P. split; intros (RI & RB & EX & calls & P' & H); exists RI, RB, EX, calls; (split; [|exact H]); [by rewrite <- P|by rewrite P].
  - intros st out (RI & RB & EX & calls & P & F & I & Fx & Hs & _). rewrite P. apply Forall_app in F as [F1 F2].
    rewrite !Forall_app. split; [|split; [|split]]; apply Forall_forall; intros r Hr; apply request_in_map in Hr as (b & l & -> & Pl).
    + rewrite Pl in F1. apply Forall_cons in F1 as [Hb _]. by destruct (block_ok_reads b Hb) as (c & acts & _ & _ & _ & _ & V & _).
    + rewrite Pl in F2. apply Forall_cons in F2 as [Hb _]. by destruct (block_ok_reads b Hb) as (c & acts & _ & _ & _ & _ & _ & V & _).
    + cbn. destruct supports_stat; [done|]. rewrite Hs in Pl by done. by apply Permutation_nil_cons in Pl.
    + rewrite Pl in Fx. apply Forall_cons in Fx as [Hx _]. apply Hx.
  - intros st r out st' new (RI & RB & EX & calls & P & F & I & Fx & Hs & A) E.
    assert (Hr : r ∈ r :: out) by left. rewrite P in Hr. rewrite !elem_of_app in Hr.
    destruct Hr as [Hr|[Hr|[Hr|Hr]]]; apply request_in_map in Hr as (b & l & -> & Pl).
    + assert (F' : Forall block_ok (b :: l ++ RB)) by (rewrite app_comm_cons; by rewrite <- Pl).
      rewrite Pl in P. cbn [map app] in P. apply Permutation_cons_inv in P.
      destruct (react_index els st b l RB EX calls out P F' I Fx Hs) as (Hq & Hi); [by rewrite <- A, app_comm_cons, Pl|].
      cbn [tag index_request] in E. rewrite Hq in E. injection E as <- <-. split; [done|].
      apply Forall_cons in F' as [Hb _]. destruct (block_ok_reads b Hb) as (c & acts & Hc & _ & _ & _ & _ & _ & _ & _ & off & ->).
      cbn. rewrite Hc. cbn. lia.
    + assert (F' : Forall block_ok (b :: RI ++ l)) by (rewrite Permutation_middle; by rewrite <- Pl).
      assert (P' : out ≡ₚ map index_request RI ++ map block_request l ++ map access_request (submitted (rx st)) ++ map exist_request EX).
      { apply (Permutation_cons_inv (a := block_request b)). rewrite P, Pl. cbn [map]. solve_Permutation. }
      pose proof F' as F2. apply Forall_cons in F2 as [Hb _].
      destruct (block_ok_reads b Hb) as (c & acts & Hc & _ & _ & _ & _ & _ & _ & _ & off & Hreq).
      destruct (react_block els st b RI l EX calls out P' F' I Fx Hs) as (st2 & added & ex & new2 & Hq & Pn & Hi & L);
        [by rewrite <- A, Pl, Permutation_middle|]. replace (tag (block_request b)) with (BlockRead (fst b) (snd b)) in E by by rewrite Hreq.
      rewrite Hq in E. injection E as <- <-. split; [done|]. rewrite Pn, new_requests_cost, Hreq. cbn [tag search_weight].
      destruct b; cbn [fst snd] in *; lia.
    + assert (Hin : b ∈ submitted (rx st)) by (rewrite Pl; by left).
      destruct (react_access els st b RI RB EX calls out (symmetry P) Hin F I Fx Hs A) as (st2 & added & ex & new2 & Hq & Pn & Hi & L).
      cbn [tag access_request] in E. rewrite Hq in E. injection E as <- <-. split; [done|]. rewrite Pn, new_requests_cost.
      cbn [tag access_request search_weight]. lia.
    + assert (Fx' : Forall exist_ok (b :: l)) by by rewrite <- Pl.
      destruct (react_exist els st b RI RB l calls out) as (st2 & Hq & Hrx & Hi); [by rewrite <- Pl|done..| |].
      * by rewrite <- A, Pl.
      * cbn [tag exist_request] in E. rewrite Hq in E. injection E as <- <-. split; [done|]. rewrite Hrx. cbn. lia.
Defined.

(** ** The scan starts *)

Lemma scan_names_ok seq names : Forall (fun f => f <> []) names -> forall local_seq pending,
  (forall p, pending = Some p -> p <> []) -> Forall name_ok (calls_of_actions (scan_names seq names local_seq pending)).
Proof.
  induction 1 as [|f names Hf F IH]; intros local_seq pending Hp; cbn [scan_names].
  - destruct pending as [p|]; [|constructor]. constructor; [intros _; by apply Hp|constructor].
  - destruct (found opt fnmatch regexec needles f); [|by apply IH]. destruct pending as [p|]; [|apply IH; by intros p [= <-]].
    cbn [calls_of_actions omap list_omap test_candidate]. constructor; [intros _; by apply Hp|]. apply IH. by intros q [= <-].
Qed.

(** The blocks of a database hold no empty name. *)
Definition names_in_blocks (docids : list Z) : Prop :=
  forall docid c block, docid ∈ docids -> get_block docid = Some c -> zstd_decompress c = Some block ->
    Forall (fun f => f <> []) (names_of (block ++ [0])).

Lemma scan_requests_spec docids : names_in_blocks docids -> forall i els,
  scan_docids_from opt fnmatch regexec visible lstat zstd_decompress get_block needles i docids = Some els ->
  Forall block_ok (scan_requests i docids) /\ concat (map block_results (scan_requests i docids)) = els.
Proof.
  induction docids as [|d docids IH]; intros Hn i els; cbn [scan_docids_from scan_requests map concat]; [by intros [= <-]|].
  destruct (get_block d) as [c|] eqn:Hc; cbn [mbind option_bind]; [|done]. unfold scan_file_block.
  destruct (zstd_decompress c) as [block|] eqn:Hz; cbn [mbind option_bind]; [|done].
  destruct (scan_docids_from _ _ _ _ _ _ _ _ _ docids) as [rest|] eqn:Hr; cbn [mbind option_bind]; [|done]. intros [= <-].
  destruct (IH (fun d' c' b' Hd => Hn d' c' b' (list_elem_of_further _ _ _ Hd)) _ _ Hr) as (F & ->). split.
  - constructor; [|done]. exists c. unfold block_actions. cbn [snd fst]. rewrite Hz. cbn [mbind option_bind]. eexists.
    split; [done|]. split; [done|]. apply scan_names_ok; [|done]. by eapply Hn; [left| |].
  - f_equal. unfold block_results, block_actions. cbn [snd fst]. rewrite Hc, Hz. cbn [mbind option_bind default]. apply scan_names_results.
Qed.

Definition scan_work (docids : list Z) : nat :=
  sum_list_with (fun b => (16 + search_weight (IndexRead (fst b) (snd b)))%nat) (scan_requests 0 docids).

Lemma scan_start docids els : names_in_blocks docids ->
  SearchFile.scan_docids opt fnmatch regexec visible lstat get_block zstd_decompress needles docids = Some els ->
  search_inv els new_search (map index_request (scan_requests 0 docids)).
Proof.
  intros Hn Hs. destruct (scan_requests_spec docids Hn 0 els Hs) as (F & E).
  exists (scan_requests 0 docids), [], [], []. cbn. rewrite !app_nil_r. split; [done|]. split; [done|].
  split; [apply new_inv|]. split; [done|]. split; [done|]. by rewrite E.
Qed.

Lemma scan_work_cost docids :
  sum_list_with (cost (ClientLaws := search_client [])) (map index_request (scan_requests 0 docids)) = scan_work docids.
Proof. unfold scan_work. generalize (scan_requests 0 docids). intros l. induction l as [|b l IH]; [done|]. cbn in *. by rewrite IH. Qed.

Lemma scan_end els st : search_inv els st [] -> arrived st ≡ₚ els.
Proof.
  intros (RI & RB & EX & calls & P & _ & I & _ & _ & A). apply Permutation_nil in P. apply app_eq_nil in P as [E1 P].
  apply app_eq_nil in P as [E2 P]. apply app_eq_nil in P as [E3 E4]. apply map_eq_nil in E1, E2, E3, E4. subst RI RB EX.
  rewrite <- A. unfold unanswered, waiting. rewrite E3. destruct (ci_map _ _ _ _ I) as [_ _ K]. rewrite E3 in K. cbn in K.
  apply Permutation_nil_r in K. apply map_eq_nil in K. rewrite K. cbn. by rewrite app_nil_r.
Qed.

(** What comes of the calls of [print]: the messages in sequence, up to the limit. *)
Definition printed_in_order (limit : Z) (els arrivals : list Element) : Prop :=
  arrivals ≡ₚ els /\ count_matched arrivals = count_matched els /\
  match print_all false arrivals (new_Serializer limit) with
  | Running s => printed s = messages els /\ pending s = [] /\ Z.of_nat (length (messages els)) < limit
  | Exited out => out = take (Z.to_nat limit) (messages els) /\ limit <= Z.of_nat (length (messages els))
  end.

Lemma arrivals_printed limit els arrivals : chain 0 els -> 0 < limit -> arrivals ≡ₚ els -> printed_in_order limit els arrivals.
Proof.
  intros Hc Hl P. split; [done|]. split; [|by apply print_arrivals].
  unfold count_matched, messages. f_equal. apply Permutation_length. apply (filter_Permutation (fun m => m <> [])).
  by apply Permutation_map.
Qed.

End AsyncSearch.

(** ** Correctness *)

(** C6. [scan_docids] over the engine: whatever order the kernel completes the
    reads and stats in, and whatever the limits of the ring, the results that reach
    the serializer are those of scanning one block after the other, with every
    candidate's access checked through the cache and its existence asked for; what
    is printed is their messages in sequence, up to the limit, and the count is
    theirs.  Without io_uring the same holds. *)
Theorem async_scan_exact opt fnmatch regexec zstd_decompress access statx supports_stat file h needles kernel replies
    docids els limit fuel
    (Hzstd : zstd_decompress [] = None)
    (Hscan : SearchFile.scan_docids opt fnmatch regexec (accessible access (check_visibility h)) (fun f => statx f =? 0)
      (get_compressed_filename_block file h) zstd_decompress needles docids = Some els)
    (Hnames : names_in_blocks zstd_decompress file h docids) (Hchain : chain 0 els) (Hlimit : 0 < limit)
    (Hfuel : (scan_work opt fnmatch regexec zstd_decompress access statx file h needles docids <= fuel)%nat) :
  (exists o, scan_docids opt fnmatch regexec zstd_decompress access statx supports_stat file h needles kernel fuel docids = Some o /\
    match o with
    | Returns run => printed_in_order limit els (arrived (state run))
    | Exits AsyncReadFailed | Exits SubmitFailed => ~ kernel_ok kernel
    | _ => False
    end) /\
  ((forall k len, (PreadError ∉ replies k len) /\ (len < length (filter is_chunk (replies k len)))%nat) ->
   exists st calls, scan_docids_sync opt fnmatch regexec zstd_decompress access statx false file h needles replies fuel docids
       = Some (Returns (st, calls)) /\ printed_in_order limit els (arrived st)).
Proof.
  split.
  - set (CL := search_client opt fnmatch regexec zstd_decompress access statx supports_stat file h needles Hzstd els).
    pose proof (scan_start opt fnmatch regexec zstd_decompress access statx supports_stat file h needles docids els Hnames Hscan) as C.
    pose proof (engine_finish_spec (fun _ => file) statx supports_stat kernel
      (react opt fnmatch regexec zstd_decompress access statx supports_stat h needles) (CL := CL)
      new_search _ fuel C) as F.
    destruct F as (o & E & H); [cbn [potential CL search_client]; change (sum_list_with cost _) with
      (sum_list_with (cost (ClientLaws := search_client opt fnmatch regexec zstd_decompress access statx supports_stat file h needles Hzstd []))
        (map (index_request h) (scan_requests 0 docids))); rewrite scan_work_cost; exact Hfuel|].
    exists o. split; [exact E|]. destruct o as [run|f|]; [|exact H..]. destruct H as [[_ Ha] O]. rewrite O in Ha.
    apply arrivals_printed; [done|done|]. pose proof (as_client _ _ _ _ _ _ _ _ Ha) as C'. eapply scan_end. exact C'.
  - intros Hreplies.
    set (CL := search_client opt fnmatch regexec zstd_decompress access statx false file h needles Hzstd els).
    pose proof (scan_start opt fnmatch regexec zstd_decompress access statx false file h needles docids els Hnames Hscan) as C.
    destruct (submit_sync_spec (fun _ => file) statx false
      (react opt fnmatch regexec zstd_decompress access statx false h needles) (CL := CL) new_search
      (map (index_request h) (scan_requests 0 docids)) replies eq_refl Hreplies fuel
      (map (index_request h) (scan_requests 0 docids)) new_search []) as (st & cs & E & A).
    + split; cbn [state calls]; [exact C|done| |constructor]. cbn [map app replay snd]. by rewrite app_nil_r.
    + cbn [potential CL search_client]. change (sum_list_with cost _) with
        (sum_list_with (cost (ClientLaws := search_client opt fnmatch regexec zstd_decompress access statx false file h needles Hzstd []))
          (map (index_request h) (scan_requests 0 docids))). rewrite scan_work_cost. exact Hfuel.
    + exists st, cs. split; [exact E|]. apply arrivals_printed; [done|done|]. pose proof (as_client _ _ _ _ _ _ _ _ A) as C'. eapply scan_end. exact C'.
Qed.

(** Three blocks of a small database: of the candidates the first one is printed,
    the second does not exist, and the third may not be accessed. *)
Definition async_header : Header :=
  match open_corpus false sample_database with Some h => h | None => initial_header [] true end.

Definition async_access (p : bytes) : bool := negb (bool_decide (p = bytes_of_string "/zip")).

Definition async_statx (f : bytes) : Z := if bool_decide (f = bytes_of_string "/foobar") then -2 else 0.

(** Reads bring at most nine bytes, and complete out of order. *)
Definition async_kernel : Kernel SearchTag := KERNEL (fun _ _ => []) (fun t _ => Some ((t, PreadUpTo 9), [])).

Definition async_replies (k len : nat) : list PreadReply := replicate (S len) (PreadUpTo 9).

Definition async_results : list Element :=
  match SearchFile.scan_docids sample_options no_match no_match (accessible async_access true) (fun f => async_statx f =? 0)
          (get_compressed_filename_block sample_database async_header) unmarked sample_needles [0; 1; 2] with
  | Some els => els
  | None => []
  end.

Lemma async_scan_exact_witness :
  ((exists o, scan_docids sample_options no_match no_match unmarked async_access async_statx true sample_database async_header
      sample_needles async_kernel 200 [0; 1; 2] = Some o /\
    match o with
    | Returns run => printed_in_order 5 async_results (arrived (state run))
    | Exits AsyncReadFailed | Exits SubmitFailed => ~ kernel_ok async_kernel
    | _ => False
    end) /\
   ((forall k len, (PreadError ∉ async_replies k len) /\ (len < length (filter is_chunk (async_replies k len)))%nat) ->
    exists st calls, scan_docids_sync sample_options no_match no_match unmarked async_access async_statx false sample_database
      async_header sample_needles async_replies 200 [0; 1; 2] = Some (Returns (st, calls)) /\
      printed_in_order 5 async_results (arrived st))) /\
  messages async_results = [bytes_of_string "/a/food"] /\
  option_map (fun o => match o with Returns run => map msg (arrived (state run)) | _ => [] end)
    (scan_docids sample_options no_match no_match unmarked async_access async_statx true sample_database async_header
      sample_needles async_kernel 200 [0; 1; 2]) = Some [[]; []; bytes_of_string "/a/food"].
Proof.
  split; [|split; vm_compute; reflexivity].
  apply (async_scan_exact sample_options no_match no_match unmarked async_access async_statx true sample_database async_header
    sample_needles async_kernel async_replies [0; 1; 2] async_results 5 200).
  - reflexivity.
  - vm_compute. reflexivity.
  - intros docid c block Hd Hc Hz. revert c block Hc Hz.
    assert (H : forall d, d ∈ [0; 1; 2] -> match get_compressed_filename_block sample_database async_header d with
      | Some c => match unmarked c with Some block => Forall (fun f => f <> []) (names_of (block ++ [0])) | None => True end
      | None => True
      end).
    { apply Forall_forall. repeat (apply Forall_cons_2; [vm_compute; repeat (apply Forall_cons_2; [discriminate|]); apply Forall_nil_2|]).
      apply Forall_nil_2. }
    intros c block Hc Hz. specialize (H docid Hd). revert H. rewrite Hc, Hz. intros H. exact H.
  - vm_compute. repeat split; reflexivity.
  - reflexivity.
  - apply Nat.leb_le. vm_compute. reflexivity.
Defined.
