(* ===== verification/Stdio.v ===== *)
(** * Lines of a stream

    What [fgets] takes from a stream, for the readers of mountinfo and of lists of
    files. *)
From S2P Require Import Prelude Text.

(** At most [n] bytes, and none after a newline. *)
Fixpoint take_line (n : nat) (s : bytes) : bytes * bytes :=
  match n, s with
  | S n, c :: s => if c =? 10 then ([c], s) else let '(l, rest) := take_line n s in (c :: l, rest)
  | _, _ => ([], s)
  end.

Lemma take_line_bytes n : forall s, take_line n s = (fst (take_line n s), snd (take_line n s)) /\ fst (take_line n s) ++ snd (take_line n s) = s.
Proof.
  induction n as [|n IH]; intros s; [by destruct s|]. destruct s as [|c s]; [done|]. cbn [take_line].
  destruct (c =? 10); [done|]. destruct (IH s) as [E H]. destruct (take_line n s) as [l rest]. cbn in *. split; [done|]. by f_equal.
Qed.

(** A line with its newline, if it is short enough; else a piece of it. *)
Lemma take_line_newline l rest : 10 ∉ l -> forall n, take_line n (l ++ 10 :: rest) =
  if decide (length l < n)%nat then (l ++ [10], rest) else (take n l, drop n l ++ 10 :: rest).
Proof.
  induction l as [|c l IH]; intros Hl n; destruct n as [|n]; cbn [app take_line length take drop]; try done.
  apply not_elem_of_cons in Hl as [Hc Hl]. rewrite (proj2 (Z.eqb_neq c 10)) by congruence. rewrite IH by done.
  destruct (decide (length l < n)%nat); [rewrite decide_True by lia|rewrite decide_False by lia]; done.
Qed.

(** What is left at the end without a newline. *)
Lemma take_line_end l : 10 ∉ l -> forall n, take_line n l = (take n l, drop n l).
Proof.
  induction l as [|c l IH]; intros Hl n; destruct n as [|n]; cbn [take_line take drop]; try done.
  apply not_elem_of_cons in Hl as [Hc Hl]. rewrite (proj2 (Z.eqb_neq c 10)) by congruence. by rewrite IH.
Qed.
