(* ===== verification/BindMount.v ===== *)
(** * Bind mounts (src/bind-mount.cpp)

    The table of mounts is read from /proc/self/mountinfo; what is on a pruned file
    system or path, or mounted below one, is taken out; a mount whose directory is
    also seen through another mount of the device is a bind mount.  A second thread
    says when the table has changed, and the next query reads it again.  Standard
    input functions are modelled here ([fgets], the conversions of [sscanf]). *)
From S2P Require Import Prelude Text Stdio DirPath Serializer Conf.

(** ** Reading mountinfo *)

Record mount := MOUNT {
  m_id : Z;
  parent_id : Z;
  dev_major : Z;
  dev_minor : Z;
  root : bytes;
  mount_point : bytes;
  fs_type : bytes;
  source : bytes;
  pruned_due_to_fs_type : bool;
  pruned_due_to_path : bool;
  to_remove : bool
}.

(** What is left of a file, and whether reading on at its end is an error. *)
Record File := FILE { data : bytes; read_error : bool }.

Definition LINE_MAX : nat := 2048%nat.

(** The characters before the NUL; [None] at the end, or when reading fails. *)
Definition fgets (size : nat) (f : File) : option bytes * File :=
  let '(chunk, rest) := take_line (size - 1) (data f) in
  let ended := (length chunk <? size - 1)%nat && negb (bool_decide (last chunk = Some 10)) in
  if bool_decide (chunk = []) || (ended && read_error f) then (None, FILE rest (read_error f))
  else (Some chunk, FILE rest (read_error f)).

(** The fuel is more than the number of bytes. *)
Fixpoint read_mount_line_loop (fuel : nat) (f : File) (line : bytes) : option (bytes * File) :=
  match fuel with
  | O => None
  | S fuel =>
    match fgets LINE_MAX f with
    | (None, f) => Some (if read_error f then [] else line, f)
    | (Some chunk, f) =>
      let buf := c_str chunk in
      if bool_decide (last buf = Some 10) then Some (line ++ removelast buf, f)
      else read_mount_line_loop fuel f (line ++ buf)
    end
  end.

Definition read_mount_line (f : File) : option (bytes * File) := read_mount_line_loop (S (length (data f))) f [].

Definition is_blank (c : Z) : bool := (c =? 32) || (c =? 9).

Fixpoint skip_blanks (s : bytes) : bytes :=
  match s with
  | c :: s' => if is_blank c then skip_blanks s' else s
  | [] => []
  end.

Definition is_octal (c : Z) : bool := (48 <=? c) && (c <=? 55).

Definition octal_value (a b c : Z) : Z := Z.lor (Z.lor (Z.shiftl (a - 48) 6) (Z.shiftl (b - 48) 3)) (c - 48).

(** The loop; the string ends at its NUL, which is no digit. *)
Fixpoint mount_chars (src : bytes) : bytes * bytes :=
  match src with
  | [] => ([], [])
  | c :: src' =>
    let other := let '(l, rest) := mount_chars src' in (c :: l, rest) in
    if is_blank c then ([], src)
    else if c =? 92 then
      match src' with
      | d1 :: d2 :: d3 :: src'' =>
        if is_octal d1 && is_octal d2 && is_octal d3 && (octal_value d1 d2 d3 <=? 255)
        then let '(l, rest) := mount_chars src'' in (octal_value d1 d2 d3 :: l, rest)
        else other
      | _ => other
      end
    else other
  end.

Definition parse_mount_string (str : bytes) : option (bytes * bytes) :=
  match skip_blanks str with
  | [] => None
  | src => Some (mount_chars src)
  end.

(** [%d] and [%u]. *)
Definition scan_d (s : bytes) : option (Z * bytes) :=
  match scan_number s with Some _ => let '(v, _, rest) := strtol s in Some (i32 v, rest) | None => None end.

Definition scan_u (s : bytes) : option (Z * bytes) :=
  match scan_number s with Some _ => let '(v, _, rest) := strtoull s in Some (u32 v, rest) | None => None end.

Definition scan_colon (s : bytes) : option bytes :=
  match s with c :: s => if c =? 58 then Some s else None | [] => None end.

(** [do { ... } while (!separator_found)]; each round takes at least one byte. *)
Fixpoint skip_options (fuel : nat) (ptr : bytes) : option bytes :=
  match fuel with
  | O => None
  | S fuel =>
    '(option, ptr) ← parse_mount_string ptr;
    if bool_decide (c_str option = [45]) then Some ptr else skip_options fuel ptr
  end.

(** The fields of an entry; [None] ends the reading. *)
Definition parse_mount_line (line : bytes) : option mount :=
  let line := c_str line in
  '(id, s) ← scan_d line;
  '(parent, s) ← scan_d s;
  '(major, s) ← scan_u s;
  s ← scan_colon s;
  '(minor, ptr) ← scan_u s;
  '(root, ptr) ← parse_mount_string ptr;
  '(mount_point, ptr) ← parse_mount_string ptr;
  '(_, ptr) ← parse_mount_string ptr;
  ptr ← skip_options (S (length ptr)) ptr;
  '(fs_type, ptr) ← parse_mount_string ptr;
  '(source, ptr) ← parse_mount_string ptr;
  _ ← parse_mount_string ptr;
  Some (MOUNT id parent major minor root mount_point fs_type source false false false).

Definition read_mount_entry (f : File) : option (mount * File) :=
  '(line, f) ← read_mount_line f;
  match line with
  | [] => None
  | _ => me ← parse_mount_line line; Some (me, f)
  end.

(** ** The table *)

Section Table.
Context (conf : Config).

(** [pruned_due_to_fs_type] and [pruned_due_to_path]; the whole list is searched. *)
Definition with_pruned (me : mount) : mount :=
  let fs_type_upper := map toupper (fs_type me) in
  MOUNT (m_id me) (parent_id me) (dev_major me) (dev_minor me) (root me) (mount_point me) (fs_type me) (source me)
    (bool_decide (fs_type_upper ∈ conf_prunefs conf))
    (fst (string_list_contains_dir_path (conf_prunepaths conf) 0 (c_str (mount_point me)))) (to_remove me).

(** The multimap: in the order of the keys, equal ones in the order they came. *)
Definition key (me : mount) : Z * Z := (i32 (dev_major me), i32 (dev_minor me)).

Definition key_lt (a b : Z * Z) : bool := (fst a <? fst b) || ((fst a =? fst b) && (snd a <? snd b)).

Fixpoint emplace (me : mount) (entries : list mount) : list mount :=
  match entries with
  | [] => [me]
  | e :: entries => if key_lt (key me) (key e) then me :: e :: entries else e :: emplace me entries
  end.

(** [while (read_mount_entry(f, &me))]; the fuel is more than the number of bytes. *)
Fixpoint read_entries (fuel : nat) (f : File) (entries : list mount) : list mount :=
  match fuel with
  | O => entries
  | S fuel =>
    match read_mount_entry f with
    | Some (me, f) => read_entries fuel f (emplace (with_pruned me) entries)
    | None => entries
    end
  end.

(** [id_to_mount]: a later mount with the same id replaces an earlier one. *)
Definition id_to_mount (entries : list mount) (id : Z) : option mount :=
  List.find (fun me => m_id me =? id) (rev entries).

(** [None]: the recursion does not end within the given depth. *)
Fixpoint find_whether_under_pruned (depth : nat) (entries : list mount) (id : Z) (cache : gmap Z bool)
    : option (bool * gmap Z bool) :=
  match cache !! id with
  | Some result => Some (result, cache)
  | None =>
    match id_to_mount entries id with
    | None => Some (false, cache)
    | Some me =>
      match depth with
      | O => None
      | S depth =>
        '(result, cache) ←
          (if pruned_due_to_fs_type me || pruned_due_to_path me then Some (true, cache)
           else if negb (parent_id me =? 0) then find_whether_under_pruned depth entries (parent_id me) cache
           else Some (false, cache));
        Some (result, <[id := result]> cache)
      end
    end
  end.

Definition with_to_remove (b : bool) (me : mount) : mount :=
  MOUNT (m_id me) (parent_id me) (dev_major me) (dev_minor me) (root me) (mount_point me) (fs_type me) (source me)
    (pruned_due_to_fs_type me) (pruned_due_to_path me) b.

Fixpoint mark (depth : nat) (entries todo : list mount) (cache : gmap Z bool) : option (list mount) :=
  match todo with
  | [] => Some []
  | me :: todo =>
    '(b, cache) ← find_whether_under_pruned depth entries (m_id me) cache;
    rest ← mark depth entries todo cache;
    Some (with_to_remove b me :: rest)
  end.

(** [None]: unbounded recursion; [Some None]: the file cannot be opened. *)
Definition read_mount_entries (depth : nat) (mountinfo : option File) : option (option (list mount)) :=
  match mountinfo with
  | None => Some None
  | Some f =>
    let entries := read_entries (S (length (data f))) f [] in
    marked ← mark depth entries entries ∅;
    Some (Some (List.filter (fun me => negb (to_remove me)) marked))
  end.

(** ** Bind mounts *)

Fixpoint starts_with (p s : bytes) : bool :=
  match p, s with
  | [], _ => true
  | c :: p, d :: s => (c =? d) && starts_with p s
  | _, [] => false
  end.

(** One of two mounts of a device shows a part of the other one. *)
Definition shows_part (me other : mount) : bool :=
  negb (m_id other =? m_id me) &&
  (((length (root other) <? length (root me))%nat && starts_with (root other) (root me)) ||
   (bool_decide (root me = root other) && (m_id other <? m_id me))).

Definition equal_range (k : Z * Z) (entries : list mount) : list mount :=
  List.filter (fun other => bool_decide (key other = k)) entries.

Definition match_bind_mounts (entries : list mount) : list bytes :=
  map mount_point (List.filter (fun me => existsb (shows_part me) (equal_range (key me) entries)) entries).

Record BindState := BIND {
  mountinfo_updated : bool;
  bind_mount_paths : list bytes;
  bind_mount_paths_index : nat
}.

Definition initial_bind_state : BindState := BIND false [] 0.

Definition rebuild_bind_mount_paths (depth : nat) (mountinfo : option File) (st : BindState) : option BindState :=
  mount_entries ← read_mount_entries depth mountinfo;
  Some match mount_entries with
       | None => st
       | Some entries =>
         BIND (mountinfo_updated st) (string_list_dir_path_sort (match_bind_mounts entries)) (bind_mount_paths_index st)
       end.

Definition is_bind_mount (depth : nat) (mountinfo : option File) (st : BindState) (path : bytes) : option (bool * BindState) :=
  st ← (if mountinfo_updated st then
          st ← rebuild_bind_mount_paths depth mountinfo (BIND false (bind_mount_paths st) (bind_mount_paths_index st));
          Some (BIND (mountinfo_updated st) (bind_mount_paths st) 0)
        else Some st);
  let '(b, index) := string_list_contains_dir_path (bind_mount_paths st) (bind_mount_paths_index st) path in
  Some (b, BIND (mountinfo_updated st) (bind_mount_paths st) index).

(** [opened]: the descriptor to be polled. *)
Definition bind_mount_init (depth : nat) (opened : bool) (mountinfo : option File) (st : BindState) : option BindState :=
  if negb opened then Some st else rebuild_bind_mount_paths depth mountinfo st.

(** What happens: the polling thread sees a change; a query, with what the table says then. *)
Inductive Event := MountsChanged | Query (mountinfo : option File) (path : bytes).

Fixpoint run_events (depth : nat) (st : BindState) (events : list Event) : option (list bool) :=
  match events with
  | [] => Some []
  | MountsChanged :: events => run_events depth (BIND true (bind_mount_paths st) (bind_mount_paths_index st)) events
  | Query mountinfo path :: events =>
    '(b, st) ← is_bind_mount depth mountinfo st path;
    bs ← run_events depth st events;
    Some (b :: bs)
  end.

End Table.

(** ** Specification *)

(** A mount is pruned itself, or is below one that is. *)
Inductive under_pruned (entries : list mount) : Z -> Prop :=
| pruned_itself id me : id_to_mount entries id = Some me ->
    pruned_due_to_fs_type me = true \/ pruned_due_to_path me = true -> under_pruned entries id
| below_pruned id me : id_to_mount entries id = Some me -> parent_id me <> 0 ->
    under_pruned entries (parent_id me) -> under_pruned entries id.

(** No mount is above itself, as long as nothing pruned is met: [rank] counts the way up. *)
Definition acyclic (entries : list mount) (rank : Z -> nat) : Prop :=
  forall id me, id_to_mount entries id = Some me -> pruned_due_to_fs_type me = false -> pruned_due_to_path me = false ->
    parent_id me <> 0 -> id_to_mount entries (parent_id me) <> None -> (rank (parent_id me) < rank id)%nat.

Definition kept (entries : list mount) (me : mount) : Prop := me ∈ entries /\ ~ under_pruned entries (m_id me).

(** A directory of the device is below another one; what the code asks is only whether
    the name of the one begins like the name of the other. *)
Definition below_dir (d p : bytes) : Prop := p <> d /\ (if decide (d = [47]) then [47] else d ++ [47]) `prefix_of` p.

Definition name_prefix (d p : bytes) : Prop := d `prefix_of` p /\ d <> p.

(** A path on which a part of what another mount of the device shows is mounted, or
    the same as an earlier mount shows. *)
Definition bind_point (part : bytes -> bytes -> Prop) (entries : list mount) (path : bytes) : Prop :=
  exists me other, kept entries me /\ kept entries other /\ key me = key other /\ m_id me <> m_id other /\
    (part (root other) (root me) \/ (root me = root other /\ m_id other < m_id me)) /\
    mount_point me = path.

(** No directory that is mounted has a name that only begins like that of another one. *)
Definition roots_apart (entries : list mount) : Prop :=
  forall me other, me ∈ entries -> other ∈ entries -> key me = key other ->
    name_prefix (root other) (root me) -> below_dir (root other) (root me).

(** The table that a file holds. *)
Definition table (conf : Config) (f : File) : list mount := read_entries conf (S (length (data f))) f [].

Definition table_ok (conf : Config) (depth : nat) (f : File) : Prop :=
  Forall is_byte (data f) /\ exists rank, acyclic (table conf f) rank /\ forall id, (rank id < depth)%nat.

(** Every answer is right for the table of the last time that a change was noticed. *)
Fixpoint right_answers (conf : Config) (part : bytes -> bytes -> Prop) (current : bytes -> Prop) (updated : bool) (events : list Event) (answers : list bool) : Prop :=
  match events, answers with
  | [], [] => True
  | MountsChanged :: events, _ => right_answers conf part current true events answers
  | Query mountinfo path :: events, b :: answers =>
    let current' := match mountinfo with
                    | Some f => if updated then bind_point part (table conf f) else current
                    | None => current
                    end in
    (b = true <-> current' path) /\ right_answers conf part current' false events answers
  | _, _ => False
  end.

Definition queried (events : list Event) : list bytes :=
  omap (fun e => match e with Query _ path => Some path | MountsChanged => None end) events.

Definition tables_ok (conf : Config) (depth : nat) (events : list Event) : Prop :=
  forall f path, Query (Some f) path ∈ events -> table_ok conf depth f.

(** ** What is pruned *)

Definition cache_ok (entries : list mount) (cache : gmap Z bool) : Prop :=
  forall id b, cache !! id = Some b -> (b = true <-> under_pruned entries id).

Lemma find_spec entries rank : acyclic entries rank -> forall depth id cache, cache_ok entries cache -> (rank id < depth)%nat ->
  exists b cache', find_whether_under_pruned depth entries id cache = Some (b, cache') /\
    (b = true <-> under_pruned entries id) /\ cache_ok entries cache'.
Proof.
  intros Hac. induction depth as [|depth IH]; intros id cache Hc Hr; [lia|]. cbn [find_whether_under_pruned].
  destruct (cache !! id) as [b|] eqn:Ec; [exists b, cache; split; [done|]; split; [by apply Hc|done]|].
  destruct (id_to_mount entries id) as [me|] eqn:Em.
  2: { exists false, cache. split; [done|]. split; [|done]. split; [done|]. intros H. inversion H; congruence. }
  assert (Hput : forall b c, (b = true <-> under_pruned entries id) -> cache_ok entries c -> cache_ok entries (<[id:=b]> c)).
  { intros b c Hb Hc' id' b'. destruct (decide (id = id')) as [<-|Hne]; [rewrite lookup_insert_eq; by intros [= <-]|].
    rewrite lookup_insert_ne by done. apply Hc'. }
  destruct (pruned_due_to_fs_type me || pruned_due_to_path me) eqn:Ep; cbn [mbind option_bind].
  { apply orb_true_iff in Ep. assert (Hu : true = true <-> under_pruned entries id) by (split; [intros _; by eapply pruned_itself|done]).
    eexists true, _. split; [done|]. split; [done|]. by apply Hput. }
  apply orb_false_iff in Ep as [E1 E2]. destruct (Z.eqb_spec (parent_id me) 0) as [Hz|Hz]; cbn [negb mbind option_bind].
  { assert (Hu : false = true <-> under_pruned entries id).
    { split; [done|]. intros H. inversion H as [? m Hm [?|?]|? m Hm Hp _]; rewrite Em in Hm; injection Hm as <-; congruence. }
    eexists false, _. split; [done|]. split; [done|]. by apply Hput. }
  assert (Hup : under_pruned entries (parent_id me) <-> under_pruned entries id).
  { split; [intros H; by eapply below_pruned|]. intros H.
    inversion H as [? m Hm [?|?]|? m Hm Hp H']; rewrite Em in Hm; injection Hm as <-; congruence. }
  destruct (id_to_mount entries (parent_id me)) as [p|] eqn:Epar.
  - destruct (IH (parent_id me) cache Hc) as (b & cache' & -> & Hb & Hc'); [pose proof (Hac id me Em E1 E2 Hz ltac:(by rewrite Epar)); lia|].
    cbn [mbind option_bind]. eexists b, _. split; [done|]. rewrite Hup in Hb. split; [done|]. by apply Hput.
  - assert (Hno : ~ under_pruned entries (parent_id me)) by (intros H; inversion H; congruence).
    assert (E : exists b, find_whether_under_pruned depth entries (parent_id me) cache = Some (b, cache) /\ b = false).
    { destruct (cache !! parent_id me) as [b|] eqn:Ecp.
      - exists b. destruct depth; cbn [find_whether_under_pruned]; rewrite Ecp; split; try done;
          destruct b; try done; exfalso; by apply Hno, (Hc (parent_id me) true Ecp).
      - exists false. destruct depth; cbn [find_whether_under_pruned]; by rewrite Ecp, Epar. }
    destruct E as (b & -> & ->). cbn [mbind option_bind]. rewrite Hup in Hno. eexists false, _. split; [done|].
    assert (Hf : false = true <-> under_pruned entries id) by (split; [done|intros H; by destruct Hno]). split; [done|by apply Hput].
Qed.

Lemma mark_spec entries rank depth : acyclic entries rank -> (forall id, (rank id < depth)%nat) -> forall todo cache,
  cache_ok entries cache -> exists marked, mark depth entries todo cache = Some marked /\
    Forall2 (fun me me' => exists b, me' = with_to_remove b me /\ (b = true <-> under_pruned entries (m_id me))) todo marked.
Proof.
  intros Hac Hd. induction todo as [|me todo IH]; intros cache Hc; cbn [mark]; [by exists []; split; [|constructor]|].
  destruct (find_spec entries rank Hac depth (m_id me) cache Hc (Hd _)) as (b & cache' & -> & Hb & Hc'). cbn [mbind option_bind].
  destruct (IH cache' Hc') as (marked & -> & F). cbn [mbind option_bind]. eexists. split; [done|]. constructor; [by exists b|done].
Qed.

(** Without a mount above it, a mount that is its own parent is never found out about. *)
Lemma self_parent_diverges entries id me depth : id_to_mount entries id = Some me -> parent_id me = id -> id <> 0 ->
  pruned_due_to_fs_type me = false -> pruned_due_to_path me = false -> find_whether_under_pruned depth entries id ∅ = None.
Proof.
  intros Hm Hp Hid H1 H2. induction depth as [|depth IH]; cbn [find_whether_under_pruned]; rewrite lookup_empty, Hm; [done|].
  rewrite H1, H2, Hp. cbn [orb]. rewrite (proj2 (Z.eqb_neq _ _) Hid). cbn [negb]. by rewrite IH.
Qed.

(** What is left of the table. *)
Definition unmarked (me : mount) : mount := with_to_remove false me.

Lemma read_mount_entries_spec conf depth f : table_ok conf depth f -> exists entries,
  read_mount_entries conf depth (Some f) = Some (Some entries) /\
  forall me, me ∈ entries <-> exists me0, kept (table conf f) me0 /\ me = unmarked me0.
Proof.
  intros (_ & rank & Hac & Hd). unfold read_mount_entries. fold (table conf f). set (es := table conf f) in *.
  destruct (mark_spec es rank depth Hac Hd es ∅) as (marked & -> & F); [intros id b H; by rewrite lookup_empty in H|].
  cbn [mbind option_bind]. eexists. split; [done|]. intros me. rewrite list_elem_of_In, filter_In, <- list_elem_of_In.
  unfold kept. split.
  - intros [Hin Hr]. apply list_elem_of_lookup in Hin as [i Hi]. destruct (Forall2_lookup_r _ _ _ _ _ F Hi) as (me0 & H0 & b & -> & Hb).
    cbn in Hr. apply negb_true_iff in Hr as ->. exists me0. split; [|done]. split; [by apply list_elem_of_lookup_2 with i|].
    intros H. apply Hb in H. done.
  - intros (me0 & [Hin Hno] & ->). apply list_elem_of_lookup in Hin as [i Hi].
    destruct (Forall2_lookup_l _ _ _ _ _ F Hi) as (me' & H' & b & -> & Hb).
    destruct b; [destruct Hno; by apply Hb|]. split; [by apply list_elem_of_lookup_2 with i|done].
Qed.

(** ** Bytes *)

Lemma scan_number_rest s neg v rest : scan_number s = Some (neg, v, rest) -> exists pre, s = pre ++ rest.
Proof.
  assert (Hd : forall s acc, exists pre, s = pre ++ snd (digits_val acc s)).
  { clear. induction s as [|c s IH]; intros acc; cbn [digits_val]; [by exists []|]. destruct (isdigit c); [|by exists []].
    destruct (IH (10 * acc + (c - 48))) as [pre E]. exists (c :: pre). cbn [app]. by f_equal. }
  assert (Hs : exists pre, s = pre ++ skip_space s).
  { clear. induction s as [|c s [pre E]]; cbn [skip_space]; [by exists []|]. destruct (isspace c); [|by exists []].
    exists (c :: pre). cbn [app]. by f_equal. }
  destruct Hs as [pre E]. unfold scan_number. set (t := skip_space s) in *.
  assert (Hsign : exists p t', (match t with c :: s' => if c =? 45 then (true, s') else if c =? 43 then (false, s') else (false, t)
    | [] => (false, t) end) = (p, t') /\ exists pre', t = pre' ++ t').
  { destruct t as [|c t']; [by exists false, []; split; [|exists []]|].
    destruct (c =? 45); [by exists true, t'; split; [|exists [c]]|]. destruct (c =? 43); [by exists false, t'; split; [|exists [c]]|].
    exists false, (c :: t'). split; [done|]. by exists []. }
  destruct Hsign as (p & t' & -> & pre' & E'). destruct t' as [|c t'']; [done|]. destruct (isdigit c); [|done].
  destruct (Hd (c :: t'') 0) as [pre2 E2]. destruct (digits_val 0 (c :: t'')) as [v' rest']. intros [= _ _ <-].
  exists (pre ++ pre' ++ pre2). rewrite E, E', E2 at 1. cbn [snd]. by rewrite !app_assoc.
Qed.

Lemma scan_d_bytes s v rest : Forall is_byte s -> scan_d s = Some (v, rest) -> Forall is_byte rest.
Proof.
  intros F. unfold scan_d, strtol. destruct (scan_number s) as [[[neg w] rest']|] eqn:E; [|done].
  destruct (scan_number_rest _ _ _ _ E) as [pre ->]. apply Forall_app in F as [_ F].
  repeat case_match; intros; by simplify_eq.
Qed.

Lemma scan_u_bytes s v rest : Forall is_byte s -> scan_u s = Some (v, rest) -> Forall is_byte rest.
Proof.
  intros F. unfold scan_u, strtoull. destruct (scan_number s) as [[[neg w] rest']|] eqn:E; [|done].
  destruct (scan_number_rest _ _ _ _ E) as [pre ->]. apply Forall_app in F as [_ F].
  repeat case_match; intros; by simplify_eq.
Qed.

Lemma octal_value_byte a b c : is_octal a = true -> is_octal b = true -> is_octal c = true -> octal_value a b c <= 255 ->
  is_byte (octal_value a b c).
Proof.
  unfold is_octal, octal_value, is_byte. intros H1 H2 H3 H4. apply andb_true_iff in H1 as [H1 _], H2 as [H2 _], H3 as [H3 _].
  split; [|lia]. apply Z.lor_nonneg. split; [apply Z.lor_nonneg; split; apply Z.shiftl_nonneg|]; lia.
Qed.

Lemma mount_chars_bytes n : forall s, (length s <= n)%nat -> Forall is_byte s ->
  Forall is_byte (fst (mount_chars s)) /\ Forall is_byte (snd (mount_chars s)).
Proof.
  induction n as [|n IH]; intros s Hn F; (destruct s as [|c s]; [done|]); cbn [length] in Hn; [lia|]. cbn [mount_chars].
  pose proof F as F'. apply Forall_cons in F' as [Hc Fs]. destruct (is_blank c); [done|].
  assert (Ho : Forall is_byte (fst (let '(l, rest) := mount_chars s in (c :: l, rest))) /\
    Forall is_byte (snd (let '(l, rest) := mount_chars s in (c :: l, rest)))).
  { destruct (IH s) as [H1 H2]; [lia|done|]. destruct (mount_chars s). split; [by constructor|done]. }
  destruct (c =? 92); [|exact Ho]. destruct s as [|d1 [|d2 [|d3 s]]]; try exact Ho.
  destruct (is_octal d1 && is_octal d2 && is_octal d3 && (octal_value d1 d2 d3 <=? 255)) eqn:E; [|exact Ho].
  apply andb_true_iff in E as [E E4]. apply andb_true_iff in E as [E E3]. apply andb_true_iff in E as [E1 E2]. apply Z.leb_le in E4.
  rewrite !Forall_cons in Fs. destruct Fs as (_ & _ & _ & Fs). destruct (IH s) as [H1 H2]; [cbn in Hn; lia|done|].
  destruct (mount_chars s). split; [constructor; [by apply octal_value_byte|done]|done].
Qed.

Lemma parse_mount_string_bytes s v rest : Forall is_byte s -> parse_mount_string s = Some (v, rest) ->
  Forall is_byte v /\ Forall is_byte rest.
Proof.
  intros F. unfold parse_mount_string. assert (Hs : Forall is_byte (skip_blanks s)).
  { induction F as [|c s Hc F IH]; [done|]. cbn. destruct (is_blank c); [done|by constructor]. }
  pose proof (mount_chars_bytes _ _ (le_n _) Hs) as H. destruct (skip_blanks s) as [|c t]; [done|].
  intros E. assert (E' : mount_chars (c :: t) = (v, rest)) by congruence. by rewrite E' in H.
Qed.

Lemma c_str_bytes s : Forall is_byte s -> Forall is_byte (c_str s).
Proof. induction 1 as [|c s Hc F IH]; [done|]. cbn. destruct (c =? 0); [done|by constructor]. Qed.

Lemma parse_mount_line_bytes line me : Forall is_byte line -> parse_mount_line line = Some me -> Forall is_byte (mount_point me).
Proof.
  intros F. apply c_str_bytes in F. unfold parse_mount_line. revert F. generalize (c_str line). intros s F H.
  destruct (scan_d s) as [[id s1]|] eqn:E1; cbn [mbind option_bind] in H; [|done]. apply scan_d_bytes in E1; [|done].
  destruct (scan_d s1) as [[par s2]|] eqn:E2; cbn [mbind option_bind] in H; [|done]. apply scan_d_bytes in E2; [|done].
  destruct (scan_u s2) as [[maj s3]|] eqn:E3; cbn [mbind option_bind] in H; [|done]. apply scan_u_bytes in E3; [|done].
  destruct (scan_colon s3) as [s4|] eqn:E4; cbn [mbind option_bind] in H; [|done].
  assert (F4 : Forall is_byte s4).
  { destruct s3 as [|c s3]; [done|]. cbn in E4. destruct (c =? 58); [|done]. injection E4 as <-. by apply Forall_cons in E3 as [_ ?]. }
  destruct (scan_u s4) as [[mi s5]|] eqn:E5; cbn [mbind option_bind] in H; [|done]. apply scan_u_bytes in E5; [|done].
  destruct (parse_mount_string s5) as [[r s6]|] eqn:E6; cbn [mbind option_bind] in H; [|done]. apply parse_mount_string_bytes in E6 as [_ E6]; [|done].
  destruct (parse_mount_string s6) as [[mp s7]|] eqn:E7; cbn [mbind option_bind] in H; [|done]. apply parse_mount_string_bytes in E7 as [E7 _]; [|done].
  destruct (parse_mount_string s7) as [[? s8]|]; cbn [mbind option_bind] in H; [|done].
  destruct (skip_options _ s8) as [s9|]; cbn [mbind option_bind] in H; [|done].
  destruct (parse_mount_string s9) as [[? s10]|]; cbn [mbind option_bind] in H; [|done].
  destruct (parse_mount_string s10) as [[? s11]|]; cbn [mbind option_bind] in H; [|done].
  destruct (parse_mount_string s11); cbn [mbind option_bind] in H; [|done]. by injection H as <-.
Qed.

Lemma fgets_bytes size f o f' : Forall is_byte (data f) -> fgets size f = (o, f') ->
  match o with Some chunk => Forall is_byte chunk | None => True end /\ Forall is_byte (data f').
Proof.
  intros F. unfold fgets. destruct (take_line_bytes (size - 1) (data f)) as [E H]. rewrite E.
  set (chunk := fst _) in *. set (rest := snd _) in *. rewrite <- H in F. apply Forall_app in F as [F1 F2].
  case_match; intros [= <- <-]; done.
Qed.

Lemma removelast_bytes (s : bytes) : Forall is_byte s -> Forall is_byte (removelast s).
Proof. induction 1 as [|c s Hc F IH]; [done|]. destruct s; [constructor|]. constructor; [done|exact IH]. Qed.

Lemma read_mount_line_bytes fuel : forall f line l f', Forall is_byte (data f) -> Forall is_byte line ->
  read_mount_line_loop fuel f line = Some (l, f') -> Forall is_byte l /\ Forall is_byte (data f').
Proof.
  induction fuel as [|fuel IH]; intros f line l f' F Fl; cbn [read_mount_line_loop]; [done|].
  destruct (fgets LINE_MAX f) as [[chunk|] f1] eqn:E; apply fgets_bytes in E as [E1 E2]; try done.
  - apply c_str_bytes in E1. case_bool_decide.
    + intros [= <- <-]. split; [apply Forall_app; split; [done|by apply removelast_bytes]|done].
    + apply IH; [done|]. by apply Forall_app.
  - intros [= <- <-]. split; [by destruct (read_error f1)|done].
Qed.

Lemma emplace_elem me0 me entries : me ∈ emplace me0 entries <-> me = me0 \/ me ∈ entries.
Proof.
  induction entries as [|e entries IH]; cbn [emplace]; [rewrite list_elem_of_singleton; split; [by left|intros [?|H]; [done|by apply not_elem_of_nil in H]]|].
  destruct (key_lt (key me0) (key e)); rewrite !elem_of_cons; [tauto|rewrite IH; tauto].
Qed.

Lemma table_bytes conf f me : Forall is_byte (data f) -> me ∈ table conf f -> Forall is_byte (mount_point me).
Proof.
  assert (G : forall fuel f es, Forall is_byte (data f) -> (forall me, me ∈ es -> Forall is_byte (mount_point me)) ->
    me ∈ read_entries conf fuel f es -> Forall is_byte (mount_point me)).
  2: { intros F. apply G; [done|]. intros x Hx. by apply not_elem_of_nil in Hx. }
  clear f. induction fuel as [|fuel IH]; intros f es F H; cbn [read_entries]; [apply H|].
  destruct (read_mount_entry f) as [[m f']|] eqn:E; [|apply H]. unfold read_mount_entry in E.
  destruct (read_mount_line f) as [[line f1]|] eqn:El; cbn [mbind option_bind] in E; [|done].
  apply read_mount_line_bytes in El as [El1 El2]; [|done..]. destruct line as [|c line]; [done|].
  destruct (parse_mount_line (c :: line)) as [m'|] eqn:Em; cbn [mbind option_bind] in E; [|done]. injection E as <- <-.
  apply parse_mount_line_bytes in Em; [|done]. apply IH; [done|]. intros x Hx. apply emplace_elem in Hx as [->|Hx]; [done|by apply H].
Qed.

(** ** Bind mounts *)

Lemma starts_with_prefix p s : starts_with p s = true <-> p `prefix_of` s.
Proof.
  revert s. induction p as [|c p IH]; intros s; cbn [starts_with]; [split; [intros _; apply prefix_nil|done]|].
  destruct s as [|d s]; [split; [done|intros H; by apply prefix_nil_not in H]|]. rewrite andb_true_iff, Z.eqb_eq, IH. split.
  - intros [-> H]. by apply prefix_cons.
  - intros H. split; [by apply prefix_cons_inv_1 in H|by apply prefix_cons_inv_2 in H].
Qed.

Lemma shows_part_spec me other : shows_part me other = true <-> m_id me <> m_id other /\
  ((root other `prefix_of` root me /\ root other <> root me) \/ (root me = root other /\ m_id other < m_id me)).
Proof.
  unfold shows_part. rewrite andb_true_iff, orb_true_iff, !andb_true_iff, negb_true_iff, Z.eqb_neq, Nat.ltb_lt, bool_decide_eq_true, Z.ltb_lt,
    starts_with_prefix.
  split; intros [H1 H2]; (split; [congruence|]); (destruct H2 as [[H2 H3]|H2]; [left|by right]).
  - split; [done|]. intros E. rewrite E in H2. lia.
  - split; [|done]. pose proof (prefix_length _ _ H2). destruct H2 as [k Hk]. destruct k as [|c k]; [rewrite app_nil_r in Hk; congruence|].
    rewrite Hk, length_app. cbn. lia.
Qed.

Lemma match_bind_mounts_spec parsed entries path :
  (forall me, me ∈ entries <-> exists me0, kept parsed me0 /\ me = unmarked me0) ->
  path ∈ match_bind_mounts entries <-> bind_point name_prefix parsed path.
Proof.
  intros He. unfold match_bind_mounts. rewrite list_elem_of_fmap. split.
  - intros (me & -> & Hme). rewrite list_elem_of_In, filter_In, <- list_elem_of_In in Hme. destruct Hme as [Hme Hex].
    apply existsb_exists in Hex as (other & Ho & Hs). unfold equal_range in Ho. rewrite filter_In, <- list_elem_of_In in Ho.
    destruct Ho as [Ho Hk]. apply bool_decide_eq_true in Hk. apply He in Hme as (me0 & K1 & ->), Ho as (o0 & K2 & ->).
    apply shows_part_spec in Hs as [H1 H2]. exists me0, o0. by repeat (split; [done|]).
  - intros (me0 & o0 & K1 & K2 & Hk & H1 & H2 & <-). exists (unmarked me0). split; [done|].
    rewrite list_elem_of_In, filter_In, <- list_elem_of_In. split; [apply He; by exists me0|].
    apply existsb_exists. exists (unmarked o0). split; [|by apply shows_part_spec].
    unfold equal_range. rewrite filter_In, <- list_elem_of_In. split; [apply He; by exists o0|]. by apply bool_decide_eq_true.
Qed.

(** The list of paths is sorted and holds those of [current]. *)
Record paths_ok (paths : list bytes) (current : bytes -> Prop) : Prop := {
  po_path : Forall path paths;
  po_sorted : StronglySorted dir_path_le paths;
  po_spec : forall p, p ∈ paths <-> current p
}.

Lemma rebuild_spec conf depth f st : table_ok conf depth f -> exists paths,
  rebuild_bind_mount_paths conf depth (Some f) st = Some (BIND (mountinfo_updated st) paths (bind_mount_paths_index st)) /\
  paths_ok paths (bind_point name_prefix (table conf f)).
Proof.
  intros Hf. destruct (read_mount_entries_spec conf depth f Hf) as (entries & E & He). unfold rebuild_bind_mount_paths.
  rewrite E. cbn [mbind option_bind]. eexists. split; [done|].
  pose proof (fun p => match_bind_mounts_spec _ _ p He) as Hm.
  assert (P : string_list_dir_path_sort (match_bind_mounts entries) ≡ₚ match_bind_mounts entries) by apply merge_sort_Permutation.
  assert (F : Forall path (match_bind_mounts entries)).
  { apply Forall_forall. intros p Hp. apply Hm in Hp as (me & _ & [Hin _] & _ & _ & _ & _ & <-). apply (table_bytes conf f); [apply Hf|done]. }
  split; [by rewrite P|by apply merge_sort_sorted|]. intros p. by rewrite P.
Qed.

Lemma run_events_spec conf depth events : tables_ok conf depth events -> forall st current prev,
  paths_ok (bind_mount_paths st) current -> behind (bind_mount_paths st) (bind_mount_paths_index st) prev ->
  (forall q, prev = Some q -> path q) -> increasing_paths prev (queried events) ->
  exists answers, run_events conf depth st events = Some answers /\
    right_answers conf name_prefix current (mountinfo_updated st) events answers.
Proof.
  induction events as [|[|m p] events IH]; intros Ht st current prev Hp Hb Hq Hi; cbn [run_events right_answers].
  - by exists [].
  - destruct (IH (fun f p' Hin => Ht f p' (list_elem_of_further _ _ _ Hin))
      (BIND true (bind_mount_paths st) (bind_mount_paths_index st)) current prev Hp Hb Hq Hi) as (answers & -> & Hr).
    by exists answers.
  - cbn [queried omap list_omap increasing_paths] in Hi. destruct Hi as (Hpath & Hlt & Hi).
    set (current' := match m with Some f => if mountinfo_updated st then bind_point name_prefix (table conf f) else current | None => current end).
    assert (S : exists st', (if mountinfo_updated st then
          st0 ← rebuild_bind_mount_paths conf depth m (BIND false (bind_mount_paths st) (bind_mount_paths_index st));
          Some (BIND (mountinfo_updated st0) (bind_mount_paths st0) 0)
        else Some st) = Some st' /\ mountinfo_updated st' = false /\ paths_ok (bind_mount_paths st') current' /\
        behind (bind_mount_paths st') (bind_mount_paths_index st') prev).
    { unfold current'. destruct (mountinfo_updated st) eqn:Eu; [|by exists st; destruct m]. destruct m as [f|].
      - destruct (rebuild_spec conf depth f (BIND false (bind_mount_paths st) (bind_mount_paths_index st))) as (paths & -> & H);
          [apply (Ht f p); by left|]. cbn [mbind option_bind]. eexists. split; [done|]. split; [done|]. split; [done|].
        intros i e Hlt0. cbn in Hlt0. lia.
      - cbn. eexists. split; [done|]. split; [done|]. split; [done|]. intros i e Hlt0. cbn in Hlt0. lia. }
    destruct S as (st' & E & Hu & Hp' & Hb'). unfold is_bind_mount. rewrite E. cbn [mbind option_bind].
    destruct (contains_spec (bind_mount_paths st') (bind_mount_paths_index st') prev p) as (idx & -> & Hb2);
      [apply Hp'|done|by intros q ->; split; [apply Hq|apply Hlt]|apply Hp'|done|].
    cbn [mbind option_bind].
    destruct (IH (fun f p' Hin => Ht f p' (list_elem_of_further _ _ _ Hin))
      (BIND (mountinfo_updated st') (bind_mount_paths st') idx) current' (Some p)) as (answers & -> & Hr);
      [done|done|by intros q [= <-]|done|].
    cbn [mbind option_bind]. eexists. split; [done|]. cbn [right_answers]. fold current'. cbn [mountinfo_updated] in Hr. rewrite Hu in Hr.
    split; [|done]. rewrite bool_decide_eq_true. apply Hp'.
Qed.

(** Where the names of the roots are apart, it is the directories that count. *)
Lemma below_name_prefix d p : below_dir d p -> name_prefix d p.
Proof.
  intros [Hne [k ->]]. split; [|congruence]. destruct (decide (d = [47])) as [->|]; [by exists k|]. rewrite <- app_assoc. by eexists.
Qed.

Lemma bind_point_below entries path : roots_apart entries -> bind_point name_prefix entries path <-> bind_point below_dir entries path.
Proof.
  intros Ha. split; intros (me & other & [H1 K1] & [H2 K2] & Hk & Hi & Hr & Hp); exists me, other;
    (repeat (split; [done|])); (split; [|done]); (destruct Hr as [Hr|Hr]; [left|by right]).
  - by apply Ha.
  - by apply below_name_prefix.
Qed.

Lemma right_answers_same conf part1 part2 events :
  (forall f path, Query (Some f) path ∈ events -> forall p, bind_point part1 (table conf f) p <-> bind_point part2 (table conf f) p) ->
  forall updated current1 current2 answers, (forall p, current1 p <-> current2 p) ->
  right_answers conf part1 current1 updated events answers -> right_answers conf part2 current2 updated events answers.
Proof.
  induction events as [|[|m p] events IH]; intros Ht updated current1 current2 answers Hc; cbn [right_answers]; [done|apply IH; [|done]|].
  - intros f q Hin. apply (Ht f q). by right.
  - destruct answers as [|b answers]; [done|]. assert (H : forall q,
      match m with Some f => if updated then bind_point part1 (table conf f) else current1 | None => current1 end q <->
      match m with Some f => if updated then bind_point part2 (table conf f) else current2 | None => current2 end q).
    { intros q. destruct m as [f|]; [|apply Hc]. destruct updated; [|apply Hc]. apply (Ht f p). by left. }
    intros [H1 H2]. split; [by rewrite <- H|]. eapply IH; [|exact H|done]. intros f q Hin. apply (Ht f q). by right.
Qed.

(** ** What the kernel writes *)

Section Format.
(** The characters that are written as octal escapes: at least blanks, newlines and backslashes. *)
Context (escaped : Z -> bool).

Definition mangle_char (c : Z) : bytes := if escaped c then 92 :: octal3 c else [c].

Definition mangle (s : bytes) : bytes := concat (map mangle_char s).

(** A line, with the options of the mount, the optional fields, and the options of the file system. *)
Definition mount_line (me : mount) (options : bytes) (optional : list bytes) (super : bytes) : bytes :=
  to_string (m_id me) ++ [32] ++ to_string (parent_id me) ++ [32] ++ to_string (dev_major me) ++ [58] ++ to_string (dev_minor me) ++
  [32] ++ mangle (root me) ++ [32] ++ mangle (mount_point me) ++ [32] ++ options ++ concat (map (fun o => 32 :: o) optional) ++
  [32; 45; 32] ++ mangle (fs_type me) ++ [32] ++ mangle (source me) ++ [32] ++ super.

Definition mangled_ok (s : bytes) : Prop := s <> [] /\ Forall (fun c => 0 < c < 256) s.

Definition option_ok (o : bytes) : Prop := o <> [] /\ Forall (fun c => 32 < c < 256 /\ c <> 92) o.

(** The options of the file system are not looked into. *)
Definition super_ok (o : bytes) : Prop := o <> [] /\ Forall (fun c => 0 < c < 256 /\ c <> 9 /\ c <> 10 /\ c <> 32) o.

Record line_ok (me : mount) (options : bytes) (optional : list bytes) (super : bytes) : Prop := {
  lo_ids : 0 <= m_id me < 2 ^ 31 /\ 0 <= parent_id me < 2 ^ 31;
  lo_dev : is_u32 (dev_major me) /\ is_u32 (dev_minor me);
  lo_names : mangled_ok (root me) /\ mangled_ok (mount_point me) /\ mangled_ok (fs_type me) /\ Forall (fun c => 0 < c < 256) (source me);
  lo_options : option_ok options /\ Forall (fun o => option_ok o /\ o <> [45]) optional /\ super_ok super
}.

Definition read_fields (me : mount) : mount :=
  MOUNT (m_id me) (parent_id me) (dev_major me) (dev_minor me) (root me) (mount_point me) (fs_type me) (source me) false false false.

Context (Hescaped : forall c, c = 32 \/ c = 9 \/ c = 10 \/ c = 92 -> escaped c = true).

(** A word that reads as [v] when a blank or the end follows. *)
Definition word (w v : bytes) : Prop := w <> [] /\ is_blank (hd 0 w) = false /\
  forall rest, (forall c s, rest = c :: s -> is_blank c = true) -> mount_chars (w ++ rest) = (v, rest).

Lemma octal3_value c : 0 <= c < 256 ->
  Forall (fun d => is_octal d = true) (octal3 c) /\ octal_value (nth 0 (octal3 c) 0) (nth 1 (octal3 c) 0) (nth 2 (octal3 c) 0) = c.
Proof.
  intros Hc. assert (H : Forall (fun c => Forall (fun d => is_octal d = true) (octal3 c) /\
    octal_value (nth 0 (octal3 c) 0) (nth 1 (octal3 c) 0) (nth 2 (octal3 c) 0) = c) (map Z.of_nat (seq 0 256))).
  { apply (bool_decide_unpack _). vm_compute. exact I. }
  rewrite Forall_forall in H. apply H. apply list_elem_of_fmap. exists (Z.to_nat c). split; [lia|]. apply elem_of_seq. lia.
Qed.

Lemma mount_chars_mangle s : Forall (fun c => 0 < c < 256) s -> forall rest, (forall c t, rest = c :: t -> is_blank c = true) ->
  mount_chars (mangle s ++ rest) = (s, rest).
Proof.
  induction 1 as [|c s Hc F IH]; intros rest Hr; cbn [mangle map concat app].
  - destruct rest as [|c t]; [done|]. cbn [mount_chars]. by rewrite (Hr c t eq_refl).
  - rewrite <- app_assoc. fold (mangle s). unfold mangle_char. destruct (escaped c) eqn:E.
    + destruct (octal3_value c) as [Ho Hv]; [lia|]. unfold octal3 in *. cbn [nth app] in *. rewrite !Forall_cons in Ho.
      destruct Ho as (O1 & O2 & O3 & _). cbn [mount_chars]. change (is_blank 92) with false. change (92 =? 92) with true. cbn iota.
      rewrite O1, O2, O3, Hv. cbn [andb]. rewrite (proj2 (Z.leb_le c 255)) by lia. by rewrite IH.
    + cbn [app mount_chars]. assert (Hb : is_blank c = false).
      { unfold is_blank. destruct (Z.eqb_spec c 32) as [->|]; [by rewrite Hescaped in E by auto|].
        destruct (Z.eqb_spec c 9) as [->|]; [by rewrite Hescaped in E by auto|done]. }
      rewrite Hb. destruct (Z.eqb_spec c 92) as [->|]; [by rewrite Hescaped in E by auto|]. by rewrite IH.
Qed.

Lemma word_mangle s : mangled_ok s -> word (mangle s) s.
Proof.
  intros [Hne F]. split; [|split; [|by apply mount_chars_mangle]]; destruct s as [|c s]; try done; apply Forall_cons in F as [Hc _];
    cbn [mangle map concat]; unfold mangle_char; destruct (escaped c) eqn:E; try done.
  cbn [app hd]. unfold is_blank. destruct (Z.eqb_spec c 32) as [->|]; [by rewrite Hescaped in E by auto|].
  destruct (Z.eqb_spec c 9) as [->|]; [by rewrite Hescaped in E by auto|done].
Qed.

Lemma word_option o : option_ok o -> word o o.
Proof.
  intros [Hne F]. split; [done|]. assert (Hb : forall c, 32 < c < 256 /\ c <> 92 -> is_blank c = false) by (unfold is_blank; intros; lia).
  split; [destruct F; [done|by apply Hb]|]. intros rest Hr. clear Hne. induction F as [|c o Hc F IH]; cbn [app mount_chars].
  - destruct rest as [|c t]; [done|]. cbn [mount_chars]. by rewrite (Hr c t eq_refl).
  - rewrite Hb by done. rewrite (proj2 (Z.eqb_neq c 92)) by lia. by rewrite IH.
Qed.

Lemma parse_word w v rest : word w v -> (forall c s, rest = c :: s -> is_blank c = true) ->
  parse_mount_string (32 :: w ++ rest) = Some (v, rest).
Proof.
  intros (Hne & Hb & Hw) Hr. unfold parse_mount_string. cbn [skip_blanks]. change (is_blank 32) with true. cbn iota.
  destruct w as [|c w]; [done|]. cbn [hd] in Hb. cbn [app skip_blanks]. rewrite Hb. by rewrite <- Hw by done.
Qed.

Lemma mount_chars_rest n : forall s, (length s <= n)%nat -> Forall (fun c => is_blank c = false) s -> snd (mount_chars s) = [].
Proof.
  induction n as [|n IH]; intros s Hn F; (destruct s as [|c s]; [done|]); cbn [length] in Hn; [lia|]. cbn [mount_chars].
  apply Forall_cons in F as [Hc F]. rewrite Hc.
  assert (Ho : snd (let '(l, rest) := mount_chars s in (c :: l, rest)) = []).
  { rewrite <- (IH s) by (done || lia). by destruct (mount_chars s). }
  destruct (c =? 92); [|exact Ho]. destruct s as [|d1 [|d2 [|d3 s]]]; try exact Ho.
  destruct (_ && _); [|exact Ho]. rewrite !Forall_cons in F. cbn [length] in Hn. rewrite <- (IH s) by (tauto || lia). by destruct (mount_chars s).
Qed.

Lemma skip_blanks_super o : super_ok o -> skip_blanks o = o /\ exists v, parse_mount_string (32 :: o) = Some (v, []).
Proof.
  intros [Hne F]. assert (Fb : Forall (fun c => is_blank c = false) o).
  { eapply Forall_impl; [exact F|]. unfold is_blank. cbn. lia. }
  pose proof (mount_chars_rest _ o (le_n _) Fb) as H. unfold parse_mount_string. cbn [skip_blanks]. change (is_blank 32) with true. cbn iota.
  destruct o as [|c o]; [done|]. apply Forall_cons in Fb as [Hc _]. cbn [skip_blanks]. rewrite Hc. split; [done|].
  destruct (mount_chars (c :: o)) as [v rest]. cbn [snd] in H. subst rest. by exists v.
Qed.

Lemma blank_next (s : bytes) : forall c t, 32 :: s = c :: t -> is_blank c = true.
Proof. by intros c t [= <- _]. Qed.

Lemma skip_options_spec optional rest : Forall (fun o => option_ok o /\ o <> [45]) optional -> forall fuel,
  (length optional < fuel)%nat ->
  skip_options fuel (concat (map (fun o => 32 :: o) optional) ++ 32 :: [45] ++ 32 :: rest) = Some (32 :: rest).
Proof.
  assert (Hdash : word [45] [45]).
  { apply word_option. split; [done|]. constructor; [lia|constructor]. }
  induction 1 as [|o optional [Ho Hno] F IH]; intros fuel Hf; (destruct fuel as [|fuel]; [cbn in Hf; lia|]); cbn [map concat skip_options].
  - rewrite app_nil_l, (parse_word [45] [45]); [done|done|apply blank_next].
  - rewrite <- app_assoc. cbn [app]. rewrite (parse_word o o); [|by apply word_option|].
    + cbn [mbind option_bind]. rewrite bool_decide_false; [apply IH; cbn in Hf; lia|].
      rewrite c_str_id; [done|]. intros H0. destruct Ho as [_ Ho]. rewrite Forall_forall in Ho. specialize (Ho 0 H0). lia.
    + destruct optional as [|o' optional]; cbn; intros c t [= <- _]; done.
Qed.

Lemma scan_d_spec z rest : 0 <= z < 2 ^ 31 -> (match rest with [] => true | c :: _ => negb (isdigit c) end) = true ->
  scan_d (to_string z ++ rest) = Some (z, rest).
Proof.
  change (2 ^ 31) with 2147483648. intros Hz Hr. unfold scan_d. rewrite scan_to_string by (done || lia).
  rewrite strtol_to_string by (done || (change (2 ^ 63) with 9223372036854775808; lia)). do 2 f_equal.
  transitivity (i32 (u32 z)); [rewrite u32_small; [done|unfold is_u32; change (2 ^ 32) with 4294967296; lia]|]. apply i32_u32.
  unfold is_i32. change (2 ^ 31) with 2147483648. lia.
Qed.

Lemma scan_u_spec z rest : is_u32 z -> (match rest with [] => true | c :: _ => negb (isdigit c) end) = true ->
  scan_u (to_string z ++ rest) = Some (z, rest).
Proof.
  intros Hz Hr. pose proof (u32_small z Hz) as Hu. unfold is_u32 in Hz. change (2 ^ 32) with 4294967296 in Hz.
  unfold scan_u. rewrite scan_to_string by (done || lia). rewrite strtoull_to_string by (done || lia).
  change (2 ^ 64) with 18446744073709551616. rewrite (proj2 (Z.ltb_lt z _)) by lia. by rewrite Hu.
Qed.

(** The conversions skip the blanks before a number. *)
Lemma scan_d_space s : scan_d (32 :: s) = scan_d s.
Proof.
  unfold scan_d, strtol. assert (E : scan_number (32 :: s) = scan_number s) by done. rewrite E.
  by destruct (scan_number s) as [[[]]|].
Qed.

Lemma scan_u_space s : scan_u (32 :: s) = scan_u s.
Proof.
  unfold scan_u, strtoull. assert (E : scan_number (32 :: s) = scan_number s) by done. rewrite E.
  by destruct (scan_number s) as [[[]]|].
Qed.

Definition printing (c : Z) : Prop := c <> 0 /\ c <> 10.

Lemma mangle_printing s : Forall (fun c => 0 < c < 256) s -> Forall printing (mangle s).
Proof.
  induction 1 as [|c s Hc F IH]; [done|]. cbn [mangle map concat]. apply Forall_app. split; [|exact IH]. unfold mangle_char.
  destruct (escaped c) eqn:E.
  - constructor; [by split|]. unfold octal3, octal_digit. repeat constructor; Z.to_euclidean_division_equations; lia.
  - constructor; [|constructor]. split; [lia|]. intros ->. by rewrite Hescaped in E by auto.
Qed.

Lemma to_string_printing z : 0 <= z < 10 ^ 20 -> Forall printing (to_string z).
Proof.
  intros Hz. eapply Forall_impl; [by apply to_string_digits|]. intros c Hc. apply between_spec in Hc. unfold printing. lia.
Qed.

Lemma option_printing o : option_ok o -> Forall printing o.
Proof. intros [_ F]. eapply Forall_impl; [exact F|]. unfold printing. cbn. lia. Qed.

Lemma super_printing o : super_ok o -> Forall printing o.
Proof. intros [_ F]. eapply Forall_impl; [exact F|]. unfold printing. cbn. lia. Qed.

Lemma mount_line_printing me options optional super : line_ok me options optional super ->
  Forall printing (mount_line me options optional super).
Proof.
  intros [[I1 I2] [D1 D2] (N1 & N2 & N3 & N4) (O1 & O2 & O3)]. unfold is_u32, mangled_ok in *.
  change (2 ^ 31) with 2147483648 in *. change (2 ^ 32) with 4294967296 in *.
  assert (P32 : Forall printing [32]) by (repeat constructor; lia).
  unfold mount_line. rewrite !Forall_app. repeat (split; [first [done | apply to_string_printing; lia | apply mangle_printing; tauto | by apply option_printing | repeat constructor; lia | idtac]|]).
  2: by apply super_printing.
  induction O2 as [|o l [Ho _] F IH]; [done|]. cbn [map concat]. constructor; [by split|]. apply Forall_app. split; [by apply option_printing|done].
Qed.

Lemma parse_mount_line_spec me options optional super : line_ok me options optional super ->
  parse_mount_line (mount_line me options optional super) =
  match source me with [] => None | _ => Some (read_fields me) end.
Proof.
  intros Hl. pose proof (mount_line_printing _ _ _ _ Hl) as Hp. destruct Hl as [[I1 I2] [D1 D2] (N1 & N2 & N3 & N4) (O1 & O2 & O3)].
  unfold parse_mount_line. rewrite c_str_id.
  2: { intros H0. rewrite Forall_forall in Hp. by destruct (Hp 0 H0). }
  unfold mount_line. cbn [app]. rewrite scan_d_spec by done. cbn [mbind option_bind]. rewrite scan_d_space, scan_d_spec by done.
  cbn [mbind option_bind]. rewrite scan_u_space, scan_u_spec by done. cbn [mbind option_bind scan_colon]. change (58 =? 58) with true.
  cbn iota. cbn [mbind option_bind]. rewrite scan_u_spec by done. cbn [mbind option_bind].
  rewrite (parse_word (mangle (root me)) (root me)) by (by apply word_mangle || apply blank_next). cbn [mbind option_bind].
  rewrite (parse_word (mangle (mount_point me)) (mount_point me)) by (by apply word_mangle || apply blank_next). cbn [mbind option_bind].
  rewrite (parse_word options options); [|by apply word_option|].
  2: { intros c t E. destruct optional as [|o l]; cbn in E; by injection E as <- _. }
  cbn [mbind option_bind].
  pose proof (skip_options_spec optional (mangle (fs_type me) ++ 32 :: mangle (source me) ++ 32 :: super) O2) as Hs. cbn [app] in Hs.
  rewrite Hs. 2: { rewrite length_app. enough (length optional <= length (concat (map (fun o => 32%Z :: o) optional)))%nat by lia.
    clear. induction optional as [|o l IH]; [done|]. cbn [map concat length app]. rewrite length_app. lia. }
  cbn [mbind option_bind].
  rewrite (parse_word (mangle (fs_type me)) (fs_type me)) by (by apply word_mangle || apply blank_next). cbn [mbind option_bind].
  destruct (skip_blanks_super super O3) as [Hskip [v Hv]]. destruct (source me) as [|c0 src] eqn:Es.
  { cbn [mangle map concat app]. assert (E : parse_mount_string (32 :: 32 :: super) = Some (v, [])) by exact Hv.
    rewrite E. done. }
  rewrite (parse_word (mangle (c0 :: src)) (c0 :: src)) by (by apply word_mangle || apply blank_next). cbn [mbind option_bind].
  rewrite Hv. cbn [mbind option_bind]. unfold read_fields. by rewrite Es.
Qed.

End Format.

Lemma printing_c_str l : Forall printing l -> forall r, c_str (l ++ r) = l ++ c_str r.
Proof.
  induction 1 as [|c l [Hc _] F IH]; intros r; [done|]. cbn [app c_str]. rewrite (proj2 (Z.eqb_neq c 0)) by done. by rewrite IH.
Qed.

Lemma printing_no_newline l : Forall printing l -> 10 ∉ l.
Proof. intros F H. rewrite Forall_forall in F. by destruct (F 10 H). Qed.

Lemma printing_last l : Forall printing l -> last l <> Some 10.
Proof.
  intros F H. apply last_Some_elem_of in H. rewrite Forall_forall in F. by destruct (F 10 H).
Qed.

(** However long a line is, it is read whole. *)
Lemma read_mount_line_loop_spec fuel : forall l rest err line, Forall printing l -> (length l < fuel)%nat ->
  read_mount_line_loop fuel (FILE (l ++ 10 :: rest) err) line = Some (line ++ l, FILE rest err).
Proof.
  induction fuel as [|fuel IH]; intros l rest err line F Hf; [lia|]. cbn [read_mount_line_loop]. unfold fgets. cbn [data read_error].
  rewrite take_line_newline by by apply printing_no_newline. assert (HL : (0 < LINE_MAX - 1)%nat) by (unfold LINE_MAX; lia).
  generalize dependent (LINE_MAX - 1)%nat. intros n HL. destruct (decide (length l < n)%nat) as [H|H].
  - rewrite (bool_decide_false (l ++ [10] = [])) by by destruct l. rewrite last_snoc, (bool_decide_true (Some 10 = Some 10)) by done.
    rewrite andb_false_r. cbn [orb andb]. rewrite printing_c_str by done. cbn [c_str]. change (10 =? 0) with false. cbn iota.
    rewrite last_snoc, bool_decide_true by done. by rewrite removelast_last.
  - assert (F1 : Forall printing (take n l)) by by apply Forall_take. assert (F2 : Forall printing (drop n l)) by by apply Forall_drop.
    assert (Hlen : length (take n l) = n) by (rewrite length_take; lia).
    rewrite bool_decide_false by (intros E; rewrite E in Hlen; cbn in Hlen; lia). rewrite Hlen, Nat.ltb_irrefl. cbn [orb andb].
    rewrite c_str_id by (intros H0; rewrite Forall_forall in F1; by destruct (F1 0 H0)).
    rewrite bool_decide_false by by apply printing_last. rewrite IH; [|done|rewrite length_drop; lia].
    by rewrite <- app_assoc, take_drop.
Qed.

(** ** Whole tables *)

Record MountLine := LINE { l_mount : mount; l_options : bytes; l_optional : list bytes; l_super : bytes }.

Definition mount_file (escaped : Z -> bool) (lines : list MountLine) : bytes :=
  concat (map (fun l => mount_line escaped (l_mount l) (l_options l) (l_optional l) (l_super l) ++ [10]) lines).

(** The entries up to the first one without a source. *)
Fixpoint listed (lines : list MountLine) : list MountLine :=
  match lines with
  | [] => []
  | l :: lines => match source (l_mount l) with [] => [] | _ => l :: listed lines end
  end.

Lemma listed_all lines : Forall (fun l => source (l_mount l) <> []) lines -> listed lines = lines.
Proof. induction 1 as [|l lines Hl _ IH]; cbn [listed]; [done|]. destruct (source (l_mount l)); [done|]. by rewrite IH. Qed.

Lemma emplace_perm me entries : emplace me entries ≡ₚ me :: entries.
Proof.
  induction entries as [|e entries IH]; cbn [emplace]; [done|]. destruct (key_lt (key me) (key e)); [done|]. rewrite IH. apply perm_swap.
Qed.

Definition key_le (a b : mount) : Prop := key_lt (key b) (key a) = false.

Lemma key_lt_trans a b c : key_lt b a = false -> key_lt c b = false -> key_lt c a = false.
Proof. unfold key_lt. destruct a, b, c. cbn. rewrite !orb_false_iff, !andb_false_iff, !Z.ltb_ge, !Z.eqb_neq. lia. Qed.

Lemma key_lt_asym a b : key_lt a b = true -> key_lt b a = false.
Proof. unfold key_lt. destruct a, b. cbn. rewrite orb_false_iff, orb_true_iff, andb_false_iff, andb_true_iff, !Z.ltb_lt, !Z.ltb_ge, Z.eqb_eq, Z.eqb_neq. lia. Qed.

Lemma emplace_sorted me entries : StronglySorted key_le entries -> StronglySorted key_le (emplace me entries).
Proof.
  induction 1 as [|e entries S IH F]; cbn [emplace]; [by repeat constructor|]. destruct (key_lt (key me) (key e)) eqn:E.
  - constructor; [by constructor|]. apply key_lt_asym in E. constructor; [done|]. eapply Forall_impl; [exact F|].
    intros x Hx. by eapply key_lt_trans.
  - constructor; [done|]. rewrite emplace_perm. by constructor.
Qed.

Lemma read_entries_spec conf escaped lines : (forall c, c = 32 \/ c = 9 \/ c = 10 \/ c = 92 -> escaped c = true) ->
  Forall (fun l => line_ok (l_mount l) (l_options l) (l_optional l) (l_super l)) lines -> forall fuel es,
  (length (mount_file escaped lines) < fuel)%nat ->
  read_entries conf fuel (FILE (mount_file escaped lines) false) es =
  fold_left (fun es l => emplace (with_pruned conf (read_fields (l_mount l))) es) (listed lines) es.
Proof.
  intros He. induction 1 as [|[me o os su] lines Hl F IH]; intros fuel es Hf; (destruct fuel as [|fuel]; [lia|]); cbn [read_entries listed fold_left]; [done|].
  cbn [l_mount l_options l_optional l_super] in *. unfold mount_file in *. cbn [map concat l_mount l_options l_optional l_super] in *.
  pose proof (mount_line_printing escaped He me o os su Hl) as Hp. pose proof (parse_mount_line_spec escaped He me o os su Hl) as Hparse.
  set (line := mount_line escaped me o os su) in *. rewrite <- !app_assoc in *. cbn [app] in *. rewrite length_app in Hf. cbn [length] in Hf.
  unfold read_mount_entry, read_mount_line. rewrite read_mount_line_loop_spec; [|done|cbn [data]; rewrite length_app; cbn; lia].
  cbn [mbind option_bind app]. clearbody line. destruct (source me) as [|c0 src] eqn:Es; [destruct line as [|c line]; [done|]; by rewrite Hparse|].
  destruct line as [|c line]; [done|]. rewrite Hparse. cbn [mbind option_bind fold_left l_mount].
  apply IH. cbn [length] in Hf. lia.
Qed.

Lemma table_lines conf lines : forall es,
  fold_left (fun es l => emplace (with_pruned conf (read_fields (l_mount l))) es) lines es
    ≡ₚ map (fun l => with_pruned conf (read_fields (l_mount l))) lines ++ es /\
  (StronglySorted key_le es ->
   StronglySorted key_le (fold_left (fun es l => emplace (with_pruned conf (read_fields (l_mount l))) es) lines es)).
Proof.
  induction lines as [|l lines IH]; intros es; cbn [fold_left map app]; [done|].
  destruct (IH (emplace (with_pruned conf (read_fields (l_mount l))) es)) as [P S]. split.
  - rewrite P, emplace_perm. symmetry. apply Permutation_middle.
  - intros H. by apply S, emplace_sorted.
Qed.

(** A check of [acyclic] on the entries. *)
Lemma acyclic_check entries rank :
  forallb (fun me => pruned_due_to_fs_type me || pruned_due_to_path me || (parent_id me =? 0) ||
    bool_decide (id_to_mount entries (parent_id me) = None) || (rank (parent_id me) <? rank (m_id me))%nat) entries = true ->
  acyclic entries rank.
Proof.
  intros H id me Hm H1 H2 H3 H4. apply find_some in Hm as [Hin Hid]. apply in_rev in Hin. apply Z.eqb_eq in Hid.
  rewrite forallb_forall in H. specialize (H me Hin). rewrite H1, H2, (proj2 (Z.eqb_neq _ _) H3), bool_decide_false in H by done.
  cbn [orb] in H. apply Nat.ltb_lt in H. by rewrite Hid in H.
Qed.

(** ** Correctness *)

(** C24. What the kernel writes to mountinfo (decimal numbers, names with octal
    escapes of any length, any optional fields, file system options that may hold
    backslashes, lines of any length) is read back: the table has exactly the mounts of
    the lines that come before the first one with an empty source, with the names
    unescaped and told whether they are pruned, sorted by device.  A line with an empty
    source, which the kernel can write, ends the table, see [empty_source_ends_table];
    without one the table has every mount of the file.  The identifiers are below 2^31,
    and the mount options and optional fields hold no backslash. *)
Theorem mountinfo_roundtrip conf escaped lines :
  (forall c, c = 32 \/ c = 9 \/ c = 10 \/ c = 92 -> escaped c = true) ->
  Forall (fun l => line_ok (l_mount l) (l_options l) (l_optional l) (l_super l)) lines ->
  table conf (FILE (mount_file escaped lines) false) ≡ₚ map (fun l => with_pruned conf (read_fields (l_mount l))) (listed lines) /\
  StronglySorted key_le (table conf (FILE (mount_file escaped lines) false)) /\
  (Forall (fun l => source (l_mount l) <> []) lines -> listed lines = lines).
Proof.
  intros He F. unfold table. rewrite read_entries_spec; [|done|done|cbn; lia].
  destruct (table_lines conf (listed lines) []) as [P S]. split; [by rewrite P, app_nil_r|]. split; [apply S; constructor|].
  apply listed_all.
Qed.

(** C14. Whenever the table of mounts changes, every query of [is_bind_mount] is
    answered as the table says that was there when the last change was noticed, the
    queries being in directory order: yes exactly where a mount on that path shows what
    another mount of the same device shows and has the lower number, or a directory
    whose name begins like the name of the one that the other mount shows; both of them neither
    on pruned file systems or paths nor below such mounts.  Where no two of the mounted
    directories of a device have names that only begin alike, as the subvolumes /@ and
    /@home do (see [sibling_subvolume_is_bind_mount]), the answer is yes exactly where the directory is
    below the other one, or the same.  This is the code's notion: a directory that is
    mounted on itself counts, against man/updatedb.conf.5 (see
    [mount_on_itself_is_bind_mount]).  It is assumed that no mount is above itself, for the
    search would not end (see [own_parent_diverges]), and that [depth] is as deep as the mounts are nested. *)
Theorem bind_mount_answers conf depth f events : table_ok conf depth f -> tables_ok conf depth events ->
  increasing_paths None (queried events) ->
  exists st answers, bind_mount_init conf depth true (Some f) initial_bind_state = Some st /\
    run_events conf depth st events = Some answers /\
    right_answers conf name_prefix (bind_point name_prefix (table conf f)) false events answers /\
    (roots_apart (table conf f) -> (forall f' path, Query (Some f') path ∈ events -> roots_apart (table conf f')) ->
     right_answers conf below_dir (bind_point below_dir (table conf f)) false events answers).
Proof.
  intros Hf Ht Hi. unfold bind_mount_init. cbn [negb].
  destruct (rebuild_spec conf depth f initial_bind_state Hf) as (paths & -> & Hp).
  destruct (run_events_spec conf depth events Ht (BIND false paths 0) (bind_point name_prefix (table conf f)) None Hp) as (answers & E & H);
    [intros i e Hlt; cbn in Hlt; lia|done|done|].
  eexists _, answers. split; [done|]. split; [exact E|]. split; [exact H|]. intros Ha Has.
  eapply right_answers_same; [|intros p; by apply bind_point_below|exact H]. intros f' path Hin p. by apply bind_point_below, (Has f' path).
Qed.

(** ** Examples *)

Definition text_lines (lines : list string) : File := FILE (concat (map (fun l => bytes_of_string l ++ [10]) lines)) false.

Definition sample_conf : Config := set_prunefs [bytes_of_string "TMPFS"] initial_config.

(** A disk, a part of it mounted below /srv, and a part mounted below a pruned file system. *)
Definition sample_mountinfo : File :=
  text_lines ["21 1 8:1 / / rw,relatime shared:1 - ext4 /dev/sda1 rw"%string;
              "22 21 0:5 / /run rw - tmpfs tmpfs rw"%string;
              "23 22 8:1 /data /run/data rw - ext4 /dev/sda1 rw"%string;
              "24 21 8:1 /my\040data /srv/x rw shared:1 master:2 - ext4 /dev/sda1 rw"%string].

(** Later only the disk is there, and a directory mounted on itself. *)
Definition later_mountinfo : File :=
  text_lines ["21 1 8:1 / / rw,relatime shared:1 - ext4 /dev/sda1 rw"%string;
              "25 21 8:1 /zoo /zoo rw - ext4 /dev/sda1 rw"%string].

Definition sample_rank (id : Z) : nat := if id =? 21 then 0 else if id =? 22 then 1 else if id =? 23 then 2 else 1.

Lemma sample_table_ok f : bool_decide (Forall is_byte (data f)) = true ->
  forallb (fun me => pruned_due_to_fs_type me || pruned_due_to_path me || (parent_id me =? 0) ||
    bool_decide (id_to_mount (table sample_conf f) (parent_id me) = None) || (sample_rank (parent_id me) <? sample_rank (m_id me))%nat)
    (table sample_conf f) = true -> table_ok sample_conf 3 f.
Proof.
  intros H1 H2. split; [by apply bool_decide_eq_true in H1|]. exists sample_rank. split; [by apply acyclic_check|].
  intros id. unfold sample_rank. repeat case_match; lia.
Qed.

Lemma roots_apart_check entries : forallb (fun me => forallb (fun other =>
    negb (bool_decide (key me = key other)) || bool_decide (root me = root other) || negb (starts_with (root other) (root me)) ||
    starts_with (if decide (root other = [47]) then [47] else root other ++ [47]) (root me)) entries) entries = true -> roots_apart entries.
Proof.
  rewrite forallb_forall. intros H me other Hm Ho Hk [Hp Hne]. apply list_elem_of_In in Hm, Ho. specialize (H me Hm). rewrite forallb_forall in H.
  specialize (H other Ho). apply starts_with_prefix in Hp. rewrite Hp, (bool_decide_true _ Hk), bool_decide_false in H by congruence.
  cbn [negb orb] in H. split; [congruence|]. by apply starts_with_prefix.
Qed.

Definition sample_events : list Event :=
  [Query None (bytes_of_string "/run/data"); Query None (bytes_of_string "/srv/x"); MountsChanged;
   Query (Some later_mountinfo) (bytes_of_string "/usr"); Query None (bytes_of_string "/zoo")].

#[local] Instance mount_eq_dec : EqDecision mount.
Proof. solve_decision. Defined.

Lemma bind_mount_answers_witness :
  (exists st answers, bind_mount_init sample_conf 3 true (Some sample_mountinfo) initial_bind_state = Some st /\
    run_events sample_conf 3 st sample_events = Some answers /\
    right_answers sample_conf name_prefix (bind_point name_prefix (table sample_conf sample_mountinfo)) false sample_events answers /\
    (roots_apart (table sample_conf sample_mountinfo) ->
     (forall f' path, Query (Some f') path ∈ sample_events -> roots_apart (table sample_conf f')) ->
     right_answers sample_conf below_dir (bind_point below_dir (table sample_conf sample_mountinfo)) false sample_events answers)) /\
  roots_apart (table sample_conf sample_mountinfo) /\ roots_apart (table sample_conf later_mountinfo) /\
  (st ← bind_mount_init sample_conf 3 true (Some sample_mountinfo) initial_bind_state; run_events sample_conf 3 st sample_events)
    = Some [false; true; false; true].
Proof.
  split; [|split; [apply roots_apart_check; vm_compute; reflexivity|split; [apply roots_apart_check; vm_compute; reflexivity|vm_compute; reflexivity]]].
  apply (bind_mount_answers sample_conf 3 sample_mountinfo sample_events).
  - apply sample_table_ok; vm_compute; reflexivity.
  - intros f path Hin. unfold sample_events in Hin.
    assert (f = later_mountinfo) as ->.
    { repeat (apply elem_of_cons in Hin as [Hin|Hin]; [try discriminate Hin; injection Hin as -> _; reflexivity|]). by apply not_elem_of_nil in Hin. }
    apply sample_table_ok; vm_compute; reflexivity.
  - unfold sample_events. cbn [queried omap list_omap increasing_paths].
    repeat (split; [apply path_of_string|split; [intros q Hq; try discriminate Hq; injection Hq as <-; vm_compute; reflexivity|]]). exact I.
Defined.

Definition sample_escaped (c : Z) : bool := bool_decide (c ∈ [32; 9; 10; 92; 35]).

Definition sample_lines : list MountLine :=
  [LINE (MOUNT 24 21 8 1 (bytes_of_string "/my data\x") (bytes_of_string "/srv/x") (bytes_of_string "ext4") (bytes_of_string "/dev/sda#1")
      false false false) (bytes_of_string "rw,relatime") [bytes_of_string "shared:1"; bytes_of_string "master:2"] (bytes_of_string "rw");
   LINE (MOUNT 21 1 0 5 (bytes_of_string "/") (bytes_of_string "/run") (bytes_of_string "tmpfs") (bytes_of_string "none")
      false false false) (bytes_of_string "rw") [] (bytes_of_string "rw,lowerdir=a\:b");
   LINE (MOUNT 30 21 0 40 (bytes_of_string "/") (bytes_of_string "/mnt") (bytes_of_string "fuse.x") []
      false false false) (bytes_of_string "rw") [] (bytes_of_string "rw");
   LINE (MOUNT 31 21 0 41 (bytes_of_string "/") (bytes_of_string "/var") (bytes_of_string "ext4") (bytes_of_string "/dev/sdb")
      false false false) (bytes_of_string "rw") [] (bytes_of_string "rw")].

Lemma mountinfo_roundtrip_witness :
  (table sample_conf (FILE (mount_file sample_escaped sample_lines) false)
     ≡ₚ map (fun l => with_pruned sample_conf (read_fields (l_mount l))) (listed sample_lines) /\
   StronglySorted key_le (table sample_conf (FILE (mount_file sample_escaped sample_lines) false)) /\
   (Forall (fun l => source (l_mount l) <> []) sample_lines -> listed sample_lines = sample_lines)) /\
  map (fun me => (m_id me, pruned_due_to_fs_type me)) (table sample_conf (FILE (mount_file sample_escaped sample_lines) false))
    = [(21, true); (24, false)].
Proof.
  split; [|vm_compute; reflexivity]. apply (mountinfo_roundtrip sample_conf sample_escaped sample_lines).
  - intros c [-> | [-> | [-> | ->]]]; reflexivity.
  - apply Forall_cons_2; [|apply Forall_cons_2; [|apply Forall_cons_2; [|apply Forall_cons_2; [|apply Forall_nil_2]]]]; (split; [split; split; vm_compute; congruence|split; split; vm_compute; congruence| |]).
    all: unfold mangled_ok, option_ok, super_ok; cbn [l_mount l_options l_optional l_super root mount_point fs_type source].
    all: apply (bool_decide_unpack _); vm_compute; exact I.
Defined.

(** *** Behaviours worth knowing *)

(** Btrfs subvolumes: the name of one is the start of the name of the other, and /home
    is taken for a bind mount of a part of the root directory. *)
Example sibling_subvolume_is_bind_mount :
  (st ← bind_mount_init sample_conf 5 true
     (Some (text_lines ["28 1 0:25 /@ / rw,subvol=/@ - btrfs /dev/sda2 rw"%string;
                        "45 28 0:25 /@home /home rw,subvol=/@home - btrfs /dev/sda2 rw"%string])) initial_bind_state;
   run_events sample_conf 5 st [Query None (bytes_of_string "/home")]) = Some [true].
Proof. vm_compute. reflexivity. Qed.

(** A directory that is mounted on itself is skipped, too. *)
Example mount_on_itself_is_bind_mount :
  (st ← bind_mount_init sample_conf 5 true (Some later_mountinfo) initial_bind_state;
   run_events sample_conf 5 st [Query None (bytes_of_string "/zoo")]) = Some [true].
Proof. vm_compute. reflexivity. Qed.

(** The root of a mount name space is its own parent. *)
Example own_parent_diverges depth :
  bind_mount_init sample_conf depth true (Some (text_lines ["1 1 0:2 / / rw - rootfs rootfs rw"%string])) initial_bind_state = None.
Proof.
  unfold bind_mount_init, rebuild_bind_mount_paths, read_mount_entries. cbn [negb].
  set (es := read_entries _ _ _ _). vm_compute in es. subst es. cbn [mark m_id].
  by rewrite (self_parent_diverges _ 1 (MOUNT 1 1 0 2 [47] [47] (bytes_of_string "rootfs") (bytes_of_string "rootfs") false false false)).
Qed.

(** A line without a source ends the table. *)
Example empty_source_ends_table :
  map m_id (table sample_conf (text_lines ["21 1 8:1 / / rw - ext4 /dev/sda1 rw"%string; "30 21 0:40 / /mnt rw - fuse.x  rw"%string;
    "31 21 0:41 / /var rw - ext4 /dev/sdb rw"%string])) = [21].
Proof. vm_compute. reflexivity. Qed.
