(* ===== verification/BuildInput.v ===== *)
(** * flocate-build (src/flocate-build.cpp)

    A list of files, as text or in the format of mlocate, is read twice: for the
    sample from which the dictionary is trained, and for the database.  Streams do
    not fail here except by ending. *)
From S2P Require Import Prelude Text Stdio FileRead PostingList TurboPForDecode HashTable Corpus Serializer Trigrams Search.
From S2P Require Import SearchFile DbHeader DatabaseFile DatabaseSearch DictBuilder Metadata Streams.

(** ** Streams *)

(** What is left of a stream, and whether a read has met its end. *)
Record Stream := STREAM { rest : bytes; feof : bool }.

Definition getc (fp : Stream) : option Z * Stream :=
  match rest fp with
  | [] => (None, STREAM [] true)
  | c :: s => (Some c, STREAM s (feof fp))
  end.

Definition fread (n : nat) (fp : Stream) : option bytes * Stream :=
  if decide (length (rest fp) < n)%nat then (None, STREAM [] true)
  else (Some (take n (rest fp)), STREAM (drop n (rest fp)) (feof fp)).

(** The characters up to a NUL are the string. *)
Definition fgets (size : nat) (fp : Stream) : option bytes * Stream :=
  let '(chunk, s) := take_line (size - 1) (rest fp) in
  let fp' := STREAM s (feof fp || ((length chunk <? size - 1)%nat && negb (bool_decide (last chunk = Some 10)))) in
  match chunk with
  | [] => (None, fp')
  | _ => (Some (c_str chunk), fp')
  end.

(** Seeking forward is possible past the end, and forgets about it. *)
Definition fseek_cur (n : Z) (fp : Stream) : Stream := STREAM (drop (Z.to_nat n) (rest fp)) false.

(** ** Text *)

Definition BUF_SIZE : nat := 1024%nat.

(** [while (s.back() != '\n' && !feof(fp))] *)
Fixpoint read_more (fuel : nat) (s : bytes) (fp : Stream) : option (bytes * Stream) :=
  if bool_decide (last s = Some 10) || feof fp then Some (s, fp)
  else
    match fuel with
    | O => None
    | S fuel =>
      match fgets BUF_SIZE fp with
      | (None, fp) => Some (s, fp)
      | (Some buf, fp) => read_more fuel (s ++ buf) fp
      end
    end.

(** [None]: the assertion fails, or the fuel, more than the number of bytes, runs out. *)
Fixpoint plaintext_loop (fuel : nat) (fp : Stream) : option (list bytes) :=
  if feof fp then Some []
  else
    match fuel with
    | O => None
    | S fuel =>
      match fgets BUF_SIZE fp with
      | (None, _) => Some []
      | (Some [], _) => None
      | (Some s, fp) =>
        '(s, fp) ← read_more (S (length (rest fp))) s fp;
        let path := if bool_decide (last s = Some 10) then removelast s else s in
        paths ← plaintext_loop fuel fp;
        Some (path :: paths)
      end
    end.

Definition read_plaintext (file : bytes) : option (list bytes) := plaintext_loop (S (length file)) (STREAM file false).

(** ** mlocate *)

Definition DBE_NORMAL : Z := 0.
Definition DBE_DIRECTORY : Z := 1.
Definition DBE_END : Z := 2.

(** The part of [db_header] that is used; its fields are in network byte order. *)
Record db_header := DBHEADER { hdr_magic : bytes; hdr_conf_size : Z; hdr_version : Z; hdr_check_visibility : Z }.

Definition sizeof_db_header : nat := 16%nat.
Definition sizeof_db_directory : nat := 16%nat.

Definition be_val (s : bytes) : Z := le_val (rev s).

Definition parse_db_header (s : bytes) : db_header :=
  DBHEADER (take 8 s) (be_val (take 4 (drop 8 s))) (nth 12 s 0) (nth 13 s 0).

(** [None] ends the program. *)
Fixpoint read_cstr (s : bytes) : option (bytes * bytes) :=
  match s with
  | [] => None
  | ch :: s => if ch =? 0 then Some ([], s) else '(ret, s) ← read_cstr s; Some (ch :: ret, s)
  end.

(** The entries; the fuel is more than the number of bytes. *)
Fixpoint entries_loop (fuel : nat) (dir_path : bytes) (fp : Stream) : option (list bytes * Stream) :=
  match fuel with
  | O => None
  | S fuel =>
    let '(type, fp) := getc fp in
    if bool_decide (type = Some DBE_NORMAL \/ type = Some DBE_DIRECTORY) then
      '(name, s) ← read_cstr (rest fp);
      '(paths, fp) ← entries_loop fuel dir_path (STREAM s (feof fp));
      Some ((dir_path ++ [47] ++ name) :: paths, fp)
    else Some ([], fp)
  end.

Definition handle_directory (fp : Stream) : option (list bytes * Stream) :=
  match fread sizeof_db_directory fp with
  | (None, fp) => Some ([], fp)
  | (Some _, fp) =>
    '(dir_path, s) ← read_cstr (rest fp);
    let dir_path := if decide (dir_path = [47]) then [] else dir_path in
    entries_loop (S (length s)) dir_path (STREAM s (feof fp))
  end.

Fixpoint directories_loop (fuel : nat) (fp : Stream) : option (list bytes) :=
  if feof fp then Some []
  else
    match fuel with
    | O => None
    | S fuel =>
      '(paths, fp) ← handle_directory fp;
      more ← directories_loop fuel fp;
      Some (paths ++ more)
    end.

Definition read_mlocate (file : bytes) : option (list bytes) :=
  match fread sizeof_db_header (STREAM file false) with
  | (None, _) => None
  | (Some s, fp) =>
    let hdr := parse_db_header s in
    '(_, s) ← read_cstr (rest fp);
    let fp := fseek_cur (hdr_conf_size hdr) (STREAM s (feof fp)) in
    directories_loop (S (length (rest fp))) fp
  end.

(** ** The program *)

Section Build.
Context (reservoir_rand : Z -> Z) (zdict_train : nat -> bytes -> list Z -> option bytes) (zstd_compress : bytes -> bytes -> bytes).
Context {C : Type} `{!StreamCompressor C} (new_c : C).
Context (buf1 buf : bytes) (fuel prime_fuel : nat).

Definition read_input (plaintext : bool) (file : bytes) : option (list bytes) :=
  if plaintext then read_plaintext file else read_mlocate file.

Definition build_record (path : bytes) : FileRecord := Record_ path unknown_dir_time empty_metadata.

(** [first] and [second]: what the input is in the two passes.  [None]: the program
    ends or crashes before the database is complete, or fuel runs out. *)
Definition do_build (first second : bytes) (block_size : Z) (plaintext check_visibility : bool) : option bytes :=
  sample ← read_input plaintext first;
  dictionary ← build_dictionary reservoir_rand zdict_train 1000 block_size 1024 sample;
  paths ← read_input plaintext second;
  '(times, metadata) ← record_streams fuel false false new_c (map build_record paths);
  build_database (zstd_compress dictionary) buf1 buf fuel prime_fuel block_size dictionary check_visibility paths
    (SECTIONS times metadata [] [] []).

Definition parse_bool (str : bytes) : option bool :=
  if decide (str = bytes_of_string "0" \/ str = bytes_of_string "no") then Some false
  else if decide (str = bytes_of_string "1" \/ str = bytes_of_string "yes") then Some true
  else None.

(** The options as [getopt_long] returns them. *)
Inductive BuildOption :=
| BlockSize (optarg : bytes)
| Plaintext
| RequireVisibility (optarg : bytes)
| Help
| Version
| Debug
| Unknown.

Inductive Ending := Exit (code : Z) | Written (database : bytes) | Failed.

Fixpoint parse_build_options (options : list BuildOption) (block_size : Z) (plaintext check_visibility : bool)
    : Ending + (Z * bool * bool) :=
  match options with
  | [] => inr (block_size, plaintext, check_visibility)
  | BlockSize optarg :: options =>
    let block_size := i32 (fst (fst (strtol optarg))) in
    if block_size <=? 0 then inl (Exit 1) else parse_build_options options block_size plaintext check_visibility
  | Plaintext :: options => parse_build_options options block_size true check_visibility
  | RequireVisibility optarg :: options =>
    match parse_bool optarg with
    | None => inl (Exit 1)
    | Some b => parse_build_options options block_size plaintext b
    end
  | (Help | Version) :: _ => inl (Exit 0)
  | Debug :: options => parse_build_options options block_size plaintext check_visibility
  | Unknown :: _ => inl (Exit 1)
  end.

(** [operands]: how many arguments are left; [input]: both passes over the input
    file, if it can be opened. *)
Definition main (options : list BuildOption) (operands : nat) (input : option (bytes * bytes)) : Ending :=
  match parse_build_options options 32 false true with
  | inl e => e
  | inr (block_size, plaintext, check_visibility) =>
    if negb (operands =? 2)%nat then Exit 1
    else
      match input with
      | None => Exit 1
      | Some (first, second) =>
        match do_build first second block_size plaintext check_visibility with
        | Some database => Written database
        | None => Failed
        end
      end
  end.

End Build.

(** ** Text: correctness *)

(** A line that [fgets] gives back as it is. *)
Definition plain (l : bytes) : Prop := (0 ∉ l) /\ (10 ∉ l).

Lemma plain_last l : plain l -> last l <> Some 10.
Proof. intros [_ H] E. by apply last_Some_elem_of in E. Qed.

Lemma plain_app l1 l2 : plain (l1 ++ l2) <-> plain l1 /\ plain l2.
Proof. unfold plain. rewrite !not_elem_of_app. tauto. Qed.

Lemma plain_split n l : plain l -> plain (take n l) /\ plain (drop n l).
Proof. rewrite <- (take_drop n l) at 1. apply plain_app. Qed.

Lemma buf_size_two : (2 <= BUF_SIZE)%nat.
Proof. apply Nat.leb_le. reflexivity. Qed.

#[local] Opaque BUF_SIZE.

Lemma c_str_line l : plain l -> c_str (l ++ [10]) = l ++ [10].
Proof. intros [H _]. apply c_str_id. rewrite not_elem_of_app, list_elem_of_singleton. done. Qed.

Lemma fgets_line l s : plain l -> fgets BUF_SIZE (STREAM (l ++ 10 :: s) false) =
  if decide (length l < BUF_SIZE - 1)%nat then (Some (l ++ [10]), STREAM s false)
  else (Some (take (BUF_SIZE - 1) l), STREAM (drop (BUF_SIZE - 1) l ++ 10 :: s) false).
Proof.
  intros Hl. unfold fgets. cbn [rest feof]. rewrite take_line_newline by apply Hl. pose proof buf_size_two.
  destruct (decide (length l < BUF_SIZE - 1)%nat) as [H1|H1].
  - rewrite (bool_decide_eq_true_2 (last (l ++ [10]) = Some 10)) by apply last_snoc.
    rewrite andb_false_r, c_str_line by done. by destruct l.
  - rewrite length_take, (proj2 (Nat.ltb_ge _ _)) by lia. cbn [orb andb].
    destruct (take (BUF_SIZE - 1) l) as [|c p] eqn:E; [apply (f_equal length) in E; rewrite length_take in E; cbn in E; lia|].
    rewrite <- E, c_str_id by apply (plain_split (BUF_SIZE - 1) l Hl). done.
Qed.

Lemma fgets_tail l : plain l -> fgets BUF_SIZE (STREAM l false) =
  if decide (l = []) then (None, STREAM [] true)
  else if decide (length l < BUF_SIZE - 1)%nat then (Some l, STREAM [] true)
  else (Some (take (BUF_SIZE - 1) l), STREAM (drop (BUF_SIZE - 1) l) false).
Proof.
  intros Hl. unfold fgets. cbn [rest feof]. rewrite take_line_end by apply Hl. pose proof buf_size_two.
  rewrite length_take, (bool_decide_eq_false_2 (last _ = _)) by (apply plain_last, (plain_split _ _ Hl)).
  destruct (decide (l = [])) as [->|Hn].
  { rewrite take_nil, drop_nil, (proj2 (Nat.ltb_lt _ _)) by (cbn; lia). done. }
  destruct (take (BUF_SIZE - 1) l) as [|c p] eqn:E.
  { apply (f_equal length) in E. rewrite length_take in E. destruct l; [done|]. cbn in E. lia. }
  rewrite <- E, c_str_id by apply (plain_split (BUF_SIZE - 1) l Hl).
  destruct (decide (length l < BUF_SIZE - 1)%nat).
  - rewrite (proj2 (Nat.ltb_lt _ _)), take_ge, drop_ge by lia. done.
  - rewrite (proj2 (Nat.ltb_ge _ _)) by lia. done.
Qed.

Lemma last_app_plain acc l : last acc <> Some 10 -> plain l -> last (acc ++ l) <> Some 10.
Proof.
  intros Ha Hl. destruct l as [|c p _] using rev_ind; [by rewrite app_nil_r|].
  apply plain_last in Hl. rewrite last_snoc in Hl. by rewrite app_assoc, last_snoc.
Qed.

Lemma read_more_stop fuel acc s : last acc = Some 10 -> read_more fuel acc s = Some (acc, s).
Proof. intros H. destruct fuel; cbn [read_more]; by rewrite bool_decide_eq_true_2. Qed.

Lemma read_more_eof fuel acc s : read_more fuel acc (STREAM s true) = Some (acc, STREAM s true).
Proof. destruct fuel; cbn [read_more feof]; by rewrite orb_true_r. Qed.

(** However many pieces the line comes in. *)
Lemma read_more_line fuel : forall acc l s, plain l -> last acc <> Some 10 -> (length l < fuel)%nat ->
  read_more fuel acc (STREAM (l ++ 10 :: s) false) = Some (acc ++ l ++ [10], STREAM s false).
Proof.
  induction fuel as [|fuel IH]; intros acc l s Hl Ha Hf; [lia|]. cbn [read_more].
  rewrite bool_decide_eq_false_2 by done. cbn [orb feof]. rewrite fgets_line by done. pose proof buf_size_two.
  destruct (decide (length l < BUF_SIZE - 1)%nat).
  - apply read_more_stop. by rewrite app_assoc, last_snoc.
  - destruct (plain_split (BUF_SIZE - 1) l Hl). rewrite IH; [|done|by apply last_app_plain|rewrite length_drop; lia].
    by rewrite <- (app_assoc acc), (app_assoc (take _ _)), take_drop.
Qed.

Lemma read_more_tail fuel : forall acc l, plain l -> last acc <> Some 10 -> (length l < fuel)%nat ->
  read_more fuel acc (STREAM l false) = Some (acc ++ l, STREAM [] true).
Proof.
  induction fuel as [|fuel IH]; intros acc l Hl Ha Hf; [lia|]. cbn [read_more].
  rewrite bool_decide_eq_false_2 by done. cbn [orb feof]. rewrite fgets_tail by done. pose proof buf_size_two.
  destruct (decide (l = [])) as [->|]; [by rewrite app_nil_r|].
  destruct (decide (length l < BUF_SIZE - 1)%nat); [apply read_more_eof|].
  destruct (plain_split (BUF_SIZE - 1) l Hl). rewrite IH; [|done|by apply last_app_plain|rewrite length_drop; lia].
  by rewrite <- (app_assoc acc), take_drop.
Qed.

(** The last line may lack its newline. *)
Definition text_of (lines : list bytes) (tail : bytes) : bytes := concat (map (fun l => l ++ [10]) lines) ++ tail.

Definition text_lines (lines : list bytes) (tail : bytes) : list bytes := lines ++ if decide (tail = []) then [] else [tail].

Lemma loop_piece fuel fp piece fp1 path fp2 : feof fp = false -> fgets BUF_SIZE fp = (Some piece, fp1) -> piece <> [] ->
  read_more (S (length (rest fp1))) piece fp1 = Some (path, fp2) ->
  plaintext_loop (S fuel) fp =
    (paths ← plaintext_loop fuel fp2; Some ((if bool_decide (last path = Some 10) then removelast path else path) :: paths)).
Proof. intros He Hg Hp Hm. cbn [plaintext_loop]. rewrite He, Hg. destruct piece; [done|]. by rewrite Hm. Qed.

Lemma drop_newline (l : bytes) : (if bool_decide (last (l ++ [10]) = Some 10) then removelast (l ++ [10]) else l ++ [10]) = l.
Proof. by rewrite bool_decide_eq_true_2, removelast_last by apply last_snoc. Qed.

Lemma take_nonempty n (l : bytes) : (0 < n)%nat -> l <> [] -> take n l <> [].
Proof. destruct n, l; cbn; (done || lia). Qed.

Lemma loop_line fuel l s : plain l ->
  plaintext_loop (S fuel) (STREAM (l ++ 10 :: s) false) = (paths ← plaintext_loop fuel (STREAM s false); Some (l :: paths)).
Proof.
  intros Hl. pose proof (fgets_line l s Hl) as Hg. pose proof buf_size_two.
  transitivity (paths ← plaintext_loop fuel (STREAM s false);
    Some ((if bool_decide (last (l ++ [10]) = Some 10) then removelast (l ++ [10]) else l ++ [10]) :: paths)); [|by rewrite drop_newline].
  destruct (decide (length l < BUF_SIZE - 1)%nat).
  - eapply loop_piece; [done|exact Hg|by destruct l|]. apply read_more_stop, last_snoc.
  - destruct (plain_split (BUF_SIZE - 1) l Hl) as [Ht Hd]. eapply loop_piece; [done|exact Hg|..].
    + apply take_nonempty; [lia|]. intros ->. cbn in *. lia.
    + rewrite read_more_line; [|done|by apply plain_last|cbn [rest]; rewrite length_app; lia].
      by rewrite (app_assoc (take _ _)), take_drop.
Qed.

Lemma loop_tail fuel l : plain l -> plaintext_loop (S fuel) (STREAM l false) = Some (if decide (l = []) then [] else [l]).
Proof.
  intros Hl. pose proof (fgets_tail l Hl) as Hg. pose proof buf_size_two.
  destruct (decide (l = [])) as [->|Hn]; [cbn [plaintext_loop feof]; by rewrite Hg|].
  assert (Hb : (if bool_decide (last l = Some 10) then removelast l else l) = l) by (by rewrite bool_decide_eq_false_2 by by apply plain_last).
  assert (He : (paths ← plaintext_loop fuel (STREAM [] true);
    Some ((if bool_decide (last l = Some 10) then removelast l else l) :: paths)) = Some [l]) by (rewrite Hb; by destruct fuel).
  rewrite <- He. destruct (decide (length l < BUF_SIZE - 1)%nat).
  - eapply loop_piece; [done|exact Hg|done|]. apply read_more_eof.
  - destruct (plain_split (BUF_SIZE - 1) l Hl) as [Ht Hd]. eapply loop_piece; [done|exact Hg|..].
    + apply take_nonempty; [lia|done].
    + rewrite read_more_tail; [by rewrite take_drop|done|by apply plain_last|cbn [rest]; lia].
Qed.

Lemma plaintext_lines lines tail : Forall plain lines -> plain tail -> forall fuel, (length lines < fuel)%nat ->
  plaintext_loop fuel (STREAM (text_of lines tail) false) = Some (text_lines lines tail).
Proof.
  intros Hl Ht. unfold text_of. induction Hl as [|l lines Hl _ IH]; intros fuel Hf; (destruct fuel as [|fuel]; [cbn in Hf; lia|]).
  - by apply loop_tail.
  - cbn [map concat]. rewrite <- !app_assoc. cbn [app]. rewrite loop_line, IH by (done || cbn in Hf; lia). done.
Qed.

Lemma text_of_length lines tail : (length lines <= length (text_of lines tail))%nat.
Proof. unfold text_of. induction lines as [|l lines IH]; cbn; [lia|]. rewrite !length_app in *. cbn. lia. Qed.

Lemma read_text lines tail : Forall plain lines -> plain tail ->
  read_plaintext (text_of lines tail) = Some (text_lines lines tail).
Proof. intros Hl Ht. apply plaintext_lines; [done..|]. pose proof (text_of_length lines tail). lia. Qed.

(** A text is read as its lines, of any length, in their order, whether or not the
    last one ends with a newline; empty lines are kept, but for one that has no newline. *)
Theorem read_plaintext_lines lines tail : Forall plain lines -> plain tail ->
  read_plaintext (text_of lines tail) = Some (text_lines lines tail).
Proof. apply read_text. Qed.

(** ** mlocate: correctness *)

(** A database of mlocate, as its manual lays it out. *)
Record MDirectory := MDIRECTORY { md_time : bytes; md_path : bytes; md_entries : list (bool * bytes) }.

Definition m_entry (e : bool * bytes) : bytes := (if e.1 then DBE_DIRECTORY else DBE_NORMAL) :: e.2 ++ [0].
Definition m_directory (d : MDirectory) : bytes := md_time d ++ md_path d ++ [0] ++ concat (map m_entry (md_entries d)) ++ [DBE_END].
Definition m_database (magic visibility root conf : bytes) (directories : list MDirectory) : bytes :=
  magic ++ rev (le_bytes 4 (Z.of_nat (length conf))) ++ visibility ++ root ++ [0] ++ conf ++ concat (map m_directory directories).

(** The files of a directory, whose own path may be that of the root. *)
Definition m_paths (d : MDirectory) : list bytes :=
  map (fun e => (if decide (md_path d = [47]) then [] else md_path d) ++ [47] ++ e.2) (md_entries d).

Definition m_ok (d : MDirectory) : Prop :=
  length (md_time d) = sizeof_db_directory /\ (0 ∉ md_path d) /\ Forall (fun e => 0 ∉ e.2) (md_entries d).

Lemma read_cstr_nul l s : 0 ∉ l -> read_cstr (l ++ 0 :: s) = Some (l, s).
Proof.
  induction l as [|c l IH]; [done|]. rewrite not_elem_of_cons. intros [Hc Hl]. cbn [app read_cstr].
  rewrite (proj2 (Z.eqb_neq c 0)) by congruence. by rewrite IH.
Qed.

Lemma fread_app (a s : bytes) e : fread (length a) (STREAM (a ++ s) e) = (Some a, STREAM s e).
Proof.
  unfold fread. cbn [rest feof]. rewrite decide_False by (rewrite length_app; lia). by rewrite take_app_length, drop_app_length.
Qed.

Lemma entries_read dir entries s : Forall (fun e => 0 ∉ e.2) entries -> forall fuel, (length entries < fuel)%nat ->
  entries_loop fuel dir (STREAM (concat (map m_entry entries) ++ DBE_END :: s) false) =
  Some (map (fun e : bool * bytes => dir ++ [47] ++ e.2) entries, STREAM s false).
Proof.
  induction 1 as [|e entries He _ IH]; intros fuel Hf; (destruct fuel as [|fuel]; [cbn in Hf; lia|]); [done|].
  cbn [map concat]. rewrite <- app_assoc. unfold m_entry at 1. cbn [app]. cbn [entries_loop getc rest feof].
  rewrite bool_decide_eq_true_2 by (destruct (e.1); auto). rewrite <- app_assoc. cbn [app].
  rewrite read_cstr_nul by done. cbn [mbind option_bind]. rewrite IH by (cbn in Hf; lia). done.
Qed.

Lemma entries_length entries : (length entries <= length (concat (map m_entry entries)))%nat.
Proof. induction entries as [|e entries IH]; cbn; [lia|]. rewrite !length_app. cbn. lia. Qed.

Lemma directory_read d s : m_ok d -> handle_directory (STREAM (m_directory d ++ s) false) = Some (m_paths d, STREAM s false).
Proof.
  intros (Ht & Hp & He). unfold handle_directory, m_directory. rewrite <- Ht, <- app_assoc, fread_app. cbn [rest feof].
  rewrite <- app_assoc. cbn [app]. rewrite read_cstr_nul by done. cbn [mbind option_bind]. rewrite <- app_assoc.
  apply entries_read; [done|]. rewrite length_app. pose proof (entries_length (md_entries d)). lia.
Qed.

Lemma directories_read directories : Forall m_ok directories -> forall fuel, (length directories < fuel)%nat ->
  directories_loop fuel (STREAM (concat (map m_directory directories)) false) = Some (concat (map m_paths directories)).
Proof.
  induction 1 as [|d directories Hd _ IH]; intros fuel Hf; (destruct fuel as [|fuel]; [cbn in Hf; lia|]).
  - cbn [map concat]. by destruct fuel.
  - cbn [map concat directories_loop feof]. rewrite directory_read by done. cbn [mbind option_bind].
    cbn in Hf. rewrite (IH fuel) by lia. done.
Qed.

Lemma directories_length directories : Forall m_ok directories ->
  (length directories <= length (concat (map m_directory directories)))%nat.
Proof.
  induction 1 as [|d directories (Ht & _ & _) _ IH]; cbn [map concat length]; [lia|].
  rewrite length_app. unfold m_directory at 1. rewrite length_app, Ht. unfold sizeof_db_directory. lia.
Qed.

Lemma header_read magic visibility (conf : bytes) : length magic = 8%nat -> length visibility = 4%nat -> Z.of_nat (length conf) < 2 ^ 32 ->
  let s := magic ++ rev (le_bytes 4 (Z.of_nat (length conf))) ++ visibility in
  length s = sizeof_db_header /\ hdr_conf_size (parse_db_header s) = Z.of_nat (length conf).
Proof.
  intros Hm Hv Hc s. split; [by unfold s; rewrite !length_app, length_rev, length_le_bytes, Hm, Hv|].
  cbn [parse_db_header hdr_conf_size]. unfold s, be_val. rewrite <- Hm at 1. rewrite drop_app_length.
  rewrite <- (length_le_bytes 4 (Z.of_nat (length conf))) at 1. rewrite <- length_rev, take_app_length, rev_involutive.
  apply le_val_le_bytes_small. change (256 ^ Z.of_nat 4) with (2 ^ 32). lia.
Qed.

(** C33. A database of mlocate is read as the files of its directories: an entry's path
    is the directory's, without the slash of the root, a slash and the entry's name, for
    files and directories both; the configuration block is stepped over whatever it holds,
    and the end of the last directory ends the reading. *)
Theorem mlocate_roundtrip magic visibility root conf directories :
  length magic = 8%nat -> length visibility = 4%nat -> (0 ∉ root) -> Z.of_nat (length conf) < 2 ^ 32 -> Forall m_ok directories ->
  read_mlocate (m_database magic visibility root conf directories) = Some (concat (map m_paths directories)).
Proof.
  intros Hm Hv Hr Hc Hd. destruct (header_read magic visibility conf Hm Hv Hc) as [Hl Hs].
  unfold read_mlocate, m_database. rewrite (app_assoc (rev _)), (app_assoc magic), <- Hl, fread_app. cbn [rest feof].
  cbn [app]. rewrite read_cstr_nul by done. cbn [mbind option_bind]. unfold fseek_cur. cbn [rest]. rewrite Hs, Nat2Z.id, drop_app_length.
  apply directories_read; [done|]. pose proof (directories_length directories Hd). lia.
Qed.

(** C15. Searching the database that [do_build] makes of a text prints exactly the lines
    that match, in their order, provided that the lines are names: no line is empty, holds
    a NUL or has exactly three bytes, there are fewer than 2^24 of them, and the needles are as for
    [database_search_exact].  Other texts are not read line by line: a blank line becomes
    a file with an empty name that is counted but not printed ([blank_line_is_a_file]), a
    NUL inside a line joins it with the next ([nul_joins_lines]) and one at its start
    ends the program ([nul_starts_line]).  The last line may lack its newline.  The
    dictionary is trained on the first pass, whatever it saw. *)
Theorem text_search_exact reservoir_rand zdict_train zstd_compress {C : Type} `{!StreamCompressor C} (new_c : C)
    decompress buf1 buf build_fuel prime_fuel block_size first dictionary visibility
    lines tail file opt fnmatch regexec accessible lstat slop_bytes arrivals
    (sort_groups : list TrigramDisjunction -> list TrigramDisjunction) (arrive : list (Trigram * Z) -> list (Trigram * Z))
    loc fuel iv needles
    (Hzstd : forall dict b, zstd_compress dict b <> [] /\ decompress dict (zstd_compress dict b) = Some b)
    (Hbufs : length buf1 = P4NENC_BOUND 1 /\ length buf = P4NENC_BOUND 128 /\ Forall is_byte buf)
    (Hbs : 0 < block_size < 2 ^ 31)
    (Hlines : Forall (fun l => path_ok l /\ length l <> 3%nat /\ (10 ∉ l)) (text_lines lines tail) /\ Z.of_nat (length (text_lines lines tail)) < 2 ^ 24)
    (Hdict : (sample ← read_plaintext first; build_dictionary reservoir_rand zdict_train 1000 block_size 1024 sample) = Some dictionary)
    (Hbuild : do_build reservoir_rand zdict_train zstd_compress new_c buf1 buf build_fuel prime_fuel
       first (text_of lines tail) block_size true visibility = Some file)
    (Hsizes : Z.of_nat (length file) < 2 ^ 36 /\ Z.of_nat (length dictionary) < 2 ^ 32)
    (Hslop : slop slop_bytes) (Hloc : locale_ok loc)
    (Hneedles : patterns_are_regex opt = true \/ Forall (needle_ok opt fnmatch loc fuel) needles)
    (Hsort : forall l, sort_groups l ≡ₚ l) (Harrive : forall l, arrive l ≡ₚ l)
    (Harrivals : forall gs, needle_groups opt loc fuel needles = Some gs ->
      arrivals ≡ₚ trigrams_to_lookup (trigram_groups gs)) :
  search_result_ok
    (List.filter (wanted opt fnmatch regexec (fun f => negb (if (iv : bool) then false else visibility) || accessible f) lstat needles)
       (text_lines lines tail))
    (search_database opt fnmatch regexec (decompress dictionary) accessible lstat slop_bytes arrivals sort_groups arrive loc fuel
       iv true needles file).
Proof.
  destruct Hlines as [Hl Hn]. assert (Hp : Forall plain (text_lines lines tail)).
  { eapply Forall_impl; [exact Hl|]. intros l ([Hname _] & _ & H10). split; [|done]. intros H0.
    unfold name in Hname. rewrite Forall_forall in Hname. apply Hname in H0. lia. }
  assert (Hp2 : Forall plain lines /\ plain tail).
  { unfold text_lines in Hp. apply Forall_app in Hp as [Hp1 Hp2]. split; [done|].
    destruct (decide (tail = [])) as [->|]; [split; apply not_elem_of_nil|]. by inversion Hp2. }
  unfold do_build, read_input in Hbuild. destruct (read_plaintext first) as [sample|]; [|done]. cbn [mbind option_bind] in Hdict, Hbuild.
  rewrite Hdict in Hbuild. cbn [mbind option_bind] in Hbuild.
  rewrite (read_text lines tail) in Hbuild by apply Hp2. cbn [mbind option_bind] in Hbuild.
  destruct (record_streams _ _ _ _ _) as [[times metadata]|]; [|done]. cbn [mbind option_bind] in Hbuild.
  eapply (search_built (zstd_compress dictionary)); try done.
  split; [|done]. eapply Forall_impl; [exact Hl|]. by intros l (? & ? & _).
Qed.

(** ** Witnesses and examples *)

#[export] Instance plain_dec l : Decision (plain l).
Proof. unfold plain. apply _. Defined.

Definition long_line : bytes := bytes_of_string "/" ++ repeat 97 2000.
Definition sample_lines : list bytes := [bytes_of_string "/a/food"; bytes_of_string "/bar/x.txt"; []; long_line].

Lemma read_plaintext_lines_witness :
  read_plaintext (text_of sample_lines (bytes_of_string "/usr/lib")) = Some (sample_lines ++ [bytes_of_string "/usr/lib"]).
Proof. apply (read_plaintext_lines sample_lines (bytes_of_string "/usr/lib")); apply (bool_decide_unpack _); vm_compute; exact I. Defined.

Definition sample_mlocate : list MDirectory :=
  [MDIRECTORY (repeat 7 16) [47] [(true, bytes_of_string "usr"); (false, bytes_of_string "vmlinuz")];
   MDIRECTORY (repeat 8 16) (bytes_of_string "/usr") [(true, bytes_of_string "lib")];
   MDIRECTORY (repeat 9 16) (bytes_of_string "/usr/lib") []].

Lemma mlocate_roundtrip_witness :
  read_mlocate (m_database (0 :: bytes_of_string "mlocate") [0; 1; 0; 0] [47] (repeat 0 300) sample_mlocate)
  = Some (map bytes_of_string ["/usr"%string; "/vmlinuz"%string; "/usr/lib"%string]).
Proof.
  apply (mlocate_roundtrip (0 :: bytes_of_string "mlocate") [0; 1; 0; 0] [47] (repeat 0 300) sample_mlocate).
  - reflexivity.
  - reflexivity.
  - apply (bool_decide_unpack _). vm_compute. exact I.
  - vm_compute. reflexivity.
  - repeat apply Forall_cons_2; try apply Forall_nil_2; (split; [reflexivity|split; apply (bool_decide_unpack _); vm_compute; exact I]).
Defined.

Definition sample_build (input : bytes) (plaintext : bool) : option bytes :=
  do_build (fun n => n) (fun _ s ls => Some (take 9 s)) (fun _ => marked) () (repeat 0 133) (repeat 0 641) 10 100 input input 2
    plaintext true.

Definition sample_text : bytes := text_of (map bytes_of_string ["/a/food"%string; "/bar/x.txt"%string; "/foobar"%string]) (bytes_of_string "/zip/foo1").
Definition sample_built : bytes := default [] (sample_build sample_text true).

Definition search_built_sample : option SearchOutcome :=
  search_database sample_options no_match no_match unmarked sample_accessible sample_exists (repeat 7 16)
    (reverse (parse_trigrams (bytes_of_string "foo"))) reverse reverse ascii_locale 10 true true sample_needles sample_built.

Lemma text_search_exact_witness :
  search_result_ok
    (List.filter (wanted sample_options no_match no_match (fun f => negb false || sample_accessible f) sample_exists sample_needles)
       (map bytes_of_string ["/a/food"%string; "/bar/x.txt"%string; "/foobar"%string; "/zip/foo1"%string]))
    search_built_sample /\
  option_map (fun o => match o with Found els _ => messages els | _ => [] end) search_built_sample
    = Some (map bytes_of_string ["/a/food"%string; "/zip/foo1"%string]).
Proof.
  split; [|vm_compute; reflexivity]. unfold search_built_sample.
  apply (text_search_exact (fun n => n) (fun _ s ls => Some (take 9 s)) (fun _ => marked) () (fun _ => unmarked) (repeat 0 133)
    (repeat 0 641) 10 100 2 sample_text (bytes_of_string "/a/food" ++ [0; 47]) true
    (map bytes_of_string ["/a/food"%string; "/bar/x.txt"%string; "/foobar"%string]) (bytes_of_string "/zip/foo1") sample_built
    sample_options no_match no_match sample_accessible sample_exists (repeat 7 16)
    (reverse (parse_trigrams (bytes_of_string "foo"))) reverse reverse ascii_locale 10 true sample_needles).
  - intros d b. done.
  - split; [done|]. split; [done|]. apply (bool_decide_unpack _). vm_compute. exact I.
  - lia.
  - split; [|vm_compute; reflexivity]. apply (bool_decide_unpack _). vm_compute. exact I.
  - vm_compute. reflexivity.
  - vm_compute. reflexivity.
  - split; vm_compute; reflexivity.
  - split; [|cbn; lia]. apply (bool_decide_unpack _). vm_compute. exact I.
  - exact ascii_locale_ok.
  - right. apply Forall_singleton. split; [apply (bool_decide_unpack _); vm_compute; exact I|].
    cbn. split; [done|]. apply (bool_decide_unpack _). vm_compute. exact I.
  - intros l. apply reverse_Permutation.
  - intros l. apply reverse_Permutation.
  - intros gs Hgs. vm_compute in Hgs. injection Hgs as <-. apply (bool_decide_unpack _). vm_compute. exact I.
Defined.

(** An empty line becomes a file with an empty name, for which [check_access] starts
    its search one past the end. *)
Example blank_line_is_a_file : read_plaintext (text_of [[]; [97]] []) = Some [[]; [97]].
Proof. vm_compute. reflexivity. Qed.

(** A line that starts with a NUL fails the assertion; a NUL inside a line joins it
    with the next. *)
Example nul_starts_line : read_plaintext [0; 10; 97; 10] = None.
Proof. vm_compute. reflexivity. Qed.

Example nul_joins_lines : read_plaintext [97; 0; 98; 10; 99; 10] = Some [[97; 99]].
Proof. vm_compute. reflexivity. Qed.

(** The magic number of a database is not looked at. *)
Example any_magic : read_mlocate (m_database (repeat 1 8) [9; 0; 0; 0] [47] [] sample_mlocate) =
  Some (map bytes_of_string ["/usr"%string; "/vmlinuz"%string; "/usr/lib"%string]).
Proof. vm_compute. reflexivity. Qed.

(** The block size is what [atoi] makes of the argument, which does not look at what
    follows the digits. *)
Example block_size_options : map (fun b => parse_build_options [BlockSize (bytes_of_string b); Plaintext] 32 false true)
    ["64"%string; "8x"%string; "0"%string; "none"%string] =
  [inr (64, true, true); inr (8, true, true); inl (Exit 1); inl (Exit 1)].
Proof. vm_compute. reflexivity. Qed.
