(* ===== verification/Publish.v ===== *)
(** * Putting the new database in place (src/database-builder.cpp)

    The constructor of [DatabaseBuilder] opens a file that has no name, or a temporary
    one; [finish_corpus] gives it the name of the database when it is complete.  A
    step is a system call or the kernel taking a buffered write; the program can
    stop after any of them, so what is reachable is what a crash can leave. *)
From S2P Require Import Prelude.

(** ** The file system and the stream *)

Record Inode := INODE { data : bytes; mode : Z; group : Z }.

Record FileSystem := FS { names : gmap bytes nat; inodes : gmap nat Inode }.

(** Writing at an offset, with zeros up to it. *)
Definition pwrite (content : bytes) (w : nat * bytes) : bytes :=
  let '(pos, s) := w in
  take pos (content ++ repeat 0 (pos - length content)) ++ s ++ drop (pos + length s) content.

(** What is left for the program to do. *)
Inductive Op :=
| Fchmod
| Fchown
| Fwrite (s : bytes)
| Fseek_set_0
| Fflush
| Rename
| Unlink
| Linkat
| Fclose.

(** [temp_filename] is empty for a file without a name; [pending] is what stdio holds
    back, in order. *)
Record Process := PROCESS {
  fs : FileSystem;
  fd : nat;
  temp_filename : bytes;
  pos : nat;
  pending : list (nat * bytes);
  todo : list Op
}.

Inductive State := Opening (w : FileSystem) | Running (p : Process) | Exited (w : FileSystem).

Definition files (s : State) : FileSystem :=
  match s with Opening w | Exited w => w | Running p => fs p end.

Section Publish.
Context (outfile : bytes) (egid : Z) (owner : option Z).
(** What is written: up to the rewinding, and the header in the end. *)
Context (pieces : list bytes) (header : bytes).
(** Whether [O_TMPFILE] may work, and whether writes may fail. *)
Context (supports_tmpfile writes_fail : bool).

Definition mode_0640 : Z := 416.
Definition mode_0600 : Z := 384.

(** The calls of the constructor after the file is open, and those of [finish_corpus]. *)
Definition building (temp : bytes) : list Op :=
  (if decide (temp = []) then [] else [Fchmod]) ++ (match owner with Some _ => [Fchown] | None => [] end) ++
  map Fwrite pieces ++ [Fseek_set_0; Fwrite header; Fflush].

Definition publishing (temp : bytes) : list Op := if decide (temp = []) then [Unlink; Linkat; Fclose] else [Rename; Fclose].

Definition with_fs (w : FileSystem) (p : Process) : Process := PROCESS w (fd p) (temp_filename p) (pos p) (pending p) (todo p).

Definition with_inode (f : Inode -> Inode) (p : Process) : Process :=
  with_fs (FS (names (fs p)) (alter f (fd p) (inodes (fs p)))) p.

Definition with_names (f : gmap bytes nat -> gmap bytes nat) (p : Process) : Process :=
  with_fs (FS (f (names (fs p))) (inodes (fs p))) p.

Definition with_stream (new_pos : nat) (new_pending : list (nat * bytes)) (p : Process) : Process :=
  PROCESS (fs p) (fd p) (temp_filename p) new_pos new_pending (todo p).

Definition with_todo (ops : list Op) (p : Process) : Process :=
  PROCESS (fs p) (fd p) (temp_filename p) (pos p) (pending p) ops.

Definition set_mode (m : Z) (n : Inode) : Inode := INODE (data n) m (group n).
Definition set_group (g : Z) (n : Inode) : Inode := INODE (data n) (mode n) g.
Definition apply_writes (ws : list (nat * bytes)) (n : Inode) : Inode := INODE (fold_left pwrite ws (data n)) (mode n) (group n).

Definition flush (p : Process) : Process := with_stream (pos p) [] (with_inode (apply_writes (pending p)) p).

(** What a call does when it succeeds; [None]: it cannot. *)
Definition exec (op : Op) (p : Process) : option Process :=
  match op with
  | Fchmod => Some (with_inode (set_mode mode_0640) p)
  | Fchown => Some (with_inode (set_group (default egid owner)) p)
  | Fwrite s => Some (with_stream (pos p + length s) (pending p ++ [(pos p, s)]) p)
  | Fseek_set_0 => Some (with_stream 0 (pending p) p)
  | Fflush | Fclose => Some (flush p)
  | Rename => Some (with_names (fun m => <[outfile := fd p]> (delete (temp_filename p) m)) p)
  | Unlink => Some (with_names (delete outfile) p)
  | Linkat => if decide (names (fs p) !! outfile = None) then Some (with_names (insert outfile (fd p)) p) else None
  end.

(** The calls whose failure is checked. *)
Definition checked (op : Op) : bool :=
  match op with Fchmod | Fchown | Rename | Linkat => true | _ => false end.

Definition start (w : FileSystem) (ino : nat) (temp : bytes) (m : Z) (named : gmap bytes nat) : Process :=
  PROCESS (FS named (<[ino := INODE [] m egid]> (inodes w))) ino temp 0 [] (building temp ++ publishing temp).

Inductive step : State -> State -> Prop :=
| open_tmpfile w ino : supports_tmpfile = true -> inodes w !! ino = None ->
    step (Opening w) (Running (start w ino [] mode_0640 (names w)))
| mkstemp w ino suffix : length suffix = 6%nat -> inodes w !! ino = None ->
    let temp := outfile ++ [46] ++ suffix in
    names w !! temp = None ->
    step (Opening w) (Running (start w ino temp mode_0600 (<[temp := ino]> (names w))))
| open_fails w : step (Opening w) (Exited w)
| call op ops p p' : todo p = op :: ops -> exec op (with_todo ops p) = Some p' -> step (Running p) (Running p')
| call_fails op ops p : todo p = op :: ops -> checked op = true -> step (Running p) (Exited (fs p))
| unlink_fails ops p : todo p = Unlink :: ops -> step (Running p) (Running (with_todo ops p))
| kernel_writes w ws p : pending p = w :: ws ->
    step (Running p) (Running (with_stream (pos p) ws (with_inode (apply_writes [w]) p)))
| write_lost w ws p : writes_fail = true -> pending p = w :: ws -> step (Running p) (Running (with_stream (pos p) ws p)).

(** ** What is promised *)

(** The writes of a run: the pieces one behind the other, and the header over the one
    that was written first. *)
Fixpoint placed (pos : nat) (ps : list bytes) : list (nat * bytes) :=
  match ps with [] => [] | s :: ps => (pos, s) :: placed (pos + length s) ps end.

Definition all_writes : list (nat * bytes) := placed 0 pieces ++ [(0%nat, header)].

(** The header in place of the one that was written first. *)
Definition complete_data : bytes := header ++ drop (length header) (concat pieces).

(** The writes that reach the file: all of them, unless writes can fail. *)
Definition arrived (ws : list (nat * bytes)) : Prop := ws `sublist_of` all_writes /\ (writes_fail = false -> ws = all_writes).

Definition delivered (n : Inode) : Prop :=
  exists ws, arrived ws /\ n = INODE (fold_left pwrite ws []) mode_0640 (default egid owner).

(** The name is that of a file of this run, with the mode and the group it should have,
    that holds what has arrived, which is everything when no write fails. *)
Definition published (w : FileSystem) : Prop := exists ino n ws,
  names w !! outfile = Some ino /\ inodes w !! ino = Some n /\ mode n = mode_0640 /\ group n = default egid owner /\
  ws `sublist_of` all_writes /\ data n = fold_left pwrite ws [] /\ (writes_fail = false -> data n = complete_data).

(** Nothing that was there has been touched, but for the name of the database. *)
Definition kept (before after : FileSystem) : Prop :=
  (forall ino n, inodes before !! ino = Some n -> inodes after !! ino = Some n) /\
  (forall name ino, name <> outfile -> names before !! name = Some ino -> names after !! name = Some ino).

End Publish.

(** ** What is written *)

Lemma pwrite_end c s : pwrite c (length c, s) = c ++ s.
Proof. unfold pwrite. rewrite Nat.sub_diag. cbn [repeat]. by rewrite app_nil_r, firstn_all, drop_ge, app_nil_r by lia. Qed.

Lemma pwrite_start c s : pwrite c (0%nat, s) = s ++ drop (length s) c.
Proof. done. Qed.

Lemma write_all_app ws1 ws2 n : apply_writes (ws1 ++ ws2) n = apply_writes ws2 (apply_writes ws1 n).
Proof. unfold apply_writes. cbn [data mode group]. by rewrite fold_left_app. Qed.

Lemma placed_data ps : forall c, fold_left pwrite (placed (length c) ps) c = c ++ concat ps.
Proof.
  induction ps as [|s ps IH]; intros c; cbn [placed fold_left concat]; [by rewrite app_nil_r|].
  rewrite pwrite_end, <- length_app, IH. by rewrite app_assoc.
Qed.

Lemma all_writes_data pieces header : fold_left pwrite (all_writes pieces header) [] = complete_data pieces header.
Proof. unfold all_writes. rewrite fold_left_app. by setoid_rewrite (placed_data pieces []). Qed.

Section Correct.
Context (outfile : bytes) (egid : Z) (owner : option Z) (pieces : list bytes) (header : bytes) (supports_tmpfile writes_fail : bool).
Context (w0 : FileSystem).

Abbreviation exec' := (exec outfile egid owner).
Abbreviation arrived' := (arrived pieces header writes_fail).
Abbreviation delivered' := (delivered egid owner pieces header writes_fail).
Abbreviation published' := (published outfile egid owner pieces header writes_fail).
Abbreviation building' := (building owner pieces header).
Abbreviation step' := (step outfile egid owner pieces header supports_tmpfile writes_fail).

(** The writes that are still to be asked for. *)
Fixpoint later (ops : list Op) (pos : nat) : list (nat * bytes) :=
  match ops with
  | [] => []
  | Fwrite s :: ops => (pos, s) :: later ops (pos + length s)
  | Fseek_set_0 :: ops => later ops 0
  | _ :: ops => later ops pos
  end.

(** The mode and the group as they will be. *)
Fixpoint attributes (ops : list Op) (m g : Z) : Z * Z :=
  match ops with
  | [] => (m, g)
  | Fchmod :: ops => attributes ops mode_0640 g
  | Fchown :: ops => attributes ops m (default egid owner)
  | _ :: ops => attributes ops m g
  end.

Lemma later_pieces ops ps : forall pos, later (map Fwrite ps ++ ops) pos = placed pos ps ++ later ops (pos + length (concat ps)).
Proof.
  induction ps as [|s ps IH]; intros pos; cbn [map app later placed concat]; [by rewrite Nat.add_0_r|].
  by rewrite IH, length_app, Nat.add_assoc.
Qed.

Lemma attributes_pieces ops ps : forall m g, attributes (map Fwrite ps ++ ops) m g = attributes ops m g.
Proof. induction ps as [|s ps IH]; intros m g; [done|apply IH]. Qed.

Lemma later_building temp : later (building' temp) 0 = all_writes pieces header.
Proof.
  unfold building, all_writes. destruct (decide (temp = [])); destruct owner; cbn [app later]; by rewrite later_pieces.
Qed.

Lemma attributes_building temp : attributes (building' temp) (if decide (temp = []) then mode_0640 else mode_0600) egid = (mode_0640, default egid owner).
Proof.
  unfold building. destruct (decide (temp = [])); destruct owner eqn:Eo; cbn [app attributes default from_option]; by rewrite attributes_pieces, ?Eo.
Qed.

(** What has been written of the file that is built, with what is held back and what is
    to come, is what arrives. *)
Record on_its_way (ops : list Op) (p : Process) (n : Inode) : Prop := {
  w_data : exists ws, data n = fold_left pwrite ws [] /\ arrived' (ws ++ pending p ++ later ops (pos p));
  w_attributes : attributes ops (mode n) (group n) = (mode_0640, default egid owner)
}.

Lemma on_its_way_done p n : on_its_way [] p n -> pending p = [] -> delivered' n.
Proof.
  intros [(ws & Ed & A) Ha] Hp. exists ws. rewrite Hp in A. cbn in A. rewrite app_nil_r in A. split; [done|].
  destruct n as [d m g]. cbn in *. injection Ha as -> ->. by rewrite Ed.
Qed.

Lemma delivered_published w ino n : names w !! outfile = Some ino -> inodes w !! ino = Some n -> delivered' n -> published' w.
Proof.
  intros Hn Hi (ws & [Hs Ha] & ->). exists ino. eexists. exists ws. split; [done|]. split; [exact Hi|].
  repeat split; [done|]. intros Hw. cbn [data]. by rewrite (Ha Hw), all_writes_data.
Qed.

(** What reaches the file. *)
Lemma on_its_way_write ws later_ws ops p p' n : on_its_way ops p n -> pending p = ws ++ later_ws ->
  pending p' = later_ws -> pos p' = pos p -> on_its_way ops p' (apply_writes ws n).
Proof.
  intros [(ws0 & Ed & A) Ha] Hp Hp' Hpos. split; [|done]. exists (ws0 ++ ws). cbn [apply_writes data]. rewrite fold_left_app, <- Ed.
  split; [done|]. rewrite Hp, <- !app_assoc in A. by rewrite Hp', Hpos, <- app_assoc.
Qed.

Lemma on_its_way_flush ops p p' n : on_its_way ops p n -> pending p' = [] -> pos p' = pos p -> on_its_way ops p' (apply_writes (pending p) n).
Proof. intros H Hp Hpos. eapply on_its_way_write; [exact H|by rewrite app_nil_r|done|done]. Qed.

Lemma on_its_way_lost w ws ops p p' n : on_its_way ops p n -> writes_fail = true -> pending p = w :: ws -> pending p' = ws -> pos p' = pos p ->
  on_its_way ops p' n.
Proof.
  intros [(ws0 & Ed & [Hs _]) Ha] Hf Hp Hp' Hpos. split; [|done]. exists ws0. split; [done|]. split; [|congruence].
  rewrite Hp', Hpos. etrans; [|exact Hs]. rewrite Hp. apply sublist_app; [done|]. apply sublist_app; [|done]. by apply sublist_cons.
Qed.

Definition builds (op : Op) : bool :=
  match op with Fchmod | Fchown | Fwrite _ | Fseek_set_0 | Fflush => true | _ => false end.

(** How far the program is: it builds the file, is between unlinking the old one and
    linking the new one, or has put it in place. *)
Inductive phase (p : Process) (n : Inode) : Prop :=
| Building ops : todo p = ops ++ publishing (temp_filename p) -> Forall (fun op => builds op = true) ops ->
    on_its_way ops p n -> names (fs p) !! outfile = names w0 !! outfile ->
    (if decide (ops = []) then pending p = [] else last ops = Some Fflush) -> phase p n
| Linking : todo p = [Linkat; Fclose] -> temp_filename p = [] -> pending p = [] -> delivered' n ->
    (names (fs p) !! outfile = None \/ names (fs p) !! outfile = names w0 !! outfile) -> phase p n
| Placed : todo p = [Fclose] \/ todo p = [] -> pending p = [] -> delivered' n -> names (fs p) !! outfile = Some (fd p) ->
    (temp_filename p <> [] -> names (fs p) !! temp_filename p = None) -> phase p n.

Record inv (p : Process) : Prop := {
  i_fresh : inodes w0 !! fd p = None;
  i_inodes : forall ino n, inodes w0 !! ino = Some n -> inodes (fs p) !! ino = Some n;
  i_names : forall name ino, name <> outfile -> names w0 !! name = Some ino -> names (fs p) !! name = Some ino;
  i_temp : if decide (temp_filename p = []) then supports_tmpfile = true
           else temp_filename p <> outfile /\ names w0 !! temp_filename p = None;
  i_phase : exists n, inodes (fs p) !! fd p = Some n /\ phase p n
}.

Definition safe (w : FileSystem) : Prop :=
  kept outfile w0 w /\
  (names w !! outfile = names w0 !! outfile \/ published' w \/ supports_tmpfile = true /\ names w !! outfile = None).

Lemma inv_safe p : inv p -> safe (fs p).
Proof.
  intros [Hf Hi Hn Ht (n & En & Hp)]. split; [done|]. destruct Hp as [ops _ _ _ H _|_ Et _ _ H|_ _ Hd H _].
  - by left.
  - destruct H as [H|H]; [|by left]. right. right. by rewrite decide_True in Ht.
  - right. left. by eapply delivered_published.
Qed.

(** Changes of the file that is being built. *)
Lemma with_inode_inv f p p' n : inv p -> fd p' = fd p -> temp_filename p' = temp_filename p -> names (fs p') = names (fs p) ->
  inodes (fs p') = alter f (fd p) (inodes (fs p)) -> inodes (fs p) !! fd p = Some n -> phase p' (f n) -> inv p'.
Proof.
  intros [Hf Hi Hn Ht _] Ef Et Em Ei En Hp. split.
  - by rewrite Ef.
  - intros ino m Hm. rewrite Ei, lookup_alter_ne; [by apply Hi|]. congruence.
  - by rewrite Em.
  - by rewrite Et.
  - exists (f n). split; [|done]. by rewrite Ei, Ef, lookup_alter_eq, En.
Qed.

Lemma last_tail {A} (x : A) l y : last (x :: l) = Some y -> if decide (l = []) then x = y else last l = Some y.
Proof. destruct l; [by intros [= ->]|done]. Qed.

Lemma flush_later (op : Op) ops (P : Prop) : (op = Fflush -> P) ->
  (if decide (ops = []) then op = Fflush else last ops = Some Fflush) -> if decide (ops = []) then P else last ops = Some Fflush.
Proof. intros. destruct (decide (ops = [])); intuition. Qed.

(** A call that builds the file. *)
Lemma building_call p p' op ops n : inv p -> inodes (fs p) !! fd p = Some n -> builds op = true ->
  Forall (fun op => builds op = true) ops -> on_its_way (op :: ops) p n -> names (fs p) !! outfile = names w0 !! outfile ->
  last (op :: ops) = Some Fflush -> exec' op (with_todo (ops ++ publishing (temp_filename p)) p) = Some p' -> inv p'.
Proof.
  intros Hinv En Hop F Hw Hn Hl He. apply last_tail in Hl. pose proof Hinv as [Hf Hi Hnames Htemp _].
  assert (H : exists f, on_its_way ops p' (f n) /\ inodes (fs p') = alter f (fd p) (inodes (fs p)) /\ fd p' = fd p /\
    temp_filename p' = temp_filename p /\ names (fs p') = names (fs p) /\ todo p' = ops ++ publishing (temp_filename p) /\
    (op = Fflush -> pending p' = [])).
  { pose proof Hw as [(ws & Ed & A) Ha]. destruct op; try done; injection He as <-.
    - exists (set_mode mode_0640). by split; [split; [by exists ws|]|].
    - exists (set_group (default egid owner)). by split; [split; [by exists ws|]|].
    - exists id. split; [split; [exists ws; split; [done|]|done]|]; [by cbn; rewrite <- app_assoc|].
      cbn. split; [|done]. by rewrite alter_id by done.
    - exists id. split; [split; [by exists ws|done]|].
      cbn. split; [|done]. by rewrite alter_id by done.
    - exists (apply_writes (pending p)). split; [|done]. apply (on_its_way_flush ops p); [|done..]. split; [by exists ws|done]. }
  destruct H as (f & Hway & Ei & Ef & Et & Enames & Htodo & Hflush). eapply with_inode_inv; [exact Hinv|done..|].
  apply Building with ops; [by rewrite Et|done|done|by rewrite Enames|]. by eapply flush_later.
Qed.

(** The calls that put it in place. *)
Lemma placing_call p p' op ops n : inv p -> inodes (fs p) !! fd p = Some n -> pending p = [] -> delivered' n ->
  names (fs p) !! outfile = names w0 !! outfile -> publishing (temp_filename p) = op :: ops ->
  exec' op (with_todo ops p) = Some p' -> inv p'.
Proof.
  intros [Hf Hi Hnames Htemp _] En Hp Hd Hn Hpub He. unfold publishing in Hpub.
  destruct (decide (temp_filename p = [])) as [Et|Et]; injection Hpub as <- <-; injection He as <-; split; cbn; try done.
  - intros name ino H H0. rewrite lookup_delete_ne by done. by apply Hnames.
  - by rewrite decide_True.
  - exists n. split; [done|]. apply Linking; try done. left. apply lookup_delete_eq.
  - intros name ino H H0. rewrite lookup_insert_ne by done. rewrite lookup_delete_ne by (intros E; rewrite E in Htemp; destruct Htemp; congruence). by apply Hnames.
  - by rewrite decide_False.
  - exists n. split; [done|]. apply Placed; try done; cbn; [by left|apply lookup_insert_eq|].
    intros _. destruct Htemp as [Ho _]. rewrite lookup_insert_ne by done. apply lookup_delete_eq.
Qed.

Lemma call_inv p p' op ops : inv p -> todo p = op :: ops -> exec' op (with_todo ops p) = Some p' -> inv p'.
Proof.
  intros Hinv Ht He. pose proof Hinv as [Hf Hi Hnames Htemp (n & En & Hp)]. destruct Hp as [body Hb F Hw Hn Hl|Hb Et Hp Hc Hn|Hb Hp Hc Hn Hd].
  - destruct body as [|op' body]; cbn [app] in Hb.
    + rewrite decide_True in Hl by done. eapply placing_call; try done; [by eapply on_its_way_done|by rewrite <- Hb].
    + rewrite Ht in Hb. injection Hb as -> ->. apply Forall_cons in F as [Hop F]. rewrite decide_False in Hl by done.
      by eapply building_call.
  - rewrite Ht in Hb. injection Hb as -> ->. cbn in He.
    destruct (decide (names (fs p) !! outfile = None)) as [E|]; [|done]. injection He as <-. split; cbn; try done.
    + intros name ino H H0. rewrite lookup_insert_ne by done. by apply Hnames.
    + exists n. split; [done|]. apply Placed; try done; cbn; [by left|apply lookup_insert_eq].
  - destruct Hb as [Hb|Hb]; rewrite Ht in Hb; [|done]. injection Hb as -> ->. injection He as <-.
    eapply with_inode_inv; [exact Hinv|done..|]. cbn. rewrite Hp. unfold apply_writes. cbn. destruct n as [d m g].
    apply Placed; try done. by right.
Qed.

Definition good (s : State) : Prop := match s with Opening w => w = w0 | Running p => inv p | Exited w => safe w end.

Lemma start_inv ino temp m named : inodes w0 !! ino = None -> m = (if decide (temp = []) then mode_0640 else mode_0600) ->
  (forall name i, names w0 !! name = Some i -> named !! name = Some i) -> named !! outfile = names w0 !! outfile ->
  (if decide (temp = []) then supports_tmpfile = true else temp <> outfile /\ names w0 !! temp = None) ->
  inv (start egid owner pieces header w0 ino temp m named).
Proof.
  intros Hf -> Hn Ho Ht. split; cbn; try done.
  - intros i n Hi. rewrite lookup_insert_ne; [done|]. congruence.
  - intros name i _ Hi. by apply Hn.
  - eexists. split; [by rewrite lookup_insert_eq|]. eapply Building; cbn; [done| | |done|].
    + unfold building. rewrite !Forall_app. repeat split; [by case_decide; repeat constructor|by destruct owner; repeat constructor| |by repeat constructor].
      apply Forall_forall. intros op H. apply list_elem_of_fmap in H as (x & -> & _). done.
    + split; [exists []; split; [done|]; cbn [pending pos start app]; by rewrite later_building|apply attributes_building].
    + rewrite decide_False by (unfold building; intros E; apply app_nil in E as [_ E]; apply app_nil in E as [_ E]; apply app_nil in E as [_ E]; done).
      unfold building. change [Fseek_set_0; Fwrite header; Fflush] with ([Fseek_set_0; Fwrite header] ++ [Fflush]).
      by rewrite !app_assoc, last_snoc.
Qed.

Lemma temp_name_ne suffix : length suffix = 6%nat -> outfile ++ [46] ++ suffix <> outfile.
Proof. intros Hs E. apply (f_equal length) in E. rewrite length_app in E. cbn in E. lia. Qed.

Lemma good_step s s' : good s -> step' s s' -> good s'.
Proof.
  intros G H. destruct H as [w ino Hs Hf|w ino suffix Hs Hf temp Ht|w|op ops p p' Ht He|op ops p Ht Hc|ops p Ht|w ws p Hp|w ws p Hfail Hp];
    cbn [good] in *; try subst w.
  - by apply start_inv; try rewrite decide_True.
  - assert (Hne : temp <> []) by (unfold temp; by destruct outfile). apply start_inv; rewrite ?decide_False by done; try done.
    + intros name i Hi. rewrite lookup_insert_ne; [done|]. congruence.
    + by apply lookup_insert_ne, temp_name_ne.
    + split; [by apply temp_name_ne|done].
  - split; [by split|by left].
  - by eapply call_inv.
  - by apply inv_safe.
  - destruct G as [Hf Hi Hn Htemp (n & En & Hph)]. split; try done. exists n. split; [done|].
    destruct Hph as [body Hb F Hw Ho Hl|Hb|Hb]; [|by rewrite Ht in Hb|by rewrite Ht in Hb; destruct Hb].
    destruct body as [|op body]; cbn [app] in Hb; rewrite Ht in Hb.
    2:{ injection Hb as <- _. by apply Forall_cons in F as [F _]. }
    rewrite decide_True in Hl by done. unfold publishing in Hb. destruct (decide (temp_filename p = [])) eqn:Et; [|done]. injection Hb as ->.
    apply Linking; try done; [by eapply on_its_way_done|by right].
  - pose proof G as [Hf Hi Hn Htemp (n & En & Hph)]. assert (Hphase : phase (with_stream (pos p) ws (with_inode (apply_writes [w]) p)) (apply_writes [w] n)).
    { destruct Hph as [body Hb F Hw Ho Hl|Hb _ Hl|Hb Hl]; [|by rewrite Hl in Hp|by rewrite Hl in Hp].
      apply Building with body; try done; cbn.
      - by apply (on_its_way_write [w] ws body p).
      - destruct (decide (body = [])); [by rewrite Hl in Hp|done]. }
    by eapply (with_inode_inv (apply_writes [w]) p).
  - destruct G as [Hf Hi Hn Htemp (n & En & Hph)]. split; try done. exists n. split; [done|].
    destruct Hph as [body Hb F Hway Ho Hl|Hb _ Hl|Hb Hl]; [|by rewrite Hl in Hp|by rewrite Hl in Hp].
    apply Building with body; try done; [by eapply on_its_way_lost|]. destruct (decide (body = [])); [by rewrite Hl in Hp|done].
Qed.

Lemma reachable_good s : rtc step' (Opening w0) s -> good s.
Proof. apply (rtc_ind_r good); [done|]. intros s1 s2 _ H G. by eapply good_step. Qed.

Lemma reachable_safe s : rtc step' (Opening w0) s -> safe (files s) /\
  (forall p, s = Running p -> todo p = [] -> published' (fs p) /\ (temp_filename p <> [] -> names (fs p) !! temp_filename p = None)).
Proof.
  intros H. apply reachable_good in H. destruct s as [w|p|w]; cbn [good files] in *; [subst w|..].
  - split; [split; [by split|by left]|done].
  - split; [by apply inv_safe|]. intros p' [= <-] Ht. destruct H as [Hf Hi Hn Htemp (n & En & Hph)].
    destruct Hph as [body Hb F Hw Ho Hl|Hb|Hb Hl Hdel Ho Hd]; rewrite Ht in *.
    + destruct body; [|done]. unfold publishing in Hb. by destruct (decide _).
    + done.
    + split; [|done]. by eapply delivered_published.
  - split; [exact H|done].
Qed.
End Correct.

(** C13. Whenever the program stops, even in the middle of it, the name of the database is
    that of the file that was there before, or of the new file with mode 0640 and the
    wanted group; only where the file has had no name so far ([O_TMPFILE]) can the name
    be missing.  The new file then is complete, with its header in place, although
    writes are held back on the way, provided that no write fails; the results of writing
    are not looked at, so if writes can fail, as on a full disk, the new file that takes the place
    of the old one holds what those writes put there that have not been lost (see
    [full_disk_is_published]).  Nothing else that was there is touched, and a run that
    comes to its end has put the new file in place and left no temporary name. *)
Theorem publish_safe outfile egid owner pieces header supports_tmpfile writes_fail w s :
  rtc (step outfile egid owner pieces header supports_tmpfile writes_fail) (Opening w) s ->
  kept outfile w (files s) /\
  (names (files s) !! outfile = names w !! outfile \/ published outfile egid owner pieces header writes_fail (files s) \/
   supports_tmpfile = true /\ names (files s) !! outfile = None) /\
  (forall p, s = Running p -> todo p = [] ->
     published outfile egid owner pieces header writes_fail (fs p) /\ (temp_filename p <> [] -> names (fs p) !! temp_filename p = None)).
Proof. intros H. apply reachable_safe in H as [[H1 H2] H3]. done. Qed.

(** ** Runs *)

(** [n] calls that succeed, while the kernel does not write by itself. *)
Fixpoint calls (outfile : bytes) (egid : Z) (owner : option Z) (n : nat) (p : Process) : option Process :=
  match n with
  | O => Some p
  | S n =>
    match todo p with
    | [] => Some p
    | op :: ops => p ← exec outfile egid owner op (with_todo ops p); calls outfile egid owner n p
    end
  end.

Lemma calls_reach outfile egid owner pieces header supports_tmpfile writes_fail n : forall p p', calls outfile egid owner n p = Some p' ->
  rtc (step outfile egid owner pieces header supports_tmpfile writes_fail) (Running p) (Running p').
Proof.
  induction n as [|n IH]; intros p p'; cbn [calls]; [by intros [= ->]|]. destruct (todo p) as [|op ops] eqn:Et; [by intros [= ->]|].
  destruct (exec _ _ _ op _) as [p1|] eqn:Ee; [|done]. cbn [mbind option_bind]. intros H.
  eapply rtc_l; [by eapply call|]. by apply IH.
Qed.

Definition db_name : bytes := bytes_of_string "db".
Definition old_world : FileSystem :=
  FS {[db_name := 1%nat; bytes_of_string "x" := 2%nat]} {[1%nat := INODE [7; 7] 416 5; 2%nat := INODE [9] 420 0]}.
Definition db_pieces : list bytes := [[255; 0; 0]; [1; 2]; []; [3]].
Definition late_header : bytes := [2; 10; 20].
Definition begun (supports_tmpfile : bool) : Process :=
  if supports_tmpfile then start 100 (Some 5) db_pieces late_header old_world 3 [] 416 (names old_world)
  else start 100 (Some 5) db_pieces late_header old_world 3 (db_name ++ [46] ++ repeat 97 6) 384
    (<[db_name ++ [46] ++ repeat 97 6 := 3%nat]> (names old_world)).

Lemma begun_reached supports_tmpfile writes_fail :
  step db_name 100 (Some 5) db_pieces late_header supports_tmpfile writes_fail (Opening old_world) (Running (begun supports_tmpfile)).
Proof. destruct supports_tmpfile; [by apply open_tmpfile|by apply (mkstemp _ _ _ _ _ _ _ old_world 3 (repeat 97 6))]. Qed.

Definition finished : Process := default (begun false) (calls db_name 100 (Some 5) 20 (begun false)).

Lemma publish_safe_witness :
  kept db_name old_world (files (Running finished)) /\
  (names (files (Running finished)) !! db_name = names old_world !! db_name \/
   published db_name 100 (Some 5) db_pieces late_header false (files (Running finished)) \/
   false = true /\ names (files (Running finished)) !! db_name = None) /\
  (forall p, Running finished = Running p -> todo p = [] ->
     published db_name 100 (Some 5) db_pieces late_header false (fs p) /\ (temp_filename p <> [] -> names (fs p) !! temp_filename p = None)).
Proof.
  apply (publish_safe db_name 100 (Some 5) db_pieces late_header false false old_world (Running finished)).
  eapply rtc_l; [apply begun_reached|]. apply (calls_reach _ _ _ _ _ _ _ 20). vm_compute. reflexivity.
Defined.

Example finished_is_complete : todo finished = [] /\
  (ino ← names (fs finished) !! db_name; inodes (fs finished) !! ino) = Some (INODE [2; 10; 20; 1; 2; 3] 416 5).
Proof. split; vm_compute; reflexivity. Qed.

(** If the new file cannot be linked the old one is gone already. *)
Example link_failure_loses_database : exists w,
  rtc (step db_name 100 (Some 5) db_pieces late_header true false) (Opening old_world) (Exited w) /\ names w !! db_name = None.
Proof.
  destruct (calls db_name 100 (Some 5) 9 (begun true)) as [p|] eqn:E; [|by vm_compute in E].
  exists (fs p). assert (H : todo p = [Linkat; Fclose] /\ names (fs p) !! db_name = None).
  { vm_compute in E. injection E as <-. split; vm_compute; reflexivity. }
  split; [|apply H]. eapply rtc_l; [apply begun_reached|].
  eapply rtc_r; [by eapply (calls_reach _ _ _ _ _ _ _ 9)|]. eapply call_fails; [apply H|done].
Qed.

(** The results of writing are not looked at: when the disk is full, what could be
    written takes the place of the old database. *)
Definition before_full : Process := default (begun false) (calls db_name 100 (Some 5) 8 (begun false)).
Definition first_written : Process :=
  with_stream (pos before_full) (drop 1 (pending before_full)) (with_inode (apply_writes (take 1 (pending before_full))) before_full).
Definition rest_lost : Process := with_stream (pos first_written) (drop 4 (pending before_full)) first_written.
Definition full_finished : Process := default (begun false) (calls db_name 100 (Some 5) 9 rest_lost).

Lemma lost_reach outfile egid owner pieces header supports_tmpfile ws : forall p later, pending p = ws ++ later ->
  rtc (step outfile egid owner pieces header supports_tmpfile true) (Running p) (Running (with_stream (pos p) later p)).
Proof.
  induction ws as [|w ws IH]; intros p later Hp; cbn [app] in Hp; [rewrite <- Hp; by destruct p|].
  eapply rtc_l; [by eapply write_lost|]. apply (IH (with_stream (pos p) (ws ++ later) p)). done.
Qed.

Example full_disk_is_published :
  rtc (step db_name 100 (Some 5) db_pieces late_header false true) (Opening old_world) (Running full_finished) /\ todo full_finished = [] /\
  (ino ← names (fs full_finished) !! db_name; inodes (fs full_finished) !! ino) = Some (INODE [2; 10; 20] 416 5).
Proof.
  split; [|split; vm_compute; reflexivity]. eapply rtc_l; [apply begun_reached|].
  etrans; [apply (calls_reach _ _ _ _ _ _ _ 8 _ before_full); vm_compute; reflexivity|].
  eapply rtc_l; [apply (kernel_writes _ _ _ _ _ _ _ (0%nat, [255; 0; 0]) (drop 1 (pending before_full))); vm_compute; reflexivity|].
  etrans; [apply (lost_reach _ _ _ _ _ _ (take 3 (drop 1 (pending before_full))) first_written (drop 4 (pending before_full))); vm_compute; reflexivity|].
  apply (calls_reach _ _ _ _ _ _ _ 9 rest_lost). vm_compute. reflexivity.
Qed.
